(* ===== verification/_CoqProject ===== *)
-Q . S2P
Prelude.v
Resp.v
Cstdlib.v
KvsConfig.v
Float32.v
KvsMempool.v
KvSpec.v
KvsArray.v
KvsHash.v
KvsSkiplist.v
KvsRbtree.v
RbtreeShape.v
RbtreeRotate.v
RbtreeInsert.v
RbtreeSearch.v
RbtreeDelete.v
RbtreeUnlink.v
RbtreeEngine.v
RbtreeProps.v
Aof.v
AofUring.v
AofUringSpec.v
KvsVector.v
VectorSpec.v
VectorInsert.v
VectorProps.v
Server.v
Boot.v
Rdb.v
Rdma.v
FullSync.v
FullSyncSpec.v
RdmaConn.v
SlaveStart.v
RdmaMaster.v
Replication.v
KvsCommand.v
CommandSpec.v
VectorEngine.v
Recovery.v
Lifecycle.v
Reactor.v
ReactorSpec.v
Ntyco.v
NtycoSpec.v
Proactor.v
XdpFilter.v
Forwarder.v
ForwarderSpec.v
ForwarderProps.v
SlaveStream.v
SlaveSpec.v
SlaveProps.v
Handoff.v
MemCheck.v
