(* ===== verification/Prelude.v ===== *)
(** * Verification of the KVStore server

    KVStore is an in-memory key-value server in C that speaks the RESP protocol.
    This library translates its sources into executable definitions and proves
    what makes each part correct; where the code does not do what it means to, a
    theorem exhibits it.

    ** The program

    One thread runs an epoll loop (reactor.c). It receives bytes, frames commands
    (kvstore.c), executes them (kvs_command.c) on one of four key-value engines
    with per-key expiry (kvs_array.c, kvs_hash.c, kvs_skiplist.c, kvs_rbtree.c) or
    on the vector index (kvs_vector.c), and sends the replies. Commands that
    changed data pass through a ring to a thread that writes them to the
    append-only file; snapshots of all engines are written by a child process or
    into memory (kvs_persistence.c). A slave asks a master for a full
    synchronisation: the master sends a snapshot over RDMA (kvs_repli_master.c,
    kvs_repli_slave.c, rdma.h). From then on a separate process on the master's
    machine captures the clients' TCP segments with an eBPF program
    (xdp/xdp.bpf.c), rebuilds the streams of commands and forwards the writes to
    the slave (xdp/xdp.c), which executes and acknowledges them
    (kvs_repli_slave.c).

    ** The model

    An operation is a function in the monad [M S] of this file: it takes an
    environment, a state [S] and a clock that counts the questions asked of the
    environment, and ends in [Done] or in a [Fault] (a read or write out of
    bounds, a freed or uninitialised object, signed overflow, a wait that nothing
    ends, a loop out of fuel).
    The environment [env] answers everything the program does not control: the
    time, the success of every malloc, fork and system call, coin flips, and how
    many bytes a read, a write, a recv or a send transfers. A theorem that
    quantifies over [env] therefore covers every failure the code checks for;
    [no_oom], [io_good] and [net_works] name the cases in which none happens. [wp]
    is the weakest precondition: [wp m Q E s t] says that [m] ends without a fault
    in a state that satisfies [Q].

    Integers are [Z]; [u32], [u64] and [s32] wrap, [checked32] and [checked64] fault
    on signed overflow. Bytes are [Byte.byte], C strings are lists of bytes without
    NUL, a pointer into a buffer is what is left of it (the framer's comparison of
    a pointer past its buffer is that of addresses, [past_end]). Structures that the code
    links by pointers and shares (skip list, red-black tree, vector index) are
    heaps of nodes; a freed node is absent from its heap.

    ** Files

    - Prelude: the monad, its rules and tactics ([wp_step], [to_prop]), machine
      integers, strings, decimal numbers. Cstdlib: the C library functions used.
    - Resp (kvstore.c): [resp_parse_one_command], [resp_parse_arguments].
    - KvSpec: the abstract dictionary with expiry and the interface [Engine]; one
      file per engine discharges it: KvsArray, KvsHash, KvsSkiplist, and for the
      red-black tree KvsRbtree (the code), RbtreeShape, RbtreeRotate, RbtreeInsert,
      RbtreeSearch, RbtreeDelete, RbtreeUnlink (rotations, fix-ups, unlinking on
      the heap, stated once for both sides), RbtreeEngine and RbtreeProps.
    - KvsConfig (kvs_config.c: the lines of a file and what they set), KvsMempool
      (kvs_mempool.c: blocks, sizes that wrap in 64 bits).
    - Float32: binary32 arithmetic, strtof, atof and "%.6f". KvsVector
      (kvs_vector.c): parsing, scores, candidate lists, the HNSW graph, the table
      and the tree of entries. VectorSpec, VectorInsert, VectorProps: the graph's
      invariant, insertion, and the claims. VectorEngine: the index as an instance
      of [VectorOps] and [VectorLaws], through which the server uses it, its rows in
      a snapshot, and the commands VSET, VGET and VSEARCH.
    - Aof (kvs_persistence.c: the ring, the append, the always-mode worker, and the
      two threads as an interleaving step relation in which the worker's open,
      writes, flushes and syncs can fail), AofUring and AofUringSpec (the
      io_uring worker with a kernel that performs writes in any order and size).
    - Server, Boot (kvstore.c): the global state, creation and reset of the
      engines, start-up. Rdb (kvs_persistence.c): writing and loading snapshots.
    - KvsCommand (kvs_command.c, kvstore.c, kvs_repli_master.c): the command
      tables, every case of the switch, [kvs_protocol]. CommandSpec: what a request
      deserves, and that every case gives it, for any [Engine].
    - Recovery (kvs_persistence.c): replaying the append-only file. Lifecycle
      (kvstore.c, kvs_persistence.c, kvs_expire.c): [main], which serves until the
      process is killed and takes the engines down only when it cannot serve,
      successive lives of the process, closing the log, the expiry thread.
    - Reactor, ReactorSpec (reactor.c): the connection table, the callbacks, and
      what a client sees. Ntyco, NtycoSpec (ntyco.c): the coroutine of a connection,
      resumed at any moment. Proactor (proactor.c): submissions, completions and the
      two buffers that all connections share.
    - Rdma (rdma.h), FullSync, FullSyncSpec, Replication: the messages of a full
      synchronisation, both ends' handlers, the network cards as a step relation
      over arbitrary schedules, and the composition with snapshots. RdmaConn
      (rdma.h): making and taking down a connection, every resource recorded.
      SlaveStart (kvs_repli_slave.c): [kvs_replication_slave_start], its waits and
      the paths that undo it. RdmaMaster (kvs_repli_master.c): the listening thread,
      its events, the list of replicas, and the cleanup.
    - XdpFilter (xdp/xdp.bpf.c), Forwarder, ForwarderSpec, ForwarderProps
      (xdp/xdp.c): the filter on the bytes of a frame; flows, framing, the queue,
      the connection to the slave, the main loop. The slave enters through the
      class [Peer]; [Follows] states what a slave promises.
    - SlaveStream, SlaveSpec, SlaveProps (kvs_repli_slave.c): the thread that
      executes forwarded commands, as an instance of [Peer] and of [Follows].
    - Handoff: SYNC, the queue that fills meanwhile, the snapshot, and the flush at
      FINSYNC, composed.
    - MemCheck (mem_leak/mem_check.c, mem_leak/mem_report.c): the record of
      allocations under any interleaving of threads, and the report.

    ** Theorems

    - Engines: each operation does to the heap or table exactly what the dictionary
      prescribes, on every branch, malloc failures included; the red-black and
      skip-list invariants hold after every operation; loops end within their
      fuel; destruction frees everything once; searches are logarithmic.
    - Commands: [protocol_refines] relates the bytes of a request to the reply, the
      dictionary and the log for any engine; reads are not recorded; slaves refuse
      writes; bad requests are answered. [reactor_serves] lifts it to a connection
      with arbitrary cuts and transfer sizes, [coroutine_serves] to the coroutine
      under any scheduler, [proactor_serves_one] to io_uring with one client;
      [proactor_mixes_clients] shows what several clients receive there.
    - Persistence: the ring loses, repeats and reorders nothing under any
      interleaving, and until a call of the worker fails the file holds every
      command whole ([aof_threads_fifo]); both workers write everything; replaying
      the file, or any prefix of it, gives the state after the requests or exactly
      what the complete commands of the prefix produce ([aof_crash_recovery]), and a
      torn command hides what is appended behind it ([torn_tail_hides]); snapshots
      round-trip ([rdb_roundtrip]), vectors as far as six decimals carry them
      ([snapshot_reprints_vectors]); [restarts_preserve] carries the data through
      any number of lives of the process.
    - Replication: [fullsync_replicates] for any schedule and failures of posts and
      files while memory does not run out; [forwarder_captures] for any slave and
      every segmentation that does not end a segment right after a '*' or a '$'
      ([forwarder_mark_cut_loses] shows what such an end does); [replica_follows]
      composes the forwarder, the slave's thread and the command layer;
      [sync_catches_up] composes them with the snapshot and the full
      synchronisation. Setting up and taking down a connection releases each resource
      once ([connection_balanced], [master_connections_balanced], and, when its waits
      are answered, [slave_start_balanced]), up to the exceptions shown beside them.
    - Configuration: [config_in_range], every line of a file is applied and the
      result is in range; [config_roundtrip], a written configuration is read back.
    - Vectors: [vector_index_refines_map] makes the index a map,
      [vector_search_sound] says what searches with a threshold above -2 return,
      [vector_queries_answered] what VGET and VSEARCH reply, and
      [greedy_reaches_local_max] that the descent ends; [vector_search_misses] shows
      what searches do not find.
    - Leak detector: [leak_report_exact], what the report lists and what it misses.
    - Errors: the theorems of kind "error", and examples beside them that run the
      code on one input, exhibit behaviour the code does not intend; PROJECT.json
      lists it as findings with their lines.

    ** Bounds and fuel

    Loops that are not structural carry fuel that the code's own state provides:
    the length of a buffer for parse loops (every round consumes input), the
    number of nodes of a heap plus one for walks along pointers, the number of
    queued commands for flushes, the number of published commands for workers.
    Running out is the fault [OutOfFuel], so every [wp] theorem shows that it does
    not happen. The coroutine has a round per unread byte, the master's clean-up one
    per replica; the slave waits for three connection events (address, route,
    established), and its scan for a token is bounded by the buffer of the reply.
    Hypotheses on sizes are the code's own limits: fewer keys than KVS_ARRAY_SIZE in
    the array, lengths that fit an int, messages below the slave's receive buffer,
    fewer than 2^30 entries of the vector index (its table doubles an int). Every round of the greedy descent improves the score, so the
    number of entries bounds it.

    Floats are rounded to nearest in binary32 after every operation, as gcc
    compiles the code for x86-64 without fused multiply-add.

    ** Not modelled

    System calls that only set up a descriptor (sockets, epoll and io_uring
    instances, attaching the eBPF program), signal handlers, the parsing of command
    lines, the waiting of pollers, and printing. The verbs library, NtyCo and
    liburing are third-party: their calls succeed or fail as the environment says.
    The makefile compiles only the epoll network; the two others are modelled as
    written. The expiry thread is not started by main: its start and stop are in
    Lifecycle, its scan is modelled per engine. Theorems about connections, the
    append-only file and the replication of commands are for requests without
    expiry: a deadline is computed anew from the clock when a command is replayed or
    reaches a slave. Data races
    between the RDMA thread and the command thread are outside the model, in which
    a snapshot is taken at one moment; PROJECT.json lists the one found. The
    client, tests and vendored code are not part of the server. *)

From Stdlib Require Import Strings.Byte.
From stdpp Require Export base decidable countable strings pretty numbers option gmap list.

#[global] Open Scope Z_scope.

(** ** Bytes and C strings *)

(** A [char] as the machine stores it. *)
Abbreviation byte := Byte.byte.
Abbreviation bytes := (list Byte.byte).

#[global] Instance byte_eq_dec : EqDecision byte.
Proof. intros x y. apply Byte.byte_eq_dec. Defined.

#[global] Program Instance byte_countable : Countable byte :=
  inj_countable Byte.to_N Byte.of_N _.
Next Obligation. apply Byte.of_to_N. Qed.

(** The literal of a C source string, without its terminating NUL. *)
Definition lit (s : string) : bytes := String.list_byte_of_string s.

(** [(unsigned char)c] and [(signed char)c] as integers. *)
Definition uchar (c : byte) : Z := Z.of_N (Byte.to_N c).
Definition schar (c : byte) : Z := if uchar c <? 128 then uchar c else uchar c - 256.

(** The byte that stores the low eight bits of an integer. *)
Definition to_byte (z : Z) : byte :=
  match Byte.of_N (Z.to_N (z mod 256)) with Some b => b | None => Byte.x00 end.

Definition NUL : byte := Byte.x00.
Definition CR : byte := Byte.x0d.
Definition LF : byte := Byte.x0a.
Definition crlf : bytes := [CR; LF].

(** What a [char *] into a buffer denotes as a C string: the bytes before the
    first NUL. *)
Fixpoint cstr (b : bytes) : bytes :=
  match b with
  | [] => []
  | c :: b' => if decide (c = NUL) then [] else c :: cstr b'
  end.

(** [strlen] of a C string. *)
Definition strlen (b : bytes) : Z := Z.of_nat (length b).

(** The sign of [strcmp] on two C strings: bytes are compared as [unsigned
    char], and a proper prefix is smaller. *)
Fixpoint strcmp (a b : bytes) : Z :=
  match a, b with
  | [], [] => 0
  | [], _ :: _ => -1
  | _ :: _, [] => 1
  | x :: a', y :: b' =>
      if uchar x <? uchar y then -1
      else if uchar y <? uchar x then 1
      else strcmp a' b'
  end.

(** ** Machine integers *)

Definition INT_MIN : Z := -2147483648.
Definition INT_MAX : Z := 2147483647.
Definition LLONG_MIN : Z := -9223372036854775808.
Definition LLONG_MAX : Z := 9223372036854775807.

(** Reduction to a width: unsigned arithmetic wraps. *)
Definition u32 (z : Z) : Z := z mod 2 ^ 32.
Definition u64 (z : Z) : Z := z mod 2 ^ 64.
(** Conversion to [int], which truncates to the low 32 bits. *)
Definition s32 (z : Z) : Z := (z + 2 ^ 31) mod 2 ^ 32 - 2 ^ 31.
Definition s64 (z : Z) : Z := (z + 2 ^ 63) mod 2 ^ 64 - 2 ^ 63.

(** ** Outcomes

    A run of the C code either completes, or performs an operation whose
    behaviour the language leaves undefined, or waits for ever. *)

Inductive fault :=
| NullDeref       (* a NULL pointer is read through *)
| UseAfterFree    (* a freed object is read, written or freed again *)
| OutOfBounds     (* an index outside an allocated object *)
| Uninitialised   (* memory from malloc is read before it is written *)
| SignedOverflow  (* signed arithmetic leaves its width *)
| Blocked         (* a call waits for something that does not come *)
| OutOfFuel.      (* a loop of the model ran longer than its bound *)

Inductive outcome (A : Type) :=
| Done (a : A)
| Fault (f : fault).
Arguments Done {A} a.
Arguments Fault {A} f.

(** ** The environment

    What the code asks of the system: [gettimeofday], [malloc], [rand], [fork],
    writes to files and transfers on sockets. Each answer is a function of the number of questions asked before, so a run
    is determined by an [env] and the [nat] it starts from. *)

Record env := Env {
  clock     : nat → Z;     (* kvs_current_time_ms *)
  malloc_ok : nat → bool;  (* does this kvs_malloc return non-NULL *)
  rand_at   : nat → Z;     (* rand () *)
  fork_ok   : nat → bool;  (* does this fork succeed *)
  io_short  : nat → nat;   (* how many bytes this write to a file falls short of *)
  zeroed    : bool;        (* fresh memory of the allocator reads as zero *)
  recv_n    : nat → nat;   (* how many bytes this recv returns at most *)
  send_n    : nat → option nat; (* how many bytes this send takes at most; None: it fails *)
  sys_ok    : nat → bool   (* does this other system call succeed *)
}.

(** No allocation of the run fails. *)
Definition no_oom (E : env) : Prop := ∀ t, malloc_ok E t = true.

(** Every write to a file is complete. *)
Definition io_good (E : env) : Prop := ∀ t, io_short E t = 0%nat.

(** ** The state monad of the components *)

Definition M (S A : Type) : Type := env → S → nat → outcome (A * S * nat).

#[global] Instance M_ret {S} : MRet (M S) := λ A a E s t, Done (a, s, t).
#[global] Instance M_bind {S} : MBind (M S) := λ A B f m E s t,
  match m E s t with
  | Done (a, s', t') => f a E s' t'
  | Fault x => Fault x
  end.

Definition fail {S A} (x : fault) : M S A := λ E s t, Fault x.
Definition gets {S A} (f : S → A) : M S A := λ E s t, Done (f s, s, t).
Definition modify {S} (f : S → S) : M S unit := λ E s t, Done (tt, f s, t).

(** [kvs_current_time_ms ()] *)
Definition kvs_current_time_ms {S} : M S Z := λ E s t, Done (clock E t, s, Datatypes.S t).
(** [kvs_malloc (n) != NULL] *)
Definition kvs_malloc {S} : M S bool := λ E s t, Done (malloc_ok E t, s, Datatypes.S t).
(** [rand ()] *)
Definition rand {S} : M S Z := λ E s t, Done (rand_at E t, s, Datatypes.S t).
(** [fork () >= 0] *)
Definition fork {S} : M S bool := λ E s t, Done (fork_ok E t, s, Datatypes.S t).
(** The bytes of [data] that a write to a file transfers. *)
Definition file_write {S} (data : bytes) : M S bytes :=
  λ E s t, Done (take (length data - io_short E t) data, s, Datatypes.S t).
(** What the system grants to a recv or a send. *)
Definition ask_recv {S} : M S nat := λ E s t, Done (recv_n E t, s, Datatypes.S t).
Definition ask_send {S} : M S (option nat) := λ E s t, Done (send_n E t, s, Datatypes.S t).
(** A system call that succeeds or fails. *)
Definition ask_sys {S} : M S bool := λ E s t, Done (sys_ok E t, s, Datatypes.S t).
Definition fresh_zeroed {S} : M S bool := λ E s t, Done (zeroed E, s, t).

(** Signed 64-bit arithmetic. *)
Definition checked64 {S} (z : Z) : M S Z :=
  if (LLONG_MIN <=? z) && (z <=? LLONG_MAX) then mret z else fail SignedOverflow.
Definition checked32 {S} (z : Z) : M S Z :=
  if (INT_MIN <=? z) && (z <=? INT_MAX) then mret z else fail SignedOverflow.

(** A component that is a field of a larger state. *)
Definition zoom {S T A} (proj : T → S) (inj : S → T → T) (m : M S A) : M T A :=
  λ E s t,
    match m E (proj s) t with
    | Done (a, s', t') => Done (a, inj s' s, t')
    | Fault x => Fault x
    end.

(** ** Pointers to heap strings

    A field of type [char *]: NULL, a live allocation holding a C string, or an
    allocation that has been freed. *)

Inductive cptr :=
| PNull
| PStr (b : bytes)
| PFreed.

#[global] Instance cptr_eq_dec : EqDecision cptr.
Proof. solve_decision. Defined.

(** Reading a [char *] as a C string ([strlen], [strcmp], [strcpy], %s). *)
Definition read_str {S} (p : cptr) : M S bytes :=
  match p with
  | PStr b => mret b
  | PNull => fail NullDeref
  | PFreed => fail UseAfterFree
  end.

(** [kvs_free (p)]: free (NULL) is a no-op. *)
Definition kvs_free {S} (p : cptr) : M S unit :=
  match p with
  | PFreed => fail UseAfterFree
  | _ => mret tt
  end.

(** ** Lemmas on bytes and C strings *)

Lemma uchar_range c : 0 ≤ uchar c < 256.
Proof. unfold uchar. pose proof (Byte.to_N_bounded c). lia. Qed.

Lemma uchar_inj a b : uchar a = uchar b → a = b.
Proof.
  unfold uchar. intros H%N2Z.inj.
  pose proof (Byte.of_to_N a) as Ha. rewrite H, Byte.of_to_N in Ha. congruence.
Qed.

Lemma uchar_to_byte z : uchar (to_byte z) = z mod 256.
Proof.
  unfold to_byte, uchar.
  assert (0 ≤ z mod 256 < 256) by (apply Z.mod_pos_bound; lia).
  destruct (Byte.of_N _) as [b|] eqn:E.
  - apply Byte.to_of_N in E. rewrite E. lia.
  - apply Byte.of_N_None_iff in E. lia.
Qed.

Lemma to_byte_uchar c : to_byte (uchar c) = c.
Proof.
  apply uchar_inj. rewrite uchar_to_byte. apply Z.mod_small, uchar_range.
Qed.

Lemma strcmp_refl a : strcmp a a = 0.
Proof. induction a as [|x a IH]; simpl; [done|]. by rewrite !Z.ltb_irrefl. Qed.

Lemma strcmp_eq a b : strcmp a b = 0 ↔ a = b.
Proof.
  split; [|intros ->; apply strcmp_refl].
  revert b. induction a as [|x a IH]; intros [|y b]; simpl; try done.
  destruct (uchar x <? uchar y) eqn:?; [done|].
  destruct (uchar y <? uchar x) eqn:?; [done|].
  intros ->%IH. f_equal. apply uchar_inj. lia.
Qed.

Lemma strcmp_neq a b : strcmp a b ≠ 0 ↔ a ≠ b.
Proof. by rewrite strcmp_eq. Qed.

Lemma strcmp_antisym a b : strcmp b a = - strcmp a b.
Proof.
  revert b. induction a as [|x a IH]; intros [|y b]; simpl; try done.
  destruct (uchar x <? uchar y) eqn:?, (uchar y <? uchar x) eqn:?; try lia.
  apply IH.
Qed.

Lemma strcmp_lt_trans a b c : strcmp a b < 0 → strcmp b c < 0 → strcmp a c < 0.
Proof.
  revert b c. induction a as [|x a IH]; intros [|y b] [|z c]; simpl; try lia.
  intros H1 H2.
  destruct (uchar x <? uchar y) eqn:?, (uchar y <? uchar x) eqn:?,
    (uchar y <? uchar z) eqn:?, (uchar z <? uchar y) eqn:?; try lia;
    destruct (uchar x <? uchar z) eqn:?, (uchar z <? uchar x) eqn:?; try lia.
  eauto.
Qed.

(** [strcmp (a, b) < 0] as a strict total order. *)
Definition str_lt (a b : bytes) : Prop := strcmp a b < 0.

#[global] Instance str_lt_dec : RelDecision str_lt.
Proof. intros a b. unfold str_lt. apply _. Defined.

#[global] Instance str_lt_strict : StrictOrder str_lt.
Proof.
  split.
  - intros a H. unfold str_lt in H. rewrite strcmp_refl in H. lia.
  - intros a b c. apply strcmp_lt_trans.
Qed.

Lemma str_lt_trichotomy a b : str_lt a b ∨ a = b ∨ str_lt b a.
Proof.
  unfold str_lt. rewrite <-(strcmp_eq a b), (strcmp_antisym a b). lia.
Qed.

Lemma cstr_nul_free b : NUL ∉ cstr b.
Proof.
  induction b as [|c b IH]; simpl; [set_solver|]. case_decide; set_solver.
Qed.

Lemma cstr_id b : NUL ∉ b → cstr b = b.
Proof.
  induction b as [|c b IH]; simpl; intros H; [done|].
  case_decide; [set_solver|]. f_equal. set_solver.
Qed.

Lemma cstr_idemp b : cstr (cstr b) = cstr b.
Proof. apply cstr_id, cstr_nul_free. Qed.

Lemma cstr_length b : (length (cstr b) ≤ length b)%nat.
Proof. induction b as [|c b IH]; simpl; [lia|]. case_decide; simpl; lia. Qed.

(** ** Weakest preconditions

    [wp m Q E s t]: the run of [m] under [E] from state [s] and time [t]
    completes, without any fault, in a result that satisfies [Q]. *)

Definition wp {S A} (m : M S A) (Q : A → S → nat → Prop) (E : env) (s : S) (t : nat) : Prop :=
  match m E s t with
  | Done (a, s', t') => Q a s' t'
  | Fault _ => False
  end.

Section wp.
Context {S : Type}.
Implicit Types (E : env) (s : S) (t : nat).

Lemma wp_ret {A} (a : A) (Q : A → S → nat → Prop) E s t : Q a s t → wp (mret a) Q E s t.
Proof. done. Qed.

Lemma wp_bind {A B} (m : M S A) (f : A → M S B) Q E s t :
  wp m (λ a s' t', wp (f a) Q E s' t') E s t → wp (m ≫= f) Q E s t.
Proof. unfold wp, mbind, M_bind. by destruct (m E s t) as [[[??]?]|]. Qed.

Lemma wp_mono {A} (m : M S A) (Q Q' : A → S → nat → Prop) E s t :
  wp m Q E s t → (∀ a s' t', Q a s' t' → Q' a s' t') → wp m Q' E s t.
Proof. unfold wp. destruct (m E s t) as [[[??]?]|]; eauto. Qed.

Lemma wp_conj {A} (m : M S A) (P Q : A → S → nat → Prop) E s t :
  wp m P E s t → wp m Q E s t → wp m (λ a s' t', P a s' t' ∧ Q a s' t') E s t.
Proof. unfold wp. by destruct (m E s t) as [[[??]?]|]. Qed.

Lemma wp_gets {A} (f : S → A) (Q : A → S → nat → Prop) E s t :
  Q (f s) s t → wp (gets f) Q E s t.
Proof. done. Qed.

Lemma wp_modify (f : S → S) (Q : unit → S → nat → Prop) E s t :
  Q tt (f s) t → wp (modify f) Q E s t.
Proof. done. Qed.

Lemma wp_now (Q : Z → S → nat → Prop) E s t :
  Q (clock E t) s (Datatypes.S t) → wp kvs_current_time_ms Q E s t.
Proof. done. Qed.

Lemma wp_malloc (Q : bool → S → nat → Prop) E s t :
  Q (malloc_ok E t) s (Datatypes.S t) → wp kvs_malloc Q E s t.
Proof. done. Qed.

Lemma wp_rand (Q : Z → S → nat → Prop) E s t :
  Q (rand_at E t) s (Datatypes.S t) → wp rand Q E s t.
Proof. done. Qed.

Lemma wp_fork (Q : bool → S → nat → Prop) E s t :
  Q (fork_ok E t) s (Datatypes.S t) → wp fork Q E s t.
Proof. done. Qed.

Lemma wp_file_write data (Q : bytes → S → nat → Prop) E s t :
  Q (take (length data - io_short E t) data) s (Datatypes.S t) → wp (file_write data) Q E s t.
Proof. done. Qed.

Lemma wp_ask_recv (Q : nat → S → nat → Prop) E s t :
  Q (recv_n E t) s (Datatypes.S t) → wp ask_recv Q E s t.
Proof. done. Qed.

Lemma wp_ask_send (Q : option nat → S → nat → Prop) E s t :
  Q (send_n E t) s (Datatypes.S t) → wp ask_send Q E s t.
Proof. done. Qed.

Lemma wp_ask_sys (Q : bool → S → nat → Prop) E s t :
  Q (sys_ok E t) s (Datatypes.S t) → wp ask_sys Q E s t.
Proof. done. Qed.

Lemma wp_zeroed (Q : bool → S → nat → Prop) E s t :
  Q (zeroed E) s t → wp fresh_zeroed Q E s t.
Proof. done. Qed.

Lemma wp_checked64 z (Q : Z → S → nat → Prop) E s t :
  LLONG_MIN ≤ z ≤ LLONG_MAX → Q z s t → wp (checked64 z) Q E s t.
Proof.
  intros Hz HQ. unfold checked64.
  replace ((LLONG_MIN <=? z) && (z <=? LLONG_MAX)) with true by lia. done.
Qed.

Lemma wp_checked32 z (Q : Z → S → nat → Prop) E s t :
  INT_MIN ≤ z ≤ INT_MAX → Q z s t → wp (checked32 z) Q E s t.
Proof.
  intros Hz HQ. unfold checked32.
  replace ((INT_MIN <=? z) && (z <=? INT_MAX)) with true by lia. done.
Qed.

Lemma wp_read_str b (Q : bytes → S → nat → Prop) E s t :
  Q b s t → wp (read_str (PStr b)) Q E s t.
Proof. done. Qed.

Lemma wp_free p (Q : unit → S → nat → Prop) E s t :
  p ≠ PFreed → Q tt s t → wp (kvs_free p) Q E s t.
Proof. by destruct p. Qed.

Lemma wp_zoom {T A} (proj : S → T) (inj : T → S → S) (m : M T A) Q E s t :
  wp m (λ a (c : T) t', Q a (inj c s) t') E (proj s) t → wp (zoom proj inj m) Q E s t.
Proof. unfold wp, zoom. by destruct (m E (proj s) t) as [[[??]?]|]. Qed.

(** A run that satisfies [wp] is a run that completes. *)
Lemma wp_run {A} (m : M S A) Q E s t :
  wp m Q E s t ↔ ∃ a s' t', m E s t = Done (a, s', t') ∧ Q a s' t'.
Proof.
  unfold wp. destruct (m E s t) as [[[a s'] t']|x]; split; try naive_solver.
Qed.

Lemma wp_done {A} (m : M S A) (Q : A → S → nat → Prop) E s t a s' t' :
  m E s t = Done (a, s', t') → wp m Q E s t → Q a s' t'.
Proof. unfold wp. by intros ->. Qed.
End wp.

(** ** Automation *)

(** One step of symbolic execution. *)
Ltac wp_step :=
  lazymatch goal with
  | |- wp (mbind _ _) _ _ _ _ => apply wp_bind
  | |- wp (mret _) _ _ _ _ => apply wp_ret
  | |- wp (gets _) _ _ _ _ => apply wp_gets
  | |- wp (modify _) _ _ _ _ => apply wp_modify
  | |- wp kvs_current_time_ms _ _ _ _ => apply wp_now
  | |- wp kvs_malloc _ _ _ _ => apply wp_malloc
  | |- wp rand _ _ _ _ => apply wp_rand
  | |- wp fork _ _ _ _ => apply wp_fork
  | |- wp (file_write _) _ _ _ _ => apply wp_file_write
  | |- wp fresh_zeroed _ _ _ _ => apply wp_zeroed
  | |- wp ask_recv _ _ _ _ => apply wp_ask_recv
  | |- wp ask_send _ _ _ _ => apply wp_ask_send
  | |- wp ask_sys _ _ _ _ => apply wp_ask_sys
  | |- wp (zoom _ _ _) _ _ _ _ => apply wp_zoom
  | |- wp (read_str (PStr _)) _ _ _ _ => apply wp_read_str
  end; cbv beta.

Ltac wp_steps := repeat wp_step.

(** Booleans of the code become propositions. *)
Ltac to_prop :=
  repeat match goal with
  | H : _ && _ = true |- _ => apply andb_prop in H as [? ?]
  | H : _ && _ = false |- _ => apply andb_false_iff in H
  | H : _ || _ = false |- _ => apply orb_false_iff in H as [? ?]
  | H : _ || _ = true |- _ => apply orb_true_iff in H
  | H : negb _ = true |- _ => apply negb_true_iff in H
  | H : negb _ = false |- _ => apply negb_false_iff in H
  | H : (_ =? _) = true |- _ => apply Z.eqb_eq in H
  | H : (_ =? _) = false |- _ => apply Z.eqb_neq in H
  | H : (_ <? _) = true |- _ => apply Z.ltb_lt in H
  | H : (_ <? _) = false |- _ => apply Z.ltb_ge in H
  | H : (_ <=? _) = true |- _ => apply Z.leb_le in H
  | H : (_ <=? _) = false |- _ => apply Z.leb_gt in H
  | H : strcmp _ _ = 0 |- _ => apply strcmp_eq in H
  | H : strcmp _ _ ≠ 0 |- _ => apply strcmp_neq in H
  end.

(** Closes the goal by [H] when the two differ in provably equal parts. *)
Ltac exact_upto H :=
  let T := type of H in
  match goal with |- ?G => replace G with T; [exact H|] end.

Create HintDb kvs.
#[export] Hint Resolve uchar_range strcmp_refl cstr_nul_free : kvs.

(** ** Integers *)

Lemma of_nat_ltb_0 i : (Z.of_nat i <? 0) = false.
Proof. rewrite Z.ltb_ge. lia. Qed.

(** ** Association lists with distinct keys as maps *)

Section assoc.
Context {V : Type}.
Implicit Types (L : list (bytes * V)) (k : bytes) (x y : V).

Lemma assoc_lookup L i k x :
  NoDup L.*1 → L !! i = Some (k, x) → (list_to_map L : gmap bytes V) !! k = Some x.
Proof. intros HL Hi. apply elem_of_list_to_map; [done|]. by eapply list_elem_of_lookup_2. Qed.

Lemma assoc_lookup_None L k :
  (∀ i x, L !! i ≠ Some (k, x)) → (list_to_map L : gmap bytes V) !! k = None.
Proof.
  intros H. apply not_elem_of_list_to_map.
  intros [[k' x] [-> [i Hi]%list_elem_of_lookup]]%list_elem_of_fmap.
  by eapply H.
Qed.

Lemma assoc_insert L i k x y :
  NoDup L.*1 → L !! i = Some (k, x) →
  (list_to_map (<[i := (k, y)]> L) : gmap bytes V) = <[k := y]> (list_to_map L).
Proof.
  revert i. induction L as [|[k' z] L IH]; intros [|i] HL Hi; simplify_eq/=.
  - by rewrite insert_insert_eq.
  - apply NoDup_cons in HL as [Hk' HL]. rewrite (IH i) by done.
    apply insert_insert_ne. intros ->. apply Hk'.
    apply list_elem_of_fmap. exists (k, x). split; [done|]. by eapply list_elem_of_lookup_2.
Qed.

Lemma assoc_insert_keys L i k x y :
  L !! i = Some (k, x) → (<[i := (k, y)]> L).*1 = L.*1.
Proof.
  intros Hi. rewrite list_fmap_insert. simpl. apply list_insert_id.
  by rewrite list_lookup_fmap, Hi.
Qed.

Lemma assoc_delete L L' k x :
  NoDup L.*1 → L ≡ₚ (k, x) :: L' →
  NoDup L'.*1 ∧ (list_to_map L' : gmap bytes V) = delete k (list_to_map L).
Proof.
  intros HL Hp.
  assert (NoDup ((k, x) :: L').*1) as HL' by (by rewrite <-Hp).
  rewrite (list_to_map_proper _ _ HL Hp). simpl in *.
  apply NoDup_cons in HL' as [Hk HL']. split; [done|].
  rewrite delete_insert_id; [done|]. by apply not_elem_of_list_to_map.
Qed.
End assoc.

(** Removing an element by moving the last one into its place. *)
Definition swap_remove {A} (i : nat) (L : list A) : list A :=
  match last L with
  | Some y => take (length L - 1) (<[i := y]> L)
  | None => []
  end.

Lemma swap_remove_perm {A} i (L : list A) x :
  L !! i = Some x → L ≡ₚ x :: swap_remove i L.
Proof.
  destruct L as [|y L0 _] using rev_ind; [done|].
  intros Hi. unfold swap_remove. rewrite last_snoc, length_app. simpl.
  replace (length L0 + 1 - 1)%nat with (length L0) by lia.
  apply lookup_app_Some in Hi as [Hi|[Hlen Hi]].
  - rewrite insert_app_l by (by eapply lookup_lt_Some).
    rewrite take_app_length' by (by rewrite length_insert).
    apply list_elem_of_split_length in Hi as (l1 & l2 & -> & ->).
    rewrite insert_app_r_alt, Nat.sub_diag by lia. simpl. solve_Permutation.
  - destruct (i - length L0)%nat eqn:Hd; simplify_eq/=.
    replace i with (length L0 + 0)%nat by lia.
    rewrite insert_app_r. simpl. rewrite take_app_length. solve_Permutation.
Qed.

Lemma swap_remove_length {A} i (L : list A) : length (swap_remove i L) = (length L - 1)%nat.
Proof.
  destruct L as [|y L0 _] using rev_ind; [done|].
  unfold swap_remove. rewrite last_snoc, length_take, length_insert, length_app. simpl. lia.
Qed.

Lemma swap_remove_lookup {A} i j (L : list A) y :
  last L = Some y → (j < length L - 1)%nat →
  swap_remove i L !! j = if decide (i = j) then Some y else L !! j.
Proof.
  intros Hy Hj. unfold swap_remove. rewrite Hy, lookup_take_lt by done.
  destruct (decide (i = j)) as [->|].
  - apply list_lookup_insert_eq. lia.
  - by apply list_lookup_insert_ne.
Qed.

(** ** Decimal numerals, as %d, %zu and %lld print them *)

Definition digit (n : Z) : byte := to_byte (48 + n).

Definition is_digit (c : byte) : bool := (48 <=? uchar c) && (uchar c <=? 57).

(** Least significant digit first. *)
Fixpoint dec_rev (fuel : nat) (n : Z) : bytes :=
  match fuel with
  | O => []
  | S fuel' => digit (n mod 10) :: (if n / 10 =? 0 then [] else dec_rev fuel' (n / 10))
  end.

Definition dec (n : Z) : bytes := rev (dec_rev (S (Z.to_nat (Z.log2 n))) n).

(** A signed number. *)
Definition dec_signed (n : Z) : bytes := if n <? 0 then Byte.x2d :: dec (- n) else dec n.

(** The number a digit string denotes, from an accumulator. *)
Fixpoint numeral (acc : Z) (l : bytes) : Z :=
  match l with
  | [] => acc
  | c :: l' => numeral (acc * 10 + (uchar c - 48)) l'
  end.

Lemma uchar_digit n : 0 ≤ n < 10 → uchar (digit n) = 48 + n.
Proof. intros H. unfold digit. rewrite uchar_to_byte. apply Z.mod_small. lia. Qed.

Lemma is_digit_digit n : 0 ≤ n < 10 → is_digit (digit n) = true.
Proof. intros H. unfold is_digit. rewrite uchar_digit by done. lia. Qed.

Lemma numeral_app acc l1 l2 : numeral acc (l1 ++ l2) = numeral (numeral acc l1) l2.
Proof. revert acc. induction l1 as [|c l1 IH]; intros acc; simpl; [done|]. apply IH. Qed.

Lemma numeral_mono acc l : Forall (λ c, is_digit c = true) l → 0 ≤ acc → acc ≤ numeral acc l.
Proof.
  intros Hl. revert acc. induction Hl as [|c l Hc Hl IH]; intros acc Hacc; simpl; [lia|].
  unfold is_digit in Hc. to_prop. etransitivity; [|apply IH]; lia.
Qed.

Lemma dec_rev_digits fuel n : 0 ≤ n → Forall (λ c, is_digit c = true) (dec_rev fuel n).
Proof.
  revert n. induction fuel as [|fuel IH]; intros n Hn; simpl; [constructor|].
  constructor; [apply is_digit_digit, Z.mod_pos_bound; lia|].
  destruct (n / 10 =? 0); [constructor|]. apply IH. apply Z.div_pos; lia.
Qed.

Lemma dec_digits n : 0 ≤ n → Forall (λ c, is_digit c = true) (dec n).
Proof. intros Hn. apply Forall_rev. by apply dec_rev_digits. Qed.

Lemma numeral_dec_rev fuel n :
  0 ≤ n < 2 ^ Z.of_nat fuel → numeral 0 (rev (dec_rev fuel n)) = n.
Proof.
  revert n. induction fuel as [|fuel IH]; intros n Hn; [simpl in *; lia|].
  rewrite Nat2Z.inj_succ, Z.pow_succ_r in Hn by lia. simpl.
  pose proof (Z.div_mod n 10 ltac:(lia)) as Hdm.
  pose proof (Z.mod_pos_bound n 10 ltac:(lia)) as Hm.
  rewrite numeral_app. cbn [numeral]. rewrite uchar_digit by done.
  destruct (n / 10 =? 0) eqn:Hz; to_prop; simpl; [lia|].
  rewrite IH; [lia|]. split; [apply Z.div_pos; lia|].
  apply Z.div_lt_upper_bound; lia.
Qed.

Lemma numeral_dec n : 0 ≤ n → numeral 0 (dec n) = n.
Proof.
  intros Hn. apply numeral_dec_rev. split; [done|].
  rewrite Nat2Z.inj_succ, Z2Nat.id by apply Z.log2_nonneg.
  destruct (decide (n = 0)) as [->|]; [done|]. apply Z.log2_spec. lia.
Qed.

Lemma dec_nonempty n : dec n ≠ [].
Proof. unfold dec. simpl. intros H. by apply app_eq_nil in H as [_ H]. Qed.

(** ** A concrete run

    An environment in which a second has passed, memory never runs out and files
    take every byte, and the state a run under it leaves; the examples of the
    components start from such states. *)

Definition calm : env :=
  Env (λ _, 1000) (λ _, true) (λ _, 1) (λ _, true) (λ _, 0%nat) true (λ _, 4096%nat) (λ _, Some 4096%nat)
    (λ _, true).

Lemma calm_no_oom : no_oom calm.
Proof. done. Qed.
Lemma calm_io : io_good calm.
Proof. done. Qed.

Definition after {S A} (m : M S A) (s : S) : S :=
  match m calm s 0%nat with Done (_, s', _) => s' | Fault _ => s end.

Lemma wp_after {S A} (m : M S A) (P : S → Prop) (s : S) :
  wp m (λ _ s' _, P s') calm s 0 → P (after m s).
Proof. unfold wp, after. by destruct (m calm s 0%nat) as [[[??]?]|]. Qed.
