(* ===== verification/Resp.v ===== *)
(** * The RESP protocol (kvstore.c)

    [resp_parse_one_command] finds where a command ends in a receive buffer, and
    [resp_parse_arguments] splits a complete command into its arguments. A pointer
    into the buffer is the list of the bytes that are left. *)

From S2P Require Import Prelude.

(** ** The two parsers *)

(** while (p < buf + len && *p >= '0' && *p <= '9') num = num * 10 + ( *p - '0'); *)
Fixpoint parse_digits (num : Z) (p : bytes) : outcome (Z * bytes) :=
  match p with
  | [] => Done (num, [])
  | c :: p' =>
      if is_digit c then
        let num' := num * 10 + (uchar c - 48) in
        if num' <=? INT_MAX then parse_digits num' p' else Fault SignedOverflow
      else Done (num, p)
  end.

(** The test for \r followed by \n; [None] is the early return. *)
Definition expect_crlf (p : bytes) : option bytes :=
  match p with
  | c :: d :: p' => if decide (c = CR ∧ d = LF) then Some p' else None
  | _ => None
  end.

Definition STAR : byte := Byte.x2a.
Definition DOLLAR : byte := Byte.x24.

(** p + bulk_len > buf + len on addresses, where the buffer ends at the address
    [last] and [p] is what is left of it. The loops below compare lengths instead,
    which [past_end_length] justifies. *)
Definition past_end (last : Z) (p : bytes) (bulk_len : Z) : bool :=
  last <? u64 (last - Z.of_nat (length p) + bulk_len).

Lemma past_end_length last p bulk_len :
  Z.of_nat (length p) ≤ last → 0 ≤ bulk_len ≤ INT_MAX → last + INT_MAX < 2 ^ 64 →
  past_end last p bulk_len = (Z.of_nat (length p) <? bulk_len).
Proof.
  intros Hp Hb Hl. unfold past_end, u64. rewrite Z.mod_small by lia.
  apply eq_bool_prop_intro. rewrite !Is_true_true, !Z.ltb_lt. lia.
Qed.

(** The for loop of [resp_parse_one_command], [n] bulk strings left. The fuel
    is the number of bytes left: every iteration that goes on consumes some. *)
Fixpoint one_command_bulks (fuel : nat) (n : Z) (p : bytes) : outcome (Z * bytes) :=
  if n <=? 0 then Done (1, p) else
  match fuel with
  | O => Fault OutOfFuel
  | S fuel' =>
      match p with
      | [] => Done (-1, p)
      | c :: p1 =>
          if decide (c = DOLLAR) then
            match parse_digits 0 p1 with
            | Fault f => Fault f
            | Done (bulk_len, p2) =>
                match expect_crlf p2 with
                | None => Done (0, p2)
                | Some p3 =>
                    if Z.of_nat (length p3) <? bulk_len then Done (0, p3) else
                    match expect_crlf (drop (Z.to_nat bulk_len) p3) with
                    | None => Done (0, p3)
                    | Some p4 => one_command_bulks fuel' (n - 1) p4
                    end
                end
            end
          else Done (-1, p)
      end
  end.

(** The return value, and [*cmd_len] (meaningful when the return value is 1). *)
Definition resp_parse_one_command (buf : bytes) : outcome (Z * nat) :=
  match buf with
  | [] => Done (-1, 0%nat)
  | c :: p =>
      if decide (c = STAR) then
        match parse_digits 0 p with
        | Fault f => Fault f
        | Done (num, p1) =>
            match expect_crlf p1 with
            | None => Done (0, 0%nat)
            | Some p2 =>
                match one_command_bulks (S (length p2)) num p2 with
                | Fault f => Fault f
                | Done (ret, p3) => Done (ret, (length buf - length p3)%nat)
                end
            end
        end
      else Done (-1, 0%nat)
  end.

Section arguments.
Context {S : Type}.

(** The for loop of [resp_parse_arguments]: [None] is the jump to err. Each
    argument is the content of its buffer before the terminating NUL. *)
Fixpoint argument_bulks (fuel : nat) (n : Z) (p : bytes) : M S (option (list bytes)) :=
  if n <=? 0 then mret (Some []) else
  match fuel with
  | O => fail OutOfFuel
  | Datatypes.S fuel' =>
      match p with
      | [] => mret None
      | c :: p1 =>
          if decide (c = DOLLAR) then
            match parse_digits 0 p1 with
            | Fault f => fail f
            | Done (bulk_len, p2) =>
                match expect_crlf p2 with
                | None => mret None
                | Some p3 =>
                    if Z.of_nat (length p3) <? bulk_len then mret None else
                    if negb (bulk_len + 1 <=? INT_MAX) then fail SignedOverflow else
                    ok ← kvs_malloc;
                    if negb ok then mret None else
                    match expect_crlf (drop (Z.to_nat bulk_len) p3) with
                    | None => mret None
                    | Some p4 =>
                        rest ← argument_bulks fuel' (n - 1) p4;
                        mret (match rest with
                              | None => None
                              | Some argv => Some (take (Z.to_nat bulk_len) p3 :: argv)
                              end)
                    end
                end
            end
          else mret None
      end
  end.

(** [None] is the NULL result. *)
Definition resp_parse_arguments (buf : bytes) : M S (option (list bytes)) :=
  match buf with
  | [] => mret None
  | c :: p =>
      if decide (c = STAR) then
        match parse_digits 0 p with
        | Fault f => fail f
        | Done (num, p1) =>
            match expect_crlf p1 with
            | None => mret None
            | Some p2 =>
                if num <=? 0 then mret None else
                ok ← kvs_malloc;
                if negb ok then mret None
                else argument_bulks (Datatypes.S (length p2)) num p2
            end
        end
      else mret None
  end.
End arguments.

#[global] Arguments one_command_bulks : simpl never.
#[global] Arguments argument_bulks : simpl never.

(** ** The encoding clients send *)

Definition encode_bulk (a : bytes) : bytes := DOLLAR :: dec (strlen a) ++ crlf ++ a ++ crlf.

Definition resp_encode (argv : list bytes) : bytes :=
  STAR :: dec (Z.of_nat (length argv)) ++ crlf ++ concat (encode_bulk <$> argv).

(** Commands whose counts fit the [int] the parser reads them into, with room for
    the terminating NUL. *)
Definition small_command (argv : list bytes) : Prop :=
  Z.of_nat (length argv) ≤ INT_MAX ∧ Forall (λ a, strlen a < INT_MAX) argv.

(** ** The numbers *)

Lemma parse_digits_app acc l rest :
  Forall (λ c, is_digit c = true) l → 0 ≤ acc → numeral acc l ≤ INT_MAX →
  match rest with [] => True | c :: _ => is_digit c = false end →
  parse_digits acc (l ++ rest) = Done (numeral acc l, rest).
Proof.
  intros Hl. revert acc. induction Hl as [|c l Hc Hl IH]; intros acc Hacc Hmax Hrest; simpl.
  - destruct rest as [|c rest]; simpl; [done|]. by rewrite Hrest.
  - rewrite Hc. simpl in Hmax. unfold is_digit in Hc. to_prop.
    pose proof (numeral_mono (acc * 10 + (uchar c - 48)) l Hl ltac:(lia)).
    rewrite (proj2 (Z.leb_le _ _)) by lia. apply IH; [lia|done|done].
Qed.

Lemma parse_digits_dec n rest :
  0 ≤ n ≤ INT_MAX → parse_digits 0 (dec n ++ crlf ++ rest) = Done (n, crlf ++ rest).
Proof.
  intros Hn. rewrite parse_digits_app; [|apply dec_digits; lia|done| |done].
  - by rewrite numeral_dec by lia.
  - rewrite numeral_dec by lia. lia.
Qed.

Lemma expect_crlf_app p : expect_crlf (crlf ++ p) = Some p.
Proof. done. Qed.

Lemma drop_bulk (a p : bytes) : drop (Z.to_nat (strlen a)) (a ++ p) = p.
Proof. unfold strlen. rewrite Nat2Z.id. apply drop_app_length. Qed.

Lemma take_bulk (a p : bytes) : take (Z.to_nat (strlen a)) (a ++ p) = a.
Proof. unfold strlen. rewrite Nat2Z.id. apply take_app_length. Qed.

Lemma bulk_fits (a p : bytes) : (Z.of_nat (length (a ++ p)) <? strlen a) = false.
Proof. unfold strlen. rewrite length_app. apply Z.ltb_ge. lia. Qed.

Lemma crlf_length : length crlf = 2%nat.
Proof. done. Qed.

#[local] Opaque crlf.

(** ** Round trips *)

Lemma one_command_bulks_encode argv rest fuel :
  Forall (λ a, strlen a < INT_MAX) argv → (length argv ≤ fuel)%nat →
  one_command_bulks fuel (Z.of_nat (length argv)) (concat (encode_bulk <$> argv) ++ rest) = Done (1, rest).
Proof.
  intros Hargv. revert fuel. induction Hargv as [|a argv Ha Hargv IH]; intros fuel Hf.
  { by destruct fuel. }
  destruct fuel as [|fuel]; simpl in Hf; [lia|].
  rewrite fmap_cons. cbn [concat]. unfold encode_bulk at 1. cbn [length].
  unfold one_command_bulks; fold one_command_bulks.
  rewrite (proj2 (Z.leb_gt _ _)) by lia. simpl. rewrite <-!app_assoc.
  rewrite parse_digits_dec by (unfold strlen in *; lia).
  rewrite expect_crlf_app, bulk_fits, drop_bulk, expect_crlf_app.
  replace (Z.of_nat (S (length argv)) - 1) with (Z.of_nat (length argv)) by lia.
  apply IH. lia.
Qed.

Lemma encode_bulk_length a : (6 ≤ length (encode_bulk a))%nat.
Proof.
  unfold encode_bulk. simpl. rewrite !length_app, !crlf_length.
  pose proof (dec_nonempty (strlen a)). destruct (dec (strlen a)); [done|]. simpl. lia.
Qed.

Lemma encode_bulks_length argv : (length argv ≤ length (concat (encode_bulk <$> argv)))%nat.
Proof.
  induction argv as [|a argv IH]; [done|]. rewrite fmap_cons. simpl. rewrite length_app.
  pose proof (encode_bulk_length a). lia.
Qed.

(** A command that fits an int has counts that do. *)
Lemma resp_encode_small argv : strlen (resp_encode argv) ≤ INT_MAX → small_command argv.
Proof.
  unfold resp_encode, strlen. cbn [length]. rewrite !length_app, crlf_length. intros Hl.
  pose proof (encode_bulks_length argv). split; [lia|].
  assert (Z.of_nat (length (concat (encode_bulk <$> argv))) < INT_MAX) as Hc by lia. clear -Hc.
  induction argv as [|a argv IH]; [done|]. rewrite fmap_cons in Hc. cbn [concat] in Hc. rewrite length_app in Hc.
  constructor; [|apply IH; lia]. unfold encode_bulk, strlen in *. cbn [length] in Hc. rewrite !length_app in Hc. lia.
Qed.

(** The end of a command is found whatever follows it in the buffer. *)
Lemma parse_one_encode argv rest :
  small_command argv →
  resp_parse_one_command (resp_encode argv ++ rest) = Done (1, length (resp_encode argv)).
Proof.
  intros [Hn Hargv]. unfold resp_encode, resp_parse_one_command.
  simpl. rewrite <-!app_assoc, parse_digits_dec by lia.
  rewrite expect_crlf_app.
  rewrite one_command_bulks_encode; [|done|].
  - rewrite !length_app. do 2 f_equal. lia.
  - rewrite length_app. pose proof (encode_bulks_length argv). lia.
Qed.

Section arguments_lemmas.
Context {S : Type}.
Implicit Types (E : env) (s : S).

Lemma wp_argument_bulks argv fuel Q E s t :
  Forall (λ a, strlen a < INT_MAX) argv → (length argv ≤ fuel)%nat → no_oom E →
  (∀ t', Q (Some argv) s t') →
  wp (argument_bulks fuel (Z.of_nat (length argv)) (concat (encode_bulk <$> argv))) Q E s t.
Proof.
  intros Hargv. revert fuel Q t. induction Hargv as [|a argv Ha Hargv IH]; intros fuel Q t Hf HE HQ.
  { destruct fuel; (apply wp_ret; apply HQ). }
  destruct fuel as [|fuel]; simpl in Hf; [lia|].
  rewrite fmap_cons. cbn [concat]. unfold encode_bulk at 1. cbn [length].
  unfold argument_bulks; fold (@argument_bulks S).
  rewrite (proj2 (Z.leb_gt _ _)) by lia. simpl. rewrite <-!app_assoc.
  rewrite parse_digits_dec by (unfold strlen in *; lia).
  rewrite expect_crlf_app, bulk_fits, (proj2 (Z.leb_le _ _)) by lia. simpl negb. cbv iota.
  wp_steps. rewrite HE. simpl.
  rewrite drop_bulk, expect_crlf_app, take_bulk. wp_steps.
  replace (Z.of_nat (Datatypes.S (length argv)) - 1) with (Z.of_nat (length argv)) by lia.
  apply IH; [lia|done|]. intros t'. wp_steps. apply HQ.
Qed.

Lemma wp_parse_arguments argv Q E s t :
  small_command argv → argv ≠ [] → no_oom E →
  (∀ t', Q (Some argv) s t') → wp (resp_parse_arguments (resp_encode argv)) Q E s t.
Proof.
  intros [Hn Hargv] Hne HE HQ. unfold resp_encode, resp_parse_arguments.
  simpl. rewrite parse_digits_dec by lia. rewrite expect_crlf_app.
  destruct argv as [|a argv]; [done|].
  rewrite (proj2 (Z.leb_gt _ _)) by (simpl; lia). wp_steps. rewrite HE. simpl negb. cbv iota.
  apply wp_argument_bulks; [done| |done|done].
  pose proof (encode_bulks_length (a :: argv)). lia.
Qed.
End arguments_lemmas.

(** ** Parsing never depends on bytes it has not reached *)

Lemma parse_digits_suffix num p v r :
  parse_digits num p = Done (v, r) → ∃ d, p = d ++ r ∧ Forall (λ c, is_digit c = true) d.
Proof.
  revert num. induction p as [|c p IH]; intros num; simpl; [intros [= <- <-]; by exists []|].
  destruct (is_digit c) eqn:Hc; [|intros [= <- <-]; by exists []].
  destruct (_ <=? _); [|done]. intros (d & -> & Hd)%IH. exists (c :: d). split; [done|].
  by constructor.
Qed.

Lemma parse_digits_more num p v r m :
  parse_digits num p = Done (v, r) → r ≠ [] → parse_digits num (p ++ m) = Done (v, r ++ m).
Proof.
  revert num. induction p as [|c p IH]; intros num; simpl; [by intros [= <- <-]|].
  destruct (is_digit c) eqn:Hc; [|by intros [= <- <-]].
  destruct (_ <=? _); [|done]. eauto.
Qed.

Lemma parse_digits_fault num p f m :
  parse_digits num p = Fault f → parse_digits num (p ++ m) = Fault f.
Proof.
  revert num. induction p as [|c p IH]; intros num; simpl; [done|].
  destruct (is_digit c) eqn:Hc; [|done]. destruct (_ <=? _); [|done]. eauto.
Qed.

Lemma parse_digits_nonneg num p v r :
  parse_digits num p = Done (v, r) → 0 ≤ num ≤ INT_MAX → 0 ≤ v ≤ INT_MAX.
Proof.
  revert num. induction p as [|c p IH]; intros num; simpl; [by intros [= <- <-]|].
  destruct (is_digit c) eqn:Hc; [|by intros [= <- <-]].
  destruct (_ <=? _) eqn:Hle; [|done]. intros H Hn. eapply IH; [done|].
  unfold is_digit in Hc. to_prop. lia.
Qed.

Lemma expect_crlf_inv p r : expect_crlf p = Some r → p = crlf ++ r.
Proof.
  destruct p as [|c [|d p]]; simpl; try done. case_decide as H; [|done].
  destruct H as [-> ->]. by intros [= ->].
Qed.

Lemma expect_crlf_more p r m : expect_crlf p = Some r → expect_crlf (p ++ m) = Some (r ++ m).
Proof. intros ->%expect_crlf_inv. by rewrite <-app_assoc, expect_crlf_app. Qed.

Lemma drop_more (k : nat) (p m : bytes) : (k ≤ length p)%nat → drop k (p ++ m) = drop k p ++ m.
Proof. intros Hk. rewrite drop_app. replace (k - length p)%nat with 0%nat by lia. by rewrite drop_0. Qed.

(** One bulk string at the front of [p]. *)
Lemma bulks_step fuel n p ret r :
  one_command_bulks (S fuel) n p = Done (ret, r) → 0 < n → ret = 1 →
  ∃ p1 len p2 p3, p = DOLLAR :: p1 ∧ parse_digits 0 p1 = Done (len, crlf ++ p2) ∧
    0 ≤ len ≤ Z.of_nat (length p2) ∧ drop (Z.to_nat len) p2 = crlf ++ p3 ∧
    one_command_bulks fuel (n - 1) p3 = Done (ret, r).
Proof.
  intros H Hn ->. unfold one_command_bulks in H; fold one_command_bulks in H.
  rewrite (proj2 (Z.leb_gt _ _)) in H by lia.
  destruct p as [|c p1]; [done|]. case_decide; [subst c|done].
  destruct (parse_digits 0 p1) as [[len p2]|] eqn:Hd; [|done].
  destruct (expect_crlf p2) as [p3|] eqn:Hc; [|done]. apply expect_crlf_inv in Hc as ->.
  destruct (_ <? _) eqn:Hl; [done|]. to_prop.
  destruct (expect_crlf (drop _ p3)) as [p4|] eqn:Hc; [|done]. apply expect_crlf_inv in Hc.
  exists p1, len, p3, p4. split_and!; try done.
  pose proof (parse_digits_nonneg _ _ _ _ Hd ltac:(unfold INT_MAX; lia)). lia.
Qed.

Lemma bulks_step_intro fuel n p1 len p2 p3 :
  0 < n → parse_digits 0 p1 = Done (len, crlf ++ p2) → 0 ≤ len ≤ Z.of_nat (length p2) →
  drop (Z.to_nat len) p2 = crlf ++ p3 →
  one_command_bulks (S fuel) n (DOLLAR :: p1) = one_command_bulks fuel (n - 1) p3.
Proof.
  intros Hn Hd Hl Hp. unfold one_command_bulks at 1; fold one_command_bulks.
  rewrite (proj2 (Z.leb_gt _ _)) by lia. rewrite decide_True by done.
  rewrite Hd, expect_crlf_app. rewrite (proj2 (Z.ltb_ge _ _)) by lia.
  by rewrite Hp, expect_crlf_app.
Qed.

Lemma bulks_more fuel fuel' n p r m :
  one_command_bulks fuel n p = Done (1, r) → (fuel ≤ fuel')%nat →
  one_command_bulks fuel' n (p ++ m) = Done (1, r ++ m).
Proof.
  revert fuel' n p. induction fuel as [|fuel IH]; intros fuel' n p H Hf.
  - destruct fuel'; unfold one_command_bulks in *; destruct (n <=? 0); naive_solver.
  - destruct (decide (n ≤ 0)) as [Hn|Hn].
    { unfold one_command_bulks in H. rewrite (proj2 (Z.leb_le _ _)) in H by lia. simplify_eq.
      destruct fuel'; unfold one_command_bulks; by rewrite (proj2 (Z.leb_le _ _)) by lia. }
    destruct (bulks_step _ _ _ _ _ H) as (p1 & len & p2 & p3 & -> & Hd & Hl & Hp & Hr); [lia|done|].
    destruct fuel' as [|fuel']; [lia|]. simpl.
    rewrite (bulks_step_intro fuel' n (p1 ++ m) len (p2 ++ m) (p3 ++ m)); [|lia|..].
    + apply IH; [done|lia].
    + rewrite (parse_digits_more _ _ _ _ m Hd); [by rewrite <-app_assoc|done].
    + rewrite length_app. lia.
    + rewrite drop_more by lia. by rewrite Hp, <-app_assoc.
Qed.

(** What is left after a command is a suffix of the buffer. *)
Lemma bulks_suffix fuel n p r :
  one_command_bulks fuel n p = Done (1, r) → ∃ q, p = q ++ r.
Proof.
  revert n p. induction fuel as [|fuel IH]; intros n p H.
  - unfold one_command_bulks in H. destruct (n <=? 0); simplify_eq. by exists [].
  - destruct (decide (n ≤ 0)) as [Hn|Hn].
    { unfold one_command_bulks in H. rewrite (proj2 (Z.leb_le _ _)) in H by lia. simplify_eq. by exists []. }
    destruct (bulks_step _ _ _ _ _ H) as (p1 & len & p2 & p3 & -> & Hd & Hl & Hp & Hr); [lia|done|].
    destruct (IH _ _ Hr) as [q ->]. destruct (parse_digits_suffix _ _ _ _ Hd) as (d & -> & _).
    exists (DOLLAR :: d ++ crlf ++ take (Z.to_nat len) p2 ++ crlf ++ q).
    rewrite <-(take_drop (Z.to_nat len) p2) at 1. rewrite Hp. simpl. by rewrite <-!app_assoc.
Qed.

Lemma parse_one_inv buf n :
  resp_parse_one_command buf = Done (1, n) →
  ∃ p num p2 r, buf = STAR :: p ∧ parse_digits 0 p = Done (num, crlf ++ p2) ∧
    one_command_bulks (S (length p2)) num p2 = Done (1, r) ∧
    n = (length buf - length r)%nat ∧ ∃ q, buf = q ++ r.
Proof.
  destruct buf as [|c p]; simpl; [done|]. case_decide; [subst c|done].
  destruct (parse_digits 0 p) as [[num p1]|] eqn:Hd; [|done].
  destruct (expect_crlf p1) as [p2|] eqn:Hc; [|done]. apply expect_crlf_inv in Hc as ->.
  destruct (one_command_bulks _ num p2) as [[ret r]|] eqn:Hb; [|done]. intros [= -> <-].
  exists p, num, p2, r. split_and!; try done.
  destruct (bulks_suffix _ _ _ _ Hb) as [q ->].
  destruct (parse_digits_suffix _ _ _ _ Hd) as (d & -> & _).
  exists (STAR :: d ++ crlf ++ q). simpl. by rewrite <-!app_assoc.
Qed.

Lemma parse_one_intro p num p2 r :
  parse_digits 0 p = Done (num, crlf ++ p2) →
  one_command_bulks (S (length p2)) num p2 = Done (1, r) →
  resp_parse_one_command (STAR :: p) = Done (1, (S (length p) - length r)%nat).
Proof.
  intros Hd Hb. unfold resp_parse_one_command. rewrite decide_True by done.
  by rewrite Hd, expect_crlf_app, Hb.
Qed.

Lemma parse_one_more buf n m :
  resp_parse_one_command buf = Done (1, n) → resp_parse_one_command (buf ++ m) = Done (1, n).
Proof.
  intros (p & num & p2 & r & -> & Hd & Hb & -> & q & Hq)%parse_one_inv.
  rewrite <-app_comm_cons, (parse_one_intro (p ++ m) num (p2 ++ m) (r ++ m)).
  - do 2 f_equal. simpl. rewrite !length_app. lia.
  - rewrite (parse_digits_more _ _ _ _ m Hd); [by rewrite <-app_assoc|done].
  - eapply bulks_more; [done|]. rewrite length_app. lia.
Qed.

Lemma parse_one_length buf n :
  resp_parse_one_command buf = Done (1, n) → (0 < n ≤ length buf)%nat.
Proof.
  intros (p & num & p2 & r & -> & Hd & Hb & -> & q & Hq)%parse_one_inv.
  assert (q ≠ []) as Hne.
  { intros ->. simpl in Hq. destruct (bulks_suffix _ _ _ _ Hb) as [q' ->].
    destruct (parse_digits_suffix _ _ _ _ Hd) as (d & -> & _).
    apply (f_equal length) in Hq. simpl in Hq. rewrite !length_app in Hq. lia. }
  rewrite Hq, length_app. destruct q; [done|]. simpl. lia.
Qed.

(** ** The framer always answers *)

Lemma parse_digits_fault_kind num p f : parse_digits num p = Fault f → f = SignedOverflow.
Proof.
  revert num. induction p as [|c p IH]; intros num; simpl; [done|].
  destruct (is_digit c); [|done]. destruct (_ <=? _); [eauto|naive_solver].
Qed.

Lemma bulks_fuel fuel n p f :
  one_command_bulks fuel n p = Fault f → (length p < fuel)%nat → f = SignedOverflow.
Proof.
  revert n p. induction fuel as [|fuel IH]; intros n p H Hf; [lia|].
  unfold one_command_bulks in H; fold one_command_bulks in H.
  destruct (n <=? 0); [done|]. destruct p as [|c p1]; [done|]. case_decide; [|done].
  destruct (parse_digits 0 p1) as [[len p2]|] eqn:Hd; [|simplify_eq; by eapply parse_digits_fault_kind].
  destruct (expect_crlf p2) as [p3|] eqn:Hc; [|done]. apply expect_crlf_inv in Hc as ->.
  destruct (_ <? _); [done|].
  destruct (expect_crlf (drop _ p3)) as [p4|] eqn:Hc; [|done]. apply expect_crlf_inv in Hc.
  eapply IH; [done|]. destruct (parse_digits_suffix _ _ _ _ Hd) as (d & -> & _).
  apply (f_equal length) in Hc. rewrite length_drop, length_app, crlf_length in Hc.
  simpl in Hf. rewrite !length_app, crlf_length in Hf. lia.
Qed.

Lemma parse_one_fault buf f : resp_parse_one_command buf = Fault f → f = SignedOverflow.
Proof.
  destruct buf as [|c p]; simpl; [done|]. case_decide; [|done].
  destruct (parse_digits 0 p) as [[num p1]|] eqn:Hd; [|intros; simplify_eq; by eapply parse_digits_fault_kind].
  destruct (expect_crlf p1) as [p2|]; [|done].
  destruct (one_command_bulks _ num p2) as [[ret r]|] eqn:Hb; [done|].
  intros [= <-]. eapply bulks_fuel; [done|lia].
Qed.

Lemma bulks_fault_more fuel fuel' n p m :
  one_command_bulks fuel n p = Fault SignedOverflow → (fuel ≤ fuel')%nat →
  one_command_bulks fuel' n (p ++ m) = Fault SignedOverflow.
Proof.
  revert fuel' n p. induction fuel as [|fuel IH]; intros fuel' n p H Hf.
  { unfold one_command_bulks in H. by destruct (n <=? 0). }
  destruct fuel' as [|fuel']; [lia|].
  unfold one_command_bulks in H |- *; fold one_command_bulks in H |- *.
  destruct (n <=? 0); [done|]. destruct p as [|c p1]; [done|]. simpl. case_decide; [|done].
  destruct (parse_digits 0 p1) as [[len p2]|] eqn:Hd.
  - destruct (expect_crlf p2) as [p3|] eqn:Hc; [|done].
    pose proof (expect_crlf_inv _ _ Hc) as ->.
    rewrite (parse_digits_more _ _ _ _ m Hd) by done. rewrite (expect_crlf_more _ _ m Hc).
    destruct (_ <? _) eqn:Hl; [done|]. to_prop. rewrite length_app.
    rewrite (proj2 (Z.ltb_ge _ _)) by lia.
    destruct (expect_crlf (drop _ p3)) as [p4|] eqn:Hc'; [|done].
    rewrite drop_more, (expect_crlf_more _ _ m Hc') by lia. apply IH; [done|lia].
  - simplify_eq. by rewrite (parse_digits_fault _ _ _ m Hd).
Qed.

Lemma parse_one_fault_more buf f m :
  resp_parse_one_command buf = Fault f → resp_parse_one_command (buf ++ m) = Fault f.
Proof.
  intros H. pose proof (parse_one_fault _ _ H) as ->. revert H.
  destruct buf as [|c p]; simpl; [done|]. case_decide; [|done].
  destruct (parse_digits 0 p) as [[num p1]|] eqn:Hd.
  - destruct (expect_crlf p1) as [p2|] eqn:Hc; [|done]. pose proof (expect_crlf_inv _ _ Hc) as ->.
    rewrite (parse_digits_more _ _ _ _ m Hd) by done. rewrite (expect_crlf_more _ _ m Hc).
    destruct (one_command_bulks _ num p2) as [[ret r]|] eqn:Hb; [done|]. intros [= ->].
    erewrite bulks_fault_more; [done|exact Hb|]. rewrite length_app. lia.
  - intros [= ->]. by rewrite (parse_digits_fault _ _ _ m Hd).
Qed.

(** A command that is not complete is not taken for one. *)
Lemma parse_one_prefix argv q m :
  small_command argv → resp_encode argv = q ++ m → m ≠ [] →
  ∃ ret n, resp_parse_one_command q = Done (ret, n) ∧ ret ≠ 1.
Proof.
  intros Hs Heq Hm. pose proof (parse_one_encode argv [] Hs) as Hfull. rewrite app_nil_r, Heq in Hfull.
  destruct (resp_parse_one_command q) as [[ret n]|f] eqn:Hq.
  - exists ret, n. split; [done|]. intros ->.
    rewrite (parse_one_more _ _ m Hq) in Hfull. injection Hfull as ->.
    apply parse_one_length in Hq. rewrite length_app in Hq. destruct m; simpl in Hq; [done|lia].
  - by rewrite (parse_one_fault_more _ _ m Hq) in Hfull.
Qed.

(** The return values are 1, 0 and -1. *)
Lemma bulks_return fuel n p ret r : one_command_bulks fuel n p = Done (ret, r) → ret = 1 ∨ ret = 0 ∨ ret = -1.
Proof.
  revert n p. induction fuel as [|fuel IH]; intros n p H;
    unfold one_command_bulks in H; fold one_command_bulks in H; repeat case_match; simplify_eq; auto;
    eauto.
Qed.

Lemma parse_one_return buf ret n : resp_parse_one_command buf = Done (ret, n) → ret = 1 ∨ ret = 0 ∨ ret = -1.
Proof.
  unfold resp_parse_one_command. repeat case_match; intros; simplify_eq; auto.
  by eapply bulks_return.
Qed.

(** ** The two parsers agree *)

Lemma parse_digits_swap num d v r r' :
  Forall (λ c, is_digit c = true) d → parse_digits num (d ++ crlf ++ r) = Done (v, crlf ++ r) →
  parse_digits num (d ++ crlf ++ r') = Done (v, crlf ++ r').
Proof.
  intros Hd. revert num. induction Hd as [|c d Hc Hd IH]; intros num; simpl.
  - change (crlf ++ r) with (CR :: LF :: r). change (crlf ++ r') with (CR :: LF :: r').
    simpl. by intros [= ->].
  - rewrite Hc. destruct (_ <=? _); [|done]. apply IH.
Qed.

Section agree.
Context {S : Type}.
Implicit Types (E : env) (s : S).

Lemma wp_argument_bulks_agree fuel fuel' n p q r Q E s t :
  one_command_bulks fuel n p = Done (1, r) → p = q ++ r → (length q < fuel')%nat →
  Z.of_nat (length q) ≤ INT_MAX → no_oom E → 0 ≤ n →
  (∀ argv t', Z.of_nat (length argv) = n → Q (Some argv) s t') →
  wp (argument_bulks fuel' n q) Q E s t.
Proof.
  revert fuel' n p q Q t.
  induction fuel as [|fuel IH]; intros fuel' n p q Q t H Hpq Hf Hmax HE Hn HQ.
  { unfold one_command_bulks in H. destruct (n <=? 0) eqn:Hn'; [|done]. to_prop.
    destruct fuel'; unfold argument_bulks; rewrite (proj2 (Z.leb_le _ _)) by lia; wp_steps;
      apply HQ; simpl; lia. }
  destruct (decide (n ≤ 0)) as [Hn'|Hn'].
  { destruct fuel'; unfold argument_bulks; rewrite (proj2 (Z.leb_le _ _)) by lia; wp_steps;
      apply HQ; simpl; lia. }
  destruct (bulks_step _ _ _ _ _ H) as (p1 & len & p2 & p3 & Hp1 & Hd & Hl & Hp & Hr); [lia|done|].
  destruct (bulks_suffix _ _ _ _ Hr) as [q3 ->].
  destruct (parse_digits_suffix _ _ _ _ Hd) as (d & -> & Hdig).
  assert (q = DOLLAR :: d ++ crlf ++ take (Z.to_nat len) p2 ++ crlf ++ q3) as ->.
  { rewrite Hp1 in Hpq. rewrite <-(take_drop (Z.to_nat len) p2), Hp in Hpq.
    apply (app_inv_tail r). rewrite <-Hpq. simpl. by rewrite <-!app_assoc. }
  destruct fuel' as [|fuel']; [lia|]. unfold argument_bulks; fold (@argument_bulks S).
  rewrite (proj2 (Z.leb_gt _ _)) by lia. rewrite decide_True by done.
  assert (length (take (Z.to_nat len) p2) = Z.to_nat len) as Htl by (rewrite length_take; lia).
  rewrite (parse_digits_swap _ _ _ _ _ Hdig Hd).
  simpl in Hf, Hmax. rewrite !length_app, !crlf_length in Hf, Hmax. rewrite Htl in Hmax.
  rewrite expect_crlf_app, length_app, Htl. rewrite (proj2 (Z.ltb_ge _ _)) by lia.
  rewrite (proj2 (Z.leb_le _ _)) by lia. simpl negb. cbv iota. wp_steps. rewrite HE. simpl negb. cbv iota.
  rewrite drop_app_length', expect_crlf_app by done. wp_steps.
  eapply (IH fuel' (n - 1) _ q3); [exact Hr|done|lia|lia|done|lia|].
  intros argv t' Hlen. wp_steps. apply HQ. simpl. lia.
Qed.

(** Whatever the framer accepts, the splitter splits, into as many arguments as
    the header announces; only the empty array is refused. *)
Lemma wp_parse_arguments_agree buf n E s t :
  resp_parse_one_command buf = Done (1, n) → Z.of_nat (length buf) ≤ INT_MAX → no_oom E →
  wp (resp_parse_arguments (take n buf)) (λ r s' _,
    s' = s ∧ match r with
             | Some argv => argv ≠ []
             | None => ∃ p rest, buf = STAR :: p ∧ parse_digits 0 p = Done (0, rest)
             end) E s t.
Proof.
  intros (p & num & p2 & r & -> & Hd & Hb & -> & q & Hq)%parse_one_inv Hmax HE.
  destruct (bulks_suffix _ _ _ _ Hb) as [q2 ->].
  destruct (parse_digits_suffix _ _ _ _ Hd) as (d & -> & Hdig).
  replace (take _ _) with (STAR :: d ++ crlf ++ q2); last first.
  { rewrite Hq, length_app, Nat.add_sub, take_app_length.
    apply (app_inv_tail r). rewrite <-Hq. simpl. by rewrite <-!app_assoc. }
  unfold resp_parse_arguments. rewrite decide_True by done.
  rewrite (parse_digits_swap _ _ _ _ _ Hdig Hd), expect_crlf_app.
  pose proof (parse_digits_nonneg _ _ _ _ Hd ltac:(unfold INT_MAX; lia)) as Hnn.
  destruct (num <=? 0) eqn:Hz; to_prop; wp_steps.
  - split; [done|]. assert (num = 0) as -> by lia. eauto.
  - rewrite HE. simpl negb. cbv iota.
    eapply (wp_argument_bulks_agree (Datatypes.S (length (q2 ++ r))));
      [exact Hb|done|lia| |done|lia|].
    { simpl in Hmax. rewrite !length_app in Hmax. lia. }
    intros argv t' Hlen. split; [done|]. intros ->. simpl in Hlen. lia.
Qed.
End agree.

(** ** Theorems *)

Definition ping : list bytes := [lit "PING"].
Definition set_k_v : list bytes := [lit "SET"; lit "k"; lit "v"].

Lemma set_k_v_small : small_command set_k_v.
Proof. split; [done|]. repeat constructor; done. Qed.

(** C22: round trip. A command encoded as a RESP array and followed by anything is
    framed at exactly its own length, and the splitter returns exactly its
    arguments without touching the state, whatever bytes they hold. *)
Theorem resp_roundtrip {S} argv rest E (s : S) t :
  small_command argv → argv ≠ [] → no_oom E →
  resp_parse_one_command (resp_encode argv ++ rest) = Done (1, length (resp_encode argv)) ∧
  wp (resp_parse_arguments (resp_encode argv)) (λ r s' _, r = Some argv ∧ s' = s) E s t.
Proof. intros Hs Hne HE. split; [by apply parse_one_encode|]. by apply wp_parse_arguments. Qed.

Lemma resp_roundtrip_witness :
  ∃ E : env, resp_parse_one_command (resp_encode set_k_v ++ lit "*1") = Done (1, length (resp_encode set_k_v)) ∧
    wp (resp_parse_arguments (resp_encode set_k_v)) (λ r s' _, r = Some set_k_v ∧ s' = tt) E tt 0.
Proof.
  exists (Env (λ _, 0) (λ _, true) (λ _, 0) (λ _, true) (λ _, 0%nat) true (λ _, 1%nat) (λ _, None) (λ _, true)).
  apply (resp_roundtrip set_k_v (lit "*1")); [exact set_k_v_small|done|done].
Defined.

(** A proper prefix of a command, which is what a read from the network may
    deliver, is never taken for a complete command and never makes the parser
    fault; a command once complete stays so, with the same length, whatever
    arrives after it. *)
Theorem resp_incremental argv q m :
  small_command argv → resp_encode argv = q ++ m →
  (m ≠ [] → ∃ ret n, resp_parse_one_command q = Done (ret, n) ∧ ret ≤ 0) ∧
  (m = [] → ∀ more, resp_parse_one_command (q ++ more) = Done (1, length q)).
Proof.
  intros Hs Heq. split.
  - intros Hm. destruct (parse_one_prefix argv q m Hs Heq Hm) as (ret & n & Hp & Hr).
    exists ret, n. split; [done|]. by destruct (parse_one_return _ _ _ Hp) as [|[|]]; lia.
  - intros -> more. rewrite app_nil_r in Heq. subst q. by apply parse_one_encode.
Qed.

Lemma resp_incremental_witness :
  ∃ q m, resp_encode set_k_v = q ++ m ∧ m ≠ [] ∧
    ∃ ret n, resp_parse_one_command q = Done (ret, n) ∧ ret ≤ 0.
Proof.
  exists (take 12 (resp_encode set_k_v)), (drop 12 (resp_encode set_k_v)).
  split; [done|]. split; [done|].
  apply (resp_incremental set_k_v (take 12 (resp_encode set_k_v)) (drop 12 (resp_encode set_k_v)) set_k_v_small eq_refl). done.
Defined.

(** C27: on any input at all the framer reads inside the buffer only: it returns 1,
    0 or -1, a complete command has a length between 1 and what is in the buffer,
    and the only fault is an announced number too large for an int. The pointer
    p + bulk_len that it forms for an announced length lies past the buffer when
    the string has not arrived, which the C standard leaves undefined; it is only
    compared, and on a flat 64-bit address space, for a buffer that ends below the
    topmost 2 GB, the comparison of addresses is the comparison of lengths. *)
Theorem resp_framer_safe buf :
  match resp_parse_one_command buf with
  | Done (ret, n) => ret = 1 ∧ (0 < n ≤ length buf)%nat ∨ ret = 0 ∨ ret = -1
  | Fault f => f = SignedOverflow
  end ∧
  ∀ q p last digits bulk_len rest,
    buf = q ++ p → Z.of_nat (length buf) ≤ last → last + INT_MAX < 2 ^ 64 →
    parse_digits 0 digits = Done (bulk_len, rest) →
    past_end last p bulk_len = (Z.of_nat (length p) <? bulk_len).
Proof.
  split.
  - destruct (resp_parse_one_command buf) as [[ret n]|f] eqn:Hp; [|by eapply parse_one_fault].
    destruct (parse_one_return _ _ _ Hp) as [->|]; [left|by right]. split; [done|]. by apply parse_one_length.
  - intros q p last digits bulk_len rest -> Hl Hmax Hd%parse_digits_nonneg; [|done].
    rewrite length_app in Hl. apply past_end_length; lia.
Qed.

(** C28: the two parsers agree. Whatever the framer cuts out as one command, the
    splitter splits without fault; it refuses it only when the array announces
    zero elements. *)
Theorem resp_parsers_agree {S} buf n E (s : S) t :
  resp_parse_one_command buf = Done (1, n) → Z.of_nat (length buf) ≤ INT_MAX → no_oom E →
  wp (resp_parse_arguments (take n buf)) (λ r s' _,
    s' = s ∧ match r with
             | Some argv => argv ≠ []
             | None => ∃ p rest, buf = STAR :: p ∧ parse_digits 0 p = Done (0, rest)
             end) E s t.
Proof. apply wp_parse_arguments_agree. Qed.

Lemma resp_parsers_agree_witness :
  ∃ E : env, wp (resp_parse_arguments (take 14 (resp_encode ping ++ lit "x"))) (λ r s' _,
    s' = tt ∧ match r with
             | Some argv => argv ≠ []
             | None => ∃ p rest, resp_encode ping ++ lit "x" = STAR :: p ∧ parse_digits 0 p = Done (0, rest)
             end) E tt 0.
Proof.
  exists (Env (λ _, 0) (λ _, true) (λ _, 0) (λ _, true) (λ _, 0%nat) true (λ _, 1%nat) (λ _, None) (λ _, true)).
  apply (resp_parsers_agree (resp_encode ping ++ lit "x") 14); [reflexivity|by vm_compute|done].
Defined.

(** A read that ends exactly between two bulk strings is reported as a
    protocol error (-1) instead of as an incomplete command (0). *)
Theorem resp_boundary_error argv1 argv2 :
  small_command (argv1 ++ argv2) → argv2 ≠ [] →
  let q := STAR :: dec (Z.of_nat (length (argv1 ++ argv2))) ++ crlf ++ concat (encode_bulk <$> argv1) in
  resp_encode (argv1 ++ argv2) = q ++ concat (encode_bulk <$> argv2) ∧
  ∃ n, resp_parse_one_command q = Done (-1, n).
Proof.
  intros [Hn Hall] Hne q. split.
  { unfold q, resp_encode. rewrite fmap_app, concat_app. simpl. by rewrite <-!app_assoc. }
  unfold q, resp_parse_one_command. rewrite decide_True by done.
  rewrite parse_digits_dec, expect_crlf_app by lia.
  apply Forall_app in Hall as [Hall _]. rewrite length_app, Nat2Z.inj_add.
  enough (∀ fuel k, (length argv1 < fuel)%nat → 0 < k → one_command_bulks fuel (Z.of_nat (length argv1) + k)
    (concat (encode_bulk <$> argv1)) = Done (-1, [])) as ->; [eauto|pose proof (encode_bulks_length argv1); lia|destruct argv2; [done|simpl; lia]|].
  clear -Hall. induction Hall as [|a argv Ha Hall IH]; intros fuel k Hf Hk.
  - destruct fuel; [simpl in Hf; lia|]. unfold one_command_bulks. simpl.
    by rewrite (proj2 (Z.leb_gt _ _)) by lia.
  - destruct fuel as [|fuel]; [simpl in Hf; lia|]. rewrite fmap_cons. cbn [concat length].
    unfold encode_bulk at 1. rewrite <-app_comm_cons.
    rewrite (bulks_step_intro fuel _ _ (strlen a) (a ++ crlf ++ concat (encode_bulk <$> argv)) (concat (encode_bulk <$> argv))).
    + replace (Z.of_nat (S (length argv)) + k - 1) with (Z.of_nat (length argv) + k) by lia.
      apply IH; [simpl in Hf; lia|done].
    + lia.
    + rewrite <-!app_assoc. apply parse_digits_dec. unfold strlen in *. lia.
    + unfold strlen. rewrite !length_app. lia.
    + by rewrite drop_bulk.
Qed.

Lemma resp_boundary_error_witness :
  ∃ n, resp_parse_one_command (STAR :: dec 3 ++ crlf ++ encode_bulk (lit "SET")) = Done (-1, n).
Proof.
  pose proof (resp_boundary_error [lit "SET"] [lit "k"; lit "v"] set_k_v_small ltac:(done)) as [_ H].
  exact H.
Defined.
