(* ===== verification/Cstdlib.v ===== *)
(** * The parts of the C library the server calls

    [isspace], [atoi] and [atoll] as glibc implements them (strtol with
    saturation, atoi truncating to [int]), [strtok], [sscanf] and [snprintf] for
    the formats that occur, and [fgets]. *)

From S2P Require Import Prelude.

(** ** Characters and numbers *)

(** isspace in the C locale. *)
Definition isspace (c : byte) : bool :=
  (uchar c =? 32) || ((9 <=? uchar c) && (uchar c <=? 13)).

Fixpoint skip_space (s : bytes) : bytes :=
  match s with
  | [] => []
  | c :: s' => if isspace c then skip_space s' else s
  end.

(** The longest prefix of digits and the rest. *)
Fixpoint span_digits (s : bytes) : bytes * bytes :=
  match s with
  | [] => ([], [])
  | c :: s' => if is_digit c then let '(d, r) := span_digits s' in (c :: d, r) else ([], s)
  end.

Definition MINUS : byte := Byte.x2d.
Definition PLUS : byte := Byte.x2b.

(** The optional sign. *)
Definition split_sign (s : bytes) : bool * bytes :=
  match s with
  | [] => (false, [])
  | c :: s' =>
      if decide (c = MINUS) then (true, s')
      else if decide (c = PLUS) then (false, s')
      else (false, s)
  end.

Definition saturate (z : Z) : Z :=
  if z <? LLONG_MIN then LLONG_MIN else if LLONG_MAX <? z then LLONG_MAX else z.

(** strtoll (s, NULL, 10) *)
Definition strtoll (s : bytes) : Z :=
  let '(neg, s1) := split_sign (skip_space s) in
  let v := numeral 0 (span_digits s1).1 in
  saturate (if neg : bool then - v else v).

Definition atoll (s : bytes) : Z := strtoll s.
Definition atoi (s : bytes) : Z := s32 (strtoll s).

Lemma span_digits_app d r :
  Forall (λ c, is_digit c = true) d →
  match r with [] => True | c :: _ => is_digit c = false end →
  span_digits (d ++ r) = (d, r).
Proof.
  intros Hd Hr. induction Hd as [|c d Hc Hd IH]; simpl.
  - destruct r as [|c r]; simpl; [done|]. by rewrite Hr.
  - by rewrite Hc, IH.
Qed.

Lemma digit_not_space c : is_digit c = true → isspace c = false.
Proof. unfold is_digit, isspace. lia. Qed.

Lemma digit_no_sign c : is_digit c = true → c ≠ MINUS ∧ c ≠ PLUS.
Proof. intros H. split; intros ->; vm_compute in H; done. Qed.

Lemma saturate_id z : LLONG_MIN ≤ z ≤ LLONG_MAX → saturate z = z.
Proof. intros H. unfold saturate. rewrite !(proj2 (Z.ltb_ge _ _)) by lia. done. Qed.

Lemma saturate_range z : LLONG_MIN ≤ saturate z ≤ LLONG_MAX.
Proof. unfold saturate, LLONG_MIN, LLONG_MAX. repeat case_match; to_prop; lia. Qed.

(** Reading a number back. *)
Lemma strtoll_dec_signed n : LLONG_MIN ≤ n ≤ LLONG_MAX → strtoll (dec_signed n) = n.
Proof.
  intros Hn. unfold strtoll, dec_signed. destruct (n <? 0) eqn:Hs; to_prop.
  - simpl. pose proof (span_digits_app (dec (- n)) [] (dec_digits (- n) ltac:(lia)) I) as Hd.
    rewrite app_nil_r in Hd. rewrite Hd. simpl. rewrite numeral_dec by lia.
    rewrite Z.opp_involutive. by apply saturate_id.
  - pose proof (dec_digits n Hs) as Hdig. pose proof (dec_nonempty n) as Hne.
    pose proof (span_digits_app (dec n) [] Hdig I) as Hd. rewrite app_nil_r in Hd.
    pose proof (numeral_dec n Hs) as Hv.
    destruct (dec n) as [|c l]; [done|]. apply Forall_cons in Hdig as [Hc _].
    cbn [skip_space]. rewrite digit_not_space by done.
    destruct (digit_no_sign c Hc) as [H1 H2]. cbn [split_sign].
    rewrite !decide_False by done. rewrite Hd. cbn [fst]. rewrite Hv. by apply saturate_id.
Qed.

(** ** Lines and tokens *)

(** fgets (line, n + 1, fp): at most [n] bytes, up to and including a newline. *)
Fixpoint fgets (n : nat) (fp : bytes) : bytes * bytes :=
  match n, fp with
  | S n', c :: fp' =>
      if decide (c = LF) then ([c], fp')
      else let '(l, r) := fgets n' fp' in (c :: l, r)
  | _, _ => ([], fp)
  end.

(** strtok (s, " \t"): leading separators are skipped; the token and what
    follows the separator that ended it. *)
Definition is_sep (c : byte) : bool := (uchar c =? 32) || (uchar c =? 9).

Fixpoint skip_sep (s : bytes) : bytes :=
  match s with
  | [] => []
  | c :: s' => if is_sep c then skip_sep s' else s
  end.

Fixpoint split_token (s : bytes) : bytes * bytes :=
  match s with
  | [] => ([], [])
  | c :: s' => if is_sep c then ([], s') else let '(k, r) := split_token s' in (c :: k, r)
  end.

Definition strtok_space (s : bytes) : option bytes * bytes :=
  match skip_sep s with
  | [] => (None, [])
  | s' => let '(k, r) := split_token s' in (Some k, r)
  end.

(** strtok (NULL, empty): the rest of the string, NULL when it is empty. *)
Definition strtok_rest (s : bytes) : option bytes :=
  match s with [] => None | _ => Some s end.

(** snprintf (dst, n + 1, "%s", s) *)
Definition snprintf_s (n : nat) (s : bytes) : bytes := take n s.
#[global] Arguments snprintf_s : simpl never.

(** A maximal run of non-space characters, at most [n] of them. *)
Fixpoint span_word (n : nat) (s : bytes) : bytes * bytes :=
  match n, s with
  | S n', c :: s' => if isspace c then ([], s) else let '(w, r) := span_word n' s' in (c :: w, r)
  | _, _ => ([], s)
  end.

(** sscanf (s, "%ns %d", host, &port) == 2 *)
Definition sscanf_host_port (n : nat) (s : bytes) : option (bytes * Z) :=
  let '(host, r) := span_word n (skip_space s) in
  match host with
  | [] => None
  | _ =>
      let r1 := skip_space r in
      match (span_digits (split_sign r1).2).1 with
      | [] => None
      | _ => Some (host, s32 (strtoll r1))
      end
  end.

Lemma fgets_split n fp : let '(l, r) := fgets n fp in fp = l ++ r.
Proof.
  revert fp. induction n as [|n IH]; intros [|c fp]; simpl; try done.
  case_decide; [done|]. specialize (IH fp). destruct (fgets n fp) as [l r]. simpl. by f_equal.
Qed.

Lemma fgets_progress n c fp : (length (fgets (S n) (c :: fp)).2 < length (c :: fp))%nat.
Proof.
  simpl. case_decide; simpl; [lia|]. pose proof (fgets_split n fp) as Hsp.
  destruct (fgets n fp) as [l r]. simpl. rewrite Hsp, length_app. lia.
Qed.

Lemma span_word_length n s : (length (span_word n s).1 ≤ n)%nat.
Proof.
  revert s. induction n as [|n IH]; intros [|c s]; simpl; try lia.
  destruct (isspace c); simpl; [lia|]. specialize (IH s). destruct (span_word n s). simpl in *. lia.
Qed.
