(* ===== verification/KvsConfig.v ===== *)
(** * The configuration file (kvs_config.c) *)

From S2P Require Import Prelude Cstdlib.

(** ** Data *)

(** The fields of kvs_config_t that the program sets. *)
Record kvs_config := Config {
  bind_ip     : bytes;   (* char bind_ip[16] *)
  port0       : Z;       (* ports[0] *)
  port_count  : Z;
  appendonly  : bool;
  appendfsync : Z;       (* 0 = no, 2 = always *)
  slave_mode  : bool;
  master_host : bytes;   (* char master_host[64] *)
  master_port : Z
}.

Definition g_config0 : kvs_config := Config [] 0 0 false 0 false [] 0.

(** ** Trimming *)

(** The string without its trailing white space; its first character stays. *)
Fixpoint rtrim (s : bytes) : bytes :=
  match s with
  | [] => []
  | c :: s' =>
      match rtrim s' with
      | [] => if isspace c then [] else [c]
      | r => c :: r
      end
  end.

Definition trim (str : bytes) : bytes := rtrim (skip_space str).

(** ** One line *)

Definition valid_port (port : Z) : bool := (0 <? port) && (port <=? 65535).

(** The dispatch on the key. *)
Definition apply_setting (key value : bytes) (g : kvs_config) : kvs_config :=
  if decide (key = lit "bind") then
    Config (snprintf_s 15 value) (port0 g) (port_count g) (appendonly g) (appendfsync g)
           (slave_mode g) (master_host g) (master_port g)
  else if decide (key = lit "port") then
    let port := atoi (trim value) in
    Config (bind_ip g) (if valid_port port then port else port0 g) 1 (appendonly g) (appendfsync g)
           (slave_mode g) (master_host g) (master_port g)
  else if decide (key = lit "appendonly") then
    Config (bind_ip g) (port0 g) (port_count g)
           (bool_decide (value = lit "yes" ∨ value = lit "true")) (appendfsync g)
           (slave_mode g) (master_host g) (master_port g)
  else if decide (key = lit "appendfsync") then
    Config (bind_ip g) (port0 g) (port_count g) (appendonly g)
           (if decide (value = lit "no") then 0
            else if decide (value = lit "always") then 2 else appendfsync g)
           (slave_mode g) (master_host g) (master_port g)
  else if decide (key = lit "slaveof") then
    match sscanf_host_port 63 value with
    | Some (host, port) =>
        if valid_port port then
          Config (bind_ip g) (port0 g) (port_count g) (appendonly g) (appendfsync g)
                 true (snprintf_s 63 host) port
        else g
    | None => g
    end
  else g.

Definition config_line (line : bytes) (g : kvs_config) : kvs_config :=
  let line := trim (cstr line) in
  match line with
  | [] => g
  | c :: _ =>
      if decide (c = Byte.x23) then g else
      let '(key, rest) := strtok_space line in
      match key, trim <$> strtok_rest rest with
      | Some key, Some value => apply_setting key value g
      | _, _ => g
      end
  end.

(** ** The file *)

(** while (fgets(line, sizeof(line), fp)), on the bytes of the file. *)
Fixpoint load_lines (fuel : nat) (fp : bytes) (g : kvs_config) : kvs_config :=
  match fuel, fp with
  | S fuel', _ :: _ =>
      let '(line, rest) := fgets 255 fp in
      load_lines fuel' rest (config_line line g)
  | _, _ => g
  end.

(** [None] is a file that cannot be opened. *)
Definition load_config (file : option bytes) (g : kvs_config) : Z * kvs_config :=
  match file with
  | None => (-1, g)
  | Some fp => (0, load_lines (length fp) fp g)
  end.

(** ** Trimming leaves no white space at either end *)

Lemma skip_space_head s : match skip_space s with [] => True | c :: _ => isspace c = false end.
Proof. induction s as [|c s IH]; simpl; [done|]. destruct (isspace c) eqn:Hc; [done|]. by simpl. Qed.

Lemma rtrim_nil s : rtrim s = [] ↔ Forall (λ c, isspace c = true) s.
Proof.
  induction s as [|c s IH]; simpl; [naive_solver|]. rewrite Forall_cons.
  destruct (rtrim s); [|naive_solver]. destruct (isspace c); naive_solver.
Qed.

Lemma rtrim_split s : ∃ w, s = rtrim s ++ w ∧ Forall (λ c, isspace c = true) w.
Proof.
  induction s as [|c s IH]; simpl; [by exists []|]. destruct IH as (w & Hs & Hw).
  destruct (rtrim s) as [|d r] eqn:Hr.
  - simpl in Hs. subst w. destruct (isspace c) eqn:Hc.
    + exists (c :: s). split; [done|]. by constructor.
    + exists s. done.
  - exists w. split; [|done]. rewrite Hs at 1. done.
Qed.

Lemma rtrim_last s : match last (rtrim s) with None => True | Some c => isspace c = false end.
Proof.
  induction s as [|c s IH]; simpl; [done|]. destruct (rtrim s) as [|d r] eqn:Hr.
  - destruct (isspace c) eqn:Hc; simpl; done.
  - rewrite last_cons_cons. exact IH.
Qed.

Lemma skip_space_split s : ∃ w, s = w ++ skip_space s ∧ Forall (λ c, isspace c = true) w.
Proof.
  induction s as [|c s IH]; simpl; [by exists []|]. destruct (isspace c) eqn:Hc; [|by exists []].
  destruct IH as (w & Hs & Hw). exists (c :: w). simpl. rewrite <-Hs. split; [done|]. by constructor.
Qed.

(** [trim] removes exactly the white space around a string: what it cuts is
    white space, and what it leaves neither begins nor ends with any. *)
Theorem trim_spec s :
  (∃ w1 w2, s = w1 ++ trim s ++ w2 ∧ Forall (λ c, isspace c = true) (w1 ++ w2)) ∧
  (∀ c, head (trim s) = Some c → isspace c = false) ∧
  (∀ c, last (trim s) = Some c → isspace c = false).
Proof.
  unfold trim. split_and!.
  - destruct (skip_space_split s) as (w1 & Hs & Hw1).
    destruct (rtrim_split (skip_space s)) as (w2 & Hs2 & Hw2). exists w1, w2.
    rewrite <-Hs2. split; [done|]. by apply Forall_app.
  - intros c. pose proof (skip_space_head s) as Hh. destruct (skip_space s) as [|d r]; [done|].
    simpl. destruct (rtrim r); [rewrite Hh|]; simpl; congruence.
  - intros c Hc. pose proof (rtrim_last (skip_space s)) as H. by rewrite Hc in H.
Qed.

(** ** Every configuration the file can produce is in range *)

Record config_ok (g : kvs_config) : Prop := {
  co_bind   : (length (bind_ip g) ≤ 15)%nat;
  co_port   : 0 ≤ port0 g ≤ 65535;
  co_fsync  : appendfsync g = 0 ∨ appendfsync g = 2;
  co_host   : (length (master_host g) ≤ 63)%nat;
  co_master : slave_mode g = true → 0 < master_port g ≤ 65535
}.

Lemma valid_port_range port : valid_port port = true → 0 < port ≤ 65535.
Proof. unfold valid_port. lia. Qed.

Lemma apply_setting_ok key value g : config_ok g → config_ok (apply_setting key value g).
Proof.
  intros [Hb Hp Hf Hh Hm]. unfold apply_setting.
  repeat case_decide; try (split; simpl; auto; fail).
  - split; simpl; auto. unfold snprintf_s. rewrite length_take. lia.
  - split; simpl; auto. destruct (valid_port _) eqn:Hv; [|done]. apply valid_port_range in Hv. lia.
  - destruct (sscanf_host_port 63 value) as [[host port]|] eqn:Hs; [|by split].
    destruct (valid_port port) eqn:Hv; [|by split]. split; simpl; auto.
    + unfold snprintf_s. rewrite length_take. lia.
    + intros _. by apply valid_port_range.
Qed.

Lemma config_line_ok line g : config_ok g → config_ok (config_line line g).
Proof.
  intros Hg. unfold config_line. destruct (trim (cstr line)) as [|c l]; [done|].
  case_decide; [done|]. destruct (strtok_space _) as [[key|] rest]; [|done].
  destruct (strtok_rest rest); simpl; [|done]. by apply apply_setting_ok.
Qed.

Lemma load_lines_ok fuel fp g : config_ok g → config_ok (load_lines fuel fp g).
Proof.
  revert fp g. induction fuel as [|fuel IH]; intros [|c fp] g Hg; [done..|].
  cbn [load_lines]. destruct (fgets 255 (c :: fp)) as [line rest].
  by apply IH, config_line_ok.
Qed.

(** ** The lines of a file *)

(** What one fgets takes from a file: up to its first newline, or 255 bytes, or all
    that is left. *)
Definition is_line (line rest : bytes) : Prop :=
  (0 < length line ≤ 255)%nat ∧
  ((∃ l, line = l ++ [LF] ∧ LF ∉ l) ∨ (LF ∉ line ∧ (length line = 255%nat ∨ rest = []))).

Fixpoint lines_of (fp : bytes) (lines : list bytes) : Prop :=
  match lines with
  | [] => fp = []
  | line :: lines' => ∃ rest, fp = line ++ rest ∧ is_line line rest ∧ lines_of rest lines'
  end.

Lemma fgets_line n fp :
  let '(l, r) := fgets n fp in
  fp = l ++ r ∧ (length l ≤ n)%nat ∧ ((∃ l', l = l' ++ [LF] ∧ LF ∉ l') ∨ (LF ∉ l ∧ (length l = n ∨ r = []))).
Proof.
  revert fp. induction n as [|n IH]; intros [|c fp]; simpl; try (split_and!; [done|lia|right; split; [apply not_elem_of_nil|by auto]]).
  case_decide as Hc; [subst; split_and!; [done|simpl; lia|left; exists []; split; [done|apply not_elem_of_nil]]|].
  specialize (IH fp). destruct (fgets n fp) as [l r]. destruct IH as (-> & Hl & Hx). split_and!; [done|simpl; lia|].
  destruct Hx as [(l' & -> & Hn)|[Hn Hx]]; [left; exists (c :: l')|right]; split; try done; try (by rewrite not_elem_of_cons).
  simpl. destruct Hx; [left; lia|by right].
Qed.

(** The loop goes through all lines, in order. *)
Lemma load_lines_all fuel fp g :
  (length fp ≤ fuel)%nat →
  ∃ lines, lines_of fp lines ∧ load_lines fuel fp g = foldl (λ g line, config_line line g) g lines.
Proof.
  revert fp g. induction fuel as [|fuel IH]; intros fp g Hl; destruct fp as [|c fp]; simpl in Hl; [by exists []|lia|by exists []|].
  cbn [load_lines]. pose proof (fgets_line 255 (c :: fp)) as Hf. pose proof (fgets_progress 254 c fp) as Hp.
  destruct (fgets 255 (c :: fp)) as [line rest]. destruct Hf as (Hsp & Hlen & Hx). simpl in Hp.
  destruct (IH rest (config_line line g)) as (lines & Hls & ->); [lia|]. exists (line :: lines). split; [|done].
  exists rest. split; [done|]. split; [|done]. split; [|done]. apply (f_equal length) in Hsp. rewrite length_app in Hsp. simpl in Hsp. lia.
Qed.

(** More fuel than bytes changes nothing. *)
Lemma load_lines_enough fuel fuel' fp g :
  (length fp ≤ fuel)%nat → (fuel ≤ fuel')%nat → load_lines fuel' fp g = load_lines fuel fp g.
Proof.
  revert fuel' fp g. induction fuel as [|fuel IH]; intros fuel' fp g Hl Hf.
  { destruct fp; [by destruct fuel'|simpl in Hl; lia]. }
  destruct fuel' as [|fuel']; [lia|]. destruct fp as [|c fp]; [done|].
  cbn [load_lines]. pose proof (fgets_progress 254 c fp) as Hp.
  destruct (fgets 255 (c :: fp)) as [line rest]. simpl in Hl, Hp.
  apply IH; lia.
Qed.

(** ** Settings written out *)

Definition SPACE : byte := Byte.x20.

(** One line of a file. *)
Definition setting (key value : bytes) : bytes := key ++ [SPACE] ++ value ++ [LF].

(** A configuration as a file. *)
Definition render (g : kvs_config) : bytes :=
  setting (lit "bind") (bind_ip g) ++
  setting (lit "port") (dec (port0 g)) ++
  setting (lit "appendonly") (if appendonly g then lit "yes" else lit "no") ++
  setting (lit "appendfsync") (if decide (appendfsync g = 0) then lit "no" else lit "always") ++
  (if slave_mode g then setting (lit "slaveof") (master_host g ++ [SPACE] ++ dec (master_port g)) else []).

(** Characters that are part of a word, and texts without white space at their ends. *)
Definition word_char (c : byte) : Prop := isspace c = false ∧ c ≠ NUL.
Definition word (w : bytes) : Prop := w ≠ [] ∧ Forall word_char w.

Record value_text (v : bytes) : Prop := {
  vt_head : ∃ c v', v = c :: v' ∧ isspace c = false;
  vt_last : ∃ c v', v = v' ++ [c] ∧ isspace c = false;
  vt_chars : Forall (λ c, c ≠ NUL ∧ c ≠ LF) v
}.

Lemma word_char_text c : word_char c → c ≠ NUL ∧ c ≠ LF.
Proof. intros [Hs Hn]. split; [done|]. by intros ->. Qed.

Lemma word_text w : word w → value_text w.
Proof.
  intros [Hne Hw]. split; [| |by eapply Forall_impl; [exact Hw|apply word_char_text]].
  - destruct w as [|c w]; [done|]. apply Forall_cons in Hw as [[Hc _] _]. by exists c, w.
  - destruct (exists_last Hne) as (w' & c & ->). apply Forall_app in Hw as [_ Hc]. apply Forall_singleton in Hc as [Hc _]. by exists c, w'.
Qed.

Lemma dec_word n : 0 ≤ n → word (dec n).
Proof.
  intros Hn. split; [apply dec_nonempty|]. eapply Forall_impl; [by apply dec_digits|]. intros c Hc.
  split; [by apply digit_not_space|]. by intros ->.
Qed.

Lemma texts_text w v : value_text w → value_text v → value_text (w ++ [SPACE] ++ v).
Proof.
  intros [(c & w' & -> & Hc) _ Hw3] [_ (d & v' & -> & Hd) Hv3].
  split; [by exists c, (w' ++ [SPACE] ++ v' ++ [d])| |].
  - exists d, ((c :: w') ++ [SPACE] ++ v'). by rewrite <-!app_assoc.
  - rewrite !Forall_app. split_and!; [done|by repeat constructor|by apply Forall_app in Hv3 as [? _]|by apply Forall_app in Hv3 as [_ ?]].
Qed.

Lemma skip_space_text v rest : value_text v → skip_space (v ++ rest) = v ++ rest.
Proof. intros [(c & v' & -> & Hc) _ _]. simpl. by rewrite Hc. Qed.

Lemma rtrim_snoc v c w : isspace c = false → Forall (λ c, isspace c = true) w → rtrim (v ++ [c] ++ w) = v ++ [c].
Proof.
  intros Hc Hw. induction v as [|d v IH]; simpl.
  - by rewrite (proj2 (rtrim_nil w) Hw), Hc.
  - simpl in IH. rewrite IH. by destruct v.
Qed.

Lemma trim_text v w : value_text v → Forall (λ c, isspace c = true) w → trim (v ++ w) = v.
Proof.
  intros Hv Hw. unfold trim. rewrite skip_space_text by done. destruct Hv as [_ (c & v' & -> & Hc) _].
  rewrite <-app_assoc. by apply rtrim_snoc.
Qed.

Lemma split_token_word w rest : word w → split_token (w ++ [SPACE] ++ rest) = (w, rest).
Proof.
  intros [_ Hw]. induction Hw as [|c w [Hc _] Hw IH]; [done|]. simpl in *. rewrite IH.
  assert (is_sep c = false) as -> by (unfold isspace, is_sep in *; lia). done.
Qed.

(** A line of a key and a value is that setting. *)
Lemma config_line_setting key value g :
  word key → head key ≠ Some Byte.x23 → value_text value → config_line (setting key value) g = apply_setting key value g.
Proof.
  intros Hk H23 Hv. unfold config_line, setting.
  pose proof (texts_text key value (word_text key Hk) Hv) as Hl.
  rewrite cstr_id.
  2: { pose proof (vt_chars _ Hl) as Hc. rewrite Forall_forall in Hc. intros Hn. rewrite !elem_of_app in Hn.
       destruct Hn as [Hn|[Hn|[Hn|Hn%list_elem_of_singleton]]]; [| | |done]; destruct (Hc NUL) as [Hx _]; try done; rewrite !elem_of_app; by auto. }
  replace (key ++ [SPACE] ++ value ++ [LF]) with ((key ++ [SPACE] ++ value) ++ [LF]) by (by rewrite <-!app_assoc).
  rewrite trim_text by (done || by repeat constructor).
  destruct key as [|c k]; [by destruct Hk|]. cbn [app]. rewrite decide_False by (intros ->; by apply H23).
  unfold strtok_space. destruct Hk as [_ Hw]. pose proof Hw as [[Hc _] _]%Forall_cons. cbn [skip_sep].
  assert (is_sep c = false) as -> by (unfold isspace, is_sep in *; lia).
  pose proof (split_token_word (c :: k) value ltac:(by split)) as Hs. cbn [app] in Hs. rewrite Hs.
  pose proof (vt_head _ Hv) as (d & v' & Hd & _). rewrite Hd. cbn [strtok_rest fmap option_fmap option_map]. rewrite <-Hd.
  pose proof (trim_text value [] Hv (Forall_nil_2 _)) as Ht. rewrite app_nil_r in Ht. by rewrite Ht.
Qed.

Lemma fgets_whole n l rest : LF ∉ l → (length l < n)%nat → fgets n (l ++ [LF] ++ rest) = (l ++ [LF], rest).
Proof.
  revert n. induction l as [|c l IH]; intros [|n] Hn Hl; simpl in Hl; try lia; [done|]. simpl.
  rewrite not_elem_of_cons in Hn. rewrite decide_False by naive_solver. pose proof (IH n ltac:(tauto) ltac:(lia)) as H1. simpl in H1. by rewrite H1.
Qed.

Lemma load_lines_setting fuel key value rest g :
  word key → head key ≠ Some Byte.x23 → value_text value → (length key + length value < 254)%nat →
  load_lines (S fuel) (setting key value ++ rest) g = load_lines fuel rest (apply_setting key value g).
Proof.
  intros Hk H23 Hv Hl. rewrite <-(config_line_setting key value g) by done.
  assert (LF ∉ key ++ [SPACE] ++ value) as Hn.
  { destruct (word_text key Hk) as [_ _ Hc1], Hv as [_ _ Hc2]. rewrite Forall_forall in Hc1, Hc2. rewrite !elem_of_app.
    intros [Hx|[Hx%list_elem_of_singleton|Hx]]; [by apply Hc1 in Hx as []|done|by apply Hc2 in Hx as []]. }
  pose proof (fgets_whole 255 (key ++ [SPACE] ++ value) rest Hn) as Hf. rewrite !length_app in Hf. simpl length in Hf.
  specialize (Hf ltac:(lia)). unfold setting in *.
  replace ((key ++ [SPACE] ++ value ++ [LF]) ++ rest) with ((key ++ [SPACE] ++ value) ++ [LF] ++ rest) by (by rewrite <-!app_assoc).
  destruct key as [|c k]; [by destruct Hk|]. cbn [load_lines app] in *. rewrite Hf. by rewrite <-!app_assoc.
Qed.

Lemma atoi_dec n : 0 ≤ n ≤ 65535 → atoi (dec n) = n.
Proof.
  intros Hn. unfold atoi. replace (dec n) with (dec_signed n) by (unfold dec_signed; by rewrite (proj2 (Z.ltb_ge _ _)) by lia).
  rewrite strtoll_dec_signed by (unfold LLONG_MIN, LLONG_MAX; lia). unfold s32. rewrite Z.mod_small; lia.
Qed.

Lemma dec_length n : 0 ≤ n ≤ 65535 → (length (dec n) ≤ 17)%nat.
Proof.
  intros Hn. assert (∀ fuel m, (length (dec_rev fuel m) ≤ fuel)%nat) as Hf.
  { intros fuel. induction fuel as [|fuel IH]; intros m; simpl; [lia|]. destruct (m / 10 =? 0); simpl; [lia|]. specialize (IH (m / 10)). lia. }
  unfold dec. rewrite length_rev. etransitivity; [apply Hf|].
  assert (Z.log2 n ≤ 16); [|lia]. pose proof (Z.log2_le_mono n 65535 ltac:(lia)) as Hm. change (Z.log2 65535) with 15 in Hm. lia.
Qed.

Lemma span_word_all n w rest :
  word w → (length w ≤ n)%nat → match rest with [] => True | c :: _ => isspace c = true end → span_word n (w ++ rest) = (w, rest).
Proof.
  intros [_ Hw] Hl Hr. revert n Hl. induction Hw as [|c w [Hc _] Hw IH]; intros n Hl; simpl in *.
  - destruct n, rest as [|d r]; try done. simpl. by rewrite Hr.
  - destruct n as [|n]; [lia|]. simpl. by rewrite Hc, IH by lia.
Qed.

Lemma sscanf_rendered host port :
  word host → (length host ≤ 63)%nat → 0 ≤ port ≤ 65535 → sscanf_host_port 63 (host ++ [SPACE] ++ dec port) = Some (host, port).
Proof.
  intros Hh Hl Hp. unfold sscanf_host_port. rewrite skip_space_text by (by apply word_text).
  rewrite span_word_all by done. destruct host as [|c h]; [by destruct Hh|].
  pose proof (dec_word port ltac:(lia)) as Hd. assert (skip_space ([SPACE] ++ dec port) = dec port) as ->.
  { simpl. pose proof (skip_space_text (dec port) [] (word_text _ Hd)) as Hs. by rewrite app_nil_r in Hs. }
  pose proof (dec_digits port ltac:(lia)) as Hdig. pose proof (span_digits_app (dec port) [] Hdig I) as Hsp. rewrite app_nil_r in Hsp.
  pose proof (atoi_dec port Hp) as Hat. unfold atoi in Hat. rewrite Hat.
  destruct (dec port) as [|d r] eqn:Hdec; [by destruct Hd|]. apply Forall_cons in Hdig as [Hc _]. destruct (digit_no_sign d Hc).
  cbn [split_sign]. rewrite !decide_False by done. cbn [snd]. rewrite Hsp. done.
Qed.

(** The first four keys. *)
Lemma set_bind v g : apply_setting (lit "bind") v g =
  Config (snprintf_s 15 v) (port0 g) (port_count g) (appendonly g) (appendfsync g) (slave_mode g) (master_host g) (master_port g).
Proof. reflexivity. Qed.
Lemma set_port v g : apply_setting (lit "port") v g =
  Config (bind_ip g) (if valid_port (atoi (trim v)) then atoi (trim v) else port0 g) 1 (appendonly g) (appendfsync g) (slave_mode g) (master_host g) (master_port g).
Proof. reflexivity. Qed.
Lemma set_appendonly v g : apply_setting (lit "appendonly") v g =
  Config (bind_ip g) (port0 g) (port_count g) (bool_decide (v = lit "yes" ∨ v = lit "true")) (appendfsync g) (slave_mode g) (master_host g) (master_port g).
Proof. reflexivity. Qed.
Lemma set_appendfsync v g : apply_setting (lit "appendfsync") v g =
  Config (bind_ip g) (port0 g) (port_count g) (appendonly g)
    (if decide (v = lit "no") then 0 else if decide (v = lit "always") then 2 else appendfsync g) (slave_mode g) (master_host g) (master_port g).
Proof. reflexivity. Qed.

(** ** Theorems *)

(** C31: a configuration file is read line by line to its end: it is cut into lines
    at every newline, and after 255 bytes without one, in one pass over all its
    bytes, and every line is applied to what the lines before it gave. Whatever the
    file holds the result is in range: the two host buffers are not exceeded, ports
    are 16-bit numbers, the sync mode is one of the two, and a slave has a master
    port. A file that cannot be opened changes nothing. *)
Theorem config_in_range file :
  let '(r, g) := load_config file g_config0 in
  config_ok g ∧ match file with
                | None => r = -1 ∧ g = g_config0
                | Some fp => r = 0 ∧ ∃ lines, lines_of fp lines ∧ g = foldl (λ g line, config_line line g) g_config0 lines
                end.
Proof.
  assert (config_ok g_config0) as H0 by (split; simpl; try lia; auto; done).
  destruct file as [fp|]; simpl; [|done]. split; [by apply load_lines_ok|]. split; [done|]. by apply load_lines_all.
Qed.

(** What the lines can say. *)
Record expressible (g : kvs_config) : Prop := {
  xp_ok     : config_ok g;
  xp_bind   : word (bind_ip g);
  xp_port   : 0 < port0 g;
  xp_count  : port_count g = 1;
  xp_master : if slave_mode g then word (master_host g) else master_host g = [] ∧ master_port g = 0
}.

(** C32: a configuration written to a file, one setting per line, is read back: for
    every configuration in range whose addresses are words, loading the file gives
    that configuration. *)
Theorem config_roundtrip g : expressible g → load_config (Some (render g)) g_config0 = (0, g).
Proof.
  intros [[Hb Hp Hf Hh Hm] Hwb Hp0 Hc Hx]. unfold load_config. f_equal.
  rewrite <-(load_lines_enough _ (5 + length (render g))) by lia. unfold render at 2.
  assert (∀ n, 0 ≤ n ≤ 65535 → value_text (dec n)) as Hdec by (intros; apply word_text, dec_word; lia).
  pose proof (dec_length (port0 g) ltac:(lia)) as Hl0.
  cbn [Nat.add].
  rewrite load_lines_setting; [|by split; [|repeat constructor]|done|by apply word_text|simpl; lia].
  rewrite load_lines_setting; [|by split; [|repeat constructor]|done|apply Hdec; lia|simpl; lia].
  rewrite load_lines_setting; [|by split; [|repeat constructor]|done|by apply word_text; destruct (appendonly g); (split; [|repeat constructor])|destruct (appendonly g); simpl; lia].
  rewrite load_lines_setting; [|by split; [|repeat constructor]|done|by apply word_text; case_decide; (split; [|repeat constructor])|case_decide; simpl; lia].
  assert (∀ G fuel, load_lines fuel [] G = G) as Hnil by (intros; by destruct fuel).
  pose proof (trim_text (dec (port0 g)) [] (Hdec (port0 g) ltac:(lia)) (Forall_nil_2 _)) as Ht. rewrite app_nil_r in Ht.
  assert (valid_port (port0 g) = true) as Hv by (unfold valid_port; lia).
  assert (apply_setting (lit "appendfsync") (if decide (appendfsync g = 0) then lit "no" else lit "always")
    (apply_setting (lit "appendonly") (if appendonly g then lit "yes" else lit "no")
      (apply_setting (lit "port") (dec (port0 g)) (apply_setting (lit "bind") (bind_ip g) g_config0)))
    = Config (bind_ip g) (port0 g) 1 (appendonly g) (appendfsync g) false [] 0) as ->.
  { rewrite set_bind, set_port, set_appendonly, set_appendfsync, Ht, atoi_dec, Hv by lia.
    cbn [bind_ip port0 port_count appendonly appendfsync slave_mode master_host master_port g_config0].
    unfold snprintf_s. rewrite take_ge by lia. f_equal; [by destruct (appendonly g)|].
    destruct Hf as [-> | ->]; done. }
  destruct g as [ip p0 pc ao fs sm mh mp]. cbn [bind_ip port0 port_count appendonly appendfsync slave_mode master_host master_port] in *. subst pc.
  destruct sm; [|rewrite Hnil; destruct Hx as [-> ->]; done].
  specialize (Hm eq_refl). pose proof (dec_length mp ltac:(lia)) as Hl1.
  rewrite <-(app_nil_r (setting (lit "slaveof") _)).
  rewrite load_lines_setting; [|by split; [|repeat constructor]|done|by apply texts_text; [apply word_text|apply Hdec; lia]|rewrite !length_app; simpl; lia].
  rewrite Hnil. unfold apply_setting. do 4 rewrite decide_False by done. rewrite decide_True by done.
  rewrite sscanf_rendered by (done || lia). assert (valid_port mp = true) as -> by (unfold valid_port; lia).
  cbn. unfold snprintf_s. by rewrite take_ge by lia.
Qed.

Definition a_slave : kvs_config := Config (lit "0.0.0.0") 6379 1 true 2 true (lit "192.168.1.5") 2000.

Lemma config_roundtrip_witness : expressible a_slave ∧ load_config (Some (render a_slave)) g_config0 = (0, a_slave).
Proof.
  assert (expressible a_slave) as Hx.
  { split; [split; simpl; try lia; by auto|by split; [|repeat constructor]|done|done|by split; [|repeat constructor]]. }
  split; [exact Hx|]. exact (config_roundtrip a_slave Hx).
Defined.
