(* ===== verification/Float32.v ===== *)
(** * Floating-point numbers

    The types float and double as IEEE 754 binary32 and binary64 with rounding to
    nearest even, in the standard library's executable specification, and the C
    library functions that read and print them. *)

From Stdlib Require Import Floats.SpecFloat.
From S2P Require Import Prelude Cstdlib.

(** ** Arithmetic *)

Abbreviation float := spec_float.

Definition fadd : float → float → float := SFadd 24 128.
Definition fmul : float → float → float := SFmul 24 128.
Definition fdiv : float → float → float := SFdiv 24 128.
Definition sqrtf : float → float := SFsqrt 24 128.

(** x < y and x <= y; false when one of them is a NaN *)
Definition flt (x y : float) : bool := SFltb x y.
Definition fle (x y : float) : bool := SFleb x y.

Definition isfinite (x : float) : bool :=
  match x with S754_zero _ | S754_finite _ _ _ => true | _ => false end.

Definition f_zero : float := S754_zero false.                (* 0.0f *)
Definition f_m2 : float := S754_finite true 8388608 (-22).   (* -2.0f *)
Definition FLT_MAX : float := SFmax_float 24 128.

(** The conversion of a double to a float. *)
Definition to_float (x : spec_float) : float :=
  match x with S754_finite s m e => binary_round 24 128 s m e | _ => x end.

(** ** Reading numbers *)

(** The quotient [n] / [d], rounded. *)
Definition ratio (prec emax : Z) (neg : bool) (n d : positive) : spec_float :=
  let '(m, e, l) := SFdiv_core_binary prec emax (Zpos n) 0 (Zpos d) 0 in binary_round_aux prec emax neg m e l.

(** |x| * d = n *)
Definition exactly (x : spec_float) (n d : positive) : bool :=
  match x with
  | S754_finite _ m e => if e <? 0 then Zpos m * Zpos d =? Zpos n * 2 ^ (- e) else Zpos m * 2 ^ e * Zpos d =? Zpos n
  | _ => false
  end.

(** Below the normal numbers, after rounding to the precision. *)
Definition tiny (prec emax : Z) (n d : positive) : bool :=
  match ratio prec (4 * emax) false n d with S754_finite _ m e => Zdigits2 (Zpos m) + e <=? 2 - emax | _ => true end.

(** A number [n] / [d] and whether errno becomes ERANGE: on overflow, and when the
    result is tiny and inexact. *)
Definition rounded (prec emax : Z) (neg : bool) (n d : positive) : spec_float * bool :=
  let x := ratio prec emax neg n d in
  (x, match x with
      | S754_infinity _ => true
      | _ => tiny prec emax n d && negb (exactly x n d)
      end).

Definition hex_value (c : byte) : option Z :=
  if is_digit c then Some (uchar c - 48)
  else if (97 <=? uchar c) && (uchar c <=? 102) then Some (uchar c - 87)
  else if (65 <=? uchar c) && (uchar c <=? 70) then Some (uchar c - 55)
  else None.

Definition dec_value (c : byte) : option Z := if is_digit c then Some (uchar c - 48) else None.

(** Digits of a base with their value and number. *)
Fixpoint span_base (value : byte → option Z) (base acc : Z) (n : nat) (s : bytes) : Z * nat * bytes :=
  match s with
  | c :: s' => match value c with Some v => span_base value base (acc * base + v) (S n) s' | None => (acc, n, s) end
  | [] => (acc, n, [])
  end.

Definition lower (c : byte) : byte := if (65 <=? uchar c) && (uchar c <=? 90) then to_byte (uchar c + 32) else c.

Definition DOT : byte := Byte.x2e.

(** Digits with an optional point: the value, the digits after the point, all
    digits, the rest. *)
Definition span_mantissa (value : byte → option Z) (base : Z) (s : bytes) : Z * nat * nat * bytes :=
  let '(v, n, r) := span_base value base 0 0 s in
  match r with
  | c :: r' =>
      if decide (c = DOT) then
        let '(v2, n2, r2) := span_base value base v 0 r' in
        if (n + n2 =? 0)%nat then (v, 0%nat, n, r) else (v2, n2, (n + n2)%nat, r2)
      else (v, 0%nat, n, r)
  | [] => (v, 0%nat, n, r)
  end.

(** An exponent after its mark, when there are digits. *)
Definition span_exponent (mark : byte) (s : bytes) : Z * bytes :=
  match s with
  | c :: s' =>
      if decide (lower c = mark) then
        let '(neg, s1) := split_sign s' in
        let '(v, n, r) := span_base dec_value 10 0 0 s1 in
        if (n =? 0)%nat then (0, s) else (if neg : bool then - v else v, r)
      else (0, s)
  | [] => (0, [])
  end.

(** [m] * [base] ^ [e] *)
Definition scaled (prec emax : Z) (neg : bool) (m base e : Z) : spec_float * bool :=
  match m with
  | Zpos p =>
      if e <? 0 then rounded prec emax neg p (Z.to_pos (base ^ (- e)))
      else rounded prec emax neg (Z.to_pos (m * base ^ e)) 1
  | _ => (S754_zero neg, false)
  end.

(** Exponents that no number of digits can bring back into the range of the type
    give overflow or underflow. *)
Definition far : Z := 100000.

Definition scaled10 (prec emax : Z) (neg : bool) (m : Z) (digits : nat) (e : Z) : spec_float * bool :=
  if m =? 0 then (S754_zero neg, false)
  else if far <? e then (S754_infinity neg, true)
  else if e + Z.of_nat digits <? - far then (S754_zero neg, true)
  else scaled prec emax neg m 10 e.

Definition scaled2 (prec emax : Z) (neg : bool) (m : Z) (digits : nat) (e : Z) : spec_float * bool :=
  if m =? 0 then (S754_zero neg, false)
  else if far <? e then (S754_infinity neg, true)
  else if e + 4 * Z.of_nat digits <? - far then (S754_zero neg, true)
  else scaled prec emax neg m 2 e.

Definition prefix_of_name (name s : bytes) : bool := bool_decide (lower <$> take (length name) s = name).

(** What follows "nan": perhaps a tag in parentheses. *)
Definition after_nan (s : bytes) : bytes :=
  match s with
  | c :: s' =>
      let alnum c := is_digit c || ((97 <=? uchar (lower c)) && (uchar (lower c) <=? 122)) || (uchar c =? 95) in
      let fix tag (r : bytes) : option bytes :=
        match r with
        | [] => None
        | d :: r' => if alnum d then tag r' else if uchar d =? 41 then Some r' else None
        end in
      if uchar c =? 40 then match tag s' with Some r => r | None => s end else s
  | [] => []
  end.

(** strtof and strtod: the number, whether errno was set, and where it ends (the
    whole string when there is no number). *)
Definition strto (prec emax : Z) (str : bytes) : spec_float * bool * bytes :=
  let '(neg, s) := split_sign (skip_space str) in
  if prefix_of_name (lit "infinity") s then (S754_infinity neg, false, drop 8 s) else
  if prefix_of_name (lit "inf") s then (S754_infinity neg, false, drop 3 s) else
  if prefix_of_name (lit "nan") s then (S754_nan, false, after_nan (drop 3 s)) else
  let decimal :=
    let '(m, frac, n, r) := span_mantissa dec_value 10 s in
    if (n =? 0)%nat then (S754_zero false, false, str) else
    let '(e, r') := span_exponent Byte.x65 r in
    (scaled10 prec emax neg m n (e - Z.of_nat frac), r') in
  if prefix_of_name (lit "0x") s then
    let '(m, frac, n, r) := span_mantissa hex_value 16 (drop 2 s) in
    if (n =? 0)%nat then decimal else
    let '(e, r') := span_exponent Byte.x70 r in
    (scaled2 prec emax neg m n (e - 4 * Z.of_nat frac), r')
  else decimal.

Definition strtof (s : bytes) : float * bool * bytes := strto 24 128 s.

(** (float)atof(s) *)
Definition atof32 (s : bytes) : float := to_float (strto 53 1024 s).1.1.

(** ** Printing *)

(** [n] / [d], to the nearest integer, ties to even. *)
Definition round_half_even (n d : Z) : Z :=
  let q := n / d in
  match 2 * (n mod d) ?= d with
  | Lt => q
  | Gt => q + 1
  | Eq => if Z.even q then q else q + 1
  end.

(** Six digits. *)
Definition six (n : Z) : bytes :=
  digit (n / 100000 mod 10) :: digit (n / 10000 mod 10) :: digit (n / 1000 mod 10) ::
  digit (n / 100 mod 10) :: digit (n / 10 mod 10) :: [digit (n mod 10)].

Definition millionths (m : positive) (e : Z) : Z :=
  if e <? 0 then round_half_even (Zpos m * 1000000) (2 ^ (- e)) else Zpos m * 2 ^ e * 1000000.

Definition signed (neg : bool) (s : bytes) : bytes := if neg then MINUS :: s else s.

(** "%.6f" *)
Definition print6f (x : float) : bytes :=
  match x with
  | S754_nan => lit "nan"
  | S754_infinity neg => signed neg (lit "inf")
  | S754_zero neg => signed neg (lit "0.000000")
  | S754_finite neg m e => let n := millionths m e in signed neg (dec (n / 1000000) ++ DOT :: six (n mod 1000000))
  end.

(** ** Examples *)

Example strtof_tenth : strtof (lit " 0.1,") = (S754_finite false 13421773 (-27), false, lit ",").
Proof. vm_compute. reflexivity. Qed.

Example strtof_hex : strtof (lit "-0x1.8p1") = (S754_finite true 12582912 (-22), false, []).
Proof. vm_compute. reflexivity. Qed.

(** The smallest subnormal number is exact, half of it is not. *)
Example strtof_small :
  strtof (lit "0x1p-149") = (S754_finite false 1 (-149), false, []) ∧
  strtof (lit "1e-45") = (S754_finite false 1 (-149), true, []) ∧
  strtof (lit "1e-60") = (S754_zero false, true, []) ∧
  strtof (lit "1e39") = (S754_infinity false, true, []).
Proof. split_and!; vm_compute; reflexivity. Qed.

Example print_tenth : print6f (strtof (lit "-0.1")).1.1 = lit "-0.100000" ∧ print6f FLT_MAX = lit "340282346638528859811704183484516925440.000000".
Proof. split; vm_compute; reflexivity. Qed.

(** ** The order *)

Definition is_num (x : float) : bool := match x with S754_nan => false | _ => true end.

(** Where a number stands among the others. *)
Definition rank (x : float) : Z * Z * Z :=
  match x with
  | S754_zero _ | S754_nan => (0, 0, 0)
  | S754_infinity s => (if s then -2 else 2, 0, 0)
  | S754_finite s m e => if s then (-1, - e, - Zpos m) else (1, e, Zpos m)
  end.

Definition lex (a b : Z * Z * Z) : Prop :=
  a.1.1 < b.1.1 ∨ a.1.1 = b.1.1 ∧ (a.1.2 < b.1.2 ∨ a.1.2 = b.1.2 ∧ a.2 < b.2).

Lemma compare_rank x y :
  match SFcompare x y with
  | Some Lt => is_num x = true ∧ is_num y = true ∧ lex (rank x) (rank y)
  | Some Eq => is_num x = true ∧ is_num y = true ∧ rank x = rank y
  | Some Gt => is_num x = true ∧ is_num y = true ∧ lex (rank y) (rank x)
  | None => is_num x = false ∨ is_num y = false
  end.
Proof.
  destruct x as [s1|s1| |s1 m1 e1], y as [s2|s2| |s2 m2 e2]; cbn [SFcompare is_num rank];
    try (by auto); try destruct s1; try destruct s2; try (unfold lex; cbn; by auto with lia); unfold lex; cbn;
    try (split_and!; [done|done|lia]);
    destruct (Z.compare_spec e1 e2); cbn; try (split_and!; [done|done|lia]);
    change (Pos.compare_cont Eq m1 m2) with (Pos.compare m1 m2); subst;
    destruct (Pos.compare_spec m1 m2); cbn; subst; split_and!; try done; lia.
Qed.

Lemma flt_rank x y : flt x y = true ↔ is_num x = true ∧ is_num y = true ∧ lex (rank x) (rank y).
Proof.
  unfold flt, SFltb. pose proof (compare_rank x y) as H. unfold lex in *.
  destruct (SFcompare x y) as [[]|]; split; try done; intros (H1 & H2 & H3); exfalso;
    [destruct H as (_ & _ & Hr); rewrite Hr in H3; lia|lia|destruct H; congruence].
Qed.

Lemma fle_rank x y : fle x y = true ↔ is_num x = true ∧ is_num y = true ∧ ¬ lex (rank y) (rank x).
Proof.
  unfold fle, SFleb. pose proof (compare_rank x y) as H. unfold lex in *.
  destruct (SFcompare x y) as [[]|]; split; try done.
  - intros _. destruct H as (H1 & H2 & Hr). rewrite Hr. split_and!; [done|done|lia].
  - intros _. split_and!; [apply H|apply H|lia].
  - intros (H1 & H2 & H3). lia.
  - intros (H1 & H2 & H3). destruct H; congruence.
Qed.

(** x < y is a strict order; a NaN is incomparable to everything. *)
Lemma flt_irrefl x : flt x x = false.
Proof. apply not_true_iff_false. rewrite flt_rank. unfold lex. lia. Qed.

Lemma flt_trans x y z : flt x y = true → flt y z = true → flt x z = true.
Proof. rewrite !flt_rank. unfold lex. intros (? & ? & ?) (? & ? & ?). split_and!; [done|done|lia]. Qed.

Lemma flt_num x y : flt x y = true → is_num x = true ∧ is_num y = true.
Proof. rewrite flt_rank. tauto. Qed.

Lemma fle_num x y : fle x y = true → is_num x = true ∧ is_num y = true.
Proof. rewrite fle_rank. tauto. Qed.

(** Between numbers, x <= y is the negation of y < x. *)
Lemma fle_not_flt x y : is_num x = true → is_num y = true → fle x y = negb (flt y x).
Proof.
  intros Hx Hy. apply eq_true_iff_eq. rewrite negb_true_iff, <-not_true_iff_false, fle_rank, flt_rank. tauto.
Qed.

Lemma fle_trans x y z : fle x y = true → fle y z = true → fle x z = true.
Proof. rewrite !fle_rank. unfold lex. intros (? & ? & ?) (? & ? & ?). split_and!; [done|done|lia]. Qed.

Lemma flt_fle_trans x y z : flt x y = true → fle y z = true → flt x z = true.
Proof. rewrite !flt_rank, fle_rank. unfold lex. intros (? & ? & ?) (? & ? & ?). split_and!; [done|done|lia]. Qed.
