(* ===== verification/KvsMempool.v ===== *)
(** * The memory pool (kvs_mempool.c)

    Small requests are carved out of fixed blocks, large ones go to malloc. An
    address is a block of malloc and an offset in it. *)

From S2P Require Import Prelude.

(** ** Data *)

(** sizeof (mp_node_t) and sizeof (size_t) *)
Definition SIZEOF_NODE : Z := 24.
Definition SIZEOF_SIZE_T : Z := 8.

Abbreviation block := nat.

(** A pointer: a malloc block and an offset. *)
Abbreviation ptr := (block * Z)%type.

(** mp_node_t: [last] and [end] as offsets in the node's own block. *)
Record mp_node := MNode { mn_block : block; mn_last : Z; mn_end : Z }.

(** mp_large_t: the user address. *)
Record mp_large := MLarge { ml_alloc : ptr }.

(** mp_pool_t, and the blocks malloc has out: their sizes, and the next name. *)
Record mp_pool := Pool {
  mp_max    : Z;
  mp_head   : list mp_node;
  mp_large_ : list mp_large;
  mp_blocks : gmap block Z;
  mp_fresh  : block
}.

(** malloc (n) *)
Definition malloc (n : Z) : M mp_pool (option block) :=
  ok ← kvs_malloc;
  if negb ok then mret None else
  b ← gets mp_fresh;
  modify (λ p, Pool (mp_max p) (mp_head p) (mp_large_ p) (<[b := n]> (mp_blocks p)) (S b));;
  mret (Some b).

(** free of a block; freeing twice is a fault. *)
Definition free (b : block) : M mp_pool unit :=
  bs ← gets mp_blocks;
  match bs !! b with
  | None => fail UseAfterFree
  | Some _ => modify (λ p, Pool (mp_max p) (mp_head p) (mp_large_ p) (delete b (mp_blocks p)) (mp_fresh p))
  end.

Definition set_head (l : list mp_node) : M mp_pool unit :=
  modify (λ p, Pool (mp_max p) l (mp_large_ p) (mp_blocks p) (mp_fresh p)).
Definition set_large (l : list mp_large) : M mp_pool unit :=
  modify (λ p, Pool (mp_max p) (mp_head p) l (mp_blocks p) (mp_fresh p)).

(** ** Operations *)

Definition kvs_mempool_create (block_size : Z) : M mp_pool Z :=
  if block_size <=? SIZEOF_NODE then mret (-1) else
  node ← malloc block_size;
  match node with
  | None => mret (-1)
  | Some b =>
      modify (λ p, Pool (block_size - SIZEOF_NODE) [MNode b SIZEOF_NODE block_size] []
                        (mp_blocks p) (mp_fresh p));;
      mret 0
  end.

Fixpoint destroy_large (l : list mp_large) : M mp_pool unit :=
  match l with
  | [] => mret tt
  | large :: l' => free (ml_alloc large).1;; destroy_large l'
  end.

Fixpoint destroy_nodes (l : list mp_node) : M mp_pool unit :=
  match l with
  | [] => mret tt
  | node :: l' => free (mn_block node);; destroy_nodes l'
  end.

(** The list header of a large block is a malloc block of its own, which nothing
    but the list refers to; its allocation can fail but it is not tracked. *)
Definition kvs_mempool_destroy : M mp_pool unit :=
  large ← gets mp_large_;
  destroy_large large;;
  set_large [];;
  nodes ← gets mp_head;
  destroy_nodes nodes;;
  set_head [].

(** The first node with enough room, advanced past the allocation. *)
Fixpoint carve (size : Z) (l : list mp_node) : option (ptr * list mp_node) :=
  match l with
  | [] => None
  | node :: l' =>
      if mn_end node - mn_last node >=? size then
        Some ((mn_block node, mn_last node), MNode (mn_block node) (mn_last node + size) (mn_end node) :: l')
      else
        match carve size l' with
        | None => None
        | Some (p, l'') => Some (p, node :: l'')
        end
  end.

(** [None] is the NULL result; the size is a size_t. *)
Definition kvs_mempool_alloc (size : Z) : M mp_pool (option ptr) :=
  if size =? 0 then mret None else
  max ← gets mp_max;
  if size <=? max then
    nodes ← gets mp_head;
    match carve size nodes with
    | Some (p, nodes') => set_head nodes';; mret (Some p)
    | None =>
        let node_size := max + SIZEOF_NODE in
        new_node ← malloc node_size;
        match new_node with
        | None => mret None
        | Some b =>
            set_head (nodes ++ [MNode b (SIZEOF_NODE + size) node_size]);;
            mret (Some (b, SIZEOF_NODE))
        end
    end
  else
    let alloc_size := u64 (size + SIZEOF_SIZE_T) in
    raw_ptr ← malloc alloc_size;
    match raw_ptr with
    | None => mret None
    | Some b =>
        (* the size is stored in the first eight bytes *)
        if alloc_size <? SIZEOF_SIZE_T then fail OutOfBounds else
        ok ← kvs_malloc;
        if negb ok then free b;; mret None else
        large ← gets mp_large_;
        set_large (MLarge (b, SIZEOF_SIZE_T) :: large);;
        mret (Some (b, SIZEOF_SIZE_T))
    end.

(** The list of large blocks without the one at [p]. *)
Fixpoint unlink_large (p : ptr) (l : list mp_large) : option (list mp_large) :=
  match l with
  | [] => None
  | large :: l' =>
      if decide (ml_alloc large = p) then Some l'
      else match unlink_large p l' with None => None | Some l'' => Some (large :: l'') end
  end.


(** ** Invariant

    [A] lists the allocations given out and not freed, as (block, offset, size). *)

Abbreviation region := (block * Z * Z)%type.

Definition disjoint_region (x y : region) : Prop :=
  x.1.1 = y.1.1 → x.1.2 + x.2 ≤ y.1.2 ∨ y.1.2 + y.2 ≤ x.1.2.

Fixpoint pairwise_disjoint (A : list region) : Prop :=
  match A with
  | [] => True
  | x :: A' => Forall (disjoint_region x) A' ∧ pairwise_disjoint A'
  end.

(** A region lies in a node's carved part, or is the one of a large block. *)
Definition owned (p : mp_pool) (x : region) : Prop :=
  (∃ n, n ∈ mp_head p ∧ mn_block n = x.1.1 ∧ SIZEOF_NODE ≤ x.1.2 ∧ x.1.2 + x.2 ≤ mn_last n) ∨
  (MLarge (x.1.1, SIZEOF_SIZE_T) ∈ mp_large_ p ∧ x.1.2 = SIZEOF_SIZE_T ∧
   mp_blocks p !! x.1.1 = Some (x.2 + SIZEOF_SIZE_T)).

Definition owners (p : mp_pool) : list block :=
  (mn_block <$> mp_head p) ++ ((λ l, (ml_alloc l).1) <$> mp_large_ p).

Record pool_ok (p : mp_pool) (A : list region) : Prop := {
  po_max    : 0 < mp_max p;
  po_nodes  : Forall (λ n, mp_blocks p !! mn_block n = Some (mn_end n) ∧
                SIZEOF_NODE ≤ mn_last n ≤ mn_end n) (mp_head p);
  po_large  : Forall (λ l, is_Some (mp_blocks p !! (ml_alloc l).1) ∧ (ml_alloc l).2 = SIZEOF_SIZE_T)
                (mp_large_ p);
  po_nodup  : NoDup (owners p);
  po_all    : ∀ b, is_Some (mp_blocks p !! b) → b ∈ owners p;
  po_fresh  : ∀ b, is_Some (mp_blocks p !! b) → (b < mp_fresh p)%nat;
  po_owned  : Forall (owned p) A;
  po_disj   : pairwise_disjoint A
}.

(** Every region is inside the block it was carved from. *)
Lemma owned_in_bounds p A x :
  pool_ok p A → x ∈ A →
  ∃ n, mp_blocks p !! x.1.1 = Some n ∧ 0 ≤ x.1.2 ∧ x.1.2 + x.2 ≤ n.
Proof.
  intros Hp Hx. pose proof (proj1 (Forall_forall _ _) (po_owned _ _ Hp) x Hx) as Ho.
  destruct Ho as [(n & Hn & <- & Hlo & Hhi)|(Hl & Hoff & Hb)].
  - destruct (proj1 (Forall_forall _ _) (po_nodes _ _ Hp) n Hn) as [Hb Hr].
    exists (mn_end n). unfold SIZEOF_NODE in *. split_and!; [done|lia|lia].
  - eexists. split; [exact Hb|]. unfold SIZEOF_SIZE_T in *. lia.
Qed.

(** ** Allocation *)

Lemma carve_spec size l p l' :
  carve size l = Some (p, l') →
  ∃ l1 n l2, l = l1 ++ n :: l2 ∧ l' = l1 ++ MNode (mn_block n) (mn_last n + size) (mn_end n) :: l2 ∧
    p = (mn_block n, mn_last n) ∧ size ≤ mn_end n - mn_last n.
Proof.
  revert l'. induction l as [|n l IH]; intros l'; simpl; [done|].
  destruct (_ >=? _) eqn:Hc.
  - intros [= <- <-]. exists [], n, l. split_and!; [done..|]. apply Z.geb_le in Hc. lia.
  - destruct (carve size l) as [[p' l'']|] eqn:Hr; [|done]. intros [= <- <-].
    destruct (IH _ eq_refl) as (l1 & n' & l2 & -> & -> & -> & ?).
    exists (n :: l1), n', l2. done.
Qed.

(** What changes when a node's free part is used keeps the rest of the pool. *)
Lemma disjoint_new p A n size :
  pool_ok p A → n ∈ mp_head p → 0 < size →
  Forall (disjoint_region (mn_block n, mn_last n, size)) A.
Proof.
  intros Hp Hn Hs. apply Forall_forall. intros x Hi.
  pose proof (proj1 (Forall_forall _ _) (po_owned _ _ Hp) x Hi) as Ho.
  intros Heq. simpl in *. right.
  pose proof (po_nodup _ _ Hp) as Hnd. unfold owners in Hnd. apply NoDup_app in Hnd as (Hnd & Hd & _).
  destruct Ho as [(n' & Hn' & Hb & Hlo & Hhi)|(Hl & Hoff & Hb)].
  - assert (n' = n) as ->; [|lia].
    apply list_elem_of_lookup in Hn as [a Ha]. apply list_elem_of_lookup in Hn' as [b Hb'].
    assert (a = b) as ->; [|congruence].
    eapply (NoDup_lookup _ _ _ (mn_block n) Hnd); rewrite list_lookup_fmap, ?Ha, ?Hb'; simpl; congruence.
  - exfalso. apply (Hd (mn_block n)); apply list_elem_of_fmap; [by exists n|].
    eexists. split; [|exact Hl]. simpl. congruence.
Qed.



Lemma fresh_block p A : pool_ok p A → mp_blocks p !! mp_fresh p = None ∧ mp_fresh p ∉ owners p.
Proof.
  intros Hp. assert (mp_blocks p !! mp_fresh p = None) as Hnone.
  { apply eq_None_not_Some. intros H%(po_fresh _ _ Hp). lia. }
  split; [done|]. unfold owners. rewrite elem_of_app. intros [Hin|Hin];
    apply list_elem_of_fmap in Hin as (x & Hx & Hin).
  - destruct (proj1 (Forall_forall _ _) (po_nodes _ _ Hp) x Hin) as [Hb _]. congruence.
  - destruct (proj1 (Forall_forall _ _) (po_large _ _ Hp) x Hin) as [[v Hb] _]. congruence.
Qed.

(** Regions given out before are not in a new block. *)
Lemma disjoint_fresh p A r :
  pool_ok p A → r.1.1 = mp_fresh p → Forall (disjoint_region r) A.
Proof.
  intros Hp Hr. apply Forall_forall. intros x Hi Heq. exfalso.
  destruct (owned_in_bounds p A x Hp Hi) as (n & Hn & _).
  destruct (fresh_block p A Hp) as [Hnone _]. congruence.
Qed.

Lemma lookup_fresh {p A} n b v :
  pool_ok p A → mp_blocks p !! b = Some v → <[mp_fresh p := n]> (mp_blocks p) !! b = Some v.
Proof.
  intros Hp Hb. destruct (fresh_block p A Hp) as [Hnone _].
  rewrite lookup_insert_ne; [done|congruence].
Qed.

(** The three ways an allocation succeeds. *)
Lemma pool_ok_carve p A l1 n l2 size :
  pool_ok p A → mp_head p = l1 ++ n :: l2 → 0 < size ≤ mn_end n - mn_last n →
  pool_ok (Pool (mp_max p) (l1 ++ MNode (mn_block n) (mn_last n + size) (mn_end n) :: l2)
             (mp_large_ p) (mp_blocks p) (mp_fresh p))
    ((mn_block n, mn_last n, size) :: A).
Proof.
  intros Hp Hh Hs. assert (n ∈ mp_head p) as Hn by (rewrite Hh; set_solver).
  pose proof (disjoint_new p A n size Hp Hn ltac:(lia)) as Hnew.
  destruct Hp as [Hm Hns Hl Hnd Hall Hf Ho Hd]. rewrite Hh in Hns.
  pose proof (proj1 (Forall_app _ _ _) Hns) as [Hns1 [[Hnb Hnr] Hns2]%Forall_cons].
  assert (owners (Pool (mp_max p) (l1 ++ MNode (mn_block n) (mn_last n + size) (mn_end n) :: l2)
    (mp_large_ p) (mp_blocks p) (mp_fresh p)) = owners p) as How.
  { unfold owners. simpl. by rewrite Hh, !fmap_app. }
  split; simpl; [done| |done|by rewrite How|by rewrite How|done| |by split].
  - apply Forall_app. split; [done|]. constructor; [simpl; split; [done|lia]|done].
  - constructor.
    + left. eexists. split; [apply elem_of_app; right; by left|]. simpl. split_and!; [done|lia|lia].
    + eapply Forall_impl; [exact Ho|]. intros x [(n' & Hn' & Hb & Hlo & Hhi)|Hlg]; [left|by right].
      rewrite Hh in Hn'. apply elem_of_app in Hn' as [Hn'|[->|Hn']%elem_of_cons].
      * exists n'. split; [|done]. apply elem_of_app. by left.
      * eexists. split; [apply elem_of_app; right; by left|]. simpl. split_and!; [done|done|lia].
      * exists n'. split; [|done]. apply elem_of_app. right. by right.
Qed.

Lemma pool_ok_new_node p A size :
  pool_ok p A → 0 < size ≤ mp_max p →
  pool_ok (Pool (mp_max p) (mp_head p ++ [MNode (mp_fresh p) (SIZEOF_NODE + size) (mp_max p + SIZEOF_NODE)])
             (mp_large_ p) (<[mp_fresh p := mp_max p + SIZEOF_NODE]> (mp_blocks p)) (S (mp_fresh p)))
    ((mp_fresh p, SIZEOF_NODE, size) :: A).
Proof.
  intros Hp Hs. destruct (fresh_block p A Hp) as [Hnone Hno].
  pose proof (disjoint_fresh p A (mp_fresh p, SIZEOF_NODE, size) Hp eq_refl) as Hnew.
  pose proof (λ n b v, lookup_fresh n b v Hp) as Hext.
  destruct Hp as [Hm Hns Hl Hnd Hall Hf Ho Hd].
  assert (owners (Pool (mp_max p) (mp_head p ++ [MNode (mp_fresh p) (SIZEOF_NODE + size) (mp_max p + SIZEOF_NODE)])
    (mp_large_ p) (<[mp_fresh p := mp_max p + SIZEOF_NODE]> (mp_blocks p)) (S (mp_fresh p)))
    ≡ₚ mp_fresh p :: owners p) as How.
  { unfold owners. simpl. rewrite fmap_app. simpl. solve_Permutation. }
  split; simpl; [done| | | | | | |by split].
  - apply Forall_app. split.
    + eapply Forall_impl; [exact Hns|]. intros x [Hx ?]. eauto.
    + constructor; [|constructor]. simpl. rewrite lookup_insert_eq. unfold SIZEOF_NODE. split; [done|lia].
  - eapply Forall_impl; [exact Hl|]. intros x [[v Hx] ?]. eauto.
  - rewrite How. by constructor.
  - intros b Hb. rewrite How. apply lookup_insert_is_Some in Hb as [<-|[_ Hb%Hall]]; by constructor.
  - intros b [<-|[_ Hb%Hf]]%lookup_insert_is_Some; lia.
  - constructor.
    + left. eexists. split; [apply elem_of_app; right; by left|]. simpl. split_and!; [done|done|lia].
    + eapply Forall_impl; [exact Ho|]. intros x [(n & Hn & ?)|(?&?&?)]; [left|right; eauto].
      exists n. split; [|done]. simpl. apply elem_of_app. by left.
Qed.

Lemma pool_ok_new_large p A size :
  pool_ok p A → 0 < size →
  pool_ok (Pool (mp_max p) (mp_head p) (MLarge (mp_fresh p, SIZEOF_SIZE_T) :: mp_large_ p)
             (<[mp_fresh p := size + SIZEOF_SIZE_T]> (mp_blocks p)) (S (mp_fresh p)))
    ((mp_fresh p, SIZEOF_SIZE_T, size) :: A).
Proof.
  intros Hp Hs. destruct (fresh_block p A Hp) as [Hnone Hno].
  pose proof (disjoint_fresh p A (mp_fresh p, SIZEOF_SIZE_T, size) Hp eq_refl) as Hnew.
  pose proof (λ n b v, lookup_fresh n b v Hp) as Hext.
  destruct Hp as [Hm Hns Hl Hnd Hall Hf Ho Hd].
  assert (owners (Pool (mp_max p) (mp_head p) (MLarge (mp_fresh p, SIZEOF_SIZE_T) :: mp_large_ p)
    (<[mp_fresh p := size + SIZEOF_SIZE_T]> (mp_blocks p)) (S (mp_fresh p)))
    ≡ₚ mp_fresh p :: owners p) as How.
  { unfold owners. simpl. solve_Permutation. }
  split; simpl; [done| | | | | | |by split].
  - eapply Forall_impl; [exact Hns|]. intros x [Hx ?]. eauto.
  - constructor; [simpl; rewrite lookup_insert_eq; eauto|].
    eapply Forall_impl; [exact Hl|]. intros x [[v Hx] ?]. eauto.
  - rewrite How. by constructor.
  - intros b Hb. rewrite How. apply lookup_insert_is_Some in Hb as [<-|[_ Hb%Hall]]; by constructor.
  - intros b [<-|[_ Hb%Hf]]%lookup_insert_is_Some; lia.
  - constructor.
    + right. simpl. rewrite lookup_insert_eq. split_and!; [by left|done|done].
    + eapply Forall_impl; [exact Ho|]. intros x [?|(?&?&?)]; [by left|right].
      split_and!; [by right|done|eauto].
Qed.

(** An allocation, when it succeeds, gives out a region of the requested size
    that is inside one block and apart from every region given out before. *)
Lemma mempool_alloc_spec E p A size t :
  pool_ok p A → 0 < size < 2 ^ 64 - SIZEOF_SIZE_T →
  wp (kvs_mempool_alloc size) (λ r p' _,
    match r with
    | None => ∃ t', malloc_ok E t' = false
    | Some a => pool_ok p' ((a.1, a.2, size) :: A)
    end) E p t.
Proof.
  intros Hp [Hs Hw]. unfold kvs_mempool_alloc, malloc, set_head, set_large, free.
  rewrite (proj2 (Z.eqb_neq _ _)) by lia. wp_steps.
  destruct (size <=? mp_max p) eqn:Hmax; to_prop; wp_steps.
  - destruct (carve size (mp_head p)) as [[a nodes']|] eqn:Hc; wp_steps.
    + destruct (carve_spec _ _ _ _ Hc) as (l1 & n & l2 & Hh & -> & -> & Hfit).
      by apply (pool_ok_carve p A).
    + destruct (malloc_ok E t) eqn:Hok; simpl; wp_steps; [|by eauto].
      by apply (pool_ok_new_node p A).
  - destruct (malloc_ok E t) eqn:Hok; simpl; wp_steps; [|by eauto].
    unfold u64 in *. rewrite (Z.mod_small (size + _)) by (unfold SIZEOF_SIZE_T in *; lia).
    rewrite (proj2 (Z.ltb_ge _ _)) by lia. wp_steps.
    destruct (malloc_ok E (S t)) eqn:Hok'; simpl; wp_steps.
    + by apply (pool_ok_new_large p A).
    + simpl. rewrite lookup_insert_eq. wp_steps. eauto.
Qed.

Lemma mempool_create_spec E p t block_size :
  mp_blocks p = ∅ →
  wp (kvs_mempool_create block_size) (λ r p' _,
    if r =? 0 then pool_ok p' [] ∧ mp_max p' = block_size - SIZEOF_NODE
    else r = -1 ∧ p' = p) E p t.
Proof.
  intros Hb. unfold kvs_mempool_create, malloc. destruct (block_size <=? SIZEOF_NODE) eqn:Hs; wp_steps; [done|].
  to_prop. destruct (malloc_ok E t); simpl; wp_steps; [|done]. simpl. split; [|done].
  unfold SIZEOF_NODE in *. split; simpl; [lia| | | | | | |done].
  - constructor; [|constructor]. simpl. rewrite lookup_insert_eq. unfold SIZEOF_NODE. split; [done|lia].
  - constructor.
  - apply NoDup_singleton.
  - intros b Hbb. rewrite Hb in Hbb. apply lookup_insert_is_Some in Hbb as [<-|[_ Hx]]; [by left|].
    by rewrite lookup_empty in Hx; destruct Hx.
  - intros b Hbb. rewrite Hb in Hbb. apply lookup_insert_is_Some in Hbb as [<-|[_ Hx]]; [lia|].
    by rewrite lookup_empty in Hx; destruct Hx.
  - constructor.
Qed.

(** ** Release *)


Lemma unlink_large_None a l : unlink_large a l = None → MLarge a ∉ l.
Proof.
  induction l as [|[b] l IH]; simpl; [set_solver|]. case_decide as Hd; [done|]. simpl in Hd.
  destruct (unlink_large a l); [done|]. intros _. rewrite not_elem_of_cons. split; [congruence|].
  by apply IH.
Qed.



(** The blocks that are left when all of [l] are freed. *)
Definition delete_all (l : list block) (m : gmap block Z) : gmap block Z :=
  foldl (λ m b, delete b m) m l.

Lemma delete_all_ne l m b : b ∉ l → delete_all l m !! b = m !! b.
Proof.
  revert m. induction l as [|c l IH]; intros m Hb; simpl; [done|].
  apply not_elem_of_cons in Hb as [Hne Hb]. change (delete_all l (delete c m) !! b = m !! b).
  rewrite IH by done.
  by apply lookup_delete_ne.
Qed.

Lemma delete_all_inv l m b : is_Some (delete_all l m !! b) → b ∉ l ∧ is_Some (m !! b).
Proof.
  revert m. induction l as [|c l IH]; intros m Hb; simpl in *; [set_solver|].
  destruct (IH _ Hb) as [Hl [Hne Hm]%lookup_delete_is_Some]. set_solver.
Qed.

Lemma wp_destroy_large l E p t Q :
  NoDup ((λ l, (ml_alloc l).1) <$> l) →
  (∀ b, b ∈ ((λ l, (ml_alloc l).1) <$> l) → is_Some (mp_blocks p !! b)) →
  Q tt (Pool (mp_max p) (mp_head p) (mp_large_ p)
         (delete_all ((λ l, (ml_alloc l).1) <$> l) (mp_blocks p)) (mp_fresh p)) t →
  wp (destroy_large l) Q E p t.
Proof.
  revert p. induction l as [|x l IH]; intros p Hnd Hin HQ; simpl; wp_steps.
  { by destruct p. }
  simpl in *. apply NoDup_cons in Hnd as [Hx Hnd].
  destruct (Hin (ml_alloc x).1) as [v Hv]; [by left|].
  unfold free. wp_steps. rewrite Hv. wp_steps. apply IH; simpl; [done| |done].
  intros b Hb. rewrite lookup_delete_ne by (intros Heq; rewrite Heq in Hx; done). apply Hin. by right.
Qed.

Lemma wp_destroy_nodes l E p t Q :
  NoDup (mn_block <$> l) → (∀ b, b ∈ (mn_block <$> l) → is_Some (mp_blocks p !! b)) →
  Q tt (Pool (mp_max p) (mp_head p) (mp_large_ p)
         (delete_all (mn_block <$> l) (mp_blocks p)) (mp_fresh p)) t →
  wp (destroy_nodes l) Q E p t.
Proof.
  revert p. induction l as [|x l IH]; intros p Hnd Hin HQ; simpl; wp_steps.
  { by destruct p. }
  simpl in *. apply NoDup_cons in Hnd as [Hx Hnd].
  destruct (Hin (mn_block x)) as [v Hv]; [by left|].
  unfold free. wp_steps. rewrite Hv. wp_steps. apply IH; simpl; [done| |done].
  intros b Hb. rewrite lookup_delete_ne by (intros Heq; rewrite Heq in Hx; done). apply Hin. by right.
Qed.

(** Destroying the pool frees every block once and leaves none. *)
Lemma mempool_destroy_spec E p A t :
  pool_ok p A → wp kvs_mempool_destroy (λ _ p' _, mp_blocks p' = ∅) E p t.
Proof.
  intros Hp. pose proof (po_nodup _ _ Hp) as Hnd.
  assert (∀ b, b ∈ owners p → is_Some (mp_blocks p !! b)) as Hin.
  { intros b. unfold owners. rewrite elem_of_app. intros [(x & -> & Hx)%list_elem_of_fmap|(x & -> & Hx)%list_elem_of_fmap].
    - destruct (proj1 (Forall_forall _ _) (po_nodes _ _ Hp) x Hx) as [Hb _]. by rewrite Hb.
    - by destruct (proj1 (Forall_forall _ _) (po_large _ _ Hp) x Hx) as [Hb _]. }
  unfold owners in Hnd, Hin. apply NoDup_app in Hnd as (Hnd1 & Hdisj & Hnd2).
  unfold kvs_mempool_destroy, set_large, set_head. wp_steps.
  apply wp_destroy_large; [done|intros b Hb; apply Hin; set_solver|]. wp_steps. simpl.
  apply wp_destroy_nodes; simpl; [done| |].
  - intros b Hb. rewrite delete_all_ne by (intros Hb'; by eapply Hdisj). apply Hin. set_solver.
  - wp_steps. simpl. apply map_empty. intros b. apply eq_None_not_Some. intros Hb.
    apply delete_all_inv in Hb as [Hn Hb]. apply delete_all_inv in Hb as [Hl Hb].
    apply (po_all _ _ Hp) in Hb. unfold owners in Hb. set_solver.
Qed.

(** ** Theorems *)

(** A pool that has just been created. *)
Definition pool0 : mp_pool := after (kvs_mempool_create 4096) (Pool 0 [] [] ∅ 0).

Lemma pool0_ok : pool_ok pool0 [].
Proof.
  pose proof (mempool_create_spec calm (Pool 0 [] [] ∅ 0) 0 4096 eq_refl) as Hc.
  eapply (wp_done _ _ _ _ _ 0 pool0) in Hc; [|reflexivity]. apply Hc.
Qed.

(** C23: an allocation of less than SIZE_MAX - 7 bytes never hands out memory that is
    in use or out of bounds. It fails only when malloc does; otherwise the new region
    lies inside one malloc block and overlaps none of the regions in use, and the
    pool stays well-formed. Above that size the sum with the header wraps
    ([mempool_huge_overflows]). *)
Theorem mempool_alloc_disjoint E p A size t :
  pool_ok p A → 0 < size < 2 ^ 64 - SIZEOF_SIZE_T →
  wp (kvs_mempool_alloc size) (λ r p' _,
    match r with
    | None => ∃ t', malloc_ok E t' = false
    | Some a => pool_ok p' ((a.1, a.2, size) :: A) ∧
        ∃ n, mp_blocks p' !! a.1 = Some n ∧ 0 ≤ a.2 ∧ a.2 + size ≤ n
    end) E p t.
Proof.
  intros Hp Hsz. eapply wp_mono; [by apply mempool_alloc_spec|]. intros [a|] p' t' Hr; [|done].
  split; [done|]. apply (owned_in_bounds p' _ (a.1, a.2, size) Hr). by left.
Qed.

Lemma mempool_alloc_disjoint_witness :
  wp (kvs_mempool_alloc 100) (λ r p' _,
    match r with
    | None => ∃ t', malloc_ok calm t' = false
    | Some a => pool_ok p' [(a.1, a.2, 100)] ∧
        ∃ n, mp_blocks p' !! a.1 = Some n ∧ 0 ≤ a.2 ∧ a.2 + 100 ≤ n
    end) calm pool0 0.
Proof. apply (mempool_alloc_disjoint calm pool0 [] 100 0 pool0_ok). unfold SIZEOF_SIZE_T. lia. Defined.

(** The eight largest sizes wrap: malloc is asked for less than eight bytes and the
    size is written outside them. *)
Theorem mempool_huge_overflows E p A size t :
  pool_ok p A → 2 ^ 64 - SIZEOF_SIZE_T ≤ size < 2 ^ 64 → mp_max p < size → malloc_ok E t = true →
  kvs_mempool_alloc size E p t = Fault OutOfBounds.
Proof.
  intros Hp Hs Hmax Hok. pose proof (po_max _ _ Hp). unfold SIZEOF_SIZE_T in *.
  assert (u64 (size + SIZEOF_SIZE_T) <? SIZEOF_SIZE_T = true) as Hlt.
  { apply Z.ltb_lt. unfold u64, SIZEOF_SIZE_T. rewrite <-(Z_mod_plus_full _ (-1)), Z.mod_small; lia. }
  unfold kvs_mempool_alloc, malloc, kvs_malloc, gets, modify, mret, M_ret, mbind, M_bind.
  rewrite (proj2 (Z.eqb_neq _ _)), (proj2 (Z.leb_gt _ _)) by lia. by rewrite Hok, Hlt.
Qed.

Lemma mempool_huge_overflows_witness : kvs_mempool_alloc (2 ^ 64 - 1) calm pool0 0%nat = Fault OutOfBounds.
Proof. apply (mempool_huge_overflows calm pool0 [] (2 ^ 64 - 1) 0 pool0_ok); by vm_compute. Defined.


(** A pool with one region of 100 bytes. *)
Definition pool1 : mp_pool := after (kvs_mempool_alloc 100) pool0.

Lemma pool1_ok : pool_ok pool1 [((0%nat, 24), 100)].
Proof.
  pose proof (mempool_alloc_spec calm pool0 [] 100 0 pool0_ok ltac:(unfold SIZEOF_SIZE_T; lia)) as Hc.
  by eapply (wp_done _ _ _ _ _ (Some (0%nat, 24)) pool1) in Hc; [|reflexivity].
Qed.


(** Destroying a pool frees every block it ever took from malloc, each once,
    whatever is still allocated from it. *)
Theorem mempool_destroy_all E p A t :
  pool_ok p A → wp kvs_mempool_destroy (λ _ p' _, mp_blocks p' = ∅) E p t.
Proof. apply mempool_destroy_spec. Qed.

Lemma mempool_destroy_all_witness : wp kvs_mempool_destroy (λ _ p' _, mp_blocks p' = ∅) calm pool1 0.
Proof. apply (mempool_destroy_all calm pool1 [((0%nat, 24), 100)] 0 pool1_ok). Defined.
