(* ===== verification/KvSpec.v ===== *)
(** * What a storage engine promises

    The array, the hash table, the skip list and the red-black tree are four
    implementations of one dictionary with per-key expiry. This file holds the
    abstract dictionary, the pure functions that say what each operation does to
    it, the equivalence of dictionaries that no client can tell apart at a given
    time, and the interface [Engine] that the command layer is verified against. *)

From S2P Require Import Prelude.

(** ** Expiry *)

(** [expire_ms != -1 && expire_ms <= now], the test every engine makes. *)
Definition is_expired (now expire_ms : Z) : bool :=
  negb (expire_ms =? -1) && (expire_ms <=? now).

(** [ttl > 0 ? ttl : 0]. *)
Definition clamp_ttl (ttl : Z) : Z := if ttl >? 0 then ttl else 0.

(** ** The abstract dictionary: a key has a value pointer and an expiry time *)

Abbreviation entry := (cptr * Z)%type.
Abbreviation dict := (gmap bytes entry).

Implicit Types (now e : Z) (k v : bytes) (p : cptr) (m : dict).

(** Every value of the dictionary is a live C string. *)
Definition clean (m : dict) : Prop :=
  ∀ k p e, m !! k = Some (p, e) → ∃ v, p = PStr v.

(** No value of the dictionary is a dangling pointer. *)
Definition no_freed (m : dict) : Prop := ∀ k p e, m !! k = Some (p, e) → p ≠ PFreed.

(** What a client sees of key [k] at time [now]. *)
Definition live (now : Z) (m : dict) (k : bytes) : option cptr :=
  '(p, e) ← m !! k; if is_expired now e then None else Some p.

(** Lazy deletion: the key goes if it has expired. *)
Definition purge (now : Z) (k : bytes) (m : dict) : dict :=
  match m !! k with
  | Some (_, e) => if is_expired now e then delete k m else m
  | None => m
  end.

(** The periodic scan: every expired key goes. *)
Definition purge_all (now : Z) (m : dict) : dict :=
  filter (λ '(_, (_, e)), is_expired now e = false) m.

(** The number [TTL] computes from a dictionary, in milliseconds. *)
Definition spec_ttl (now : Z) (k : bytes) (m : dict) : Z :=
  match m !! k with
  | None => -2
  | Some (_, e) => if e =? -1 then -1 else clamp_ttl (e - now)
  end.

(** [EXPIRE] with an absolute time. *)
Definition spec_expire (k : bytes) (e : Z) (m : dict) : dict :=
  match m !! k with
  | None => m
  | Some (p, _) => if e =? 0 then delete k m else <[k := (p, e)]> m
  end.

(** ** Observational equivalence at a time *)

Definition live_equiv (now : Z) (m1 m2 : dict) : Prop :=
  ∀ k, live now m1 k = live now m2 k.

#[global] Instance live_equiv_equivalence now : Equivalence (live_equiv now).
Proof.
  split.
  - by intros m k.
  - intros m1 m2 H k. by rewrite H.
  - intros m1 m2 m3 H1 H2 k. by rewrite H1.
Qed.

#[global] Instance live_proper now : Proper (live_equiv now ==> eq ==> eq) (live now).
Proof. intros m1 m2 H k ? <-. apply H. Qed.

#[global] Instance insert_live_proper now k x :
  Proper (live_equiv now ==> live_equiv now) (insert k x : dict → dict).
Proof.
  intros m1 m2 H k'. specialize (H k'). unfold live in *.
  destruct (decide (k = k')) as [->|]; simplify_map_eq; done.
Qed.

#[global] Instance delete_live_proper now k :
  Proper (live_equiv now ==> live_equiv now) (delete k : dict → dict).
Proof.
  intros m1 m2 H k'. specialize (H k'). unfold live in *.
  destruct (decide (k = k')) as [->|]; simplify_map_eq; done.
Qed.

Lemma live_lookup_None (now : Z) (m : dict) (k : bytes) : m !! k = None → live now m k = None.
Proof. unfold live. by intros ->. Qed.

Lemma live_lookup_Some (now : Z) (m : dict) (k : bytes) p e :
  m !! k = Some (p, e) → live now m k = if is_expired now e then None else Some p.
Proof. unfold live. by intros ->. Qed.

(** Removing what has expired changes nothing a client can see. *)
Lemma delete_expired_equiv (now : Z) (k : bytes) p e (m : dict) :
  m !! k = Some (p, e) → is_expired now e = true → live_equiv now (delete k m) m.
Proof.
  intros Hk He k'. unfold live.
  destruct (decide (k = k')) as [<-|]; simplify_map_eq; [|done].
  by rewrite He.
Qed.

Lemma purge_equiv now k m : live_equiv now (purge now k m) m.
Proof.
  unfold purge. destruct (m !! k) as [[p e]|] eqn:Hk; [|done].
  destruct (is_expired now e) eqn:He; [|done]. by eapply delete_expired_equiv.
Qed.

Lemma purge_all_lookup now m k :
  purge_all now m !! k =
    '(p, e) ← m !! k; if is_expired now e then None else Some (p, e).
Proof.
  unfold purge_all. rewrite map_lookup_filter.
  destruct (m !! k) as [[p e]|]; simpl; [|done].
  destruct (is_expired now e) eqn:He.
  - rewrite option_guard_False; [done|]. congruence.
  - by rewrite option_guard_True.
Qed.

Lemma purge_all_equiv now m : live_equiv now (purge_all now m) m.
Proof.
  intros k. unfold live. rewrite purge_all_lookup.
  destruct (m !! k) as [[p e]|]; simpl; [|done].
  destruct (is_expired now e) eqn:He; simpl; by rewrite ?He.
Qed.

(** Expiry is monotone in time: what is gone stays gone. *)
Lemma is_expired_mono now now' e :
  now ≤ now' → is_expired now e = true → is_expired now' e = true.
Proof. unfold is_expired. lia. Qed.

Lemma is_expired_never now : is_expired now (-1) = false.
Proof. done. Qed.

(** ** Cleanliness is preserved by every abstract operation *)

Lemma clean_insert k v e m : clean m → clean (<[k := (PStr v, e)]> m).
Proof. intros Hm k' p e' [[<- [=<- <-]]|[? ?]]%lookup_insert_Some; eauto. Qed.

Lemma clean_delete k m : clean m → clean (delete k m).
Proof. intros Hm k' p e' [? ?]%lookup_delete_Some. eauto. Qed.

Lemma clean_retime k p e e' (m : dict) :
  clean m → m !! k = Some (p, e) → clean (<[k := (p, e')]> m).
Proof. intros Hm Hk. destruct (Hm _ _ _ Hk) as [v ->]. by apply clean_insert. Qed.

Lemma clean_purge now k m : clean m → clean (purge now k m).
Proof.
  intros Hm. unfold purge. destruct (m !! k) as [[??]|]; [|done].
  destruct (is_expired _ _); [by apply clean_delete|done].
Qed.

Lemma clean_purge_all now m : clean m → clean (purge_all now m).
Proof.
  intros Hm k p e. rewrite purge_all_lookup.
  destruct (m !! k) as [[p' e']|] eqn:Hk; simpl; [|done].
  destruct (is_expired now e'); naive_solver.
Qed.

Lemma clean_empty : clean ∅.
Proof. intros k p e. by rewrite lookup_empty. Qed.

Lemma clean_no_freed m : clean m → no_freed m.
Proof. intros H k p e Hk. by destruct (H _ _ _ Hk) as [v ->]. Qed.

#[export] Hint Resolve clean_insert clean_delete clean_retime clean_purge
  clean_purge_all clean_empty : kvs.

(** ** The expiry scan on a list of entries *)

Fixpoint unexpired (now : Z) (l : list (bytes * entry)) : list (bytes * entry) :=
  match l with
  | [] => []
  | x :: l' => if is_expired now x.2.2 then unexpired now l' else x :: unexpired now l'
  end.

Lemma unexpired_elem now l x :
  x ∈ unexpired now l ↔ x ∈ l ∧ is_expired now x.2.2 = false.
Proof.
  induction l as [|y l IH]; simpl; [set_solver|].
  destruct (is_expired now y.2.2) eqn:Hy; rewrite ?elem_of_cons, IH; naive_solver congruence.
Qed.

Lemma unexpired_sublist now l : sublist (unexpired now l) l.
Proof. induction l as [|y l IH]; simpl; [done|]. destruct (is_expired _ _); by constructor. Qed.

Lemma unexpired_Forall now P l : Forall P l → Forall P (unexpired now l).
Proof. intros H. apply Forall_forall. intros x [Hx _]%unexpired_elem. by eapply Forall_forall. Qed.

Lemma unexpired_concat now B : concat (unexpired now <$> B) = unexpired now (concat B).
Proof.
  assert (∀ l1 l2, unexpired now (l1 ++ l2) = unexpired now l1 ++ unexpired now l2) as Happ.
  { induction l1 as [|y l1 IH]; intros l2; simpl; [done|]. rewrite IH. by destruct (is_expired _ _). }
  induction B as [|l B IH]; [done|]. rewrite fmap_cons. simpl. by rewrite IH, Happ.
Qed.

Lemma unexpired_map now l :
  NoDup l.*1 →
  NoDup (unexpired now l).*1 ∧
  (list_to_map (unexpired now l) : dict) = purge_all now (list_to_map l).
Proof.
  intros Hnd. assert (NoDup (unexpired now l).*1) as Hnd'.
  { eapply sublist_NoDup; [exact Hnd|].
    induction (unexpired_sublist now l); simpl in *; [constructor..|]; try constructor; eauto using NoDup_cons_1_2. }
  split; [done|]. apply map_eq. intros k. rewrite purge_all_lookup. apply option_eq. intros [p e].
  rewrite <-elem_of_list_to_map, unexpired_elem by done. simpl.
  rewrite elem_of_list_to_map by done.
  destruct (list_to_map l !! k) as [[p' e']|]; simpl; [|naive_solver].
  destruct (is_expired now e') eqn:He; naive_solver congruence.
Qed.

(** ** The interface *)

(** The operations of an engine, with the code's signatures. *)
Class EngineOps (S : Type) := {
  e_set    : cptr → cptr → Z → M S Z;
  e_get    : cptr → M S cptr;
  e_del    : cptr → M S Z;
  e_mod    : cptr → cptr → M S Z;
  e_exist  : cptr → M S Z;
  e_expire : cptr → Z → M S Z;
  e_ttl    : cptr → M S Z;
  e_scan   : M S unit
}.

(** The laws. [e_key] is the set of keys the engine can store, [e_time] the expiry
    times it can hold, and [e_room] says that it can take one more key; allocation
    does not fail. *)
Class Engine (S : Type) `{EngineOps S} := {
  e_inv  : S → Prop;
  e_abs  : S → dict;
  e_key  : bytes → Prop;
  e_time : Z → Prop;
  e_room : S → Prop;

  e_clean s : e_inv s → clean (e_abs s);
  e_never : e_time (-1);

  e_set_law E s t k v e :
    no_oom E → e_inv s → e_key k → e_time e → e_room s →
    wp (e_set (PStr k) (PStr v) e) (λ r s' _,
      e_inv s' ∧ r = 0 ∧ e_abs s' = <[k := (PStr v, e)]> (e_abs s)) E s t;

  e_get_law E s t k :
    no_oom E → e_inv s → e_key k →
    wp (e_get (PStr k)) (λ r s' _,
      e_inv s' ∧ r = default PNull (live (clock E t) (e_abs s) k) ∧
      e_abs s' = purge (clock E t) k (e_abs s)) E s t;

  e_del_law E s t k :
    no_oom E → e_inv s → e_key k →
    wp (e_del (PStr k)) (λ r s' _,
      e_inv s' ∧ r = (if e_abs s !! k then 0 else 1) ∧
      e_abs s' = delete k (e_abs s)) E s t;

  e_mod_law E s t k v :
    no_oom E → e_inv s → e_key k →
    wp (e_mod (PStr k) (PStr v)) (λ r s' _,
      e_inv s' ∧ 0 ≤ r ∧
      match e_abs s !! k with
      | None => 0 < r ∧ e_abs s' = e_abs s
      | Some (_, e) =>
          if is_expired (clock E t) e then live_equiv (clock E t) (e_abs s') (e_abs s)
          else r = 0 ∧ e_abs s' = <[k := (PStr v, e)]> (e_abs s)
      end) E s t;

  e_exist_law E s t k :
    no_oom E → e_inv s → e_key k →
    wp (e_exist (PStr k)) (λ r s' _,
      e_inv s' ∧ r = (if live (clock E t) (e_abs s) k then 0 else 1) ∧
      (e_abs s' = e_abs s ∨ e_abs s' = purge (clock E t) k (e_abs s))) E s t;

  e_expire_law E s t k e :
    no_oom E → e_inv s → e_key k → e = 0 ∨ e_time e →
    wp (e_expire (PStr k) e) (λ r s' _,
      e_inv s' ∧ r = (if e_abs s !! k then 0 else 1) ∧
      e_abs s' = spec_expire k e (e_abs s)) E s t;

  e_ttl_law E s t k :
    no_oom E → e_inv s → e_key k →
    (∀ p e, e_abs s !! k = Some (p, e) → LLONG_MIN ≤ e - clock E t ≤ LLONG_MAX) →
    wp (e_ttl (PStr k)) (λ r s' _,
      s' = s ∧ r = spec_ttl (clock E t) k (e_abs s)) E s t;

  e_scan_law E s t :
    no_oom E → e_inv s →
    wp e_scan (λ _ s' _,
      e_inv s' ∧ e_abs s' = purge_all (clock E t) (e_abs s)) E s t
}.

(** No entry of the dictionary expires. *)
Definition timeless (m : dict) : Prop := ∀ k p e, m !! k = Some (p, e) → e = -1.

(** The early return of an operation whose pointer argument is NULL. *)
Definition arg1 {S A} (err : A) (p : cptr) (f : bytes → M S A) : M S A :=
  match p with
  | PNull => mret err
  | _ => b ← read_str p; f b
  end.

(** The same for two pointers. *)
Definition arg2 {S A} (err : A) (p q : cptr) (f : bytes → bytes → M S A) : M S A :=
  arg1 err p (λ a, arg1 err q (λ b, f a b)).

#[global] Arguments arg1 : simpl never.
#[global] Arguments arg2 : simpl never.

Lemma wp_arg1 {S A} (err : A) k (f : bytes → M S A) Q E s t :
  wp (f k) Q E s t → wp (arg1 err (PStr k) f) Q E s t.
Proof. done. Qed.

Lemma wp_arg2 {S A} (err : A) k v (f : bytes → bytes → M S A) Q E s t :
  wp (f k v) Q E s t → wp (arg2 err (PStr k) (PStr v) f) Q E s t.
Proof. done. Qed.
