(* ===== verification/KvsArray.v ===== *)
(** * The array engine (kvs_array.c)

    A table of KVS_ARRAY_SIZE items, of which the first [total] are in use.
    Lookup is a linear scan; deletion moves the last item into the hole. The
    definitions follow the C functions one by one; the table is sparse, an entry
    that was never written reads as the zero item [memset] left there. *)

From S2P Require Import Prelude KvSpec.

(** ** Data *)

(** struct kvs_array_item_s *)
Record kvs_array_item := Item {
  it_key    : cptr;
  it_value  : cptr;
  it_expire : Z
}.

Definition zero_item : kvs_array_item := Item PNull PNull 0.

Definition KVS_ARRAY_SIZE : Z := 1024 * 1024.

(** struct kvs_array_s; [ar_table = None] is the NULL table. *)
Record kvs_array := KArray {
  ar_table : option (gmap nat kvs_array_item);
  ar_total : nat
}.

(** The zero-initialised global_array. *)
Definition global_array0 : kvs_array := KArray None 0.

(** ** Access to the table *)

(** inst->table[i] as a value. *)
Definition get_item (i : nat) : M kvs_array kvs_array_item :=
  tab ← gets ar_table;
  match tab with
  | None => fail NullDeref
  | Some m =>
      if Z.of_nat i <? KVS_ARRAY_SIZE then mret (default zero_item (m !! i))
      else fail OutOfBounds
  end.

(** inst->table[i] = it *)
Definition put_item (i : nat) (it : kvs_array_item) : M kvs_array unit :=
  tab ← gets ar_table;
  match tab with
  | None => fail NullDeref
  | Some m =>
      if Z.of_nat i <? KVS_ARRAY_SIZE
      then modify (λ s, KArray (Some (<[i := it]> m)) (ar_total s))
      else fail OutOfBounds
  end.

Definition set_total (n : nat) : M kvs_array unit :=
  modify (λ s, KArray (ar_table s) n).

(** The scan every operation starts with: the first [i < total] whose key is
    not NULL and compares equal. *)
Fixpoint find_from (fuel i : nat) (key : bytes) : M kvs_array (option nat) :=
  match fuel with
  | O => mret None
  | S fuel' =>
      it ← get_item i;
      match it_key it with
      | PNull => find_from fuel' (S i) key
      | p =>
          k ← read_str p;
          if strcmp k key =? 0 then mret (Some i) else find_from fuel' (S i) key
      end
  end.

Definition find_key (key : bytes) : M kvs_array (option nat) :=
  n ← gets ar_total; find_from n 0 key.

(** ** Operations *)

Definition kvs_array_create : M kvs_array Z :=
  tab ← gets ar_table;
  match tab with
  | Some _ => mret (-1)
  | None =>
      ok ← kvs_malloc;
      if negb ok then mret (-1)
      else modify (λ _, KArray (Some ∅) 0);; mret 0
  end.

Definition free_if (p : cptr) : M kvs_array unit :=
  match p with PNull => mret tt | _ => kvs_free p end.

(** The loop of kvs_array_destory over the items in use. *)
Fixpoint destory_items (fuel i : nat) : M kvs_array unit :=
  match fuel with
  | O => mret tt
  | S fuel' =>
      it ← get_item i;
      free_if (it_key it);;
      free_if (it_value it);;
      put_item i (Item PNull PNull (it_expire it));;
      destory_items fuel' (S i)
  end.

Definition kvs_array_destory : M kvs_array unit :=
  tab ← gets ar_table;
  match tab with
  | Some _ =>
      n ← gets ar_total;
      destory_items n 0;;
      modify (λ s, KArray None (ar_total s))
  | None => mret tt
  end;;
  set_total 0.

Definition kvs_array_set (key value : cptr) (expire_ms : Z) : M kvs_array Z :=
  arg2 (-1) key value (λ key value,
    total ← gets ar_total;
    if Z.of_nat total >=? KVS_ARRAY_SIZE then mret (-1) else
    found ← find_key key;
    match found with
    | Some i =>
        it ← get_item i;
        kvs_free (it_value it);;
        ok ← kvs_malloc;
        put_item i (Item (it_key it) (if ok : bool then PStr value else PNull) (it_expire it));;
        if negb ok then mret (-2) else
        put_item i (Item (it_key it) (PStr value) expire_ms);;
        mret 0
    | None =>
        kok ← kvs_malloc;
        if negb kok then mret (-2) else
        vok ← kvs_malloc;
        if negb vok then mret (-2) else
        put_item total (Item (PStr key) (PStr value) expire_ms);;
        set_total (S total);;
        mret 0
    end).

Definition kvs_array_get (key : cptr) : M kvs_array cptr :=
  arg1 PNull key (λ key,
    now ← kvs_current_time_ms;
    found ← find_key key;
    match found with
    | Some i =>
        it ← get_item i;
        if is_expired now (it_expire it) then
          kvs_free (it_key it);;
          kvs_free (it_value it);;
          total ← gets ar_total;
          last ← get_item (total - 1);
          put_item i last;;
          set_total (total - 1);;
          mret PNull
        else mret (it_value it)
    | None => mret PNull
    end).

Definition kvs_array_del (key : cptr) : M kvs_array Z :=
  arg1 (-1) key (λ key,
    found ← find_key key;
    match found with
    | Some i =>
        it ← get_item i;
        kvs_free (it_key it);;
        kvs_free (it_value it);;
        total ← gets ar_total;
        last ← get_item (total - 1);
        (if bool_decide (i < total - 1)%nat then put_item i last else mret tt);;
        last' ← get_item (total - 1);
        put_item (total - 1) (Item PNull PNull (it_expire last'));;
        set_total (total - 1);;
        mret 0
    | None => mret 1
    end).

Definition kvs_array_expire (key : cptr) (expire_ms : Z) : M kvs_array Z :=
  arg1 (-1) key (λ k,
    found ← find_key k;
    match found with
    | Some i =>
        if expire_ms =? 0 then kvs_array_del key
        else
          it ← get_item i;
          put_item i (Item (it_key it) (it_value it) expire_ms);;
          mret 0
    | None => mret 1
    end).

Definition kvs_array_ttl (key : cptr) : M kvs_array Z :=
  arg1 (-2) key (λ key,
    now ← kvs_current_time_ms;
    found ← find_key key;
    match found with
    | Some i =>
        it ← get_item i;
        if it_expire it =? -1 then mret (-1)
        else ttl ← checked64 (it_expire it - now); mret (clamp_ttl ttl)
    | None => mret (-2)
    end).

(** for (i = total - 1; i >= 0; i--), with [n] the number of indices left. *)
Fixpoint scan_down (now : Z) (n : nat) : M kvs_array unit :=
  match n with
  | O => mret tt
  | S i =>
      it ← get_item i;
      match it_key it with
      | PNull => mret tt
      | _ =>
          if is_expired now (it_expire it)
          then kvs_array_del (it_key it);; mret tt
          else mret tt
      end;;
      scan_down now i
  end.

Definition kvs_array_scan_expired : M kvs_array unit :=
  now ← kvs_current_time_ms;
  n ← gets ar_total;
  scan_down now n.

Definition kvs_array_mod (key value : cptr) : M kvs_array Z :=
  arg2 (-1) key value (λ key value,
    total ← gets ar_total;
    if bool_decide (total = 0%nat) then mret KVS_ARRAY_SIZE else
    found ← find_key key;
    match found with
    | Some i =>
        it ← get_item i;
        kvs_free (it_value it);;
        put_item i (Item (it_key it) PFreed (it_expire it));;
        ok ← kvs_malloc;
        if negb ok then mret (-2) else
        put_item i (Item (it_key it) (PStr value) (it_expire it));;
        mret 0
    | None => mret (Z.of_nat total)
    end).

Definition kvs_array_exist (key : cptr) : M kvs_array Z :=
  arg1 (-1) key (λ key,
    now ← kvs_current_time_ms;
    found ← find_key key;
    match found with
    | Some i =>
        it ← get_item i;
        if is_expired now (it_expire it) then mret 1 else mret 0
    | None => mret 1
    end).

#[global] Arguments kvs_array_del : simpl never.

#[global] Instance array_ops : EngineOps kvs_array := {|
  e_set := kvs_array_set;
  e_get := kvs_array_get;
  e_del := kvs_array_del;
  e_mod := kvs_array_mod;
  e_exist := kvs_array_exist;
  e_expire := kvs_array_expire;
  e_ttl := kvs_array_ttl;
  e_scan := kvs_array_scan_expired
|}.

(** ** The representation invariant *)

(** The stored form of an association. *)
Definition item_of (x : bytes * entry) : kvs_array_item :=
  Item (PStr x.1) x.2.1 x.2.2.

(** The first [length L] items of the table are the associations of [L]. *)
Definition tab_rep (m : gmap nat kvs_array_item) (L : list (bytes * entry)) : Prop :=
  ∀ i x, L !! i = Some x → m !! i = Some (item_of x).

Definition ar_rep (s : kvs_array) (L : list (bytes * entry)) : Prop :=
  ∃ m, s = KArray (Some m) (length L) ∧ tab_rep m L ∧ NoDup L.*1 ∧
       Z.of_nat (length L) ≤ KVS_ARRAY_SIZE.

(** The association an item stands for. *)
Definition entry_of (it : kvs_array_item) : option (bytes * entry) :=
  match it_key it with
  | PStr k => Some (k, (it_value it, it_expire it))
  | _ => None
  end.

(** The dictionary an array stands for. *)
Definition ar_abs (s : kvs_array) : dict :=
  match ar_table s with
  | None => ∅
  | Some m => list_to_map (omap (λ i, entry_of (default zero_item (m !! i))) (seq 0 (ar_total s)))
  end.

(** Well-formed: distinct C-string keys, within capacity, no dangling value. *)
Definition ar_wf (s : kvs_array) : Prop := (∃ L, ar_rep s L) ∧ no_freed (ar_abs s).

(** The invariant when no allocation fails: every value is a C string too. *)
Definition ar_inv (s : kvs_array) : Prop := (∃ L, ar_rep s L) ∧ clean (ar_abs s).

Lemma ar_inv_wf s : ar_inv s → ar_wf s.
Proof. intros [??]. split; [done|]. by apply clean_no_freed. Qed.

Lemma tab_rep_omap m L :
  tab_rep m L → omap (λ i, entry_of (default zero_item (m !! i))) (seq 0 (length L)) = L.
Proof.
  assert (∀ o, (∀ i x, L !! i = Some x → m !! (o + i)%nat = Some (item_of x)) →
    omap (λ i, entry_of (default zero_item (m !! i))) (seq o (length L)) = L) as Haux.
  { induction L as [|[k [p e]] L IH]; intros o H; [done|]. simpl.
    pose proof (H 0%nat _ eq_refl) as H0. rewrite Nat.add_0_r in H0. rewrite H0. simpl.
    f_equal. apply IH. intros i x Hi. rewrite <-(H (S i) x) by done. f_equal. lia. }
  intros H. by apply Haux.
Qed.

Lemma ar_rep_abs s L : ar_rep s L → ar_abs s = list_to_map L.
Proof. intros (m & -> & Hm & _). unfold ar_abs. simpl. by rewrite tab_rep_omap. Qed.

Lemma tab_rep_insert m L i x :
  tab_rep m L → tab_rep (<[i := item_of x]> m) (<[i := x]> L).
Proof.
  intros H j y [(-> & <- & ?)|[? ?]]%list_lookup_insert_Some; simplify_map_eq; eauto.
Qed.

Lemma tab_rep_beyond m L j it :
  tab_rep m L → (length L ≤ j)%nat → tab_rep (<[j := it]> m) L.
Proof.
  intros H Hj i x Hi. apply lookup_lt_Some in Hi as Hlt.
  rewrite lookup_insert_ne by lia. eauto.
Qed.

Lemma tab_rep_snoc m L x :
  tab_rep m L → tab_rep (<[length L := item_of x]> m) (L ++ [x]).
Proof.
  intros H i y [Hi|[Hlen Hi]]%lookup_app_Some.
  - apply lookup_lt_Some in Hi as Hlt. rewrite lookup_insert_ne by lia. eauto.
  - destruct (i - length L)%nat eqn:Hd; simplify_eq/=.
    replace i with (length L) by lia. by rewrite lookup_insert_eq.
Qed.

Lemma tab_rep_swap m L i y :
  tab_rep m L → last L = Some y → (i < length L)%nat →
  tab_rep (<[i := item_of y]> m) (swap_remove i L).
Proof.
  intros H Hy Hi j x Hj. apply lookup_lt_Some in Hj as Hlt.
  rewrite swap_remove_length in Hlt.
  rewrite (swap_remove_lookup _ _ _ y) in Hj by done.
  destruct (decide (i = j)) as [->|]; simplify_map_eq; eauto.
Qed.

Lemma tab_rep_last m L y :
  tab_rep m L → last L = Some y → m !! (length L - 1)%nat = Some (item_of y).
Proof. intros H Hy. apply H. rewrite last_lookup in Hy. by rewrite <-Hy, Nat.sub_1_r. Qed.

Lemma wp_get_item m n i it Q E t :
  m !! i = Some it → Z.of_nat i < KVS_ARRAY_SIZE →
  Q it (KArray (Some m) n) t → wp (get_item i) Q E (KArray (Some m) n) t.
Proof.
  intros Hi Hs HQ. unfold get_item. wp_steps. simpl.
  replace (Z.of_nat i <? KVS_ARRAY_SIZE) with true by lia. wp_steps. by rewrite Hi.
Qed.

Lemma wp_put_item m n i it Q E t :
  Z.of_nat i < KVS_ARRAY_SIZE →
  Q tt (KArray (Some (<[i := it]> m)) n) t → wp (put_item i it) Q E (KArray (Some m) n) t.
Proof.
  intros Hs HQ. unfold put_item. wp_steps. simpl.
  replace (Z.of_nat i <? KVS_ARRAY_SIZE) with true by lia. by wp_steps.
Qed.

Lemma wp_find_key m L k Q E t :
  tab_rep m L → Z.of_nat (length L) ≤ KVS_ARRAY_SIZE →
  (∀ i x, L !! i = Some (k, x) → Q (Some i) (KArray (Some m) (length L)) t) →
  ((∀ i x, L !! i ≠ Some (k, x)) → Q None (KArray (Some m) (length L)) t) →
  wp (find_key k) Q E (KArray (Some m) (length L)) t.
Proof.
  intros Hm Hsz HS HN. unfold find_key. wp_steps. simpl.
  assert (∀ fuel o, (o + fuel = length L)%nat →
    (∀ j x, (j < o)%nat → L !! j ≠ Some (k, x)) →
    wp (find_from fuel o k) Q E (KArray (Some m) (length L)) t) as Haux.
  { induction fuel as [|fuel IH]; intros o Ho Hbef; simpl.
    - wp_steps. apply HN. intros i x Hi. apply lookup_lt_Some in Hi as ?.
      eapply Hbef; [|done]. lia.
    - destruct (lookup_lt_is_Some_2 L o) as [[k' x] Hx]; [lia|].
      wp_steps. eapply wp_get_item; [by apply Hm|lia|]. simpl. wp_steps.
      destruct (strcmp k' k =? 0) eqn:Hc; to_prop.
      + wp_steps. subst. eauto.
      + apply IH; [lia|]. intros j y Hj Hjy.
        destruct (decide (j = o)) as [->|]; [congruence|]. eapply Hbef; [|done]. lia. }
  apply Haux; [lia|]. intros j x Hj. lia.
Qed.

(** The three ways a table changes. *)
Lemma array_rep_update m L i k x y :
  tab_rep m L → NoDup L.*1 → Z.of_nat (length L) ≤ KVS_ARRAY_SIZE →
  L !! i = Some (k, x) →
  ar_rep (KArray (Some (<[i := item_of (k, y)]> m)) (length L)) (<[i := (k, y)]> L) ∧
  list_to_map (<[i := (k, y)]> L) = <[k := y]> (list_to_map L : dict).
Proof.
  intros Hm HL Hsz Hi. split; [|by eapply assoc_insert].
  eexists. split; [by rewrite length_insert|]. split_and!.
  - by apply tab_rep_insert.
  - by erewrite assoc_insert_keys.
  - by rewrite length_insert.
Qed.

Lemma rep_remove m' L i k x :
  tab_rep m' (swap_remove i L) → NoDup L.*1 → Z.of_nat (length L) ≤ KVS_ARRAY_SIZE →
  L !! i = Some (k, x) →
  ar_rep (KArray (Some m') (length L - 1)) (swap_remove i L) ∧
  list_to_map (swap_remove i L) = delete k (list_to_map L : dict).
Proof.
  intros Hm HL Hsz Hi.
  destruct (assoc_delete L (swap_remove i L) k x) as [Hnd Hd];
    [done|by apply swap_remove_perm|].
  split; [|done]. exists m'. rewrite swap_remove_length. split_and!; [done|done|done|lia].
Qed.

Lemma rep_append m L k x :
  tab_rep m L → NoDup L.*1 → Z.of_nat (length L) < KVS_ARRAY_SIZE →
  (∀ i y, L !! i ≠ Some (k, y)) →
  ar_rep (KArray (Some (<[length L := item_of (k, x)]> m)) (S (length L))) (L ++ [(k, x)]) ∧
  list_to_map (L ++ [(k, x)]) = <[k := x]> (list_to_map L : dict).
Proof.
  intros Hm HL Hsz Hk.
  assert (k ∉ L.*1) as Hnk.
  { intros [[k' y] [-> [i Hi]%list_elem_of_lookup]]%list_elem_of_fmap. by eapply Hk. }
  split.
  - eexists. rewrite length_app, fmap_app. simpl. rewrite Nat.add_1_r.
    split_and!; [done|by apply tab_rep_snoc| |lia].
    apply NoDup_app. split; [done|]. split; [|apply NoDup_singleton].
    intros z Hz ->%list_elem_of_singleton. done.
  - rewrite (list_to_map_proper _ ((k, x) :: L)); [done| |solve_Permutation].
    rewrite fmap_app. apply NoDup_app. split; [done|]. split; [|apply NoDup_singleton].
    intros z Hz ->%list_elem_of_singleton. done.
Qed.

(** The item the scan finds is the entry of the dictionary. *)
Ltac found_entry :=
  match goal with
  | HL : NoDup ?L.*1, Hi : ?L !! _ = Some (?k, ?x) |- _ =>
      pose proof (assoc_lookup L _ k x HL Hi)
  end.

(** The new state is represented ([Hr]) and stands for the right dictionary ([Hu]). *)
Ltac abs_done Hr Hu :=
  split; [eexists; exact Hr|]; split_and?; try done;
  (etransitivity; [exact (ar_rep_abs _ _ Hr)|exact Hu]).

Lemma last_lt {A} (L : list A) i x : L !! i = Some x → ∃ y, last L = Some y ∧ (i < length L)%nat.
Proof.
  intros Hi. apply lookup_lt_Some in Hi as Hlt.
  destruct (last L) as [y|] eqn:Hy; [by eauto|].
  apply last_None in Hy. subst. simpl in Hlt. lia.
Qed.

(** ** What each operation does, allocation failure included *)

Lemma array_set_full E s t k v e :
  ar_wf s → KVS_ARRAY_SIZE ≤ Z.of_nat (ar_total s) →
  wp (kvs_array_set (PStr k) (PStr v) e) (λ r s' _, r = -1 ∧ s' = s) E s t.
Proof.
  intros [[L (m & -> & ?)] _] Hf. simpl in Hf. apply wp_arg2. wp_steps. simpl.
  replace (Z.of_nat (length L) >=? KVS_ARRAY_SIZE) with true by lia. by wp_steps.
Qed.

Lemma array_set_spec E s t k v e :
  ar_wf s → Z.of_nat (ar_total s) < KVS_ARRAY_SIZE →
  wp (kvs_array_set (PStr k) (PStr v) e) (λ r s' _,
    (∃ L, ar_rep s' L) ∧
    match ar_abs s !! k with
    | Some (_, e0) =>
        if malloc_ok E t then r = 0 ∧ ar_abs s' = <[k := (PStr v, e)]> (ar_abs s)
        else r = -2 ∧ ar_abs s' = <[k := (PNull, e0)]> (ar_abs s)
    | None =>
        if malloc_ok E t && malloc_ok E (S t)
        then r = 0 ∧ ar_abs s' = <[k := (PStr v, e)]> (ar_abs s)
        else r = -2 ∧ s' = s
    end) E s t.
Proof.
  intros [[L HrepL] Hnf] Hf. rewrite (ar_rep_abs s L HrepL) in *.
  pose proof HrepL as (m & -> & Hm & HL & Hsz). simpl in Hf.
  apply wp_arg2. wp_steps. simpl.
  replace (Z.of_nat (length L) >=? KVS_ARRAY_SIZE) with false by lia.
  wp_steps. apply wp_find_key; [done|lia| |].
  - intros i [p e0] Hi. found_entry. rewrite H.
    apply lookup_lt_Some in Hi as Hlt.
    wp_steps. eapply wp_get_item; [by apply Hm|lia|]. simpl.
    wp_steps. apply wp_free; [by eapply Hnf|]. wp_steps.
    wp_steps. apply wp_put_item; [lia|].
    destruct (malloc_ok E t); simpl.
    + wp_steps. apply wp_put_item; [lia|]. wp_steps.
      rewrite insert_insert_eq.
      destruct (array_rep_update m L i k (p, e0) (PStr v, e)) as [Hr Hu]; [done..|].
      abs_done Hr Hu.
    + wp_steps.
      destruct (array_rep_update m L i k (p, e0) (PNull, e0)) as [Hr Hu]; [done..|].
      abs_done Hr Hu.
  - intros Hno. rewrite assoc_lookup_None by done. wp_steps.
    destruct (malloc_ok E t); simpl; [|by wp_steps; eauto]. wp_steps.
    destruct (malloc_ok E (S t)); simpl; [|by wp_steps; eauto].
    wp_steps. apply wp_put_item; [lia|]. wp_steps. unfold set_total. wp_steps. simpl.
    destruct (rep_append m L k (PStr v, e)) as [Hr Hu]; [done|done|lia|done|].
    abs_done Hr Hu.
Qed.

Lemma array_get_spec E s t k :
  ar_wf s →
  wp (kvs_array_get (PStr k)) (λ r s' _,
    (∃ L, ar_rep s' L) ∧
    r = default PNull (live (clock E t) (ar_abs s) k) ∧
    ar_abs s' = purge (clock E t) k (ar_abs s)) E s t.
Proof.
  intros [[L HrepL] Hnf]. rewrite (ar_rep_abs s L HrepL) in *.
  pose proof HrepL as (m & -> & Hm & HL & Hsz).
  apply wp_arg1. wp_steps. wp_steps. apply wp_find_key; [done|lia| |].
  - intros i [p e] Hi. found_entry. rewrite (live_lookup_Some _ _ _ _ _ H).
    unfold purge. rewrite H. destruct (last_lt L i _ Hi) as (y & Hy & Hlt).
    wp_steps. eapply wp_get_item; [by apply Hm|lia|]. simpl.
    destruct (is_expired (clock E t) e); [|wp_steps; eauto using ar_rep_abs].
    wp_steps. apply wp_free; [by eapply Hnf|].
    wp_steps. simpl. wp_steps. eapply wp_get_item; [by apply tab_rep_last|lia|].
    wp_steps. apply wp_put_item; [lia|]. unfold set_total. wp_steps. simpl.
    destruct (rep_remove (<[i := item_of y]> m) L i k (p, e)) as [Hr Hu];
      [by apply tab_rep_swap|done..|].
    abs_done Hr Hu.
  - intros Hno. wp_steps. rewrite live_lookup_None by (by apply assoc_lookup_None).
    unfold purge. rewrite assoc_lookup_None by done. split; [by eauto|].
    by rewrite (ar_rep_abs _ _ HrepL).
Qed.

(** Deletion of a stored key, on the table itself. *)
Lemma array_del_rep E s L i k p e t :
  ar_rep s L → L !! i = Some (k, (p, e)) → p ≠ PFreed →
  wp (kvs_array_del (PStr k)) (λ r s' t',
    r = 0 ∧ t' = t ∧ ar_rep s' (swap_remove i L)) E s t.
Proof.
  intros (m & -> & Hm & HL & Hsz) Hi0 Hp.
  apply wp_arg1. wp_steps. apply wp_find_key; [done|lia| |]; last first.
  { intros Hno. by destruct (Hno _ _ Hi0). }
  intros i' x Hi'. assert (i' = i) as ->.
  { eapply NoDup_lookup; [exact HL| |]; rewrite list_lookup_fmap, ?Hi0, ?Hi'; done. }
  simplify_eq. destruct (last_lt L i _ Hi0) as (y & Hy & Hlt).
  wp_steps. eapply wp_get_item; [by apply Hm|lia|]. simpl.
  wp_steps. apply wp_free; [done|].
  wp_steps. simpl. eapply wp_get_item; [by apply tab_rep_last|lia|].
  wp_steps.
  assert (∃ m', wp (if bool_decide (i < length L - 1)%nat then put_item i (item_of y) else mret tt)
    (λ _ s' t', s' = KArray (Some m') (length L) ∧ t' = t) E (KArray (Some m) (length L)) t ∧
    tab_rep m' (swap_remove i L) ∧ ∃ it, m' !! (length L - 1)%nat = Some it)
    as (m' & Hwp & Hm' & it & Hit).
  { case_bool_decide as Hlast.
    - eexists. split; [by apply wp_put_item; [lia|]|]. split; [by apply tab_rep_swap|].
      rewrite lookup_insert_ne by lia. eexists. by apply tab_rep_last.
    - exists m. split; [by wp_steps|]. split; [|eexists; by apply tab_rep_last].
      replace m with (<[i := item_of y]> m); [by apply tab_rep_swap|].
      apply insert_id. rewrite <-(tab_rep_last m L y) by done. f_equal. lia. }
  eapply wp_mono; [exact Hwp|]. intros [] ? ? [-> ->].
  wp_steps. eapply wp_get_item; [done|lia|].
  wp_steps. apply wp_put_item; [lia|]. unfold set_total. wp_steps. simpl.
  split_and!; [done..|]. eapply rep_remove; [|done..].
  apply tab_rep_beyond; [done|]. by rewrite swap_remove_length.
Qed.

Lemma array_del_spec E s t k :
  ar_wf s →
  wp (kvs_array_del (PStr k)) (λ r s' _,
    (∃ L, ar_rep s' L) ∧ r = (if ar_abs s !! k then 0 else 1) ∧
    ar_abs s' = delete k (ar_abs s)) E s t.
Proof.
  intros [[L HrepL] Hnf]. rewrite (ar_rep_abs s L HrepL) in *.
  pose proof HrepL as (m & -> & Hm & HL & Hsz).
  destruct ((list_to_map L : dict) !! k) as [[p e]|] eqn:Hk.
  - pose proof (elem_of_list_to_map_2 _ _ _ Hk) as [i Hi]%list_elem_of_lookup.
    eapply wp_mono; [eapply array_del_rep; [done|done|by eapply Hnf]|].
    intros r s' t' (-> & _ & Hr). split; [eauto|]. split; [done|].
    rewrite (ar_rep_abs _ _ Hr). eapply (assoc_delete L); [done|by apply swap_remove_perm].
  - rewrite delete_id by done. apply wp_arg1. wp_steps. apply wp_find_key; [done|lia| |].
    + intros i x Hi. found_entry. congruence.
    + intros _. wp_steps. split; [eauto|]. by rewrite (ar_rep_abs _ _ HrepL).
Qed.

Lemma array_expire_spec E s t k e :
  ar_wf s →
  wp (kvs_array_expire (PStr k) e) (λ r s' _,
    (∃ L, ar_rep s' L) ∧ r = (if ar_abs s !! k then 0 else 1) ∧
    ar_abs s' = spec_expire k e (ar_abs s)) E s t.
Proof.
  intros Hwf. pose proof (array_del_spec E s t k Hwf) as Hdel.
  destruct Hwf as [[L HrepL] Hnf]. rewrite (ar_rep_abs s L HrepL) in *.
  pose proof HrepL as (m & -> & Hm & HL & Hsz).
  apply wp_arg1. wp_steps. apply wp_find_key; [done|lia| |].
  - intros i [p e0] Hi. found_entry. unfold spec_expire. rewrite H in *.
    apply lookup_lt_Some in Hi as Hlt. destruct (e =? 0).
    + eapply wp_mono; [exact Hdel|]. naive_solver.
    + wp_steps. eapply wp_get_item; [by apply Hm|lia|]. simpl. wp_steps.
      apply wp_put_item; [lia|]. wp_steps.
      destruct (array_rep_update m L i k (p, e0) (p, e)) as [Hr Hu]; [done..|]. abs_done Hr Hu.
  - intros Hno. wp_steps. unfold spec_expire. rewrite assoc_lookup_None by done.
    split; [by eauto|]. by rewrite (ar_rep_abs _ _ HrepL).
Qed.

Lemma array_ttl_spec E s t k :
  ar_wf s →
  (∀ p e, ar_abs s !! k = Some (p, e) → LLONG_MIN ≤ e - clock E t ≤ LLONG_MAX) →
  wp (kvs_array_ttl (PStr k)) (λ r s' _,
    s' = s ∧ r = spec_ttl (clock E t) k (ar_abs s)) E s t.
Proof.
  intros [[L HrepL] Hnf] Hrange. rewrite (ar_rep_abs s L HrepL) in *.
  pose proof HrepL as (m & -> & Hm & HL & Hsz).
  apply wp_arg1. wp_steps. apply wp_find_key; [done|lia| |].
  - intros i [p e] Hi. found_entry. unfold spec_ttl. rewrite H.
    apply lookup_lt_Some in Hi as Hlt.
    wp_steps. eapply wp_get_item; [by apply Hm|lia|]. simpl.
    destruct (e =? -1); [by wp_steps|]. wp_steps.
    apply wp_checked64; [by eapply Hrange|]. by wp_steps.
  - intros Hno. wp_steps. unfold spec_ttl. by rewrite assoc_lookup_None.
Qed.

Lemma array_exist_spec E s t k :
  ar_wf s →
  wp (kvs_array_exist (PStr k)) (λ r s' _,
    s' = s ∧ r = (if live (clock E t) (ar_abs s) k then 0 else 1)) E s t.
Proof.
  intros [[L HrepL] Hnf]. rewrite (ar_rep_abs s L HrepL) in *.
  pose proof HrepL as (m & -> & Hm & HL & Hsz).
  apply wp_arg1. wp_steps. apply wp_find_key; [done|lia| |].
  - intros i [p e] Hi. found_entry. rewrite (live_lookup_Some _ _ _ _ _ H).
    apply lookup_lt_Some in Hi as Hlt.
    wp_steps. eapply wp_get_item; [by apply Hm|lia|]. simpl.
    destruct (is_expired (clock E t) e); by wp_steps.
  - intros Hno. wp_steps. by rewrite live_lookup_None by (by apply assoc_lookup_None).
Qed.

(** Modification replaces the value and keeps the expiry, expired or not; when
    the allocation fails the item is left with a dangling pointer. *)
Lemma array_mod_spec E s t k v :
  ar_wf s →
  wp (kvs_array_mod (PStr k) (PStr v)) (λ r s' _,
    (∃ L, ar_rep s' L) ∧
    match ar_abs s !! k with
    | Some (_, e) =>
        if malloc_ok E t then r = 0 ∧ ar_abs s' = <[k := (PStr v, e)]> (ar_abs s)
        else r = -2 ∧ ar_abs s' = <[k := (PFreed, e)]> (ar_abs s)
    | None => 0 < r ∧ s' = s
    end) E s t.
Proof.
  intros [[L HrepL] Hnf]. rewrite (ar_rep_abs s L HrepL) in *.
  pose proof HrepL as (m & -> & Hm & HL & Hsz).
  apply wp_arg2. wp_steps. simpl. case_bool_decide as Hz.
  { wp_steps. destruct L; [|done]. simpl. rewrite lookup_empty.
    split; [eauto|]. by split. }
  wp_steps. apply wp_find_key; [done|lia| |].
  - intros i [p e] Hi. found_entry. rewrite H. apply lookup_lt_Some in Hi as Hlt.
    wp_steps. eapply wp_get_item; [by apply Hm|lia|]. simpl.
    wp_steps. apply wp_free; [by eapply Hnf|]. wp_steps. apply wp_put_item; [lia|].
    wp_steps. destruct (malloc_ok E t); simpl.
    + wp_steps. apply wp_put_item; [lia|]. wp_steps. rewrite insert_insert_eq.
      destruct (array_rep_update m L i k (p, e) (PStr v, e)) as [Hr Hu]; [done..|]. abs_done Hr Hu.
    + wp_steps.
      destruct (array_rep_update m L i k (p, e) (PFreed, e)) as [Hr Hu]; [done..|]. abs_done Hr Hu.
  - intros Hno. wp_steps. rewrite assoc_lookup_None by done.
    split; [by eauto|]. split; [lia|done].
Qed.

(** The backward scan: with [n] indices left, every entry beyond them is already
    unexpired, so what remains to be removed sits at the front. *)
Lemma wp_scan_down E now n s L t :
  ar_rep s L → no_freed (list_to_map L) → (n ≤ length L)%nat →
  (∀ i k p e, (n ≤ i)%nat → L !! i = Some (k, (p, e)) → is_expired now e = false) →
  wp (scan_down now n) (λ _ s' _,
    ∃ L', ar_rep s' L' ∧ list_to_map L' = purge_all now (list_to_map L)) E s t.
Proof.
  revert s L t. induction n as [|n IH]; intros s L t Hrep Hnf Hn Htail; simpl.
  { wp_steps. exists L. split; [done|]. symmetry. apply map_filter_id.
    intros k [p e] [i Hi]%elem_of_list_to_map_2%list_elem_of_lookup.
    eapply Htail; [|done]. lia. }
  pose proof Hrep as (m & -> & Hm & HL & Hsz).
  destruct (lookup_lt_is_Some_2 L n) as [[k [p e]] Hx]; [lia|].
  wp_steps. eapply wp_get_item; [by apply Hm|lia|]. simpl.
  pose proof (assoc_lookup L _ k _ HL Hx) as Hk.
  destruct (is_expired now e) eqn:He; wp_steps.
  - eapply wp_mono; [eapply array_del_rep; [done|done|by eapply Hnf]|].
    intros r s' t' (-> & -> & Hr). wp_steps.
    destruct (assoc_delete L (swap_remove n L) k (p, e)) as [_ Hd];
      [done|by apply swap_remove_perm|].
    destruct (last_lt L n _ Hx) as (y & Hy & Hlt).
    eapply wp_mono; [apply (IH s' (swap_remove n L)); [done| | |]|].
    + rewrite Hd. intros k' p' e' [? ?]%lookup_delete_Some. by eapply Hnf.
    + rewrite swap_remove_length. lia.
    + intros i k' p' e' Hi Hl. apply lookup_lt_Some in Hl as Hl'.
      rewrite swap_remove_length in Hl'. rewrite (swap_remove_lookup _ _ _ y) in Hl by done.
      case_decide; simplify_eq; [|eapply Htail; [|done]; lia].
      rewrite last_lookup in Hy. eapply (Htail (pred (length L))); [lia|done].
    + intros _ s'' t'' (L' & Hr' & Hl'). exists L'. split; [done|]. rewrite Hl', Hd.
      apply map_eq. intros k'. rewrite !purge_all_lookup.
      destruct (decide (k = k')) as [<-|]; simplify_map_eq; [by rewrite He|done].
  - apply IH; [done..|lia|]. intros i k' p' e' Hi Hl.
    destruct (decide (i = n)) as [->|]; [congruence|]. eapply Htail; [|done]. lia.
Qed.

Lemma array_scan_spec E s t :
  ar_wf s →
  wp kvs_array_scan_expired (λ _ s' _,
    (∃ L, ar_rep s' L) ∧ ar_abs s' = purge_all (clock E t) (ar_abs s)) E s t.
Proof.
  intros [[L HrepL] Hnf]. rewrite (ar_rep_abs s L HrepL) in *.
  pose proof HrepL as (m & -> & Hm & HL & Hsz).
  unfold kvs_array_scan_expired. wp_steps. simpl.
  eapply wp_mono; [eapply wp_scan_down; [done..|]|].
  - intros i k p e Hi Hl. apply lookup_lt_Some in Hl. lia.
  - intros _ s' t' (L' & Hr & Hu). split; [by eauto|]. by rewrite (ar_rep_abs _ _ Hr).
Qed.

(** Creation gives the empty dictionary; destruction releases everything once. *)
Lemma array_create_spec E t :
  wp kvs_array_create (λ r s' _,
    if malloc_ok E t then r = 0 ∧ ar_inv s' ∧ ar_abs s' = ∅
    else r = -1 ∧ s' = global_array0) E global_array0 t.
Proof.
  unfold kvs_array_create. wp_steps. simpl. wp_steps.
  destruct (malloc_ok E t); simpl; wp_steps; [|done].
  split; [done|]. split; [|done]. split; [|done].
  exists []. exists ∅. split_and!; [done|done|constructor|done].
Qed.

Lemma wp_destory_items E m L n o t :
  (∀ i x, (o ≤ i)%nat → L !! i = Some x → m !! i = Some (item_of x)) →
  no_freed (list_to_map L) → NoDup L.*1 → Z.of_nat (length L) ≤ KVS_ARRAY_SIZE →
  (o + n = length L)%nat →
  wp (destory_items n o) (λ _ s' _, ∃ m', s' = KArray (Some m') (length L)) E
    (KArray (Some m) (length L)) t.
Proof.
  intros Hm Hnf HL Hsz. revert m o Hm. induction n as [|n IH]; intros m o Hm Ho; simpl.
  { wp_steps. eauto. }
  destruct (lookup_lt_is_Some_2 L o) as [[k [p e]] Hx]; [lia|].
  wp_steps. eapply wp_get_item; [by apply Hm|lia|]. simpl. wp_steps.
  pose proof (assoc_lookup L _ k _ HL Hx) as Hk.
  assert (∀ Q s, Q tt s t → wp (free_if p) Q E s t) as Hfree.
  { intros Q s HQ. destruct p; try done. by destruct (Hnf _ _ _ Hk). }
  apply Hfree. wp_steps. apply wp_put_item; [lia|]. wp_steps. apply IH; [|lia].
  intros i x Hi Hl. rewrite lookup_insert_ne by lia. apply Hm; [lia|done].
Qed.

(** Destruction frees every key and value exactly once, whatever the history. *)
Lemma array_destory_spec E s t :
  ar_wf s → wp kvs_array_destory (λ _ s' _, s' = global_array0) E s t.
Proof.
  intros [[L HrepL] Hnf]. rewrite (ar_rep_abs s L HrepL) in *.
  destruct HrepL as (m & -> & Hm & HL & Hsz).
  unfold kvs_array_destory, set_total. wp_steps. simpl. wp_steps. simpl.
  eapply wp_mono; [eapply wp_destory_items; [|done..|lia]|].
  - intros i x _. apply Hm.
  - intros _ s' t' [m' ->]. by wp_steps.
Qed.

(** ** The array is an engine *)

Lemma ar_inv_intro s m : (∃ L, ar_rep s L) → ar_abs s = m → clean m → ar_inv s.
Proof. intros Hr <- Hc. by split. Qed.

#[global] Program Instance array_engine : Engine kvs_array := {|
  e_inv := ar_inv;
  e_abs := ar_abs;
  e_key := λ _, True;
  e_time := λ _, True;
  e_room := λ s, Z.of_nat (ar_total s) < KVS_ARRAY_SIZE
|}.
Next Obligation. by intros s [_ ?]. Qed.
Next Obligation. done. Qed.
Next Obligation.
  intros E s t k v e Hoom Hinv _ _ Hroom.
  eapply wp_mono; [by apply array_set_spec; [apply ar_inv_wf|]|].
  simpl. intros r s' _ [Hr Hm]. rewrite !Hoom in Hm. destruct Hinv as [_ Hc].
  destruct (ar_abs s !! k) as [[??]|]; destruct Hm as [-> Hm];
    eauto using ar_inv_intro, clean_insert.
Qed.
Next Obligation.
  intros E s t k Hoom Hinv _. eapply wp_mono; [by apply array_get_spec, ar_inv_wf|].
  simpl. intros r s' _ (Hr & -> & Hm). destruct Hinv as [_ Hc].
  eauto using ar_inv_intro, clean_purge.
Qed.
Next Obligation.
  intros E s t k Hoom Hinv _. eapply wp_mono; [by apply array_del_spec, ar_inv_wf|].
  simpl. intros r s' _ (Hr & -> & Hm). destruct Hinv as [_ Hc].
  eauto using ar_inv_intro, clean_delete.
Qed.
Next Obligation.
  intros E s t k v Hoom Hinv _. eapply wp_mono; [by apply array_mod_spec, ar_inv_wf|].
  simpl. intros r s' _ [Hr Hm]. rewrite !Hoom in Hm. destruct (id Hinv) as [_ Hc].
  destruct (ar_abs s !! k) as [[p e]|] eqn:Hk; destruct Hm as [Hr' Hm].
  - split; [eauto using ar_inv_intro, clean_insert|]. split; [lia|].
    destruct (is_expired _ e) eqn:He; [|done]. rewrite Hm. intros k'. unfold live.
    destruct (decide (k = k')) as [<-|]; simplify_map_eq; [by rewrite He|done].
  - subst s'. split; [done|]. split; [lia|done].
Qed.
Next Obligation.
  intros E s t k Hoom Hinv _. eapply wp_mono; [by apply array_exist_spec, ar_inv_wf|].
  simpl. intros r s' _ [-> ->]. eauto.
Qed.
Next Obligation.
  intros E s t k e Hoom Hinv _ _. eapply wp_mono; [by apply array_expire_spec, ar_inv_wf|].
  simpl. intros r s' _ (Hr & -> & Hm). destruct Hinv as [_ Hc]. split; [|done].
  eapply ar_inv_intro; [done..|]. unfold spec_expire.
  destruct (ar_abs s !! k) as [[??]|] eqn:?; [destruct (e =? 0)|]; eauto with kvs.
Qed.
Next Obligation.
  intros E s t k Hoom Hinv _ Hr. by apply array_ttl_spec; [apply ar_inv_wf|].
Qed.
Next Obligation.
  intros E s t Hoom Hinv. eapply wp_mono; [by apply array_scan_spec, ar_inv_wf|].
  simpl. intros r s' _ (Hr & Hm). destruct Hinv as [_ Hc].
  eauto using ar_inv_intro, clean_purge_all.
Qed.

(** ** Theorems *)

(** An array with one key. *)
Definition array1 : kvs_array :=
  after (_r ← kvs_array_create; kvs_array_set (PStr (lit "k")) (PStr (lit "v")) (-1)) global_array0.

Lemma array1_ok : ar_inv array1 ∧ ar_abs array1 = {[lit "k" := (PStr (lit "v"), -1)]}.
Proof.
  apply (wp_after _ (λ s, ar_inv s ∧ ar_abs s = {[lit "k" := (PStr (lit "v"), -1)]})). wp_steps.
  eapply wp_mono; [apply array_create_spec|]. simpl. intros r s t (_ & Hi & He).
  eapply wp_mono; [apply array_set_spec; [by apply ar_inv_wf|]|].
  - simpl. destruct Hi as [[L HL] _]. rewrite (ar_rep_abs s L HL) in He.
    destruct HL as (m & -> & _ & HL & _). destruct L as [|[k x] L]; [done|].
    apply (f_equal (λ m : dict, m !! k)) in He. simpl in He. by rewrite lookup_insert_eq in He.
  - rewrite He. simpl. intros r' s' _ (Hi' & _ & Ha).
    split; [|done]. eapply ar_inv_intro; [done..|]. apply clean_insert, clean_empty.
Qed.

(** Kvs_array_set on every branch. A full table answers -1 and changes
    nothing, even for a key that is there. Otherwise an existing key gets the new
    value and expiry in place, a new key is added; when malloc fails a new key is
    not added, and an existing key is left without a value. *)
Theorem array_set_outcome E s t k v e :
  ar_wf s →
  wp (kvs_array_set (PStr k) (PStr v) e) (λ r s' _,
    (∃ L, ar_rep s' L) ∧
    if Z.of_nat (ar_total s) >=? KVS_ARRAY_SIZE then r = -1 ∧ s' = s else
    match ar_abs s !! k with
    | Some (_, e0) =>
        if malloc_ok E t then r = 0 ∧ ar_abs s' = <[k := (PStr v, e)]> (ar_abs s)
        else r = -2 ∧ ar_abs s' = <[k := (PNull, e0)]> (ar_abs s)
    | None =>
        if malloc_ok E t && malloc_ok E (S t)
        then r = 0 ∧ ar_abs s' = <[k := (PStr v, e)]> (ar_abs s)
        else r = -2 ∧ s' = s
    end) E s t.
Proof.
  intros Hs. destruct (Z.of_nat (ar_total s) >=? KVS_ARRAY_SIZE) eqn:Hf.
  - unfold kvs_array_set. apply wp_arg2. wp_steps. rewrite Hf. wp_steps. by destruct Hs.
  - apply array_set_spec; [done|]. rewrite Z.geb_leb in Hf. to_prop. done.
Qed.

Lemma array_set_outcome_witness :
  wp (kvs_array_set (PStr (lit "k")) (PStr (lit "w")) 7) (λ r s' _,
    (∃ L, ar_rep s' L) ∧ r = 0 ∧ ar_abs s' = <[lit "k" := (PStr (lit "w"), 7)]> (ar_abs array1)) calm array1 0.
Proof.
  destruct array1_ok as [Hi Ha].
  pose proof (array_set_outcome calm array1 0 (lit "k") (lit "w") 7 (ar_inv_wf _ Hi)) as H.
  eapply wp_mono; [exact H|]. intros r s' t [HL Hr]. split; [done|]. rewrite Ha in *. exact Hr.
Defined.

(** Kvs_array_get returns the value of a key that is there and has not
    expired, NULL otherwise; an expired key is removed, and no other. *)
Theorem array_get_live E s t k :
  ar_wf s →
  wp (kvs_array_get (PStr k)) (λ r s' _,
    (∃ L, ar_rep s' L) ∧
    r = default PNull (live (clock E t) (ar_abs s) k) ∧
    ar_abs s' = purge (clock E t) k (ar_abs s)) E s t.
Proof. apply array_get_spec. Qed.

Lemma array_get_live_witness :
  wp (kvs_array_get (PStr (lit "k"))) (λ r s' _,
    (∃ L, ar_rep s' L) ∧ r = PStr (lit "v") ∧ ar_abs s' = ar_abs array1) calm array1 0.
Proof.
  destruct array1_ok as [Hi Ha].
  eapply wp_mono; [exact (array_get_live calm array1 0 (lit "k") (ar_inv_wf _ Hi))|].
  intros r s' t (HL & Hr & Hs). rewrite Ha in *. done.
Defined.

(** Kvs_array_del, which moves the last entry into the gap, removes exactly
    the key: every other key keeps its value and expiry, and the entries stay
    distinct. *)
Theorem array_del_exact E s t k :
  ar_wf s →
  wp (kvs_array_del (PStr k)) (λ r s' _,
    (∃ L, ar_rep s' L) ∧ r = (if ar_abs s !! k then 0 else 1) ∧
    ar_abs s' = delete k (ar_abs s)) E s t.
Proof. apply array_del_spec. Qed.

Lemma array_del_exact_witness :
  wp (kvs_array_del (PStr (lit "k"))) (λ r s' _,
    (∃ L, ar_rep s' L) ∧ r = 0 ∧ ar_abs s' = delete (lit "k") (ar_abs array1)) calm array1 0.
Proof.
  destruct array1_ok as [Hi Ha].
  eapply wp_mono; [exact (array_del_exact calm array1 0 (lit "k") (ar_inv_wf _ Hi))|].
  intros r s' t (HL & Hr & Hs). rewrite Ha in *. done.
Defined.

(** Kvs_array_mod writes the new value and keeps the expiry; when malloc
    fails it answers -2 and leaves the old value's pointer, already freed, in the
    table. *)
Theorem array_mod_outcome E s t k v :
  ar_wf s →
  wp (kvs_array_mod (PStr k) (PStr v)) (λ r s' _,
    (∃ L, ar_rep s' L) ∧
    match ar_abs s !! k with
    | Some (_, e) =>
        if malloc_ok E t then r = 0 ∧ ar_abs s' = <[k := (PStr v, e)]> (ar_abs s)
        else r = -2 ∧ ar_abs s' = <[k := (PFreed, e)]> (ar_abs s)
    | None => 0 < r ∧ s' = s
    end) E s t.
Proof. apply array_mod_spec. Qed.

Lemma array_mod_outcome_witness :
  wp (kvs_array_mod (PStr (lit "k")) (PStr (lit "w"))) (λ r s' _,
    (∃ L, ar_rep s' L) ∧ r = 0 ∧ ar_abs s' = <[lit "k" := (PStr (lit "w"), -1)]> (ar_abs array1)) calm array1 0.
Proof.
  destruct array1_ok as [Hi Ha].
  eapply wp_mono; [exact (array_mod_outcome calm array1 0 (lit "k") (lit "w") (ar_inv_wf _ Hi))|].
  intros r s' t (HL & Hr). rewrite Ha in *. done.
Defined.
