(* ===== verification/KvsHash.v ===== *)
(** * The hash engine (kvs_hash.c)

    A fixed table of MAX_TABLE_SIZE chains. A chain is a singly linked list that
    only its slot refers to, so it is modelled by the list of its nodes. A slot
    that [kvs_hash_create] took from malloc and nobody wrote is [None]. *)

From S2P Require Import Prelude KvSpec.

(** ** Data *)

(** struct hashnode_s, without its next pointer. *)
Record hashnode := HNode {
  hn_key    : cptr;
  hn_value  : cptr;
  hn_expire : Z
}.

Definition MAX_TABLE_SIZE : Z := 1024.

(** The field [hashnode_t **nodes]. *)
Inductive htable :=
| TNull
| TFreed
| TLive (slots : list (option (list hashnode))).

(** struct hashtable_s *)
Record kvs_hash := KHash {
  h_nodes     : htable;
  h_max_slots : Z;
  h_count     : Z
}.

Definition global_hash0 : kvs_hash := KHash TNull 0 0.

(** ** The hash function: the sum of the signed characters, modulo the size *)

Fixpoint hash_loop (sum : Z) (key : bytes) : M kvs_hash Z :=
  match key with
  | [] => mret sum
  | c :: key' => sum' ← checked32 (sum + schar c); hash_loop sum' key'
  end.

Definition _hash (key : bytes) (size : Z) : M kvs_hash Z :=
  sum ← hash_loop 0 key; mret (Z.rem sum size).

(** ** Slots *)

(** hash->nodes[idx] *)
Definition get_slot (idx : Z) : M kvs_hash (list hashnode) :=
  tab ← gets h_nodes;
  match tab with
  | TNull => fail NullDeref
  | TFreed => fail UseAfterFree
  | TLive slots =>
      if idx <? 0 then fail OutOfBounds else
      match slots !! Z.to_nat idx with
      | None => fail OutOfBounds
      | Some None => fail Uninitialised
      | Some (Some chain) => mret chain
      end
  end.

(** hash->nodes[idx] = chain, or a change inside the chain. *)
Definition put_slot (idx : Z) (chain : list hashnode) : M kvs_hash unit :=
  tab ← gets h_nodes;
  match tab with
  | TNull => fail NullDeref
  | TFreed => fail UseAfterFree
  | TLive slots =>
      if (idx <? 0) || (Z.of_nat (length slots) <=? idx) then fail OutOfBounds
      else modify (λ s, KHash (TLive (<[Z.to_nat idx := Some chain]> slots))
                              (h_max_slots s) (h_count s))
  end.

Definition add_count (d : Z) : M kvs_hash unit :=
  modify (λ s, KHash (h_nodes s) (h_max_slots s) (h_count s + d)).

(** The walk along a chain: the position of the first node with the key. *)
Fixpoint chain_find (i : nat) (key : bytes) (chain : list hashnode) : M kvs_hash (option nat) :=
  match chain with
  | [] => mret None
  | node :: chain' =>
      k ← read_str (hn_key node);
      if strcmp k key =? 0 then mret (Some i) else chain_find (S i) key chain'
  end.

(** ** Operations *)

Definition _create_node (key value : bytes) : M kvs_hash (option hashnode) :=
  node ← kvs_malloc;
  if negb node then mret None else
  kcopy ← kvs_malloc;
  if negb kcopy then mret None else
  kvalue ← kvs_malloc;
  if negb kvalue then mret None else
  mret (Some (HNode (PStr key) (PStr value) 0)).

Definition kvs_hash_create : M kvs_hash Z :=
  ok ← kvs_malloc;
  if negb ok then
    modify (λ s, KHash TNull (h_max_slots s) (h_count s));; mret (-1)
  else
    z ← fresh_zeroed;
    modify (λ _, KHash (TLive (replicate (Z.to_nat MAX_TABLE_SIZE)
                                 (if z : bool then Some [] else None)))
                       MAX_TABLE_SIZE 0);;
    mret 0.

Fixpoint free_chain (chain : list hashnode) : M kvs_hash unit :=
  match chain with
  | [] => mret tt
  | tmp :: chain' =>
      kvs_free (hn_key tmp);;
      kvs_free (hn_value tmp);;
      free_chain chain'
  end.

(** for (i = 0; i < max_slots; i++), with [n] slots left. *)
Fixpoint destory_slots (n : nat) (i : Z) : M kvs_hash unit :=
  match n with
  | O => mret tt
  | S n' =>
      chain ← get_slot i;
      free_chain chain;;
      put_slot i [];;
      destory_slots n' (i + 1)
  end.

Definition kvs_hash_destory : M kvs_hash unit :=
  n ← gets h_max_slots;
  destory_slots (Z.to_nat n) 0;;
  modify (λ s, KHash (match h_nodes s with TNull => TNull | _ => TFreed end)
                     (h_max_slots s) (h_count s)).

Definition kvs_hash_set (key value : cptr) (expire_ms : Z) : M kvs_hash Z :=
  arg2 (-1) key value (λ key value,
    idx ← _hash key MAX_TABLE_SIZE;
    chain ← get_slot idx;
    found ← chain_find 0 key chain;
    match found with
    | Some i =>
        match chain !! i with
        | None => fail OutOfBounds
        | Some node =>
            kvs_free (hn_value node);;
            ok ← kvs_malloc;
            if negb ok then
              put_slot idx (<[i := HNode (hn_key node) PNull (hn_expire node)]> chain);;
              mret (-2)
            else
              put_slot idx (<[i := HNode (hn_key node) (PStr value) expire_ms]> chain);;
              mret 0
        end
    | None =>
        new_node ← _create_node key value;
        match new_node with
        | None => mret (-2)
        | Some node =>
            put_slot idx (HNode (hn_key node) (hn_value node) expire_ms :: chain);;
            add_count 1;;
            mret 0
        end
    end).

(** Unlinking the node at position [i] and freeing it. *)
Definition unlink (idx : Z) (chain : list hashnode) (i : nat) (node : hashnode) : M kvs_hash unit :=
  put_slot idx (delete i chain);;
  kvs_free (hn_key node);;
  kvs_free (hn_value node);;
  add_count (-1).

Definition kvs_hash_get (key : cptr) : M kvs_hash cptr :=
  arg1 PNull key (λ key,
    idx ← _hash key MAX_TABLE_SIZE;
    chain ← get_slot idx;
    now ← kvs_current_time_ms;
    found ← chain_find 0 key chain;
    match found with
    | Some i =>
        match chain !! i with
        | None => fail OutOfBounds
        | Some node =>
            if is_expired now (hn_expire node)
            then unlink idx chain i node;; mret PNull
            else mret (hn_value node)
        end
    | None => mret PNull
    end).

Definition kvs_hash_count : M kvs_hash Z := gets h_count.

Definition kvs_hash_del (key : cptr) : M kvs_hash Z :=
  arg1 (-2) key (λ key,
    idx ← _hash key MAX_TABLE_SIZE;
    chain ← get_slot idx;
    found ← chain_find 0 key chain;
    match found with
    | Some i =>
        match chain !! i with
        | None => fail OutOfBounds
        | Some node => unlink idx chain i node;; mret 0
        end
    | None => mret 1
    end).

(** The value argument is not checked for NULL. *)
Definition kvs_hash_mod (key value : cptr) : M kvs_hash Z :=
  arg1 (-1) key (λ k,
    idx ← _hash k MAX_TABLE_SIZE;
    chain ← get_slot idx;
    found ← chain_find 0 k chain;
    match found with
    | None => mret 1
    | Some i =>
        match chain !! i with
        | None => fail OutOfBounds
        | Some node =>
            now ← kvs_current_time_ms;
            if is_expired now (hn_expire node) then kvs_hash_del key;; mret 1
            else
              kvs_free (hn_value node);;
              v ← read_str value;
              ok ← kvs_malloc;
              if negb ok then
                put_slot idx (<[i := HNode (hn_key node) PFreed (hn_expire node)]> chain);;
                mret (-2)
              else
                put_slot idx (<[i := HNode (hn_key node) (PStr v) (hn_expire node)]> chain);;
                mret 0
        end
    end).

Definition kvs_hash_exist (key : cptr) : M kvs_hash Z :=
  arg1 (-1) key (λ key,
    idx ← _hash key MAX_TABLE_SIZE;
    chain ← get_slot idx;
    now ← kvs_current_time_ms;
    found ← chain_find 0 key chain;
    match found with
    | Some i =>
        match chain !! i with
        | None => fail OutOfBounds
        | Some node => if is_expired now (hn_expire node) then mret 1 else mret 0
        end
    | None => mret 1
    end).

Definition kvs_hash_expire (key : cptr) (expire_ms : Z) : M kvs_hash Z :=
  arg1 (-1) key (λ k,
    idx ← _hash k MAX_TABLE_SIZE;
    chain ← get_slot idx;
    found ← chain_find 0 k chain;
    match found with
    | Some i =>
        match chain !! i with
        | None => fail OutOfBounds
        | Some node =>
            if expire_ms =? 0 then kvs_hash_del key
            else
              put_slot idx (<[i := HNode (hn_key node) (hn_value node) expire_ms]> chain);;
              mret 0
        end
    | None => mret 1
    end).

Definition kvs_hash_ttl (key : cptr) : M kvs_hash Z :=
  arg1 (-2) key (λ key,
    idx ← _hash key MAX_TABLE_SIZE;
    chain ← get_slot idx;
    found ← chain_find 0 key chain;
    match found with
    | Some i =>
        match chain !! i with
        | None => fail OutOfBounds
        | Some node =>
            if hn_expire node =? -1 then mret (-1)
            else
              now ← kvs_current_time_ms;
              ttl ← checked64 (hn_expire node - now);
              mret (clamp_ttl ttl)
        end
    | None => mret (-2)
    end).

(** The inner loop of the scan: the chain without its expired nodes. *)
Fixpoint sweep (now : Z) (chain : list hashnode) : M kvs_hash (list hashnode) :=
  match chain with
  | [] => mret []
  | node :: chain' =>
      if is_expired now (hn_expire node) then
        kvs_free (hn_key node);;
        kvs_free (hn_value node);;
        add_count (-1);;
        sweep now chain'
      else
        rest ← sweep now chain';
        mret (node :: rest)
  end.

Fixpoint sweep_slots (now : Z) (n : nat) (i : Z) : M kvs_hash unit :=
  match n with
  | O => mret tt
  | S n' =>
      chain ← get_slot i;
      chain' ← sweep now chain;
      put_slot i chain';;
      sweep_slots now n' (i + 1)
  end.

Definition kvs_hash_scan_expired : M kvs_hash unit :=
  now ← kvs_current_time_ms;
  n ← gets h_max_slots;
  sweep_slots now (Z.to_nat n) 0.

#[global] Arguments kvs_hash_del : simpl never.
#[global] Arguments MAX_TABLE_SIZE : simpl never.

#[global] Instance hash_ops : EngineOps kvs_hash := {|
  e_set := kvs_hash_set;
  e_get := kvs_hash_get;
  e_del := kvs_hash_del;
  e_mod := kvs_hash_mod;
  e_exist := kvs_hash_exist;
  e_expire := kvs_hash_expire;
  e_ttl := kvs_hash_ttl;
  e_scan := kvs_hash_scan_expired
|}.

(** ** The hash function on ASCII keys *)

(** The keys the table can hold: 7-bit characters, and not so many that the sum
    of an [int] overflows. *)
Definition ascii_key (k : bytes) : Prop :=
  Forall (λ c, uchar c < 128) k ∧ Z.of_nat (length k) ≤ 16777216.

Definition hash_sum (k : bytes) : Z := foldr (λ c z, schar c + z) 0 k.

(** The slot of a key. *)
Definition key_slot (k : bytes) : nat := Z.to_nat (Z.rem (hash_sum k) MAX_TABLE_SIZE).

Lemma hash_sum_bound k :
  Forall (λ c, uchar c < 128) k → 0 ≤ hash_sum k ≤ 127 * Z.of_nat (length k).
Proof.
  induction 1 as [|c k Hc Hk IH]; simpl; [lia|].
  pose proof (uchar_range c). unfold schar.
  replace (uchar c <? 128) with true by lia. lia.
Qed.

Lemma key_slot_range k : ascii_key k → (key_slot k < 1024)%nat.
Proof.
  intros [Ha _]. pose proof (hash_sum_bound k Ha). unfold key_slot, MAX_TABLE_SIZE.
  pose proof (Z.rem_bound_pos (hash_sum k) 1024). lia.
Qed.

Lemma wp_hash_loop k acc Q E s t :
  Forall (λ c, uchar c < 128) k → 0 ≤ acc → acc + 127 * Z.of_nat (length k) ≤ INT_MAX →
  Q (acc + hash_sum k) s t → wp (hash_loop acc k) Q E s t.
Proof.
  intros Hk. revert acc. induction Hk as [|c k Hc Hk IH]; intros acc H0 Hb HQ; simpl.
  - wp_steps. simpl in HQ. by rewrite Z.add_0_r in HQ.
  - simpl in HQ, Hb. pose proof (uchar_range c).
    assert (schar c = uchar c) as Hs by (unfold schar; by replace (uchar c <? 128) with true by lia).
    wp_steps. apply wp_checked32; [unfold INT_MIN; lia|]. wp_steps.
    apply IH; [lia|lia|]. by rewrite <-Z.add_assoc.
Qed.

Lemma wp_hash k Q E s t :
  ascii_key k → Q (Z.of_nat (key_slot k)) s t → wp (_hash k MAX_TABLE_SIZE) Q E s t.
Proof.
  intros [Ha Hlen] HQ. unfold _hash. wp_steps.
  apply wp_hash_loop; [done|lia|unfold INT_MAX; lia|]. wp_steps.
  rewrite Z.add_0_l. pose proof (hash_sum_bound k Ha).
  unfold key_slot, MAX_TABLE_SIZE in *. pose proof (Z.rem_bound_pos (hash_sum k) 1024).
  rewrite Z2Nat.id in HQ by lia. done.
Qed.

(** ** The representation invariant *)

Definition node_of (x : bytes * entry) : hashnode := HNode (PStr x.1) x.2.1 x.2.2.

Definition slots_of (B : list (list (bytes * entry))) : list (option (list hashnode)) :=
  (λ l : list (bytes * entry), Some (node_of <$> l)) <$> B.

(** Distinct keys, each in the slot it hashes to. *)
Definition buckets_ok (B : list (list (bytes * entry))) : Prop :=
  length B = 1024%nat ∧ NoDup (concat B).*1 ∧
  ∀ i l k x, B !! i = Some l → (k, x) ∈ l → key_slot k = i.

(** A table of buckets, with its count. *)
Definition hstate (B : list (list (bytes * entry))) : kvs_hash :=
  KHash (TLive (slots_of B)) MAX_TABLE_SIZE (Z.of_nat (length (concat B))).

Definition ha_rep (s : kvs_hash) (B : list (list (bytes * entry))) : Prop :=
  s = hstate B ∧ buckets_ok B.

Definition entry_of_node (n : hashnode) : option (bytes * entry) :=
  match hn_key n with
  | PStr k => Some (k, (hn_value n, hn_expire n))
  | _ => None
  end.

(** The dictionary a hash table stands for. *)
Definition ha_abs (s : kvs_hash) : dict :=
  match h_nodes s with
  | TLive slots => list_to_map (concat ((λ o : option (list hashnode), omap entry_of_node (default [] o)) <$> slots))
  | _ => ∅
  end.

Definition ha_wf (s : kvs_hash) : Prop := (∃ B, ha_rep s B) ∧ no_freed (ha_abs s).
Definition ha_inv (s : kvs_hash) : Prop := (∃ B, ha_rep s B) ∧ clean (ha_abs s).

Lemma ha_inv_wf s : ha_inv s → ha_wf s.
Proof. intros [??]. split; [done|]. by apply clean_no_freed. Qed.

Lemma omap_node_of (l : list (bytes * entry)) : omap entry_of_node (node_of <$> l) = l.
Proof.
  induction l as [|[k [p e]] l IH]; [done|]. rewrite <-IH at 2. done.
Qed.

Lemma ha_abs_hstate B : ha_abs (hstate B) = list_to_map (concat B).
Proof.
  unfold ha_abs, hstate, slots_of. simpl. rewrite <-list_fmap_compose.
  do 2 f_equal. rewrite <-(list_fmap_id B) at 2. apply list_fmap_ext.
  intros i l _. simpl. apply omap_node_of.
Qed.

Lemma bucket_perm {A} (B : list (list A)) i l :
  B !! i = Some l →
  ∃ rest, concat B ≡ₚ l ++ rest ∧ ∀ l', concat (<[i := l']> B) ≡ₚ l' ++ rest.
Proof.
  intros Hi. apply list_elem_of_split_length in Hi as (B1 & B2 & -> & ->).
  exists (concat B1 ++ concat B2). split.
  - rewrite concat_app. simpl. solve_Permutation.
  - intros l'. rewrite insert_app_r_alt, Nat.sub_diag by lia. simpl.
    rewrite concat_app. simpl. solve_Permutation.
Qed.

Lemma elem_of_bucket {A} (B : list (list A)) x :
  x ∈ concat B → ∃ i l, B !! i = Some l ∧ x ∈ l.
Proof.
  intros Hx. apply list_elem_of_In, in_concat in Hx as (l & Hl & Hx).
  apply list_elem_of_In, list_elem_of_lookup in Hl as [i Hi].
  exists i, l. split; [done|]. by apply list_elem_of_In.
Qed.

(** A key is in the dictionary exactly when it is in its bucket. *)
Lemma bucket_lookup B (k : bytes) (l : list (bytes * entry)) :
  buckets_ok B → B !! key_slot k = Some l →
  (list_to_map (concat B) : dict) !! k = (list_to_map l : dict) !! k.
Proof.
  intros (_ & Hnd & Hslot) Hl. destruct (bucket_perm B _ l Hl) as (rest & Hp & _).
  assert (NoDup (l ++ rest).*1) as Hnd' by (by rewrite <-Hp).
  rewrite (list_to_map_proper _ _ Hnd Hp), list_to_map_app, lookup_union.
  destruct ((list_to_map l : dict) !! k) as [x|] eqn:Hk; [by apply union_Some_l|].
  rewrite left_id by apply _. apply not_elem_of_list_to_map.
  intros [[k' y] [-> Hy]]%list_elem_of_fmap. simpl in *.
  assert ((k', y) ∈ concat B) as (j & l' & Hj & Hin)%elem_of_bucket.
  { rewrite Hp. set_solver. }
  pose proof (Hslot _ _ _ _ Hj Hin) as <-. simplify_eq.
  rewrite fmap_app in Hnd'. apply NoDup_app in Hnd' as (_ & Hdisj & _).
  apply (Hdisj k'); apply list_elem_of_fmap; eexists; split; eauto; done.
Qed.

(** ** Access to the slots *)

Lemma wp_get_slot B c i (l : list (bytes * entry)) Q E t :
  B !! i = Some l →
  Q (node_of <$> l) (KHash (TLive (slots_of B)) MAX_TABLE_SIZE c) t →
  wp (get_slot (Z.of_nat i)) Q E (KHash (TLive (slots_of B)) MAX_TABLE_SIZE c) t.
Proof.
  intros Hi HQ. unfold get_slot. wp_steps. simpl.
  rewrite of_nat_ltb_0, Nat2Z.id.
  unfold slots_of at 1. rewrite list_lookup_fmap, Hi. by wp_steps.
Qed.

Lemma wp_put_slot B c i (l : list (bytes * entry)) Q E t :
  (i < length B)%nat →
  Q tt (KHash (TLive (slots_of (<[i := l]> B))) MAX_TABLE_SIZE c) t →
  wp (put_slot (Z.of_nat i) (node_of <$> l)) Q E (KHash (TLive (slots_of B)) MAX_TABLE_SIZE c) t.
Proof.
  intros Hi HQ. unfold put_slot. wp_steps. simpl.
  unfold slots_of at 1. rewrite length_fmap.
  rewrite of_nat_ltb_0, (proj2 (Z.leb_gt _ _)) by lia. simpl.
  wp_steps. rewrite Nat2Z.id. simpl. unfold slots_of in *. by rewrite list_fmap_insert in HQ.
Qed.

Lemma wp_chain_find (l : list (bytes * entry)) (k : bytes) o Q E s t :
  (∀ i x, l !! i = Some (k, x) → Q (Some (o + i)%nat) s t) →
  ((∀ i x, l !! i ≠ Some (k, x)) → Q None s t) →
  wp (chain_find o k (node_of <$> l)) Q E s t.
Proof.
  revert o. induction l as [|[k' x] l IH]; intros o HS HN; simpl.
  - wp_steps. by apply HN.
  - wp_steps. destruct (strcmp k' k =? 0) eqn:Hc; to_prop.
    + wp_steps. subst. specialize (HS 0%nat x eq_refl). by rewrite Nat.add_0_r in HS.
    + apply IH.
      * intros i y Hi. replace (S o + i)%nat with (o + S i)%nat by lia. by eapply (HS (S i)).
      * intros Hno. apply HN. intros [|i] y Hi; [simpl in Hi; congruence|by eapply Hno].
Qed.

(** ** The three ways a bucket changes *)

Lemma buckets_insert B i l' k x :
  buckets_ok B → B !! i = Some l' → key_slot k = i → (∀ j y, l' !! j ≠ Some (k, y)) →
  buckets_ok (<[i := (k, x) :: l']> B) ∧
  list_to_map (concat (<[i := (k, x) :: l']> B)) = <[k := x]> (list_to_map (concat B) : dict) ∧
  length (concat (<[i := (k, x) :: l']> B)) = S (length (concat B)).
Proof.
  intros (Hlen & Hnd & Hslot) Hi Hk Hno.
  destruct (bucket_perm B i l' Hi) as (rest & Hp & Hp').
  specialize (Hp' ((k, x) :: l')). simpl in Hp'.
  assert (concat (<[i := (k, x) :: l']> B) ≡ₚ (k, x) :: concat B) as Hq by (by rewrite Hp', Hp).
  assert (NoDup ((k, x) :: concat B).*1) as Hnd2.
  { simpl. apply NoDup_cons. split; [|done].
    assert ((list_to_map (concat B) : dict) !! k = None) as Hn.
    { subst i. rewrite (bucket_lookup B k l') by done. by apply assoc_lookup_None. }
    by apply not_elem_of_list_to_map in Hn. }
  assert (NoDup (concat (<[i := (k, x) :: l']> B)).*1) as Hnd1 by (by rewrite Hq).
  split_and!.
  - split_and!; [by rewrite length_insert|done|].
    intros j l k' y [(-> & <- & ?)|[? ?]]%list_lookup_insert_Some Hin; [|by eauto].
    apply elem_of_cons in Hin as [[= -> ->]|Hin]; eauto.
  - by rewrite (list_to_map_proper _ _ Hnd1 Hq).
  - by rewrite Hq.
Qed.

Lemma buckets_update B i l j k x y :
  buckets_ok B → B !! i = Some l → l !! j = Some (k, x) →
  buckets_ok (<[i := <[j := (k, y)]> l]> B) ∧
  list_to_map (concat (<[i := <[j := (k, y)]> l]> B)) = <[k := y]> (list_to_map (concat B) : dict) ∧
  length (concat (<[i := <[j := (k, y)]> l]> B)) = length (concat B).
Proof.
  intros (Hlen & Hnd & Hslot) Hi Hj.
  destruct (bucket_perm B i l Hi) as (rest & Hp & Hp').
  specialize (Hp' (<[j := (k, y)]> l)).
  rewrite <-insert_app_l in Hp' by (by eapply lookup_lt_Some).
  assert (NoDup (l ++ rest).*1) as Hnd2 by (by rewrite <-Hp).
  assert ((l ++ rest) !! j = Some (k, x)) as Hj2 by (by apply lookup_app_l_Some).
  assert (NoDup (concat (<[i := <[j := (k, y)]> l]> B)).*1) as Hnd1.
  { rewrite Hp'. by erewrite assoc_insert_keys. }
  split_and!.
  - split_and!; [by rewrite length_insert|done|].
    intros j' l2 k' z [(-> & <- & ?)|[? ?]]%list_lookup_insert_Some Hin; [|by eauto].
    apply list_elem_of_lookup in Hin as [o Ho].
    apply list_lookup_insert_Some in Ho as [(-> & [= <- <-] & ?)|[? Ho]].
    + eapply Hslot; [done|]. by eapply list_elem_of_lookup_2.
    + eapply Hslot; [done|]. by eapply list_elem_of_lookup_2.
  - rewrite (list_to_map_proper _ _ Hnd1 Hp'), (list_to_map_proper _ _ Hnd Hp).
    by eapply assoc_insert.
  - by rewrite Hp', Hp, length_insert.
Qed.

Lemma buckets_delete B i l j k x :
  buckets_ok B → B !! i = Some l → l !! j = Some (k, x) →
  buckets_ok (<[i := delete j l]> B) ∧
  list_to_map (concat (<[i := delete j l]> B)) = delete k (list_to_map (concat B) : dict) ∧
  S (length (concat (<[i := delete j l]> B))) = length (concat B).
Proof.
  intros (Hlen & Hnd & Hslot) Hi Hj.
  destruct (bucket_perm B i l Hi) as (rest & Hp & Hp').
  specialize (Hp' (delete j l)).
  assert (concat B ≡ₚ (k, x) :: concat (<[i := delete j l]> B)) as Hq.
  { rewrite Hp, Hp'. by rewrite (delete_Permutation l j (k, x) Hj) at 1. }
  destruct (assoc_delete _ _ _ _ Hnd Hq) as [Hnd1 Hd].
  split_and!; [|done|by rewrite Hq].
  split_and!; [by rewrite length_insert|done|].
  intros j' l2 k' z [(-> & <- & ?)|[? ?]]%list_lookup_insert_Some Hin; [|by eauto].
  eapply (Hslot _ _ k' z); [done|]. rewrite (delete_Permutation l j (k, x) Hj). by right.
Qed.

(** The same changes as the code makes them, on the nodes. *)
Section changes.
Context (E : env) (B : list (list (bytes * entry))) (i : nat) (l : list (bytes * entry)).
Hypothesis HB : buckets_ok B.
Hypothesis Hi : B !! i = Some l.

Let Hlt : (i < length B)%nat.
Proof. by eapply lookup_lt_Some. Qed.

Lemma wp_bucket_update j k x p e Q t :
  l !! j = Some (k, x) →
  (∀ s', ha_rep s' (<[i := <[j := (k, (p, e))]> l]> B) →
    ha_abs s' = <[k := (p, e)]> (ha_abs (hstate B)) → Q tt s' t) →
  wp (put_slot (Z.of_nat i) (<[j := HNode (PStr k) p e]> (node_of <$> l))) Q E (hstate B) t.
Proof using HB Hi Hlt.
  intros Hj HQ. destruct (buckets_update B i l j k x (p, e)) as (Hok & Hm & Hlen); [done..|].
  change (HNode (PStr k) p e) with (node_of (k, (p, e))).
  rewrite <-(list_fmap_insert node_of). apply wp_put_slot; [done|].
  apply HQ; [by split; [unfold hstate; rewrite Hlen|]|].
  rewrite ha_abs_hstate, <-Hm. unfold ha_abs. simpl. apply ha_abs_hstate.
Qed.

Lemma wp_bucket_cons {A} (m : M kvs_hash A) k p e Q t :
  key_slot k = i → (∀ j y, l !! j ≠ Some (k, y)) →
  (∀ s', ha_rep s' (<[i := (k, (p, e)) :: l]> B) →
    ha_abs s' = <[k := (p, e)]> (ha_abs (hstate B)) → wp m Q E s' t) →
  wp (put_slot (Z.of_nat i) (HNode (PStr k) p e :: (node_of <$> l)))
    (λ _ s t, wp (add_count 1;; m) Q E s t) E (hstate B) t.
Proof using HB Hi Hlt.
  intros Hk Hno HQ. destruct (buckets_insert B i l k (p, e)) as (Hok & Hm & Hlen); [done..|].
  change (HNode (PStr k) p e :: (node_of <$> l)) with (node_of <$> ((k, (p, e)) :: l)).
  apply wp_put_slot; [done|]. unfold add_count. wp_steps. simpl.
  apply HQ.
  - split; [|done]. unfold hstate. rewrite Hlen. f_equal. lia.
  - rewrite ha_abs_hstate, <-Hm. unfold ha_abs. simpl. apply ha_abs_hstate.
Qed.

Lemma wp_unlink j k p e Q t :
  l !! j = Some (k, (p, e)) → p ≠ PFreed →
  (∀ s', ha_rep s' (<[i := delete j l]> B) →
    ha_abs s' = delete k (ha_abs (hstate B)) → Q tt s' t) →
  wp (unlink (Z.of_nat i) (node_of <$> l) j (HNode (PStr k) p e)) Q E (hstate B) t.
Proof using HB Hi Hlt.
  intros Hj Hp HQ. destruct (buckets_delete B i l j k (p, e)) as (Hok & Hm & Hlen); [done..|].
  unfold unlink. rewrite <-list_fmap_delete. wp_steps. apply wp_put_slot; [done|].
  simpl. wp_steps. apply wp_free; [done|]. unfold add_count. wp_steps. simpl.
  apply HQ.
  - split; [|done]. unfold hstate. f_equal. lia.
  - rewrite ha_abs_hstate, <-Hm. unfold ha_abs. simpl. apply ha_abs_hstate.
Qed.
End changes.

(** ** What each operation does, allocation failure included *)

Lemma bucket_of B k : buckets_ok B → ascii_key k → ∃ l, B !! key_slot k = Some l.
Proof.
  intros (Hlen & _) Hk. apply lookup_lt_is_Some_2. rewrite Hlen. by apply key_slot_range.
Qed.

(** A node found in the bucket of its key is the entry of the dictionary. *)
Lemma bucket_found B k l j x :
  buckets_ok B → B !! key_slot k = Some l → l !! j = Some (k, x) →
  ha_abs (hstate B) !! k = Some x.
Proof.
  intros HB Hl Hj. rewrite ha_abs_hstate, (bucket_lookup B k l) by done.
  destruct HB as (_ & Hnd & _). destruct (bucket_perm B _ l Hl) as (rest & Hp & _).
  rewrite Hp, fmap_app in Hnd. apply NoDup_app in Hnd as [Hnd _].
  by eapply assoc_lookup.
Qed.

Lemma bucket_missing B k l :
  buckets_ok B → B !! key_slot k = Some l → (∀ j y, l !! j ≠ Some (k, y)) →
  ha_abs (hstate B) !! k = None.
Proof.
  intros HB Hl Hno. rewrite ha_abs_hstate, (bucket_lookup B k l) by done.
  by apply assoc_lookup_None.
Qed.

(** The slot computation that opens every operation. *)
Ltac hash_open :=
  wp_steps; apply wp_hash; [done|]; wp_steps; unfold hstate at 1; eapply wp_get_slot; [done|];
  fold_hstate; wp_steps
with fold_hstate :=
  match goal with
  | |- context [KHash (TLive (slots_of ?B)) MAX_TABLE_SIZE (Z.of_nat (length (concat ?B)))] =>
      fold (hstate B)
  end.

(** Opens a well-formed table on the bucket of the key: [HB], [l], [Hl], [Hnf]. *)
Ltac ha_intro :=
  lazymatch goal with
  | |- ascii_key ?k → ha_wf _ → _ =>
      intros Hk [[B [-> HB]] Hnf]; destruct (bucket_of B k HB Hk) as [l Hl]
  end.

(** The two outcomes of the walk along the chain. *)
Ltac ha_walk :=
  match goal with
  | HB : buckets_ok _, Hl : _ !! key_slot _ = Some _ |- _ =>
  wp_steps; apply wp_chain_find;
  [intros j [p e0] Hj; pose proof (bucket_found _ _ _ _ _ HB Hl Hj) as Hf;
   rewrite ?Hf; wp_steps; simpl;
   rewrite ?list_lookup_fmap, ?Hj; simpl; wp_steps
  |intros Hno; pose proof (bucket_missing _ _ _ HB Hl Hno) as Hf;
   rewrite ?Hf; wp_steps]
  end.

Lemma hash_set_spec E s t k v e :
  ascii_key k → ha_wf s →
  wp (kvs_hash_set (PStr k) (PStr v) e) (λ r s' _,
    (∃ B, ha_rep s' B) ∧
    match ha_abs s !! k with
    | Some (_, e0) =>
        if malloc_ok E t then r = 0 ∧ ha_abs s' = <[k := (PStr v, e)]> (ha_abs s)
        else r = -2 ∧ ha_abs s' = <[k := (PNull, e0)]> (ha_abs s)
    | None =>
        if malloc_ok E t && malloc_ok E (S t) && malloc_ok E (S (S t))
        then r = 0 ∧ ha_abs s' = <[k := (PStr v, e)]> (ha_abs s)
        else r = -2 ∧ s' = s
    end) E s t.
Proof.
  ha_intro. apply wp_arg2. hash_open. ha_walk.
  - apply wp_free; [by eapply Hnf|]. wp_steps.
    destruct (malloc_ok E t); simpl; wp_steps; (eapply wp_bucket_update; [done..|]);
      intros s' Hr Hm; wp_steps; eauto.
  - unfold _create_node. wp_steps.
    destruct (malloc_ok E t); simpl; wp_steps; [|by split; [exists B; split|]].
    destruct (malloc_ok E (S t)); simpl; wp_steps; [|by split; [exists B; split|]].
    destruct (malloc_ok E (S (S t))); simpl; wp_steps; [|by split; [exists B; split|]].
    simpl. eapply wp_bucket_cons; [done..|]. intros s' Hr Hm. wp_steps. eauto.
Qed.

Lemma hash_get_spec E s t k :
  ascii_key k → ha_wf s →
  wp (kvs_hash_get (PStr k)) (λ r s' _,
    (∃ B, ha_rep s' B) ∧
    r = default PNull (live (clock E t) (ha_abs s) k) ∧
    ha_abs s' = purge (clock E t) k (ha_abs s)) E s t.
Proof.
  ha_intro. apply wp_arg1. hash_open. ha_walk; unfold purge; rewrite Hf.
  - rewrite (live_lookup_Some _ _ _ _ _ Hf).
    destruct (is_expired (clock E t) e0); wp_steps.
    + eapply wp_unlink; [done..|by eapply Hnf|]. intros s' Hr Hm. wp_steps. eauto.
    + split; [exists B; by split|done].
  - rewrite live_lookup_None by done. split; [exists B; by split|done].
Qed.

Lemma hash_del_spec E s t k :
  ascii_key k → ha_wf s →
  wp (kvs_hash_del (PStr k)) (λ r s' _,
    (∃ B, ha_rep s' B) ∧ r = (if ha_abs s !! k then 0 else 1) ∧
    ha_abs s' = delete k (ha_abs s)) E s t.
Proof.
  ha_intro. apply wp_arg1. hash_open. ha_walk.
  - eapply wp_unlink; [done..|by eapply Hnf|]. intros s' Hr Hm. wp_steps. eauto.
  - rewrite delete_id by done. split; [exists B; by split|done].
Qed.

(** Unlike the array, the hash table deletes an expired key instead of
    modifying it. *)
Lemma hash_mod_spec E s t k v :
  ascii_key k → ha_wf s →
  wp (kvs_hash_mod (PStr k) (PStr v)) (λ r s' _,
    (∃ B, ha_rep s' B) ∧
    match ha_abs s !! k with
    | Some (_, e) =>
        if is_expired (clock E t) e then r = 1 ∧ ha_abs s' = delete k (ha_abs s)
        else if malloc_ok E (S t) then r = 0 ∧ ha_abs s' = <[k := (PStr v, e)]> (ha_abs s)
        else r = -2 ∧ ha_abs s' = <[k := (PFreed, e)]> (ha_abs s)
    | None => r = 1 ∧ s' = s
    end) E s t.
Proof.
  intros Hk Hwf. pose proof (λ t, hash_del_spec E s t k Hk Hwf) as Hdel. revert Hk Hwf.
  ha_intro. apply wp_arg1. hash_open. ha_walk.
  - destruct (is_expired (clock E t) e0).
    + wp_steps. eapply wp_mono; [apply Hdel|]. intros r s' t' (? & Hr' & ?). by wp_steps.
    + wp_steps. apply wp_free; [by eapply Hnf|]. wp_steps.
      destruct (malloc_ok E (S t)); simpl; wp_steps;
        (eapply wp_bucket_update; [done..|]); intros s' Hr Hm; wp_steps; eauto.
  - split; [exists B; by split|done].
Qed.

Lemma hash_exist_spec E s t k :
  ascii_key k → ha_wf s →
  wp (kvs_hash_exist (PStr k)) (λ r s' _,
    s' = s ∧ r = (if live (clock E t) (ha_abs s) k then 0 else 1)) E s t.
Proof.
  ha_intro. apply wp_arg1. hash_open. ha_walk.
  - rewrite (live_lookup_Some _ _ _ _ _ Hf). destruct (is_expired (clock E t) e0); by wp_steps.
  - by rewrite live_lookup_None.
Qed.

Lemma hash_expire_spec E s t k e :
  ascii_key k → ha_wf s →
  wp (kvs_hash_expire (PStr k) e) (λ r s' _,
    (∃ B, ha_rep s' B) ∧ r = (if ha_abs s !! k then 0 else 1) ∧
    ha_abs s' = spec_expire k e (ha_abs s)) E s t.
Proof.
  intros Hk Hwf. pose proof (hash_del_spec E s t k Hk Hwf) as Hdel. revert Hk Hwf.
  ha_intro. apply wp_arg1. hash_open. unfold spec_expire. ha_walk.
  - rewrite Hf in Hdel. destruct (e =? 0).
    + eapply wp_mono; [exact Hdel|]. naive_solver.
    + wp_steps. eapply wp_bucket_update; [done..|]. intros s' Hr Hm. wp_steps. eauto.
  - split; [exists B; by split|done].
Qed.

Lemma hash_ttl_spec E s t k :
  ascii_key k → ha_wf s →
  (∀ p e, ha_abs s !! k = Some (p, e) → LLONG_MIN ≤ e - clock E t ≤ LLONG_MAX) →
  wp (kvs_hash_ttl (PStr k)) (λ r s' _,
    s' = s ∧ r = spec_ttl (clock E t) k (ha_abs s)) E s t.
Proof.
  intros Hk Hwf Hrange. revert Hk Hwf. ha_intro. apply wp_arg1. hash_open.
  unfold spec_ttl. ha_walk; [|done].
  destruct (e0 =? -1); [by wp_steps|]. wp_steps.
  apply wp_checked64; [by eapply Hrange|]. by wp_steps.
Qed.

(** ** The expiry scan *)

(** No node of the bucket holds a dangling value. *)
Definition values_ok (l : list (bytes * entry)) : Prop := Forall (λ x, x.2.1 ≠ PFreed) l.

Lemma wp_sweep now (l : list (bytes * entry)) Q E n c t :
  values_ok l →
  Q (node_of <$> unexpired now l)
    (KHash n MAX_TABLE_SIZE (c - (Z.of_nat (length l) - Z.of_nat (length (unexpired now l))))) t →
  wp (sweep now (node_of <$> l)) Q E (KHash n MAX_TABLE_SIZE c) t.
Proof.
  intros Hl. revert Q c. induction Hl as [|[k [p e]] l Hp Hl IH]; intros Q c HQ; simpl in *.
  { wp_steps. by rewrite Z.sub_0_r in HQ. }
  destruct (is_expired now e); simpl in *.
  - wp_steps. apply wp_free; [done|]. unfold add_count. wp_steps. simpl. apply IH.
    exact_upto HQ. do 2 f_equal. lia.
  - wp_steps. apply IH. wp_steps.
    exact_upto HQ. do 2 f_equal. lia.
Qed.

Lemma wp_sweep_slots now n i B Q E t :
  (i + n = length B)%nat → Forall values_ok B →
  Q tt (hstate (take i B ++ (unexpired now <$> drop i B))) t →
  wp (sweep_slots now n (Z.of_nat i)) Q E (hstate B) t.
Proof.
  revert i B Q. induction n as [|n IH]; intros i B Q Hn HB HQ; simpl.
  { wp_steps. rewrite firstn_all2, skipn_all2, app_nil_r in HQ by lia. done. }
  destruct (lookup_lt_is_Some_2 B i) as [l Hl]; [lia|].
  destruct (bucket_perm B i l Hl) as (rest & Hp & Hp').
  pose proof (Forall_lookup_1 _ _ _ _ HB Hl) as Hok.
  wp_steps. unfold hstate at 1. eapply wp_get_slot; [done|].
  wp_steps. apply wp_sweep; [done|].
  wp_steps. apply wp_put_slot; [lia|]. wp_steps.
  replace (Z.of_nat i + 1) with (Z.of_nat (S i)) by lia.
  specialize (Hp' (unexpired now l)).
  match goal with |- wp _ _ _ ?s _ => replace s with (hstate (<[i := unexpired now l]> B)) end.
  2:{ unfold hstate. f_equal. rewrite Hp, Hp', !length_app. lia. }
  apply IH.
  - rewrite length_insert. lia.
  - apply Forall_insert; [done|]. by apply unexpired_Forall.
  - rewrite (drop_S B l i Hl) in HQ. rewrite drop_insert_lt by lia.
    rewrite (take_S_r _ _ (unexpired now l)) by (apply list_lookup_insert_eq; lia).
    rewrite take_insert_ge, <-app_assoc by lia. exact HQ.
Qed.

Lemma buckets_values_ok B :
  NoDup (concat B).*1 → no_freed (ha_abs (hstate B)) → Forall values_ok B.
Proof.
  intros Hnd Hnf. apply Forall_forall. intros l [i Hi]%list_elem_of_lookup. apply Forall_forall.
  intros [k [p e]] Hx. destruct (bucket_perm B i l Hi) as (rest & Hp & _).
  rewrite ha_abs_hstate in Hnf. eapply (Hnf k p e), elem_of_list_to_map_1; [done|].
  rewrite Hp. apply elem_of_app. by left.
Qed.

Lemma hash_scan_spec E s t :
  ha_wf s →
  wp kvs_hash_scan_expired (λ _ s' _,
    (∃ B, ha_rep s' B) ∧ ha_abs s' = purge_all (clock E t) (ha_abs s)) E s t.
Proof.
  intros [[B [-> HB]] Hnf]. pose proof HB as (Hlen & Hnd & Hslot).
  unfold kvs_hash_scan_expired. wp_steps. cbn [h_max_slots hstate].
  apply (wp_sweep_slots _ _ 0%nat).
  - by rewrite Hlen.
  - by apply buckets_values_ok.
  - simpl. rewrite drop_0. set (now := clock E t).
    destruct (unexpired_map now (concat B) Hnd) as [Hnd' Hm].
    rewrite !ha_abs_hstate, unexpired_concat. split; [|done]. eexists. split; [done|].
    split_and!; [by rewrite length_fmap|by rewrite unexpired_concat|].
    intros i l k x Hi Hx. rewrite list_lookup_fmap in Hi.
    destruct (B !! i) as [l0|] eqn:Hl0; simplify_eq/=.
    apply unexpired_elem in Hx as [Hx _]. by eapply Hslot.
Qed.

(** ** Creation and destruction *)

Lemma concat_replicate_nil {A} n : concat (replicate n ([] : list A)) = [].
Proof. by induction n. Qed.

Lemma hash_create_spec E s t :
  zeroed E = true →
  wp kvs_hash_create (λ r s' _,
    if malloc_ok E t then r = 0 ∧ ha_inv s' ∧ ha_abs s' = ∅
    else r = -1 ∧ h_nodes s' = TNull) E s t.
Proof.
  intros Hz. unfold kvs_hash_create. wp_steps.
  destruct (malloc_ok E t); cbn [negb]; wp_steps; [|done]. rewrite Hz.
  split; [done|]. set (B := replicate (Z.to_nat MAX_TABLE_SIZE) ([] : list (bytes * entry))).
  match goal with |- ha_inv ?s ∧ _ => assert (s = hstate B) as -> end.
  { unfold hstate, B. by rewrite concat_replicate_nil. }
  assert (ha_abs (hstate B) = ∅) as Hemp.
  { rewrite ha_abs_hstate. unfold B. by rewrite concat_replicate_nil. }
  rewrite Hemp. split; [|done]. split; [|rewrite Hemp; apply clean_empty].
  exists B. split; [done|]. unfold B. split_and!.
  - by rewrite length_replicate.
  - rewrite concat_replicate_nil. constructor.
  - intros i l k x [-> _]%lookup_replicate_1. set_solver.
Qed.

Lemma wp_free_chain (l : list (bytes * entry)) Q E s t :
  values_ok l → Q tt s t → wp (free_chain (node_of <$> l)) Q E s t.
Proof.
  intros Hl HQ. induction Hl as [|[k [p e]] l Hp Hl IH]; simpl; wp_steps; [done|].
  by apply wp_free.
Qed.

Lemma wp_destory_slots n i c B Q E t :
  (i + n = length B)%nat → Forall values_ok B →
  (∀ B', Q tt (KHash (TLive (slots_of B')) MAX_TABLE_SIZE c) t) →
  wp (destory_slots n (Z.of_nat i)) Q E (KHash (TLive (slots_of B)) MAX_TABLE_SIZE c) t.
Proof.
  revert i B. induction n as [|n IH]; intros i B Hn HB HQ; simpl; wp_steps; [done|].
  destruct (lookup_lt_is_Some_2 B i) as [l Hl]; [lia|].
  eapply wp_get_slot; [done|]. wp_steps.
  apply wp_free_chain; [by eapply Forall_lookup_1|]. wp_steps.
  apply (wp_put_slot B c i []); [lia|]. wp_steps.
  replace (Z.of_nat i + 1) with (Z.of_nat (S i)) by lia.
  apply IH; [rewrite length_insert; lia| |done]. by apply Forall_insert; [|constructor].
Qed.

(** Destruction frees every node once; the table itself is left dangling. *)
Lemma hash_destory_spec E s t :
  ha_wf s → wp kvs_hash_destory (λ _ s' _, h_nodes s' = TFreed) E s t.
Proof.
  intros [[B [-> HB]] Hnf]. pose proof HB as (Hlen & Hnd & Hslot).
  unfold kvs_hash_destory. wp_steps. cbn [h_max_slots hstate].
  apply (wp_destory_slots _ 0%nat).
  - by rewrite Hlen.
  - by apply buckets_values_ok.
  - intros B'. by wp_steps.
Qed.

(** ** The hash table is an engine, for ASCII keys *)

Lemma ha_inv_intro s m : (∃ B, ha_rep s B) → ha_abs s = m → clean m → ha_inv s.
Proof. intros Hr <- Hc. by split. Qed.

#[global] Program Instance hash_engine : Engine kvs_hash := {|
  e_inv := ha_inv;
  e_abs := ha_abs;
  e_key := ascii_key;
  e_time := λ _, True;
  e_room := λ _, True
|}.
Next Obligation. by intros s [_ ?]. Qed.
Next Obligation. done. Qed.
Next Obligation.
  intros E s t k v e Hoom Hinv Hk _ _.
  eapply wp_mono; [by apply hash_set_spec, ha_inv_wf|].
  simpl. intros r s' _ [Hr Hm]. rewrite !Hoom in Hm. destruct Hinv as [_ Hc].
  destruct (ha_abs s !! k) as [[??]|]; destruct Hm as [-> Hm];
    eauto using ha_inv_intro, clean_insert.
Qed.
Next Obligation.
  intros E s t k Hoom Hinv Hk. eapply wp_mono; [by apply hash_get_spec, ha_inv_wf|].
  simpl. intros r s' _ (Hr & -> & Hm). destruct Hinv as [_ Hc].
  eauto using ha_inv_intro, clean_purge.
Qed.
Next Obligation.
  intros E s t k Hoom Hinv Hk. eapply wp_mono; [by apply hash_del_spec, ha_inv_wf|].
  simpl. intros r s' _ (Hr & -> & Hm). destruct Hinv as [_ Hc].
  eauto using ha_inv_intro, clean_delete.
Qed.
Next Obligation.
  intros E s t k v Hoom Hinv Hk. eapply wp_mono; [by apply hash_mod_spec, ha_inv_wf|].
  simpl. intros r s' _ [Hr Hm]. rewrite !Hoom in Hm. destruct (id Hinv) as [_ Hc].
  destruct (ha_abs s !! k) as [[p e]|] eqn:Hf.
  - destruct (is_expired _ e) eqn:He; destruct Hm as [-> Hm].
    + split; [eauto using ha_inv_intro, clean_delete|]. split; [lia|]. rewrite Hm.
      by eapply delete_expired_equiv.
    + split; [eauto using ha_inv_intro, clean_insert|]. by split.
  - destruct Hm as [-> ->]. by split; [|split; [lia|]].
Qed.
Next Obligation.
  intros E s t k Hoom Hinv Hk. eapply wp_mono; [by apply hash_exist_spec, ha_inv_wf|].
  simpl. intros r s' _ [-> ->]. eauto.
Qed.
Next Obligation.
  intros E s t k e Hoom Hinv Hk _. eapply wp_mono; [by apply hash_expire_spec, ha_inv_wf|].
  simpl. intros r s' _ (Hr & -> & Hm). destruct Hinv as [_ Hc]. split; [|done].
  eapply ha_inv_intro; [done..|]. unfold spec_expire.
  destruct (ha_abs s !! k) as [[??]|] eqn:?; [destruct (e =? 0)|]; eauto with kvs.
Qed.
Next Obligation.
  intros E s t k Hoom Hinv Hk Hr. by apply hash_ttl_spec; [|apply ha_inv_wf|].
Qed.
Next Obligation.
  intros E s t Hoom Hinv. eapply wp_mono; [by apply hash_scan_spec, ha_inv_wf|].
  simpl. intros r s' _ (Hr & Hm). destruct Hinv as [_ Hc].
  eauto using ha_inv_intro, clean_purge_all.
Qed.

(** ** Keys and tables the engine cannot serve *)

(** A one-byte key outside ASCII has a negative hash, which is used as an index. *)
Lemma hash_negative_index E B c v e t :
  128 ≤ uchar c → kvs_hash_set (PStr [c]) (PStr v) e E (hstate B) t = Fault OutOfBounds.
Proof.
  intros Hc. pose proof (uchar_range c).
  unfold kvs_hash_set, arg2, arg1, _hash, hash_loop, checked32, get_slot. simpl.
  unfold mbind, M_bind, mret, M_ret, gets, fail, INT_MIN, INT_MAX. simpl.
  replace (schar c) with (uchar c - 256) by (unfold schar; by replace (uchar c <? 128) with false by lia).
  replace ((_ <=? _) && _) with true by lia. simpl.
  replace (Z.rem _ _ <? 0) with true; [done|]. symmetry. apply Z.ltb_lt.
  change MAX_TABLE_SIZE with 1024.
  replace (0 + (uchar c - 256)) with (- (256 - uchar c)) by lia.
  rewrite Z.rem_opp_l, Z.rem_small by lia. lia.
Qed.

Lemma hash_run k E s t :
  ascii_key k → _hash k MAX_TABLE_SIZE E s t = Done (Z.of_nat (key_slot k), s, t).
Proof.
  intros Hk. destruct (proj1 (wp_run (_hash k MAX_TABLE_SIZE)
    (λ a s' t', a = Z.of_nat (key_slot k) ∧ s' = s ∧ t' = t) E s t)) as (? & ? & ? & -> & -> & -> & ->);
    [by apply wp_hash|done].
Qed.

(** The slots of [kvs_hash_create] are read before they are written when the
    allocator does not clear memory. *)
Lemma hash_create_uninitialised E s t k :
  zeroed E = false → malloc_ok E t = true → ascii_key k →
  (kvs_hash_create;; kvs_hash_get (PStr k)) E s t = Fault Uninitialised.
Proof.
  intros Hz Hm Hk. pose proof (key_slot_range k Hk) as Hlt.
  unfold kvs_hash_create, kvs_hash_get, arg1, get_slot, mbind, M_bind, kvs_malloc,
    fresh_zeroed, modify, gets, mret, M_ret. rewrite Hm. cbn [negb read_str].
  rewrite ?Hz.
  unfold mret, M_ret. rewrite hash_run by done. cbn [h_nodes].
  rewrite of_nat_ltb_0, Nat2Z.id, lookup_replicate_2; [done|]. exact Hlt.
Qed.

(** ** Theorems *)

(** A table with one key. *)
Definition hash1 : kvs_hash :=
  after (_r ← kvs_hash_create; kvs_hash_set (PStr (lit "k")) (PStr (lit "v")) (-1)) global_hash0.

Lemma k_ascii : ascii_key (lit "k").
Proof. split; [by repeat constructor|done]. Qed.

Lemma hash1_ok : ha_inv hash1 ∧ ha_abs hash1 = {[lit "k" := (PStr (lit "v"), -1)]}.
Proof.
  apply (wp_after _ (λ s, ha_inv s ∧ ha_abs s = {[lit "k" := (PStr (lit "v"), -1)]})). wp_steps.
  eapply wp_mono; [by apply hash_create_spec|]. simpl. intros r s t (_ & Hi & He).
  eapply wp_mono; [apply hash_set_spec; [exact k_ascii|by apply ha_inv_wf]|].
  rewrite He. simpl. intros r' s' _ (Hi' & _ & Ha).
  split; [|done]. eapply ha_inv_intro; [done..|]. apply clean_insert, clean_empty.
Qed.

(** Kvs_hash_set on every branch. The chain of the key's slot is updated in
    place or extended at its head; other slots and other keys of the slot keep
    their entries. When malloc fails a new key is not added and nothing leaks into
    the table; an existing key is left without a value. *)
Theorem hash_set_outcome E s t k v e :
  ascii_key k → ha_wf s →
  wp (kvs_hash_set (PStr k) (PStr v) e) (λ r s' _,
    (∃ B, ha_rep s' B) ∧
    match ha_abs s !! k with
    | Some (_, e0) =>
        if malloc_ok E t then r = 0 ∧ ha_abs s' = <[k := (PStr v, e)]> (ha_abs s)
        else r = -2 ∧ ha_abs s' = <[k := (PNull, e0)]> (ha_abs s)
    | None =>
        if malloc_ok E t && malloc_ok E (S t) && malloc_ok E (S (S t))
        then r = 0 ∧ ha_abs s' = <[k := (PStr v, e)]> (ha_abs s)
        else r = -2 ∧ s' = s
    end) E s t.
Proof. apply hash_set_spec. Qed.

Lemma hash_set_outcome_witness :
  wp (kvs_hash_set (PStr (lit "k")) (PStr (lit "w")) 7) (λ r s' _,
    (∃ B, ha_rep s' B) ∧ r = 0 ∧ ha_abs s' = <[lit "k" := (PStr (lit "w"), 7)]> (ha_abs hash1)) calm hash1 0.
Proof.
  destruct hash1_ok as [Hi Ha].
  eapply wp_mono; [exact (hash_set_outcome calm hash1 0 (lit "k") (lit "w") 7 k_ascii (ha_inv_wf _ Hi))|].
  intros r s' t [HL Hr]. rewrite Ha in *. done.
Defined.

(** Kvs_hash_mod writes the new value of a live key and keeps its expiry; an
    expired key is removed and reported as missing; when malloc fails the freed
    value stays in the table. *)
Theorem hash_mod_outcome E s t k v :
  ascii_key k → ha_wf s →
  wp (kvs_hash_mod (PStr k) (PStr v)) (λ r s' _,
    (∃ B, ha_rep s' B) ∧
    match ha_abs s !! k with
    | Some (_, e) =>
        if is_expired (clock E t) e then r = 1 ∧ ha_abs s' = delete k (ha_abs s)
        else if malloc_ok E (S t) then r = 0 ∧ ha_abs s' = <[k := (PStr v, e)]> (ha_abs s)
        else r = -2 ∧ ha_abs s' = <[k := (PFreed, e)]> (ha_abs s)
    | None => r = 1 ∧ s' = s
    end) E s t.
Proof. apply hash_mod_spec. Qed.

Lemma hash_mod_outcome_witness :
  wp (kvs_hash_mod (PStr (lit "k")) (PStr (lit "w"))) (λ r s' _,
    (∃ B, ha_rep s' B) ∧ r = 0 ∧ ha_abs s' = <[lit "k" := (PStr (lit "w"), -1)]> (ha_abs hash1)) calm hash1 0.
Proof.
  destruct hash1_ok as [Hi Ha].
  eapply wp_mono; [exact (hash_mod_outcome calm hash1 0 (lit "k") (lit "w") k_ascii (ha_inv_wf _ Hi))|].
  intros r s' t [HL Hr]. rewrite Ha in *. done.
Defined.

(** The scan of all slots removes exactly the expired keys of all chains. *)
Theorem hash_scan_exact E s t :
  ha_wf s →
  wp kvs_hash_scan_expired (λ _ s' _,
    (∃ B, ha_rep s' B) ∧ ha_abs s' = purge_all (clock E t) (ha_abs s)) E s t.
Proof. apply hash_scan_spec. Qed.

Lemma hash_scan_exact_witness :
  wp kvs_hash_scan_expired (λ _ s' _,
    (∃ B, ha_rep s' B) ∧ ha_abs s' = purge_all 1000 (ha_abs hash1)) calm hash1 0.
Proof. apply (hash_scan_exact calm hash1 0). apply ha_inv_wf, hash1_ok. Defined.

(** A one-byte key outside ASCII is negative as a signed char, and the
    remainder that selects its slot is then a negative index: kvs_hash_set reads
    outside the table, whatever it holds. *)
Theorem hash_key_out_of_bounds E B c v e t :
  128 ≤ uchar c → kvs_hash_set (PStr [c]) (PStr v) e E (hstate B) t = Fault OutOfBounds.
Proof. apply hash_negative_index. Qed.

Lemma hash_key_out_of_bounds_witness :
  kvs_hash_set (PStr [Byte.xc3]) (PStr (lit "v")) (-1) calm (hstate []) 0%nat = Fault OutOfBounds.
Proof. apply (hash_key_out_of_bounds calm [] Byte.xc3). by vm_compute. Defined.

(** Kvs_hash_create leaves the slots as malloc returned them: unless that
    memory happens to be zero, the first lookup reads an indeterminate pointer. *)
Theorem hash_create_indeterminate E s t k :
  zeroed E = false → malloc_ok E t = true → ascii_key k →
  (kvs_hash_create;; kvs_hash_get (PStr k)) E s t = Fault Uninitialised.
Proof. apply hash_create_uninitialised. Qed.

Lemma hash_create_indeterminate_witness :
  ∃ E, (kvs_hash_create;; kvs_hash_get (PStr (lit "k"))) E global_hash0 0%nat = Fault Uninitialised.
Proof.
  exists (Env (λ _, 0) (λ _, true) (λ _, 0) (λ _, true) (λ _, 0%nat) false (λ _, 1%nat) (λ _, None) (λ _, true)).
  apply (hash_create_indeterminate _ global_hash0 0 (lit "k")); [done|done|exact k_ascii].
Defined.
