(* ===== verification/KvsSkiplist.v ===== *)
(** * The skip-list engine (kvs_skiplist.c)

    Nodes live in a heap indexed by address; a node's [forward] array holds one
    pointer per level, so one node is shared by several linked lists and the
    aliasing is explicit. A freed node is absent from the heap, and reading it
    is a fault. The loops that follow pointers carry fuel; the fuel given is the
    number of nodes in the heap plus one, and the proofs show it never runs out. *)

From stdpp Require Import sorting.
From S2P Require Import Prelude KvSpec.

(** ** Data *)

Definition SKIPLIST_MAX_LEVEL : nat := 16.

(** glibc's RAND_MAX *)
Definition RAND_MAX : Z := 2147483647.

Abbreviation addr := nat.

(** struct skiplist_node_s *)
Record skiplist_node := SNode {
  sn_key     : cptr;
  sn_value   : cptr;
  sn_expire  : Z;
  sn_forward : list (option addr)
}.

(** struct kvs_skiplist_s, with the heap its nodes live in. *)
Record kvs_skiplist := KSkip {
  sk_heap   : gmap addr skiplist_node;
  sk_fresh  : addr;
  sk_header : option addr;
  sk_level  : nat;
  sk_size   : Z
}.

Definition global_skiplist0 : kvs_skiplist := KSkip ∅ 0 None 0 0.

Definition set_heap (h : gmap addr skiplist_node) (s : kvs_skiplist) : kvs_skiplist :=
  KSkip h (sk_fresh s) (sk_header s) (sk_level s) (sk_size s).
Definition set_level (l : nat) (s : kvs_skiplist) : kvs_skiplist :=
  KSkip (sk_heap s) (sk_fresh s) (sk_header s) l (sk_size s).
Definition add_size (d : Z) (s : kvs_skiplist) : kvs_skiplist :=
  KSkip (sk_heap s) (sk_fresh s) (sk_header s) (sk_level s) (sk_size s + d).

(** ** Pointer accesses *)

Definition get_node (a : addr) : M kvs_skiplist skiplist_node :=
  h ← gets sk_heap;
  match h !! a with None => fail UseAfterFree | Some n => mret n end.

Definition put_node (a : addr) (n : skiplist_node) : M kvs_skiplist unit :=
  modify (λ s, set_heap (<[a := n]> (sk_heap s)) s).

(** inst->header *)
Definition get_header : M kvs_skiplist addr :=
  h ← gets sk_header;
  match h with None => fail NullDeref | Some a => mret a end.

(** a->forward[i] *)
Definition get_forward (a : addr) (i : nat) : M kvs_skiplist (option addr) :=
  n ← get_node a;
  match sn_forward n !! i with None => fail OutOfBounds | Some f => mret f end.

(** a->forward[i] = v *)
Definition put_forward (a : addr) (i : nat) (v : option addr) : M kvs_skiplist unit :=
  n ← get_node a;
  match sn_forward n !! i with
  | None => fail OutOfBounds
  | Some _ => put_node a (SNode (sn_key n) (sn_value n) (sn_expire n) (<[i := v]> (sn_forward n)))
  end.

(** The bound of the pointer-following loops. *)
Definition walk_fuel : M kvs_skiplist nat := gets (λ s, S (size (sk_heap s))).

(** ** Node allocation *)

(** while (rand() < RAND_MAX / 2 && level < SKIPLIST_MAX_LEVEL) level++, with
    [n] = SKIPLIST_MAX_LEVEL - level. *)
Fixpoint random_level_loop (n level : nat) : M kvs_skiplist nat :=
  r ← rand;
  match n with
  | O => mret level
  | S n' => if r <? RAND_MAX / 2 then random_level_loop n' (S level) else mret level
  end.

Definition random_level : M kvs_skiplist nat := random_level_loop SKIPLIST_MAX_LEVEL 0.

(** The copy of an optional string; [None] when malloc fails. *)
Definition copy_str (p : cptr) : M kvs_skiplist (option cptr) :=
  match p with
  | PNull => mret (Some PNull)
  | _ => b ← read_str p; ok ← kvs_malloc; mret (if ok : bool then Some (PStr b) else None)
  end.

Definition skiplist_new_node (level : nat) (key value : cptr) (expire_ms : Z)
    : M kvs_skiplist (option addr) :=
  ok ← kvs_malloc;
  if negb ok then mret None else
  k ← copy_str key;
  match k with
  | None => mret None
  | Some k =>
      v ← copy_str value;
      match v with
      | None => mret None
      | Some v =>
          ok ← kvs_malloc;
          if negb ok then mret None else
          a ← gets sk_fresh;
          modify (λ s, KSkip (<[a := SNode k v expire_ms (replicate (S level) None)]> (sk_heap s))
                             (S a) (sk_header s) (sk_level s) (sk_size s));;
          mret (Some a)
      end
  end.

Definition skiplist_free_node (a : addr) : M kvs_skiplist unit :=
  n ← get_node a;
  kvs_free (sn_key n);;
  kvs_free (sn_value n);;
  modify (λ s, set_heap (delete a (sk_heap s)) s).

(** ** Creation and destruction *)

Definition kvs_skiplist_create : M kvs_skiplist Z :=
  modify (λ s, KSkip (sk_heap s) (sk_fresh s) (sk_header s) 0 0);;
  header ← skiplist_new_node SKIPLIST_MAX_LEVEL PNull PNull (-1);
  modify (λ s, KSkip (sk_heap s) (sk_fresh s) header (sk_level s) (sk_size s));;
  match header with None => mret (-1) | Some _ => mret 0 end.

Fixpoint destroy_loop (fuel : nat) (current : option addr) : M kvs_skiplist unit :=
  match current with
  | None => mret tt
  | Some tmp =>
      match fuel with
      | O => fail OutOfFuel
      | S fuel' =>
          next ← get_forward tmp 0;
          skiplist_free_node tmp;;
          destroy_loop fuel' next
      end
  end.

Definition kvs_skiplist_destroy : M kvs_skiplist unit :=
  header ← get_header;
  current ← get_forward header 0;
  fuel ← walk_fuel;
  destroy_loop fuel current;;
  skiplist_free_node header;;
  modify (λ s, KSkip (sk_heap s) (sk_fresh s) None 0 0).

(** ** Search *)

(** while (current->forward[i] && strcmp(current->forward[i]->key, key) < 0)
      current = current->forward[i]; *)
Fixpoint walk (fuel : nat) (current : addr) (i : nat) (key : bytes) : M kvs_skiplist addr :=
  match fuel with
  | O => fail OutOfFuel
  | S fuel' =>
      f ← get_forward current i;
      match f with
      | None => mret current
      | Some b =>
          n ← get_node b;
          k ← read_str (sn_key n);
          if strcmp k key <? 0 then walk fuel' b i key else mret current
      end
  end.

(** for (int i = level; i >= 0; i--), recording the predecessors. The array
    [update] is a local array of which only the written cells are defined. *)
Fixpoint find_levels (i : nat) (current : addr) (key : bytes) (update : gmap nat addr)
    : M kvs_skiplist (gmap nat addr) :=
  fuel ← walk_fuel;
  current' ← walk fuel current i key;
  let update' := <[i := current']> update in
  match i with
  | O => mret update'
  | S i' => find_levels i' current' key update'
  end.

Definition skiplist_find_predecessors (key : bytes) : M kvs_skiplist (gmap nat addr) :=
  header ← get_header;
  level ← gets sk_level;
  find_levels level header key ∅.

(** The same descent without the array, as get, mod, expire and ttl write it. *)
Fixpoint descend (i : nat) (current : addr) (key : bytes) : M kvs_skiplist addr :=
  fuel ← walk_fuel;
  current' ← walk fuel current i key;
  match i with
  | O => mret current'
  | S i' => descend i' current' key
  end.

(** ... current = current->forward[0]; current && strcmp(current->key, key) == 0 *)
Definition locate (key : bytes) : M kvs_skiplist (option addr) :=
  header ← get_header;
  level ← gets sk_level;
  current ← descend level header key;
  f ← get_forward current 0;
  match f with
  | None => mret None
  | Some a =>
      n ← get_node a;
      k ← read_str (sn_key n);
      mret (if strcmp k key =? 0 then Some a else None)
  end.

(** update[i] *)
Definition get_update (update : gmap nat addr) (i : nat) : M kvs_skiplist addr :=
  match update !! i with None => fail Uninitialised | Some a => mret a end.

(** ** Operations *)

(** target->value = malloc; strcpy. [None] is the failed allocation, which
    leaves NULL in the field. *)
Definition replace_value (target : addr) (value : bytes) : M kvs_skiplist bool :=
  n ← get_node target;
  kvs_free (sn_value n);;
  ok ← kvs_malloc;
  put_node target (SNode (sn_key n) (if ok : bool then PStr value else PNull)
                         (sn_expire n) (sn_forward n));;
  mret ok.

Definition put_expire (target : addr) (expire_ms : Z) : M kvs_skiplist unit :=
  n ← get_node target;
  put_node target (SNode (sn_key n) (sn_value n) expire_ms (sn_forward n)).

(** for (i = inst->level + 1; i <= level; i++) update[i] = inst->header *)
Fixpoint raise_update (i n : nat) (header : addr) (update : gmap nat addr) : gmap nat addr :=
  match n with
  | O => update
  | S n' => raise_update (S i) n' header (<[i := header]> update)
  end.

(** The splice at levels i, i+1, ..., i+n-1. *)
Fixpoint link_levels (i n : nat) (new_node : addr) (update : gmap nat addr) : M kvs_skiplist unit :=
  match n with
  | O => mret tt
  | S n' =>
      p ← get_update update i;
      f ← get_forward p i;
      put_forward new_node i f;;
      put_forward p i (Some new_node);;
      link_levels (S i) n' new_node update
  end.

(** The target of a search: update[0]->forward[0], and whether it has the key. *)
Definition find_target (key : bytes) (update : gmap nat addr) : M kvs_skiplist (option addr) :=
  p ← get_update update 0;
  target ← get_forward p 0;
  match target with
  | None => mret None
  | Some a =>
      n ← get_node a;
      k ← read_str (sn_key n);
      mret (if strcmp k key =? 0 then Some a else None)
  end.

Definition kvs_skiplist_set (key value : cptr) (expire_ms : Z) : M kvs_skiplist Z :=
  arg2 (-1) key value (λ k v,
    update ← skiplist_find_predecessors k;
    target ← find_target k update;
    match target with
    | Some a =>
        ok ← replace_value a v;
        if negb ok then mret (-2) else
        put_expire a expire_ms;;
        mret 0
    | None =>
        level ← random_level;
        cur ← gets sk_level;
        header ← get_header;
        let update' :=
          if (cur <? level)%nat then raise_update (S cur) (level - cur) header update else update in
        (if (cur <? level)%nat then modify (set_level level) else mret tt);;
        new_node ← skiplist_new_node level (PStr k) (PStr v) expire_ms;
        match new_node with
        | None => mret (-2)
        | Some a =>
            link_levels 0 (S level) a update';;
            modify (add_size 1);;
            mret 0
        end
    end).

(** for (i = 0; i <= inst->level; i++): unlink [target] where it is linked. *)
Fixpoint unlink_levels (i n : nat) (target : addr) (update : gmap nat addr) : M kvs_skiplist unit :=
  match n with
  | O => mret tt
  | S n' =>
      p ← get_update update i;
      f ← get_forward p i;
      (if decide (f = Some target)
       then g ← get_forward target i; put_forward p i g
       else mret tt);;
      unlink_levels (S i) n' target update
  end.

(** while (inst->level > 0 && inst->header->forward[inst->level] == NULL) inst->level--; *)
Fixpoint lower_level (level : nat) : M kvs_skiplist unit :=
  match level with
  | O => mret tt
  | S level' =>
      header ← get_header;
      f ← get_forward header level;
      match f with
      | None => modify (set_level level');; lower_level level'
      | Some _ => mret tt
      end
  end.

Definition kvs_skiplist_del (key : cptr) : M kvs_skiplist Z :=
  arg1 (-1) key (λ k,
    update ← skiplist_find_predecessors k;
    target ← find_target k update;
    match target with
    | None => mret 1
    | Some a =>
        level ← gets sk_level;
        unlink_levels 0 (S level) a update;;
        lower_level level;;
        skiplist_free_node a;;
        modify (add_size (-1));;
        mret 0
    end).

Definition kvs_skiplist_get (key : cptr) : M kvs_skiplist cptr :=
  arg1 PNull key (λ k,
    current ← locate k;
    match current with
    | None => mret PNull
    | Some a =>
        now ← kvs_current_time_ms;
        n ← get_node a;
        if is_expired now (sn_expire n)
        then kvs_skiplist_del key;; mret PNull
        else mret (sn_value n)
    end).

Definition kvs_skiplist_mod (key value : cptr) : M kvs_skiplist Z :=
  arg2 (-1) key value (λ k v,
    current ← locate k;
    match current with
    | None => mret 1
    | Some a => ok ← replace_value a v; mret (if ok : bool then 0 else -2)
    end).

Definition kvs_skiplist_exist (key : cptr) : M kvs_skiplist Z :=
  arg1 (-1) key (λ _,
    val ← kvs_skiplist_get key;
    mret (if decide (val = PNull) then 1 else 0)).

Definition kvs_skiplist_expire (key : cptr) (expire_ms : Z) : M kvs_skiplist Z :=
  arg1 (-1) key (λ k,
    current ← locate k;
    match current with
    | None => mret 1
    | Some a =>
        if expire_ms =? 0 then kvs_skiplist_del key
        else put_expire a expire_ms;; mret 0
    end).

Definition kvs_skiplist_ttl (key : cptr) : M kvs_skiplist Z :=
  arg1 (-2) key (λ k,
    current ← locate k;
    match current with
    | None => mret (-2)
    | Some a =>
        n ← get_node a;
        if sn_expire n =? -1 then mret (-1) else
        now ← kvs_current_time_ms;
        ttl ← checked64 (sn_expire n - now);
        mret (clamp_ttl ttl)
    end).

Fixpoint scan_loop (fuel : nat) (now : Z) (node : option addr) : M kvs_skiplist unit :=
  match node with
  | None => mret tt
  | Some a =>
      match fuel with
      | O => fail OutOfFuel
      | S fuel' =>
          next ← get_forward a 0;
          n ← get_node a;
          (if is_expired now (sn_expire n) then kvs_skiplist_del (sn_key n);; mret tt else mret tt);;
          scan_loop fuel' now next
      end
  end.

Definition kvs_skiplist_scan_expired : M kvs_skiplist unit :=
  now ← kvs_current_time_ms;
  header ← get_header;
  node ← get_forward header 0;
  fuel ← walk_fuel;
  scan_loop fuel now node.

#[global] Arguments kvs_skiplist_del : simpl never.
#[global] Arguments kvs_skiplist_get : simpl never.

#[global] Instance skiplist_ops : EngineOps kvs_skiplist := {|
  e_set := kvs_skiplist_set;
  e_get := kvs_skiplist_get;
  e_del := kvs_skiplist_del;
  e_mod := kvs_skiplist_mod;
  e_exist := kvs_skiplist_exist;
  e_expire := kvs_skiplist_expire;
  e_ttl := kvs_skiplist_ttl;
  e_scan := kvs_skiplist_scan_expired
|}.

(** ** Representation

    The logical content of a skip list is a list of nodes sorted by key. *)

Record lnode := LNode {
  ln_addr   : addr;
  ln_height : nat;   (* its highest level *)
  ln_key    : bytes;
  ln_entry  : entry
}.

Definition entry_of (x : lnode) : bytes * entry := (ln_key x, ln_entry x).

(** The addresses of the nodes that reach level [i]. *)
Fixpoint tall (i : nat) (N : list lnode) : list addr :=
  match N with
  | [] => []
  | x :: N' => if bool_decide (i ≤ ln_height x)%nat then ln_addr x :: tall i N' else tall i N'
  end.

(** The pointer stored at level [i] of node [a]. *)
Definition fwd (h : gmap addr skiplist_node) (a : addr) (i : nat) : option (option addr) :=
  n ← h !! a; sn_forward n !! i.

Definition hd_or (l : list addr) (z : option addr) : option addr :=
  match l with [] => z | a :: _ => Some a end.

(** The nodes of [l] are linked at level [i] in order, the last one to [z]. *)
Fixpoint seg (h : gmap addr skiplist_node) (i : nat) (l : list addr) (z : option addr) : Prop :=
  match l with
  | [] => True
  | a :: l' => fwd h a i = Some (hd_or l' z) ∧ seg h i l' z
  end.

Definition node_ok (h : gmap addr skiplist_node) (x : lnode) : Prop :=
  ∃ f, h !! ln_addr x = Some (SNode (PStr (ln_key x)) (ln_entry x).1 (ln_entry x).2 f) ∧
       length f = S (ln_height x).

Definition header_ok (h : gmap addr skiplist_node) (a : addr) : Prop :=
  ∃ f, h !! a = Some (SNode PNull PNull (-1) f) ∧ length f = S SKIPLIST_MAX_LEVEL.

(** The heap holds the header [a] and the nodes [N], linked at every level. *)
Record heap_ok (h : gmap addr skiplist_node) (a : addr) (N : list lnode) : Prop := {
  ho_header : header_ok h a;
  ho_nodes  : Forall (node_ok h) N;
  ho_links  : ∀ i, (i ≤ SKIPLIST_MAX_LEVEL)%nat → seg h i (a :: tall i N) None;
  ho_nodup  : NoDup (a :: (ln_addr <$> N));
  ho_sorted : StronglySorted str_lt (ln_key <$> N)
}.

Record sk_rep (s : kvs_skiplist) (a : addr) (N : list lnode) : Prop := {
  sr_header : sk_header s = Some a;
  sr_heap   : heap_ok (sk_heap s) a N;
  sr_level  : Forall (λ x, ln_height x ≤ sk_level s)%nat N;
  sr_max    : (sk_level s ≤ SKIPLIST_MAX_LEVEL)%nat;
  sr_fresh  : ∀ b, is_Some (sk_heap s !! b) → (b < sk_fresh s)%nat;
  sr_size   : sk_size s = Z.of_nat (length N)
}.

(** The entries reached along level 0. *)
Fixpoint collect (fuel : nat) (h : gmap addr skiplist_node) (p : option addr) : list (bytes * entry) :=
  match fuel, p with
  | S fuel', Some a =>
      match h !! a with
      | Some n =>
          match sn_key n with
          | PStr k => (k, (sn_value n, sn_expire n)) :: collect fuel' h (mjoin (sn_forward n !! 0%nat))
          | _ => []
          end
      | None => []
      end
  | _, _ => []
  end.

Definition sk_entries (s : kvs_skiplist) : list (bytes * entry) :=
  match sk_header s with
  | Some a => collect (size (sk_heap s)) (sk_heap s) (mjoin (fwd (sk_heap s) a 0))
  | None => []
  end.

Definition sk_abs (s : kvs_skiplist) : dict := list_to_map (sk_entries s).

Definition sk_wf (s : kvs_skiplist) : Prop := (∃ a N, sk_rep s a N) ∧ no_freed (sk_abs s).
Definition sk_inv (s : kvs_skiplist) : Prop := (∃ a N, sk_rep s a N) ∧ clean (sk_abs s).

Lemma sk_inv_wf s : sk_inv s → sk_wf s.
Proof. intros [??]. split; [done|]. by apply clean_no_freed. Qed.

(** ** The levels of a sorted list *)

Lemma tall_app i N1 N2 : tall i (N1 ++ N2) = tall i N1 ++ tall i N2.
Proof. induction N1 as [|x N1 IH]; simpl; [done|]. rewrite IH. by case_bool_decide. Qed.

Lemma tall_0 N : tall 0 N = ln_addr <$> N.
Proof. induction N as [|x N IH]; simpl; [done|]. by rewrite IH. Qed.

Lemma tall_elem i N b :
  b ∈ tall i N ↔ ∃ x, x ∈ N ∧ ln_addr x = b ∧ (i ≤ ln_height x)%nat.
Proof.
  induction N as [|x N IH]; simpl; [set_solver|].
  case_bool_decide; rewrite ?elem_of_cons, IH; set_solver.
Qed.

Lemma tall_sublist i j N : (i ≤ j)%nat → sublist (tall j N) (tall i N).
Proof.
  intros Hij. induction N as [|x N IH]; simpl; [constructor|].
  repeat case_bool_decide; try lia; try done; by constructor.
Qed.

Lemma tall_addrs i N : sublist (tall i N) (ln_addr <$> N).
Proof. rewrite <-tall_0. apply tall_sublist. lia. Qed.

(** The node a new key goes after, at level [i]: the last tall one below it. *)
Definition pred_at (a : addr) (i : nat) (Lo : list lnode) : addr := List.last (tall i Lo) a.

Lemma last_cons_split {A} (a : A) (l : list A) : ∃ l', a :: l = l' ++ [List.last l a].
Proof.
  revert a. induction l as [|b l IH]; intros a; [by exists []|].
  destruct (IH b) as [l' Hl']. exists (a :: l'). simpl.
  replace (match l with [] => b | _ :: _ => List.last l a end) with (List.last l b).
  { by rewrite Hl'. }
  clear. destruct l as [|c l]; [done|]. revert c. induction l; intros c; [done|]. simpl in *. eauto.
Qed.

Lemma pred_at_split a i Lo : ∃ c, a :: tall i Lo = c ++ [pred_at a i Lo].
Proof. apply last_cons_split. Qed.

(** The predecessor at a level is on every lower level too. *)
Lemma pred_at_lower a i j Lo : (i ≤ j)%nat → pred_at a j Lo ∈ a :: tall i Lo.
Proof.
  intros Hij. destruct (pred_at_split a j Lo) as [c Hc].
  assert (pred_at a j Lo ∈ a :: tall j Lo) as Hin by (rewrite Hc; set_solver).
  apply elem_of_cons in Hin as [->|Hin]; [by left|]. right.
  eapply elem_of_sublist; [done|]. by apply tall_sublist.
Qed.

(** Splitting the sorted nodes at a key. *)
Definition split_at (k : bytes) (Lo Hi : list lnode) : Prop :=
  Forall (λ x, strcmp (ln_key x) k < 0) Lo ∧ Forall (λ x, 0 ≤ strcmp (ln_key x) k) Hi.

Lemma split_exists N k :
  StronglySorted str_lt (ln_key <$> N) → ∃ Lo Hi, N = Lo ++ Hi ∧ split_at k Lo Hi.
Proof.
  induction N as [|x N IH]; intros Hs; simpl in *.
  { exists [], []. repeat constructor. }
  apply StronglySorted_inv in Hs as [Hs Hx].
  destruct (decide (strcmp (ln_key x) k < 0)) as [Hlt|Hge].
  - destruct (IH Hs) as (Lo & Hi & -> & HLo & HHi). exists (x :: Lo), Hi.
    split; [done|]. split; [by constructor|done].
  - exists [], (x :: N). split; [done|]. split; [constructor|]. constructor; [lia|].
    apply Forall_forall. intros y Hy.
    assert (str_lt (ln_key x) (ln_key y)) as Hxy.
    { eapply Forall_forall; [exact Hx|]. by apply list_elem_of_fmap_2. }
    destruct (decide (strcmp (ln_key y) k < 0)) as [Hy'|]; [|lia].
    pose proof (strcmp_lt_trans _ _ _ Hxy Hy'). lia.
Qed.

(** ** Segments *)

Lemma seg_app h i l1 l2 z : seg h i (l1 ++ l2) z ↔ seg h i l1 (hd_or l2 z) ∧ seg h i l2 z.
Proof.
  induction l1 as [|a l1 IH]; simpl; [naive_solver|]. rewrite IH.
  assert (hd_or (l1 ++ l2) z = hd_or l1 (hd_or l2 z)) as -> by (by destruct l1). naive_solver.
Qed.

Lemma seg_frame h h' i l z :
  (∀ b, b ∈ l → fwd h' b i = fwd h b i) → seg h i l z → seg h' i l z.
Proof.
  induction l as [|a l IH]; simpl; [done|]. intros Hf [Ha Hl]. split.
  - rewrite Hf; [done|set_solver].
  - apply IH; [|done]. intros b Hb. apply Hf. set_solver.
Qed.

(** Redirecting the last pointer of a segment. *)
Lemma seg_redirect h h' i c p z z' :
  NoDup (c ++ [p]) →
  (∀ b, b ≠ p → fwd h' b i = fwd h b i) → fwd h' p i = Some z' →
  seg h i (c ++ [p]) z → seg h' i (c ++ [p]) z'.
Proof.
  intros Hnd Hf Hp. rewrite !seg_app. simpl. intros [Hc _]. split; [|done].
  apply NoDup_app in Hnd as (_ & Hd & _).
  eapply seg_frame; [|done]. intros b Hb. apply Hf. intros ->. eapply Hd; [done|set_solver].
Qed.

(** ** Pointer accesses *)

(** The heap after [a->forward[i] = v]. *)
Definition upd_fwd (h : gmap addr skiplist_node) (a : addr) (i : nat) (v : option addr)
    : gmap addr skiplist_node :=
  alter (λ n, SNode (sn_key n) (sn_value n) (sn_expire n) (<[i := v]> (sn_forward n))) a h.

Lemma fwd_upd_eq h a i v : is_Some (fwd h a i) → fwd (upd_fwd h a i v) a i = Some v.
Proof.
  unfold fwd, upd_fwd. intros [f Hf]. rewrite lookup_alter_eq.
  destruct (h !! a) as [n|]; simplify_eq/=. apply list_lookup_insert_eq.
  by eapply lookup_lt_Some.
Qed.

Lemma fwd_upd_ne h a i v b j : (b ≠ a ∨ j ≠ i) → fwd (upd_fwd h a i v) b j = fwd h b j.
Proof.
  unfold fwd, upd_fwd. intros Hne. destruct (decide (b = a)) as [->|].
  - rewrite lookup_alter_eq. destruct (h !! a) as [n|]; simpl; [|done].
    destruct Hne; [done|]. by apply list_lookup_insert_ne.
  - by rewrite lookup_alter_ne.
Qed.

(** The heaps agree on what is stored in a node apart from its pointers. *)
Definition same_data (h h' : gmap addr skiplist_node) (b : addr) : Prop :=
  match h !! b with
  | Some (SNode k v e f) => ∃ f', h' !! b = Some (SNode k v e f') ∧ length f' = length f
  | None => h' !! b = None
  end.

Lemma same_data_upd h a i v b : same_data h (upd_fwd h a i v) b.
Proof.
  unfold same_data, upd_fwd. destruct (decide (a = b)) as [->|].
  - rewrite lookup_alter_eq. destruct (h !! b) as [[k p e f]|]; simpl; [|done].
    eexists. split; [done|]. apply length_insert.
  - rewrite lookup_alter_ne by done. destruct (h !! b) as [[k p e f]|]; eauto.
Qed.

Lemma same_data_refl h b : same_data h h b.
Proof. unfold same_data. destruct (h !! b) as [[k p e f]|]; eauto. Qed.

Lemma same_data_trans h1 h2 h3 b : same_data h1 h2 b → same_data h2 h3 b → same_data h1 h3 b.
Proof.
  unfold same_data. destruct (h1 !! b) as [[k p e f]|].
  - intros (f' & -> & Hl) (f'' & -> & Hl'). exists f''. split; [done|congruence].
  - by intros ->.
Qed.

Lemma same_data_dom h h' b : same_data h h' b → is_Some (h' !! b) → is_Some (h !! b).
Proof. unfold same_data. destruct (h !! b); [by eauto|]. by intros ->. Qed.

Lemma node_ok_same h h' x : same_data h h' (ln_addr x) → node_ok h x → node_ok h' x.
Proof. intros Hs (f & Hx & Hl). unfold same_data in Hs. rewrite Hx in Hs. destruct Hs as (f' & ? & ?). exists f'. split; [done|lia]. Qed.

Lemma header_ok_same h h' a : same_data h h' a → header_ok h a → header_ok h' a.
Proof. intros Hs (f & Hx & Hl). unfold same_data in Hs. rewrite Hx in Hs. destruct Hs as (f' & ? & ?). exists f'. split; [done|lia]. Qed.

Section access.
Context (E : env) (s : kvs_skiplist) (t : nat).

Lemma wp_get_node a n Q :
  sk_heap s !! a = Some n → Q n s t → wp (get_node a) Q E s t.
Proof. intros Ha HQ. unfold get_node. wp_steps. rewrite Ha. by wp_steps. Qed.

Lemma wp_get_header a Q : sk_header s = Some a → Q a s t → wp get_header Q E s t.
Proof. intros Ha HQ. unfold get_header. wp_steps. rewrite Ha. by wp_steps. Qed.

Lemma wp_get_forward a i f Q :
  fwd (sk_heap s) a i = Some f → Q f s t → wp (get_forward a i) Q E s t.
Proof.
  unfold fwd. intros Hf HQ. destruct (sk_heap s !! a) as [n|] eqn:Ha; simplify_eq/=.
  unfold get_forward. wp_steps. eapply wp_get_node; [done|]. rewrite Hf. by wp_steps.
Qed.

Lemma wp_put_forward a i v Q :
  is_Some (fwd (sk_heap s) a i) → Q tt (set_heap (upd_fwd (sk_heap s) a i v) s) t →
  wp (put_forward a i v) Q E s t.
Proof.
  unfold fwd. intros [f Hf] HQ. destruct (sk_heap s !! a) as [n|] eqn:Ha; simplify_eq/=.
  unfold put_forward. wp_steps. eapply wp_get_node; [done|]. rewrite Hf.
  unfold put_node. wp_steps. exact_upto HQ. do 2 f_equal.
  unfold upd_fwd. apply map_eq. intros b. destruct (decide (a = b)) as [->|].
  - by rewrite lookup_alter_eq, lookup_insert_eq, Ha.
  - by rewrite lookup_alter_ne, lookup_insert_ne.
Qed.
End access.

(** ** The search *)

Lemma NoDup_size {A} (m : gmap addr A) (l : list addr) :
  NoDup l → (∀ b, b ∈ l → is_Some (m !! b)) → (length l ≤ size m)%nat.
Proof.
  intros Hnd Hl. rewrite <-size_dom. rewrite <-(size_list_to_set (C := gset addr) l Hnd).
  apply subseteq_size. intros b Hb%elem_of_list_to_set. by apply elem_of_dom, Hl.
Qed.

Section search.
Context (E : env) (s : kvs_skiplist) (a : addr) (Lo Hi : list lnode) (k : bytes).
Hypothesis Hheap : heap_ok (sk_heap s) a (Lo ++ Hi).
Hypothesis Hsplit : split_at k Lo Hi.

Lemma heap_node x : x ∈ Lo ++ Hi → node_ok (sk_heap s) x.
Proof using Hheap. intros Hx. by eapply Forall_forall; [apply (ho_nodes _ _ _ Hheap)|]. Qed.

Lemma heap_size : (S (length (Lo ++ Hi)) ≤ size (sk_heap s))%nat.
Proof using Hheap.
  rewrite <-(length_fmap ln_addr). change (S (length ?l)) with (length (a :: l)).
  apply NoDup_size; [apply (ho_nodup _ _ _ Hheap)|].
  intros b [->|(x & -> & Hx)%list_elem_of_fmap]%elem_of_cons.
  - destruct (ho_header _ _ _ Hheap) as (f & -> & _). eauto.
  - destruct (heap_node x Hx) as (f & -> & _). eauto.
Qed.

Lemma wp_walk i fuel c1 b c2 Q t :
  (i ≤ SKIPLIST_MAX_LEVEL)%nat → a :: tall i Lo = c1 ++ b :: c2 → (length c2 < fuel)%nat →
  Q (pred_at a i Lo) s t → wp (walk fuel b i k) Q E s t.
Proof using Hheap Hsplit.
  intros Hi' Hc Hfuel HQ. revert fuel c1 b Hc Hfuel.
  pose proof (ho_links _ _ _ Hheap i Hi') as Hseg. rewrite tall_app in Hseg.
  rewrite app_comm_cons in Hseg.
  induction c2 as [|b' c2 IH]; intros [|fuel] c1 b Hc Hfuel; simpl in Hfuel; try lia; simpl.
  - assert (pred_at a i Lo = b) as Hp.
    { destruct (pred_at_split a i Lo) as [c Hc']. rewrite Hc in Hc'.
      by apply app_inj_tail in Hc' as [_ ->]. }
    rewrite Hc, <-app_assoc, seg_app in Hseg. destruct Hseg as [_ [Hb _]]. simpl in Hb.
    wp_steps. eapply wp_get_forward; [done|].
    destruct (tall i Hi) as [|b' l] eqn:Ht; simpl; [wp_steps; by rewrite <-Hp|].
    assert (b' ∈ tall i Hi) as (x & Hx & <- & _)%tall_elem by (rewrite Ht; by left).
    destruct (heap_node x) as (f & Hxn & _); [set_solver|].
    wp_steps. eapply wp_get_node; [done|]. wp_steps. simpl. wp_steps.
    destruct Hsplit as [_ HHi]. rewrite Forall_forall in HHi. specialize (HHi x Hx).
    rewrite (proj2 (Z.ltb_ge _ _)) by lia. wp_steps. by rewrite <-Hp.
  - pose proof Hseg as Hseg'. rewrite Hc, <-app_assoc, seg_app in Hseg'.
    destruct Hseg' as [_ [Hb _]]. simpl in Hb.
    wp_steps. eapply wp_get_forward; [done|].
    assert (b' ∈ tall i Lo) as (x & Hx & <- & _)%tall_elem.
    { destruct c1; injection Hc as _ Htl; rewrite Htl; set_solver. }
    destruct (heap_node x) as (f & Hxn & _); [set_solver|].
    wp_steps. eapply wp_get_node; [done|]. wp_steps. simpl. wp_steps.
    destruct Hsplit as [HLo _]. rewrite Forall_forall in HLo. specialize (HLo x Hx).
    rewrite (proj2 (Z.ltb_lt _ _)) by lia.
    apply (IH fuel (c1 ++ [b])); [by rewrite <-app_assoc|lia].
Qed.

(** The descent from any node of the level. *)
Lemma wp_walk_from i b Q t :
  (i ≤ SKIPLIST_MAX_LEVEL)%nat → b ∈ a :: tall i Lo →
  Q (pred_at a i Lo) s t → wp (walk (S (size (sk_heap s))) b i k) Q E s t.
Proof using Hheap Hsplit.
  intros Hi' (c1 & c2 & Hc)%list_elem_of_split HQ. eapply wp_walk; [done..| |done].
  pose proof heap_size as Hsz. rewrite length_app in Hsz.
  pose proof (sublist_length _ _ (tall_addrs i Lo)) as Hl. rewrite length_fmap in Hl.
  apply (f_equal length) in Hc. rewrite length_app in Hc. simpl in Hc. lia.
Qed.

Lemma wp_find_levels i b u Q t :
  (i ≤ SKIPLIST_MAX_LEVEL)%nat → b ∈ a :: tall i Lo →
  (∀ u', (∀ j, (j ≤ i)%nat → u' !! j = Some (pred_at a j Lo)) →
         (∀ j, (i < j)%nat → u' !! j = u !! j) → Q u' s t) →
  wp (find_levels i b k u) Q E s t.
Proof using Hheap Hsplit.
  revert b u Q. induction i as [|i IH]; intros b u Q Hi' Hb HQ; simpl;
    unfold walk_fuel; wp_steps; (apply wp_walk_from; [done..|]); wp_steps.
  - apply HQ; intros j Hj.
    + replace j with 0%nat by lia. by rewrite lookup_insert_eq.
    + by rewrite lookup_insert_ne by lia.
  - apply IH; [lia|by apply pred_at_lower; lia|]. intros u' H1 H2. apply HQ; intros j Hj.
    + destruct (decide (j = S i)) as [->|]; [|apply H1; lia].
      rewrite H2, lookup_insert_eq by lia. done.
    + rewrite H2, lookup_insert_ne by lia. done.
Qed.

Lemma wp_descend i b Q t :
  (i ≤ SKIPLIST_MAX_LEVEL)%nat → b ∈ a :: tall i Lo →
  Q (pred_at a 0 Lo) s t → wp (descend i b k) Q E s t.
Proof using Hheap Hsplit.
  revert b. induction i as [|i IH]; intros b Hi' Hb HQ; simpl;
    unfold walk_fuel; wp_steps; (apply wp_walk_from; [done..|]); wp_steps; [done|].
  apply IH; [lia|by apply pred_at_lower; lia|done].
Qed.

(** The pointer of the last node below the key leads to the first one not below. *)
Lemma pred_forward i :
  (i ≤ SKIPLIST_MAX_LEVEL)%nat →
  fwd (sk_heap s) (pred_at a i Lo) i = Some (hd_or (tall i Hi) None).
Proof using Hheap.
  intros Hi'. pose proof (ho_links _ _ _ Hheap i Hi') as Hseg.
  rewrite tall_app, app_comm_cons in Hseg.
  destruct (pred_at_split a i Lo) as [c Hc]. rewrite Hc, <-app_assoc, seg_app in Hseg.
  simpl in Hseg. tauto.
Qed.
End search.

(** ** The dictionary of a skip list *)

Lemma sorted_NoDup (l : list bytes) : StronglySorted str_lt l → NoDup l.
Proof.
  induction 1 as [|x l Hs IH Hx]; constructor; [|done].
  intros Hin. rewrite Forall_forall in Hx. by apply (irreflexivity str_lt x), Hx.
Qed.

Lemma keys_of N : (entry_of <$> N).*1 = ln_key <$> N.
Proof. induction N as [|x N IH]; simpl; [done|]. by f_equal. Qed.

Lemma collect_rep h N fuel :
  Forall (node_ok h) N → seg h 0 (tall 0 N) None → (length N ≤ fuel)%nat →
  collect fuel h (hd_or (tall 0 N) None) = entry_of <$> N.
Proof.
  revert fuel. induction N as [|x N IH]; intros fuel HN Hs Hf; [by destruct fuel|].
  destruct fuel as [|fuel]; simpl in Hf; [lia|]. rewrite tall_0 in *. simpl in *.
  apply Forall_cons in HN as [(f & Hx & Hlen) HN]. destruct Hs as [Hx0 Hs].
  unfold fwd in Hx0. rewrite Hx in *. simpl in *. rewrite Hx0. simpl.
  rewrite <-tall_0 in *. rewrite IH; [|done..|lia]. unfold entry_of at 2.
  by destruct (ln_entry x).
Qed.

Lemma sk_rep_abs s a N : sk_rep s a N → sk_abs s = list_to_map (entry_of <$> N).
Proof.
  intros [Hh Hheap _ _ _ _]. unfold sk_abs, sk_entries. rewrite Hh.
  pose proof (ho_links _ _ _ Hheap 0%nat ltac:(lia)) as [H0 Hs]. rewrite H0. simpl.
  pose proof (heap_size s a [] N Hheap) as Hsz. simpl in Hsz.
  rewrite collect_rep; [done|apply Hheap|done|lia].
Qed.

Lemma rep_NoDup h a N : heap_ok h a N → NoDup (entry_of <$> N).*1.
Proof. intros Hh. rewrite keys_of. apply sorted_NoDup, Hh. Qed.

Lemma abs_found Lo x Hi :
  NoDup (entry_of <$> Lo ++ x :: Hi).*1 →
  (list_to_map (entry_of <$> Lo ++ x :: Hi) : dict) !! ln_key x = Some (ln_entry x).
Proof.
  intros Hnd. apply (assoc_lookup _ (length Lo)); [done|].
  rewrite list_lookup_fmap, lookup_app_r, Nat.sub_diag by lia. done.
Qed.

Lemma abs_missing N k :
  (∀ x, x ∈ N → ln_key x ≠ k) → (list_to_map (entry_of <$> N) : dict) !! k = None.
Proof.
  intros H. apply not_elem_of_list_to_map. rewrite keys_of.
  intros (x & -> & Hx)%list_elem_of_fmap. by eapply H.
Qed.

Lemma abs_delete Lo x Hi :
  NoDup (entry_of <$> Lo ++ x :: Hi).*1 →
  list_to_map (entry_of <$> Lo ++ Hi) =
    delete (ln_key x) (list_to_map (entry_of <$> Lo ++ x :: Hi) : dict).
Proof.
  intros Hnd. eapply (assoc_delete _ _ (ln_key x) (ln_entry x)); [done|].
  rewrite !fmap_app, fmap_cons. change (entry_of x) with (ln_key x, ln_entry x). solve_Permutation.
Qed.

Lemma abs_insert Lo x Hi :
  NoDup (entry_of <$> Lo ++ x :: Hi).*1 →
  list_to_map (entry_of <$> Lo ++ x :: Hi) =
    <[ln_key x := ln_entry x]> (list_to_map (entry_of <$> Lo ++ Hi) : dict).
Proof.
  intros Hnd. rewrite (list_to_map_proper _ (entry_of x :: (entry_of <$> Lo ++ Hi))); [done|done|].
  rewrite !fmap_app, fmap_cons. solve_Permutation.
Qed.

(** ** Finding the node of a key *)

Section find.
Context (E : env) (s : kvs_skiplist) (a : addr) (N : list lnode) (k : bytes).
Hypothesis Hrep : sk_rep s a N.

(** The first node not below the key, and whether it has the key. *)
Lemma target_cases Lo Hi (A : option addr → Prop) :
  N = Lo ++ Hi → split_at k Lo Hi →
  (∀ x Hi', Hi = x :: Hi' → ln_key x = k → A (Some (ln_addr x))) →
  ((∀ x, x ∈ N → ln_key x ≠ k) → A None) →
  A (match Hi with
     | x :: _ => if strcmp (ln_key x) k =? 0 then Some (ln_addr x) else None
     | [] => None
     end).
Proof using Hrep.
  intros HN [HLo HHi] HS HNo.
  assert (∀ x, x ∈ Lo → ln_key x ≠ k) as HLo'.
  { intros x Hx <-. rewrite Forall_forall in HLo. specialize (HLo x Hx).
    rewrite strcmp_refl in HLo. lia. }
  destruct Hi as [|x Hi]; [apply HNo; subst; rewrite app_nil_r; done|].
  destruct (strcmp (ln_key x) k =? 0) eqn:Hc; to_prop; [by eapply HS|].
  apply HNo. subst N. intros y [Hy|[->|Hy]%elem_of_cons]%elem_of_app; [by eauto|done|].
  intros <-. pose proof (ho_sorted _ _ _ (sr_heap _ _ _ Hrep)) as Hs.
  rewrite fmap_app in Hs. apply StronglySorted_app_1_r in Hs. simpl in Hs.
  apply StronglySorted_inv in Hs as [_ Hs]. rewrite Forall_forall in Hs.
  assert (str_lt (ln_key x) (ln_key y)) as Hlt by (by apply Hs, list_elem_of_fmap_2).
  apply Forall_cons in HHi as [Hge _]. unfold str_lt in Hlt. lia.
Qed.

Lemma wp_target_read Lo Hi Q t :
  N = Lo ++ Hi → Q (match Hi with
     | x :: _ => if strcmp (ln_key x) k =? 0 then Some (ln_addr x) else None
     | [] => None
     end) s t →
  wp (f ← get_forward (pred_at a 0 Lo) 0;
      match f with
      | None => mret None
      | Some a => n ← get_node a; k' ← read_str (sn_key n);
                  mret (if strcmp k' k =? 0 then Some a else None)
      end) Q E s t.
Proof using Hrep.
  intros HN HQ. pose proof (sr_heap _ _ _ Hrep) as Hheap. rewrite HN in Hheap.
  wp_steps. eapply wp_get_forward; [by apply pred_forward; [done|lia]|].
  rewrite tall_0. destruct Hi as [|x Hi]; simpl; wp_steps; [done|].
  destruct (heap_node s a Lo (x :: Hi) Hheap x) as (f & Hx & _); [set_solver|].
  eapply wp_get_node; [done|]. wp_steps. simpl. by wp_steps.
Qed.

Lemma wp_locate Q t :
  (∀ Lo x Hi, N = Lo ++ x :: Hi → ln_key x = k → Q (Some (ln_addr x)) s t) →
  ((∀ x, x ∈ N → ln_key x ≠ k) → Q None s t) →
  wp (locate k) Q E s t.
Proof using Hrep.
  intros HS HNo. pose proof (sr_heap _ _ _ Hrep) as Hheap.
  destruct (split_exists N k (ho_sorted _ _ _ Hheap)) as (Lo & Hi & HN & Hsp).
  rewrite HN in Hheap. unfold locate. wp_steps.
  eapply wp_get_header; [apply Hrep|]. wp_steps.
  eapply (wp_descend E s a Lo Hi k); [done|done|apply Hrep|by left|].
  eapply wp_target_read; [done|].
  apply (target_cases Lo Hi (λ r, Q r s t)); [done|done| |done].
  intros x Hi' -> Hk. by eapply HS.
Qed.

Lemma wp_find_predecessors Q t :
  (∀ Lo Hi u, N = Lo ++ Hi → split_at k Lo Hi →
     (∀ j, (j ≤ sk_level s)%nat → u !! j = Some (pred_at a j Lo)) → Q u s t) →
  wp (skiplist_find_predecessors k) Q E s t.
Proof using Hrep.
  intros HQ. pose proof (sr_heap _ _ _ Hrep) as Hheap.
  destruct (split_exists N k (ho_sorted _ _ _ Hheap)) as (Lo & Hi & HN & Hsp).
  rewrite HN in Hheap. unfold skiplist_find_predecessors. wp_steps.
  eapply wp_get_header; [apply Hrep|]. wp_steps.
  eapply (wp_find_levels E s a Lo Hi k); [done|done|apply Hrep|by left|].
  intros u Hu _. by eapply HQ.
Qed.

Lemma wp_find_target Lo Hi u Q t :
  N = Lo ++ Hi → split_at k Lo Hi → u !! 0%nat = Some (pred_at a 0 Lo) →
  (∀ x Hi', Hi = x :: Hi' → ln_key x = k → Q (Some (ln_addr x)) s t) →
  ((∀ x, x ∈ N → ln_key x ≠ k) → Q None s t) →
  wp (find_target k u) Q E s t.
Proof using Hrep.
  intros HN Hsp Hu HS HNo. unfold find_target, get_update. wp_step. rewrite Hu. wp_step.
  eapply wp_target_read; [done|].
  by apply (target_cases Lo Hi (λ r, Q r s t)).
Qed.
End find.

(** ** Changing the data of a node *)

Definition with_entry (x : lnode) (y : entry) : lnode :=
  LNode (ln_addr x) (ln_height x) (ln_key x) y.

Lemma rep_update s a Lo x Hi p e f :
  sk_rep s a (Lo ++ x :: Hi) →
  (∃ v e0, sk_heap s !! ln_addr x = Some (SNode (PStr (ln_key x)) v e0 f)) →
  sk_rep (set_heap (<[ln_addr x := SNode (PStr (ln_key x)) p e f]> (sk_heap s)) s) a
    (Lo ++ with_entry x (p, e) :: Hi).
Proof.
  intros [Hh [Hhd HN Hl Hnd Hs] Hlev Hmax Hfr Hsz] (v & e0 & Hx).
  assert (∀ b i, fwd (<[ln_addr x := SNode (PStr (ln_key x)) p e f]> (sk_heap s)) b i =
    fwd (sk_heap s) b i) as Hf.
  { intros b i. unfold fwd. destruct (decide (ln_addr x = b)) as [<-|]; simplify_map_eq; done. }
  assert (∀ i, tall i (Lo ++ with_entry x (p, e) :: Hi) = tall i (Lo ++ x :: Hi)) as Ht.
  { intros i. by rewrite !tall_app. }
  assert (ln_addr <$> (Lo ++ with_entry x (p, e) :: Hi) = ln_addr <$> (Lo ++ x :: Hi)) as Ha.
  { by rewrite !fmap_app. }
  apply Forall_app in HN as [HLo HHi]. apply Forall_cons in HHi as [(f' & Hx' & Hlf) HHi].
  pose proof Hnd as [Hna Hnd']%NoDup_cons. rewrite fmap_app in Hnd'. simpl in Hnd'.
  apply NoDup_app in Hnd' as (_ & Hd1 & [Hd2 _]%NoDup_cons).
  assert (∀ y, ln_addr y ≠ ln_addr x → node_ok (sk_heap s) y →
    node_ok (<[ln_addr x := SNode (PStr (ln_key x)) p e f]> (sk_heap s)) y) as Hne.
  { intros y Hy (g & Hyg & Hlg). exists g. by rewrite lookup_insert_ne. }
  split; simpl; [done| |by rewrite !Forall_app, !Forall_cons in * |done| |].
  - split.
    + destruct Hhd as (g & Hg & Hlg). exists g. rewrite lookup_insert_ne; [done|].
      intros Heq. apply Hna. rewrite <-Heq. set_solver.
    + apply Forall_app. split; [|constructor].
      * rewrite Forall_forall in HLo |- *. intros y Hy. apply Hne; [|by apply HLo].
        intros Heq. apply (Hd1 (ln_addr y)); [set_solver|]. rewrite Heq. by left.
      * exists f. simpl. rewrite lookup_insert_eq. split; [done|]. congruence.
      * rewrite Forall_forall in HHi |- *. intros y Hy. apply Hne; [|by apply HHi].
        intros Heq. apply Hd2. rewrite <-Heq. by apply list_elem_of_fmap_2.
    + intros i Hi'. rewrite Ht. eapply seg_frame; [|by apply Hl]. intros b _. apply Hf.
    + by rewrite Ha.
    + by rewrite !fmap_app in *.
  - intros b [Hb|Hb]%lookup_insert_is_Some; [|naive_solver]. subst. apply Hfr. by rewrite Hx.
  - rewrite Hsz, !length_app. done.
Qed.

(** ** Splicing a node in *)

Section splice.
Context (a : addr) (Lo : list lnode) (x : lnode) (Hi : list lnode).
Hypothesis Hnd : NoDup (a :: (ln_addr <$> Lo ++ x :: Hi)).

Lemma chain_NoDup i : NoDup ((a :: tall i Lo) ++ ln_addr x :: tall i Hi).
Proof using Hnd.
  eapply sublist_NoDup; [exact Hnd|]. rewrite fmap_app. simpl.
  apply sublist_skip, sublist_app; [apply tall_addrs|]. apply sublist_skip, tall_addrs.
Qed.

Lemma tall_above i : (ln_height x < i)%nat → tall i (Lo ++ x :: Hi) = tall i (Lo ++ Hi).
Proof. intros H. rewrite !tall_app. simpl. by rewrite bool_decide_false by lia. Qed.

Lemma tall_reach i : (i ≤ ln_height x)%nat →
  tall i (Lo ++ x :: Hi) = tall i Lo ++ ln_addr x :: tall i Hi.
Proof. intros H. rewrite tall_app. simpl. by rewrite bool_decide_true. Qed.

(** One level of a splice: from [p -> z] to [p -> x -> z]. *)
Lemma seg_splice h h' i :
  (i ≤ ln_height x)%nat →
  seg h i (a :: tall i (Lo ++ Hi)) None →
  (∀ b, b ≠ pred_at a i Lo → b ≠ ln_addr x → fwd h' b i = fwd h b i) →
  fwd h' (pred_at a i Lo) i = Some (Some (ln_addr x)) →
  fwd h' (ln_addr x) i = fwd h (pred_at a i Lo) i →
  seg h' i (a :: tall i (Lo ++ x :: Hi)) None.
Proof using Hnd.
  intros Hix Hs Hf Hp Hx. rewrite tall_reach, app_comm_cons by done.
  rewrite tall_app, app_comm_cons in Hs. pose proof (chain_NoDup i) as Hch.
  destruct (pred_at_split a i Lo) as [c Hc]. rewrite Hc in *.
  apply seg_app in Hs as [Hs1 Hs2]. apply NoDup_app in Hch as (Hc1 & Hc2 & [Hc3 _]%NoDup_cons).
  apply seg_app. split.
  - rewrite seg_app in *. destruct Hs1 as [Hs1 _]. split; [|done].
    eapply seg_frame; [|exact Hs1]. intros b Hb. apply Hf.
    + apply NoDup_app in Hc1 as (_ & Hc1 & _). intros ->. eapply Hc1; [done|set_solver].
    + intros ->. eapply Hc2; [|by left]. set_solver.
  - simpl. split.
    + rewrite Hx. apply seg_app in Hs1 as [_ [Hs1 _]]. exact Hs1.
    + eapply seg_frame; [|exact Hs2]. intros b Hb. apply Hf.
      * intros ->. eapply (Hc2 (pred_at a i Lo)); [set_solver|]. by right.
      * intros ->. done.
Qed.

(** One level of an unlinking: from [p -> x -> z] to [p -> z]. *)
Lemma seg_unsplice h h' i :
  (i ≤ ln_height x)%nat →
  seg h i (a :: tall i (Lo ++ x :: Hi)) None →
  (∀ b, b ≠ pred_at a i Lo → fwd h' b i = fwd h b i) →
  fwd h' (pred_at a i Lo) i = fwd h (ln_addr x) i →
  seg h' i (a :: tall i (Lo ++ Hi)) None.
Proof using Hnd.
  intros Hix Hs Hf Hp. rewrite tall_reach, app_comm_cons in Hs by done.
  rewrite tall_app, app_comm_cons. pose proof (chain_NoDup i) as Hch.
  destruct (pred_at_split a i Lo) as [c Hc]. rewrite Hc in *.
  apply seg_app in Hs as [Hs1 [Hx Hs2]]. apply NoDup_app in Hch as (Hc1 & Hc2 & [Hc3 _]%NoDup_cons).
  apply seg_app. split.
  - eapply seg_redirect; [done|done| |exact Hs1]. rewrite Hp. exact Hx.
  - eapply seg_frame; [|exact Hs2]. intros b Hb. apply Hf. intros ->.
    eapply (Hc2 (pred_at a i Lo)); [set_solver|]. by right.
Qed.

(** The state of the splicing loop at level [i]. *)
Definition spliced (i : nat) (h : gmap addr skiplist_node) : Prop :=
  node_ok h x ∧
  (∀ j, (j < i)%nat → (j ≤ SKIPLIST_MAX_LEVEL)%nat → seg h j (a :: tall j (Lo ++ x :: Hi)) None) ∧
  (∀ j, (i ≤ j)%nat → (j ≤ SKIPLIST_MAX_LEVEL)%nat → seg h j (a :: tall j (Lo ++ Hi)) None).

Definition unspliced (i : nat) (h : gmap addr skiplist_node) : Prop :=
  node_ok h x ∧
  (∀ j, (j < i)%nat → (j ≤ SKIPLIST_MAX_LEVEL)%nat → seg h j (a :: tall j (Lo ++ Hi)) None) ∧
  (∀ j, (i ≤ j)%nat → (j ≤ SKIPLIST_MAX_LEVEL)%nat → seg h j (a :: tall j (Lo ++ x :: Hi)) None).

Lemma node_fwd h i : node_ok h x → (i ≤ ln_height x)%nat → is_Some (fwd h (ln_addr x) i).
Proof.
  intros (f & Hx & Hlen) Hi'. unfold fwd. rewrite Hx. simpl. apply lookup_lt_is_Some_2. lia.
Qed.

Lemma pred_fwd h i N : seg h i (a :: tall i (Lo ++ N)) None →
  fwd h (pred_at a i Lo) i = Some (hd_or (tall i N) None).
Proof.
  rewrite tall_app, app_comm_cons. destruct (pred_at_split a i Lo) as [c ->].
  rewrite !seg_app. simpl. tauto.
Qed.

Lemma pred_ne i : pred_at a i Lo ≠ ln_addr x.
Proof using Hnd.
  pose proof (chain_NoDup i) as Hch. destruct (pred_at_split a i Lo) as [c Hc]. rewrite Hc in Hch.
  apply NoDup_app in Hch as (_ & Hd & _). intros Heq. eapply (Hd (pred_at a i Lo)); [set_solver|].
  rewrite Heq. by left.
Qed.

Lemma wp_link_levels E u i n s t Q :
  (ln_height x ≤ SKIPLIST_MAX_LEVEL)%nat →
  (i + n = S (ln_height x))%nat →
  (∀ j, (j ≤ ln_height x)%nat → u !! j = Some (pred_at a j Lo)) →
  spliced i (sk_heap s) →
  (∀ h', (∀ b, same_data (sk_heap s) h' b) → spliced (S (ln_height x)) h' → Q tt (set_heap h' s) t) →
  wp (link_levels i n (ln_addr x) u) Q E s t.
Proof using Hnd.
  intros Hmax. revert i s. induction n as [|n IH]; intros i s Hin Hu (Hx & Hdone & Htodo) HQ; simpl; wp_steps.
  { replace (S (ln_height x)) with i in HQ by lia.
    specialize (HQ (sk_heap s)). destruct s. apply HQ; [by intros; apply same_data_refl|done]. }
  unfold get_update. rewrite Hu by lia. wp_steps.
  pose proof (Htodo i ltac:(lia) ltac:(lia)) as Hsi. pose proof (pred_fwd _ _ _ Hsi) as Hp.
  pose proof (pred_ne i) as Hpne. set (p := pred_at a i Lo) in *.
  eapply wp_get_forward; [done|]. wp_steps.
  apply wp_put_forward; [by apply node_fwd; [|lia]|]. wp_steps.
  apply wp_put_forward; [simpl; rewrite fwd_upd_ne by (by left); by rewrite Hp|]. wp_steps.
  simpl. set (h1 := upd_fwd (sk_heap s) (ln_addr x) i (hd_or (tall i Hi) None)).
  set (h2 := upd_fwd h1 p i (Some (ln_addr x))).
  assert (∀ b, same_data (sk_heap s) h2 b) as Hsd.
  { intros b. eapply same_data_trans; apply same_data_upd. }
  assert (∀ b j, j ≠ i → fwd h2 b j = fwd (sk_heap s) b j) as Hfr.
  { intros b j Hj. unfold h2, h1. by rewrite !fwd_upd_ne by (by right). }
  apply IH; simpl; [lia|done| |].
  - split; [by eapply node_ok_same|]. split; intros j Hj Hj'.
    + destruct (decide (j = i)) as [->|].
      * eapply seg_splice; [lia|exact Hsi|..]; fold p.
        -- intros b Hb1 Hb2. unfold h2, h1. by rewrite !fwd_upd_ne by (by left).
        -- apply fwd_upd_eq. unfold h1. rewrite fwd_upd_ne by (by left). by rewrite Hp.
        -- unfold h2. rewrite fwd_upd_ne by (left; congruence). rewrite Hp. apply fwd_upd_eq.
           apply node_fwd; [done|lia].
      * eapply seg_frame; [|apply Hdone; lia]. intros b _. by apply Hfr.
    + eapply seg_frame; [|apply Htodo; lia]. intros b _. apply Hfr. lia.
  - intros h' Hsd' Hsp. apply HQ; [|done]. intros b. eapply same_data_trans; [apply Hsd|done].
Qed.

Lemma wp_unlink_levels E u i n s t Q :
  (i + n ≤ S SKIPLIST_MAX_LEVEL)%nat →
  (∀ j, (j < i + n)%nat → u !! j = Some (pred_at a j Lo)) →
  unspliced i (sk_heap s) →
  (∀ h', (∀ b, same_data (sk_heap s) h' b) → unspliced (i + n) h' → Q tt (set_heap h' s) t) →
  wp (unlink_levels i n (ln_addr x) u) Q E s t.
Proof using Hnd.
  revert i s. induction n as [|n IH]; intros i s Hin Hu (Hx & Hdone & Htodo) HQ; simpl; wp_steps.
  { rewrite Nat.add_0_r in HQ.
    specialize (HQ (sk_heap s)). destruct s. apply HQ; [by intros; apply same_data_refl|done]. }
  unfold get_update. rewrite Hu by lia. wp_steps.
  pose proof (Htodo i ltac:(lia) ltac:(lia)) as Hsi. pose proof (pred_fwd _ _ _ Hsi) as Hp.
  pose proof (pred_ne i) as Hpne. set (p := pred_at a i Lo) in *.
  eapply wp_get_forward; [done|]. wp_steps. simpl. case_bool_decide as Hix; simpl.
  - rewrite decide_True by done. wp_steps. destruct (node_fwd _ i Hx Hix) as [g Hg].
    eapply wp_get_forward; [done|]. wp_steps. apply wp_put_forward; [by rewrite Hp|]. wp_steps.
    set (h1 := upd_fwd (sk_heap s) p i g).
    assert (∀ b, same_data (sk_heap s) h1 b) as Hsd by (intros b; apply same_data_upd).
    apply IH; simpl; [lia|by rewrite Nat.add_succ_r in Hu| |].
    + split; [by eapply node_ok_same|]. split; intros j Hj Hj'.
      * destruct (decide (j = i)) as [->|].
        -- eapply seg_unsplice; [done|exact Hsi|..]; fold p.
           ++ intros b Hb. apply fwd_upd_ne. by left.
           ++ rewrite Hg. apply fwd_upd_eq. by rewrite Hp.
        -- eapply seg_frame; [|apply Hdone; lia]. intros b _. apply fwd_upd_ne. by right.
      * eapply seg_frame; [|apply Htodo; lia]. intros b _. apply fwd_upd_ne. right. lia.
    + intros h' Hsd' Hsp. rewrite Nat.add_succ_r in HQ. apply HQ; [|done].
      intros b. eapply same_data_trans; [apply Hsd|done].
  - rewrite decide_False. 2:{ pose proof (chain_NoDup i) as Hch.
      apply NoDup_app in Hch as (_ & _ & [Hc _]%NoDup_cons).
      destruct (tall i Hi); simpl; [done|]. intros [=->]. apply Hc. by left. }
    wp_steps. apply IH; [lia|by rewrite Nat.add_succ_r in Hu| |by rewrite Nat.add_succ_r in HQ].
    split; [done|]. split; intros j Hj Hj'; [|apply Htodo; lia].
    destruct (decide (j = i)) as [->|]; [|apply Hdone; lia].
    rewrite <-tall_above by lia. done.
Qed.
End splice.

(** ** Unlinking a node *)

Lemma heap_ok_free h a N b :
  heap_ok h a N → b ∉ a :: (ln_addr <$> N) → heap_ok (delete b h) a N.
Proof.
  intros [Hhd HN Hl Hnd Hs] Hb. apply not_elem_of_cons in Hb as [Hba Hb].
  split; [| | |done|done].
  - destruct Hhd as (f & Hf & ?). exists f. by rewrite lookup_delete_ne.
  - rewrite Forall_forall in HN |- *. intros x Hx. destruct (HN x Hx) as (f & Hf & ?).
    exists f. rewrite lookup_delete_ne; [done|]. intros ->. apply Hb. by apply list_elem_of_fmap_2.
  - intros i Hi. eapply seg_frame; [|by apply Hl]. intros c Hc. unfold fwd.
    rewrite lookup_delete_ne; [done|]. intros ->.
    apply elem_of_cons in Hc as [->|Hc]; [done|]. apply Hb.
    eapply elem_of_sublist; [done|apply tall_addrs].
Qed.

Lemma wp_lower_level E s a N t Q :
  sk_header s = Some a → heap_ok (sk_heap s) a N →
  Forall (λ x, ln_height x ≤ sk_level s)%nat N → (sk_level s ≤ SKIPLIST_MAX_LEVEL)%nat →
  (∀ l, Forall (λ x, ln_height x ≤ l)%nat N → (l ≤ sk_level s)%nat → Q tt (set_level l s) t) →
  wp (lower_level (sk_level s)) Q E s t.
Proof.
  intros Ha Hheap. remember (sk_level s) as l eqn:Hl. revert s Hl Ha Hheap.
  induction l as [|l IH]; intros s Hl Ha Hheap Hlev Hmax HQ; simpl; wp_steps.
  { specialize (HQ 0%nat). destruct s. simpl in *. subst. by apply HQ. }
  eapply wp_get_header; [done|]. wp_steps.
  destruct (ho_links _ _ _ Hheap (S l) ltac:(lia)) as [Hf _].
  eapply wp_get_forward; [done|].
  destruct (tall (S l) N) as [|b c] eqn:Ht; simpl; wp_steps.
  - apply IH; simpl; [done|done|done| |lia|].
    + rewrite Forall_forall in Hlev |- *. intros x Hx.
      destruct (decide (ln_height x = S l)) as [Heq|]; [|specialize (Hlev x Hx); lia].
      assert (ln_addr x ∈ tall (S l) N) as Hin by (apply tall_elem; exists x; split_and!; [done..|lia]).
      rewrite Ht in Hin. set_solver.
    + intros l' Hl' Hle. apply (HQ l'); [done|lia].
  - specialize (HQ (S l)). rewrite Hl in HQ at 3. destruct s. simpl in *. subst. by apply HQ.
Qed.

Lemma wp_free_node E s a n t Q :
  sk_heap s !! a = Some n → sn_key n ≠ PFreed → sn_value n ≠ PFreed →
  Q tt (set_heap (delete a (sk_heap s)) s) t → wp (skiplist_free_node a) Q E s t.
Proof.
  intros Ha Hk Hv HQ. unfold skiplist_free_node. wp_steps. eapply wp_get_node; [done|].
  wp_steps. apply wp_free; [done|]. wp_steps. apply wp_free; [done|]. by wp_steps.
Qed.

Lemma key_unique L1 x R1 L2 y R2 :
  L1 ++ x :: R1 = L2 ++ y :: R2 → NoDup (ln_key <$> L1 ++ x :: R1) → ln_key x = ln_key y →
  L1 = L2 ∧ x = y ∧ R1 = R2.
Proof.
  revert L2. induction L1 as [|z L1 IH]; intros [|z' L2] Heq Hnd Hk; simplify_eq/=; try done.
  - apply NoDup_cons in Hnd as [Hn _]. destruct Hn. rewrite Hk, fmap_app. set_solver.
  - apply NoDup_cons in Hnd as [Hn _]. destruct Hn. rewrite <-Hk, fmap_app. set_solver.
  - apply NoDup_cons in Hnd as [_ Hnd]. destruct (IH L2) as (-> & -> & ->); done.
Qed.

Lemma heap_ok_unspliced h a Lo x Hi :
  heap_ok h a (Lo ++ x :: Hi) → unspliced a Lo x Hi 0 h.
Proof.
  intros Hh. split; [|split].
  - eapply Forall_forall; [apply Hh|]. set_solver.
  - lia.
  - intros j _ Hj. by apply Hh.
Qed.

Lemma sublist_remove {A} (l1 : list A) x l2 : sublist (l1 ++ l2) (l1 ++ x :: l2).
Proof. apply sublist_app; [done|]. by apply sublist_cons. Qed.

Lemma sublist_Forall {A} (P : A → Prop) l1 l2 : sublist l1 l2 → Forall P l2 → Forall P l1.
Proof. rewrite !Forall_forall. intros Hs HP x Hx. by eapply HP, elem_of_sublist. Qed.

Lemma heap_ok_removed h h' a Lo x Hi l :
  heap_ok h a (Lo ++ x :: Hi) → (∀ b, same_data h h' b) → (ln_height x ≤ l)%nat →
  unspliced a Lo x Hi (S l) h' → heap_ok h' a (Lo ++ Hi).
Proof.
  intros [Hhd HN Hl Hnd Hs] Hsd Hx (_ & Hlow & Hhigh). split.
  - by eapply header_ok_same.
  - eapply sublist_Forall; [apply sublist_remove|]. eapply Forall_impl; [exact HN|].
    intros y Hy. by eapply node_ok_same.
  - intros i Hi'. destruct (decide (i < S l)%nat); [by apply Hlow|].
    rewrite <-(tall_above Lo x Hi) by lia. apply Hhigh; lia.
  - eapply sublist_NoDup; [exact Hnd|]. apply sublist_skip, fmap_sublist, sublist_remove.
  - rewrite fmap_app in *. simpl in Hs. apply StronglySorted_app in Hs as (H1 & H2 & H3).
    apply StronglySorted_inv in H3 as [H3 _]. apply StronglySorted_app. split_and!; [|done|done].
    intros y z Hy Hz. apply H1; [done|]. by right.
Qed.

Lemma skiplist_del_rep E s a Lo x Hi t :
  sk_rep s a (Lo ++ x :: Hi) → (ln_entry x).1 ≠ PFreed →
  wp (kvs_skiplist_del (PStr (ln_key x))) (λ r s' t',
    r = 0 ∧ t' = t ∧ sk_rep s' a (Lo ++ Hi)) E s t.
Proof.
  intros Hrep Hp. apply wp_arg1. wp_steps.
  pose proof Hrep as [Hh Hheap Hlev Hmax Hfr Hsz].
  pose proof (sorted_NoDup _ (ho_sorted _ _ _ Hheap)) as Hnd.
  eapply (wp_find_predecessors E s a _ (ln_key x)); [done|]. intros Lo' Hi' u HN Hsp Hu. wp_steps.
  eapply (wp_find_target E s a _ (ln_key x) Hrep Lo' Hi'); [done|done|apply Hu; lia| |]; last first.
  { intros Hno. exfalso. eapply (Hno x); [set_solver|done]. }
  intros y Hi'' -> Hk. destruct (key_unique _ _ _ _ _ _ HN Hnd) as (<- & <- & <-); [done|].
  clear HN Hk. wp_steps.
  assert (ln_height x ≤ sk_level s)%nat as Hxl by (eapply (proj1 (Forall_forall _ _) Hlev); set_solver).
  eapply (wp_unlink_levels a Lo x Hi); [apply Hheap|lia| |by apply heap_ok_unspliced|].
  { intros j Hj. apply Hu. lia. }
  intros h' Hsd Hun. simpl in Hun. wp_steps. simpl.
  pose proof (heap_ok_removed _ _ _ _ _ _ _ Hheap Hsd Hxl Hun) as Hheap'.
  change (sk_level s) with (sk_level (set_heap h' s)).
  eapply (wp_lower_level E (set_heap h' s) a (Lo ++ Hi)); simpl; [done|done| |done|].
  { eapply sublist_Forall; [apply sublist_remove|exact Hlev]. }
  intros l Hl Hle. wp_steps. destruct Hun as ((f & Hxn & _) & _).
  eapply wp_free_node; [done|done|done|]. wp_steps. simpl.
  pose proof (ho_nodup _ _ _ Hheap) as Hndx.
  split_and!; [done|done|]. split; simpl.
  - done.
  - apply heap_ok_free; [done|]. rewrite fmap_app in *. simpl in *.
    apply NoDup_cons in Hndx as [Ha Hndx]. apply NoDup_app in Hndx as (_ & Hd & [Hd' _]%NoDup_cons).
    rewrite not_elem_of_cons, not_elem_of_app. split; [|split; [|done]].
    + intros Heq. apply Ha. rewrite <-Heq. set_solver.
    + intros Hin. eapply Hd; [done|]. by left.
  - done.
  - lia.
  - intros b [_ Hb]%lookup_delete_is_Some. by eapply Hfr, same_data_dom.
  - rewrite Hsz, !length_app. simpl. lia.
Qed.

(** ** Inserting a node *)

Lemma heap_ok_alloc h a N b n :
  heap_ok h a N → h !! b = None → heap_ok (<[b := n]> h) a N.
Proof.
  intros [Hhd HN Hl Hnd Hs] Hb. split; [| | |done|done].
  - destruct Hhd as (f & Hf & ?). exists f. rewrite lookup_insert_ne; [done|congruence].
  - eapply Forall_impl; [exact HN|]. intros x (f & Hf & ?). exists f.
    rewrite lookup_insert_ne; [done|congruence].
  - intros i Hi. eapply seg_frame; [|by apply Hl]. intros c Hc. unfold fwd.
    rewrite lookup_insert_ne; [done|]. intros ->.
    apply elem_of_cons in Hc as [->|(x & Hx & <- & _)%tall_elem].
    + destruct Hhd as (f & Hf & _). congruence.
    + rewrite Forall_forall in HN. destruct (HN x Hx) as (f & Hf & _). congruence.
Qed.

Lemma sorted_insert Lo x Hi k :
  StronglySorted str_lt (ln_key <$> Lo ++ Hi) → split_at k Lo Hi → ln_key x = k →
  (∀ y, y ∈ Lo ++ Hi → ln_key y ≠ k) → StronglySorted str_lt (ln_key <$> Lo ++ x :: Hi).
Proof.
  intros Hs [HLo HHi] Hk Hno. rewrite Forall_forall in HLo, HHi.
  rewrite fmap_app in *. apply StronglySorted_app in Hs as (H1 & H2 & H3). simpl.
  assert (∀ y, y ∈ Hi → str_lt k (ln_key y)) as Hgt.
  { intros y Hy. specialize (HHi y Hy). destruct (str_lt_trichotomy (ln_key y) k) as [?|[?|?]];
      unfold str_lt in *; [lia| |done]. exfalso. by eapply (Hno y); [set_solver|]. }
  apply StronglySorted_app. split_and!; [|done|].
  - intros y z Hy [->|Hz]%elem_of_cons; [|by apply H1].
    apply list_elem_of_fmap in Hy as (y' & -> & Hy). rewrite Hk. by apply HLo.
  - constructor; [done|]. apply Forall_forall. intros z (y & -> & Hy)%list_elem_of_fmap.
    rewrite Hk. by apply Hgt.
Qed.

Lemma heap_ok_inserted h0 h a Lo x Hi k :
  heap_ok h0 a (Lo ++ Hi) → (∀ b, same_data h0 h b) → split_at k Lo Hi → ln_key x = k →
  (∀ y, y ∈ Lo ++ Hi → ln_key y ≠ k) → NoDup (a :: (ln_addr <$> Lo ++ x :: Hi)) →
  spliced a Lo x Hi (S (ln_height x)) h → heap_ok h a (Lo ++ x :: Hi).
Proof.
  intros [Hhd HN Hl _ Hs] Hsd Hsp Hk Hno Hnd (Hx & Hlow & Hhigh). split.
  - by eapply header_ok_same.
  - assert (Forall (node_ok h) (Lo ++ Hi)) as HN'.
    { eapply Forall_impl; [exact HN|]. intros y Hy. by eapply node_ok_same. }
    rewrite Forall_app in *. rewrite Forall_cons. tauto.
  - intros i Hi'. destruct (decide (i < S (ln_height x))%nat); [by apply Hlow|].
    rewrite tall_above by lia. apply Hhigh; lia.
  - done.
  - by eapply sorted_insert.
Qed.

Lemma wp_random_level E s t Q :
  (∀ l t', (l ≤ SKIPLIST_MAX_LEVEL)%nat → Q l s t') → wp random_level Q E s t.
Proof.
  intros HQ. unfold random_level.
  assert (∀ n l t, (l + n = SKIPLIST_MAX_LEVEL)%nat → wp (random_level_loop n l) Q E s t) as Haux.
  { induction n as [|n IH]; intros l t' Hl; simpl; wp_steps; [apply HQ; lia|].
    destruct (_ <? _); [apply IH; lia|]. wp_steps. apply HQ. lia. }
  by apply Haux.
Qed.

(** The state with a node at the next free address. *)
Definition alloc_state (n : skiplist_node) (s : kvs_skiplist) : kvs_skiplist :=
  KSkip (<[sk_fresh s := n]> (sk_heap s)) (S (sk_fresh s)) (sk_header s) (sk_level s) (sk_size s).

Lemma wp_new_node E l k v e s t Q :
  (¬ no_oom E → ∀ t', Q None s t') →
  (∀ t', Q (Some (sk_fresh s))
     (alloc_state (SNode (PStr k) (PStr v) e (replicate (S l) None)) s) t') →
  wp (skiplist_new_node l (PStr k) (PStr v) e) Q E s t.
Proof.
  intros HN HS.
  assert (∀ t, malloc_ok E t = false → ¬ no_oom E) as Hoom by (intros t' Hf H; by rewrite H in Hf).
  unfold skiplist_new_node. wp_steps. destruct (malloc_ok E t) eqn:H1; simpl; wp_steps; [|by eauto].
  simpl. destruct (malloc_ok E (S t)) eqn:H2; simpl; wp_steps; [|by eauto].
  simpl. destruct (malloc_ok E (S (S t))) eqn:H3; simpl; wp_steps; [|by eauto].
  destruct (malloc_ok E (S (S (S t)))) eqn:H4; simpl; wp_steps; [|by eauto]. apply HS.
Qed.

Lemma raise_update_lookup i n a u j :
  raise_update i n a u !! j = if decide (i ≤ j < i + n)%nat then Some a else u !! j.
Proof.
  revert i u. induction n as [|n IH]; intros i u; simpl.
  { rewrite decide_False by lia. done. }
  rewrite IH. destruct (decide (i = j)) as [->|].
  - rewrite decide_False, decide_True by lia. apply lookup_insert_eq.
  - rewrite lookup_insert_ne by done. destruct (decide (S i ≤ j < S i + n)%nat).
    + by rewrite decide_True by lia.
    + by rewrite decide_False by lia.
Qed.

Lemma pred_at_empty a i N : tall i N = [] → pred_at a i N = a.
Proof. unfold pred_at. by intros ->. Qed.

Lemma tall_none l i N : Forall (λ x, ln_height x ≤ l)%nat N → (l < i)%nat → tall i N = [].
Proof.
  induction 1 as [|x N Hx HN IH]; intros Hi; simpl; [done|].
  rewrite bool_decide_false by lia. by apply IH.
Qed.

(** The insertion of a key that is not there, after the search. *)
Lemma wp_insert E s a Lo Hi k v e u l t :
  sk_rep s a (Lo ++ Hi) → split_at k Lo Hi → (∀ y, y ∈ Lo ++ Hi → ln_key y ≠ k) →
  (l ≤ sk_level s)%nat →
  (∀ j, (j ≤ l)%nat → u !! j = Some (pred_at a j Lo)) →
  let x := LNode (sk_fresh s) l k (PStr v, e) in
  wp (link_levels 0 (S l) (sk_fresh s) u;; modify (add_size 1);; mret 0)
     (λ r s' _, r = 0 ∧ sk_rep s' a (Lo ++ x :: Hi)) E
     (alloc_state (SNode (PStr k) (PStr v) e (replicate (S l) None)) s) t.
Proof.
  intros [Hh Hheap Hlev Hmax Hfr Hsz] Hsp Hno Hl Hu x. wp_steps.
  assert (sk_heap s !! sk_fresh s = None) as Hnone.
  { apply eq_None_not_Some. intros Hs%Hfr. lia. }
  set (s1 := alloc_state _ s).
  assert (heap_ok (sk_heap s1) a (Lo ++ Hi)) as Hheap1 by (by apply heap_ok_alloc).
  assert (NoDup (a :: (ln_addr <$> Lo ++ x :: Hi))) as Hnd.
  { assert (a :: (ln_addr <$> Lo ++ x :: Hi) ≡ₚ sk_fresh s :: a :: (ln_addr <$> Lo ++ Hi)) as ->.
    { rewrite !fmap_app. simpl. solve_Permutation. }
    constructor; [|apply Hheap]. intros [Heq|(y & Heq & Hy)%list_elem_of_fmap]%elem_of_cons.
    - destruct (ho_header _ _ _ Hheap) as (f & Hf & _). congruence.
    - destruct (heap_node s a Lo Hi Hheap y Hy) as (f & Hf & _). congruence. }
  eapply (wp_link_levels a Lo x Hi Hnd E u 0 (S l)); [simpl; lia|done|done| |].
  - split; [|split; [lia|intros j _; by apply Hheap1]].
    exists (replicate (S l) None). simpl. rewrite lookup_insert_eq, length_replicate. done.
  - intros h' Hsd Hspl. wp_steps. split; [done|].
    assert (heap_ok h' a (Lo ++ x :: Hi)) as Hheap' by (by eapply heap_ok_inserted).
    split; simpl; [done|done| |done| |].
    + rewrite Forall_app in *. rewrite Forall_cons. tauto.
    + intros b Hb%(same_data_dom _ _ _ (Hsd b)). unfold s1 in Hb. simpl in Hb.
      apply lookup_insert_is_Some in Hb as [<-|[_ Hb%Hfr]]; lia.
    + rewrite Hsz, !length_app. simpl. lia.
Qed.

(** ** What each operation does *)

(** Opens a well-formed list: the representation, its dictionary, no dangling value. *)
Ltac sk_intro :=
  intros [(a & N & Hrep) Hnf]; rewrite (sk_rep_abs _ _ _ Hrep) in *;
  pose proof (rep_NoDup _ _ _ (sr_heap _ _ _ Hrep)) as Hnd.

Lemma skiplist_del_spec E s t k :
  sk_wf s →
  wp (kvs_skiplist_del (PStr k)) (λ r s' t',
    t' = t ∧ (∃ a N, sk_rep s' a N) ∧ r = (if sk_abs s !! k then 0 else 1) ∧
    sk_abs s' = delete k (sk_abs s)) E s t.
Proof.
  sk_intro. destruct (list_to_map (entry_of <$> N) !! k) as [y|] eqn:Hk.
  - apply elem_of_list_to_map_2, list_elem_of_fmap in Hk as Hx.
    destruct Hx as (x & [= -> ->] & (Lo & Hi & ->)%list_elem_of_split).
    assert ((ln_entry x).1 ≠ PFreed) as Hp.
    { destruct (ln_entry x) as [p e] eqn:He. simpl. eapply (Hnf (ln_key x) p e).
      by apply elem_of_list_to_map_1. }
    eapply wp_mono; [by eapply skiplist_del_rep|].
    intros r s' t' (-> & -> & Hr). split; [done|]. split; [eauto|]. split; [done|].
    rewrite (sk_rep_abs _ _ _ Hr). by apply abs_delete.
  - apply wp_arg1. wp_steps. eapply wp_find_predecessors; [done|].
    intros Lo Hi u HN Hsp Hu. wp_steps.
    eapply wp_find_target; [done..|apply Hu; lia| |].
    + intros x Hi' -> <-. subst N. by rewrite abs_found in Hk.
    + intros _. wp_steps. split; [done|]. split; [eauto|]. split; [done|].
      rewrite (sk_rep_abs _ _ _ Hrep). by rewrite delete_id.
Qed.

(** The two outcomes of [locate], with what they say of the dictionary. *)
Ltac sk_locate :=
  match goal with
  | Hrep : sk_rep _ _ _, Hnd : NoDup _ |- _ =>
    wp_steps; eapply wp_locate; [exact Hrep
    |intros Lo x Hi -> <-; pose proof (abs_found Lo x Hi Hnd) as Hf;
     destruct (ln_entry x) as [p e0] eqn:Hent; wp_steps;
     destruct (heap_node _ _ Lo (x :: Hi) (sr_heap _ _ _ Hrep) x) as (f & Hx & _); [set_solver|];
     rewrite Hent in Hx; simpl in Hx; rewrite ?Hf
    |intros Hno; pose proof (abs_missing _ _ Hno) as Hf; wp_steps; rewrite ?Hf]
  end.

Lemma skiplist_get_spec E s t k :
  sk_wf s →
  wp (kvs_skiplist_get (PStr k)) (λ r s' _,
    (∃ a N, sk_rep s' a N) ∧
    r = match sk_abs s !! k with
        | Some (p, e) => if is_expired (clock E t) e then PNull else p
        | None => PNull
        end ∧
    sk_abs s' = match sk_abs s !! k with
        | Some (p, e) => if is_expired (clock E t) e then delete k (sk_abs s) else sk_abs s
        | None => sk_abs s
        end) E s t.
Proof.
  intros Hwf. pose proof (λ t, skiplist_del_spec E s t k Hwf) as Hdel. revert Hwf. sk_intro.
  apply wp_arg1. sk_locate.
  - eapply wp_get_node; [done|]. simpl. destruct (is_expired (clock E t) e0).
    + wp_steps. eapply wp_mono; [apply Hdel|]. intros r s' t' (_ & Hr & _ & Hm). by wp_steps.
    + wp_steps. split; [eauto|]. split; [done|]. apply (sk_rep_abs _ _ _ Hrep).
  - split; [eauto|]. split; [done|]. apply (sk_rep_abs _ _ _ Hrep).
Qed.

Lemma skiplist_exist_spec E s t k :
  sk_wf s →
  wp (kvs_skiplist_exist (PStr k)) (λ r s' _,
    (∃ a N, sk_rep s' a N) ∧
    r = match sk_abs s !! k with
        | Some (p, e) => if is_expired (clock E t) e || bool_decide (p = PNull) then 1 else 0
        | None => 1
        end ∧
    sk_abs s' = match sk_abs s !! k with
        | Some (p, e) => if is_expired (clock E t) e then delete k (sk_abs s) else sk_abs s
        | None => sk_abs s
        end) E s t.
Proof.
  intros Hwf. apply wp_arg1. wp_steps. eapply wp_mono; [by apply skiplist_get_spec|].
  intros r s' t' (Hr & -> & Hm). wp_steps. split; [done|]. split; [|done].
  destruct (sk_abs s !! k) as [[p e]|]; [|done].
  destruct (is_expired (clock E t) e); simpl; [done|].
  case_bool_decide; case_decide; done.
Qed.

Lemma skiplist_ttl_spec E s t k :
  sk_wf s →
  (∀ p e, sk_abs s !! k = Some (p, e) → LLONG_MIN ≤ e - clock E t ≤ LLONG_MAX) →
  wp (kvs_skiplist_ttl (PStr k)) (λ r s' _,
    s' = s ∧ r = spec_ttl (clock E t) k (sk_abs s)) E s t.
Proof.
  intros Hwf Hrange. revert Hwf. sk_intro. apply wp_arg1. unfold spec_ttl. sk_locate; [|done].
  eapply wp_get_node; [done|]. simpl. destruct (e0 =? -1); [by wp_steps|]. wp_steps.
  apply wp_checked64; [by eapply Hrange|]. by wp_steps.
Qed.

(** Writing an entry of the dictionary through the node of its key. *)
Lemma rep_write s a Lo x Hi p e p0 e0 f :
  sk_rep s a (Lo ++ x :: Hi) →
  sk_heap s !! ln_addr x = Some (SNode (PStr (ln_key x)) p0 e0 f) →
  let s' := set_heap (<[ln_addr x := SNode (PStr (ln_key x)) p e f]> (sk_heap s)) s in
  sk_rep s' a (Lo ++ with_entry x (p, e) :: Hi) ∧
  sk_abs s' = <[ln_key x := (p, e)]> (list_to_map (entry_of <$> Lo ++ x :: Hi)).
Proof.
  intros Hrep Hx s'. pose proof (rep_NoDup _ _ _ (sr_heap _ _ _ Hrep)) as Hnd.
  assert (sk_rep s' a (Lo ++ with_entry x (p, e) :: Hi)) as Hrep'.
  { eapply rep_update; [done|eauto]. }
  split; [done|]. rewrite (sk_rep_abs _ _ _ Hrep').
  pose proof (rep_NoDup _ _ _ (sr_heap _ _ _ Hrep')) as Hnd'.
  rewrite (abs_insert _ _ _ Hnd'), (abs_insert _ _ _ Hnd), insert_insert_eq. done.
Qed.

Lemma skiplist_expire_spec E s t k e :
  sk_wf s →
  wp (kvs_skiplist_expire (PStr k) e) (λ r s' _,
    (∃ a N, sk_rep s' a N) ∧ r = (if sk_abs s !! k then 0 else 1) ∧
    sk_abs s' = spec_expire k e (sk_abs s)) E s t.
Proof.
  intros Hwf. pose proof (skiplist_del_spec E s t k Hwf) as Hdel. revert Hwf. sk_intro.
  apply wp_arg1. unfold spec_expire. sk_locate.
  - destruct (e =? 0).
    + eapply wp_mono; [apply Hdel|]. rewrite Hf. naive_solver.
    + unfold put_expire, put_node. wp_steps. eapply wp_get_node; [done|]. wp_steps. simpl.
      edestruct rep_write as [Hr Hm]; [exact Hrep|exact Hx|]. eauto.
  - split; [eauto|]. split; [done|]. apply (sk_rep_abs _ _ _ Hrep).
Qed.

Lemma skiplist_mod_spec E s t k v :
  sk_wf s →
  wp (kvs_skiplist_mod (PStr k) (PStr v)) (λ r s' _,
    (∃ a N, sk_rep s' a N) ∧
    match sk_abs s !! k with
    | Some (_, e) =>
        if malloc_ok E t then r = 0 ∧ sk_abs s' = <[k := (PStr v, e)]> (sk_abs s)
        else r = -2 ∧ sk_abs s' = <[k := (PNull, e)]> (sk_abs s)
    | None => r = 1 ∧ s' = s
    end) E s t.
Proof.
  sk_intro. apply wp_arg2. sk_locate; [|eauto].
  unfold replace_value, put_node. wp_steps. eapply wp_get_node; [done|]. wp_steps. simpl.
  apply wp_free; [by eapply Hnf|]. wp_steps. simpl.
  edestruct rep_write as [Hr Hm]; [exact Hrep|exact Hx|].
  split; [eauto|]. destruct (malloc_ok E t); eauto.
Qed.

(** Raising the level of the list before the splice. *)
Lemma rep_raise s a Lo Hi u l :
  sk_rep s a (Lo ++ Hi) → (l ≤ SKIPLIST_MAX_LEVEL)%nat →
  (∀ j, (j ≤ sk_level s)%nat → u !! j = Some (pred_at a j Lo)) →
  ∃ s2, (∀ E t Q, Q tt s2 t →
      wp (if (sk_level s <? l)%nat then modify (set_level l) else mret tt) Q E s t) ∧
    sk_rep s2 a (Lo ++ Hi) ∧ (l ≤ sk_level s2)%nat ∧
    ∀ j, (j ≤ l)%nat →
      (if (sk_level s <? l)%nat then raise_update (S (sk_level s)) (l - sk_level s) a u else u) !! j =
      Some (pred_at a j Lo).
Proof.
  intros [Hh Hheap Hlev Hmax Hfr Hsz] Hl Hu. destruct (Nat.ltb_spec (sk_level s) l) as [Hlt|Hge].
  - exists (set_level l s). split; [intros E t Q HQ; by wp_steps|]. split; [|split; [done|]].
    + split; simpl; try done. eapply Forall_impl; [exact Hlev|]. simpl. lia.
    + intros j Hj. rewrite raise_update_lookup. case_decide; [|apply Hu; lia].
      rewrite pred_at_empty; [done|]. apply Forall_app in Hlev as [Hlev _].
      eapply tall_none; [done|lia].
  - exists s. split; [intros E t Q HQ; by wp_steps|]. split; [done|]. split; [done|].
    intros j Hj. apply Hu. lia.
Qed.

Lemma skiplist_set_spec E s t k v e :
  sk_wf s →
  wp (kvs_skiplist_set (PStr k) (PStr v) e) (λ r s' _,
    (∃ a N, sk_rep s' a N) ∧
    match sk_abs s !! k with
    | Some (_, e0) =>
        if malloc_ok E t then r = 0 ∧ sk_abs s' = <[k := (PStr v, e)]> (sk_abs s)
        else r = -2 ∧ sk_abs s' = <[k := (PNull, e0)]> (sk_abs s)
    | None =>
        (r = 0 ∧ sk_abs s' = <[k := (PStr v, e)]> (sk_abs s)) ∨
        (¬ no_oom E ∧ r = -2 ∧ sk_abs s' = sk_abs s)
    end) E s t.
Proof.
  sk_intro. apply wp_arg2. wp_steps.
  eapply wp_find_predecessors; [done|]. intros Lo Hi u -> Hsp Hu. wp_steps.
  eapply wp_find_target; [done..|apply Hu; lia| |].
  - intros x Hi' -> <-. pose proof (abs_found Lo x Hi' Hnd) as Hf. rewrite Hf.
    destruct (ln_entry x) as [p e0] eqn:Hent.
    destruct (heap_node _ _ Lo (x :: Hi') (sr_heap _ _ _ Hrep) x) as (f & Hx & _); [set_solver|].
    rewrite Hent in Hx. simpl in Hx.
    wp_steps. unfold replace_value, put_expire, put_node. wp_steps. eapply wp_get_node; [done|].
    wp_steps. simpl. apply wp_free; [by eapply Hnf|]. wp_steps. simpl.
    destruct (malloc_ok E t); simpl; wp_steps.
    + eapply wp_get_node; [apply lookup_insert_eq|]. simpl. wp_steps. simpl.
      unfold set_heap at 1. simpl. rewrite insert_insert_eq.
      edestruct rep_write as [Hr Hm]; [exact Hrep|exact Hx|]. eauto.
    + edestruct rep_write as [Hr Hm]; [exact Hrep|exact Hx|]. eauto.
  - intros Hno. rewrite (abs_missing _ _ Hno). wp_steps.
    apply wp_random_level. intros l t1 Hl. wp_steps.
    eapply wp_get_header; [apply Hrep|]. cbv zeta.
    destruct (rep_raise s a Lo Hi u l Hrep Hl Hu) as (s2 & Hmod & Hrep2 & Hl2 & Hu2).
    wp_steps. apply Hmod. wp_steps. apply wp_new_node.
    { intros Hoom t2. wp_steps. split; [eauto|]. right. by rewrite (sk_rep_abs _ _ _ Hrep2). }
    intros t2. eapply wp_mono; [by eapply wp_insert|]. intros r s' t' [-> Hr]. split; [eauto|]. left.
    split; [done|]. rewrite (sk_rep_abs _ _ _ Hr).
    by rewrite (abs_insert _ _ _ (rep_NoDup _ _ _ (sr_heap _ _ _ Hr))).
Qed.

(** The periodic scan visits the nodes in order; [P] is what it has kept. *)
Lemma wp_scan_loop E now fuel s a P R t :
  sk_rep s a (P ++ R) → no_freed (list_to_map (entry_of <$> P ++ R)) → (length R ≤ fuel)%nat →
  wp (scan_loop fuel now (hd_or (tall 0 R) None)) (λ _ s' _,
    ∃ N, sk_rep s' a N ∧ entry_of <$> N = (entry_of <$> P) ++ unexpired now (entry_of <$> R)) E s t.
Proof.
  revert s P R t. induction fuel as [|fuel IH]; intros s P R t Hrep Hnf Hf.
  { destruct R; simpl in Hf; [|lia]. simpl. wp_steps. exists P. by rewrite !app_nil_r in *. }
  destruct R as [|x R]; simpl.
  { wp_steps. exists P. by rewrite !app_nil_r in *. }
  pose proof (sr_heap _ _ _ Hrep) as Hheap.
  destruct (heap_node _ _ P (x :: R) Hheap x) as (f & Hx & _); [set_solver|].
  assert (fwd (sk_heap s) (ln_addr x) 0 = Some (hd_or (tall 0 R) None)) as Hnext.
  { pose proof (ho_links _ _ _ Hheap 0%nat ltac:(lia)) as Hs.
    rewrite tall_app, app_comm_cons, seg_app in Hs. simpl in Hs. tauto. }
  wp_steps. eapply wp_get_forward; [done|]. wp_steps. eapply wp_get_node; [done|]. simpl.
  change (is_expired now (entry_of x).2.2) with (is_expired now (ln_entry x).2).
  simpl in Hf. destruct (is_expired now (ln_entry x).2); wp_steps.
  - eapply wp_mono; [eapply skiplist_del_rep; [done|]|].
    { destruct (ln_entry x) as [p e] eqn:He. eapply (Hnf (ln_key x) p e). rewrite <-He.
      apply abs_found. by eapply rep_NoDup. }
    intros r s' t' (_ & -> & Hr). wp_steps. apply IH; [done| |lia].
    rewrite (abs_delete P x R) by (by eapply rep_NoDup).
    intros k p e [_ ?]%lookup_delete_Some. by eapply Hnf.
  - eapply wp_mono; [apply (IH s (P ++ [x]) R); rewrite <-?app_assoc; [done|done|lia]|].
    intros _ s' t' (N & HN & Heq). exists N. split; [done|].
    rewrite Heq, fmap_app, <-app_assoc. done.
Qed.

Lemma skiplist_scan_spec E s t :
  sk_wf s →
  wp kvs_skiplist_scan_expired (λ _ s' _,
    (∃ a N, sk_rep s' a N) ∧ sk_abs s' = purge_all (clock E t) (sk_abs s)) E s t.
Proof.
  sk_intro. pose proof (sr_heap _ _ _ Hrep) as Hheap.
  unfold kvs_skiplist_scan_expired, walk_fuel. wp_steps.
  eapply wp_get_header; [apply Hrep|]. wp_steps.
  destruct (ho_links _ _ _ Hheap 0%nat ltac:(lia)) as [Hf _].
  eapply wp_get_forward; [done|]. wp_steps.
  pose proof (heap_size s a [] N Hheap) as Hsz. simpl in Hsz.
  eapply wp_mono; [apply (wp_scan_loop E (clock E t) _ s a [] N); [done|done|simpl; lia]|].
  intros _ s' t' (N' & Hr & Heq). split; [eauto|].
  rewrite (sk_rep_abs _ _ _ Hr), Heq. by apply unexpired_map.
Qed.

(** ** Creation and destruction *)

Lemma skiplist_create_spec E t :
  wp kvs_skiplist_create (λ r s' _,
    if malloc_ok E t && malloc_ok E (S t) then r = 0 ∧ sk_inv s' ∧ sk_abs s' = ∅
    else r = -1 ∧ sk_header s' = None) E global_skiplist0 t.
Proof.
  unfold kvs_skiplist_create, skiplist_new_node. wp_steps.
  destruct (malloc_ok E t); simpl; wp_steps; [|done].
  destruct (malloc_ok E (S t)); cbn [negb andb]; wp_steps; [|done].
  match goal with |- 0 = 0 ∧ sk_inv ?s ∧ _ => set (s1 := s) end.
  assert (sk_rep s1 0%nat []) as Hrep.
  { split; simpl; [done| |constructor|lia| |done].
    - split; [| constructor| |simpl|constructor].
      + eexists. split; [apply lookup_insert_eq|done].
      + intros i Hi. simpl. split; [|done]. unfold fwd. rewrite lookup_insert_eq. simpl.
        unfold SKIPLIST_MAX_LEVEL in Hi. apply (lookup_replicate_2 17). lia.
      + apply NoDup_singleton.
    - intros b [<-|[_ [? Hb]]]%lookup_insert_is_Some; [lia|]. by rewrite lookup_empty in Hb. }
  pose proof (sk_rep_abs _ _ _ Hrep) as Habs. simpl in Habs. split; [done|].
  split; [|done]. split; [eauto|]. rewrite Habs. apply clean_empty.
Qed.

(** Freeing the nodes in order leaves only the header in the heap's reach. *)
Lemma wp_destroy_loop E fuel s N a t Q :
  Forall (node_ok (sk_heap s)) N → seg (sk_heap s) 0 (tall 0 N) None →
  NoDup (ln_addr <$> N) → a ∉ (ln_addr <$> N) → Forall (λ x, (ln_entry x).1 ≠ PFreed) N →
  (length N ≤ fuel)%nat →
  (∀ h, h !! a = sk_heap s !! a → Q tt (set_heap h s) t) →
  wp (destroy_loop fuel (hd_or (tall 0 N) None)) Q E s t.
Proof.
  revert fuel s. induction N as [|x N IH]; intros fuel s HN Hs Hnd Ha Hv Hf HQ.
  { specialize (HQ (sk_heap s) eq_refl). destruct s. destruct fuel; simpl; by wp_steps. }
  destruct fuel as [|fuel]; simpl in Hf; [lia|]. simpl in *.
  apply Forall_cons in HN as [(f & Hx & Hlen) HN]. destruct Hs as [Hx0 Hs].
  apply Forall_cons in Hv as [Hvx Hv]. apply NoDup_cons in Hnd as [Hnx Hnd].
  apply not_elem_of_cons in Ha as [Hax Ha].
  wp_steps. eapply wp_get_forward; [done|]. wp_steps.
  eapply wp_free_node; [done|done|done|]. wp_steps. apply IH; simpl; [| |done|done|done|lia|].
  - rewrite Forall_forall in HN |- *. intros y Hy. destruct (HN y Hy) as (g & Hg & ?). exists g.
    rewrite lookup_delete_ne; [done|]. intros Heq. apply Hnx. rewrite Heq. by apply list_elem_of_fmap_2.
  - eapply seg_frame; [|exact Hs]. intros b Hb. unfold fwd.
    rewrite lookup_delete_ne; [done|]. intros Heq. apply Hnx. rewrite Heq. by rewrite tall_0 in Hb.
  - intros h Hh. apply HQ. rewrite Hh. by rewrite lookup_delete_ne by congruence.
Qed.

Lemma skiplist_destroy_spec E s t :
  sk_wf s →
  wp kvs_skiplist_destroy (λ _ s' _, sk_header s' = None ∧ sk_level s' = 0%nat ∧ sk_size s' = 0) E s t.
Proof.
  sk_intro. pose proof (sr_heap _ _ _ Hrep) as Hheap.
  unfold kvs_skiplist_destroy, walk_fuel. wp_steps.
  eapply wp_get_header; [apply Hrep|]. wp_steps.
  destruct (ho_links _ _ _ Hheap 0%nat ltac:(lia)) as [Hf Hs].
  eapply wp_get_forward; [done|]. wp_steps.
  pose proof (heap_size s a [] N Hheap) as Hsz. simpl in Hsz.
  pose proof (ho_nodup _ _ _ Hheap) as [Ha Hnda]%NoDup_cons.
  eapply (wp_destroy_loop E _ s N a); [apply Hheap|done|done|done| |lia|].
  - apply Forall_forall. intros x (Lo & Hi & ->)%list_elem_of_split.
    destruct (ln_entry x) as [p e] eqn:He. eapply (Hnf (ln_key x) p e). rewrite <-He.
    by apply abs_found.
  - intros h Hh. wp_steps. destruct (ho_header _ _ _ Hheap) as (f & Hhd & _).
    eapply wp_free_node; [simpl; by rewrite Hh, Hhd|done|done|]. by wp_steps.
Qed.

(** ** The skip list is an engine *)

Lemma sk_inv_intro s m : (∃ a N, sk_rep s a N) → sk_abs s = m → clean m → sk_inv s.
Proof. intros Hr <- Hc. by split. Qed.

#[global] Program Instance skiplist_engine : Engine kvs_skiplist := {|
  e_inv := sk_inv;
  e_abs := sk_abs;
  e_key := λ _, True;
  e_time := λ _, True;
  e_room := λ _, True
|}.
Next Obligation. by intros s [_ ?]. Qed.
Next Obligation. done. Qed.
Next Obligation.
  intros E s t k v e Hoom Hinv _ _ _. eapply wp_mono; [by apply skiplist_set_spec, sk_inv_wf|].
  simpl. intros r s' _ [Hr Hm]. destruct Hinv as [_ Hc].
  destruct (sk_abs s !! k) as [[??]|].
  - rewrite Hoom in Hm. destruct Hm as [-> Hm]. eauto using sk_inv_intro, clean_insert.
  - destruct Hm as [[-> Hm]|[? _]]; [|done]. eauto using sk_inv_intro, clean_insert.
Qed.
Next Obligation.
  intros E s t k Hoom Hinv _. eapply wp_mono; [by apply skiplist_get_spec, sk_inv_wf|].
  simpl. intros r s' _ (Hr & -> & Hm). destruct Hinv as [_ Hc].
  unfold live, purge. destruct (sk_abs s !! k) as [[p e]|]; simpl.
  - destruct (is_expired _ e); eauto using sk_inv_intro, clean_delete.
  - eauto using sk_inv_intro.
Qed.
Next Obligation.
  intros E s t k Hoom Hinv _. eapply wp_mono; [by apply skiplist_del_spec, sk_inv_wf|].
  simpl. intros r s' _ (_ & Hr & -> & Hm). destruct Hinv as [_ Hc].
  eauto using sk_inv_intro, clean_delete.
Qed.
Next Obligation.
  intros E s t k v Hoom Hinv _. eapply wp_mono; [by apply skiplist_mod_spec, sk_inv_wf|].
  simpl. intros r s' _ [Hr Hm]. rewrite !Hoom in Hm. destruct (id Hinv) as [_ Hc].
  destruct (sk_abs s !! k) as [[p e]|] eqn:Hk; destruct Hm as [-> Hm].
  - split; [eauto using sk_inv_intro, clean_insert|]. split; [lia|].
    destruct (is_expired _ e) eqn:He; [|done]. rewrite Hm. intros k'. unfold live.
    destruct (decide (k = k')) as [<-|]; simplify_map_eq; [by rewrite He|done].
  - subst s'. split; [done|]. split; [lia|done].
Qed.
Next Obligation.
  intros E s t k Hoom Hinv _. eapply wp_mono; [by apply skiplist_exist_spec, sk_inv_wf|].
  simpl. intros r s' _ (Hr & -> & Hm). destruct Hinv as [_ Hc].
  unfold live, purge. destruct (sk_abs s !! k) as [[p e]|] eqn:Hk; simpl; [|eauto using sk_inv_intro].
  destruct (Hc _ _ _ Hk) as [v ->]. rewrite bool_decide_false, orb_false_r by done.
  destruct (is_expired _ e); (split; [eauto using sk_inv_intro, clean_delete|]); split; auto.
Qed.
Next Obligation.
  intros E s t k e Hoom Hinv _ _. eapply wp_mono; [by apply skiplist_expire_spec, sk_inv_wf|].
  simpl. intros r s' _ (Hr & -> & Hm). destruct Hinv as [_ Hc]. split; [|done].
  eapply sk_inv_intro; [done..|]. unfold spec_expire.
  destruct (sk_abs s !! k) as [[??]|] eqn:?; [destruct (e =? 0)|]; eauto with kvs.
Qed.
Next Obligation.
  intros E s t k Hoom Hinv _ Hr. by apply skiplist_ttl_spec; [apply sk_inv_wf|].
Qed.
Next Obligation.
  intros E s t Hoom Hinv. eapply wp_mono; [by apply skiplist_scan_spec, sk_inv_wf|].
  simpl. intros r s' _ (Hr & Hm). destruct Hinv as [_ Hc].
  eauto using sk_inv_intro, clean_purge_all.
Qed.

(** ** Theorems *)

(** A list with one key. *)
Definition skiplist1 : kvs_skiplist :=
  after (_r ← kvs_skiplist_create; kvs_skiplist_set (PStr (lit "k")) (PStr (lit "v")) (-1)) global_skiplist0.

Lemma skiplist1_ok : sk_inv skiplist1 ∧ sk_abs skiplist1 = {[lit "k" := (PStr (lit "v"), -1)]}.
Proof.
  apply (wp_after _ (λ s, sk_inv s ∧ sk_abs s = {[lit "k" := (PStr (lit "v"), -1)]})). wp_steps.
  eapply wp_mono; [apply skiplist_create_spec|]. simpl. intros r s t (_ & Hi & He).
  eapply wp_mono; [by apply skiplist_set_spec, sk_inv_wf|].
  rewrite He. simpl. intros r' s' _ (Hi' & [[_ Ha]|[Hoom _]]); [|by destruct Hoom].
  split; [|done]. eapply sk_inv_intro; [done..|]. apply clean_insert, clean_empty.
Qed.

(** C19: kvs_skiplist_set, for every sequence of coin flips: the list stays sorted
    and linked at all levels, an existing key is overwritten in place, a new key
    is inserted, and no other key changes; both return 0, although the comment on
    the function says 1 for an existing key. When malloc fails the keys are as
    before, an existing key without its value. *)
Theorem skiplist_set_outcome E s t k v e :
  sk_wf s →
  wp (kvs_skiplist_set (PStr k) (PStr v) e) (λ r s' _,
    (∃ a N, sk_rep s' a N) ∧
    match sk_abs s !! k with
    | Some (_, e0) =>
        if malloc_ok E t then r = 0 ∧ sk_abs s' = <[k := (PStr v, e)]> (sk_abs s)
        else r = -2 ∧ sk_abs s' = <[k := (PNull, e0)]> (sk_abs s)
    | None =>
        (r = 0 ∧ sk_abs s' = <[k := (PStr v, e)]> (sk_abs s)) ∨
        (¬ no_oom E ∧ r = -2 ∧ sk_abs s' = sk_abs s)
    end) E s t.
Proof. apply skiplist_set_spec. Qed.

Lemma skiplist_set_outcome_witness :
  wp (kvs_skiplist_set (PStr (lit "k")) (PStr (lit "w")) 7) (λ r s' _,
    (∃ a N, sk_rep s' a N) ∧ r = 0 ∧ sk_abs s' = <[lit "k" := (PStr (lit "w"), 7)]> (sk_abs skiplist1))
    calm skiplist1 0.
Proof.
  destruct skiplist1_ok as [Hi Ha].
  eapply wp_mono; [exact (skiplist_set_outcome calm skiplist1 0 (lit "k") (lit "w") 7 (sk_inv_wf _ Hi))|].
  intros r s' t [HL Hr]. rewrite Ha in *. exact (conj HL Hr).
Defined.

(** Kvs_skiplist_del unlinks the key from every level it is on, lowers the
    list's level when the top becomes empty, and removes nothing else. *)
Theorem skiplist_del_exact E s t k :
  sk_wf s →
  wp (kvs_skiplist_del (PStr k)) (λ r s' _,
    (∃ a N, sk_rep s' a N) ∧ r = (if sk_abs s !! k then 0 else 1) ∧
    sk_abs s' = delete k (sk_abs s)) E s t.
Proof.
  intros Hs. eapply wp_mono; [by apply skiplist_del_spec|]. intros r s' t' (_ & H). exact H.
Qed.

Lemma skiplist_del_exact_witness :
  wp (kvs_skiplist_del (PStr (lit "k"))) (λ r s' _,
    (∃ a N, sk_rep s' a N) ∧ r = 0 ∧ sk_abs s' = delete (lit "k") (sk_abs skiplist1)) calm skiplist1 0.
Proof.
  destruct skiplist1_ok as [Hi Ha].
  eapply wp_mono; [exact (skiplist_del_exact calm skiplist1 0 (lit "k") (sk_inv_wf _ Hi))|].
  intros r s' t (HL & Hr & Hs). rewrite Ha in *. exact (conj HL (conj Hr Hs)).
Defined.

(** Kvs_skiplist_get finds a key from the top level down; it returns the value
    of a live key, NULL for a missing or expired one, and removes the latter. *)
Theorem skiplist_get_live E s t k :
  sk_wf s →
  wp (kvs_skiplist_get (PStr k)) (λ r s' _,
    (∃ a N, sk_rep s' a N) ∧
    r = default PNull (live (clock E t) (sk_abs s) k) ∧
    sk_abs s' = purge (clock E t) k (sk_abs s)) E s t.
Proof.
  intros Hs. eapply wp_mono; [by apply skiplist_get_spec|]. intros r s' t' (HL & -> & ->).
  unfold live, purge. destruct (sk_abs s !! k) as [[p e]|]; simpl; [by destruct (is_expired _ e)|done].
Qed.

Lemma skiplist_get_live_witness :
  wp (kvs_skiplist_get (PStr (lit "k"))) (λ r s' _,
    (∃ a N, sk_rep s' a N) ∧ r = PStr (lit "v") ∧ sk_abs s' = sk_abs skiplist1) calm skiplist1 0.
Proof.
  destruct skiplist1_ok as [Hi Ha].
  eapply wp_mono; [exact (skiplist_get_live calm skiplist1 0 (lit "k") (sk_inv_wf _ Hi))|].
  intros r s' t (HL & Hr & Hs). rewrite Ha in *. exact (conj HL (conj Hr Hs)).
Defined.

(** C34: the expiry scan, which deletes nodes while it walks the list, visits every
    node, follows no freed one, and removes exactly the expired keys. *)
Theorem skiplist_scan_exact E s t :
  sk_wf s →
  wp kvs_skiplist_scan_expired (λ _ s' _,
    (∃ a N, sk_rep s' a N) ∧ sk_abs s' = purge_all (clock E t) (sk_abs s)) E s t.
Proof. apply skiplist_scan_spec. Qed.

Lemma skiplist_scan_exact_witness :
  wp kvs_skiplist_scan_expired (λ _ s' _,
    (∃ a N, sk_rep s' a N) ∧ sk_abs s' = purge_all 1000 (sk_abs skiplist1)) calm skiplist1 0.
Proof. apply (skiplist_scan_exact calm skiplist1 0). apply sk_inv_wf, skiplist1_ok. Defined.
