(* ===== verification/KvsRbtree.v ===== *)
(** * The red-black tree engine (kvs_rbtree.c)

    The tree is a heap of nodes with parent pointers and one sentinel [nil]. The
    code is translated pointer by pointer: every field access goes through the
    heap, a freed node is absent from it, and a field malloc returned and nobody
    wrote reads as a fault. Loops carry fuel, the number of nodes plus one. *)

From S2P Require Import Prelude KvSpec.

(** ** Data *)

Inductive color := RED | BLACK.

#[global] Instance color_eq_dec : EqDecision color.
Proof. solve_decision. Defined.

Abbreviation addr := nat.

(** struct _rbtree_node; [None] in a field is an indeterminate value. *)
Record rbtree_node := RBNode {
  rn_color  : option color;
  rn_right  : option addr;
  rn_left   : option addr;
  rn_parent : option addr;
  rn_key    : option cptr;
  rn_value  : option cptr;
  rn_expire : option Z
}.

Definition raw_node : rbtree_node := RBNode None None None None None None None.

(** struct _rbtree, with the heap its nodes live in. *)
Record kvs_rbtree := KRb {
  rb_heap  : gmap addr rbtree_node;
  rb_fresh : addr;
  rb_root  : option addr;
  rb_nil   : option addr
}.

Definition global_rbtree0 : kvs_rbtree := KRb ∅ 0 None None.

(** ** Field accesses *)

Definition get_node (a : addr) : M kvs_rbtree rbtree_node :=
  h ← gets rb_heap;
  match h !! a with None => fail UseAfterFree | Some n => mret n end.

Definition upd_node (a : addr) (f : rbtree_node → rbtree_node) : M kvs_rbtree unit :=
  n ← get_node a;
  modify (λ s, KRb (<[a := f n]> (rb_heap s)) (rb_fresh s) (rb_root s) (rb_nil s)).

Definition read_field {A} (f : rbtree_node → option A) (a : addr) : M kvs_rbtree A :=
  n ← get_node a;
  match f n with None => fail Uninitialised | Some v => mret v end.

Definition f_left   := read_field rn_left.
Definition f_right  := read_field rn_right.
Definition f_parent := read_field rn_parent.
Definition f_color  := read_field rn_color.
Definition f_key    := read_field rn_key.
Definition f_value  := read_field rn_value.
Definition f_expire := read_field rn_expire.

Definition set_left (a v : addr) : M kvs_rbtree unit :=
  upd_node a (λ n, RBNode (rn_color n) (rn_right n) (Some v) (rn_parent n) (rn_key n) (rn_value n) (rn_expire n)).
Definition set_right (a v : addr) : M kvs_rbtree unit :=
  upd_node a (λ n, RBNode (rn_color n) (Some v) (rn_left n) (rn_parent n) (rn_key n) (rn_value n) (rn_expire n)).
Definition set_parent (a v : addr) : M kvs_rbtree unit :=
  upd_node a (λ n, RBNode (rn_color n) (rn_right n) (rn_left n) (Some v) (rn_key n) (rn_value n) (rn_expire n)).
Definition set_color (a : addr) (c : color) : M kvs_rbtree unit :=
  upd_node a (λ n, RBNode (Some c) (rn_right n) (rn_left n) (rn_parent n) (rn_key n) (rn_value n) (rn_expire n)).
Definition set_key (a : addr) (k : cptr) : M kvs_rbtree unit :=
  upd_node a (λ n, RBNode (rn_color n) (rn_right n) (rn_left n) (rn_parent n) (Some k) (rn_value n) (rn_expire n)).
Definition set_value (a : addr) (v : cptr) : M kvs_rbtree unit :=
  upd_node a (λ n, RBNode (rn_color n) (rn_right n) (rn_left n) (rn_parent n) (rn_key n) (Some v) (rn_expire n)).
Definition set_expire (a : addr) (e : Z) : M kvs_rbtree unit :=
  upd_node a (λ n, RBNode (rn_color n) (rn_right n) (rn_left n) (rn_parent n) (rn_key n) (rn_value n) (Some e)).

(** T->root and T->nil *)
Definition get_root : M kvs_rbtree addr :=
  r ← gets rb_root; match r with None => fail NullDeref | Some a => mret a end.
Definition get_nil : M kvs_rbtree addr :=
  r ← gets rb_nil; match r with None => fail NullDeref | Some a => mret a end.
Definition set_root (a : addr) : M kvs_rbtree unit :=
  modify (λ s, KRb (rb_heap s) (rb_fresh s) (Some a) (rb_nil s)).

Definition walk_fuel : M kvs_rbtree nat := gets (λ s, S (size (rb_heap s))).

(** A fresh block of sizeof(rbtree_node). *)
Definition alloc_node : M kvs_rbtree (option addr) :=
  ok ← kvs_malloc;
  if negb ok then mret None else
  a ← gets rb_fresh;
  modify (λ s, KRb (<[a := raw_node]> (rb_heap s)) (S a) (rb_root s) (rb_nil s));;
  mret (Some a).

Definition free_block (a : addr) : M kvs_rbtree unit :=
  _n ← get_node a;
  modify (λ s, KRb (delete a (rb_heap s)) (rb_fresh s) (rb_root s) (rb_nil s)).

(** kvs_free(cur->key); kvs_free(cur->value); kvs_free(cur); *)
Definition free_cur (cur : addr) : M kvs_rbtree unit :=
  k ← f_key cur; kvs_free k;;
  v ← f_value cur; kvs_free v;;
  free_block cur.

(** ** Minimum, maximum, successor *)

Fixpoint mini_loop (fuel : nat) (nil x : addr) : M kvs_rbtree addr :=
  l ← f_left x;
  if decide (l = nil) then mret x else
  match fuel with O => fail OutOfFuel | S fuel' => mini_loop fuel' nil l end.

Definition rbtree_mini (x : addr) : M kvs_rbtree addr :=
  nil ← get_nil; fuel ← walk_fuel; mini_loop fuel nil x.

Fixpoint maxi_loop (fuel : nat) (nil x : addr) : M kvs_rbtree addr :=
  r ← f_right x;
  if decide (r = nil) then mret x else
  match fuel with O => fail OutOfFuel | S fuel' => maxi_loop fuel' nil r end.

Definition rbtree_maxi (x : addr) : M kvs_rbtree addr :=
  nil ← get_nil; fuel ← walk_fuel; maxi_loop fuel nil x.

(** while ((y != T->nil) && (x == y->right)) { x = y; y = y->parent; } *)
Fixpoint climb (fuel : nat) (nil x y : addr) : M kvs_rbtree addr :=
  if decide (y = nil) then mret y else
  r ← f_right y;
  if decide (x = r) then
    match fuel with
    | O => fail OutOfFuel
    | S fuel' => p ← f_parent y; climb fuel' nil y p
    end
  else mret y.

Definition rbtree_successor (x : addr) : M kvs_rbtree addr :=
  nil ← get_nil;
  y ← f_parent x;
  r ← f_right x;
  if decide (r = nil) then fuel ← walk_fuel; climb fuel nil x y
  else rbtree_mini r.

(** ** Rotations *)

Definition rbtree_left_rotate (x : addr) : M kvs_rbtree unit :=
  nil ← get_nil;
  y ← f_right x;
  yl ← f_left y;
  set_right x yl;;
  (if decide (yl = nil) then mret tt else set_parent yl x);;
  xp ← f_parent x;
  set_parent y xp;;
  (if decide (xp = nil) then set_root y else
   pl ← f_left xp;
   if decide (x = pl) then set_left xp y else set_right xp y);;
  set_left y x;;
  set_parent x y.

Definition rbtree_right_rotate (y : addr) : M kvs_rbtree unit :=
  nil ← get_nil;
  x ← f_left y;
  xr ← f_right x;
  set_left y xr;;
  (if decide (xr = nil) then mret tt else set_parent xr y);;
  yp ← f_parent y;
  set_parent x yp;;
  (if decide (yp = nil) then set_root x else
   pr ← f_right yp;
   if decide (y = pr) then set_right yp x else set_left yp x);;
  set_right x y;;
  set_parent y x.

(** ** Insertion *)

(** One iteration of the while loop of [rbtree_insert_fixup], with z->parent
    RED; the result is the new [z]. *)
Definition insert_fixup_step (z : addr) : M kvs_rbtree addr :=
  p ← f_parent z;
  g ← f_parent p;
  gl ← f_left g;
  if decide (p = gl) then
    y ← f_right g;
    yc ← f_color y;
    if decide (yc = RED) then
      set_color p BLACK;; set_color y BLACK;; set_color g RED;; mret g
    else
      pr ← f_right p;
      z ← (if decide (z = pr) then rbtree_left_rotate p;; mret p else mret z);
      p ← f_parent z;
      set_color p BLACK;;
      g ← f_parent p;
      set_color g RED;;
      rbtree_right_rotate g;;
      mret z
  else
    y ← f_left g;
    yc ← f_color y;
    if decide (yc = RED) then
      set_color p BLACK;; set_color y BLACK;; set_color g RED;; mret g
    else
      pl ← f_left p;
      z ← (if decide (z = pl) then rbtree_right_rotate p;; mret p else mret z);
      p ← f_parent z;
      set_color p BLACK;;
      g ← f_parent p;
      set_color g RED;;
      rbtree_left_rotate g;;
      mret z.

Fixpoint insert_fixup_loop (fuel : nat) (z : addr) : M kvs_rbtree unit :=
  p ← f_parent z;
  pc ← f_color p;
  if decide (pc = RED) then
    match fuel with
    | O => fail OutOfFuel
    | S fuel' => z' ← insert_fixup_step z; insert_fixup_loop fuel' z'
    end
  else mret tt.

Definition rbtree_insert_fixup (z : addr) : M kvs_rbtree unit :=
  fuel ← walk_fuel;
  insert_fixup_loop fuel z;;
  r ← get_root;
  set_color r BLACK.

(** The descent: [None] when the key exists, else the parent of the new node. *)
Fixpoint insert_descend (fuel : nat) (nil : addr) (key : bytes) (y x : addr)
    : M kvs_rbtree (option addr) :=
  if decide (x = nil) then mret (Some y) else
  match fuel with
  | O => fail OutOfFuel
  | S fuel' =>
      kp ← f_key x; k ← read_str kp;
      if strcmp key k <? 0 then l ← f_left x; insert_descend fuel' nil key x l
      else if strcmp key k >? 0 then r ← f_right x; insert_descend fuel' nil key x r
      else mret None
  end.

Definition rbtree_insert (z : addr) : M kvs_rbtree unit :=
  nil ← get_nil;
  root ← get_root;
  fuel ← walk_fuel;
  kp ← f_key z; key ← read_str kp;
  pos ← insert_descend fuel nil key nil root;
  match pos with
  | None => mret tt
  | Some y =>
      set_parent z y;;
      (if decide (y = nil) then set_root z else
       ykp ← f_key y; yk ← read_str ykp;
       if strcmp key yk <? 0 then set_left y z else set_right y z);;
      set_left z nil;;
      set_right z nil;;
      set_color z RED;;
      rbtree_insert_fixup z
  end.

(** ** Deletion *)

(** (w->left->color == BLACK) && (w->right->color == BLACK) *)
Definition children_black (w : addr) : M kvs_rbtree bool :=
  wl ← f_left w; wlc ← f_color wl;
  if decide (wlc = BLACK) then
    wr ← f_right w; wrc ← f_color wr; mret (bool_decide (wrc = BLACK))
  else mret false.

(** One iteration of the while loop of [rbtree_delete_fixup]. *)
Definition delete_fixup_step (x : addr) : M kvs_rbtree addr :=
  xp ← f_parent x;
  xpl ← f_left xp;
  if decide (x = xpl) then
    w ← f_right xp;
    wc ← f_color w;
    w ← (if decide (wc = RED) then
           set_color w BLACK;;
           p ← f_parent x; set_color p RED;;
           p ← f_parent x; rbtree_left_rotate p;;
           p ← f_parent x; f_right p
         else mret w);
    both ← children_black w;
    if both : bool then
      set_color w RED;; f_parent x
    else
      wr ← f_right w; wrc ← f_color wr;
      w ← (if decide (wrc = BLACK) then
             wl ← f_left w; set_color wl BLACK;;
             set_color w RED;;
             rbtree_right_rotate w;;
             p ← f_parent x; f_right p
           else mret w);
      p ← f_parent x;
      pc ← f_color p;
      set_color w pc;;
      set_color p BLACK;;
      wr ← f_right w; set_color wr BLACK;;
      p ← f_parent x; rbtree_left_rotate p;;
      get_root
  else
    w ← f_left xp;
    wc ← f_color w;
    w ← (if decide (wc = RED) then
           set_color w BLACK;;
           p ← f_parent x; set_color p RED;;
           p ← f_parent x; rbtree_right_rotate p;;
           p ← f_parent x; f_left p
         else mret w);
    both ← children_black w;
    if both : bool then
      set_color w RED;; f_parent x
    else
      wl ← f_left w; wlc ← f_color wl;
      w ← (if decide (wlc = BLACK) then
             wr ← f_right w; set_color wr BLACK;;
             set_color w RED;;
             rbtree_left_rotate w;;
             p ← f_parent x; f_left p
           else mret w);
      p ← f_parent x;
      pc ← f_color p;
      set_color w pc;;
      set_color p BLACK;;
      wl ← f_left w; set_color wl BLACK;;
      p ← f_parent x; rbtree_right_rotate p;;
      get_root.

Fixpoint delete_fixup_loop (fuel : nat) (x : addr) : M kvs_rbtree addr :=
  root ← get_root;
  if decide (x = root) then mret x else
  c ← f_color x;
  if decide (c = BLACK) then
    match fuel with
    | O => fail OutOfFuel
    | S fuel' => x' ← delete_fixup_step x; delete_fixup_loop fuel' x'
    end
  else mret x.

Definition rbtree_delete_fixup (x : addr) : M kvs_rbtree unit :=
  fuel ← walk_fuel;
  x' ← delete_fixup_loop fuel x;
  set_color x' BLACK.

(** The node that is unlinked, which carries away the deleted key and value.
    The expiry time is not swapped. *)
Definition rbtree_delete (z : addr) : M kvs_rbtree addr :=
  nil ← get_nil;
  zl ← f_left z;
  zr ← f_right z;
  y ← (if decide (zl = nil ∨ zr = nil) then mret z else rbtree_successor z);
  yl ← f_left y;
  x ← (if decide (yl = nil) then yr ← f_right y; (if decide (yr = nil) then mret nil else mret yr)
       else mret yl);
  yp ← f_parent y;
  set_parent x yp;;
  (if decide (yp = nil) then set_root x else
   ypl ← f_left yp;
   if decide (y = ypl) then set_left yp x else set_right yp x);;
  (if decide (y = z) then mret tt else
   tmp ← f_key z; yk ← f_key y; set_key z yk;; set_key y tmp;;
   tmp ← f_value z; yv ← f_value y; set_value z yv;; set_value y tmp);;
  yc ← f_color y;
  (if decide (yc = BLACK) then rbtree_delete_fixup x else mret tt);;
  mret y.

(** ** Search *)

Fixpoint search_loop (fuel : nat) (nil : addr) (key : bytes) (node : addr) : M kvs_rbtree addr :=
  if decide (node = nil) then mret nil else
  match fuel with
  | O => fail OutOfFuel
  | S fuel' =>
      kp ← f_key node; k ← read_str kp;
      if strcmp key k <? 0 then l ← f_left node; search_loop fuel' nil key l
      else if strcmp key k >? 0 then r ← f_right node; search_loop fuel' nil key r
      else mret node
  end.

Definition rbtree_search (key : bytes) : M kvs_rbtree addr :=
  nil ← get_nil; root ← get_root; fuel ← walk_fuel; search_loop fuel nil key root.

(** ** The engine's operations *)

Definition kvs_rbtree_create : M kvs_rbtree Z :=
  block ← alloc_node;
  modify (λ s, KRb (rb_heap s) (rb_fresh s) (rb_root s) block);;
  match block with
  | None => mret (-1)
  | Some n =>
      set_color n BLACK;;
      set_left n n;;
      set_right n n;;
      set_parent n n;;
      set_root n;;
      mret 0
  end.

Definition free_nonnull (p : cptr) : M kvs_rbtree unit :=
  match p with PNull => mret tt | _ => kvs_free p end.

Fixpoint destory_loop (fuel : nat) : M kvs_rbtree unit :=
  root ← get_root;
  nil ← get_nil;
  if decide (root = nil) then mret tt else
  match fuel with
  | O => fail OutOfFuel
  | S fuel' =>
      mini ← rbtree_mini root;
      cur ← rbtree_delete mini;
      k ← f_key cur; free_nonnull k;;
      v ← f_value cur; free_nonnull v;;
      free_block cur;;
      destory_loop fuel'
  end.

Definition kvs_rbtree_destory : M kvs_rbtree unit :=
  fuel ← walk_fuel;
  destory_loop fuel;;
  nil ← gets rb_nil;
  match nil with
  | None => mret tt
  | Some a => free_block a;; modify (λ s, KRb (rb_heap s) (rb_fresh s) (rb_root s) None)
  end.

Definition kvs_rbtree_set (key value : cptr) (expire_ms : Z) : M kvs_rbtree Z :=
  arg2 (-1) key value (λ k v,
    node ← alloc_node;
    match node with
    | None => mret (-2)
    | Some node =>
        ok ← kvs_malloc;
        if negb ok then free_block node;; mret (-2) else
        set_key node (PStr k);;
        ok ← kvs_malloc;
        if negb ok then kvs_free (PStr k);; free_block node;; mret (-2) else
        set_value node (PStr v);;
        set_expire node expire_ms;;
        exist ← rbtree_search k;
        nil ← get_nil;
        (if decide (exist = nil) then mret tt
         else cur ← rbtree_delete exist; free_cur cur);;
        rbtree_insert node;;
        mret 0
    end).

Definition kvs_rbtree_del (key : cptr) : M kvs_rbtree Z :=
  arg1 (-1) key (λ k,
    node ← rbtree_search k;
    nil ← get_nil;
    if decide (node = nil) then mret 1 else
    cur ← rbtree_delete node;
    free_cur cur;;
    mret 0).

Definition kvs_rbtree_get (key : cptr) : M kvs_rbtree cptr :=
  arg1 PNull key (λ k,
    node ← rbtree_search k;
    nil ← get_nil;
    if decide (node = nil) then mret PNull else
    now ← kvs_current_time_ms;
    e ← f_expire node;
    if is_expired now e then kvs_rbtree_del key;; mret PNull
    else f_value node).

Definition kvs_rbtree_mod (key value : cptr) : M kvs_rbtree Z :=
  arg2 (-1) key value (λ k v,
    node ← rbtree_search k;
    nil ← get_nil;
    if decide (node = nil) then mret 1 else
    old ← f_value node; kvs_free old;;
    ok ← kvs_malloc;
    if negb ok then set_value node PNull;; mret (-2)
    else set_value node (PStr v);; mret 0).

Definition kvs_rbtree_exist (key : cptr) : M kvs_rbtree Z :=
  arg1 (-1) key (λ k,
    node ← rbtree_search k;
    nil ← get_nil;
    if decide (node = nil) then mret 1 else
    now ← kvs_current_time_ms;
    e ← f_expire node;
    if is_expired now e then kvs_rbtree_del key;; mret 1 else mret 0).

Definition kvs_rbtree_expire (key : cptr) (expire_ms : Z) : M kvs_rbtree Z :=
  arg1 (-1) key (λ k,
    node ← rbtree_search k;
    nil ← get_nil;
    if decide (node = nil) then mret 1 else
    if expire_ms =? 0 then kvs_rbtree_del key
    else set_expire node expire_ms;; mret 0).

Definition kvs_rbtree_ttl (key : cptr) : M kvs_rbtree Z :=
  arg1 (-2) key (λ k,
    node ← rbtree_search k;
    nil ← get_nil;
    if decide (node = nil) then mret (-2) else
    e ← f_expire node;
    if e =? -1 then mret (-1) else
    now ← kvs_current_time_ms;
    ttl ← checked64 (e - now);
    mret (clamp_ttl ttl)).

Definition MAX_EXPIRED : nat := 10240.

(** The array [expired] and its [count], filled in key order. *)
Fixpoint rbtree_collect_expired (fuel : nat) (node nil : addr) (now : Z) (expired : list addr)
    : M kvs_rbtree (list addr) :=
  if decide (node = nil) then mret expired else
  match fuel with
  | O => fail OutOfFuel
  | S fuel' =>
      l ← f_left node;
      expired ← rbtree_collect_expired fuel' l nil now expired;
      e ← f_expire node;
      let expired :=
        if is_expired now e && bool_decide (length expired < MAX_EXPIRED)%nat
        then expired ++ [node] else expired in
      r ← f_right node;
      rbtree_collect_expired fuel' r nil now expired
  end.

Fixpoint delete_collected (expired : list addr) : M kvs_rbtree unit :=
  match expired with
  | [] => mret tt
  | a :: expired' => cur ← rbtree_delete a; free_cur cur;; delete_collected expired'
  end.

Definition kvs_rbtree_scan_expired : M kvs_rbtree unit :=
  now ← kvs_current_time_ms;
  root ← get_root;
  nil ← get_nil;
  fuel ← walk_fuel;
  expired ← rbtree_collect_expired fuel root nil now [];
  delete_collected expired.

#[global] Instance rbtree_ops : EngineOps kvs_rbtree := {|
  e_set := kvs_rbtree_set;
  e_get := kvs_rbtree_get;
  e_del := kvs_rbtree_del;
  e_mod := kvs_rbtree_mod;
  e_exist := kvs_rbtree_exist;
  e_expire := kvs_rbtree_expire;
  e_ttl := kvs_rbtree_ttl;
  e_scan := kvs_rbtree_scan_expired
|}.
