(* ===== verification/RbtreeShape.v ===== *)
(** * The shape of the red-black tree in the heap

    A functional tree describes the nodes of the heap, a context the path from a
    node to the root. The two rotations, and the two halves of each fix-up loop,
    are mirror images: everything here is stated once for a side. *)

From S2P Require Import Prelude KvSpec KvsRbtree.

(** ** Sides *)

Inductive side := Lf | Rt.

#[global] Instance side_eq_dec : EqDecision side.
Proof. solve_decision. Defined.

Definition opp (d : side) : side := match d with Lf => Rt | Rt => Lf end.

Definition f_child (d : side) : addr → M kvs_rbtree addr := match d with Lf => f_left | Rt => f_right end.
Definition set_child (d : side) : addr → addr → M kvs_rbtree unit :=
  match d with Lf => set_left | Rt => set_right end.

(** [y] takes the place of [x] below its parent [xp]. *)
Definition relink_parent (d : side) (nil xp x y : addr) : M kvs_rbtree unit :=
  if decide (xp = nil) then set_root y else
  pc ← f_child d xp;
  if decide (x = pc) then set_child d xp y else set_child (opp d) xp y.

(** The rotation of [x] towards side [d]. *)
Definition rotate (d : side) (x : addr) : M kvs_rbtree unit :=
  nil ← get_nil;
  y ← f_child (opp d) x;
  yn ← f_child d y;
  set_child (opp d) x yn;;
  (if decide (yn = nil) then mret tt else set_parent yn x);;
  xp ← f_parent x;
  set_parent y xp;;
  relink_parent d nil xp x y;;
  set_child d y x;;
  set_parent x y.

Lemma left_rotate_rotate x : rbtree_left_rotate x = rotate Lf x.
Proof. reflexivity. Qed.
Lemma right_rotate_rotate x : rbtree_right_rotate x = rotate Rt x.
Proof. reflexivity. Qed.

(** ** Trees and contexts *)

Inductive tree :=
| Leaf
| Node (a : addr) (c : color) (l : tree) (k : bytes) (x : entry) (r : tree).

(** The node with [t1] on side [d] and [t2] on the other. *)
Definition node (d : side) a c (t1 : tree) k x (t2 : tree) : tree :=
  match d with Lf => Node a c t1 k x t2 | Rt => Node a c t2 k x t1 end.

(** The node [fr_addr] above the hole, which is its child on side [fr_side]; the
    other child is [fr_sib]. *)
Record frame := Frame {
  fr_side : side; fr_addr : addr; fr_color : color; fr_key : bytes; fr_entry : entry; fr_sib : tree
}.

Abbreviation context := (list frame).

Definition fill (f : frame) (t : tree) : tree :=
  node (fr_side f) (fr_addr f) (fr_color f) t (fr_key f) (fr_entry f) (fr_sib f).

Fixpoint plug (C : context) (t : tree) : tree :=
  match C with [] => t | f :: C' => plug C' (fill f t) end.

Definition root_of (nil : addr) (t : tree) : addr := match t with Leaf => nil | Node a _ _ _ _ _ => a end.
Definition up (nil : addr) (C : context) : addr := match C with [] => nil | f :: _ => fr_addr f end.

Fixpoint addrs (t : tree) : list addr :=
  match t with Leaf => [] | Node a _ l _ _ r => a :: addrs l ++ addrs r end.

Fixpoint caddrs (C : context) : list addr :=
  match C with [] => [] | f :: C' => fr_addr f :: addrs (fr_sib f) ++ caddrs C' end.

Fixpoint inorder (t : tree) : list (bytes * entry) :=
  match t with Leaf => [] | Node _ _ l k x r => inorder l ++ (k, x) :: inorder r end.

(** What is to the left and to the right of the hole. *)
Fixpoint before (C : context) : list (bytes * entry) :=
  match C with
  | [] => []
  | f :: C' =>
      match fr_side f with
      | Lf => before C'
      | Rt => before C' ++ inorder (fr_sib f) ++ [(fr_key f, fr_entry f)]
      end
  end.

Fixpoint beyond (C : context) : list (bytes * entry) :=
  match C with
  | [] => []
  | f :: C' =>
      match fr_side f with
      | Lf => (fr_key f, fr_entry f) :: inorder (fr_sib f) ++ beyond C'
      | Rt => beyond C'
      end
  end.

Lemma inorder_plug C t : inorder (plug C t) = before C ++ inorder t ++ beyond C.
Proof.
  revert t. induction C as [|f C IH]; intros t; simpl; [by rewrite app_nil_r|].
  rewrite IH. destruct f as [[] a c k x r]; simpl; by rewrite <-!app_assoc.
Qed.

Lemma addrs_node d a c t1 k x t2 : addrs (node d a c t1 k x t2) ≡ₚ a :: addrs t1 ++ addrs t2.
Proof. destruct d; simpl; [done|]. constructor. apply Permutation_app_comm. Qed.

Lemma addrs_plug C t : addrs (plug C t) ≡ₚ addrs t ++ caddrs C.
Proof.
  revert t. induction C as [|f C IH]; intros t; simpl; [by rewrite app_nil_r|].
  rewrite IH. unfold fill. rewrite addrs_node. solve_Permutation.
Qed.

Lemma plug_app C1 C2 t : plug (C1 ++ C2) t = plug C2 (plug C1 t).
Proof. revert t. induction C1 as [|f C1 IH]; intros t; simpl; [done|apply IH]. Qed.

(** ** The heap *)

(** The node of a tree in memory. *)
Definition cell (d : side) (c : color) (near far par : addr) (k : bytes) (x : entry) : rbtree_node :=
  match d with
  | Lf => RBNode (Some c) (Some far) (Some near) (Some par) (Some (PStr k)) (Some x.1) (Some x.2)
  | Rt => RBNode (Some c) (Some near) (Some far) (Some par) (Some (PStr k)) (Some x.1) (Some x.2)
  end.

#[global] Arguments cell : simpl never.

Abbreviation rbheap := (gmap addr rbtree_node).
Implicit Types (h : rbheap) (d : side) (C : context) (t : tree).

Lemma cell_flip d c near far par k x : cell d c near far par k x = cell (opp d) c far near par k x.
Proof. by destruct d. Qed.

Fixpoint tree_at (h : rbheap) (nil par : addr) (t : tree) : Prop :=
  match t with
  | Leaf => True
  | Node a c l k x r =>
      h !! a = Some (cell Lf c (root_of nil l) (root_of nil r) par k x) ∧
      tree_at h nil a l ∧ tree_at h nil a r
  end.

Fixpoint ctx_at (h : rbheap) (nil child : addr) (C : context) : Prop :=
  match C with
  | [] => True
  | f :: C' =>
      h !! fr_addr f = Some (cell (fr_side f) (fr_color f) child (root_of nil (fr_sib f)) (up nil C')
                                  (fr_key f) (fr_entry f)) ∧
      tree_at h nil (fr_addr f) (fr_sib f) ∧ ctx_at h nil (fr_addr f) C'
  end.

Lemma tree_at_node h nil par d a c t1 k x t2 :
  tree_at h nil par (node d a c t1 k x t2) ↔
  h !! a = Some (cell d c (root_of nil t1) (root_of nil t2) par k x) ∧
  tree_at h nil a t1 ∧ tree_at h nil a t2.
Proof. destruct d; simpl; naive_solver. Qed.

Lemma root_node nil d a c t1 k x t2 : root_of nil (node d a c t1 k x t2) = a.
Proof. by destruct d. Qed.

(** A tree is unaffected by what happens elsewhere. *)
Lemma tree_at_frame h h' nil par t :
  tree_at h nil par t → (∀ a, a ∈ addrs t → h' !! a = h !! a) → tree_at h' nil par t.
Proof.
  revert par. induction t as [|a c l IHl k x r IHr]; intros par; simpl; [done|].
  intros (Ha & Hl & Hr) Heq. rewrite Heq by (by left). split; [done|].
  split; [apply IHl|apply IHr]; try done; intros b Hb; apply Heq; set_solver.
Qed.

Lemma ctx_at_frame h h' nil child C :
  ctx_at h nil child C → (∀ a, a ∈ caddrs C → h' !! a = h !! a) → ctx_at h' nil child C.
Proof.
  revert child. induction C as [|f C IH]; intros child; simpl; [done|].
  intros (Ha & Hs & HC) Heq. rewrite Heq by (by left). split; [done|]. split.
  - eapply tree_at_frame; [done|]. intros b Hb. apply Heq. set_solver.
  - apply IH; [done|]. intros b Hb. apply Heq. set_solver.
Qed.

(** The sentinel: black, its children itself, its parent whatever was last
    written there, the rest never written. *)
Definition nil_cell (nil par : addr) : rbtree_node :=
  RBNode (Some BLACK) (Some nil) (Some nil) (Some par) None None None.

(** The state holds tree [t] in context [C]; [np] is the sentinel's parent, and
    [X] is the rest of the heap. *)
Record rep (s : kvs_rbtree) (nil np : addr) (X : rbheap) (C : context) (t : tree) : Prop := {
  rp_root  : rb_root s = Some (root_of nil (plug C t));
  rp_nil   : rb_nil s = Some nil;
  rp_cell  : rb_heap s !! nil = Some (nil_cell nil np);
  rp_tree  : tree_at (rb_heap s) nil (up nil C) t;
  rp_ctx   : ctx_at (rb_heap s) nil (root_of nil t) C;
  rp_nodup : NoDup (nil :: addrs t ++ caddrs C);
  rp_rest  : ∀ a, a ∉ nil :: addrs t ++ caddrs C → rb_heap s !! a = X !! a;
  rp_out   : ∀ a, a ∈ nil :: addrs t ++ caddrs C → X !! a = None;
  rp_fresh : ∀ a, (rb_fresh s ≤ a)%nat → rb_heap s !! a = None
}.

(** Moving the focus up and down. *)
Lemma rep_zip s nil np X f C t : rep s nil np X (f :: C) t ↔ rep s nil np X C (fill f t).
Proof.
  assert (nil :: addrs t ++ caddrs (f :: C) ≡ₚ nil :: addrs (fill f t) ++ caddrs C) as Hp.
  { unfold fill. rewrite addrs_node. simpl. constructor. solve_Permutation. }
  split.
  - intros [Hr Hn Hc Ht [Ha [Hs HC]] Hnd HX HO Hf]. split; [done|done|done| | |by rewrite <-Hp| | |done].
    + unfold fill. apply tree_at_node. done.
    + unfold fill. by rewrite root_node.
    + intros a Ha'. apply HX. by rewrite Hp.
    + intros a Ha'. apply HO. by rewrite Hp.
  - intros [Hr Hn Hc Ht HC Hnd HX HO Hf]. unfold fill in Ht. apply tree_at_node in Ht as (Ha & Ht & Hs).
    unfold fill in HC. rewrite root_node in HC. split; try done; [by rewrite Hp|..].
    + intros a Ha'. apply HX. by rewrite <-Hp.
    + intros a Ha'. apply HO. by rewrite <-Hp.
Qed.

Lemma rep_plug s nil np X C1 C2 t : rep s nil np X (C1 ++ C2) t ↔ rep s nil np X C2 (plug C1 t).
Proof. revert t. induction C1 as [|f C1 IH]; intros t; simpl; [done|]. by rewrite rep_zip, IH. Qed.

Lemma rep_refocus s nil np X C t C' t' :
  plug C t = plug C' t' → rep s nil np X C t → rep s nil np X C' t'.
Proof.
  intros Hp H. rewrite <-(app_nil_r C), rep_plug, Hp in H. by rewrite <-(app_nil_r C'), rep_plug.
Qed.

Lemma rep_down d s nil np X C a c t1 k x t2 :
  rep s nil np X C (node d a c t1 k x t2) ↔ rep s nil np X (Frame d a c k x t2 :: C) t1.
Proof. by rewrite rep_zip. Qed.

Lemma node_flip d a c t1 k x t2 : node (opp d) a c t1 k x t2 = node d a c t2 k x t1.
Proof. by destruct d. Qed.

Lemma opp_opp d : opp (opp d) = d.
Proof. by destruct d. Qed.

Lemma rep_across d s nil np X C a c t1 k x t2 :
  rep s nil np X C (node d a c t1 k x t2) ↔ rep s nil np X (Frame (opp d) a c k x t1 :: C) t2.
Proof. rewrite rep_zip. unfold fill. simpl. by rewrite node_flip. Qed.

(** Two views of one tree. *)
Ltac same_tree := cbn [plug fill fr_side fr_addr fr_color fr_key fr_entry fr_sib];
  unfold fill; cbn [plug fr_side fr_addr fr_color fr_key fr_entry fr_sib]; rewrite ?node_flip, ?opp_opp; reflexivity.

(** Two trees with the same entries in the same order. *)
Ltac same_entries := simpl; repeat (progress (rewrite <-?app_assoc, ?app_nil_r; simpl)); reflexivity.

Ltac refocus H := eapply rep_refocus; [|exact H]; same_tree.

(** ** Reading and writing cells *)

Definition hset (a : addr) (n : rbtree_node) (s : kvs_rbtree) : kvs_rbtree :=
  KRb (<[a := n]> (rb_heap s)) (rb_fresh s) (rb_root s) (rb_nil s).

Lemma hset_heap a n s b : rb_heap (hset a n s) !! b = if decide (b = a) then Some n else rb_heap s !! b.
Proof. unfold hset. simpl. case_decide; simplify_map_eq; done. Qed.
Lemma hset_fields a n s :
  rb_root (hset a n s) = rb_root s ∧ rb_nil (hset a n s) = rb_nil s ∧ rb_fresh (hset a n s) = rb_fresh s.
Proof. done. Qed.

Section cells.
Context (E : env) (s : kvs_rbtree) (t : nat).
Context (d : side) (a : addr) (c : color) (near far par : addr) (k : bytes) (x : entry).
Hypothesis Ha : rb_heap s !! a = Some (cell d c near far par k x).

Local Ltac go := unfold wp, f_child, set_child, f_left, f_right, f_parent, f_color, f_key, f_value, f_expire,
  read_field, set_left, set_right, set_parent, set_color, set_key, set_value, set_expire, upd_node, get_node,
  mbind, M_bind, gets, hset, modify; intros; rewrite ?Ha; destruct d; unfold cell in *; simpl; rewrite ?Ha; simpl; done.

Lemma wp_near Q : Q near s t → wp (f_child d a) Q E s t.
Proof. go. Qed.
Lemma wp_far Q : Q far s t → wp (f_child (opp d) a) Q E s t.
Proof. go. Qed.
Lemma wp_parent Q : Q par s t → wp (f_parent a) Q E s t.
Proof. go. Qed.
Lemma wp_color Q : Q c s t → wp (f_color a) Q E s t.
Proof. go. Qed.
Lemma wp_key Q : Q (PStr k) s t → wp (f_key a) Q E s t.
Proof. go. Qed.
Lemma wp_value Q : Q x.1 s t → wp (f_value a) Q E s t.
Proof. go. Qed.
Lemma wp_expire Q : Q x.2 s t → wp (f_expire a) Q E s t.
Proof. go. Qed.

Lemma wp_set_near v Q : Q tt (hset a (cell d c v far par k x) s) t → wp (set_child d a v) Q E s t.
Proof. go. Qed.
Lemma wp_set_far v Q : Q tt (hset a (cell d c near v par k x) s) t → wp (set_child (opp d) a v) Q E s t.
Proof. go. Qed.
Lemma wp_set_parent v Q : Q tt (hset a (cell d c near far v k x) s) t → wp (set_parent a v) Q E s t.
Proof. go. Qed.
Lemma wp_set_color v Q : Q tt (hset a (cell d v near far par k x) s) t → wp (set_color a v) Q E s t.
Proof. go. Qed.
Lemma wp_set_key v Q : Q tt (hset a (cell d c near far par v x) s) t → wp (set_key a (PStr v)) Q E s t.
Proof. go. Qed.
Lemma wp_set_value v Q : Q tt (hset a (cell d c near far par k (v, x.2)) s) t → wp (set_value a v) Q E s t.
Proof. go. Qed.
Lemma wp_set_expire v Q : Q tt (hset a (cell d c near far par k (x.1, v)) s) t → wp (set_expire a v) Q E s t.
Proof. go. Qed.
End cells.

#[global] Opaque hset.

Lemma wp_get_nil nil E s i Q : rb_nil s = Some nil → Q nil s i → wp get_nil Q E s i.
Proof. unfold wp, get_nil, mbind, M_bind, gets. by intros ->. Qed.
Lemma wp_get_root r E s i Q : rb_root s = Some r → Q r s i → wp get_root Q E s i.
Proof. unfold wp, get_root, mbind, M_bind, gets. by intros ->. Qed.
