(* ===== verification/RbtreeRotate.v ===== *)
(** * Surgery on the red-black tree: recolouring, rotation, linking and unlinking

    Each of these leaves the heap in a state that represents the expected tree,
    and changes no node outside it. *)

From S2P Require Import Prelude KvSpec KvsRbtree RbtreeShape.

Implicit Types (h : rbheap) (d : side) (C : context) (nil np : addr) (X : rbheap).

(** ** What a representation says of single cells *)

Lemma rep_focus d s nil np X C a c t1 k x t2 :
  rep s nil np X C (node d a c t1 k x t2) →
  rb_heap s !! a = Some (cell d c (root_of nil t1) (root_of nil t2) (up nil C) k x).
Proof. intros H. pose proof (rp_tree _ _ _ _ _ _ H) as Ht. by apply tree_at_node in Ht as [? _]. Qed.

Lemma rep_frame s nil np X f C t :
  rep s nil np X (f :: C) t →
  rb_heap s !! fr_addr f = Some (cell (fr_side f) (fr_color f) (root_of nil t) (root_of nil (fr_sib f))
                                      (up nil C) (fr_key f) (fr_entry f)).
Proof. intros H. by destruct (rp_ctx _ _ _ _ _ _ H). Qed.

Lemma rep_frame2 s nil np X f g C t :
  rep s nil np X (f :: g :: C) t →
  rb_heap s !! fr_addr g = Some (cell (fr_side g) (fr_color g) (fr_addr f) (root_of nil (fr_sib g))
                                      (up nil C) (fr_key g) (fr_entry g)).
Proof. intros H%rep_zip%rep_frame. unfold fill in H. by rewrite root_node in H. Qed.

Lemma root_elem nil t : root_of nil t = nil ∨ root_of nil t ∈ addrs t.
Proof. destruct t; [by left|]. right. by left. Qed.

Lemma rep_live s nil np X C t a :
  rep s nil np X C t → a ∈ nil :: addrs t ++ caddrs C → ∃ n, rb_heap s !! a = Some n.
Proof.
  assert (∀ par t', tree_at (rb_heap s) nil par t' → a ∈ addrs t' → is_Some (rb_heap s !! a)) as Htree.
  { intros par t'. revert par. induction t' as [|b c l IHl k x r IHr]; intros par; simpl; [set_solver|].
    intros (Hb & Hl & Hr) [->|[Ha|Ha]%elem_of_app]%elem_of_cons; eauto. }
  assert (∀ child C', ctx_at (rb_heap s) nil child C' → a ∈ caddrs C' → is_Some (rb_heap s !! a)) as Hctx.
  { intros child C'. revert child. induction C' as [|f C' IH]; intros child; simpl; [set_solver|].
    intros (Hb & Hs & HC) [->|[Ha|Ha]%elem_of_app]%elem_of_cons; eauto. }
  intros [] [->|[Ha|Ha]%elem_of_app]%elem_of_cons; [by eexists|eapply Htree; eauto..|eapply Hctx; eauto].
Qed.

Lemma root_plug nil C t : root_of nil (plug C t) = from_option fr_addr (root_of nil t) (last C).
Proof.
  revert t. induction C as [|f C IH]; intros t; simpl; [done|]. rewrite IH. unfold fill.
  rewrite last_cons, root_node. by destruct (last C).
Qed.

(** A new state represents a new tree on the same nodes. *)
Lemma rep_rebuild s s' nil np X C t C' t' :
  rep s nil np X C t →
  addrs t' ++ caddrs C' ≡ₚ addrs t ++ caddrs C →
  rb_root s' = Some (root_of nil (plug C' t')) → rb_nil s' = rb_nil s → rb_fresh s' = rb_fresh s →
  tree_at (rb_heap s') nil (up nil C') t' → ctx_at (rb_heap s') nil (root_of nil t') C' →
  (∀ a, a ∉ addrs t ++ caddrs C → rb_heap s' !! a = rb_heap s !! a) →
  rep s' nil np X C' t'.
Proof.
  intros H Hp Hroot Hnil Hfr Ht HC Heq. pose proof H as [Hr Hn Hc _ _ Hnd HX HO Hf].
  assert (nil ∉ addrs t ++ caddrs C) by (by apply NoDup_cons in Hnd as [? _]).
  split; [done|congruence| |done|done|by rewrite Hp| | |].
  - by rewrite Heq.
  - intros a. rewrite Hp. intros Ha. rewrite Heq by set_solver. auto.
  - intros a. rewrite Hp. apply HO.
  - intros a Ha. rewrite Hfr in Ha. rewrite Heq; [auto|]. intros Hin.
    destruct (rep_live _ _ _ _ _ _ a H) as [n Hn']; [by right|]. rewrite Hf in Hn'; [done|lia].
Qed.

(** A node may change its colour and its contents. *)
Lemma rep_recell d s nil np X C a c t1 k x t2 c' k' x' :
  rep s nil np X C (node d a c t1 k x t2) →
  rep (hset a (cell d c' (root_of nil t1) (root_of nil t2) (up nil C) k' x') s) nil np X C
      (node d a c' t1 k' x' t2).
Proof.
  intros H. pose proof H as [Hr Hn Hc Ht HC Hnd HX HO Hf].
  assert (a ∉ addrs t1 ++ addrs t2 ++ caddrs C) as Hnt.
  { apply NoDup_cons in Hnd as [_ Hnd]. rewrite addrs_node, <-app_comm_cons, <-app_assoc in Hnd.
    by apply NoDup_cons in Hnd as [? _]. }
  apply tree_at_node in Ht as (Ha & H1 & H2).
  eapply rep_rebuild; [exact H| |rewrite (proj1 (hset_fields _ _ _)), Hr, !root_plug, !root_node; done|apply hset_fields..| | |].
  - by rewrite !addrs_node.
  - apply tree_at_node. rewrite hset_heap, decide_True by done.
    split; [done|]. split; (eapply tree_at_frame; [done|]); intros b Hb; rewrite hset_heap; rewrite decide_False; try done; set_solver.
  - rewrite root_node in HC |- *. eapply ctx_at_frame; [done|].
    intros b Hb. rewrite hset_heap, decide_False; [done|set_solver].
  - intros b Hb. rewrite hset_heap, decide_False; [done|].
    intros ->. apply Hb. rewrite addrs_node. set_solver.
Qed.

(** The parent pointer at the root of a subtree is the only one that leaves it. *)
Definition with_parent (p : addr) (n : rbtree_node) : rbtree_node :=
  RBNode (rn_color n) (rn_right n) (rn_left n) (Some p) (rn_key n) (rn_value n) (rn_expire n).

Lemma tree_at_reparent h h' nil par par' t :
  tree_at h nil par t → NoDup (addrs t) → nil ∉ addrs t →
  (∀ a, a ∈ addrs t → h' !! a = if decide (a = root_of nil t) then with_parent par' <$> h !! a else h !! a) →
  tree_at h' nil par' t.
Proof.
  destruct t as [|a c l k x r]; [done|]. simpl. intros (Ha & Hl & Hr) [Hna Hnd]%NoDup_cons Hnil Heq.
  rewrite (Heq a), decide_True, Ha by (done || by left). split; [done|].
  split; (eapply tree_at_frame; [done|]); intros b Hb; rewrite Heq, decide_False; try done; set_solver.
Qed.

(** The child pointer of the innermost frame is the only one that leaves a context. *)
Definition relink (child : addr) (f : frame) (nil : addr) (C : context) : rbtree_node :=
  cell (fr_side f) (fr_color f) child (root_of nil (fr_sib f)) (up nil C) (fr_key f) (fr_entry f).

Lemma ctx_at_rechild h h' nil child child' C :
  ctx_at h nil child C →
  (∀ f C', C = f :: C' → h' !! fr_addr f = Some (relink child' f nil C')) →
  (∀ a, a ∈ tail (caddrs C) → h' !! a = h !! a) →
  ctx_at h' nil child' C.
Proof.
  destruct C as [|f C]; [done|]. simpl. intros (Ha & Hs & HC) Hf Heq.
  rewrite (Hf f C) by done. split; [done|]. split.
  - eapply tree_at_frame; [done|]. set_solver.
  - eapply ctx_at_frame; [done|]. set_solver.
Qed.

(** ** Moving pointers *)

(** The state after the root of [t] got the parent [p]. *)
Definition reparented (nil : addr) (t : tree) (p : addr) (s : kvs_rbtree) : kvs_rbtree :=
  match t with
  | Leaf => s
  | Node b c l k x r => hset b (cell Lf c (root_of nil l) (root_of nil r) p k x) s
  end.

(** The state after [y] became the child of the innermost frame, or the root. *)
Definition relinked (nil : addr) (C : context) (y : addr) (s : kvs_rbtree) : kvs_rbtree :=
  match C with
  | [] => KRb (rb_heap s) (rb_fresh s) (Some y) (rb_nil s)
  | f :: C' => hset (fr_addr f) (relink y f nil C') s
  end.

Lemma reparented_tree nil t par p s s' :
  tree_at (rb_heap s) nil par t → NoDup (addrs t) → nil ∉ addrs t →
  (∀ a, a ∈ addrs t → rb_heap s' !! a = rb_heap (reparented nil t p s) !! a) →
  tree_at (rb_heap s') nil p t.
Proof.
  intros Ht Hnd Hnil Heq. eapply tree_at_reparent; [exact Ht|done..|]. intros a Ha. rewrite Heq by done.
  destruct t as [|b c l k x r]; [set_solver|]. destruct Ht as (Hb & _).
  unfold reparented. rewrite hset_heap. simpl. destruct (decide (a = b)) as [->|]; [by rewrite Hb|done].
Qed.

Lemma reparented_ne nil t p s a : a ∉ addrs t → rb_heap (reparented nil t p s) !! a = rb_heap s !! a.
Proof.
  destruct t; [done|]. simpl. intros Ha. rewrite hset_heap, decide_False; [done|set_solver].
Qed.

Lemma relinked_ne nil C y s a : a ≠ up nil C ∨ C = [] → rb_heap (relinked nil C y s) !! a = rb_heap s !! a.
Proof.
  destruct C as [|f C]; [done|]. simpl. intros [Ha|?]; [|done]. by rewrite hset_heap, decide_False.
Qed.

Lemma relinked_top nil f C y s : rb_heap (relinked nil (f :: C) y s) !! fr_addr f = Some (relink y f nil C).
Proof. simpl. by rewrite hset_heap, decide_True. Qed.

Lemma reparented_fields nil t p s :
  rb_root (reparented nil t p s) = rb_root s ∧ rb_nil (reparented nil t p s) = rb_nil s ∧
  rb_fresh (reparented nil t p s) = rb_fresh s.
Proof. destruct t; [done|]. apply hset_fields. Qed.

Lemma relinked_fields nil C y s :
  rb_root (relinked nil C y s) = (if C is [] then Some y else rb_root s) ∧
  rb_nil (relinked nil C y s) = rb_nil s ∧ rb_fresh (relinked nil C y s) = rb_fresh s.
Proof. destruct C; [done|]. apply hset_fields. Qed.

Lemma wp_reparent nil t par p E s i Q :
  tree_at (rb_heap s) nil par t → nil ∉ addrs t →
  Q tt (reparented nil t p s) i →
  wp (if decide (root_of nil t = nil) then mret tt else set_parent (root_of nil t) p) Q E s i.
Proof.
  destruct t as [|b c l k x r]; simpl.
  - intros _ _ HQ. by rewrite decide_True.
  - intros (Hb & _) Hnil HQ. rewrite decide_False by set_solver. eapply wp_set_parent; [exact Hb|exact HQ].
Qed.

Lemma wp_relink d nil C x y E s i Q :
  x ≠ nil →
  (∀ f C', C = f :: C' → rb_heap s !! fr_addr f = Some (relink x f nil C') ∧
     fr_addr f ≠ nil ∧ root_of nil (fr_sib f) ≠ x) →
  Q tt (relinked nil C y s) i →
  wp (relink_parent d nil (up nil C) x y) Q E s i.
Proof.
  intros Hx HC HQ. unfold relink_parent. destruct C as [|f C]; simpl in *.
  { rewrite decide_True by done. exact HQ. }
  destruct (HC f C eq_refl) as (Hf & Hnil & Hsib). rewrite decide_False by done. wp_steps.
  unfold relink in Hf. destruct (decide (fr_side f = d)) as [<-|Hd].
  - eapply wp_near; [exact Hf|]. cbv beta. rewrite decide_True by done.
    eapply wp_set_near; [exact Hf|exact HQ].
  - assert (d = opp (fr_side f)) as -> by (destruct d, (fr_side f); done).
    eapply wp_far; [exact Hf|]. cbv beta. rewrite decide_False by done.
    assert (opp (opp (fr_side f)) = fr_side f) as -> by (by destruct (fr_side f)).
    eapply wp_set_near; [exact Hf|exact HQ].
Qed.

(** ** Rotation *)

Lemma rep_up s nil np X C t a :
  rep s nil np X C t → a ∉ caddrs C → a ≠ nil → a ≠ up nil C.
Proof. destruct C as [|f C]; simpl; set_solver. Qed.

Lemma rep_relinkable s nil np X C t s' :
  rep s nil np X C t → t ≠ Leaf → (∀ f C', C = f :: C' → rb_heap s' !! fr_addr f = rb_heap s !! fr_addr f) →
  ∀ f C', C = f :: C' → rb_heap s' !! fr_addr f = Some (relink (root_of nil t) f nil C') ∧
     fr_addr f ≠ nil ∧ root_of nil (fr_sib f) ≠ root_of nil t.
Proof.
  intros H Ht Heq f C' ->. rewrite (Heq f C') by done.
  split; [exact (rep_frame _ _ _ _ _ _ _ H)|].
  pose proof (rp_nodup _ _ _ _ _ _ H) as Hnd. simpl in Hnd.
  destruct t as [|a c l k x r]; [done|]. simpl in *.
  pose proof (root_elem nil (fr_sib f)) as Hs.
  apply NoDup_cons in Hnd as [Hnil [Ha _]%NoDup_cons]. split; [set_solver|].
  destruct Hs as [->|Hs]; set_solver.
Qed.

Section rotate.
Context (d : side) (s : kvs_rbtree) (nil np : addr) (X : rbheap) (C : context).
Context (x y : addr) (cx cy : color) (kx ky : bytes) (ex ey : entry) (ta tb tc : tree).
Hypothesis H : rep s nil np X C (node d x cx ta kx ex (node d y cy tb ky ey tc)).

Definition rotated : kvs_rbtree :=
  let s1 := hset x (cell d cx (root_of nil ta) (root_of nil tb) (up nil C) kx ex) s in
  let s2 := reparented nil tb x s1 in
  let s3 := hset y (cell d cy (root_of nil tb) (root_of nil tc) (up nil C) ky ey) s2 in
  let s4 := relinked nil C y s3 in
  let s5 := hset y (cell d cy x (root_of nil tc) (up nil C) ky ey) s4 in
  hset x (cell d cx (root_of nil ta) (root_of nil tb) y kx ex) s5.

Lemma rotate_addrs : NoDup (nil :: x :: y :: addrs ta ++ addrs tb ++ addrs tc ++ caddrs C).
Proof.
  pose proof (rp_nodup _ _ _ _ _ _ H) as Hnd. rewrite addrs_node, addrs_node in Hnd.
  eapply NoDup_Permutation_proper; [|exact Hnd]. solve_Permutation.
Qed.

(** The parts of the tree are apart. *)
Lemma rotate_apart :
  (x ≠ y ∧ x ≠ nil ∧ y ≠ nil) ∧
  (nil ∉ addrs tb ∧ x ∉ addrs ta ++ addrs tb ++ addrs tc ∧ y ∉ addrs ta ++ addrs tb ++ addrs tc) ∧
  (∀ a, a ∈ addrs ta ++ addrs tc → a ∉ addrs tb) ∧
  (∀ a, a ∈ caddrs C → a ≠ nil ∧ a ≠ x ∧ a ≠ y ∧ a ∉ addrs ta ++ addrs tb ++ addrs tc).
Proof.
  pose proof rotate_addrs as Hnd.
  apply NoDup_cons in Hnd as [Hnil [Hnx [Hny Hnd]%NoDup_cons]%NoDup_cons].
  rewrite !app_assoc in Hnd. apply NoDup_app in Hnd as (Hnd & HC & _).
  rewrite <-!app_assoc in *. apply NoDup_app in Hnd as (_ & Ha & Hnd). apply NoDup_app in Hnd as (_ & Hb & _).
  split; [set_solver|]. split; [set_solver|]. split.
  - intros a [Ha'|Ha']%elem_of_app Hb'; [eapply Ha; set_solver|eapply Hb; set_solver].
  - intros a Ha'. repeat split; try set_solver.
Qed.

Lemma up_apart : C = [] ∨ up nil C ∈ caddrs C.
Proof. destruct C; [by left|]. right. by left. Qed.

Lemma rotated_ne a : a ≠ x → a ≠ y → a ∉ addrs tb → a ≠ up nil C ∨ C = [] →
  rb_heap rotated !! a = rb_heap s !! a.
Proof.
  intros. unfold rotated. rewrite hset_heap, decide_False by done. rewrite hset_heap, decide_False by done.
  rewrite relinked_ne by done. rewrite hset_heap, decide_False by done.
  rewrite reparented_ne by done. by rewrite hset_heap, decide_False by done.
Qed.

(** The rotation runs to the state [rotated]. *)
Lemma wp_rotate_run E i Q : Q tt rotated i → wp (rotate d x) Q E s i.
Proof.
  intros HQ. pose proof rotate_apart as ((? & ? & ?) & (? & ? & ?) & _ & HCs).
  pose proof (rp_tree _ _ _ _ _ _ H) as Ht. apply tree_at_node in Ht as (Hx & Ha & Ht).
  rewrite root_node in Hx. apply tree_at_node in Ht as (Hy & Hb & Hc).
  assert (∀ a, a = x ∨ a = y → a ≠ up nil C ∨ C = []) as Hup'.
  { intros a Ha'. destruct up_apart as [?|Hu]; [by right|left]. destruct (HCs _ Hu) as (?&?&?&?). naive_solver. }
  unfold rotate. wp_steps. eapply wp_get_nil; [by eapply rp_nil|]. wp_steps.
  eapply wp_far; [exact Hx|]. cbv beta. wp_steps. eapply wp_near; [exact Hy|]. cbv beta. wp_steps.
  eapply wp_set_far; [exact Hx|]. cbv beta. wp_steps.
  eapply (wp_reparent _ _ y); [|done|].
  { eapply tree_at_frame; [exact Hb|]. intros b Hb'. rewrite hset_heap, decide_False; [done|set_solver]. }
  cbv beta. wp_steps.
  eapply wp_parent; [rewrite reparented_ne by set_solver; rewrite hset_heap, decide_True; done|]. cbv beta. wp_steps.
  eapply wp_set_parent; [rewrite reparented_ne by set_solver; rewrite hset_heap, decide_False by done; exact Hy|].
  cbv beta. wp_steps.
  apply wp_relink; [done| |].
  { intros f C' HC. rewrite HC in HCs, H.
    destruct (rep_relinkable _ _ _ _ _ _ s H ltac:(by destruct d) ltac:(done) f C' eq_refl) as (Hf & ? & ?).
    destruct (HCs (fr_addr f)) as (?&?&?&?); [by left|].
    rewrite root_node in *. split; [|done]. rewrite <-Hf.
    rewrite hset_heap, decide_False by done. rewrite reparented_ne by set_solver.
    by rewrite hset_heap, decide_False. }
  cbv beta. wp_steps. eapply wp_set_near.
  { rewrite relinked_ne by auto. rewrite hset_heap, decide_True; done. }
  cbv beta. eapply wp_set_parent.
  { rewrite hset_heap, decide_False by done. rewrite relinked_ne by auto.
    rewrite hset_heap, decide_False by done.
    rewrite reparented_ne by set_solver. rewrite hset_heap, decide_True; done. }
  exact HQ.
Qed.

Lemma rotated_y : rb_heap rotated !! y = Some (cell d cy x (root_of nil tc) (up nil C) ky ey).
Proof.
  destruct rotate_apart as ((? & ? & ?) & _). unfold rotated.
  rewrite hset_heap, decide_False by done. by rewrite hset_heap, decide_True.
Qed.

Lemma rotated_x : rb_heap rotated !! x = Some (cell d cx (root_of nil ta) (root_of nil tb) y kx ex).
Proof. unfold rotated. by rewrite hset_heap, decide_True. Qed.

Lemma rotated_b : tree_at (rb_heap rotated) nil x tb.
Proof.
  pose proof rotate_apart as ((? & ? & ?) & (? & ? & ?) & _ & HCs).
  pose proof (rp_tree _ _ _ _ _ _ H) as Ht. apply tree_at_node in Ht as (_ & _ & Ht).
  apply tree_at_node in Ht as (_ & Hb & _).
  pose proof rotate_addrs as Hnd. do 3 apply NoDup_cons in Hnd as [_ Hnd].
  apply NoDup_app in Hnd as (_ & _ & (Hnd & _)%NoDup_app).
  eapply (reparented_tree _ _ y); [|done..|].
  { eapply tree_at_frame; [exact Hb|]. intros b Hb'. instantiate (1 := hset x _ s).
    rewrite hset_heap, decide_False; [reflexivity|set_solver]. }
  intros a Ha. unfold rotated. rewrite hset_heap, decide_False by set_solver.
  rewrite hset_heap, decide_False by set_solver. rewrite relinked_ne.
  - by rewrite hset_heap, decide_False by set_solver.
  - destruct up_apart as [?|Hup]; [by right|left]. intros ->. apply HCs in Hup. set_solver.
Qed.

Lemma rotated_ctx : ctx_at (rb_heap rotated) nil y C.
Proof.
  pose proof rotate_apart as ((? & ? & ?) & (? & ? & ?) & _ & HCs).
  eapply ctx_at_rechild; [by eapply rp_ctx| |].
  - intros f C' HC. destruct (HCs (fr_addr f)) as (?&?&?&?); [rewrite HC; by left|].
    unfold rotated. rewrite hset_heap, decide_False by done. rewrite hset_heap, decide_False by done.
    rewrite HC. apply relinked_top.
  - intros a Ha. destruct (HCs a) as (?&?&?&?); [destruct C; set_solver|].
    apply rotated_ne; [done|done|set_solver|].
    pose proof rotate_addrs as Hnd. destruct C as [|f C']; [by right|left]. simpl in *. intros ->.
    do 3 apply NoDup_cons in Hnd as [_ Hnd]. rewrite !app_assoc in Hnd.
    apply NoDup_app in Hnd as (_ & _ & [Hf _]%NoDup_cons). done.
Qed.

Lemma rotated_fields :
  rb_root rotated = Some (root_of nil (plug C (node d y cy (node d x cx ta kx ex tb) ky ey tc))) ∧
  rb_nil rotated = rb_nil s ∧ rb_fresh rotated = rb_fresh s.
Proof.
  pose proof (rp_root _ _ _ _ _ _ H) as Hr. rewrite root_plug, root_node in Hr.
  unfold rotated. rewrite root_plug, root_node.
  repeat match goal with
  | |- context [hset ?a ?n ?s'] => destruct (hset_fields a n s') as (-> & -> & ->)
  | |- context [relinked ?n ?C' ?b ?s'] => destruct (relinked_fields n C' b s') as (-> & -> & ->)
  | |- context [reparented ?n ?t ?b ?s'] => destruct (reparented_fields n t b s') as (-> & -> & ->)
  end.
  split; [|done]. destruct C as [|f C']; [done|]. rewrite Hr, last_cons. by destruct (last C').
Qed.

Lemma rotated_rep : rep rotated nil np X C (node d y cy (node d x cx ta kx ex tb) ky ey tc).
Proof.
  pose proof rotate_apart as ((? & ? & ?) & (? & ? & ?) & Hb & HCs).
  pose proof H as [Hr Hn _ Ht HC _ _ _ _].
  apply tree_at_node in Ht as (Hx & Ha & Ht). apply tree_at_node in Ht as (Hy & _ & Hc).
  assert (∀ a, a ∈ addrs ta ++ addrs tc → rb_heap rotated !! a = rb_heap s !! a) as Hac.
  { intros a Ha'. apply rotated_ne; [set_solver..|auto|].
    destruct up_apart as [?|Hup]; [by right|left]. intros ->. apply HCs in Hup. set_solver. }
  destruct rotated_fields as (? & ? & ?).
  eapply rep_rebuild; [exact H| |done|done|done| | |].
  - rewrite !addrs_node. solve_Permutation.
  - apply tree_at_node. rewrite root_node. split; [exact rotated_y|]. split.
    + apply tree_at_node. split; [exact rotated_x|]. split; [|exact rotated_b].
      eapply tree_at_frame; [done|]. set_solver.
    + eapply tree_at_frame; [exact Hc|]. intros a ?. apply Hac. set_solver.
  - rewrite root_node. exact rotated_ctx.
  - intros a Ha'. rewrite !addrs_node in Ha'. apply rotated_ne; [set_solver..|].
    destruct up_apart as [?|Hup]; [by right|left]. set_solver.
Qed.
End rotate.

Lemma wp_rotate d s nil np X C x y cx cy kx ky ex ey ta tb tc E i Q :
  rep s nil np X C (node d x cx ta kx ex (node d y cy tb ky ey tc)) →
  (∀ s', rep s' nil np X C (node d y cy (node d x cx ta kx ex tb) ky ey tc) → Q tt s' i) →
  wp (rotate d x) Q E s i.
Proof. intros H HQ. eapply wp_rotate_run; [exact H|]. apply HQ. by eapply rotated_rep. Qed.
