(* ===== verification/RbtreeInsert.v ===== *)
(** * Insertion into the red-black tree

    The red-black invariant of a tree and of a context, and the proof that
    [rbtree_insert_fixup] restores it within its fuel and keeps the sequence of
    the entries. *)

From S2P Require Import Prelude KvSpec KvsRbtree RbtreeShape RbtreeRotate.

Implicit Types (d : side) (C : context) (nil np z p g : addr) (X : rbheap) (t u : tree) (n : nat) (c : color).

(** ** The invariant *)

Definition tcolor (t : tree) : color := match t with Leaf => BLACK | Node _ c _ _ _ _ => c end.
Definition ctop (C : context) : color := match C with [] => BLACK | f :: _ => fr_color f end.

(** [rb c n t]: the root of [t] has colour [c], no red node has a red child, and
    every path to a leaf passes [n] black nodes. *)
Inductive rb : color → nat → tree → Prop :=
| rb_leaf : rb BLACK 0 Leaf
| rb_red n a l k x r : rb BLACK n l → rb BLACK n r → rb RED n (Node a RED l k x r)
| rb_black n c1 c2 a l k x r : rb c1 n l → rb c2 n r → rb BLACK (S n) (Node a BLACK l k x r).

(** A context that becomes a red-black tree with a black root when a black tree
    of black height [n] fills it. *)
Fixpoint ctx_rb (n : nat) (C : context) : Prop :=
  match C with
  | [] => True
  | f :: C' =>
      match fr_color f with
      | RED => rb BLACK n (fr_sib f) ∧ ctop C' = BLACK ∧ C' ≠ [] ∧ ctx_rb n C'
      | BLACK => (∃ c, rb c n (fr_sib f)) ∧ ctx_rb (S n) C'
      end
  end.

Lemma rb_color c n t : rb c n t → tcolor t = c.
Proof. by destruct 1. Qed.

Lemma rb_node_red d n a t1 k x t2 : rb BLACK n t1 → rb BLACK n t2 → rb RED n (node d a RED t1 k x t2).
Proof. destruct d; by constructor. Qed.

Lemma rb_node_black d n c1 c2 a t1 k x t2 :
  rb c1 n t1 → rb c2 n t2 → rb BLACK (S n) (node d a BLACK t1 k x t2).
Proof. destruct d; econstructor; eauto. Qed.

Lemma rb_red_inv d n t : rb RED n t →
  ∃ a t1 k x t2, t = node d a RED t1 k x t2 ∧ rb BLACK n t1 ∧ rb BLACK n t2.
Proof. inversion 1; subst. destruct d; [exists a, l, k, x, r|exists a, r, k, x, l]; done. Qed.

Lemma rb_black_inv d n t : rb BLACK (S n) t →
  ∃ a t1 k x t2 c1 c2, t = node d a BLACK t1 k x t2 ∧ rb c1 n t1 ∧ rb c2 n t2.
Proof.
  inversion 1; subst. destruct d; [exists a, l, k, x, r|exists a, r, k, x, l]; eauto.
Qed.

(** Filling a context. *)
Lemma plug_rb n c C t :
  rb c n t → ctx_rb n C → (c = RED → ctop C = BLACK ∧ C ≠ []) → ∃ m, rb BLACK m (plug C t).
Proof.
  revert n c t. induction C as [|f C IH]; intros n c t Ht HC Hc; simpl.
  { destruct c; [naive_solver|eauto]. }
  destruct f as [d a cf k x u]; simpl in *. unfold fill; simpl. destruct cf.
  - destruct HC as (Hu & Htop & Hne & HC). destruct c; [naive_solver|].
    eapply IH; [by apply rb_node_red|done|done].
  - destruct HC as ([c' Hu] & HC). eapply IH; [by eapply rb_node_black|done|done].
Qed.

(** A subtree and its context. *)
Lemma unplug_rb n C t :
  rb BLACK n (plug C t) → ∃ c m, rb c m t ∧ ctx_rb m C ∧ (c = RED → ctop C = BLACK ∧ C ≠ []).
Proof.
  revert t. induction C as [|f C IH]; intros t H; simpl in *; [by exists BLACK, n|].
  destruct (IH _ H) as (c & m & Hf & HC & Hc). destruct f as [d a cf k x u]. unfold fill in Hf. simpl in *.
  destruct c.
  - destruct (rb_red_inv d _ _ Hf) as (a' & t1 & k' & x' & t2 & Heq & H1 & H2).
    destruct (Hc eq_refl). exists BLACK, m. destruct d; simplify_eq/=; done.
  - destruct m as [|m]; [destruct d; inversion Hf|].
    destruct (rb_black_inv d _ _ Hf) as (a' & t1 & k' & x' & t2 & c1 & c2 & Heq & H1 & H2).
    exists c1, m. destruct d; simplify_eq/=; eauto 10.
Qed.

(** ** Reading and writing colours *)

Lemma wp_recolor d s nil np X C a c c' t1 k x t2 E i Q :
  rep s nil np X C (node d a c t1 k x t2) →
  (∀ s', rep s' nil np X C (node d a c' t1 k x t2) → Q tt s' i) →
  wp (set_color a c') Q E s i.
Proof.
  intros H HQ. eapply wp_set_color; [by eapply rep_focus|]. apply HQ. by eapply rep_recell.
Qed.

Lemma wp_recolor_up d s nil np X C a c c' t1 k x t2 E i Q :
  rep s nil np X (Frame d a c k x t2 :: C) t1 →
  (∀ s', rep s' nil np X (Frame d a c' k x t2 :: C) t1 → Q tt s' i) →
  wp (set_color a c') Q E s i.
Proof. setoid_rewrite <-rep_down. apply wp_recolor. Qed.

Lemma wp_root_color s nil np X C t E i Q :
  rep s nil np X C t → Q (tcolor t) s i → wp (f_color (root_of nil t)) Q E s i.
Proof.
  intros H HQ. destruct t as [|a c l k x r]; simpl.
  - unfold f_color, read_field, get_node, wp, mbind, M_bind, gets. by rewrite (rp_cell _ _ _ _ _ _ H).
  - eapply wp_color; [|exact HQ]. by eapply (rep_focus Lf).
Qed.

Lemma wp_up_color s nil np X C t E i Q :
  rep s nil np X C t → Q (ctop C) s i → wp (f_color (up nil C)) Q E s i.
Proof.
  intros H HQ. destruct C as [|f C]; simpl.
  - unfold f_color, read_field, get_node, wp, mbind, M_bind, gets. by rewrite (rp_cell _ _ _ _ _ _ H).
  - eapply wp_color; [|exact HQ]. by eapply rep_frame.
Qed.

(** The parent of the focus, also when it is the sentinel and [rbtree_delete] has
    set the sentinel's parent. *)
Lemma wp_root_parent s nil np X C t E i Q :
  rep s nil np X C t → (t = Leaf → np = up nil C) → Q (up nil C) s i →
  wp (f_parent (root_of nil t)) Q E s i.
Proof.
  intros H Hnp HQ. destruct t as [|a c l k x r]; simpl.
  - rewrite <-Hnp in HQ by done.
    unfold f_parent, read_field, get_node, wp, mbind, M_bind, gets. by rewrite (rp_cell _ _ _ _ _ _ H).
  - eapply wp_parent; [by eapply (rep_focus Lf)|exact HQ].
Qed.

Lemma rb_red_node n t : rb RED n t → t ≠ Leaf.
Proof. by inversion 1. Qed.

Lemma plug_node C t : C ≠ [] ∨ t ≠ Leaf → plug C t ≠ Leaf.
Proof.
  revert t. induction C as [|f C IH]; intros t Ht; simpl; [naive_solver|].
  apply IH. right. unfold fill. by destruct (fr_side f).
Qed.

(** ** The fix-up *)

(** The last lines of the loop body, for an outer grandchild [z]. *)
Definition fixup_outer (d : side) (z : addr) : M kvs_rbtree addr :=
  p ← f_parent z;
  set_color p BLACK;;
  g ← f_parent p;
  set_color g RED;;
  rotate (opp d) g;;
  mret z.

(** The body of the loop when the parent is the child of [g] on side [d]. *)
Definition insert_fixup_side (d : side) (z p g : addr) : M kvs_rbtree addr :=
  y ← f_child (opp d) g;
  yc ← f_color y;
  if decide (yc = RED) then
    set_color p BLACK;; set_color y BLACK;; set_color g RED;; mret g
  else
    pr ← f_child (opp d) p;
    z ← (if decide (z = pr) then rotate d p;; mret p else mret z);
    fixup_outer d z.

Lemma insert_fixup_step_side z :
  insert_fixup_step z =
    (p ← f_parent z;
     g ← f_parent p;
     gl ← f_left g;
     if decide (p = gl) then insert_fixup_side Lf z p g else insert_fixup_side Rt z p g).
Proof. reflexivity. Qed.

(** The uncle is red: the fault moves two levels up. *)
Lemma wp_fixup_uncle_red d d' s nil np X C z p g u tz tp kp ep kg eg n E i Q :
  rep s nil np X (Frame d' p RED kp ep tp :: Frame d g BLACK kg eg u :: C) tz →
  rb RED n tz → rb BLACK n tp → rb RED n u →
  (∀ s' t', rep s' nil np X C t' → root_of nil t' = g → rb RED (S n) t' →
     inorder t' = inorder (fill (Frame d g BLACK kg eg u) (fill (Frame d' p RED kp ep tp) tz)) → Q g s' i) →
  wp (insert_fixup_side d z p g) Q E s i.
Proof.
  intros H Hz Hp Hu HQ. unfold insert_fixup_side. wp_steps.
  eapply wp_far; [exact (rep_frame2 _ _ _ _ _ _ _ _ H)|]. cbn [fr_sib]. wp_steps.
  eapply (wp_root_color _ _ _ _ (Frame (opp d) g BLACK kg eg (node d' p RED tz kp ep tp) :: C)); [refocus H|].
  rewrite (rb_color _ _ _ Hu), decide_True by done. wp_steps.
  eapply wp_recolor_up; [exact H|]. intros s1 H1. cbv beta. wp_steps.
  destruct (rb_red_inv d _ _ Hu) as (y & u1 & ky & ey & u2 & -> & Hu1 & Hu2). rewrite root_node.
  eapply (wp_recolor d _ _ _ _ (Frame (opp d) g BLACK kg eg (node d' p BLACK tz kp ep tp) :: C)); [refocus H1|].
  intros s2 H2. cbv beta. wp_steps. eapply wp_recolor_up; [exact H2|]. intros s3 H3. wp_steps.
  eapply HQ; [rewrite rep_zip in H3; exact H3|apply root_node| |].
  - apply rb_node_red; eapply rb_node_black; eauto.
  - destruct d, d'; reflexivity.
Qed.

(** The uncle is black and [z] is the outer grandchild: one rotation ends it. *)
Lemma wp_fixup_outer d s nil np X C z tz tp p kp ep g kg eg u n E i Q :
  rep s nil np X (Frame d p RED kp ep tp :: Frame d g BLACK kg eg u :: C) tz →
  root_of nil tz = z → rb RED n tz → rb BLACK n tp → rb BLACK n u →
  (∀ s' t', rep s' nil np X (Frame d p BLACK kp ep t' :: C) tz → rb RED n t' →
     inorder (fill (Frame d p BLACK kp ep t') tz) =
     inorder (fill (Frame d g BLACK kg eg u) (fill (Frame d p RED kp ep tp) tz)) → Q z s' i) →
  wp (fixup_outer d z) Q E s i.
Proof.
  intros H Hroot Hz Hp Hu HQ. destruct (rb_red_inv d _ _ Hz) as (z' & z1 & kz & ez & z2 & -> & Hz1 & Hz2).
  rewrite root_node in Hroot. subst z'. unfold fixup_outer. wp_steps.
  eapply wp_parent; [by eapply rep_focus|]. cbn [up fr_addr]. wp_steps.
  eapply wp_recolor_up; [exact H|]. intros s1 H1. wp_steps.
  eapply wp_parent; [by eapply (rep_frame _ _ _ _ (Frame d p BLACK kp ep tp))|]. cbn [up fr_addr]. wp_steps.
  rewrite rep_zip in H1. eapply wp_recolor_up; [exact H1|]. intros s2 H2. wp_steps.
  eapply (wp_rotate (opp d) _ _ _ _ _ _ p _ BLACK _ _ _ ep u tp (node d z RED z1 kz ez z2)); [refocus H2|].
  intros s3 H3. wp_steps.
  eapply (HQ _ (node (opp d) g RED u kg eg tp)); [refocus H3|by apply rb_node_red|].
  destruct d; same_entries.
Qed.

Lemma rep_sibling_root s nil np X f C t :
  rep s nil np X (f :: C) t → t ≠ Leaf → root_of nil t ≠ root_of nil (fr_sib f).
Proof.
  intros H Ht. destruct (rep_relinkable _ _ _ _ _ _ s H Ht ltac:(done) f C eq_refl) as (_ & _ & ?). congruence.
Qed.

Lemma wp_fixup_uncle_black d d' s nil np X C z tz tp p kp ep g kg eg u n E i Q :
  rep s nil np X (Frame d' p RED kp ep tp :: Frame d g BLACK kg eg u :: C) tz →
  root_of nil tz = z → rb RED n tz → rb BLACK n tp → rb BLACK n u →
  (∀ z' s' C' t', rep s' nil np X C' t' → root_of nil t' = z' → rb RED n t' → ctop C' = BLACK →
     (ctx_rb (S n) C → ctx_rb n C') → (length C' = S (length C)) →
     inorder (plug C' t') =
     inorder (plug C (fill (Frame d g BLACK kg eg u) (fill (Frame d' p RED kp ep tp) tz))) → Q z' s' i) →
  wp (insert_fixup_side d z p g) Q E s i.
Proof.
  intros H Hroot Hz Hp Hu HQ. unfold insert_fixup_side. wp_steps.
  eapply wp_far; [exact (rep_frame2 _ _ _ _ _ _ _ _ H)|]. cbn [fr_sib]. wp_steps.
  eapply (wp_root_color _ _ _ _ (Frame (opp d) g BLACK kg eg (node d' p RED tz kp ep tp) :: C)); [refocus H|].
  rewrite (rb_color _ _ _ Hu), decide_False by done. wp_steps.
  assert (tz ≠ Leaf) as Hne by (by inversion Hz).
  destruct (decide (d' = d)) as [->|Hd].
  - eapply wp_far; [exact (rep_frame _ _ _ _ _ _ _ H)|]. cbn [fr_sib].
    rewrite decide_False by (subst z; exact (rep_sibling_root _ _ _ _ _ _ _ H Hne)). wp_steps.
    eapply wp_fixup_outer; [exact H|done..|]. intros s' t' H' Ht' Hin.
    eapply HQ; [exact H'|done|done|done| |done|].
    + intros HC. simpl. eauto.
    + simpl. by rewrite !inorder_plug, Hin.
  - assert (d' = opp d) as -> by (by destruct d, d').
    eapply wp_near; [exact (rep_frame _ _ _ _ _ _ _ H)|]. rewrite decide_True by done. wp_steps.
    destruct (rb_red_inv d _ _ Hz) as (z' & z1 & kz & ez & z2 & -> & Hz1 & Hz2).
    rewrite root_node in Hroot. subst z'.
    eapply (wp_rotate d _ _ _ _ (Frame d g BLACK kg eg u :: C)); [refocus H|]. intros s1 H1. wp_steps.
    eapply (wp_fixup_outer d _ _ _ _ C _ (node d p RED tp kp ep z1) z2 z kz ez g kg eg u n);
      [refocus H1|apply root_node|by apply rb_node_red|done|done|].
    intros s' t' H' Ht' Hin.
    eapply HQ; [exact H'|apply root_node|by apply rb_node_red|done| |done|].
    + intros HC. simpl. eauto.
    + simpl. rewrite !inorder_plug, Hin. destruct d; same_entries.
Qed.

(** One iteration of the loop, when the parent is red. *)
Lemma wp_insert_fixup_step s nil np X C tz n E i Q :
  rep s nil np X C tz → rb RED n tz → ctx_rb n C → ctop C = RED →
  (∀ s' C' t' m, rep s' nil np X C' t' → rb RED m t' → ctx_rb m C' →
     (length C' < length C)%nat → inorder (plug C' t') = inorder (plug C tz) → Q (root_of nil t') s' i) →
  wp (insert_fixup_step (root_of nil tz)) Q E s i.
Proof.
  intros H Hz HC Htop HQ. destruct C as [|[d' p cp kp ep tp] C]; [done|]. simpl in Htop. subst cp.
  destruct HC as (Hp & Htop & Hne & HC). destruct C as [|[d g cg kg eg u] C]; [done|]. simpl in Htop. subst cg.
  destruct HC as [[cu Hu] HC]. simpl in Hp, Hu.
  rewrite insert_fixup_step_side. wp_steps.
  eapply wp_root_parent; [exact H|by intros ->; inversion Hz|].
  cbn [up fr_addr]. wp_steps. eapply wp_parent; [by eapply (rep_frame _ _ _ _ (Frame d' p RED kp ep tp))|].
  cbn [up fr_addr]. wp_steps.
  assert (∀ Q' : addr → kvs_rbtree → nat → Prop,
    wp (insert_fixup_side d (root_of nil tz) p g) Q' E s i →
    wp (f_left g) (λ gl s' i', wp (if decide (p = gl) then insert_fixup_side Lf (root_of nil tz) p g
                       else insert_fixup_side Rt (root_of nil tz) p g) Q' E s' i') E s i) as Hside.
  { intros Q' HQ'. pose proof (rep_frame2 _ _ _ _ _ _ _ _ H) as Hg. destruct d.
    - eapply (wp_near _ _ _ Lf); [exact Hg|]. by rewrite decide_True.
    - eapply (wp_far _ _ _ Rt); [exact Hg|]. rewrite decide_False; [done|].
      rewrite rep_zip in H. pose proof (rep_sibling_root _ _ _ _ _ _ _ H ltac:(by destruct d')) as Hs.
      unfold fill in Hs. by rewrite root_node in Hs. }
  apply Hside. destruct cu.
  - eapply wp_fixup_uncle_red; [exact H|done..|]. intros s' t' H' Hroot Ht' Hin. subst g.
    eapply (HQ _ C t'); [done|done|done|simpl; lia|]. simpl. by rewrite !inorder_plug, Hin.
  - eapply wp_fixup_uncle_black; [exact H|done..|]. intros z' s' C' t' H' <- Ht' Htop' HC' Hlen Hin.
    eapply (HQ _ C' t' n); [done|done|by apply HC'|simpl; lia|done].
Qed.

Lemma wp_insert_fixup_loop fuel s nil np X C tz n E i Q :
  rep s nil np X C tz → rb RED n tz → ctx_rb n C → (length C ≤ fuel)%nat →
  (∀ s' t' c m, rep s' nil np X [] t' → rb c m t' → t' ≠ Leaf →
     inorder t' = inorder (plug C tz) → Q tt s' i) →
  wp (insert_fixup_loop fuel (root_of nil tz)) Q E s i.
Proof.
  revert s C tz n. induction fuel as [|fuel IH]; intros s C tz n H Hz HC Hf HQ; simpl; wp_steps;
    (eapply wp_root_parent; [exact H|by intros ->; inversion Hz|]);
    cbv beta; wp_steps; (eapply wp_up_color; [exact H|]); cbv beta.
  - destruct C; [|simpl in *; lia]. simpl. wp_steps. eapply HQ; eauto using rb_red_node.
  - destruct (decide (ctop C = RED)) as [Htop|Htop]; wp_steps.
    + eapply wp_insert_fixup_step; [done..|]. intros s' C' t' m H' Ht' HC' Hlen Hin.
      eapply IH; [done..|lia|]. by rewrite Hin.
    + destruct C as [|f C]; [eapply HQ; eauto using rb_red_node|].
      destruct (plug_rb n RED (f :: C) tz) as [m Hm]; [done|done| |].
      { split; [by destruct (ctop (f :: C))|done]. }
      eapply HQ; [|exact Hm|by apply plug_node; left|done].
      rewrite <-(app_nil_r (f :: C)), rep_plug in H. exact H.
Qed.

(** The length of a path is bounded by the size of the heap. *)
Lemma rep_size s nil np X C t :
  rep s nil np X C t → (length (addrs t) + length (caddrs C) < size (rb_heap s))%nat.
Proof.
  intros H. pose proof (rp_nodup _ _ _ _ _ _ H) as Hnd.
  assert (list_to_set (nil :: addrs t ++ caddrs C) ⊆ dom (rb_heap s)) as Hsub.
  { intros a. rewrite elem_of_list_to_set, elem_of_dom. apply (rep_live _ _ _ _ _ _ _ H). }
  apply subseteq_size in Hsub. rewrite size_list_to_set, size_dom in Hsub by done.
  simpl in Hsub. rewrite length_app in Hsub. lia.
Qed.

Lemma caddrs_length C : (length C ≤ length (caddrs C))%nat.
Proof. induction C as [|f C IH]; simpl; [done|]. rewrite length_app. lia. Qed.

Lemma wp_insert_fixup s nil np X C tz n E i Q :
  rep s nil np X C tz → rb RED n tz → ctx_rb n C →
  (∀ s' t' m, rep s' nil np X [] t' → rb BLACK m t' →
     inorder t' = inorder (plug C tz) → Q tt s' i) →
  wp (rbtree_insert_fixup (root_of nil tz)) Q E s i.
Proof.
  intros H Hz HC HQ. unfold rbtree_insert_fixup, walk_fuel. wp_steps.
  eapply wp_insert_fixup_loop; [done..| |].
  { pose proof (rep_size _ _ _ _ _ _ H). pose proof (caddrs_length C). lia. }
  intros s1 t1 c m H1 Ht1 Hne Hin. cbv beta. wp_steps.
  eapply wp_get_root; [by eapply rp_root|]. simpl.
  destruct t1 as [|a c1 l k x r]; [done|]. eapply (wp_recolor Lf); [exact H1|]. intros s2 H2.
  assert (∃ m', rb BLACK m' (Node a BLACK l k x r)) as [m' Hm'] by (inversion Ht1; subst; eauto using rb).
  by eapply HQ; [exact H2|exact Hm'|rewrite <-Hin].
Qed.
