(* ===== verification/RbtreeSearch.v ===== *)
(** * Searching and linking a new node in the red-black tree *)

From stdpp Require Import sorting.
From S2P Require Import Prelude KvSpec KvsRbtree RbtreeShape RbtreeRotate RbtreeInsert.

Implicit Types (d : side) (C : context) (nil np z p g : addr) (X : rbheap) (t u T : tree) (k : bytes) (x : entry).

(** ** The order of the keys *)

Definition sorted (T : tree) : Prop := StronglySorted str_lt (inorder T).*1.

(** The hole of [C] is where key [k] belongs. *)
Definition path_to (k : bytes) (C : context) : Prop :=
  Forall (λ y, str_lt y.1 k) (before C) ∧ Forall (λ y, str_lt k y.1) (beyond C).

(** What [search_loop] stops at: a leaf, or the node of the key. *)
Definition stop_at (k : bytes) (t : tree) : Prop := t = Leaf ∨ ∃ a c l x r, t = Node a c l k x r.

Lemma path_root k : path_to k [].
Proof. split; constructor. Qed.

Lemma path_left k C a c l k' x r :
  sorted (plug C (Node a c l k' x r)) → path_to k C → str_lt k k' → path_to k (Frame Lf a c k' x r :: C).
Proof.
  intros Hs [Hb Ha] Hlt. split; [done|]. simpl. constructor; [done|]. apply Forall_app. split; [|done].
  unfold sorted in Hs. rewrite inorder_plug in Hs. simpl in Hs. rewrite !fmap_app, fmap_cons in Hs.
  apply StronglySorted_app in Hs as (_ & _ & Hs). apply StronglySorted_app_1_l in Hs.
  apply StronglySorted_app_1_r, StronglySorted_inv in Hs as [_ Hs].
  rewrite Forall_fmap in Hs. eapply Forall_impl; [exact Hs|]. intros y Hy. by transitivity k'.
Qed.

Lemma path_right k C a c l k' x r :
  sorted (plug C (Node a c l k' x r)) → path_to k C → str_lt k' k → path_to k (Frame Rt a c k' x l :: C).
Proof.
  intros Hs [Hb Ha] Hlt. split; [|done]. simpl. rewrite !Forall_app. split; [done|].
  split; [|by repeat constructor].
  unfold sorted in Hs. rewrite inorder_plug in Hs. simpl in Hs. rewrite !fmap_app, fmap_cons in Hs.
  apply StronglySorted_app in Hs as (_ & _ & Hs). apply StronglySorted_app_1_l in Hs.
  apply StronglySorted_app in Hs as (Hs & _ & _).
  apply Forall_forall. intros y Hy. transitivity k'; [|done]. apply Hs; [by apply list_elem_of_fmap_2|by left].
Qed.

(** ** The two descents *)

Lemma strcmp_cases k k' :
  str_lt k k' ∧ (strcmp k k' <? 0) = true ∨
  str_lt k' k ∧ (strcmp k k' <? 0) = false ∧ (strcmp k k' >? 0) = true ∨
  k = k' ∧ (strcmp k k' <? 0) = false ∧ (strcmp k k' >? 0) = false.
Proof.
  unfold str_lt. rewrite (strcmp_antisym k k'), Z.gtb_ltb. destruct (Z.lt_trichotomy (strcmp k k') 0) as [H|[H|H]].
  - left. lia.
  - right; right. split; [by apply strcmp_eq|lia].
  - right; left. lia.
Qed.

Fixpoint height (t : tree) : nat :=
  match t with Leaf => 0 | Node _ _ l _ _ r => S (max (height l) (height r)) end.

Lemma height_addrs t : (height t ≤ length (addrs t))%nat.
Proof. induction t as [|a c l IHl k x r IHr]; simpl; [done|]. rewrite length_app. lia. Qed.

Section descent.
Context (E : env) (s : kvs_rbtree) (nil np : addr) (X : rbheap) (k : bytes).

Lemma rep_not_nil C a c l k' x r : rep s nil np X C (Node a c l k' x r) → a ≠ nil.
Proof. intros H. pose proof (rp_nodup _ _ _ _ _ _ H) as Hnd. apply NoDup_cons in Hnd as [Hnd _]. set_solver. Qed.

Lemma wp_search_loop fuel C t i Q :
  rep s nil np X C t → sorted (plug C t) → path_to k C → (height t ≤ fuel)%nat →
  (∀ C' t', rep s nil np X C' t' → plug C' t' = plug C t → path_to k C' → stop_at k t' →
     Q (root_of nil t') s i) →
  wp (search_loop fuel nil k (root_of nil t)) Q E s i.
Proof.
  revert C t. induction fuel as [|fuel IH]; intros C t H Hs Hp Hf HQ.
  { destruct t; [|simpl in Hf; lia]. simpl. rewrite decide_True by done. wp_steps. eapply (HQ C Leaf); [done..|by left]. }
  destruct t as [|a c l k' x r]; simpl.
  { rewrite decide_True by done. wp_steps. eapply (HQ C Leaf); [done..|by left]. }
  rewrite decide_False by (by eapply rep_not_nil). wp_steps.
  pose proof (rep_focus Lf _ _ _ _ _ _ _ _ _ _ _ H) as Ha. simpl in Hf.
  eapply wp_key; [exact Ha|]. cbv beta. wp_steps.
  destruct (strcmp_cases k k') as [(Hlt & ->)|[(Hlt & -> & ->)|(-> & -> & ->)]]; wp_steps.
  - eapply (wp_near _ _ _ Lf); [exact Ha|]. eapply (IH (Frame Lf a c k' x r :: C)); [by apply (rep_down Lf)|done|by apply path_left with l|lia|done].
  - eapply (wp_far _ _ _ Lf); [exact Ha|]. eapply (IH (Frame Rt a c k' x l :: C)); [by apply (rep_across Lf)|done|by apply path_right with r|lia|done].
  - eapply (HQ C (Node a c l k' x r)); [done..|right; by eauto 10].
Qed.

Lemma wp_insert_descend fuel C t i Q :
  rep s nil np X C t → sorted (plug C t) → path_to k C → (length (addrs t) ≤ fuel)%nat →
  (∀ C' t', rep s nil np X C' t' → plug C' t' = plug C t → path_to k C' → stop_at k t' →
     Q (match t' with Leaf => Some (up nil C') | _ => None end) s i) →
  wp (insert_descend fuel nil k (up nil C) (root_of nil t)) Q E s i.
Proof.
  revert C t. induction fuel as [|fuel IH]; intros C t H Hs Hp Hf HQ.
  { destruct t; [|simpl in Hf; lia]. simpl. rewrite decide_True by done. wp_steps. eapply (HQ C Leaf); [done..|by left]. }
  destruct t as [|a c l k' x r]; simpl.
  { rewrite decide_True by done. wp_steps. eapply (HQ C Leaf); [done..|by left]. }
  rewrite decide_False by (by eapply rep_not_nil). wp_steps.
  pose proof (rep_focus Lf _ _ _ _ _ _ _ _ _ _ _ H) as Ha. simpl in Hf. rewrite length_app in Hf.
  eapply wp_key; [exact Ha|]. cbv beta. wp_steps.
  destruct (strcmp_cases k k') as [(Hlt & ->)|[(Hlt & -> & ->)|(-> & -> & ->)]]; wp_steps.
  - eapply (wp_near _ _ _ Lf); [exact Ha|]. eapply (IH (Frame Lf a c k' x r :: C)); [by apply (rep_down Lf)|done|by apply path_left with l|lia|done].
  - eapply (wp_far _ _ _ Lf); [exact Ha|]. eapply (IH (Frame Rt a c k' x l :: C)); [by apply (rep_across Lf)|done|by apply path_right with r|lia|done].
  - eapply (HQ C (Node a c l k' x r)); [done..|right; by eauto 10].
Qed.

Lemma wp_rbtree_search T i Q :
  rep s nil np X [] T → sorted T →
  (∀ C' t', rep s nil np X C' t' → plug C' t' = T → path_to k C' → stop_at k t' →
     Q (root_of nil t') s i) →
  wp (rbtree_search k) Q E s i.
Proof.
  intros H Hs HQ. unfold rbtree_search, walk_fuel. wp_steps. eapply wp_get_nil; [by eapply rp_nil|].
  cbv beta. wp_steps. eapply wp_get_root; [by eapply rp_root|]. cbv beta. wp_steps.
  eapply (wp_search_loop _ []); [done|done|apply path_root| |done].
  pose proof (rep_size _ _ _ _ _ _ H). pose proof (height_addrs T). simpl. lia.
Qed.
End descent.

(** ** Linking *)

Lemma wp_upd_node a n f E s i (Q : unit → kvs_rbtree → nat → Prop) :
  rb_heap s !! a = Some n → Q tt (hset a (f n) s) i → wp (upd_node a f) Q E s i.
Proof.
  intros Ha HQ. unfold upd_node, get_node, wp, mbind, M_bind, gets, modify. rewrite Ha. exact HQ.
Qed.

(** The new node hangs at the hole. *)
Lemma rep_grow s s' nil np X C z k x :
  rep s nil np X C Leaf → z ∉ nil :: caddrs C → is_Some (rb_heap s !! z) →
  rb_heap s' !! z = Some (cell Lf RED nil nil (up nil C) k x) →
  (∀ f C', C = f :: C' → rb_heap s' !! fr_addr f = Some (relink z f nil C')) →
  rb_root s' = (if C is [] then Some z else rb_root s) → rb_nil s' = rb_nil s → rb_fresh s' = rb_fresh s →
  (∀ a, a ≠ z → a ≠ up nil C ∨ C = [] → rb_heap s' !! a = rb_heap s !! a) →
  rep s' nil np (delete z X) C (Node z RED Leaf k x Leaf).
Proof.
  intros H Hz Hlive Hcell Htop Hroot Hnil Hfresh Heq. pose proof H as [Hr Hn Hc _ HC Hnd HX HO Hf].
  simpl in Hnd, HX, HO. apply NoDup_cons in Hnd as [Hnn Hnd].
  assert (∀ a, a ∉ caddrs C → a ≠ z → rb_heap s' !! a = rb_heap s !! a) as Hout.
  { intros a Ha Hne. apply Heq; [done|]. destruct C as [|f C']; [by right|left]. simpl in *. set_solver. }
  split; simpl.
  - rewrite Hroot. destruct C as [|f C']; [done|]. rewrite Hr, !root_plug, last_cons. by destruct (last C').
  - congruence.
  - rewrite Hout; [done|done|set_solver].
  - done.
  - eapply ctx_at_rechild; [exact HC|exact Htop|]. intros a Ha. apply Heq.
    + destruct C; set_solver.
    + destruct C as [|f C']; [by right|left]. simpl in *. apply NoDup_cons in Hnd as [Hnd _]. by intros ->.
  - rewrite !NoDup_cons. set_solver.
  - intros a Ha. rewrite Hout, lookup_delete_ne by set_solver. apply HX. set_solver.
  - intros a Ha. apply lookup_delete_None. destruct (decide (z = a)); [by left|right]. apply HO. set_solver.
  - intros a Ha. rewrite Hfresh in Ha. destruct (decide (a ∈ z :: caddrs C)) as [Hin|Hin].
    + exfalso. apply elem_of_cons in Hin as [->|Hin].
      * destruct Hlive as [n Hn']. rewrite Hf in Hn'; done.
      * destruct (rep_live _ _ _ _ _ _ a H) as [n Hn']; [set_solver|]. rewrite Hf in Hn'; done.
    + rewrite Hout by set_solver. auto.
Qed.

(** The cell [kvs_rbtree_set] prepares. *)
Definition new_cell (k : bytes) (x : entry) : rbtree_node :=
  RBNode None None None None (Some (PStr k)) (Some x.1) (Some x.2).

Lemma wp_link s nil np X C z k x E i Q :
  rep s nil np X C Leaf → path_to k C → z ∉ nil :: caddrs C → rb_heap s !! z = Some (new_cell k x) →
  (∀ s', rep s' nil np (delete z X) C (Node z RED Leaf k x Leaf) →
     wp (rbtree_insert_fixup z) Q E s' i) →
  wp (set_parent z (up nil C);;
      (if decide (up nil C = nil) then set_root z else
       ykp ← f_key (up nil C); yk ← read_str ykp;
       if strcmp k yk <? 0 then set_left (up nil C) z else set_right (up nil C) z);;
      set_left z nil;;
      set_right z nil;;
      set_color z RED;;
      rbtree_insert_fixup z) Q E s i.
Proof.
  intros H Hp Hz Hcell HQ. wp_steps. eapply wp_upd_node; [exact Hcell|]. cbv beta. wp_steps.
  set (s1 := hset z _ s).
  assert (∀ Q' : unit → kvs_rbtree → nat → Prop, Q' tt (relinked nil C z s1) i →
    wp (if decide (up nil C = nil) then set_root z else
       ykp ← f_key (up nil C); yk ← read_str ykp;
       if strcmp k yk <? 0 then set_left (up nil C) z else set_right (up nil C) z) Q' E s1 i) as Hlink.
  { intros Q' HQ'. destruct C as [|f C']; simpl; [by rewrite decide_True|].
    pose proof (rp_nodup _ _ _ _ _ _ H) as Hnd. simpl in Hnd, Hz.
    apply NoDup_cons in Hnd as [Hnd _]. rewrite decide_False by set_solver. wp_steps.
    assert (rb_heap s1 !! fr_addr f = Some (cell (fr_side f) (fr_color f) nil (root_of nil (fr_sib f)) (up nil C') (fr_key f) (fr_entry f))) as Hf.
    { unfold s1. rewrite hset_heap, decide_False by set_solver. exact (rep_frame _ _ _ _ _ _ _ H). }
    eapply wp_key; [exact Hf|]. cbv beta. wp_steps. destruct f as [d a c k' x' u]. simpl in *. destruct Hp as [Hb Ha].
    destruct d; simpl in *.
    - apply Forall_cons in Ha as [Ha _]. unfold str_lt in Ha. simpl in Ha.
      rewrite (proj2 (Z.ltb_lt _ _) Ha). eapply (wp_set_near _ _ _ Lf); [exact Hf|exact HQ'].
    - rewrite !Forall_app, Forall_singleton in Hb. destruct Hb as (_ & _ & Hb). unfold str_lt in Hb. simpl in Hb.
      replace (strcmp k k' <? 0) with false by (rewrite (strcmp_antisym k k') in Hb; lia).
      eapply (wp_set_near _ _ _ Rt); [exact Hf|exact HQ']. }
  apply Hlink. wp_steps. 
  assert (rb_heap (relinked nil C z s1) !! z = rb_heap s1 !! z) as Hz1.
  { apply relinked_ne. destruct C; [by right|left]. simpl. set_solver. }
  unfold s1 in Hz1. rewrite hset_heap, decide_True in Hz1 by done. fold s1 in Hz1.
  eapply wp_upd_node; [exact Hz1|]. wp_steps.
  eapply wp_upd_node; [rewrite hset_heap, decide_True; done|]. wp_steps.
  eapply wp_upd_node; [rewrite hset_heap, decide_True; done|]. wp_steps.
  apply HQ. eapply rep_grow; [exact H|done|by eexists|by rewrite hset_heap, decide_True| | | | |].
  - intros f C' ->. do 3 (rewrite hset_heap, decide_False by set_solver). apply relinked_top.
  - repeat rewrite (proj1 (hset_fields _ _ _)). destruct (relinked_fields nil C z s1) as (-> & _).
    unfold s1. by rewrite (proj1 (hset_fields _ _ _)).
  - repeat rewrite (proj1 (proj2 (hset_fields _ _ _))). destruct (relinked_fields nil C z s1) as (_ & -> & _).
    unfold s1. by rewrite (proj1 (proj2 (hset_fields _ _ _))).
  - repeat rewrite (proj2 (proj2 (hset_fields _ _ _))). destruct (relinked_fields nil C z s1) as (_ & _ & ->).
    unfold s1. by rewrite (proj2 (proj2 (hset_fields _ _ _))).
  - intros a Ha Hup. do 3 (rewrite hset_heap, decide_False by done). rewrite relinked_ne by done.
    unfold s1. by rewrite hset_heap, decide_False.
Qed.

(** ** Insertion *)

Lemma path_split k C t :
  path_to k C → inorder t = [] →
  sorted (plug C t) → ∀ x a c, sorted (plug C (Node a c Leaf k x Leaf)).
Proof.
  unfold sorted. intros [Hb Ha] Ht Hs x a c. rewrite inorder_plug in *. rewrite Ht in Hs. simpl in *.
  rewrite fmap_app in *. simpl. apply StronglySorted_app in Hs as (H1 & H2 & H3).
  apply StronglySorted_app. split_and!; [|done|].
  - intros y1 y2 Hy1 [->|Hy2]%elem_of_cons; [|by apply H1].
    apply list_elem_of_fmap in Hy1 as (y & -> & Hy). by eapply (proj1 (Forall_forall _ _) Hb).
  - constructor; [done|]. by apply Forall_fmap.
Qed.

(** A new key goes to its place between the smaller and the larger ones. *)
Lemma wp_rbtree_insert s nil np X T n z k x E i Q :
  rep s nil np X [] T → rb BLACK n T → sorted T → k ∉ (inorder T).*1 →
  z ∉ nil :: addrs T → rb_heap s !! z = Some (new_cell k x) →
  (∀ s' T' m Lo Hi, rep s' nil np (delete z X) [] T' → rb BLACK m T' → sorted T' →
     inorder T = Lo ++ Hi → inorder T' = Lo ++ (k, x) :: Hi → Q tt s' i) →
  wp (rbtree_insert z) Q E s i.
Proof.
  intros H Hrb Hs Hk Hz Hcell HQ. unfold rbtree_insert, walk_fuel. wp_steps.
  eapply wp_get_nil; [by eapply rp_nil|]. cbv beta. wp_steps.
  eapply wp_get_root; [by eapply rp_root|]. cbv beta. wp_steps.
  unfold f_key at 1, read_field, get_node. wp_steps. rewrite Hcell. wp_steps. cbn [new_cell rn_key]. wp_steps.
  eapply (wp_insert_descend _ _ _ _ _ _ _ []); [exact H|done|apply path_root| |].
  { pose proof (rep_size _ _ _ _ _ _ H). simpl. lia. }
  intros C t H1 Heq Hp Hstop. simpl in Heq. destruct Hstop as [->|(a & c & l & x' & r & ->)].
  2: { exfalso. apply Hk. rewrite <-Heq, inorder_plug. simpl. rewrite !fmap_app. set_solver. }
  eapply wp_link; [exact H1|done| |exact Hcell|].
  { pose proof (addrs_plug C Leaf) as Hperm. rewrite Heq in Hperm. by rewrite <-Hperm. }
  intros s2 H2. destruct (unplug_rb n C Leaf) as (c & m & Hl & HC & _); [by rewrite Heq|].
  inversion Hl; subst. eapply (wp_insert_fixup _ _ _ _ C (Node z RED Leaf k x Leaf) 0); [exact H2|by repeat constructor|done|].
  intros s3 T3 m H3 Hrb3 Hin. rewrite !inorder_plug in *. simpl in *.
  eapply HQ; [exact H3|exact Hrb3| |done|exact Hin].
  unfold sorted. rewrite Hin. pose proof (path_split k C Leaf Hp eq_refl Hs x z RED) as Hs'.
  unfold sorted in Hs'. by rewrite inorder_plug in Hs'.
Qed.
