(* ===== verification/RbtreeDelete.v ===== *)
(** * Deletion from the red-black tree

    [rbtree_delete_fixup] restores the red-black invariant within its fuel and
    keeps the sequence of the entries; [rbtree_delete] takes one node out. *)

From stdpp Require Import sorting.
From S2P Require Import Prelude KvSpec KvsRbtree RbtreeShape RbtreeRotate RbtreeInsert RbtreeSearch.

Implicit Types (d : side) (C : context) (nil np z p g : addr) (X : rbheap) (t u T W : tree) (k : bytes)
  (n : nat) (c : color).

(** ** The loop body, for one side *)

Definition delete_sibling (d : side) (x w : addr) (wc : color) : M kvs_rbtree addr :=
  if decide (wc = RED) then
    set_color w BLACK;;
    p ← f_parent x; set_color p RED;;
    p ← f_parent x; rotate d p;;
    p ← f_parent x; f_child (opp d) p
  else mret w.

Definition delete_finish (d : side) (x w : addr) : M kvs_rbtree addr :=
  p ← f_parent x;
  pc ← f_color p;
  set_color w pc;;
  set_color p BLACK;;
  wr ← f_child (opp d) w; set_color wr BLACK;;
  p ← f_parent x; rotate d p;;
  get_root.

Definition delete_rotations (d : side) (x w : addr) : M kvs_rbtree addr :=
  wr ← f_child (opp d) w; wrc ← f_color wr;
  w ← (if decide (wrc = BLACK) then
         wl ← f_child d w; set_color wl BLACK;;
         set_color w RED;;
         rotate (opp d) w;;
         p ← f_parent x; f_child (opp d) p
       else mret w);
  delete_finish d x w.

Definition delete_fixup_side (d : side) (x xp : addr) : M kvs_rbtree addr :=
  w ← f_child (opp d) xp;
  wc ← f_color w;
  w ← delete_sibling d x w wc;
  both ← children_black w;
  if both : bool then set_color w RED;; f_parent x else delete_rotations d x w.

Lemma delete_fixup_step_side x :
  delete_fixup_step x =
    (xp ← f_parent x;
     xpl ← f_left xp;
     if decide (x = xpl) then delete_fixup_side Lf x xp else delete_fixup_side Rt x xp).
Proof. reflexivity. Qed.

(** ** The cases *)

Section cases.
Context (E : env) (nil np : addr) (X : rbheap) (d : side) (t : tree) (n i : nat).
Context (p : addr) (kp : bytes) (ep : entry).
Hypothesis Hnp : t = Leaf → np = p.
Hypothesis Ht : rb BLACK n t.

(** The focus is the child of [p] on side [d], with sibling [W]. *)
Abbreviation above cp W C := (Frame d p cp kp ep W :: C).

Lemma wp_x_parent s cp W C Q : rep s nil np X (above cp W C) t → Q p s i → wp (f_parent (root_of nil t)) Q E s i.
Proof. intros H HQ. by eapply wp_root_parent. Qed.

(** After the first case the sibling is black. *)
Lemma wp_delete_sibling s cp W C Q :
  rep s nil np X (above cp W C) t → ctx_rb (S n) (above cp W C) →
  (∀ s' cp' W' C', rep s' nil np X (above cp' W' C') t → ctx_rb (S n) (above cp' W' C') →
     rb BLACK (S n) W' →
     (length C' ≤ length C ∨ cp' = RED ∧ length C' ≤ S (length C))%nat →
     inorder (plug (above cp' W' C') t) = inorder (plug (above cp W C) t) → Q (root_of nil W') s' i) →
  wp (delete_sibling d (root_of nil t) (root_of nil W) (tcolor W)) Q E s i.
Proof.
  intros H HC HQ. unfold delete_sibling.
  assert (∃ cw, rb cw (S n) W) as [cw HW] by (simpl in HC; destruct cp; naive_solver).
  rewrite (rb_color _ _ _ HW). destruct cw; [rewrite decide_True by done|rewrite decide_False by done; wp_steps].
  2: { eapply HQ; [exact H|done|done|left; lia|done]. }
  simpl in HC. destruct cp; [destruct HC as [HC _]; apply rb_color in HC; apply rb_color in HW; congruence|].
  destruct HC as [_ HC].
  destruct (rb_red_inv d _ _ HW) as (w & wn & kw & ew & wf & -> & Hwn & Hwf). rewrite root_node. wp_steps.
  eapply (wp_recolor d _ _ _ _ (Frame (opp d) p BLACK kp ep t :: C)); [refocus H|]. intros s1 H1. wp_steps.
  assert (rep s1 nil np X (above BLACK (node d w BLACK wn kw ew wf) C) t) as H1' by (refocus H1).
  eapply wp_x_parent; [exact H1'|]. wp_steps. eapply wp_recolor_up; [exact H1'|]. intros s2 H2. wp_steps.
  eapply wp_x_parent; [exact H2|]. wp_steps.
  eapply (wp_rotate d _ _ _ _ C p w _ _ _ _ _ _ t wn wf); [refocus H2|]. intros s3 H3. wp_steps.
  assert (rep s3 nil np X (above RED wn (Frame d w BLACK kw ew wf :: C)) t) as H3' by (refocus H3).
  eapply wp_x_parent; [exact H3'|].
  eapply wp_far; [exact (rep_frame _ _ _ _ _ _ _ H3')|]. cbn [fr_sib].
  eapply HQ; [exact H3'| |done|right; simpl; split; [done|lia]|].
  - simpl. split_and!; eauto.
  - simpl. rewrite !inorder_plug. destruct d; same_entries.
Qed.

(** The sibling [w] with its children on the near and the far side. *)
Section sibling.
Context (w : addr) (wn : tree) (kw : bytes) (ew : entry) (wf : tree).
Abbreviation sib cw := (node d w cw wn kw ew wf).

Lemma sib_cell s cp cw C : rep s nil np X (above cp (sib cw) C) t →
  rb_heap s !! w = Some (cell d cw (root_of nil wn) (root_of nil wf) p kw ew).
Proof. intros H. eapply (rep_focus d _ _ _ _ (Frame (opp d) p cp kp ep t :: C)). refocus H. Qed.

Lemma wp_near_color s cp cw C Q :
  rep s nil np X (above cp (sib cw) C) t → Q (tcolor wn) s i → wp (f_color (root_of nil wn)) Q E s i.
Proof.
  intros H. eapply (wp_root_color _ _ _ _ (Frame d w cw kw ew wf :: Frame (opp d) p cp kp ep t :: C)). refocus H.
Qed.

Lemma wp_far_color s cp cw C Q :
  rep s nil np X (above cp (sib cw) C) t → Q (tcolor wf) s i → wp (f_color (root_of nil wf)) Q E s i.
Proof.
  intros H. eapply (wp_root_color _ _ _ _ (Frame (opp d) w cw kw ew wn :: Frame (opp d) p cp kp ep t :: C)). refocus H.
Qed.

Lemma wp_children_black s cp cw C Q :
  rep s nil np X (above cp (sib cw) C) t →
  Q (bool_decide (tcolor wn = BLACK ∧ tcolor wf = BLACK)) s i →
  wp (children_black w) Q E s i.
Proof.
  intros H HQ. unfold children_black. wp_steps. pose proof (sib_cell _ _ _ _ H) as Hw.
  assert (∀ b, b = bool_decide (tcolor wn = BLACK ∧ tcolor wf = BLACK) → Q b s i) as HQ' by (by intros ? ->).
  pose proof (λ Q, wp_near_color s cp cw C Q H) as HN. pose proof (λ Q, wp_far_color s cp cw C Q H) as HF.
  destruct d.
  - eapply (wp_near _ _ _ Lf); [exact Hw|]. wp_steps. apply HN. destruct (decide (tcolor wn = BLACK)); cbv beta iota; wp_steps.
    + eapply (wp_far _ _ _ Lf); [exact Hw|]. wp_steps. apply HF. cbv beta. wp_steps.
      apply HQ'. apply bool_decide_ext. tauto.
    + apply HQ'. rewrite bool_decide_eq_false_2; tauto.
  - eapply (wp_far _ _ _ Rt); [exact Hw|]. wp_steps. apply HF. destruct (decide (tcolor wf = BLACK)); cbv beta iota; wp_steps.
    + eapply (wp_near _ _ _ Rt); [exact Hw|]. wp_steps. apply HN. cbv beta. wp_steps.
      apply HQ'. apply bool_decide_ext. tauto.
    + apply HQ'. rewrite bool_decide_eq_false_2; tauto.
Qed.

(** The far child of the sibling is red: one rotation ends it. *)
Lemma wp_delete_finish s cp C Q :
  rep s nil np X (above cp (sib BLACK) C) t → ctx_rb (S n) (above cp (sib BLACK) C) →
  (∃ cn, rb cn n wn) → rb RED n wf →
  (∀ s' T m, rep s' nil np X [] T → rb BLACK m T → T ≠ Leaf →
     inorder T = inorder (plug (above cp (sib BLACK) C) t) → Q (root_of nil T) s' i) →
  wp (delete_finish d (root_of nil t) w) Q E s i.
Proof.
  intros H HC [cn Hwn] Hwf HQ. unfold delete_finish. wp_steps. eapply wp_x_parent; [exact H|]. wp_steps.
  eapply wp_color; [exact (rep_frame _ _ _ _ _ _ _ H)|]. cbn [fr_color]. wp_steps.
  eapply (wp_recolor d _ _ _ _ (Frame (opp d) p cp kp ep t :: C)); [refocus H|]. intros s1 H1. wp_steps.
  assert (rep s1 nil np X (above cp (sib cp) C) t) as H1' by (refocus H1).
  eapply wp_recolor_up; [exact H1'|]. intros s2 H2. wp_steps.
  eapply wp_far; [exact (sib_cell _ _ _ _ H2)|]. wp_steps.
  destruct (rb_red_inv d _ _ Hwf) as (f & f1 & kf & ef & f2 & Heq & Hf1 & Hf2). rewrite Heq at 1. rewrite root_node.
  eapply (wp_recolor d _ _ _ _ (Frame (opp d) w cp kw ew wn :: Frame (opp d) p BLACK kp ep t :: C)).
  { rewrite Heq in H2. refocus H2. }
  intros s3 H3. wp_steps.
  assert (rep s3 nil np X (above BLACK (node d w cp wn kw ew (node d f BLACK f1 kf ef f2)) C) t) as H3' by (refocus H3).
  eapply wp_x_parent; [exact H3'|]. wp_steps.
  eapply (wp_rotate d _ _ _ _ C p w _ _ _ _ _ _ t wn (node d f BLACK f1 kf ef f2)); [refocus H3'|].
  intros s4 H4. eapply wp_get_root; [by eapply rp_root|].
  assert (∃ m, rb BLACK m (plug C (node d w cp (node d p BLACK t kp ep wn) kw ew (node d f BLACK f1 kf ef f2)))) as [m Hm].
  { simpl in HC. destruct cp.
    - destruct HC as (_ & Htop & Hne & HC).
      eapply plug_rb; [|exact HC|by intros _]. apply rb_node_red; eapply rb_node_black; eauto.
    - destruct HC as (_ & HC).
      eapply (plug_rb _ BLACK); [|exact HC|done]. eapply rb_node_black; eapply rb_node_black; eauto. }
  eapply HQ; [eapply rep_refocus; [|exact H4]; done|exact Hm| |].
  - apply plug_node. right. by destruct d.
  - simpl. rewrite !inorder_plug, Heq. destruct d; same_entries.
Qed.
End sibling.

(** The far child of the sibling is black and the near one red: a rotation of the
    sibling comes first. *)
Lemma wp_delete_rotations s cp C w wn kw ew wf cn cf Q :
  rep s nil np X (above cp (node d w BLACK wn kw ew wf) C) t →
  ctx_rb (S n) (above cp (node d w BLACK wn kw ew wf) C) →
  rb cn n wn → rb cf n wf → (cn = RED ∨ cf = RED) →
  (∀ s' T m, rep s' nil np X [] T → rb BLACK m T → T ≠ Leaf →
     inorder T = inorder (plug (above cp (node d w BLACK wn kw ew wf) C) t) → Q (root_of nil T) s' i) →
  wp (delete_rotations d (root_of nil t) w) Q E s i.
Proof.
  intros H HC Hwn Hwf Hred HQ. unfold delete_rotations. wp_steps.
  eapply wp_far; [exact (sib_cell _ _ _ _ _ _ _ _ _ H)|]. wp_steps.
  eapply wp_far_color; [exact H|]. rewrite (rb_color _ _ _ Hwf). destruct cf.
  { rewrite decide_False by done. wp_steps. eapply wp_delete_finish; [exact H|eauto..]. }
  destruct Hred as [->|?]; [|done]. rewrite decide_True by done. wp_steps.
  eapply wp_near; [exact (sib_cell _ _ _ _ _ _ _ _ _ H)|]. wp_steps.
  destruct (rb_red_inv d _ _ Hwn) as (v & v1 & kv & ev & v2 & -> & Hv1 & Hv2). rewrite root_node.
  eapply (wp_recolor d _ _ _ _ (Frame d w BLACK kw ew wf :: Frame (opp d) p cp kp ep t :: C)); [refocus H|].
  intros s1 H1. wp_steps. rewrite rep_zip in H1.
  eapply (wp_recolor d _ _ _ _ (Frame (opp d) p cp kp ep t :: C)); [refocus H1|]. intros s2 H2. wp_steps.
  eapply (wp_rotate (opp d) _ _ _ _ (Frame (opp d) p cp kp ep t :: C) w v _ _ _ _ _ _ wf v2 v1); [refocus H2|].
  intros s3 H3. wp_steps.
  assert (rep s3 nil np X (above cp (node d v BLACK v1 kv ev (node d w RED v2 kw ew wf)) C) t) as H3' by (refocus H3).
  eapply wp_x_parent; [exact H3'|]. eapply wp_far; [exact (rep_frame _ _ _ _ _ _ _ H3')|].
  cbn [fr_sib]. rewrite root_node. eapply wp_delete_finish; [exact H3'| |by eauto|by apply rb_node_red|].
  - assert (rb BLACK (S n) (node d v BLACK v1 kv ev (node d w RED v2 kw ew wf))) as HW.
    { eapply rb_node_black; [done|by apply rb_node_red]. }
    simpl in *. destruct cp; naive_solver.
  - intros s' T m HT Hm Hne Hin. eapply HQ; [done|done|done|]. rewrite Hin. simpl. rewrite !inorder_plug.
    destruct d; same_entries.
Qed.

(** What the loop maintains of the focus: it lacks one black node, or it is red
    and need only be blackened. *)
Definition blacken (t' : tree) : tree :=
  match t' with Leaf => Leaf | Node a _ l k x r => Node a BLACK l k x r end.
Definition lacking (m : nat) (t' : tree) : Prop :=
  rb BLACK m t' ∨ tcolor t' = RED ∧ rb BLACK (S m) (blacken t').

Lemma wp_delete_fixup_side s cp W C Q :
  rep s nil np X (above cp W C) t → ctx_rb (S n) (above cp W C) →
  (∀ s' C' t' m, rep s' nil np X C' t' → t' ≠ Leaf → lacking m t' → ctx_rb (S m) C' →
     (length C' ≤ length C ∨ tcolor t' = RED)%nat →
     inorder (plug C' t') = inorder (plug (above cp W C) t) → Q (root_of nil t') s' i) →
  wp (delete_fixup_side d (root_of nil t) p) Q E s i.
Proof.
  intros H HC HQ. unfold delete_fixup_side. wp_steps.
  eapply wp_far; [exact (rep_frame _ _ _ _ _ _ _ H)|]. cbn [fr_sib]. wp_steps.
  eapply (wp_root_color _ _ _ _ (Frame (opp d) p cp kp ep t :: C)); [refocus H|]. wp_steps.
  eapply wp_delete_sibling; [exact H|done|]. clear H HC. intros s1 cp1 W1 C1 H HC HW Hlen Hin. wp_steps.
  destruct (rb_black_inv d _ _ HW) as (w & wn & kw & ew & wf & cn & cf & -> & Hwn & Hwf).
  rewrite root_node. eapply wp_children_black; [exact H|]. cbv beta.
  rewrite (rb_color _ _ _ Hwn), (rb_color _ _ _ Hwf). case_bool_decide as Hb.
  - destruct Hb as [-> ->]. wp_steps.
    eapply (wp_recolor d _ _ _ _ (Frame (opp d) p cp1 kp ep t :: C1)); [refocus H|]. intros s2 H2. cbv beta.
    assert (rep s2 nil np X (above cp1 (node d w RED wn kw ew wf) C1) t) as H2' by (refocus H2).
    eapply wp_x_parent; [exact H2'|]. rewrite rep_zip in H2'. rewrite <-(root_node nil d p cp1 t kp ep (node d w RED wn kw ew wf)).
    assert (rb BLACK (S n) (node d p BLACK t kp ep (node d w RED wn kw ew wf))) as Hp.
    { eapply rb_node_black; [done|by apply rb_node_red]. }
    simpl in HC. destruct cp1.
    + eapply (HQ _ C1 _ n); [exact H2'|by destruct d| |by destruct HC as (_ & _ & _ & ?)|right; by destruct d|].
      * right. split; [by destruct d|]. destruct d; exact Hp.
      * rewrite <-Hin. simpl. rewrite !inorder_plug. by destruct d.
    + eapply (HQ _ C1 _ (S n)); [exact H2'|by destruct d|by left|by destruct HC| |].
      * left. destruct Hlen as [?|[? ?]]; [lia|done].
      * rewrite <-Hin. simpl. rewrite !inorder_plug. by destruct d.
  - eapply wp_delete_rotations; [exact H|done|exact Hwn|exact Hwf| |].
    + destruct cn, cf; tauto.
    + intros s' T m HT Hm Hne Hin'. eapply (HQ _ [] T m); [done|done|by left|done|left; simpl; lia|].
      simpl. by rewrite Hin'.
Qed.
End cases.

(** ** The loop *)

Lemma wp_delete_fixup_step s nil np X C t n E i Q :
  rep s nil np X C t → (t = Leaf → np = up nil C) → rb BLACK n t → ctx_rb (S n) C → C ≠ [] →
  (∀ s' C' t' m, rep s' nil np X C' t' → t' ≠ Leaf → lacking m t' → ctx_rb (S m) C' →
     (length C' < length C ∨ tcolor t' = RED)%nat →
     inorder (plug C' t') = inorder (plug C t) → Q (root_of nil t') s' i) →
  wp (delete_fixup_step (root_of nil t)) Q E s i.
Proof.
  intros H Hnp Ht HC Hne HQ. destruct C as [|[d p cp kp ep W] C]; [done|]. simpl in Hnp.
  rewrite delete_fixup_step_side. wp_steps. eapply wp_root_parent; [exact H|done|]. cbn [up fr_addr]. wp_steps.
  assert (∃ cw, rb cw (S n) W) as [cw HW] by (simpl in HC; destruct cp; naive_solver).
  assert (root_of nil t ≠ root_of nil W) as Hx.
  { destruct t; [|by apply (rep_sibling_root _ _ _ _ _ _ _ H)]. simpl.
    pose proof (rp_nodup _ _ _ _ _ _ H) as Hnd. simpl in Hnd. apply NoDup_cons in Hnd as [Hnd _].
    destruct W; [by inversion HW|]. simpl in *. set_solver. }
  assert (wp (delete_fixup_side d (root_of nil t) p) Q E s i) as Hside.
  { eapply wp_delete_fixup_side; [exact Hnp|exact Ht|exact H|done|]. intros. eapply HQ; eauto. simpl. naive_solver lia. }
  pose proof (rep_frame _ _ _ _ _ _ _ H) as Hf. destruct d.
  - eapply (wp_near _ _ _ Lf); [exact Hf|]. by rewrite decide_True.
  - eapply (wp_far _ _ _ Rt); [exact Hf|]. by rewrite decide_False.
Qed.

Lemma rep_root_focus s nil np X C t : rep s nil np X C t → root_of nil t = root_of nil (plug C t) ↔ C = [].
Proof.
  intros H. split; [|by intros ->]. intros Heq. destruct C as [|f C]; [done|]. exfalso.
  pose proof (rp_nodup _ _ _ _ _ _ H) as Hnd.
  rewrite root_plug, last_cons in Heq.
  assert (∃ g : frame, g ∈ f :: C ∧ root_of nil t = fr_addr g) as (g & Hg & Hroot).
  { destruct (last C) as [g|] eqn:Hl; simpl in Heq; [|by exists f; split; [left|]].
    exists g. split; [right|done]. by apply last_Some_elem_of. }
  assert (fr_addr g ∈ caddrs (f :: C)) as Hin.
  { clear -Hg. revert Hg. generalize (f :: C). induction 1; simpl; set_solver. }
  apply NoDup_cons in Hnd as [Hnil Hnd]. apply NoDup_app in Hnd as (_ & Hd & _).
  destruct (root_elem nil t) as [Hr|Hr]; rewrite Hroot in Hr; [rewrite Hr in Hin; set_solver|by eapply Hd].
Qed.

Lemma wp_delete_fixup_loop fuel s nil np X C t n E i Q :
  rep s nil np X C t → (t = Leaf → np = up nil C) → lacking n t → ctx_rb (S n) C →
  (length C ≤ fuel ∨ tcolor t = RED)%nat →
  (∀ s' C' t', rep s' nil np X C' t' → (∃ m, rb BLACK m (plug C' (blacken t'))) →
     inorder (plug C' t') = inorder (plug C t) → Q (root_of nil t') s' i) →
  wp (delete_fixup_loop fuel (root_of nil t)) Q E s i.
Proof.
  revert s C t n. induction fuel as [|fuel IH]; intros s C t n H Hnp Ht HC Hf HQ; simpl; wp_steps;
    (eapply wp_get_root; [by eapply rp_root|]); cbv beta.
  all: destruct (decide (root_of nil t = root_of nil (plug C t))) as [Hroot|Hroot]; wp_steps.
  1, 3: apply (rep_root_focus _ _ _ _ _ _ H) in Hroot as ->; eapply (HQ _ []); [done| |done]; simpl;
    destruct Ht as [Ht|[_ Ht]]; [destruct t as [|? []]; [..|inversion Ht|]; eauto using rb|eauto].
  all: assert (C ≠ []) as Hne by (by rewrite <-(rep_root_focus _ _ _ _ _ _ H)).
  all: eapply wp_root_color; [exact H|]; cbv beta.
  all: destruct (decide (tcolor t = BLACK)) as [Hb|Hb]; wp_steps.
  - destruct Hf as [Hf|Hf]; [|congruence]. destruct C; [done|simpl in Hf; lia].
  - eapply (HQ _ C t); [done| |done]. destruct Ht as [Ht|[_ Ht]]; [by apply rb_color in Ht|].
    by eapply plug_rb; [exact Ht|..].
  - destruct Ht as [Ht|[? _]]; [|congruence]. eapply wp_delete_fixup_step; [done..|].
    intros s' C' t' m H' Hne' Ht' HC' Hlen Hin. eapply IH; [done|done|exact Ht'|done| |].
    + destruct Hlen; [left|by right]. destruct Hf; [lia|congruence].
    + by rewrite Hin.
  - eapply (HQ _ C t); [done| |done]. destruct Ht as [Ht|[_ Ht]]; [by apply rb_color in Ht|].
    by eapply plug_rb; [exact Ht|..].
Qed.

Lemma wp_blacken s nil np X C t E i (Q : unit → kvs_rbtree → nat → Prop) :
  rep s nil np X C t → (∀ s', rep s' nil np X C (blacken t) → Q tt s' i) →
  wp (set_color (root_of nil t) BLACK) Q E s i.
Proof.
  intros H HQ. destruct t as [|a c l k x r]; [|by eapply (wp_recolor Lf)]. simpl.
  eapply wp_upd_node; [exact (rp_cell _ _ _ _ _ _ H)|]. apply HQ. simpl.
  assert (∀ a, rb_heap (hset nil (nil_cell nil np) s) !! a = rb_heap s !! a) as Heq.
  { intros a. rewrite hset_heap. destruct (decide (a = nil)) as [->|]; [|done]. by rewrite (rp_cell _ _ _ _ _ _ H). }
  pose proof H as [Hr Hn Hc Ht HC Hnd HX HO Hfr]. eapply rep_rebuild; [exact H|done|..].
  - by rewrite (proj1 (hset_fields _ _ _)).
  - apply hset_fields.
  - apply hset_fields.
  - done.
  - eapply ctx_at_frame; [exact HC|]. auto.
  - auto.
Qed.

Lemma wp_delete_fixup s nil np X C t n c E i Q :
  rep s nil np X C t → (t = Leaf → np = up nil C) → rb c n t → ctx_rb (S n) C →
  (∀ s' T m, rep s' nil np X [] T → rb BLACK m T → inorder T = inorder (plug C t) → Q tt s' i) →
  wp (rbtree_delete_fixup (root_of nil t)) Q E s i.
Proof.
  intros H Hnp Ht HC HQ. unfold rbtree_delete_fixup, walk_fuel. wp_steps.
  eapply (wp_delete_fixup_loop _ _ _ _ _ C t n); [done|done| |done| |].
  - destruct c; [|by left]. right. inversion Ht; subst. split; [done|]. simpl. eauto using rb.
  - left. pose proof (rep_size _ _ _ _ _ _ H). pose proof (caddrs_length C). lia.
  - intros s1 C1 t1 H1 [m Hm] Hin. cbv beta. eapply wp_blacken; [exact H1|]. intros s2 H2.
    eapply HQ; [rewrite <-(app_nil_r C1), rep_plug in H2; exact H2|exact Hm|].
    rewrite <-Hin, !inorder_plug. by destruct t1.
Qed.
