(* ===== verification/RbtreeUnlink.v ===== *)
(** * Taking a node out of the red-black tree

    [rbtree_delete] unlinks the node or its successor. When it is the successor,
    the two nodes exchange key and value, but not the expiry time. *)

From stdpp Require Import sorting.
From S2P Require Import Prelude KvSpec KvsRbtree RbtreeShape RbtreeRotate RbtreeInsert RbtreeSearch RbtreeDelete.

Implicit Types (d : side) (C D : context) (nil np y z : addr) (X : rbheap) (t u T : tree) (k : bytes) (x : entry)
  (n : nat) (c : color) (L : list (bytes * entry)).

(** ** Nodes outside the tree *)

Lemma rep_outside s nil np X C t y (n' : rbtree_node) :
  rep s nil np X C t → y ∉ nil :: addrs t ++ caddrs C → is_Some (rb_heap s !! y) →
  rep (hset y n' s) nil np (<[y := n']> X) C t.
Proof.
  intros [Hr Hn Hc Ht HC Hnd HX HO Hf] Hy [n0 Hy0].
  assert (∀ a, a ∈ nil :: addrs t ++ caddrs C → rb_heap (hset y n' s) !! a = rb_heap s !! a) as Heq.
  { intros a Ha. rewrite hset_heap, decide_False; [done|]. by intros ->. }
  destruct (hset_fields y n' s) as (Hr' & Hn' & Hf').
  split; [congruence|congruence| | | |done| | |].
  - rewrite Heq; [done|by left].
  - eapply tree_at_frame; [done|]. intros a Ha. apply Heq. set_solver.
  - eapply ctx_at_frame; [done|]. intros a Ha. apply Heq. set_solver.
  - intros a Ha. rewrite hset_heap. destruct (decide (a = y)) as [->|]; simplify_map_eq; auto.
  - intros a Ha. rewrite lookup_insert_ne by set_solver. auto.
  - intros a Ha. rewrite Hf' in Ha. rewrite hset_heap, decide_False; [auto|].
    intros ->. rewrite Hf in Hy0; done.
Qed.

(** free (y) *)
Lemma wp_free_outside s nil np X C t y (n' : rbtree_node) E i (Q : unit → kvs_rbtree → nat → Prop) :
  rep s nil np X C t → y ∉ nil :: addrs t ++ caddrs C → rb_heap s !! y = Some n' →
  (∀ s', rep s' nil np (delete y X) C t → Q tt s' i) →
  wp (free_block y) Q E s i.
Proof.
  intros [Hr Hn Hc Ht HC Hnd HX HO Hf] Hy Hy0 HQ. unfold free_block, get_node. wp_steps. rewrite Hy0. wp_steps.
  apply HQ.
  assert (∀ a, a ≠ y → delete y (rb_heap s) !! a = rb_heap s !! a) as Heq by (intros; by apply lookup_delete_ne).
  split; simpl; [done|done| | | |done| | |].
  - rewrite Heq; [done|set_solver].
  - eapply tree_at_frame; [done|]. intros a Ha. apply Heq. set_solver.
  - eapply ctx_at_frame; [done|]. intros a Ha. apply Heq. set_solver.
  - intros a Ha. destruct (decide (a = y)) as [->|]; simplify_map_eq; auto.
  - intros a Ha. apply lookup_delete_None. auto.
  - intros a Ha. destruct (decide (a = y)) as [->|]; simplify_map_eq; auto.
Qed.

(** ** Unlinking a node with at most one child *)

Definition sentinel_parent (nil np : addr) (C : context) (u : tree) : addr :=
  if u is Leaf then up nil C else np.

Definition child_state (nil : addr) (C : context) (u : tree) (s : kvs_rbtree) : kvs_rbtree :=
  match u with
  | Leaf => hset nil (nil_cell nil (up nil C)) s
  | _ => reparented nil u (up nil C) s
  end.

Section unlink.
Context (E : env) (s : kvs_rbtree) (nil np : addr) (X : rbheap) (C : context) (d : side).
Context (y : addr) (c : color) (k : bytes) (x : entry) (u : tree).
Hypothesis H : rep s nil np X C (node d y c Leaf k x u).

Definition gone_cell : rbtree_node := cell d c nil (root_of nil u) (up nil C) k x.
Definition unlinked : kvs_rbtree := relinked nil C (root_of nil u) (child_state nil C u s).

Lemma unlink_addrs : NoDup (nil :: y :: addrs u ++ caddrs C).
Proof.
  pose proof (rp_nodup _ _ _ _ _ _ H) as Hnd. rewrite addrs_node in Hnd. exact Hnd.
Qed.

Lemma child_state_ne a : a ∉ nil :: addrs u → rb_heap (child_state nil C u s) !! a = rb_heap s !! a.
Proof.
  intros Ha. unfold child_state. destruct u; [rewrite hset_heap, decide_False; [done|set_solver]|].
  apply reparented_ne. set_solver.
Qed.

Lemma unlinked_ne a : a ∉ nil :: addrs u ++ caddrs C → rb_heap unlinked !! a = rb_heap s !! a.
Proof.
  intros Ha. unfold unlinked. rewrite relinked_ne, child_state_ne; [done|set_solver|].
  destruct C as [|f C']; [by right|left]. simpl in *. set_solver.
Qed.

Lemma unlinked_tree a : a ∈ nil :: addrs u → rb_heap unlinked !! a = rb_heap (child_state nil C u s) !! a.
Proof.
  intros Ha. pose proof unlink_addrs as Hnd. apply relinked_ne.
  destruct C as [|f C']; [by right|left]. simpl in *. intros ->.
  apply NoDup_cons in Hnd as [Hnil [_ Hnd]%NoDup_cons]. apply NoDup_app in Hnd as (_ & Hd & _).
  apply elem_of_cons in Ha as [Ha|Ha]; [set_solver|]. eapply Hd; [exact Ha|by left].
Qed.

(** x->parent = y->parent *)
Lemma wp_unlink_child i (Q : unit → kvs_rbtree → nat → Prop) :
  Q tt (child_state nil C u s) i → wp (set_parent (root_of nil u) (up nil C)) Q E s i.
Proof.
  intros HQ. pose proof (rp_tree _ _ _ _ _ _ H) as Ht. apply tree_at_node in Ht as (_ & _ & Hu).
  unfold child_state in HQ. destruct u as [|b cb l kb xb r]; simpl.
  - eapply wp_upd_node; [exact (rp_cell _ _ _ _ _ _ H)|exact HQ].
  - destruct Hu as (Hb & _). eapply wp_set_parent; [exact Hb|exact HQ].
Qed.

Lemma wp_unlink_parent i (Q : unit → kvs_rbtree → nat → Prop) :
  Q tt unlinked i → wp (relink_parent Lf nil (up nil C) y (root_of nil u)) Q E (child_state nil C u s) i.
Proof.
  intros HQ. pose proof unlink_addrs as Hnd. apply NoDup_cons in Hnd as [Hnil [Hy Hnd]%NoDup_cons].
  apply wp_relink; [set_solver| |exact HQ].
  intros f C' HC. destruct (rep_relinkable _ _ _ _ _ _ s H ltac:(by destruct d) ltac:(done) f C' HC) as (Hf & ? & ?).
  rewrite root_node in *. split; [|done]. rewrite child_state_ne; [done|].
  apply NoDup_app in Hnd as (_ & Hd & _). intros [Hfa|Hfa]%elem_of_cons; [done|].
  eapply Hd; [exact Hfa|]. rewrite HC. by left.
Qed.

Lemma unlinked_rep : rep unlinked nil (sentinel_parent nil np C u) (<[y := gone_cell]> X) C u.
Proof.
  pose proof unlink_addrs as Hnd. apply NoDup_cons in Hnd as [Hnil [Hy Hnd]%NoDup_cons].
  pose proof H as [Hr Hn Hc Ht HC _ HX HO Hf]. apply tree_at_node in Ht as (Hcell & _ & Hu).
  assert (rb_root unlinked = Some (root_of nil (plug C u)) ∧ rb_nil unlinked = rb_nil s ∧ rb_fresh unlinked = rb_fresh s) as (? & ? & ?).
  { assert (rb_root (child_state nil C u s) = rb_root s ∧ rb_nil (child_state nil C u s) = rb_nil s ∧
      rb_fresh (child_state nil C u s) = rb_fresh s) as (Hcr & ? & ?).
    { destruct u; [apply hset_fields|apply reparented_fields]. }
    unfold unlinked. destruct (relinked_fields nil C (root_of nil u) (child_state nil C u s)) as (-> & -> & ->).
    split; [|done]. rewrite root_plug. destruct C as [|f C']; [done|].
    rewrite Hcr, Hr, root_plug, last_cons. by destruct (last C'). }
  apply NoDup_app in Hnd as (Hndu & Hd & HndC).
  split; [done|congruence| | | |rewrite NoDup_cons, NoDup_app; set_solver| | |].
  - rewrite unlinked_tree by (by left). unfold child_state, sentinel_parent. destruct u.
    + by rewrite hset_heap, decide_True.
    + rewrite reparented_ne; [done|set_solver].
  - eapply reparented_tree; [exact Hu|done|set_solver|]. intros a Ha. rewrite unlinked_tree by (by right).
    unfold child_state. destruct u; [set_solver|done].
  - rewrite root_node in HC. eapply ctx_at_rechild; [exact HC| |].
    + intros f C' HCeq. unfold unlinked. rewrite HCeq. apply relinked_top.
    + intros a Ha. assert (a ∈ caddrs C) as Ha' by (destruct C; set_solver).
      unfold unlinked. rewrite relinked_ne, child_state_ne; [done|set_solver|].
      destruct C as [|f C']; [by right|left]. simpl in *. apply NoDup_cons in HndC as [? _]. by intros ->.
  - intros a Ha. destruct (decide (a = y)) as [->|].
    + rewrite lookup_insert_eq, unlinked_ne by set_solver. done.
    + rewrite lookup_insert_ne by done. rewrite unlinked_ne by set_solver. apply HX. rewrite addrs_node. set_solver.
  - intros a Ha. rewrite lookup_insert_ne by set_solver. apply HO. rewrite addrs_node. set_solver.
  - intros a Ha. destruct (decide (a ∈ nil :: addrs u ++ caddrs C)) as [Hin|].
    + exfalso. destruct (rep_live _ _ _ _ _ _ a H) as [n Hn']; [rewrite addrs_node; set_solver|].
      rewrite Hf in Hn'; [done|lia].
    + rewrite unlinked_ne by done. apply Hf. lia.
Qed.
End unlink.

(** ** The successor *)

Definition all_left (D : context) : Prop := Forall (λ f, fr_side f = Lf) D.

Lemma wp_mini_loop fuel s nil np X C t E i Q :
  rep s nil np X C t → t ≠ Leaf → (length (addrs t) ≤ fuel)%nat →
  (∀ D a c k x u, rep s nil np X (D ++ C) (Node a c Leaf k x u) → all_left D →
     plug D (Node a c Leaf k x u) = t → Q a s i) →
  wp (mini_loop fuel nil (root_of nil t)) Q E s i.
Proof.
  revert C t. induction fuel as [|fuel IH]; intros C t H Hne Hf HQ;
    (destruct t as [|a c l k x r]; [done|]); simpl in Hf; [lia|]. rewrite length_app in Hf. simpl. wp_steps.
  pose proof (rep_focus Lf _ _ _ _ _ _ _ _ _ _ _ H) as Ha. eapply (wp_near _ _ _ Lf); [exact Ha|].
  destruct l as [|b cb l1 kb xb l2].
  - simpl. rewrite decide_True by done. wp_steps. by eapply (HQ [] a); [exact H|constructor|].
  - rewrite decide_False.
    2: { exact (rep_not_nil _ _ _ _ _ _ _ _ _ _ _ (proj1 (rep_down Lf _ _ _ _ _ _ _ _ _ _ _) H)). }
    eapply (IH (Frame Lf a c k x r :: C)); [exact (proj1 (rep_down Lf _ _ _ _ _ _ _ _ _ _ _) H)|done|lia|].
    intros D a' c' k' x' u HD Hall Hplug. eapply (HQ (D ++ [Frame Lf a c k x r])).
    + rewrite <-app_assoc. exact HD.
    + apply Forall_app. split; [done|by repeat constructor].
    + by rewrite plug_app, Hplug.
Qed.

Lemma caddrs_app D C : caddrs (D ++ C) = caddrs D ++ caddrs C.
Proof. induction D as [|f D IH]; simpl; [done|]. by rewrite IH, <-app_assoc. Qed.

Lemma before_left D C : all_left D → before (D ++ C) = before C.
Proof. induction 1 as [|f D Hf HD IH]; simpl; [done|]. by rewrite Hf. Qed.

(** Rewriting the contents of the node of a frame. *)
Lemma ctx_rb_recell m D C d a c k x u k' x' :
  ctx_rb m (D ++ Frame d a c k x u :: C) → ctx_rb m (D ++ Frame d a c k' x' u :: C).
Proof.
  revert m. induction D as [|f D IH]; intros m; simpl; [done|]. destruct (fr_color f).
  - intros (Hs & Htop & Hne & HC). split_and!; [done| | |by apply IH]; by destruct D.
  - intros (Hs & HC). eauto.
Qed.

Lemma ctop_recell D C d a c k x u k' x' :
  ctop (D ++ Frame d a c k x u :: C) = ctop (D ++ Frame d a c k' x' u :: C).
Proof. by destruct D. Qed.

Lemma beyond_recell D C a c k x u k' x' :
  beyond (D ++ Frame Rt a c k x u :: C) = beyond (D ++ Frame Rt a c k' x' u :: C).
Proof. induction D as [|f D IH]; simpl; [done|]. by rewrite IH. Qed.

Lemma up_recell nil D C d a c k x u k' x' :
  up nil (D ++ Frame d a c k x u :: C) = up nil (D ++ Frame d a c k' x' u :: C).
Proof. by destruct D. Qed.

(** Access to the node of a frame below the focus. *)
Lemma rep_deep s nil np X D d a c k x w C u :
  rep s nil np X (D ++ Frame d a c k x w :: C) u →
  rb_heap s !! a = Some (cell d c (root_of nil (plug D u)) (root_of nil w) (up nil C) k x).
Proof. rewrite rep_plug. apply rep_frame. Qed.

Lemma rep_deep_recell s nil np X D d a c k x w C u k' x' :
  rep s nil np X (D ++ Frame d a c k x w :: C) u →
  rep (hset a (cell d c (root_of nil (plug D u)) (root_of nil w) (up nil C) k' x') s) nil np X
      (D ++ Frame d a c k' x' w :: C) u.
Proof. rewrite !rep_plug, <-!rep_down. apply rep_recell. Qed.

(** A node of the rest of the heap is not of the tree. *)
Lemma rest_lookup s nil np X C t y (n' : rbtree_node) :
  rep s nil np X C t → X !! y = Some n' → y ∉ nil :: addrs t ++ caddrs C ∧ rb_heap s !! y = Some n'.
Proof.
  intros H Hy. assert (y ∉ nil :: addrs t ++ caddrs C) as Hout.
  { intros Hin. by rewrite (rp_out _ _ _ _ _ _ H) in Hy. }
  split; [done|]. by rewrite (rp_rest _ _ _ _ _ _ H).
Qed.

Section swap.
Context (E : env) (nil np : addr) (D : context) (z y : addr) (cz : color) (kz : bytes) (xz : entry).
Context (l : tree) (C : context) (u : tree) (dy : side) (cy : color) (n1 n2 n3 : addr) (ky : bytes) (xy : entry).

(** The exchange of key and value between the node [z] and the unlinked [y]. *)
Lemma wp_swap s X i (Q : unit → kvs_rbtree → nat → Prop) :
  rep s nil np X (D ++ Frame Rt z cz kz xz l :: C) u →
  X !! y = Some (cell dy cy n1 n2 n3 ky xy) → y ≠ z →
  (∀ s', rep s' nil np (<[y := cell dy cy n1 n2 n3 kz (xz.1, xy.2)]> X)
             (D ++ Frame Rt z cz ky (xy.1, xz.2) l :: C) u → Q tt s' i) →
  wp (tmp ← f_key z; yk ← f_key y; set_key z yk;; set_key y tmp;;
      tmp ← f_value z; yv ← f_value y; set_value z yv;; set_value y tmp) Q E s i.
Proof.
  intros H Hy Hne HQ. destruct (rest_lookup _ _ _ _ _ _ _ _ H Hy) as [_ Hy1]. wp_steps.
  eapply wp_key; [by eapply rep_deep|]. wp_steps. eapply wp_key; [exact Hy1|]. wp_steps.
  eapply wp_set_key; [by eapply rep_deep|]. wp_steps.
  apply (rep_deep_recell _ _ _ _ _ _ _ _ _ _ _ _ _ ky xz) in H.
  destruct (rest_lookup _ _ _ _ _ _ _ _ H Hy) as [Ho2 Hy2].
  eapply wp_set_key; [exact Hy2|]. wp_steps. eapply rep_outside in H; [|exact Ho2|by eexists].
  eapply wp_value; [by eapply rep_deep|]. wp_steps.
  eapply wp_value; [rewrite hset_heap, decide_True; done|]. wp_steps.
  eapply wp_set_value; [by eapply rep_deep|]. wp_steps.
  apply (rep_deep_recell _ _ _ _ _ _ _ _ _ _ _ _ _ ky (xy.1, xz.2)) in H.
  destruct (rest_lookup _ _ _ _ _ _ _ _ H (lookup_insert_eq _ _ _)) as [Ho3 Hy3].
  eapply wp_set_value; [exact Hy3|]. eapply rep_outside in H; [|exact Ho3|by eexists].
  apply HQ. by rewrite insert_insert_eq in H.
Qed.
End swap.

(** ** Deletion *)

(** What deleting key [k] leaves of a sequence of entries: its entry goes, and
    where the successor took its node the successor keeps that node's expiry. *)
Inductive dropped (k : bytes) (x : entry) : list (bytes * entry) → list (bytes * entry) → Prop :=
| dropped_here L1 L2 : dropped k x (L1 ++ (k, x) :: L2) (L1 ++ L2)
| dropped_swap L1 k2 x2 L2 : dropped k x (L1 ++ (k, x) :: (k2, x2) :: L2) (L1 ++ (k2, (x2.1, x.2)) :: L2).

Definition balance (cy : color) (m : nat) (u : tree) (C : context) : Prop :=
  match cy with
  | RED => rb BLACK m u ∧ ctx_rb m C
  | BLACK => (∃ cu, rb cu m u) ∧ ctx_rb (S m) C
  end.

Lemma unlink_balance n C d y cy k x u :
  rb BLACK n (plug C (node d y cy Leaf k x u)) → ∃ m, balance cy m u C.
Proof.
  intros H. destruct (unplug_rb _ _ _ H) as (c & m & Hn & HC & Hc).
  assert (c = cy) as -> by (rewrite <-(rb_color _ _ _ Hn); by destruct d). destruct cy.
  - destruct (rb_red_inv d _ _ Hn) as (? & ? & ? & ? & ? & Heq & _ & Hu). exists m.
    split; [|done]. by destruct d; simplify_eq/=.
  - destruct m as [|m]; [destruct d; inversion Hn|].
    destruct (rb_black_inv d _ _ Hn) as (? & ? & ? & ? & ? & ? & c2 & Heq & _ & Hu). exists m.
    split; [|done]. exists c2. by destruct d; simplify_eq/=.
Qed.

Lemma wp_delete_tail s nil np X C u d y cy n1 n2 n3 k x m E i Q :
  rep s nil np X C u → (u = Leaf → np = up nil C) → X !! y = Some (cell d cy n1 n2 n3 k x) → balance cy m u C →
  (∀ s' T m', rep s' nil np X [] T → rb BLACK m' T → inorder T = inorder (plug C u) → Q y s' i) →
  wp (yc ← f_color y;
      (if decide (yc = BLACK) then rbtree_delete_fixup (root_of nil u) else mret tt);;
      mret y) Q E s i.
Proof.
  intros H Hnp Hy Hbal HQ. destruct (rest_lookup _ _ _ _ _ _ _ _ H Hy) as [_ Hy1]. wp_steps.
  eapply wp_color; [exact Hy1|]. wp_steps. destruct cy; simpl in Hbal.
  - rewrite decide_False by done. wp_steps. destruct Hbal as [Hu HC].
    destruct (plug_rb m BLACK C u) as [m' Hm']; [done|done|done|].
    eapply HQ; [rewrite <-(app_nil_r C), rep_plug in H; exact H|exact Hm'|done].
  - rewrite decide_True by done. destruct Hbal as [[cu Hu] HC].
    eapply wp_delete_fixup; [done..|]. intros s' T m' H' HT Hin. wp_steps. eapply HQ; eauto.
Qed.

(** The lines of [rbtree_delete] up to the exchange, for the node [y]. *)
Lemma wp_unlink_node s nil np X C y c l k x r (K : addr → M kvs_rbtree addr) E i Q :
  rep s nil np X C (Node y c l k x r) → (l = Leaf ∨ r = Leaf) →
  (∀ s' d u, Node y c l k x r = node d y c Leaf k x u →
     rep s' nil (sentinel_parent nil np C u) (<[y := gone_cell nil C d c k x u]> X) C u →
     wp (K (root_of nil u)) Q E s' i) →
  wp (f_left y) (λ yl s' i', wp (
      x ← (if decide (yl = nil) then yr ← f_right y; (if decide (yr = nil) then mret nil else mret yr)
           else mret yl);
      yp ← f_parent y;
      set_parent x yp;;
      relink_parent Lf nil yp y x;;
      K x) Q E s' i') E s i.
Proof.
  intros H Hlr HQ. wp_steps. pose proof (rep_focus Lf _ _ _ _ _ _ _ _ _ _ _ H) as Hy.
  eapply (wp_near _ _ _ Lf); [exact Hy|]. cbv beta.
  pose proof (rp_nodup _ _ _ _ _ _ H) as Hnd. apply NoDup_cons in Hnd as [Hnil _]. simpl in Hnil.
  assert (∃ d u, Node y c l k x r = node d y c Leaf k x u ∧
    ∀ Q' : addr → kvs_rbtree → nat → Prop, Q' (root_of nil u) s i →
    wp (if decide (root_of nil l = nil) then yr ← f_right y; (if decide (yr = nil) then mret nil else mret yr)
        else mret (root_of nil l)) Q' E s i) as (d & u & Heq & Hx).
  { destruct l as [|b cb l1 kb xb l2].
    - exists Lf, r. split; [done|]. intros Q' HQ'. simpl. rewrite decide_True by done. wp_steps.
      eapply (wp_far _ _ _ Lf); [exact Hy|]. cbv beta.
      destruct (decide (root_of nil r = nil)) as [Hr|]; wp_steps; [by rewrite Hr in HQ'|done].
    - destruct Hlr as [?|Hr]; [done|]. subst r. exists Rt, (Node b cb l1 kb xb l2). split; [done|].
      intros Q' HQ'. rewrite decide_False; [done|]. simpl in *. set_solver. }
  wp_steps. apply Hx. wp_steps. eapply wp_parent; [exact Hy|]. wp_steps. rewrite Heq in H.
  eapply wp_unlink_child; [exact H|]. wp_steps. eapply wp_unlink_parent; [exact H|]. wp_steps.
  eapply HQ; [exact Heq|]. by eapply unlinked_rep.
Qed.

Lemma wp_successor s nil np X C z c l k x r E i Q :
  rep s nil np X C (Node z c l k x r) → r ≠ Leaf →
  (∀ D y cy ky xy u, rep s nil np X (D ++ Frame Rt z c k x l :: C) (Node y cy Leaf ky xy u) → all_left D →
     plug D (Node y cy Leaf ky xy u) = r → Q y s i) →
  wp (rbtree_successor z) Q E s i.
Proof.
  intros H Hr HQ. unfold rbtree_successor, rbtree_mini, walk_fuel. wp_steps.
  pose proof (rep_focus Lf _ _ _ _ _ _ _ _ _ _ _ H) as Hz. pose proof (proj1 (rep_across Lf _ _ _ _ _ _ _ _ _ _ _) H) as H1.
  eapply wp_get_nil; [by eapply rp_nil|]. wp_steps. eapply wp_parent; [exact Hz|]. wp_steps.
  eapply (wp_far _ _ _ Lf); [exact Hz|]. cbv beta.
  assert (root_of nil r ≠ nil) as Hne.
  { destruct r as [|b cb r1 kb xb r2]; [done|]. exact (rep_not_nil _ _ _ _ _ _ _ _ _ _ _ H1). }
  rewrite decide_False by done. wp_steps. eapply wp_get_nil; [by eapply rp_nil|]. wp_steps.
  eapply wp_mini_loop; [exact H1|done| |exact HQ]. pose proof (rep_size _ _ _ _ _ _ H1). lia.
Qed.

Lemma rep_leaf_child s nil np X C z c l k x r :
  rep s nil np X C (Node z c l k x r) → root_of nil l = nil ∨ root_of nil r = nil → l = Leaf ∨ r = Leaf.
Proof.
  intros H. pose proof (rp_nodup _ _ _ _ _ _ H) as Hnd. apply NoDup_cons in Hnd as [Hnil _].
  destruct l; [by left|]. destruct r; [by right|]. simpl in *. set_solver.
Qed.

Lemma wp_rbtree_delete s nil np X C z c l k x r n E i Q :
  rep s nil np X C (Node z c l k x r) → rb BLACK n (plug C (Node z c l k x r)) →
  (∀ s' np' T m y (n' : rbtree_node), rep s' nil np' (<[y := n']> X) [] T → rb BLACK m T → X !! y = None →
     dropped k x (inorder (plug C (Node z c l k x r))) (inorder T) →
     rn_key n' = Some (PStr k) → rn_value n' = Some x.1 → Q y s' i) →
  wp (rbtree_delete z) Q E s i.
Proof.
  intros H Hrb HQ. unfold rbtree_delete. wp_steps. eapply wp_get_nil; [by eapply rp_nil|]. wp_steps.
  pose proof (rep_focus Lf _ _ _ _ _ _ _ _ _ _ _ H) as Hz.
  eapply (wp_near _ _ _ Lf); [exact Hz|]. wp_steps. eapply (wp_far _ _ _ Lf); [exact Hz|]. wp_steps.
  destruct (decide (root_of nil l = nil ∨ root_of nil r = nil)) as [Hlr|Hlr]; wp_steps.
  - eapply wp_unlink_node; [exact H|by apply (rep_leaf_child s nil np X C z c l k x r)|].
    intros s1 d u Heq H1. rewrite decide_True by done. do 2 wp_step.
    rewrite Heq in Hrb. destruct (unlink_balance _ _ _ _ _ _ _ _ Hrb) as [m Hbal].
    eapply wp_delete_tail; [exact H1|by intros ->|apply lookup_insert_eq|exact Hbal|].
    intros s2 T m' H2 HT Hin. eapply HQ; [exact H2|exact HT| | |by destruct d..].
    + apply (rp_out _ _ _ _ _ _ H). set_solver.
    + rewrite Heq, Hin, !inorder_plug. destruct d; simpl; [constructor|].
      rewrite <-!app_assoc, !(app_assoc (before C)). constructor.
  - assert (l ≠ Leaf ∧ r ≠ Leaf) as [Hl Hr] by (by destruct l, r; simpl in Hlr; naive_solver).
    eapply wp_successor; [exact H|done|]. intros D y cy ky xy u H1 HD Hplug. wp_steps.
    assert (y ≠ z) as Hyz.
    { pose proof (rp_nodup _ _ _ _ _ _ H1) as Hnd. apply NoDup_cons in Hnd as [_ [Hnd _]%NoDup_cons].
      intros ->. apply Hnd. rewrite caddrs_app. simpl. set_solver. }
    assert (plug (D ++ Frame Rt z c k x l :: C) (Node y cy Leaf ky xy u) = plug C (Node z c l k x r)) as Hwhole.
    { rewrite plug_app, Hplug. done. }
    eapply wp_unlink_node; [exact H1|by left|]. intros s1 d u' Heq H2.
    rewrite <-Hwhole, Heq in Hrb. destruct (unlink_balance _ _ _ _ _ _ _ _ Hrb) as [m Hbal].
    rewrite decide_False by done. wp_step.
    eapply wp_swap; [exact H2|apply lookup_insert_eq|done|]. intros s2 H3. cbv beta.
    rewrite insert_insert_eq in H3.
    eapply wp_delete_tail; [exact H3| |apply lookup_insert_eq| |].
    + intros ->. simpl. apply up_recell.
    + instantiate (1 := m). destruct cy; simpl in *; naive_solver eauto using ctx_rb_recell.
    + intros s3 T m' H4 HT Hin. eapply HQ; [exact H4|exact HT| | |by destruct d..].
      * apply (rp_out _ _ _ _ _ _ H1). set_solver.
      * assert (inorder u = inorder u') as Hu by (destruct d; simplify_eq/=; done).
        rewrite <-Hwhole, Hin, !inorder_plug, !before_left by done. simpl. rewrite Hu.
        rewrite (beyond_recell D C z c k x l ky (xy.1, x.2)), <-!app_assoc. simpl.
        rewrite !(app_assoc (before C)). constructor.
Qed.
