(* ===== verification/RbtreeEngine.v ===== *)
(** * The red-black tree as a dictionary

    The invariant of the engine, its dictionary, and what each operation of
    kvs_rbtree.c does to it. A deletion may hand the deleted key's expiry time to
    the next key; on a tree without expiry times the operations are exact. *)

From stdpp Require Import sorting.
From S2P Require Import Prelude KvSpec KvsRbtree RbtreeShape RbtreeRotate RbtreeInsert RbtreeSearch RbtreeDelete RbtreeUnlink.

Implicit Types (nil np : addr) (T : tree) (k v : bytes) (x : entry) (L : list (bytes * entry)) (m : dict) (s : kvs_rbtree).

(** ** The dictionary of a tree *)

Fixpoint rb_collect (fuel : nat) (h : rbheap) (nil a : addr) : list (bytes * entry) :=
  if decide (a = nil) then [] else
  match fuel with
  | O => []
  | S fuel' =>
      match h !! a with
      | Some (RBNode _ (Some r) (Some l) _ (Some (PStr k)) (Some p) (Some e)) =>
          rb_collect fuel' h nil l ++ (k, (p, e)) :: rb_collect fuel' h nil r
      | _ => []
      end
  end.

Definition rb_abs (s : kvs_rbtree) : dict :=
  match rb_root s, rb_nil s with
  | Some r, Some nl => list_to_map (rb_collect (size (rb_heap s)) (rb_heap s) nl r)
  | _, _ => ∅
  end.

(** The heap holds exactly a red-black search tree and its sentinel. *)
Definition rb_rep (s : kvs_rbtree) (T : tree) : Prop :=
  ∃ nil np n, rep s nil np ∅ [] T ∧ rb BLACK n T ∧ sorted T.

Definition rb_wf (s : kvs_rbtree) : Prop := (∃ T, rb_rep s T) ∧ no_freed (rb_abs s).

Lemma collect_tree fuel h nil par T :
  tree_at h nil par T → nil ∉ addrs T → (length (addrs T) ≤ fuel)%nat →
  rb_collect fuel h nil (root_of nil T) = inorder T.
Proof.
  revert par T. induction fuel as [|fuel IH]; intros par T HT Hnil Hf.
  - destruct T; [|simpl in Hf; lia]. simpl. by rewrite decide_True.
  - destruct T as [|a c l k [p e] r]; [simpl; by rewrite decide_True|].
    destruct HT as (Ha & Hl & Hr). simpl in *. rewrite length_app in Hf.
    rewrite decide_False by set_solver. rewrite Ha. unfold cell; simpl.
    rewrite (IH a l), (IH a r); [done|done|set_solver|lia|done|set_solver|lia].
Qed.

Lemma rb_rep_abs s T : rb_rep s T → rb_abs s = list_to_map (inorder T).
Proof.
  intros (nil & np & n & H & _ & _). unfold rb_abs. pose proof H as [-> -> _ HT _ Hnd _ _ _]. simpl in *.
  f_equal. apply NoDup_cons in Hnd as [Hnil _]. rewrite app_nil_r in Hnil.
  eapply collect_tree; [exact HT|done|]. pose proof (rep_size _ _ _ _ _ _ H). simpl in *. lia.
Qed.

Lemma sorted_keys (l : list bytes) : StronglySorted str_lt l → NoDup l.
Proof.
  induction 1 as [|a l Hs IH Ha]; constructor; [|done].
  intros Hin. rewrite Forall_forall in Ha. by apply (irreflexivity str_lt a), Ha.
Qed.

Lemma found_abs C a c l k x r (T : tree) :
  sorted T → plug C (Node a c l k x r) = T → (list_to_map (inorder T) : dict) !! k = Some x.
Proof.
  intros Hs <-. apply elem_of_list_to_map; [by apply sorted_keys|]. rewrite inorder_plug. simpl. set_solver.
Qed.

Lemma missing_abs C k (T : tree) :
  path_to k C → plug C Leaf = T → k ∉ (inorder T).*1.
Proof.
  intros [Hb Ha] <-. rewrite inorder_plug. simpl. rewrite fmap_app.
  intros [Hin|Hin]%elem_of_app; apply list_elem_of_fmap in Hin as (y & -> & Hy);
    eapply (irreflexivity str_lt y.1); [apply (proj1 (Forall_forall _ _) Hb _ Hy)|apply (proj1 (Forall_forall _ _) Ha _ Hy)].
Qed.

(** ** What a deletion does to the dictionary *)

(** [k2] is the key after [k]. *)
Definition next_key (m : dict) (k k2 : bytes) : Prop :=
  str_lt k k2 ∧ is_Some (m !! k2) ∧ ∀ k', is_Some (m !! k') → str_lt k k' → k' = k2 ∨ str_lt k2 k'.

(** Key [k] goes; the next key may get its expiry time. *)
Definition drops (k : bytes) (m m' : dict) : Prop :=
  m' = delete k m ∨
  ∃ p e k2 p2 e2, m !! k = Some (p, e) ∧ next_key m k k2 ∧ m !! k2 = Some (p2, e2) ∧
    m' = <[k2 := (p2, e)]> (delete k m).

Lemma dropped_sorted k x L L' : dropped k x L L' → StronglySorted str_lt L.*1 → StronglySorted str_lt L'.*1.
Proof.
  intros Hd Hs. assert (∃ L1 L2 : list bytes, L.*1 = L1 ++ k :: L2 ∧ L'.*1 = L1 ++ L2) as (L1 & L2 & HL & HL').
  { destruct Hd as [L1 L2|L1 k2 x2 L2]; [exists L1.*1, L2.*1|exists L1.*1, (k2 :: L2.*1)]; by rewrite !fmap_app. }
  rewrite HL in Hs. rewrite HL'. apply StronglySorted_app in Hs as (H1 & H2 & H3).
  apply StronglySorted_inv in H3 as [H3 _]. apply StronglySorted_app. split_and!; [|done|done]. set_solver.
Qed.

Lemma dropped_drops k x L L' :
  dropped k x L L' → StronglySorted str_lt L.*1 →
  drops k (list_to_map L) (list_to_map L').
Proof.
  intros Hd Hs. pose proof (sorted_keys _ Hs) as Hnd. destruct Hd as [L1 L2|L1 k2 x2 L2].
  - left. apply (assoc_delete _ (L1 ++ L2) k x Hnd). symmetry. apply Permutation_middle.
  - right. exists x.1, x.2, k2, x2.1, x2.2.
    assert ((list_to_map (L1 ++ (k, x) :: (k2, x2) :: L2) : dict) !! k = Some x) as Hk.
    { apply elem_of_list_to_map; [done|set_solver]. }
    assert ((list_to_map (L1 ++ (k, x) :: (k2, x2) :: L2) : dict) !! k2 = Some x2) as Hk2.
    { apply elem_of_list_to_map; [done|set_solver]. }
    rewrite Hk, Hk2. split; [by destruct x|]. split; [|split; [by destruct x2|]].
    + rewrite fmap_app in Hs. simpl in Hs. apply StronglySorted_app in Hs as (H1 & _ & H3).
      apply StronglySorted_inv in H3 as [H3 Hk']. apply StronglySorted_inv in H3 as [_ H2'].
      apply Forall_cons in Hk' as [Hk' _]. split; [done|]. split; [by rewrite Hk2|].
      intros k' [x' Hx'] Hlt. apply elem_of_list_to_map_2, (list_elem_of_fmap_2 fst) in Hx'. simpl in Hx'.
      rewrite fmap_app in Hx'. simpl in Hx'.
      apply elem_of_app in Hx' as [Hx'|[->|[->|Hx']%elem_of_cons]%elem_of_cons].
      * exfalso. apply (irreflexivity str_lt k). transitivity k'; [done|]. apply H1; [done|by left].
      * by apply (irreflexivity str_lt k) in Hlt.
      * by left.
      * right. by apply (proj1 (Forall_forall _ _) H2').
    + destruct (assoc_delete _ (L1 ++ (k2, x2) :: L2) k x Hnd) as [Hnd' <-]; [symmetry; apply Permutation_middle|].
      rewrite <-(assoc_insert _ (length L1) k2 x2); [|done|by rewrite list_lookup_middle].
      f_equal. rewrite insert_app_r_alt, Nat.sub_diag by done. done.
Qed.

(** Without expiry times a deletion is exact. *)
Lemma drops_timeless k m m' : timeless m → drops k m m' → m' = delete k m.
Proof.
  intros Hm [?|(p & e & k2 & p2 & e2 & Hk & [Hlt _] & Hk2 & ->)]; [done|].
  rewrite (Hm _ _ _ Hk), <-(Hm _ _ _ Hk2). apply insert_id. rewrite lookup_delete_ne; [done|].
  intros ->. by apply (irreflexivity str_lt k2) in Hlt.
Qed.

Lemma drops_missing k m m' : m !! k = None → drops k m m' → m' = m.
Proof. intros Hk [->|(? & ? & ? & ? & ? & ? & _)]; [by apply delete_id|congruence]. Qed.

Lemma drops_no_freed k m m' : no_freed m → drops k m m' → no_freed m'.
Proof.
  intros Hm [->|(p & e & k2 & p2 & e2 & Hk & _ & Hk2 & ->)] k' p' e'.
  - intros [_ ?]%lookup_delete_Some. eauto.
  - intros [[<- ?]|[_ [_ ?]%lookup_delete_Some]]%lookup_insert_Some; simplify_eq; eauto.
Qed.

Lemma drops_clean k m m' : clean m → drops k m m' → clean m'.
Proof.
  intros Hm [->|(p & e & k2 & p2 & e2 & Hk & _ & Hk2 & ->)] k' p' e'.
  - intros [_ ?]%lookup_delete_Some. eauto.
  - intros [[<- ?]|[_ [_ ?]%lookup_delete_Some]]%lookup_insert_Some; simplify_eq; eauto.
Qed.

(** ** Search, deletion and insertion on dictionaries *)

(** The search finds the key, or no such key is stored. *)
Lemma wp_find s T nil np X n k E i Q :
  rep s nil np X [] T → rb BLACK n T → sorted T →
  (k ∉ (inorder T).*1 → Q nil s i) →
  (∀ C a c l x r, rep s nil np X C (Node a c l k x r) → plug C (Node a c l k x r) = T → a ≠ nil →
     (list_to_map (inorder T) : dict) !! k = Some x → Q a s i) →
  wp (rbtree_search k) Q E s i.
Proof.
  intros H Hrb Hs Hno Hyes. eapply wp_rbtree_search; [exact H|done|].
  intros C t H' Heq Hp [->|(a & c & l & x & r & ->)]; simpl.
  - apply Hno. by eapply missing_abs.
  - eapply Hyes; [exact H'|done|by eapply rep_not_nil|by eapply found_abs].
Qed.

(** cur = rbtree_delete (..); kvs_free (cur->key); kvs_free (cur->value); kvs_free (cur); *)
Lemma wp_delete_free s nil np X C z c l k x r n E i (Q : unit → kvs_rbtree → nat → Prop) :
  rep s nil np X C (Node z c l k x r) → rb BLACK n (plug C (Node z c l k x r)) → x.1 ≠ PFreed →
  (∀ s' np' T n', rep s' nil np' X [] T → rb BLACK n' T →
     dropped k x (inorder (plug C (Node z c l k x r))) (inorder T) → Q tt s' i) →
  wp (rbtree_delete z) (λ cur s' i', wp (free_cur cur) Q E s' i') E s i.
Proof.
  intros H Hrb Hx HQ. eapply wp_rbtree_delete; [exact H|done|].
  intros s1 np' T b y n' H1 HT Hy Hd Hk Hv. unfold free_cur.
  destruct (rest_lookup _ _ _ _ _ _ _ _ H1 (lookup_insert_eq _ _ _)) as [Hout Hcell].
  unfold f_key, f_value, read_field, get_node. wp_steps. rewrite Hcell. wp_steps. rewrite Hk. wp_steps.
  apply wp_free; [done|]. wp_steps. rewrite Hcell. wp_steps. rewrite Hv. wp_steps. apply wp_free; [done|].
  eapply wp_free_outside; [exact H1|done|exact Hcell|]. intros s2 H2.
  rewrite delete_insert_id in H2 by done. eapply HQ; eauto.
Qed.

(** ** The operations of the engine *)

Lemma rb_wf_intro s nil np n T : rep s nil np ∅ [] T → rb BLACK n T → sorted T → no_freed (list_to_map (inorder T)) →
  rb_wf s ∧ rb_abs s = list_to_map (inorder T).
Proof.
  intros H Hrb Hs Hf. assert (rb_rep s T) as HT by (by exists nil, np, n).
  rewrite <-(rb_rep_abs _ _ HT) in *. split; [|done]. split; [by exists T|done].
Qed.

Lemma rb_dropped s nil np n T T0 k x :
  rep s nil np ∅ [] T → rb BLACK n T → sorted T0 → dropped k x (inorder T0) (inorder T) →
  no_freed (list_to_map (inorder T0)) →
  rb_wf s ∧ drops k (list_to_map (inorder T0)) (rb_abs s).
Proof.
  intros H Hrb Hs Hd Hf. pose proof (dropped_drops _ _ _ _ Hd Hs) as Hdr.
  destruct (rb_wf_intro s nil np n T) as [Hwf ->]; [done|done| | |done].
  - by eapply dropped_sorted.
  - by eapply drops_no_freed.
Qed.

Lemma rbtree_del_spec E s t k :
  rb_wf s →
  wp (kvs_rbtree_del (PStr k)) (λ r s' t',
    rb_wf s' ∧ t' = t ∧ r = (if rb_abs s !! k then 0 else 1) ∧ drops k (rb_abs s) (rb_abs s') ∧
    (rb_abs s !! k = None → s' = s)) E s t.
Proof.
  intros Hwf. pose proof Hwf as [[T HT] Hf]. rewrite (rb_rep_abs _ _ HT) in *.
  destruct HT as (nil & np & n & H & Hrb & Hs). unfold kvs_rbtree_del. apply wp_arg1. wp_steps.
  eapply wp_find; [exact H|done|done| |].
  - intros Hk. wp_steps. eapply wp_get_nil; [by eapply rp_nil|]. rewrite decide_True by done. wp_steps.
    apply not_elem_of_list_to_map in Hk. rewrite Hk. split_and!; [done|done|done| |done].
    left. rewrite delete_id by done. apply rb_rep_abs. by exists nil, np, n.
  - intros C a c l x r H1 HT Ha Hk. wp_steps. eapply wp_get_nil; [by eapply rp_nil|]. rewrite decide_False by done.
    rewrite Hk. wp_steps. eapply wp_mono.
    + eapply (wp_delete_free _ _ _ _ _ _ _ _ _ _ _ _ _ _ (λ _ s' t', rb_wf s' ∧ t' = t ∧
        drops k (list_to_map (inorder T)) (rb_abs s'))); [exact H1|by rewrite HT|by destruct x; eapply Hf|].
      intros s' np' T' n' H' HT' Hd. rewrite HT in Hd.
      by destruct (rb_dropped _ _ _ _ _ _ _ _ H' HT' Hs Hd Hf).
    + intros cur s1 t1 Hfree. apply wp_bind. eapply wp_mono; [exact Hfree|]. intros _ s2 t2 (? & ? & ?). done.
Qed.

(** A key of the dictionary at its node, and the writes to its value and expiry. *)
Lemma rep_update_entry s nil np X C a c l k x r x' n :
  rep s nil np X C (Node a c l k x r) → rb BLACK n (plug C (Node a c l k x r)) →
  sorted (plug C (Node a c l k x r)) →
  let s' := hset a (cell Lf c (root_of nil l) (root_of nil r) (up nil C) k x') s in
  let T' := plug C (Node a c l k x' r) in
  rep s' nil np X [] T' ∧ (∃ n', rb BLACK n' T') ∧ sorted T' ∧
  (list_to_map (inorder T') : dict) = <[k := x']> (list_to_map (inorder (plug C (Node a c l k x r)))).
Proof.
  intros H Hrb Hs s' T'. subst T'. split_and!.
  - apply (rep_recell Lf _ _ _ _ _ _ _ _ _ _ _ c k x') in H.
    by eapply rep_refocus; [|exact H].
  - destruct (unplug_rb _ _ _ Hrb) as (c' & m & Ht & HC & Hc). eapply plug_rb; [|exact HC|exact Hc].
    inversion Ht; subst; eauto using rb.
  - assert ((inorder (plug C (Node a c l k x' r))).*1 = (inorder (plug C (Node a c l k x r))).*1) as Heq.
    { rewrite !inorder_plug. simpl. by rewrite !fmap_app. }
    unfold sorted. by rewrite Heq.
  - unfold sorted in Hs. rewrite !inorder_plug in *. simpl in *.
    assert (∀ y, before C ++ (inorder l ++ (k, y) :: inorder r) ++ beyond C =
      (before C ++ inorder l) ++ (k, y) :: inorder r ++ beyond C) as Heq by (intros y; by rewrite <-!app_assoc).
    rewrite !Heq in *.
    rewrite <-(assoc_insert _ (length (before C ++ inorder l)) k x); [|by apply sorted_keys|by rewrite list_lookup_middle].
    f_equal. rewrite insert_app_r_alt, Nat.sub_diag by done. done.
Qed.

(** Where the engine holds a key. *)
Record located s k x nil np n C a c l r : Prop := {
  lo_rep : rep s nil np ∅ C (Node a c l k x r);
  lo_rb : rb BLACK n (plug C (Node a c l k x r));
  lo_sorted : sorted (plug C (Node a c l k x r));
  lo_abs : rb_abs s = list_to_map (inorder (plug C (Node a c l k x r)));
  lo_key : rb_abs s !! k = Some x
}.

(** The prefix of every operation: search, then compare with the sentinel. *)
Lemma wp_lookup {A} (no : M kvs_rbtree A) (yes : addr → M kvs_rbtree A) E s k t Q :
  rb_wf s →
  (rb_abs s !! k = None → wp no Q E s t) →
  (∀ x nil np n C a c l r, located s k x nil np n C a c l r → wp (yes a) Q E s t) →
  wp (node ← rbtree_search k; nil ← get_nil; if decide (node = nil) then no else yes node) Q E s t.
Proof.
  intros [[T HT] _] Hno Hyes. pose proof (rb_rep_abs _ _ HT) as Habs. destruct HT as (nil & np & n & H & Hrb & Hs).
  wp_steps. eapply wp_find; [exact H|done|done| |].
  - intros Hk. wp_steps. eapply wp_get_nil; [by eapply rp_nil|]. rewrite decide_True by done.
    apply Hno. rewrite Habs. by apply not_elem_of_list_to_map.
  - intros C a c l x r H1 Heq Ha Hk. wp_steps. eapply wp_get_nil; [by eapply rp_nil|]. rewrite decide_False by done.
    apply (Hyes x nil np n C a c l r). split; rewrite ?Heq; try done. by rewrite Habs.
Qed.

Section located.
Context (E : env) (s : kvs_rbtree) (k : bytes) (x : entry) (nil np : addr) (n : nat) (C : context)
  (a : addr) (c : color) (l r : tree).
Hypothesis HL : located s k x nil np n C a c l r.

Lemma located_cell : rb_heap s !! a = Some (cell Lf c (root_of nil l) (root_of nil r) (up nil C) k x).
Proof. eapply (rep_focus Lf), (lo_rep _ _ _ _ _ _ _ _ _ _ _ HL). Qed.

(** Writing the entry of the key. *)
Lemma located_write x' :
  rb_wf s → x'.1 ≠ PFreed →
  let s' := hset a (cell Lf c (root_of nil l) (root_of nil r) (up nil C) k x') s in
  rb_wf s' ∧ rb_abs s' = <[k := x']> (rb_abs s).
Proof.
  intros [_ Hf] Hx s'. destruct HL as [H Hrb Hs Habs Hk].
  destruct (rep_update_entry _ _ _ _ _ _ _ _ _ _ _ x' _ H Hrb Hs) as (H' & [n' Hrb'] & Hs' & Hmap).
  fold s' in H'. destruct (rb_wf_intro _ _ _ _ _ H' Hrb' Hs') as [Hwf ->]; [|by rewrite Hmap, Habs].
  rewrite Hmap, <-Habs. intros k' p e. destruct x' as [p' e'].
  intros [[_ [= <- _]]|[_ ?]]%lookup_insert_Some; eauto.
Qed.
End located.

Lemma rbtree_get_spec E s t k :
  rb_wf s →
  wp (kvs_rbtree_get (PStr k)) (λ r s' _,
    rb_wf s' ∧ r = default PNull (live (clock E t) (rb_abs s) k) ∧
    match rb_abs s !! k with
    | Some (_, e) => if is_expired (clock E t) e then drops k (rb_abs s) (rb_abs s') else s' = s
    | None => s' = s
    end) E s t.
Proof.
  intros Hwf. unfold kvs_rbtree_get. apply wp_arg1. apply wp_lookup; [done| |].
  - intros Hk. wp_steps. by rewrite (live_lookup_None _ _ _ Hk), Hk.
  - intros [p e] nil np n C a c l r HL. pose proof (lo_key _ _ _ _ _ _ _ _ _ _ _ HL) as Hk.
    rewrite (live_lookup_Some _ _ _ _ _ Hk), Hk. wp_steps.
    eapply wp_expire; [by eapply located_cell|]. cbn [snd].
    destruct (is_expired (clock E t) e) eqn:He.
    + wp_steps. eapply wp_mono; [by apply rbtree_del_spec|].
      intros r' s' t' (Hwf' & _ & _ & Hd & _). wp_steps. done.
    + eapply wp_value; [by eapply located_cell|]. done.
Qed.

Lemma rbtree_exist_spec E s t k :
  rb_wf s →
  wp (kvs_rbtree_exist (PStr k)) (λ r s' _,
    rb_wf s' ∧ r = (if live (clock E t) (rb_abs s) k then 0 else 1) ∧
    match rb_abs s !! k with
    | Some (_, e) => if is_expired (clock E t) e then drops k (rb_abs s) (rb_abs s') else s' = s
    | None => s' = s
    end) E s t.
Proof.
  intros Hwf. unfold kvs_rbtree_exist. apply wp_arg1. apply wp_lookup; [done| |].
  - intros Hk. wp_steps. by rewrite (live_lookup_None _ _ _ Hk), Hk.
  - intros [p e] nil np n C a c l r HL. pose proof (lo_key _ _ _ _ _ _ _ _ _ _ _ HL) as Hk.
    rewrite (live_lookup_Some _ _ _ _ _ Hk), Hk. wp_steps.
    eapply wp_expire; [by eapply located_cell|]. cbn [snd].
    destruct (is_expired (clock E t) e) eqn:He; wp_steps; [|done].
    eapply wp_mono; [by apply rbtree_del_spec|].
    intros r' s' t' (Hwf' & _ & _ & Hd & _). wp_steps. done.
Qed.

Lemma rbtree_mod_spec E s t k v :
  rb_wf s →
  wp (kvs_rbtree_mod (PStr k) (PStr v)) (λ r s' _,
    rb_wf s' ∧
    match rb_abs s !! k with
    | Some (_, e) =>
        if malloc_ok E t then r = 0 ∧ rb_abs s' = <[k := (PStr v, e)]> (rb_abs s)
        else r = -2 ∧ rb_abs s' = <[k := (PNull, e)]> (rb_abs s)
    | None => r = 1 ∧ s' = s
    end) E s t.
Proof.
  intros Hwf. unfold kvs_rbtree_mod. apply wp_arg2. apply wp_lookup; [done| |].
  - intros Hk. wp_steps. by rewrite Hk.
  - intros [p e] nil np n C a c l r HL. pose proof (lo_key _ _ _ _ _ _ _ _ _ _ _ HL) as Hk. rewrite Hk.
    wp_steps. eapply wp_value; [by eapply located_cell|]. wp_steps. apply wp_free; [by eapply Hwf|]. wp_steps.
    destruct (malloc_ok E t); cbn [negb]; wp_steps; (eapply wp_set_value; [by eapply located_cell|]); wp_steps.
    + destruct (located_write _ _ _ _ _ _ _ _ _ _ _ HL (PStr v, e) Hwf) as [Hw Ha]; [done|]. exact (conj Hw (conj eq_refl Ha)).
    + destruct (located_write _ _ _ _ _ _ _ _ _ _ _ HL (PNull, e) Hwf) as [Hw Ha]; [done|]. exact (conj Hw (conj eq_refl Ha)).
Qed.

Lemma rbtree_expire_spec E s t k e :
  rb_wf s →
  wp (kvs_rbtree_expire (PStr k) e) (λ r s' _,
    rb_wf s' ∧ r = (if rb_abs s !! k then 0 else 1) ∧
    match rb_abs s !! k with
    | Some (p, _) => if e =? 0 then drops k (rb_abs s) (rb_abs s') else rb_abs s' = <[k := (p, e)]> (rb_abs s)
    | None => s' = s
    end) E s t.
Proof.
  intros Hwf. unfold kvs_rbtree_expire. apply wp_arg1. apply wp_lookup; [done| |].
  - intros Hk. wp_steps. by rewrite Hk.
  - intros [p e0] nil np n C a c l r HL. pose proof (lo_key _ _ _ _ _ _ _ _ _ _ _ HL) as Hk. rewrite Hk.
    destruct (e =? 0).
    + eapply wp_mono; [by apply rbtree_del_spec|]. intros r' s' t' (? & _ & Hr & ? & _). by rewrite Hk in Hr.
    + wp_steps. eapply wp_set_expire; [by eapply located_cell|]. wp_steps.
      destruct (located_write _ _ _ _ _ _ _ _ _ _ _ HL (p, e) Hwf) as [Hw Ha]; [by eapply Hwf|].
      exact (conj Hw (conj eq_refl Ha)).
Qed.

Lemma rbtree_ttl_spec E s t k :
  rb_wf s → (∀ p e, rb_abs s !! k = Some (p, e) → LLONG_MIN ≤ e - clock E t ≤ LLONG_MAX) →
  wp (kvs_rbtree_ttl (PStr k)) (λ r s' _, s' = s ∧ r = spec_ttl (clock E t) k (rb_abs s)) E s t.
Proof.
  intros Hwf Hb. unfold kvs_rbtree_ttl, spec_ttl. apply wp_arg1. apply wp_lookup; [done| |].
  - intros Hk. wp_steps. by rewrite Hk.
  - intros [p e] nil np n C a c l r HL. pose proof (lo_key _ _ _ _ _ _ _ _ _ _ _ HL) as Hk. rewrite Hk.
    wp_steps. eapply wp_expire; [by eapply located_cell|]. cbn [snd].
    destruct (e =? -1); wp_steps; [done|]. apply wp_checked64; [by eapply Hb|]. by wp_steps.
Qed.

(** ** kvs_rbtree_set *)

Lemma rep_alloc s nil np T :
  rep s nil np ∅ [] T →
  rep (KRb (<[rb_fresh s := raw_node]> (rb_heap s)) (S (rb_fresh s)) (rb_root s) (rb_nil s)) nil np
      {[rb_fresh s := raw_node]} [] T.
Proof.
  intros H. pose proof H as [Hr Hn Hc Ht HC Hnd HX HO Hf].
  assert (∀ a, a ∈ nil :: addrs T ++ caddrs [] → a ≠ rb_fresh s) as Hne.
  { intros a Ha ->. destruct (rep_live _ _ _ _ _ _ _ H Ha) as [n' Hn']. rewrite Hf in Hn'; done. }
  split; simpl; try done.
  - rewrite lookup_insert_ne; [done|]. intros <-. by apply (Hne (rb_fresh s)); [left|].
  - eapply tree_at_frame; [done|]. intros a Ha. apply lookup_insert_ne. intros <-.
    apply (Hne (rb_fresh s)); [set_solver|done].
  - intros a Ha. destruct (decide (a = rb_fresh s)) as [->|]; simplify_map_eq; [done|]. by rewrite HX.
  - intros a Ha. apply lookup_singleton_None. intros <-. by apply (Hne (rb_fresh s)).
  - intros a Ha. rewrite lookup_insert_ne by lia. apply Hf. lia.
Qed.

(** Writing to the fresh node. *)
Lemma wp_write_fresh z n0 f s nil np T E t (Q : unit → kvs_rbtree → nat → Prop) :
  rep s nil np {[z := n0]} [] T →
  (∀ s', rep s' nil np {[z := f n0]} [] T → Q tt s' t) →
  wp (upd_node z f) Q E s t.
Proof.
  intros H HQ. destruct (rest_lookup _ _ _ _ _ _ z n0 H) as [Hout Hz]; [by simplify_map_eq|].
  eapply wp_upd_node; [exact Hz|]. apply HQ. eapply rep_outside in H; [|exact Hout|by eexists].
  by rewrite insert_singleton_eq in H.
Qed.

Lemma wp_free_fresh z n0 s nil np T E t (Q : unit → kvs_rbtree → nat → Prop) :
  rep s nil np {[z := n0]} [] T →
  (∀ s', rep s' nil np ∅ [] T → Q tt s' t) → wp (free_block z) Q E s t.
Proof.
  intros H HQ. destruct (rest_lookup _ _ _ _ _ _ z n0 H) as [Hout Hz]; [by simplify_map_eq|].
  eapply wp_free_outside; [exact H|done|exact Hz|]. intros s'. rewrite delete_singleton_eq. apply HQ.
Qed.

Lemma inserted_map k x Lo Hi L :
  StronglySorted str_lt (Lo ++ (k, x) :: Hi).*1 → L = Lo ++ Hi →
  (list_to_map (Lo ++ (k, x) :: Hi) : dict) = <[k := x]> (list_to_map L).
Proof.
  intros Hs ->. rewrite (list_to_map_proper _ ((k, x) :: Lo ++ Hi)); [done|by apply sorted_keys|].
  symmetry. apply Permutation_middle.
Qed.

Lemma drops_key k m m' : drops k m m' → m' !! k = None.
Proof.
  intros [->|(p & e & k2 & p2 & e2 & _ & [Hlt _] & _ & ->)]; [apply lookup_delete_eq|].
  rewrite lookup_insert_ne; [apply lookup_delete_eq|]. intros ->. by apply (irreflexivity str_lt k) in Hlt.
Qed.

(** The new node goes in; the tree does not hold its key. *)
Lemma wp_insert_fresh z k p e s nil np n T E t (Q : unit → kvs_rbtree → nat → Prop) :
  rep s nil np {[z := new_cell k (p, e)]} [] T → rb BLACK n T → sorted T → no_freed (list_to_map (inorder T)) →
  (list_to_map (inorder T) : dict) !! k = None → p ≠ PFreed →
  (∀ s', rb_wf s' → rb_abs s' = <[k := (p, e)]> (list_to_map (inorder T)) → Q tt s' t) →
  wp (rbtree_insert z) Q E s t.
Proof.
  intros H Hrb Hs Hf Hk Hp HQ. destruct (rest_lookup _ _ _ _ _ _ z _ H (lookup_singleton_eq _ _)) as [Hout Hz].
  simpl in Hout. rewrite app_nil_r in Hout.
  eapply wp_rbtree_insert; [exact H|done|done|by apply not_elem_of_list_to_map|exact Hout|exact Hz|].
  intros s' T' n' Lo Hi H' Hrb' Hs' HL Hin. rewrite delete_singleton_eq in H'.
  assert ((list_to_map (inorder T') : dict) = <[k := (p, e)]> (list_to_map (inorder T))) as Hmap.
  { rewrite Hin. unfold sorted in Hs'. rewrite Hin in Hs'. by apply inserted_map. }
  destruct (rb_wf_intro _ _ _ _ _ H' Hrb' Hs') as [Hwf Habs].
  { rewrite Hmap. intros k' p' e' [[_ [= <- _]]|[_ ?]]%lookup_insert_Some; eauto. }
  apply HQ; [done|]. by rewrite Habs, Hmap.
Qed.

(** Replacing: an old node of the key is deleted and freed first. *)
Lemma wp_replace {A} (K : M kvs_rbtree A) z k p e s nil np n T E t Q :
  rep s nil np {[z := new_cell k (p, e)]} [] T → rb BLACK n T → sorted T → no_freed (list_to_map (inorder T)) →
  p ≠ PFreed →
  (∀ s' m, rb_wf s' → drops k (list_to_map (inorder T)) m → rb_abs s' = <[k := (p, e)]> m → wp K Q E s' t) →
  wp (exist ← rbtree_search k;
      nil ← get_nil;
      (if decide (exist = nil) then mret tt else cur ← rbtree_delete exist; free_cur cur);;
      rbtree_insert z;; K) Q E s t.
Proof.
  intros H Hrb Hs Hf Hp HQ. wp_steps. eapply wp_find; [exact H|done|done| |].
  - intros Hk. wp_steps. eapply wp_get_nil; [by eapply rp_nil|]. wp_steps. rewrite decide_True by done. wp_steps.
    apply not_elem_of_list_to_map in Hk.
    eapply wp_insert_fresh; [exact H|done..|]. intros s' Hwf Habs. eapply HQ; [done|by left|].
    by rewrite Habs, delete_id.
  - intros C a c l x r H1 Heq Ha Hk. wp_steps. eapply wp_get_nil; [by eapply rp_nil|]. wp_steps.
    rewrite decide_False by done. wp_steps.
    eapply wp_delete_free; [exact H1|by rewrite Heq|by destruct x; eapply Hf|].
    intros s1 np' T' n' H' HT' Hd. rewrite Heq in Hd. pose proof (dropped_drops _ _ _ _ Hd Hs) as Hdr.
    wp_steps. eapply wp_insert_fresh; [exact H'|done|by eapply dropped_sorted|by eapply drops_no_freed|by eapply drops_key|done|].
    intros s' Hwf Habs. by eapply HQ.
Qed.

Lemma rbtree_set_spec E s t k v e :
  rb_wf s →
  wp (kvs_rbtree_set (PStr k) (PStr v) e) (λ r s' _,
    rb_wf s' ∧
    ((r = 0 ∧ ∃ m, drops k (rb_abs s) m ∧ rb_abs s' = <[k := (PStr v, e)]> m) ∨
     (¬ no_oom E ∧ r = -2 ∧ rb_abs s' = rb_abs s))) E s t.
Proof.
  intros Hwf. pose proof Hwf as [[T HT] Hf]. rewrite (rb_rep_abs _ _ HT) in *.
  destruct HT as (nil & np & n & H & Hrb & Hs).
  assert (∀ t', malloc_ok E t' = false → ¬ no_oom E) as Hoom by (intros t' Ht' HE; by rewrite HE in Ht').
  assert (∀ s', rep s' nil np ∅ [] T → rb_wf s' ∧ rb_abs s' = list_to_map (inorder T)) as Hsame.
  { intros s' H'. by eapply rb_wf_intro. }
  assert (∀ s', ¬ no_oom E → rb_wf s' → rb_abs s' = list_to_map (inorder T) →
    rb_wf s' ∧ (-2 = 0 ∧ (∃ m, drops k (list_to_map (inorder T)) m ∧ rb_abs s' = <[k := (PStr v, e)]> m) ∨
     ¬ no_oom E ∧ -2 = -2 ∧ rb_abs s' = list_to_map (inorder T))) as Hfail by tauto.
  unfold kvs_rbtree_set, alloc_node. apply wp_arg2. wp_steps.
  destruct (malloc_ok E t) eqn:Hm1; cbn [negb]; wp_steps.
  2: { destruct (Hsame s H). apply Hfail; [by eapply Hoom|done..]. }
  apply rep_alloc in H. destruct (malloc_ok E (S t)) eqn:Hm2; cbn [negb]; wp_steps.
  2: { eapply wp_free_fresh; [exact H|]. intros s1 H1. wp_steps. destruct (Hsame s1 H1). apply Hfail; [by eapply Hoom|done..]. }
  eapply wp_write_fresh; [exact H|]. intros s1 H1. wp_steps.
  destruct (malloc_ok E (S (S t))) eqn:Hm3; cbn [negb]; wp_steps.
  2: { apply wp_free; [done|]. wp_steps. eapply wp_free_fresh; [exact H1|]. intros s2 H2. wp_steps. destruct (Hsame s2 H2). apply Hfail; [by eapply Hoom|done..]. }
  eapply wp_write_fresh; [exact H1|]. intros s2 H2. wp_steps.
  eapply wp_write_fresh; [exact H2|]. intros s3 H3. cbv beta.
  eapply wp_replace; [exact H3|done..|]. intros s4 m Hwf4 Hd Habs. wp_steps. split; [done|]. left. split; [done|]. by exists m.
Qed.

(** ** The scan, when nothing has expired *)

Lemma wp_collect fuel s nil np X C t now acc E i (Q : list addr → kvs_rbtree → nat → Prop) :
  rep s nil np X C t → Forall (λ y, is_expired now y.2.2 = false) (inorder t) → (height t ≤ fuel)%nat →
  Q acc s i → wp (rbtree_collect_expired fuel (root_of nil t) nil now acc) Q E s i.
Proof.
  revert C t i Q. induction fuel as [|fuel IH]; intros C t i Q H Hex Hf HQ.
  { destruct t; [|simpl in Hf; lia]. simpl. by rewrite decide_True. }
  destruct t as [|a c l k x r]; simpl; [by rewrite decide_True|].
  rewrite decide_False by (by eapply rep_not_nil). wp_steps. simpl in Hf.
  pose proof (rep_focus Lf _ _ _ _ _ _ _ _ _ _ _ H) as Ha.
  simpl in Hex. apply Forall_app in Hex as [Hl [Hx Hr]%Forall_cons]. simpl in Hx.
  eapply (wp_near _ _ _ Lf); [exact Ha|]. wp_steps.
  eapply IH; [exact (proj1 (rep_down Lf _ _ _ _ _ _ _ _ _ _ _) H)|done|lia|]. wp_steps.
  eapply wp_expire; [exact Ha|]. cbv beta. rewrite Hx. cbn [andb]. wp_steps.
  eapply (wp_far _ _ _ Lf); [exact Ha|].
  eapply IH; [exact (proj1 (rep_across Lf _ _ _ _ _ _ _ _ _ _ _) H)|done|lia|done].
Qed.

Lemma rbtree_scan_idle E s t :
  rb_wf s → (∀ k p e, rb_abs s !! k = Some (p, e) → is_expired (clock E t) e = false) →
  wp kvs_rbtree_scan_expired (λ _ s' _, s' = s) E s t.
Proof.
  intros [[T HT] _] Hex. pose proof (rb_rep_abs _ _ HT) as Habs. destruct HT as (nil & np & n & H & Hrb & Hs).
  unfold kvs_rbtree_scan_expired, walk_fuel. wp_steps. eapply wp_get_root; [by eapply rp_root|]. wp_steps.
  eapply wp_get_nil; [by eapply rp_nil|]. wp_steps. cbn [plug].
  eapply wp_collect; [exact H| | |].
  - apply Forall_forall. intros [k [p e]] Hin. apply (Hex k p e). rewrite Habs.
    apply elem_of_list_to_map; [by apply sorted_keys|done].
  - pose proof (rep_size _ _ _ _ _ _ H). pose proof (height_addrs T). lia.
  - cbn [delete_collected]. wp_steps. done.
Qed.

(** ** The engine, for keys that do not expire *)

Definition rb_inv (s : kvs_rbtree) : Prop := rb_wf s ∧ clean (rb_abs s) ∧ timeless (rb_abs s).

Lemma timeless_insert k p m : timeless m → timeless (<[k := (p, -1)]> m).
Proof. intros Hm k' p' e' [[_ ?]|[_ ?]]%lookup_insert_Some; [naive_solver|eauto]. Qed.
Lemma timeless_delete k m : timeless m → timeless (delete k m).
Proof. intros Hm k' p' e' [_ ?]%lookup_delete_Some. eauto. Qed.
Lemma timeless_purge_all now m : timeless m → purge_all now m = m.
Proof.
  intros Hm. apply map_eq. intros k. rewrite purge_all_lookup.
  destruct (m !! k) as [[p e]|] eqn:Hk; simpl; [|done]. by rewrite (Hm _ _ _ Hk).
Qed.
Lemma timeless_purge now k m : timeless m → purge now k m = m.
Proof.
  intros Hm. unfold purge. destruct (m !! k) as [[p e]|] eqn:Hk; [|done]. by rewrite (Hm _ _ _ Hk).
Qed.
#[export] Hint Resolve timeless_insert timeless_delete : kvs.

Lemma rb_inv_intro s m : rb_wf s → rb_abs s = m → clean m → timeless m → rb_inv s.
Proof. intros ? <- ? ?. done. Qed.

#[global] Program Instance rbtree_engine : Engine kvs_rbtree := {|
  e_inv := rb_inv;
  e_abs := rb_abs;
  e_key := λ _, True;
  e_time := λ e, e = -1;
  e_room := λ _, True
|}.
Next Obligation. by intros s (_ & ? & _). Qed.
Next Obligation. done. Qed.
Next Obligation.
  intros E s t k v e Hoom (Hwf & Hc & Ht) _ -> _. eapply wp_mono; [by apply rbtree_set_spec|].
  simpl. intros r s' _ (Hwf' & [(-> & m & Hd & Habs)|[? _]]); [|done].
  apply drops_timeless in Hd as ->; [|done].
  rewrite insert_delete_eq in Habs.
  split; [|done]. eapply rb_inv_intro; eauto with kvs.
Qed.
Next Obligation.
  intros E s t k Hoom (Hwf & Hc & Ht) _. eapply wp_mono; [by apply rbtree_get_spec|].
  simpl. intros r s' _ (Hwf' & -> & Hm). rewrite timeless_purge by done.
  destruct (rb_abs s !! k) as [[p e]|] eqn:Hk; [rewrite (Ht _ _ _ Hk) in Hm|]; simpl in Hm; subst s'; done.
Qed.
Next Obligation.
  intros E s t k Hoom (Hwf & Hc & Ht) _. eapply wp_mono; [by apply rbtree_del_spec|].
  simpl. intros r s' _ (Hwf' & _ & -> & Hd & _). apply drops_timeless in Hd; [|done].
  split; [|done]. eapply rb_inv_intro; eauto with kvs.
Qed.
Next Obligation.
  intros E s t k v Hoom (Hwf & Hc & Ht) _. eapply wp_mono; [by apply rbtree_mod_spec|].
  simpl. intros r s' _ (Hwf' & Hm). rewrite Hoom in Hm.
  destruct (rb_abs s !! k) as [[p e]|] eqn:Hk; destruct Hm as [-> Hm].
  - rewrite (Ht _ _ _ Hk) in *. split; [|done]. eapply rb_inv_intro; eauto with kvs.
  - by subst s'.
Qed.
Next Obligation.
  intros E s t k Hoom (Hwf & Hc & Ht) _. eapply wp_mono; [by apply rbtree_exist_spec|].
  simpl. intros r s' _ (Hwf' & -> & Hm).
  destruct (rb_abs s !! k) as [[p e]|] eqn:Hk; [rewrite (Ht _ _ _ Hk) in Hm|]; simpl in Hm; subst s';
    (split; [done|split; [done|by left]]).
Qed.
Next Obligation.
  intros E s t k e Hoom (Hwf & Hc & Ht) _ He. eapply wp_mono; [by apply rbtree_expire_spec|].
  simpl. intros r s' _ (Hwf' & -> & Hm). unfold spec_expire.
  destruct (rb_abs s !! k) as [[p e0]|] eqn:Hk; [|by subst s'].
  destruct He as [-> | ->]; simpl in Hm |- *; [apply drops_timeless in Hm; [|done]|];
    (split; [eapply rb_inv_intro; eauto with kvs|done]).
Qed.
Next Obligation.
  intros E s t k Hoom (Hwf & Hc & Ht) _ Hb. by apply rbtree_ttl_spec.
Qed.
Next Obligation.
  intros E s t Hoom (Hwf & Hc & Ht). eapply wp_mono; [apply rbtree_scan_idle; [done|]|].
  - intros k p e Hk. by rewrite (Ht _ _ _ Hk).
  - simpl. intros _ s' _ ->. by rewrite timeless_purge_all.
Qed.
