(* ===== verification/RbtreeProps.v ===== *)
(** * Properties of the red-black tree engine

    Creation and destruction, the bound on the search path, and the claims about
    the operations of kvs_rbtree.c. *)

From stdpp Require Import sorting.
From S2P Require Import Prelude KvSpec KvsRbtree RbtreeShape RbtreeRotate RbtreeInsert RbtreeSearch RbtreeDelete RbtreeUnlink RbtreeEngine.

Implicit Types (nil np : addr) (T : tree) (k v : bytes) (x : entry) (L : list (bytes * entry)) (m : dict) (s : kvs_rbtree).

(** ** Creation *)

Definition empty_tree : kvs_rbtree := KRb {[0%nat := nil_cell 0 0]} 1 (Some 0%nat) (Some 0%nat).

Lemma empty_tree_wf : rb_wf empty_tree ∧ rb_abs empty_tree = ∅.
Proof.
  eapply (rb_wf_intro _ 0%nat 0%nat 0%nat Leaf); [|constructor|constructor|].
  - split; simpl; try done.
    + apply NoDup_singleton.
    + intros a Ha. rewrite lookup_singleton_ne by set_solver. done.
    + intros a Ha. apply lookup_singleton_ne. lia.
  - intros k p e H. change ((∅ : dict) !! k = Some (p, e)) in H. by rewrite lookup_empty in H.
Qed.

Lemma rbtree_create_run E t :
  malloc_ok E t = true → kvs_rbtree_create E global_rbtree0 t = Done (0, empty_tree, S t).
Proof.
  intros Hm. unfold kvs_rbtree_create, alloc_node, kvs_malloc, mbind, M_bind. rewrite Hm. vm_compute. reflexivity.
Qed.

Lemma rbtree_create_spec E t :
  malloc_ok E t = true →
  wp kvs_rbtree_create (λ r s' _, r = 0 ∧ rb_wf s' ∧ rb_abs s' = ∅) E global_rbtree0 t.
Proof. intros Hm. unfold wp. rewrite (rbtree_create_run _ _ Hm). split; [done|]. apply empty_tree_wf. Qed.

(** ** Destruction *)

Lemma dropped_length k x L L' : dropped k x L L' → length L = S (length L').
Proof. destruct 1; rewrite !length_app; simpl; lia. Qed.

Lemma free_nonnull_wp p E s t (Q : unit → kvs_rbtree → nat → Prop) :
  p ≠ PFreed → Q tt s t → wp (free_nonnull p) Q E s t.
Proof. destruct p; [done|done|done]. Qed.

Lemma wp_destory_loop fuel s nil np n T E t (Q : unit → kvs_rbtree → nat → Prop) :
  rep s nil np ∅ [] T → rb BLACK n T → sorted T → no_freed (list_to_map (inorder T)) →
  (length (inorder T) ≤ fuel)%nat →
  (∀ s' np', rep s' nil np' ∅ [] Leaf → Q tt s' t) →
  wp (destory_loop fuel) Q E s t.
Proof.
  revert s np n T. induction fuel as [|fuel IH]; intros s np n T H Hrb Hs Hf Hlen HQ; simpl; wp_steps;
    (eapply wp_get_root; [by eapply rp_root|]); wp_steps; (eapply wp_get_nil; [by eapply rp_nil|]); cbn [plug].
  - destruct T; [|simpl in Hlen; rewrite length_app in Hlen; simpl in Hlen; lia]. simpl. rewrite decide_True by done. by eapply HQ.
  - assert (T = Leaf ∨ T ≠ Leaf) as [->|HT] by (destruct T; [by left|by right]); [simpl; rewrite decide_True by done; by eapply HQ|].
    rewrite decide_False.
    2: { destruct T; [done|]. by eapply rep_not_nil. }
    wp_steps. unfold rbtree_mini, walk_fuel. wp_steps. eapply wp_get_nil; [by eapply rp_nil|]. wp_steps.
    eapply wp_mini_loop; [exact H|done| |].
    { pose proof (rep_size _ _ _ _ _ _ H). lia. }
    intros D a c k x u H1 _ Heq. wp_steps. rewrite app_nil_r in H1.
    eapply wp_rbtree_delete; [exact H1|by rewrite Heq|]. rewrite Heq.
    intros s1 np' T' b y n' H2 HT' Hy Hd Hk Hv.
    destruct (rest_lookup _ _ _ _ _ _ _ _ H2 (lookup_insert_eq _ _ _)) as [Hout Hcell].
    unfold f_key, f_value, read_field, get_node. wp_steps. rewrite Hcell. wp_steps. rewrite Hk. wp_steps.
    apply free_nonnull_wp; [done|]. wp_steps. rewrite Hcell. wp_steps. rewrite Hv. wp_steps. apply free_nonnull_wp.
    { destruct x as [p e]. eapply (Hf k p e). eapply (found_abs D a c Leaf k (p, e) u); done. }
    wp_steps. eapply wp_free_outside; [exact H2|done|exact Hcell|]. intros s2 H3.
    rewrite delete_insert_id in H3 by done. apply dropped_length in Hd as Hl.
    eapply IH; [exact H3|done|by eapply dropped_sorted| |lia|done].
    eapply drops_no_freed; [exact Hf|]. by eapply dropped_drops.
Qed.

Lemma inorder_addrs T : length (inorder T) = length (addrs T).
Proof. induction T as [|a c l IHl k x r IHr]; simpl; [done|]. rewrite !length_app. simpl. lia. Qed.

Lemma rbtree_destory_spec E s t :
  rb_wf s → wp kvs_rbtree_destory (λ _ s' t', rb_heap s' = ∅ ∧ rb_nil s' = None ∧ t' = t) E s t.
Proof.
  intros [[T HT] Hf]. rewrite (rb_rep_abs _ _ HT) in Hf. destruct HT as (nil & np & n & H & Hrb & Hs).
  unfold kvs_rbtree_destory, walk_fuel. wp_steps. eapply wp_destory_loop; [exact H|done|done|done| |].
  { pose proof (rep_size _ _ _ _ _ _ H). rewrite inorder_addrs. lia. }
  intros s1 np1 H1. wp_steps. rewrite (rp_nil _ _ _ _ _ _ H1). unfold free_block, get_node. wp_steps.
  rewrite (rp_cell _ _ _ _ _ _ H1). wp_steps. simpl. split; [|done]. apply map_eq. intros a.
  rewrite lookup_empty. destruct (decide (a = nil)) as [->|]; simplify_map_eq; [done|].
  rewrite (rp_rest _ _ _ _ _ _ H1); [done|]. simpl. set_solver.
Qed.

(** ** The length of the search path *)

Lemma rb_height c n T : rb c n T → (height T ≤ 2 * n + (if c is RED then 1 else 0) ∧ 2 ^ n ≤ S (length (addrs T)))%nat.
Proof.
  induction 1 as [|n a l k x r _ IHl _ IHr|n c1 c2 a l k x r _ IHl _ IHr]; simpl; [lia|..];
    rewrite length_app; [lia|]. destruct c1, c2; lia.
Qed.

(** More fuel changes nothing. *)
Lemma search_loop_fuel f f' nil k a E s t y :
  (f ≤ f')%nat → search_loop f nil k a E s t = Done y → search_loop f' nil k a E s t = Done y.
Proof.
  revert f' a s t. induction f as [|f IH]; intros f' a s t Hle Hr.
  - simpl in Hr. destruct f'; simpl; destruct (decide (a = nil)); done.
  - destruct f' as [|f']; [lia|]. simpl in *. destruct (decide (a = nil)); [done|].
    revert Hr. unfold mbind, M_bind.
    destruct (f_key a E s t) as [[[kp s1] t1]|]; [|done]. destruct (read_str kp E s1 t1) as [[[k' s2] t2]|]; [|done].
    destruct (strcmp k k' <? 0); [|destruct (strcmp k k' >? 0); [|done]].
    + destruct (f_left a E s2 t2) as [[[b s3] t3]|]; [|done]. apply IH. lia.
    + destruct (f_right a E s2 t2) as [[[b s3] t3]|]; [|done]. apply IH. lia.
Qed.

(** The nodes a search visits: at most twice the binary logarithm of the number of
    keys plus one. *)
Definition search_bound (m : dict) : nat := 2 * Nat.log2 (S (size m)).

(** ** Concrete trees *)

Definition rb_of (l : list (string * Z)) : kvs_rbtree :=
  foldl (λ s '(k, e), after (kvs_rbtree_set (PStr (lit k)) (PStr (lit "v")) e) s) empty_tree l.

Lemma rb_of_wf l : rb_wf (rb_of l).
Proof.
  unfold rb_of. assert (rb_wf empty_tree) as H0 by apply empty_tree_wf. revert H0. generalize empty_tree.
  induction l as [|[k e] l IH]; intros s Hs; simpl; [done|]. apply IH. apply wp_after.
  eapply wp_mono; [by apply rbtree_set_spec|]. intros r s' t' [? _]. done.
Qed.

Definition abc : kvs_rbtree := rb_of [("b", 500); ("a", -1); ("c", -1)].

Lemma abc_abs : rb_abs abc =
  {[lit "a" := (PStr (lit "v"), -1); lit "b" := (PStr (lit "v"), 500); lit "c" := (PStr (lit "v"), -1)]}.
Proof. apply (bool_decide_eq_true_1 _). vm_compute. reflexivity. Qed.

(** ** Claims *)

(** C18: kvs_rbtree_set with any key, value and expiry: the heap holds exactly a
    red-black search tree afterwards, the key has the new entry, and the rest is
    what a deletion of the old entry leaves. It fails only when malloc does, and
    then leaves the dictionary and no node outside the tree. *)
Theorem rbtree_set_outcome E s t k v e :
  rb_wf s →
  wp (kvs_rbtree_set (PStr k) (PStr v) e) (λ r s' _,
    rb_wf s' ∧
    ((r = 0 ∧ ∃ m, drops k (rb_abs s) m ∧ rb_abs s' = <[k := (PStr v, e)]> m) ∨
     (¬ no_oom E ∧ r = -2 ∧ rb_abs s' = rb_abs s))) E s t.
Proof. apply rbtree_set_spec. Qed.

Lemma rbtree_set_outcome_witness :
  wp (kvs_rbtree_set (PStr (lit "d")) (PStr (lit "w")) 7) (λ r s' _,
    rb_wf s' ∧ r = 0 ∧ rb_abs s' !! lit "d" = Some (PStr (lit "w"), 7)) calm abc 0.
Proof.
  eapply wp_mono; [exact (rbtree_set_outcome calm abc 0 (lit "d") (lit "w") 7 (rb_of_wf _))|].
  intros r s' t' [Hwf [(Hr & m & _ & Habs)|[Hoom _]]].
  - rewrite Habs. split_and!; [done|done|apply lookup_insert_eq].
  - by destruct (Hoom calm_no_oom).
Defined.

(** C17: kvs_rbtree_del rebalances to a red-black search tree, frees exactly one
    node and removes exactly the key; the next key either keeps its expiry time or
    inherits that of the deleted key. *)
Theorem rbtree_del_outcome E s t k :
  rb_wf s →
  wp (kvs_rbtree_del (PStr k)) (λ r s' _,
    rb_wf s' ∧ r = (if rb_abs s !! k then 0 else 1) ∧ drops k (rb_abs s) (rb_abs s') ∧
    (rb_abs s !! k = None → s' = s)) E s t.
Proof. intros H. eapply wp_mono; [by apply rbtree_del_spec|]. intros r s' t' (? & _ & ?). done. Qed.

Lemma rbtree_del_outcome_witness :
  wp (kvs_rbtree_del (PStr (lit "a"))) (λ r s' _,
    rb_wf s' ∧ r = 0 ∧ drops (lit "a") (rb_abs abc) (rb_abs s')) calm abc 0.
Proof.
  eapply wp_mono; [exact (rbtree_del_outcome calm abc 0 (lit "a") (rb_of_wf _))|].
  intros r s' t' (Hwf & Hr & Hd & _). split; [exact Hwf|]. split; [|exact Hd].
  rewrite Hr, abc_abs. vm_compute. reflexivity.
Defined.

(** C25: A search of the tree visits at most 2 log2 (n + 1) of its n nodes. *)
Theorem rbtree_search_logarithmic E s t k :
  rb_wf s →
  ∃ a, rbtree_search k E s t = Done (a, s, t) ∧
    (nil ← get_nil; root ← get_root; search_loop (search_bound (rb_abs s)) nil k root) E s t = Done (a, s, t).
Proof.
  intros [[T HT] _]. unfold search_bound. rewrite (rb_rep_abs _ _ HT). destruct HT as (nil & np & n & H & Hrb & Hs).
  rewrite map_size_list_to_map, inorder_addrs by (by apply sorted_keys).
  destruct (rb_height _ _ _ Hrb) as [Hh Hn].
  assert (n ≤ Nat.log2 (S (length (addrs T))))%nat as Hlog by (apply Nat.log2_le_pow2; lia).
  assert (wp (search_loop (height T) nil k (root_of nil T)) (λ _ s' t', s' = s ∧ t' = t) E s t) as Hwp.
  { eapply (wp_search_loop _ _ _ _ _ _ _ []); [exact H|done|apply path_root|lia|done]. }
  apply wp_run in Hwp as (a & s' & t' & Hrun & -> & ->). exists a.
  assert (get_nil E s t = Done (nil, s, t)) as Hnil.
  { unfold get_nil, mbind, M_bind, gets. by rewrite (rp_nil _ _ _ _ _ _ H). }
  assert (get_root E s t = Done (root_of nil T, s, t)) as Hroot.
  { unfold get_root, mbind, M_bind, gets. by rewrite (rp_root _ _ _ _ _ _ H). }
  unfold rbtree_search, walk_fuel, mbind, M_bind, gets. rewrite Hnil, Hroot.
  split; (eapply search_loop_fuel; [|exact Hrun]); [|lia].
  pose proof (rep_size _ _ _ _ _ _ H). pose proof (height_addrs T). simpl in *. lia.
Qed.

Lemma rbtree_search_logarithmic_witness :
  ∃ a, rbtree_search (lit "c") calm abc 0%nat = Done (a, abc, 0%nat) ∧
    (nil ← get_nil; root ← get_root; search_loop 4 nil (lit "c") root) calm abc 0%nat = Done (a, abc, 0%nat).
Proof.
  destruct (rbtree_search_logarithmic calm abc 0 (lit "c") (rb_of_wf _)) as (a & Hs & Hb). exists a. split; [exact Hs|].
  assert (search_bound (rb_abs abc) = 4%nat) as Heq by (rewrite abc_abs; vm_compute; reflexivity).
  rewrite Heq in Hb. exact Hb.
Defined.

(** Kvs_rbtree_destory runs to the end and frees every node of the tree and
    the sentinel, each once. *)
Theorem rbtree_destory_frees_all E s t :
  rb_wf s → wp kvs_rbtree_destory (λ _ s' _, rb_heap s' = ∅ ∧ rb_nil s' = None) E s t.
Proof. intros H. eapply wp_mono; [by apply rbtree_destory_spec|]. intros r s' t' (? & ? & _). done. Qed.

Lemma rbtree_destory_frees_all_witness :
  wp kvs_rbtree_destory (λ _ s' _, rb_heap s' = ∅ ∧ rb_nil s' = None) calm abc 0.
Proof. exact (rbtree_destory_frees_all calm abc 0 (rb_of_wf _)). Defined.

(** Deleting a key that expires can make another key expire: in the tree with
    "a" and "c", which never expire, and "b", which expired at 500, RDEL of "b"
    leaves "c" with the expiry 500, and the next RGET of "c" returns NULL. *)
Theorem rbtree_del_moves_expiry :
  rb_abs abc !! lit "c" = Some (PStr (lit "v"), -1) ∧
  wp (kvs_rbtree_del (PStr (lit "b"));; kvs_rbtree_get (PStr (lit "c")))
     (λ r s' _, r = PNull ∧ rb_abs s' !! lit "c" = None) calm abc 0 ∧
  wp (kvs_rbtree_get (PStr (lit "c"))) (λ r _ _, r = PStr (lit "v")) calm abc 0.
Proof. split_and!; vm_compute; try split; reflexivity. Qed.

(** The expiry scan uses a freed node: it collects addresses first, and
    deleting one of them moves the successor's entry into it and frees the
    successor's node, which may be collected too. *)
Theorem rbtree_scan_use_after_free :
  kvs_rbtree_scan_expired calm (rb_of [("b", 500); ("a", -1); ("c", 600)]) 0%nat = Fault UseAfterFree.
Proof. vm_compute. reflexivity. Qed.
