(* ===== verification/Aof.v ===== *)
(** * The append-only file (kvs_persistence.c)

    Commands that changed data go through a ring from the command thread to a
    worker thread that writes them to the file. This file holds the ring's
    operations as the command layer calls them, and a step relation in which the
    producer's and the worker's memory operations interleave one by one. *)

From S2P Require Import Prelude.

(** ** Data *)

(** struct aof_ring. A slot holds NULL (absent) or a buffer whose length is in
    [lens]. The indices are never reduced, so they are natural numbers: 2^64
    appends are out of reach. *)
Record aof_ring := Ring {
  slots     : gmap nat bytes;
  capacity  : nat;
  write_idx : nat;
  read_idx  : nat;
  io_error  : bool
}.

(** The persistence module's globals and the content of the file. *)
Record aof := Aof {
  a_ring    : aof_ring;
  a_file    : bytes;
  a_loading : bool;      (* loading_aof *)
  a_on      : bool       (* g_config.appendonly *)
}.

Definition AOF_RING_CAPACITY : nat := Nat.pow 2 24.

Definition set_ring (r : aof_ring) : M aof unit :=
  modify (λ a, Aof r (a_file a) (a_loading a) (a_on a)).
Definition append_file (b : bytes) : M aof unit :=
  modify (λ a, Aof (a_ring a) (a_file a ++ b) (a_loading a) (a_on a)).

(** ** Initialisation: the ring part of kvs_persistence_init *)

Definition kvs_persistence_init (cap : nat) : M aof Z :=
  on ← gets a_on;
  if negb on then mret 0 else
  ok1 ← kvs_malloc;
  ok2 ← kvs_malloc;
  if negb (ok1 && ok2) then mret (-1) else
  set_ring (Ring ∅ cap 0 0 false);;
  mret 0.

(** ** The worker in always mode: one iteration of its loop *)

Definition aof_always_step : M aof unit :=
  r ← gets a_ring;
  if decide (write_idx r = read_idx r) then mret tt else
  let idx := (read_idx r mod capacity r)%nat in
  (match slots r !! idx with
   | None => mret tt
   | Some data =>
       w ← file_write data;
       append_file w;;
       r ← gets a_ring;
       set_ring (Ring (delete idx (slots r)) (capacity r) (write_idx r) (read_idx r)
                      (io_error r || negb (bool_decide (length w = length data))))
   end);;
  r ← gets a_ring;
  set_ring (Ring (slots r) (capacity r) (write_idx r) (S (read_idx r)) (io_error r)).

(** The loop until the queue is empty, as the worker runs when it is stopped. *)
Fixpoint aof_drain (fuel : nat) : M aof unit :=
  r ← gets a_ring;
  if decide (read_idx r < write_idx r)%nat then
    match fuel with
    | O => fail OutOfFuel
    | S fuel' => aof_always_step;; aof_drain fuel'
    end
  else mret tt.

(** ** The producer *)

(** while (write_idx - read_idx >= capacity) usleep(...): while the command
    thread sleeps, the worker runs one iteration. *)
Fixpoint wait_space (fuel : nat) : M aof bool :=
  r ← gets a_ring;
  if decide (write_idx r - read_idx r < capacity r)%nat then mret true else
  match fuel with
  | O => fail OutOfFuel
  | S fuel' =>
      aof_always_step;;
      r ← gets a_ring;
      if io_error r then mret false else wait_space fuel'
  end.

Definition kvs_persistence_append (cmd : bytes) (len : Z) : M aof Z :=
  loading ← gets a_loading;
  on ← gets a_on;
  if loading || negb on then mret 0 else
  if len <=? 0 then mret (-1) else
  r ← gets a_ring;
  if io_error r then mret (-1) else
  ok ← kvs_malloc;
  if negb ok then mret (-1) else
  space ← wait_space 1;
  if negb space then mret (-1) else
  r ← gets a_ring;
  let idx := (write_idx r mod capacity r)%nat in
  set_ring (Ring (<[idx := take (Z.to_nat len) cmd]> (slots r)) (capacity r)
                 (S (write_idx r)) (read_idx r) (io_error r));;
  mret 0.

#[global] Arguments aof_always_step : simpl never.

(** ** The ring is a queue *)

(** The ring holds the commands [q], oldest first, in the slots of the indices
    from [read_idx] on; every other slot is NULL. *)
Record ring_rep (r : aof_ring) (q : list bytes) : Prop := {
  rr_cap   : (0 < capacity r)%nat;
  rr_len   : (write_idx r = read_idx r + length q)%nat;
  rr_fit   : (length q ≤ capacity r)%nat;
  rr_slots : ∀ i d, q !! i = Some d → slots r !! ((read_idx r + i) mod capacity r)%nat = Some d;
  rr_other : ∀ j, (∀ i, (i < length q)%nat → j ≠ ((read_idx r + i) mod capacity r)%nat) → slots r !! j = None
}.

(** Two indices of the window never fall on the same slot. *)
Lemma window_inj (c a i j : nat) :
  (0 < c)%nat → (i < c)%nat → (j < c)%nat → ((a + i) mod c = (a + j) mod c)%nat → i = j.
Proof.
  intros Hc Hi Hj Heq.
  pose proof (Nat.div_mod_eq (a + i) c). pose proof (Nat.div_mod_eq (a + j) c).
  assert (((a + i) / c = (a + j) / c) ∨ ((a + i) / c < (a + j) / c) ∨ ((a + j) / c < (a + i) / c))%nat
    as [Hd|[Hd|Hd]] by lia; nia.
Qed.

Lemma ring_rep_pop r d q :
  ring_rep r (d :: q) →
  ring_rep (Ring (delete (read_idx r mod capacity r)%nat (slots r)) (capacity r) (write_idx r)
              (S (read_idx r)) (io_error r)) q ∧
  slots r !! (read_idx r mod capacity r)%nat = Some d.
Proof.
  intros [Hc Hl Hf Hs Ho]. simpl in *.
  assert (slots r !! (read_idx r mod capacity r)%nat = Some d) as Hd.
  { specialize (Hs 0%nat d eq_refl). by rewrite Nat.add_0_r in Hs. }
  split; [|done]. split; simpl; [done|lia|lia| |].
  - intros i x Hi. apply lookup_lt_Some in Hi as Hlt. rewrite lookup_delete_ne.
    + specialize (Hs (S i) x Hi). by rewrite Nat.add_succ_r in Hs.
    + intros Heq. pose proof (window_inj (capacity r) (read_idx r) 0 (S i) Hc ltac:(lia) ltac:(lia)).
      rewrite Nat.add_0_r, Nat.add_succ_r in *. simpl in *. lia.
  - intros j Hj. destruct (decide (j = read_idx r mod capacity r)%nat) as [->|Hne].
    + apply lookup_delete_eq.
    + rewrite lookup_delete_ne by done. apply Ho. intros [|i] Hi.
      * by rewrite Nat.add_0_r.
      * rewrite Nat.add_succ_r. apply Hj. lia.
Qed.

Lemma ring_rep_push r q d :
  ring_rep r q → (length q < capacity r)%nat →
  ring_rep (Ring (<[(write_idx r mod capacity r)%nat := d]> (slots r)) (capacity r)
              (S (write_idx r)) (read_idx r) (io_error r)) (q ++ [d]) ∧
  slots r !! (write_idx r mod capacity r)%nat = None.
Proof.
  intros [Hc Hl Hf Hs Ho] Hlt. split.
  - split; simpl; [done|rewrite length_app; simpl; lia|rewrite length_app; simpl; lia| |].
    + intros i x [Hi|[Hge Hi]]%lookup_app_Some.
      * apply lookup_lt_Some in Hi as Hi'. rewrite lookup_insert_ne; [by apply Hs|].
        rewrite Hl. intros Heq.
        pose proof (window_inj (capacity r) (read_idx r) (length q) i Hc ltac:(lia) ltac:(lia) Heq). lia.
      * destruct (i - length q)%nat eqn:Hd; simplify_eq/=.
        replace (read_idx r + i)%nat with (write_idx r) by lia. apply lookup_insert_eq.
    + intros j Hj. rewrite lookup_insert_ne.
      * apply Ho. intros i Hi. apply Hj. rewrite length_app. simpl. lia.
      * rewrite Hl. intros <-. apply (Hj (length q)); [rewrite length_app; simpl; lia|done].
  - apply Ho. intros i Hi Heq. rewrite Hl in Heq.
    pose proof (window_inj (capacity r) (read_idx r) (length q) i Hc ltac:(lia) ltac:(lia) Heq). lia.
Qed.

Lemma ring_rep_error r q e :
  ring_rep r q → ring_rep (Ring (slots r) (capacity r) (write_idx r) (read_idx r) e) q.
Proof. by intros [? ? ? ? ?]. Qed.

Lemma ring_empty cap e : (0 < cap)%nat → ring_rep (Ring ∅ cap 0 0 e) [].
Proof. intros Hc. split; simpl; [done|lia|lia|done|]. intros j _. apply lookup_empty. Qed.

(** One iteration of the worker moves the oldest command to the file. *)
Lemma always_step_spec E a q t :
  ring_rep (a_ring a) q → io_good E →
  wp aof_always_step (λ _ a' _,
    ring_rep (a_ring a') (tail q) ∧ a_file a' = a_file a ++ default [] (head q) ∧
    io_error (a_ring a') = io_error (a_ring a) ∧
    capacity (a_ring a') = capacity (a_ring a) ∧ a_on a' = a_on a ∧ a_loading a' = a_loading a) E a t.
Proof.
  intros Hr Hio. unfold aof_always_step, append_file, set_ring. wp_steps.
  destruct q as [|d q].
  - rewrite decide_True by (rewrite (rr_len _ _ Hr); simpl; lia). wp_steps. simpl.
    rewrite app_nil_r. done.
  - rewrite decide_False by (rewrite (rr_len _ _ Hr); simpl; lia).
    destruct (ring_rep_pop _ _ _ Hr) as [Hr' Hd]. wp_steps. rewrite Hd. wp_steps. simpl. wp_steps. simpl.
    rewrite Hio, Nat.sub_0_r, firstn_all. rewrite bool_decide_true by done. simpl.
    rewrite orb_false_r. done.
Qed.

(** Draining writes everything that was queued, in order. *)
Lemma aof_drain_spec E a q t fuel :
  ring_rep (a_ring a) q → io_good E → (length q ≤ fuel)%nat →
  wp (aof_drain fuel) (λ _ a' _,
    ring_rep (a_ring a') [] ∧ a_file a' = a_file a ++ concat q) E a t.
Proof.
  revert a q t. induction fuel as [|fuel IH]; intros a q t Hr Hio Hf; simpl; wp_steps.
  - destruct q; [|simpl in Hf; lia]. rewrite decide_False by (rewrite (rr_len _ _ Hr); simpl; lia).
    wp_steps. by rewrite app_nil_r.
  - destruct q as [|d q].
    + rewrite decide_False by (rewrite (rr_len _ _ Hr); simpl; lia). wp_steps. by rewrite app_nil_r.
    + rewrite decide_True by (rewrite (rr_len _ _ Hr); simpl; lia). wp_steps.
      eapply wp_mono; [by eapply always_step_spec|]. intros _ a' t' (Hr' & Hf' & _). simpl in *.
      eapply wp_mono; [apply IH; [done|done|lia]|]. intros _ a'' t'' [Hr'' Hf''].
      split; [done|]. by rewrite Hf'', Hf', <-app_assoc.
Qed.

(** Appending adds the command at the end: what is in the file and what is
    queued, together, grow by exactly the command. *)
Lemma append_spec E a q t cmd :
  ring_rep (a_ring a) q → io_good E → no_oom E → io_error (a_ring a) = false →
  a_on a = true → a_loading a = false → cmd ≠ [] →
  wp (kvs_persistence_append cmd (strlen cmd)) (λ r a' _,
    r = 0 ∧ io_error (a_ring a') = false ∧ a_on a' = true ∧ a_loading a' = false ∧
    ∃ q', ring_rep (a_ring a') q' ∧ a_file a' ++ concat q' = a_file a ++ concat q ++ cmd) E a t.
Proof.
  intros Hr Hio Hoom Herr Hon Hload Hcmd. unfold kvs_persistence_append, set_ring. wp_steps.
  rewrite Hload, Hon. simpl. unfold strlen.
  rewrite (proj2 (Z.leb_gt _ _)) by (destruct cmd; [done|simpl; lia]). wp_steps. rewrite Herr. wp_steps.
  rewrite Hoom. simpl. wp_steps. rewrite Nat2Z.id, firstn_all.
  destruct (decide (write_idx (a_ring a) - read_idx (a_ring a) < capacity (a_ring a))%nat) as [Hlt|Hge]; wp_steps.
  - destruct (ring_rep_push (a_ring a) q cmd Hr) as [Hr' _]; [rewrite (rr_len _ _ Hr) in Hlt; lia|].
    simpl. wp_steps. simpl. split_and!; [done..|]. exists (q ++ [cmd]). split; [done|].
    rewrite concat_app. simpl. by rewrite app_nil_r.
  - destruct q as [|d q].
    { exfalso. pose proof (rr_len _ _ Hr). pose proof (rr_cap _ _ Hr). simpl in *. lia. }
    eapply wp_mono; [by eapply always_step_spec|].
    intros _ a' t' (Hr' & Hf' & He' & Hc' & Hon' & Hl'). wp_steps. rewrite He', Herr. simpl. wp_steps.
    pose proof (rr_fit _ _ Hr) as Hfit. simpl in Hr', Hf', Hfit.
    rewrite decide_True by (rewrite (rr_len _ _ Hr'), Hc'; lia). wp_steps. simpl. wp_steps.
    destruct (ring_rep_push (a_ring a') q cmd Hr') as [Hr'' _]; [rewrite Hc'; lia|]. simpl.
    split_and!; [done|congruence|congruence|congruence|]. exists (q ++ [cmd]). split; [done|].
    rewrite concat_app, Hf', <-!app_assoc. simpl. by rewrite app_nil_r.
Qed.

(** ** The journal: what the file holds and what is queued for it *)

Definition journal (a : aof) (L : bytes) : Prop :=
  a_on a = true ∧ a_loading a = false ∧ io_error (a_ring a) = false ∧
  ∃ q, ring_rep (a_ring a) q ∧ L = a_file a ++ concat q.

(** Commands are not recorded while the log is off or being replayed. *)
Definition silent (a : aof) : Prop := a_loading a = true ∨ a_on a = false.

Lemma ring_rep_unique r q q' : ring_rep r q → ring_rep r q' → q = q'.
Proof.
  intros [Hc Hl Hf Hs _] [_ Hl' _ Hs' _]. apply list_eq_same_length with (length q); [lia|done|].
  intros i x y Hi Hx Hy. specialize (Hs i x Hx). specialize (Hs' i y Hy). congruence.
Qed.

Lemma journal_unique a L L' : journal a L → journal a L' → L = L'.
Proof.
  intros (_ & _ & _ & q & Hr & ->) (_ & _ & _ & q' & Hr' & ->). by rewrite (ring_rep_unique _ _ _ Hr Hr').
Qed.

(** From [a] to [a'] exactly [d] is recorded, or recording is off. *)
Definition logs (a a' : aof) (d : bytes) : Prop :=
  (silent a ∧ a' = a) ∨ (∃ L, journal a L ∧ journal a' (L ++ d)).

(** Recording can proceed. *)
Definition recording (a : aof) : Prop := silent a ∨ ∃ L, journal a L.

Lemma logs_nothing a : recording a → logs a a [].
Proof. intros [Hs|[L HL]]; [by left|]. right. exists L. by rewrite app_nil_r. Qed.

Lemma logs_recording a a' d : logs a a' d → recording a'.
Proof. intros [[Hs ->]|(L & _ & HL)]; [by left|right; eauto]. Qed.

Lemma logs_journal a a' d L : logs a a' d → journal a L → journal a' (L ++ d).
Proof.
  intros [[[Hl|Hon] ->]|(L' & HL' & Ha')] HL.
  - destruct HL as (_ & ? & _). congruence.
  - destruct HL as (? & _). congruence.
  - by rewrite (journal_unique _ _ _ HL HL').
Qed.

Lemma logs_trans a b c d1 d2 : logs a b d1 → logs b c d2 → logs a c (d1 ++ d2).
Proof.
  intros [[Hs ->]|(L & HL & HL')] Hbc.
  - destruct Hbc as [[_ ->]|(L & (Hon & Hl & _) & _)]; [by left|]. destruct Hs; congruence.
  - right. exists L. split; [done|]. rewrite app_assoc. by eapply logs_journal.
Qed.

Lemma logs_silent a a' d : silent a → logs a a' d → a' = a.
Proof.
  intros Hs [[_ ->]|(L & (Hon & Hl & _) & _)]; [done|]. destruct Hs; congruence.
Qed.

Lemma append_logs E a t cmd :
  recording a → io_good E → no_oom E → cmd ≠ [] →
  wp (kvs_persistence_append cmd (strlen cmd)) (λ r a' _, r = 0 ∧ logs a a' cmd) E a t.
Proof.
  intros [Hs|(L & Hon & Hl & He & q & Hr & ->)] Hio HE Hcmd.
  - unfold kvs_persistence_append. wp_steps.
    assert (a_loading a || negb (a_on a) = true) as ->.
    { destruct Hs as [-> | ->]; [done|]. apply orb_true_r. }
    wp_steps. split; [done|]. by left.
  - eapply wp_mono; [by eapply append_spec|].
    intros r a' _ (-> & He' & Hon' & Hl' & q' & Hr' & Heq). split; [done|]. right.
    exists (a_file a ++ concat q). split; [by split_and!; eauto|].
    split_and!; [done..|]. exists q'. split; [done|]. by rewrite Heq, app_assoc.
Qed.

(** ** The two threads

    The memory operations of [kvs_persistence_append] and of the always-mode
    worker, one at a time and in any order. A program counter says where each
    thread is, with the values it has loaded. Every call of the worker can fail:
    opening the file, writing (any part of the command may have reached the file),
    flushing and syncing. *)

Module Threads.

Inductive producer :=
| PIdle                                    (* not appending *)
| PBegun (d : bytes)                       (* io_error was 0, the data is copied *)
| PLoaded (d : bytes) (w r : nat)          (* both indices loaded *)
| PWaited (d : bytes) (w : nat)            (* the ring was full and io_error 0 *)
| PStored (d : bytes) (w : nat).           (* the slot is written, write_idx is not *)

Inductive worker :=
| WStart                                   (* before fopen *)
| WIdle
| WLoaded (r : nat)                        (* read_idx loaded and below write_idx *)
| WFailed (r : nat)                        (* fwrite, fflush or fsync failed, io_error is not stored *)
| WWritten (r : nat)                       (* the command was passed to the file *)
| WCleared (r : nat)                       (* the slot is NULL, read_idx not stored *)
| WGone.                                   (* the file could not be opened *)

Record state := State {
  t_slots : gmap nat bytes;
  t_cap   : nat;
  t_write : nat;
  t_read  : nat;
  t_error : bool;        (* io_error *)
  t_file  : bytes;
  t_prod  : producer;
  t_work  : worker;
  t_hist  : list bytes   (* every command published so far *)
}.

Definition to_prod (p : producer) (s : state) : state :=
  State (t_slots s) (t_cap s) (t_write s) (t_read s) (t_error s) (t_file s) p (t_work s) (t_hist s).
Definition to_work (w : worker) (s : state) : state :=
  State (t_slots s) (t_cap s) (t_write s) (t_read s) (t_error s) (t_file s) (t_prod s) w (t_hist s).
Definition set_slots (m : gmap nat bytes) (s : state) : state :=
  State m (t_cap s) (t_write s) (t_read s) (t_error s) (t_file s) (t_prod s) (t_work s) (t_hist s).
Definition set_error (s : state) : state :=
  State (t_slots s) (t_cap s) (t_write s) (t_read s) true (t_file s) (t_prod s) (t_work s) (t_hist s).
Definition put_file (b : bytes) (s : state) : state :=
  State (t_slots s) (t_cap s) (t_write s) (t_read s) (t_error s) (t_file s ++ b) (t_prod s) (t_work s) (t_hist s).

Inductive step : state → state → Prop :=
(* the command thread *)
| s_begin s d :
    t_prod s = PIdle → t_error s = false → step s (to_prod (PBegun d) s)
| s_load s d :
    t_prod s = PBegun d → step s (to_prod (PLoaded d (t_write s) (t_read s)) s)
| s_wait s d w r :
    t_prod s = PLoaded d w r → (t_cap s ≤ w - r)%nat → t_error s = false → step s (to_prod (PWaited d w) s)
| s_abort s d w r :
    t_prod s = PLoaded d w r → (t_cap s ≤ w - r)%nat → t_error s = true → step s (to_prod PIdle s)
| s_reload s d w :
    t_prod s = PWaited d w → step s (to_prod (PLoaded d w (t_read s)) s)
| s_store s d w r :
    t_prod s = PLoaded d w r → (w - r < t_cap s)%nat →
    step s (set_slots (<[(w mod t_cap s)%nat := d]> (t_slots s)) (to_prod (PStored d w) s))
| s_publish s d w :
    t_prod s = PStored d w →
    step s (State (t_slots s) (t_cap s) (S w) (t_read s) (t_error s) (t_file s) PIdle (t_work s) (t_hist s ++ [d]))
(* the worker *)
| w_open s : t_work s = WStart → step s (to_work WIdle s)
| w_open_fail s : t_work s = WStart → step s (set_error (to_work WGone s))
| w_load s :
    t_work s = WIdle → t_write s ≠ t_read s → step s (to_work (WLoaded (t_read s)) s)
| w_write s r d :
    t_work s = WLoaded r → t_slots s !! (r mod t_cap s)%nat = Some d → step s (put_file d (to_work (WWritten r) s))
| w_write_fail s r d p :
    t_work s = WLoaded r → t_slots s !! (r mod t_cap s)%nat = Some d → p `prefix_of` d →
    step s (put_file p (to_work (WFailed r) s))
| w_flag s r :
    t_work s = WFailed r → step s (set_error (to_work (WWritten r) s))
| w_null s r :
    t_work s = WLoaded r → t_slots s !! (r mod t_cap s)%nat = None → step s (to_work (WCleared r) s)
| w_clear s r :
    t_work s = WWritten r →
    step s (set_slots (delete (r mod t_cap s)%nat (t_slots s)) (to_work (WCleared r) s))
| w_publish s r :
    t_work s = WCleared r →
    step s (State (t_slots s) (t_cap s) (t_write s) (S r) (t_error s) (t_file s) (t_prod s) WIdle (t_hist s)).

(** The threads at the start, on a file that may hold something already. *)
Definition initial (cap : nat) (file : bytes) : state := State ∅ cap 0 0 false file PIdle WStart [].

(** How many commands the worker has passed to the file. *)
Definition filed (s : state) : nat :=
  match t_work s with
  | WFailed r | WWritten r | WCleared r => S r
  | _ => t_read s
  end.

(** The indices whose slots are in use: published and not cleared, and the one
    the producer has stored but not published. *)
Definition first_used (s : state) : nat :=
  match t_work s with WCleared r => S r | _ => t_read s end.

(** No call of the worker has failed. *)
Definition unharmed (s : state) : Prop :=
  t_error s = false ∧ match t_work s with WFailed _ => False | _ => True end.

(** What the file holds after [f0]: of every command passed to it a prefix, and the
    whole commands as long as nothing has failed. *)
Definition file_ok (f0 : bytes) (s : state) : Prop :=
  ∃ ps, t_file s = f0 ++ concat ps ∧ Forall2 (λ p d, p `prefix_of` d) ps (take (filed s) (t_hist s)) ∧
    (unharmed s → ps = take (filed s) (t_hist s)).

Record inv (f0 : bytes) (s : state) : Prop := {
  i_cap   : (0 < t_cap s)%nat;
  i_hist  : t_write s = length (t_hist s);
  i_order : (t_read s ≤ t_write s ≤ t_read s + t_cap s)%nat;
  i_work  : match t_work s with
            | WLoaded r | WFailed r | WWritten r | WCleared r => r = t_read s ∧ (r < t_write s)%nat
            | _ => True
            end;
  i_prod  : match t_prod s with
            | PIdle | PBegun _ => True
            | PLoaded _ w r => w = t_write s ∧ (r ≤ t_read s)%nat
            | PWaited _ w => w = t_write s
            | PStored _ w => w = t_write s ∧ (w < t_read s + t_cap s)%nat
            end;
  i_used  : ∀ i d, (first_used s ≤ i)%nat → t_hist s !! i = Some d →
              t_slots s !! (i mod t_cap s)%nat = Some d;
  i_stored : match t_prod s with
             | PStored d w => t_slots s !! (w mod t_cap s)%nat = Some d
             | _ => True
             end;
  i_file  : file_ok f0 s
}.

Lemma slot_ne (c a b : nat) : (0 < c)%nat → (a < b)%nat → (b < a + c)%nat → (a mod c ≠ b mod c)%nat.
Proof.
  intros Hc H1 H2 Heq. replace b with (a + (b - a))%nat in Heq by lia.
  rewrite <-(Nat.add_0_r a) in Heq at 1.
  pose proof (window_inj c a 0 (b - a) Hc ltac:(lia) ltac:(lia) Heq). lia.
Qed.

Lemma inv_initial cap f0 : (0 < cap)%nat → inv f0 (initial cap f0).
Proof. intros Hc. split; simpl; try done; [lia|]. exists []. simpl. by rewrite app_nil_r. Qed.

Lemma filed_le f0 s : inv f0 s → (filed s ≤ length (t_hist s))%nat.
Proof.
  intros [Hc Hh Ho Hw Hp Hu Hs Hf]. rewrite <-Hh. unfold filed.
  destruct (t_work s); simpl in Hw; lia.
Qed.

(** A step that passes nothing to the file, and mends nothing. *)
Lemma file_ok_keep f0 s s' :
  file_ok f0 s → t_file s' = t_file s → take (filed s') (t_hist s') = take (filed s) (t_hist s) →
  (unharmed s' → unharmed s) → file_ok f0 s'.
Proof. intros (ps & Hf & Hp & Hu) Hf' Ht Hh. exists ps. rewrite Hf', Ht. auto. Qed.

(** A step that passes (a part of) the next command to the file. *)
Lemma file_ok_next f0 s s' d p :
  file_ok f0 s → t_file s' = t_file s ++ p → t_hist s' = t_hist s → filed s' = S (filed s) →
  t_hist s !! filed s = Some d → p `prefix_of` d → (unharmed s' → unharmed s ∧ p = d) → file_ok f0 s'.
Proof.
  intros (ps & Hf & Hp & Hu) Hf' Hh Hn Hd Hpd Hun. exists (ps ++ [p]). rewrite Hf', Hf, Hh, Hn, (take_S_r _ _ _ Hd).
  split_and!; [by rewrite concat_app, <-app_assoc; simpl; rewrite app_nil_r|by apply Forall2_app; [|constructor]|].
  intros [Hs ->]%Hun. by rewrite (Hu Hs).
Qed.

(** The slot the producer writes is not one the worker still has to read. *)
Lemma store_fresh f0 s w i d :
  inv f0 s → w = t_write s → (w < t_read s + t_cap s)%nat → (first_used s ≤ i)%nat →
  t_hist s !! i = Some d → (i mod t_cap s ≠ w mod t_cap s)%nat.
Proof.
  intros [Hc Hh Ho Hw Hp Hu Hs Hf] -> Hlt Hi Hd. apply lookup_lt_Some in Hd. rewrite <-Hh in Hd.
  assert (t_read s ≤ i)%nat by (unfold first_used in Hi; destruct (t_work s); lia).
  apply slot_ne; lia.
Qed.

(** The command the worker is about to write is in its slot. *)
Lemma work_data f0 s r :
  inv f0 s → t_work s = WLoaded r →
  ∃ d, t_hist s !! r = Some d ∧ t_slots s !! (r mod t_cap s)%nat = Some d.
Proof.
  intros [Hc Hh Ho Hw Hp Hu Hs Hf] Hwc. rewrite Hwc in Hw. destruct Hw as [-> Hlt].
  rewrite Hh in Hlt. apply lookup_lt_is_Some_2 in Hlt as [d Hd]. exists d. split; [done|].
  apply Hu; [|done]. unfold first_used. by rewrite Hwc.
Qed.

(** Moving the producer to a point where it holds no slot. *)
Lemma inv_to_prod f0 s p :
  inv f0 s →
  match p with
  | PIdle | PBegun _ => True
  | PLoaded _ w r => w = t_write s ∧ (r ≤ t_read s)%nat
  | PWaited _ w => w = t_write s
  | PStored _ _ => False
  end → inv f0 (to_prod p s).
Proof. intros [Hc Hh Ho Hw Hp Hu Hs Hf] Hp'. split; simpl; try done; by destruct p. Qed.

Lemma inv_store f0 s d w r :
  inv f0 s → t_prod s = PLoaded d w r → (w - r < t_cap s)%nat →
  inv f0 (set_slots (<[(w mod t_cap s)%nat := d]> (t_slots s)) (to_prod (PStored d w) s)).
Proof.
  intros Hi Hpc Hroom. pose proof Hi as [Hc Hh Ho Hw Hp Hu Hs Hf]. rewrite Hpc in Hp. destruct Hp as [-> Hr].
  assert (t_write s < t_read s + t_cap s)%nat as Hlt by lia. split; simpl; try done.
  - intros i x Hi' Hx. rewrite lookup_insert_ne; [by apply Hu|].
    intros Heq. by eapply (store_fresh f0 s _ i x Hi eq_refl Hlt).
  - apply lookup_insert_eq.
Qed.

Lemma inv_publish f0 s d w :
  inv f0 s → t_prod s = PStored d w →
  inv f0 (State (t_slots s) (t_cap s) (S w) (t_read s) (t_error s) (t_file s) PIdle (t_work s) (t_hist s ++ [d])).
Proof.
  intros Hi Hpc. pose proof (filed_le f0 s Hi) as Hfl. pose proof Hi as [Hc Hh Ho Hw Hp Hu Hs Hf].
  rewrite Hpc in Hp, Hs. destruct Hp as [-> Hr]. split; simpl; try done.
  - rewrite length_app. simpl. lia.
  - lia.
  - destruct (t_work s); simpl in *; try done; lia.
  - intros i x Hi' [Hx|[Hge Hx]]%lookup_app_Some; [by apply Hu|].
    destruct (i - length (t_hist s))%nat eqn:Hd; simplify_eq/=. by replace i with (t_write s) by lia.
  - eapply file_ok_keep; [exact Hf|done| |done].
    change (take (filed s) (t_hist s ++ [d]) = take (filed s) (t_hist s)). by rewrite take_app_le.
Qed.

(** The worker passes (a part of) the next command to the file. *)
Lemma inv_write f0 s r d p (bad : bool) :
  inv f0 s → t_work s = WLoaded r → t_slots s !! (r mod t_cap s)%nat = Some d → p `prefix_of` d → (bad = false → p = d) →
  inv f0 (put_file p (to_work (if bad then WFailed r else WWritten r) s)).
Proof.
  intros Hi Hwc Hd Hp Hbad. destruct (work_data f0 s r Hi Hwc) as (d' & Hd' & Hsl). simplify_eq.
  destruct Hi as [Hc Hh Ho Hw Hpr Hu Hs Hf]. rewrite Hwc in Hw. destruct Hw as [-> Hlt].
  unfold first_used in Hu. rewrite Hwc in Hu.
  split; simpl; try done; [by destruct bad|by unfold first_used; destruct bad|].
  eapply (file_ok_next _ s _ d p); [exact Hf|done|done| | |done|].
  - unfold filed. rewrite Hwc. by destruct bad.
  - unfold filed. by rewrite Hwc.
  - destruct bad; [by intros [_ []]|]. intros [He _]. split; [|auto]. split; [done|]. by rewrite Hwc.
Qed.

Lemma inv_clear f0 s r :
  inv f0 s → t_work s = WWritten r → inv f0 (set_slots (delete (r mod t_cap s)%nat (t_slots s)) (to_work (WCleared r) s)).
Proof.
  intros [Hc Hh Ho Hw Hp Hu Hs Hf] Hwc. rewrite Hwc in Hw. destruct Hw as [-> Hlt].
  unfold first_used in Hu. rewrite Hwc in Hu. split; simpl; try done.
  - unfold first_used. simpl. intros i x Hi' Hx. apply lookup_lt_Some in Hx as Hx'.
    rewrite lookup_delete_ne; [apply Hu; [lia|done]|]. apply slot_ne; lia.
  - destruct (t_prod s) as [| |d w r|d w|d w]; try done. destruct Hp as [-> Hp].
    rewrite lookup_delete_ne; [done|]. apply slot_ne; lia.
  - eapply file_ok_keep; [exact Hf|done| |].
    + unfold filed. by rewrite Hwc.
    + unfold unharmed. by rewrite Hwc.
Qed.

(** Moving the worker without touching slots, file or indices. *)
Lemma inv_to_work f0 s w :
  inv f0 s → filed (to_work w s) = filed s → (first_used s ≤ first_used (to_work w s))%nat →
  (unharmed (to_work w s) → unharmed s) →
  match w with WLoaded r | WFailed r | WWritten r | WCleared r => r = t_read s ∧ (r < t_write s)%nat | _ => True end →
  inv f0 (to_work w s).
Proof.
  intros [Hc Hh Ho Hw Hp Hu Hs Hf] H1 H2 H3 H4. split; simpl; try done.
  - intros i d Hi. apply Hu. lia.
  - eapply file_ok_keep; [exact Hf|done| |done]. simpl. by rewrite H1.
Qed.

Lemma inv_set_error f0 s : inv f0 s → inv f0 (set_error s).
Proof. intros [Hc Hh Ho Hw Hp Hu Hs Hf]. split; simpl; try done. eapply file_ok_keep; [exact Hf|done|done|]. by intros [? _]. Qed.

Lemma inv_step f0 s s' : inv f0 s → step s s' → inv f0 s'.
Proof.
  intros Hi Hstep. pose proof Hi as [Hc Hh Ho Hw Hp Hu Hs Hf].
  destruct Hstep as [s d Hpc He|s d Hpc|s d w r Hpc Hfull He|s d w r Hpc Hfull He|s d w Hpc|s d w r Hpc Hroom|s d w Hpc
    |s Hwc|s Hwc|s Hwc Hne|s r d Hwc Hd|s r d p Hwc Hd Hpd|s r Hwc|s r Hwc Hd|s r Hwc|s r Hwc].
  - by apply inv_to_prod.
  - by apply inv_to_prod.
  - rewrite Hpc in Hp. apply inv_to_prod; [done|]. by destruct Hp.
  - by apply inv_to_prod.
  - rewrite Hpc in Hp. by apply inv_to_prod.
  - by eapply inv_store.
  - by eapply inv_publish.
  - apply inv_to_work; [done|unfold filed; by rewrite Hwc|unfold first_used; by rewrite Hwc|unfold unharmed; by rewrite Hwc|done].
  - apply inv_set_error, inv_to_work; [done|unfold filed; by rewrite Hwc|unfold first_used; by rewrite Hwc|unfold unharmed; by rewrite Hwc|done].
  - apply inv_to_work; [done|unfold filed; by rewrite Hwc|unfold first_used; by rewrite Hwc|unfold unharmed; by rewrite Hwc|].
    split; [done|lia].
  - by apply (inv_write f0 s r d d false).
  - by apply (inv_write f0 s r d p true).
  - rewrite Hwc in Hw. split; simpl; try done.
    + unfold first_used in Hu. by rewrite Hwc in Hu.
    + eapply file_ok_keep; [exact Hf|done| |by intros [? _]]. unfold filed. by rewrite Hwc.
  - destruct (work_data f0 s r Hi Hwc) as (d' & Hd' & Hsl). congruence.
  - by apply inv_clear.
  - rewrite Hwc in Hw. destruct Hw as [-> Hlt]. unfold first_used in Hu. rewrite Hwc in Hu. split; simpl; try done; [lia| |].
    + destruct (t_prod s) as [| |d w r|d w|d w]; simpl in *; [done|done|lia|done|lia].
    + eapply file_ok_keep; [exact Hf|done|unfold filed; by rewrite Hwc|unfold unharmed; by rewrite Hwc].
Qed.

Lemma inv_reachable cap f0 s : (0 < cap)%nat → rtc step (initial cap f0) s → inv f0 s.
Proof.
  intros Hc. apply (rtc_ind_r (λ s, inv f0 s)); [by apply inv_initial|].
  intros s1 s2 _ Hstep Hi. by eapply inv_step.
Qed.
End Threads.

(** ** Theorems *)

(** Appending a list of commands, then stopping the worker, which drains. *)
Fixpoint append_all (cmds : list bytes) : M aof unit :=
  match cmds with
  | [] => mret tt
  | c :: cmds' => _r ← kvs_persistence_append c (strlen c); append_all cmds'
  end.

Lemma append_all_journal E a L cmds t :
  io_good E → no_oom E → journal a L → Forall (λ c, c ≠ []) cmds →
  wp (append_all cmds) (λ _ a' _, journal a' (L ++ concat cmds)) E a t.
Proof.
  intros Hio HE HL Hc. revert a L t HL.
  induction Hc as [|c cmds Hne Hc IH]; intros a L t HL; simpl; wp_steps; [by rewrite app_nil_r|].
  eapply wp_mono; [apply append_logs; [right; by exists L|done..]|].
  intros r a' t' [_ Hlog]. rewrite app_assoc. apply IH. by eapply logs_journal.
Qed.

(** Nothing is lost, duplicated or reordered on the way to the file. After any
    number of appends, more than the ring holds or fewer, and the drain at
    shutdown, the file holds what it held before and then the commands in the
    order they were appended. *)
Theorem aof_appends_then_drain E a L cmds t :
  io_good E → no_oom E → journal a L → Forall (λ c, c ≠ []) cmds →
  wp (append_all cmds;; n ← gets (λ a, write_idx (a_ring a) - read_idx (a_ring a))%nat; aof_drain n)
    (λ _ a' _, a_file a' = L ++ concat cmds ∧ ring_rep (a_ring a') []) E a t.
Proof.
  intros Hio HE HL Hc. wp_steps. eapply wp_mono; [by apply append_all_journal|].
  intros _ a' t' (_ & _ & _ & q & Hr & Heq). wp_steps.
  eapply wp_mono; [apply aof_drain_spec with (q := q); [done|done|]|].
  - rewrite (rr_len _ _ Hr). lia.
  - intros _ a'' t'' [Hr' Hf]. split; [|done]. by rewrite Hf, Heq.
Qed.

(** A log whose ring has two slots. *)
Definition small_log : aof := Aof (Ring ∅ 2 0 0 false) [] false true.

Lemma small_log_empty : journal small_log [].
Proof. split_and!; [done..|]. exists []. split; [apply ring_empty; lia|done]. Qed.

Lemma aof_appends_then_drain_witness :
  wp (append_all [lit "a"; lit "b"; lit "c"];;
      n ← gets (λ a, write_idx (a_ring a) - read_idx (a_ring a))%nat; aof_drain n)
    (λ _ a' _, a_file a' = lit "abc" ∧ ring_rep (a_ring a') []) calm small_log 0.
Proof.
  apply (aof_appends_then_drain calm small_log [] [lit "a"; lit "b"; lit "c"] 0 calm_io calm_no_oom small_log_empty).
  by repeat constructor.
Defined.

(** C16: under every interleaving of the command thread and the worker, one memory
    operation at a time, on a file that holds [f0] at the start and whatever calls
    of the worker fail: behind [f0] the file holds, for each of the first commands
    published, in order, a prefix of it, and the whole command as long as no open,
    write, flush or sync has failed, in which case io_error is set (or the worker is
    about to set it); at most [capacity] commands are in flight, and every command
    not yet passed to the file is in its slot. *)
Theorem aof_threads_fifo cap f0 s :
  (0 < cap)%nat → rtc Threads.step (Threads.initial cap f0) s →
  (∃ ps, Threads.t_file s = f0 ++ concat ps ∧
     Forall2 (λ p d, p `prefix_of` d) ps (take (Threads.filed s) (Threads.t_hist s)) ∧
     (Threads.unharmed s → ps = take (Threads.filed s) (Threads.t_hist s))) ∧
  (Threads.filed s ≤ length (Threads.t_hist s))%nat ∧
  (length (Threads.t_hist s) ≤ Threads.t_read s + Threads.t_cap s)%nat ∧
  ∀ i d, (Threads.first_used s ≤ i)%nat → Threads.t_hist s !! i = Some d →
    Threads.t_slots s !! (i mod Threads.t_cap s)%nat = Some d.
Proof.
  intros Hc Hr. pose proof (Threads.inv_reachable cap f0 s Hc Hr) as Hi.
  pose proof (Threads.filed_le f0 s Hi) as Hf. destruct Hi as [_ Hh Ho _ _ Hu _ Hfile].
  split_and!; [exact Hfile|done|lia|done].
Qed.

Lemma aof_threads_fifo_witness :
  ∃ s, rtc Threads.step (Threads.initial 1 (lit "f")) s ∧ Threads.t_file s = lit "fx".
Proof.
  assert (∃ s, rtc Threads.step (Threads.initial 1 (lit "f")) s ∧ Threads.filed s = 1%nat ∧
               Threads.t_hist s = [lit "x"] ∧ Threads.unharmed s) as (s & Hr & Hf & Hh & Hu).
  { eexists. split; [|split_and!].
    - eapply rtc_l; [by apply Threads.w_open|].
      eapply rtc_l; [by apply (Threads.s_begin _ (lit "x"))|].
      eapply rtc_l; [by eapply Threads.s_load|].
      eapply rtc_l; [eapply Threads.s_store; [reflexivity|simpl; lia]|].
      eapply rtc_l; [by eapply Threads.s_publish|].
      eapply rtc_l; [by eapply Threads.w_load|].
      eapply rtc_l; [by eapply Threads.w_write|]. apply rtc_refl.
    - done.
    - done.
    - done. }
  exists s. split; [done|].
  destruct (aof_threads_fifo 1 (lit "f") s ltac:(lia) Hr) as [(ps & Hfile & _ & Hps) _].
  by rewrite Hfile, (Hps Hu), Hf, Hh.
Defined.
