(* ===== verification/AofUring.v ===== *)
(** * The append-only file through io_uring (kvs_persistence.c)

    The worker of the "no" mode takes commands from the ring in batches, hands
    each batch to the kernel as one write at its own offset, keeps up to
    [AOF_IO_DEPTH] writes in flight and completes short writes. This file holds
    the worker's functions and the liburing calls they make. The kernel and the
    command thread run beside the worker: at every liburing call the kernel
    performs writes of its choice, and at every load of [write_idx] the command
    thread may have published more commands. *)

From S2P Require Import Prelude Aof.

(** ** Data *)

Definition AOF_URING_ENTRIES : nat := 8192.
Definition AOF_IO_DEPTH : nat := 64.
Definition AOF_BATCH_BUF : nat := Nat.pow 2 20.
Definition AOF_CQE_BATCH : nat := 128.

(** struct aof_write_req; [rq_buf] is the memory behind buf as far as it has
    been written. *)
Record aof_write_req := Req {
  rq_buf     : bytes;
  rq_cap     : nat;
  rq_len     : nat;
  rq_written : nat;
  rq_off     : nat;
  rq_in_use  : bool
}.

(** A submission asks for a write of [sq_len] bytes from position [sq_from] of
    the buffer of request [sq_req], its user_data, at file offset [sq_off]. *)
Record sqe := Sqe { sq_req : nat; sq_from : nat; sq_len : nat; sq_off : nat }.
Record cqe := Cqe { cq_req : nat; cq_res : Z }.

(** What runs beside the worker, by the time of the call. *)
Record kernel := Kernel {
  k_work    : nat → list (nat * option nat); (* the submitted writes that complete by now: their
                                                place in the queue, and how many bytes they
                                                transfer at most, or None for an error *)
  k_held    : nat → nat;                     (* submitted entries still in the submission ring *)
  k_submit  : nat → bool;                    (* does this io_uring_submit succeed *)
  k_wait    : nat → option (option nat);     (* None: io_uring_wait_cqe fails; otherwise how the
                                                write it waits for ends *)
  k_appends : nat → list bytes               (* the commands appended meanwhile *)
}.

Record ust := U {
  u_ring     : aof_ring;
  u_stop     : bool;                (* ring->stop *)
  u_reqs     : list aof_write_req;  (* reqs of aof_worker *)
  u_inflight : Z;                   (* inflight of aof_worker *)
  u_local    : nat;                 (* local_read_idx of aof_worker *)
  u_off      : nat;                 (* g_aof_offset *)
  u_sq       : list sqe;            (* prepared, not submitted *)
  u_pending  : list sqe;            (* submitted, not performed *)
  u_cq       : list cqe;            (* performed, not seen by the worker *)
  u_file     : bytes;
  u_log      : list bytes           (* every command published so far *)
}.

Section setters.
Implicit Types (s : ust).
Definition with_ring (r : aof_ring) s :=
  U r (u_stop s) (u_reqs s) (u_inflight s) (u_local s) (u_off s) (u_sq s) (u_pending s) (u_cq s) (u_file s) (u_log s).
Definition with_stop s :=
  U (u_ring s) true (u_reqs s) (u_inflight s) (u_local s) (u_off s) (u_sq s) (u_pending s) (u_cq s) (u_file s) (u_log s).
Definition with_reqs (l : list aof_write_req) (n : Z) s :=
  U (u_ring s) (u_stop s) l n (u_local s) (u_off s) (u_sq s) (u_pending s) (u_cq s) (u_file s) (u_log s).
Definition with_local (n : nat) s :=
  U (u_ring s) (u_stop s) (u_reqs s) (u_inflight s) n (u_off s) (u_sq s) (u_pending s) (u_cq s) (u_file s) (u_log s).
Definition with_off (n : nat) s :=
  U (u_ring s) (u_stop s) (u_reqs s) (u_inflight s) (u_local s) n (u_sq s) (u_pending s) (u_cq s) (u_file s) (u_log s).
Definition with_queues (sq pending : list sqe) (cq : list cqe) (file : bytes) s :=
  U (u_ring s) (u_stop s) (u_reqs s) (u_inflight s) (u_local s) (u_off s) sq pending cq file (u_log s).
Definition with_log (r : aof_ring) (log : list bytes) s :=
  U r (u_stop s) (u_reqs s) (u_inflight s) (u_local s) (u_off s) (u_sq s) (u_pending s) (u_cq s) (u_file s) log.
End setters.

Definition ring_error (r : aof_ring) : aof_ring :=
  Ring (slots r) (capacity r) (write_idx r) (read_idx r) true.
Definition ring_read (n : nat) (r : aof_ring) : aof_ring :=
  Ring (slots r) (capacity r) (write_idx r) n (io_error r).

(** atomic_store (&ring->io_error, 1) *)
Definition set_io_error : M ust unit := modify (λ s, with_ring (ring_error (u_ring s)) s).

(** ** The command thread: the publishing half of kvs_persistence_append *)

Fixpoint publish (cmds : list bytes) (s : ust) : ust :=
  match cmds with
  | [] => s
  | c :: cmds' =>
      let r := u_ring s in
      if io_error r || bool_decide (c = []) || bool_decide (capacity r ≤ write_idx r - read_idx r)%nat
      then s else
      publish cmds'
        (with_log (Ring (<[(write_idx r mod capacity r)%nat := c]> (slots r)) (capacity r)
                        (S (write_idx r)) (read_idx r) (io_error r)) (u_log s ++ [c]) s)
  end.

(** ** The kernel *)

(** A write of [d] at offset [off]; a gap before it reads as zeros. *)
Definition pwrite (f : bytes) (off : nat) (d : bytes) : bytes :=
  match d with
  | [] => f
  | _ => take off (f ++ replicate (off - length f) NUL) ++ d ++ drop (off + length d) f
  end.

(** The kernel performs the submitted write at place [i]. It reads the buffer
    as it is at that moment. *)
Definition perform (s : ust) (i : nat) (how : option nat) : ust :=
  match u_pending s !! i with
  | None => s
  | Some e =>
      match how with
      | None => with_queues (u_sq s) (delete i (u_pending s)) (u_cq s ++ [Cqe (sq_req e) (-5)]) (u_file s) s
      | Some k =>
          let buf := default [] (rq_buf <$> u_reqs s !! sq_req e) in
          let d := take (k `min` sq_len e) (drop (sq_from e) buf) in
          with_queues (u_sq s) (delete i (u_pending s))
            (u_cq s ++ [Cqe (sq_req e) (Z.of_nat (length d))]) (pwrite (u_file s) (sq_off e) d) s
      end
  end.

Section worker.
Context (K : kernel).

(** The command thread appends until it calls kvs_persistence_close, which sets
    stop. *)
Definition load_write_idx : M ust nat := λ E s t,
  let s' := if u_stop s then s else publish (k_appends K t) s in
  Done (write_idx (u_ring s'), s', S t).

Definition kernel_runs : M ust unit := λ E s t,
  Done (tt, foldl (λ s a, perform s a.1 a.2) s (k_work K t), S t).

(** ** liburing *)

(** NULL when the submission ring is full. *)
Definition io_uring_get_sqe : M ust bool := λ E s t,
  Done (bool_decide (length (u_sq s) + k_held K t `min` length (u_pending s) < AOF_URING_ENTRIES)%nat, s, S t).

Definition io_uring_prep_write (i from len off : nat) : M ust unit :=
  modify (λ s, with_queues (u_sq s ++ [Sqe i from len off]) (u_pending s) (u_cq s) (u_file s) s).

Definition submit_all : M ust bool := λ E s t,
  if k_submit K t
  then Done (true, with_queues [] (u_pending s ++ u_sq s) (u_cq s) (u_file s) s, S t)
  else Done (false, s, S t).

Definition io_uring_submit : M ust bool := kernel_runs;; submit_all.

Definition io_uring_peek_batch_cqe : M ust (list cqe) :=
  kernel_runs;; gets (λ s, take AOF_CQE_BATCH (u_cq s)).

Definition io_uring_cq_advance (n : nat) : M ust unit :=
  modify (λ s, with_queues (u_sq s) (u_pending s) (drop n (u_cq s)) (u_file s) s).

(** Blocks until a write has completed; without any in flight, for ever. *)
Definition wait_one_cqe : M ust bool := λ E s t,
  match k_wait K t with
  | None => Done (false, s, S t)
  | Some how =>
      match u_cq s, u_pending s with
      | [], [] => Fault OutOfFuel
      | [], _ :: _ => Done (true, perform s 0 how, S t)
      | _ :: _, _ => Done (true, s, S t)
      end
  end.

Definition io_uring_wait_cqe : M ust bool := kernel_runs;; wait_one_cqe.

(** ** aof_reap_completions *)

Definition set_req (i : nat) (rq : aof_write_req) : M ust unit :=
  modify (λ s, with_reqs (<[i := rq]> (u_reqs s)) (u_inflight s) s).

(** req->in_use = 0; ( *inflight)--; *)
Definition retire (i : nat) : M ust unit :=
  modify (λ s, with_reqs
    (alter (λ rq, Req (rq_buf rq) (rq_cap rq) (rq_len rq) (rq_written rq) (rq_off rq) false) i (u_reqs s))
    (u_inflight s - 1) s).

(** A submission entry, after a submit when the ring is full. *)
Definition acquire_sqe : M ust bool :=
  ok ← io_uring_get_sqe;
  if ok : bool then mret true else
  sub ← io_uring_submit;
  if sub : bool then io_uring_get_sqe else
  set_io_error;; mret false.

(** One completion; how many writes it resubmits. *)
Definition reap_one (c : cqe) : M ust nat :=
  reqs ← gets u_reqs;
  match reqs !! cq_req c with
  | None => mret 0%nat
  | Some rq =>
      if negb (rq_in_use rq) then mret 0%nat else
      if cq_res c <? 0 then set_io_error;; retire (cq_req c);; mret 0%nat else
      if (cq_res c =? 0) && bool_decide (rq_written rq < rq_len rq)%nat
      then set_io_error;; retire (cq_req c);; mret 0%nat else
      let w := (rq_written rq + Z.to_nat (cq_res c))%nat in
      set_req (cq_req c) (Req (rq_buf rq) (rq_cap rq) (rq_len rq) w (rq_off rq) (rq_in_use rq));;
      if decide (w < rq_len rq)%nat then
        ok ← acquire_sqe;
        if ok : bool then
          io_uring_prep_write (cq_req c) w (rq_len rq - w) (rq_off rq + w);; mret 1%nat
        else set_io_error;; retire (cq_req c);; mret 0%nat
      else retire (cq_req c);; mret 0%nat
  end.

Fixpoint reap_all (cs : list cqe) : M ust nat :=
  match cs with
  | [] => mret 0%nat
  | c :: cs' => n ← reap_one c; m ← reap_all cs'; mret (n + m)%nat
  end.

(** The while (1) around io_uring_peek_batch_cqe: completions seen and writes
    resubmitted. *)
Fixpoint reap_loop (fuel : nat) (total resubmitted : nat) : M ust (nat * nat) :=
  cs ← io_uring_peek_batch_cqe;
  match cs with
  | [] => mret (total, resubmitted)
  | _ =>
      match fuel with
      | O => fail OutOfFuel
      | S fuel' =>
          n ← reap_all cs;
          io_uring_cq_advance (length cs);;
          reap_loop fuel' (total + length cs) (resubmitted + n)
      end
  end.

(** for (...) reqs[i].in_use = 0; *inflight = 0; *)
Definition abandon : M ust unit :=
  modify (λ s, with_reqs
    ((λ rq, Req (rq_buf rq) (rq_cap rq) (rq_len rq) (rq_written rq) (rq_off rq) false) <$> u_reqs s) 0 s).

Definition aof_reap_completions (wait_one : bool) : M ust Z :=
  inflight ← gets u_inflight;
  ready ← (if wait_one && (0 <? inflight) then io_uring_wait_cqe else mret true);
  if negb ready then set_io_error;; mret (-1) else
  fuel ← gets (λ s, length (u_pending s) + length (u_cq s))%nat;
  tr ← reap_loop fuel 0 0;
  if decide (0 < tr.2)%nat then
    ok ← io_uring_submit;
    if ok : bool then mret (Z.of_nat tr.1) else set_io_error;; abandon;; mret (-1)
  else mret (Z.of_nat tr.1).

(** ** Filling a batch *)

Fixpoint find_free (reqs : list aof_write_req) : option nat :=
  match reqs with
  | [] => None
  | rq :: reqs' => if rq_in_use rq then S <$> find_free reqs' else Some 0%nat
  end.

Definition aof_find_free_req (reqs : list aof_write_req) : option nat :=
  find_free (take AOF_IO_DEPTH reqs).

(** memcpy (buf + pos, data, len) *)
Definition memcpy_at (buf : bytes) (pos : nat) (data : bytes) : bytes :=
  take pos buf ++ data ++ drop (pos + length data) buf.

(** The loop of aof_fill_batch over the commands below [write_idx]; [n] of them
    remain. None: the buffer could not grow. *)
Fixpoint fill_loop (n : nat) (rq : aof_write_req) (batch_len : nat) : M ust (option (aof_write_req * nat)) :=
  match n with
  | O => mret (Some (rq, batch_len))
  | S n' =>
      r ← gets u_ring;
      local ← gets u_local;
      let idx := (local mod capacity r)%nat in
      match slots r !! idx with
      | None => modify (with_local (S local));; fill_loop n' rq batch_len
      | Some data =>
          let len := length data in
          big ← (if bool_decide (rq_cap rq < len)%nat && bool_decide (batch_len = 0)%nat
                 then ok ← kvs_malloc;
                      if ok : bool
                      then mret (Some (Req (rq_buf rq) len (rq_len rq) (rq_written rq) (rq_off rq) (rq_in_use rq)))
                      else set_io_error;; mret None
                 else mret (Some rq));
          match big with
          | None => mret None
          | Some rq =>
              if bool_decide (0 < batch_len)%nat && bool_decide (rq_cap rq < batch_len + len)%nat
              then mret (Some (rq, batch_len)) else
              if decide (rq_cap rq < batch_len + len)%nat then fail OutOfBounds else
              modify (λ s, with_ring (Ring (delete idx (slots r)) (capacity r) (write_idx r) (read_idx r) (io_error r)) s);;
              modify (with_local (S local));;
              fill_loop n'
                (Req (memcpy_at (rq_buf rq) batch_len data) (rq_cap rq) (rq_len rq) (rq_written rq) (rq_off rq) (rq_in_use rq))
                (batch_len + len)
          end
      end
  end.

Definition aof_fill_batch (i : nat) (rq : aof_write_req) : M ust Z :=
  w ← load_write_idx;
  local ← gets u_local;
  filled ← fill_loop (w - local) rq 0;
  match filled with
  | None => mret (-1)
  | Some (rq, batch_len) =>
      set_req i (Req (rq_buf rq) (rq_cap rq) batch_len 0 (rq_off rq) (rq_in_use rq));;
      mret (if decide (0 < batch_len)%nat then 1 else 0)
  end.

(** ** aof_worker *)

(** The inner loop: batches are prepared while there are commands and requests. *)
Fixpoint submit_loop (fuel : nat) (submitted_now : nat) : M ust nat :=
  w ← load_write_idx;
  local ← gets u_local;
  inflight ← gets u_inflight;
  if bool_decide (local < w)%nat && (inflight <? Z.of_nat AOF_IO_DEPTH) then
    match fuel with
    | O => fail OutOfFuel
    | S fuel' =>
        reqs ← gets u_reqs;
        match aof_find_free_req reqs with
        | None => mret submitted_now
        | Some i =>
            match reqs !! i with
            | None => fail OutOfBounds
            | Some rq =>
                fill ← aof_fill_batch i rq;
                if fill <=? 0 then mret submitted_now else
                ok ← acquire_sqe;
                if negb ok then mret submitted_now else
                off ← gets u_off;
                reqs ← gets u_reqs;
                match reqs !! i with
                | None => fail OutOfBounds
                | Some rq =>
                    modify (with_off (off + rq_len rq));;
                    modify (λ s, with_reqs
                      (<[i := Req (rq_buf rq) (rq_cap rq) (rq_len rq) (rq_written rq) off true]> (u_reqs s))
                      (u_inflight s + 1) s);;
                    io_uring_prep_write i 0 (rq_len rq) off;;
                    submit_loop fuel' (S submitted_now)
                end
            end
        end
    end
  else mret submitted_now.

(** One iteration of the outer loop. *)
Definition uring_iteration : M ust unit :=
  aof_reap_completions false;;
  n ← submit_loop AOF_IO_DEPTH 0;
  if decide (0 < n)%nat then
    ok ← io_uring_submit;
    (if ok : bool then mret tt
     else set_io_error;; abandon;; modify with_stop);;
    modify (λ s, with_ring (ring_read (u_local s) (u_ring s)) s)
  else
    inflight ← gets u_inflight;
    if 0 <? inflight then aof_reap_completions true;; mret tt
    else mret tt.

(** while (!ring->stop || local_read_idx < write_idx || inflight > 0) *)
Definition uring_busy : M ust bool :=
  stop ← gets u_stop;
  if negb stop then mret true else
  w ← load_write_idx;
  local ← gets u_local;
  inflight ← gets u_inflight;
  mret (bool_decide (local < w)%nat || (0 <? inflight)).

Fixpoint uring_loop (fuel : nat) : M ust unit :=
  busy ← uring_busy;
  if negb busy then mret tt else
  match fuel with
  | O => fail OutOfFuel
  | S fuel' => uring_iteration;; uring_loop fuel'
  end.

(** The worker's set-up: its requests and their buffers. *)
Fixpoint alloc_reqs (n : nat) (reqs : list aof_write_req) : M ust (option (list aof_write_req)) :=
  match n with
  | O => mret (Some reqs)
  | S n' =>
      ok ← kvs_malloc;
      if ok : bool then alloc_reqs n' (reqs ++ [Req [] AOF_BATCH_BUF 0 0 0 false])
      else set_io_error;; mret None
  end.

Definition uring_start : M ust bool :=
  reqs ← alloc_reqs AOF_IO_DEPTH [];
  match reqs with
  | None => mret false
  | Some reqs =>
      modify (with_reqs reqs 0);;
      modify (λ s, with_local (read_idx (u_ring s)) s);;
      mret true
  end.
End worker.
