(* ===== verification/AofUringSpec.v ===== *)
(** * The io_uring worker writes every command (kvs_persistence.c)

    The invariant of the worker of AofUring: what its requests, the queues it
    shares with the kernel and the bytes of the file have to do with the commands
    taken from the ring. From it follow that every command reaches the file at
    its place whatever the kernel's order and transfer sizes, or the error is
    recorded, and that the worker finishes when it is stopped. *)

From S2P Require Import Prelude Aof AofUring.

(** ** The writes in flight *)

(** The file [f] has byte [p] of the log [L]. *)
Definition has (L f : bytes) (p : nat) : Prop := ∀ b, L !! p = Some b → f !! p = Some b.

(** The buffer of a request holds the part of [L] it is to write. *)
Record req_ok (L : bytes) (rq : aof_write_req) : Prop := {
  ro_buf : ∀ j, (j < rq_len rq)%nat → rq_buf rq !! j = L !! (rq_off rq + j)%nat;
  ro_end : (rq_off rq + rq_len rq ≤ length L)%nat
}.

(** Position [p] is still to be written by [rq]. *)
Definition owes (rq : aof_write_req) (p : nat) : Prop :=
  rq_in_use rq = true ∧ (rq_off rq + rq_written rq ≤ p < rq_off rq + rq_len rq)%nat.

(** The requests in use are exactly those of the submissions [sub] and the
    completions [cq]; a byte of [L] that no request still owes is in the file,
    unless an error was recorded. *)
Record writes_ok (L : bytes) (reqs : list aof_write_req) (sub : list sqe) (cq : list cqe)
    (f : bytes) (err : bool) : Prop := {
  wo_nodup : NoDup ((sq_req <$> sub) ++ (cq_req <$> cq));
  wo_used  : ∀ i, i ∈ (sq_req <$> sub) ++ (cq_req <$> cq) ↔
               ∃ rq, reqs !! i = Some rq ∧ rq_in_use rq = true;
  wo_req   : ∀ i rq, reqs !! i = Some rq → rq_in_use rq = true → req_ok L rq;
  wo_sub   : ∀ e, e ∈ sub → ∃ rq, reqs !! sq_req e = Some rq ∧ (rq_written rq < rq_len rq)%nat ∧
               e = Sqe (sq_req e) (rq_written rq) (rq_len rq - rq_written rq) (rq_off rq + rq_written rq);
  wo_cq    : ∀ c rq, c ∈ cq → reqs !! cq_req c = Some rq → 0 ≤ cq_res c →
               (rq_written rq + Z.to_nat (cq_res c) ≤ rq_len rq)%nat ∧
               ∀ p, (rq_off rq + rq_written rq ≤ p < rq_off rq + rq_written rq + Z.to_nat (cq_res c))%nat →
                 has L f p;
  wo_len   : (length f ≤ length L)%nat;
  wo_file  : err = false → ∀ p, (∀ i rq, reqs !! i = Some rq → ¬ owes rq p) → has L f p
}.

Lemma writes_ok_perm L reqs sub sub' cq cq' f err :
  sub ≡ₚ sub' → cq ≡ₚ cq' → writes_ok L reqs sub cq f err → writes_ok L reqs sub' cq' f err.
Proof.
  intros Hs Hc [Hn Hu Hr Hsub Hcq Hl Hf]. split; try done.
  - by rewrite <-Hs, <-Hc.
  - intros i. by rewrite <-Hs, <-Hc.
  - intros e. rewrite <-Hs. apply Hsub.
  - intros c rq. rewrite <-Hc. apply Hcq.
Qed.

Lemma writes_ok_error L reqs sub cq f err :
  writes_ok L reqs sub cq f err → writes_ok L reqs sub cq f true.
Proof. by intros [? ? ? ? ? ? ?]. Qed.

Lemma pwrite_length f off d (n : nat) :
  (length f ≤ n)%nat → (off + length d ≤ n)%nat → (length (pwrite f off d) ≤ n)%nat.
Proof.
  intros Hf Hd. destruct d as [|x d]; [done|]. unfold pwrite.
  rewrite !length_app, length_take, length_app, length_replicate, length_drop. simpl in *. lia.
Qed.

Lemma pwrite_in f off d p :
  (off ≤ p < off + length d)%nat → pwrite f off d !! p = d !! (p - off)%nat.
Proof.
  intros Hp. destruct d as [|x d]; [simpl in Hp; lia|]. unfold pwrite.
  assert (length (take off (f ++ replicate (off - length f) NUL)) = off) as Hlen.
  { rewrite length_take, length_app, length_replicate. lia. }
  rewrite lookup_app_r by lia. rewrite Hlen. rewrite lookup_app_l by lia. done.
Qed.

Lemma pwrite_out f off d p b :
  ¬ (off ≤ p < off + length d)%nat → f !! p = Some b → pwrite f off d !! p = Some b.
Proof.
  intros Hp Hb. destruct d as [|x d]; [done|]. unfold pwrite.
  assert (length (take off (f ++ replicate (off - length f) NUL)) = off) as Hlen.
  { rewrite length_take, length_app, length_replicate. lia. }
  destruct (decide (p < off)%nat) as [Hlt|Hge].
  - rewrite lookup_app_l by lia. rewrite lookup_take_lt by done. by apply lookup_app_l_Some.
  - rewrite lookup_app_r by lia. rewrite lookup_app_r by lia. rewrite lookup_drop, <-Hb.
    f_equal. lia.
Qed.

(** Writing bytes of the log at their place loses no byte the file has. *)
Lemma pwrite_has L f off d p :
  (∀ j, (j < length d)%nat → d !! j = L !! (off + j)%nat) →
  has L f p ∨ (off ≤ p < off + length d)%nat → has L (pwrite f off d) p.
Proof.
  intros Hd Hp b Hb. destruct (decide (off ≤ p < off + length d)%nat) as [Hin|Hout].
  - rewrite pwrite_in by done. rewrite Hd by lia. rewrite <-Hb. f_equal. lia.
  - destruct Hp as [Hp|]; [|done]. apply pwrite_out; [done|by apply Hp].
Qed.

(** The kernel performs a write. *)
Lemma writes_ok_perform L reqs e sub cq f err rq (n : nat) :
  writes_ok L reqs (e :: sub) cq f err → reqs !! sq_req e = Some rq →
  writes_ok L reqs sub
    (cq ++ [Cqe (sq_req e) (Z.of_nat (length (take (n `min` sq_len e) (drop (sq_from e) (rq_buf rq)))))])
    (pwrite f (sq_off e) (take (n `min` sq_len e) (drop (sq_from e) (rq_buf rq)))) err.
Proof.
  intros [Hn Hu Hr Hsub Hcq Hl Hf] Hrq.
  destruct (Hsub e ltac:(left)) as (rq' & Hrq' & Hlt & He). simplify_eq.
  assert (rq_in_use rq = true) as Huse.
  { destruct (proj1 (Hu (sq_req e)) ltac:(left)) as (x & Hx & ?). congruence. }
  destruct (Hr _ _ Hrq Huse) as [Hbuf Hend].
  rewrite He. cbn [sq_req sq_from sq_len sq_off]. set (d := take _ _).
  assert (length d ≤ rq_len rq - rq_written rq)%nat as Hdl.
  { subst d. rewrite length_take. lia. }
  assert (∀ j, (j < length d)%nat → d !! j = L !! (rq_off rq + rq_written rq + j)%nat) as Hd.
  { intros j Hj. subst d. rewrite lookup_take_lt by (rewrite length_take in Hj; lia).
    rewrite lookup_drop, Hbuf by lia. f_equal. lia. }
  assert ((sq_req <$> sub) ++ (cq_req <$> cq ++ [Cqe (sq_req e) (Z.of_nat (length d))]) ≡ₚ
          (sq_req <$> e :: sub) ++ (cq_req <$> cq)) as Hp.
  { rewrite fmap_app. simpl. solve_Permutation. }
  split; try done.
  - by rewrite Hp.
  - intros i. by rewrite Hp.
  - intros e' He'. apply Hsub. by right.
  - intros c x [Hc|Hc%list_elem_of_singleton]%elem_of_app Hx Hres.
    + destruct (Hcq c x Hc Hx Hres) as [Hb Hp']. split; [done|]. intros p Hpp.
      apply pwrite_has; [done|]. left. by apply Hp'.
    + subst c. cbn [cq_req cq_res] in *. simplify_eq. rewrite Nat2Z.id. split; [lia|].
      intros p Hpp. apply pwrite_has; [done|]. by right.
  - apply pwrite_length; [done|lia].
  - intros Herr p Hown. apply pwrite_has; [done|]. left. by apply Hf.
Qed.

(** A write that transfers anything reports a positive number. *)
Lemma perform_positive L reqs e sub cq f err rq k :
  writes_ok L reqs (e :: sub) cq f err → reqs !! sq_req e = Some rq →
  0 < Z.of_nat (length (take (S k `min` sq_len e) (drop (sq_from e) (rq_buf rq)))).
Proof.
  intros [Hn Hu Hr Hsub Hcq Hl Hf] Hrq.
  destruct (Hsub e ltac:(left)) as (rq' & Hrq' & Hlt & He). simplify_eq.
  assert (rq_in_use rq = true) as Huse.
  { destruct (proj1 (Hu (sq_req e)) ltac:(left)) as (x & Hx & ?). congruence. }
  destruct (Hr _ _ Hrq Huse) as [Hbuf Hend].
  assert (is_Some (rq_buf rq !! rq_written rq)) as Hin%lookup_lt_is_Some.
  { rewrite Hbuf by done. apply lookup_lt_is_Some. lia. }
  rewrite He. cbn [sq_from sq_len]. rewrite length_take, length_drop. lia.
Qed.

(** The kernel reports an error. *)
Lemma writes_ok_failed L reqs e sub cq f err :
  writes_ok L reqs (e :: sub) cq f err →
  writes_ok L reqs sub (cq ++ [Cqe (sq_req e) (-5)]) f err.
Proof.
  intros [Hn Hu Hr Hsub Hcq Hl Hf].
  assert ((sq_req <$> sub) ++ (cq_req <$> cq ++ [Cqe (sq_req e) (-5)]) ≡ₚ
          (sq_req <$> e :: sub) ++ (cq_req <$> cq)) as Hp.
  { rewrite fmap_app. simpl. solve_Permutation. }
  split; try done.
  - by rewrite Hp.
  - intros i. by rewrite Hp.
  - intros e' He'. apply Hsub. by right.
  - intros c x [Hc|Hc%list_elem_of_singleton]%elem_of_app Hx Hres; [by apply Hcq|].
    subst c. simpl in Hres. lia.
Qed.

(** What holds of the other requests when request [i] is replaced. *)
Lemma writes_ok_replace L reqs sub c cq f err rq rq' :
  writes_ok L reqs sub (c :: cq) f err → reqs !! cq_req c = Some rq →
  NoDup ((sq_req <$> sub) ++ (cq_req <$> cq)) ∧
  cq_req c ∉ (sq_req <$> sub) ++ (cq_req <$> cq) ∧
  (∀ i, i ∈ (sq_req <$> sub) ++ (cq_req <$> cq) ↔
     i ≠ cq_req c ∧ ∃ x, <[cq_req c := rq']> reqs !! i = Some x ∧ rq_in_use x = true) ∧
  (∀ e, e ∈ sub → sq_req e ≠ cq_req c ∧ <[cq_req c := rq']> reqs !! sq_req e = reqs !! sq_req e) ∧
  (∀ d, d ∈ cq → cq_req d ≠ cq_req c ∧ <[cq_req c := rq']> reqs !! cq_req d = reqs !! cq_req d).
Proof.
  intros [Hn Hu _ _ _ _ _] Hrq.
  assert ((sq_req <$> sub) ++ (cq_req <$> c :: cq) ≡ₚ cq_req c :: (sq_req <$> sub) ++ (cq_req <$> cq)) as Hp
    by (simpl; solve_Permutation).
  rewrite Hp in Hn. apply NoDup_cons in Hn as [Hnot Hn]. split_and!; [done|done| | |].
  - intros i. destruct (decide (i = cq_req c)) as [->|Hne]; [naive_solver|].
    rewrite list_lookup_insert_ne by done. rewrite <-Hu, Hp, elem_of_cons. naive_solver.
  - intros e He. assert (sq_req e ≠ cq_req c) as Hne.
    { intros Heq. apply Hnot. rewrite <-Heq. apply elem_of_app. left. by apply list_elem_of_fmap_2. }
    split; [done|]. by rewrite list_lookup_insert_ne.
  - intros d Hd. assert (cq_req d ≠ cq_req c) as Hne.
    { intros Heq. apply Hnot. rewrite <-Heq. apply elem_of_app. right. by apply list_elem_of_fmap_2. }
    split; [done|]. by rewrite list_lookup_insert_ne.
Qed.

(** The worker retires a request: because it is complete, or with an error. *)
Lemma writes_ok_retire L reqs sub c cq f err err' rq rq' :
  writes_ok L reqs sub (c :: cq) f err → reqs !! cq_req c = Some rq → rq_in_use rq' = false →
  err' = true ∨ (err' = err ∧ 0 ≤ cq_res c ∧ rq_len rq = (rq_written rq + Z.to_nat (cq_res c))%nat) →
  writes_ok L (<[cq_req c := rq']> reqs) sub cq f err'.
Proof.
  intros Hw Hrq Hfree Herr.
  destruct (writes_ok_replace _ _ _ _ _ _ _ _ rq' Hw Hrq) as (Hn & Hnot & Hu & Hs & Hc).
  destruct Hw as [_ _ Hr Hsub Hcq Hl Hf]. pose proof (lookup_lt_Some _ _ _ Hrq) as Hlt.
  split; try done.
  - intros i. rewrite Hu. split; [naive_solver|]. intros (x & Hx & Hx'). split; [|eauto].
    intros ->. rewrite list_lookup_insert_eq in Hx by done. congruence.
  - intros i x Hx Hx'. destruct (decide (i = cq_req c)) as [->|Hne].
    + rewrite list_lookup_insert_eq in Hx by done. congruence.
    + rewrite list_lookup_insert_ne in Hx by done. eauto.
  - intros e He. destruct (Hs e He) as [_ ->]. by apply Hsub.
  - intros d x Hd Hx. destruct (Hc d Hd) as [_ Heq]. rewrite Heq in Hx. apply Hcq; [by right|done].
  - intros He p Hown. destruct Herr as [->|(-> & Hres & Hlen)]; [done|].
    destruct (decide (rq_off rq + rq_written rq ≤ p < rq_off rq + rq_len rq)%nat) as [Hin|Hout].
    + destruct (Hcq c rq ltac:(left) Hrq Hres) as [_ Hp]. apply Hp. lia.
    + apply Hf; [done|]. intros i x Hx Howes. destruct (decide (i = cq_req c)) as [->|Hne].
      * simplify_eq. by destruct Howes.
      * apply (Hown i x); [by rewrite list_lookup_insert_ne|done].
Qed.

(** The worker asks for the rest of a short write. *)
Lemma writes_ok_resubmit L reqs sub c cq f err rq w :
  writes_ok L reqs sub (c :: cq) f err → reqs !! cq_req c = Some rq → 0 ≤ cq_res c →
  w = (rq_written rq + Z.to_nat (cq_res c))%nat → (w < rq_len rq)%nat → rq_in_use rq = true →
  writes_ok L (<[cq_req c := Req (rq_buf rq) (rq_cap rq) (rq_len rq) w (rq_off rq) (rq_in_use rq)]> reqs)
    (Sqe (cq_req c) w (rq_len rq - w) (rq_off rq + w) :: sub) cq f err.
Proof.
  intros Hw Hrq Hres Hwe Hlt Huse. set (rq' := Req _ _ _ _ _ _).
  destruct (writes_ok_replace _ _ _ _ _ _ _ _ rq' Hw Hrq) as (Hn & Hnot & Hu & Hs & Hc).
  destruct Hw as [_ _ Hr Hsub Hcq Hl Hf]. pose proof (lookup_lt_Some _ _ _ Hrq) as Hi.
  split; try done.
  - simpl. by apply NoDup_cons.
  - intros i. simpl. rewrite elem_of_cons, Hu.
    destruct (decide (i = cq_req c)) as [->|Hne]; [|naive_solver].
    split; [|by left]. intros _. exists rq'. by rewrite list_lookup_insert_eq.
  - intros i x Hx Hx'. destruct (decide (i = cq_req c)) as [->|Hne].
    + rewrite list_lookup_insert_eq in Hx by done. simplify_eq. by destruct (Hr _ _ Hrq Huse).
    + rewrite list_lookup_insert_ne in Hx by done. eauto.
  - intros e [->|He]%elem_of_cons.
    + exists rq'. cbn [sq_req]. rewrite list_lookup_insert_eq by done. split_and!; done.
    + destruct (Hs e He) as [_ ->]. by apply Hsub.
  - intros d x Hd Hx. destruct (Hc d Hd) as [_ Heq]. rewrite Heq in Hx. apply Hcq; [by right|done].
  - intros He p Hown.
    destruct (decide (rq_off rq + rq_written rq ≤ p < rq_off rq + w)%nat) as [Hin|Hout].
    + destruct (Hcq c rq ltac:(left) Hrq Hres) as [_ Hp]. apply Hp. lia.
    + apply Hf; [done|]. intros i x Hx [Ho1 Ho2]. destruct (decide (i = cq_req c)) as [->|Hne].
      * simplify_eq. apply (Hown (cq_req c) rq'); [by rewrite list_lookup_insert_eq|].
        split; [done|]. simpl. lia.
      * apply (Hown i x); [by rewrite list_lookup_insert_ne|done].
Qed.

(** The worker starts the write of a batch [d] at the end of the log. *)
Lemma writes_ok_start L d reqs sub cq f err i rq rq' :
  writes_ok L reqs sub cq f err → reqs !! i = Some rq → rq_in_use rq = false → d ≠ [] →
  rq_in_use rq' = true → rq_written rq' = 0%nat → rq_off rq' = length L → rq_len rq' = length d →
  take (length d) (rq_buf rq') = d →
  writes_ok (L ++ d) (<[i := rq']> reqs) (Sqe i 0 (rq_len rq') (length L) :: sub) cq f err.
Proof.
  intros [Hn Hu Hr Hsub Hcq Hl Hf] Hrq Hfree Hd Huse Hw0 Hoff Hlen Hbuf.
  pose proof (lookup_lt_Some _ _ _ Hrq) as Hi.
  assert (i ∉ (sq_req <$> sub) ++ (cq_req <$> cq)) as Hnot.
  { intros (x & Hx & ?)%Hu. congruence. }
  assert (0 < length d)%nat as Hpos by (destruct d; [done|simpl; lia]).
  assert (∀ p, (p < length L)%nat → has L f p → has (L ++ d) f p) as Hext.
  { intros p Hp Hh b Hb. rewrite lookup_app_l in Hb by done. by apply Hh. }
  split.
  - simpl. by apply NoDup_cons.
  - intros j. simpl. rewrite elem_of_cons, Hu. destruct (decide (j = i)) as [->|Hne].
    + rewrite list_lookup_insert_eq by done. naive_solver.
    + rewrite list_lookup_insert_ne by done. naive_solver.
  - intros j x Hx Hx'. destruct (decide (j = i)) as [->|Hne].
    + rewrite list_lookup_insert_eq in Hx by done. simplify_eq. split.
      * intros k Hk. rewrite Hoff, lookup_app_r by lia. rewrite Nat.add_comm, Nat.add_sub.
        rewrite <-Hbuf at 1. rewrite lookup_take_lt by lia. done.
      * rewrite length_app. lia.
    + rewrite list_lookup_insert_ne in Hx by done. destruct (Hr j x Hx Hx') as [Hb He]. split.
      * intros k Hk. rewrite Hb by done. rewrite lookup_app_l by lia. done.
      * rewrite length_app. lia.
  - intros e [->|He]%elem_of_cons.
    + exists rq'. cbn [sq_req]. rewrite list_lookup_insert_eq by done. split_and!; [done|lia|].
      rewrite Hw0, Hoff, Nat.sub_0_r, Nat.add_0_r. done.
    + destruct (Hsub e He) as (x & Hx & Hrest). exists x. rewrite list_lookup_insert_ne; [done|].
      intros ->. apply Hnot, elem_of_app. left. by apply list_elem_of_fmap_2.
  - intros c x Hc Hx Hres. rewrite list_lookup_insert_ne in Hx.
    2: { intros ->. apply Hnot, elem_of_app. right. by apply list_elem_of_fmap_2. }
    assert (rq_in_use x = true) as Hxu.
    { destruct (proj1 (Hu (cq_req c))) as (y & Hy & ?); [|congruence].
      apply elem_of_app. right. by apply list_elem_of_fmap_2. }
    destruct (Hcq c x Hc Hx Hres) as [Hb Hp]. destruct (Hr _ _ Hx Hxu) as [_ He].
    split; [done|]. intros p Hpp. apply Hext; [lia|]. by apply Hp.
  - rewrite length_app. lia.
  - intros He p Hown. destruct (decide (p < length L)%nat) as [Hlt|Hge].
    + apply Hext; [done|]. apply Hf; [done|]. intros j x Hx Howes.
      destruct (decide (j = i)) as [->|Hne].
      * simplify_eq. destruct Howes. congruence.
      * apply (Hown j x); [by rewrite list_lookup_insert_ne|done].
    + intros b Hb. apply lookup_lt_Some in Hb. rewrite length_app in Hb. exfalso.
      apply (Hown i rq'); [by rewrite list_lookup_insert_eq|]. split; [done|]. lia.
Qed.

(** With nothing in flight and no error the file is the log. *)
Lemma writes_ok_finished L reqs f : writes_ok L reqs [] [] f false → f = L.
Proof.
  intros [_ Hu _ _ _ Hl Hf]. symmetry. apply list_eq_same_length with (length L); [|done|].
  - apply Nat.le_antisymm; [done|]. destruct L as [|b0 L0 _] using rev_ind; [simpl; lia|].
    assert (f !! length L0 = Some b0) as Hlast%lookup_lt_Some; [|rewrite length_app; simpl; lia].
    apply Hf; [done| |rewrite lookup_app_r by lia; by rewrite Nat.sub_diag].
    intros i rq Hrq [Huse _]. by apply (not_elem_of_nil i), Hu; eauto.
  - intros p x y Hp Hx Hy. assert (f !! p = Some x); [|congruence]. apply Hf; [done| |done].
    intros i rq Hrq [Huse _]. by apply (not_elem_of_nil i), Hu; eauto.
Qed.

(** ** The invariant of the worker *)

(** Bytes and requests still to be dealt with. *)
Definition debt (rq : aof_write_req) : nat :=
  if rq_in_use rq then S (rq_len rq - rq_written rq) else 0.
Definition outstanding (s : ust) : nat := sum_list_with debt (u_reqs s).
Definition queued (q : list bytes) : nat := sum_list_with (λ c, 2 + length c)%nat q.

Record uinv (G : Prop) (F : bytes) (done q : list bytes) (s : ust) : Prop := {
  ui_ring   : ring_rep (ring_read (u_local s) (u_ring s)) q;
  ui_read   : (read_idx (u_ring s) ≤ u_local s)%nat;
  ui_ne     : Forall (λ c, c ≠ []) q;
  ui_log    : u_log s = done ++ q;
  ui_off    : u_off s = length (F ++ concat done);
  ui_depth  : length (u_reqs s) = AOF_IO_DEPTH;
  ui_count  : u_inflight s = Z.of_nat (length (u_sq s) + length (u_pending s) + length (u_cq s));
  ui_writes : writes_ok (F ++ concat done) (u_reqs s) (u_sq s ++ u_pending s) (u_cq s) (u_file s)
                (io_error (u_ring s));
  ui_good   : G → io_error (u_ring s) = false ∧ Forall (λ c, 0 < cq_res c) (u_cq s)
}.

Lemma sum_insert (l : list aof_write_req) i x y :
  l !! i = Some x →
  (sum_list_with debt (<[i := y]> l) + debt x = sum_list_with debt l + debt y)%nat.
Proof.
  revert i. induction l as [|z l IH]; intros [|i] Hi; simplify_eq/=; [lia|].
  specialize (IH i Hi). lia.
Qed.

(** At most [AOF_IO_DEPTH] writes are in flight. *)
Lemma uinv_depth G F done q s : uinv G F done q s →
  (length (u_sq s) + length (u_pending s) + length (u_cq s) ≤ AOF_IO_DEPTH)%nat.
Proof.
  intros [_ _ _ _ _ Hd _ [Hn Hu _ _ _ _ _] _].
  assert ((sq_req <$> u_sq s ++ u_pending s) ++ (cq_req <$> u_cq s) ⊆ seq 0 AOF_IO_DEPTH) as Hsub.
  { intros i (rq & Hrq & _)%Hu. apply lookup_lt_Some in Hrq. apply elem_of_seq. lia. }
  pose proof (submseteq_length _ _ (NoDup_submseteq _ _ Hn Hsub)) as Hlen.
  rewrite length_app, !length_fmap, length_app, length_seq in Hlen. lia.
Qed.

(** Nothing is outstanding exactly when nothing is in flight. *)
Lemma outstanding_used s i rq :
  u_reqs s !! i = Some rq → rq_in_use rq = true → (0 < outstanding s)%nat.
Proof.
  intros Hi Hu. unfold outstanding.
  rewrite <-(take_drop_middle _ _ _ Hi), sum_list_with_app. simpl. unfold debt at 2. rewrite Hu. lia.
Qed.

Lemma outstanding_zero G F done q s :
  uinv G F done q s → u_inflight s = 0 → outstanding s = 0%nat.
Proof.
  intros [_ _ _ _ _ _ Hc [_ Hu _ _ _ _ _] _] H0.
  destruct (u_sq s) eqn:Hsq; [|simpl in Hc; lia]. destruct (u_pending s) eqn:Hp; [|simpl in Hc; lia].
  destruct (u_cq s) eqn:Hcq; [|simpl in Hc; lia]. simpl in Hu. unfold outstanding.
  assert (Forall (λ rq, debt rq = 0%nat) (u_reqs s)) as Hall.
  { apply Forall_lookup. intros i rq Hi. unfold debt. destruct (rq_in_use rq) eqn:He; [|done].
    exfalso. apply (not_elem_of_nil (A := nat) i), Hu. eauto. }
  clear -Hall. induction Hall as [|rq l Hrq Hl IH]; simpl; [done|]. by rewrite Hrq, IH.
Qed.

Lemma outstanding_pos G F done q s :
  uinv G F done q s → 0 < u_inflight s → (0 < outstanding s)%nat.
Proof.
  intros [_ _ _ _ _ _ Hc [_ Hu _ _ _ _ _] _] H0.
  assert (∃ i, i ∈ (sq_req <$> u_sq s ++ u_pending s) ++ (cq_req <$> u_cq s)) as [i Hi].
  { destruct (u_sq s) as [|e l]; [|exists (sq_req e); left].
    destruct (u_pending s) as [|e l]; [|exists (sq_req e); left].
    destruct (u_cq s) as [|e l]; [simpl in *; lia|exists (cq_req e); left]. }
  apply Hu in Hi as (rq & Hrq & Huse). by eapply outstanding_used.
Qed.

(** The state as the worker sees it with other completions. *)
Definition set_cq (cq : list cqe) (s : ust) : ust :=
  with_queues (u_sq s) (u_pending s) cq (u_file s) s.

Ltac u_simpl := cbn [u_ring u_stop u_reqs u_inflight u_local u_off u_sq u_pending u_cq u_file u_log
  with_ring with_stop with_reqs with_local with_off with_queues with_log set_cq ring_error ring_read
  slots capacity write_idx read_idx io_error].
Tactic Notation "u_simpl" "in" "*" := cbn [u_ring u_stop u_reqs u_inflight u_local u_off u_sq u_pending
  u_cq u_file u_log with_ring with_stop with_reqs with_local with_off with_queues with_log set_cq
  ring_error ring_read slots capacity write_idx read_idx io_error] in *.

(** ** The kernel's steps *)

(** What the kernel leaves alone. *)
Record beside (s s' : ust) : Prop := {
  b_reqs : u_reqs s' = u_reqs s;
  b_stop : u_stop s' = u_stop s;
  b_sq   : u_sq s' = u_sq s;
  b_sum  : (length (u_pending s') + length (u_cq s') = length (u_pending s) + length (u_cq s))%nat;
  b_cq   : (length (u_cq s) ≤ length (u_cq s'))%nat
}.

#[global] Instance beside_po : PreOrder beside.
Proof.
  split; [by intros s|]. intros a b c [H1 H2 H3 H4 H5] [G1 G2 G3 G4 G5].
  split; try congruence; lia.
Qed.

Lemma uinv_perform (G : Prop) F done q s i how :
  (G → ∃ k, how = Some (S k)) → uinv G F done q s → uinv G F done q (perform s i how) ∧ beside s (perform s i how).
Proof.
  intros Hhow Hi. unfold perform. destruct (u_pending s !! i) as [e|] eqn:He; [|done].
  pose proof (delete_Permutation _ _ _ He) as Hp. pose proof Hi as [Hring Hread Hne Hlog Hoff Hd Hc Hw Hg].
  assert (length (u_pending s) = S (length (delete i (u_pending s)))) as Hlen by (by rewrite Hp at 1).
  assert (writes_ok (F ++ concat done) (u_reqs s) (e :: u_sq s ++ delete i (u_pending s)) (u_cq s) (u_file s)
            (io_error (u_ring s))) as Hw'.
  { eapply writes_ok_perm; [|done|exact Hw]. rewrite Hp at 1. solve_Permutation. }
  destruct how as [k|].
  - destruct (wo_sub _ _ _ _ _ _ Hw' e ltac:(left)) as (rq & Hrq & _). rewrite Hrq. simpl.
    split; [|split; simpl; try done; rewrite length_app; simpl; lia].
    split; simpl; try done.
    + rewrite length_app. simpl. rewrite Hc. lia.
    + by eapply writes_ok_perform.
    + intros g. destruct (Hg g) as [H1 H2]. split; [done|]. apply Forall_app. split; [done|].
      destruct (Hhow g) as [k' [= ->]]. constructor; [|done]. by eapply perform_positive.
  - split; [|split; simpl; try done; rewrite length_app; simpl; lia].
    split; simpl; try done.
    + rewrite length_app. simpl. rewrite Hc. lia.
    + by eapply writes_ok_failed.
    + intros g. by destruct (Hhow g).
Qed.

Section spec.
Context (K : kernel) (F : bytes) (G : Prop).
Context (Hkinds : G → ∀ t a, a ∈ k_work K t → ∃ k, a.2 = Some (S k)).
Implicit Types (E : env) (s : ust) (t : nat).

Lemma wp_kernel_runs E s t done q :
  uinv G F done q s →
  wp (kernel_runs K) (λ _ s' _, uinv G F done q s' ∧ beside s s') E s t.
Proof.
  intros Hi. unfold wp, kernel_runs.
  assert (G → ∀ a, a ∈ k_work K t → ∃ k, a.2 = Some (S k)) as Hk by (intros g; by apply Hkinds).
  revert s Hi. induction (k_work K t) as [|a l IH]; intros s Hi; simpl; [done|].
  destruct (uinv_perform G F done q s a.1 a.2) as [Hi' Hb]; [intros g; apply (Hk g); left|done|].
  destruct (IH ltac:(intros g b ?; apply (Hk g); by right) _ Hi') as [H1 H2]. split; [done|]. by etrans.
Qed.

Lemma depth_below_entries : (AOF_IO_DEPTH < AOF_URING_ENTRIES)%nat.
Proof. apply Nat.ltb_lt. vm_compute. reflexivity. Qed.

(** The submission ring is never full. *)
Lemma wp_acquire_sqe E s t :
  (length (u_sq s) + length (u_pending s) ≤ AOF_IO_DEPTH)%nat →
  wp (acquire_sqe K) (λ b s' _, b = true ∧ s' = s) E s t.
Proof.
  intros Hl. unfold acquire_sqe. apply wp_bind. unfold wp at 1, io_uring_get_sqe.
  rewrite bool_decide_true; [done|]. pose proof depth_below_entries. lia.
Qed.

Context (Hsubmit : ∀ t, k_submit K t = true).

Lemma wp_submit E s t done q :
  uinv G F done q s →
  wp (io_uring_submit K) (λ b s' _, b = true ∧ uinv G F done q s' ∧ u_sq s' = [] ∧
    u_reqs s' = u_reqs s ∧ u_stop s' = u_stop s) E s t.
Proof.
  intros Hi. unfold io_uring_submit. wp_steps. eapply wp_mono; [by apply wp_kernel_runs|].
  intros _ s' t' [[Hring Hread Hne Hlog Hoff Hd Hc Hw Hg] [H1 H2 H3 H4 H5]].
  unfold wp, submit_all. rewrite Hsubmit. split; [done|]. split; [|done].
  split; simpl; try done.
  - rewrite length_app, Hc. lia.
  - eapply writes_ok_perm; [|done|exact Hw]. solve_Permutation.
Qed.

(** ** Completions *)

Lemma alter_is_insert (f : aof_write_req → aof_write_req) (l : list aof_write_req) i x :
  l !! i = Some x → alter f i l = <[i := f x]> l.
Proof. revert i. induction l as [|y l IH]; intros [|i] Hi; simplify_eq/=; [done|]. f_equal. by apply IH. Qed.

(** Retiring the request of completion [c], after its other fields were set to
    those of [rq']. *)
Lemma wp_retire E s t done q c rest rq rq' err :
  uinv G F done q (set_cq (c :: rest) s) → u_reqs s !! cq_req c = Some rq → rq_in_use rq = true →
  err = true ∨ (err = io_error (u_ring s) ∧ 0 ≤ cq_res c ∧
                rq_len rq = (rq_written rq + Z.to_nat (cq_res c))%nat) →
  (G → err = false) →
  wp (retire (cq_req c)) (λ _ s' _, uinv G F done q (set_cq rest s') ∧ u_cq s' = u_cq s ∧
      u_pending s' = u_pending s ∧ u_sq s' = u_sq s ∧ u_stop s' = u_stop s ∧
      (outstanding s' < outstanding s)%nat) E
    (with_ring (Ring (slots (u_ring s)) (capacity (u_ring s)) (write_idx (u_ring s)) (read_idx (u_ring s)) err)
       (with_reqs (<[cq_req c := rq']> (u_reqs s)) (u_inflight s) s)) t.
Proof.
  intros [Hring Hread Hne Hlog Hoff Hd Hc Hw Hg] Hrq Huse Herr Hnoerr. u_simpl in *. unfold retire. wp_steps. u_simpl.
  assert (<[cq_req c := rq']> (u_reqs s) !! cq_req c = Some rq') as Hrq'.
  { apply list_lookup_insert_eq. by eapply lookup_lt_Some. }
  rewrite (alter_is_insert _ _ _ _ Hrq'), list_insert_insert_eq.
  split_and!; try done.
  - split; u_simpl; try done.
    + by eapply (ring_rep_error _ _ err) in Hring.
    + by rewrite length_insert.
    + rewrite Hc. simpl. lia.
    + by eapply writes_ok_retire.
    + intros g. destruct (Hg g) as [_ Hpos]. split; [by apply Hnoerr|]. by apply Forall_cons in Hpos as [_ ?].
  - unfold outstanding. u_simpl. set (y := Req _ _ _ _ _ _).
    pose proof (sum_insert (u_reqs s) (cq_req c) rq y Hrq) as Hs.
    assert (debt y = 0%nat) as Hy by done. rewrite Hy in Hs.
    unfold debt at 2 in Hs. rewrite Huse in Hs. lia.
Qed.

Lemma reap_one_spec E s t done q c rest :
  uinv G F done q (set_cq (c :: rest) s) →
  wp (reap_one K c) (λ n s' _, uinv G F done q (set_cq rest s') ∧ u_cq s' = u_cq s ∧
    u_pending s' = u_pending s ∧ length (u_sq s') = (length (u_sq s) + n)%nat ∧
    u_stop s' = u_stop s ∧ (outstanding s' < outstanding s)%nat) E s t.
Proof.
  intros Hi. pose proof (uinv_depth _ _ _ _ _ Hi) as Hdep.
  pose proof Hi as [Hring Hread Hne Hlog Hoff Hd Hc Hw Hg]. u_simpl in *.
  destruct (proj1 (wo_used _ _ _ _ _ _ Hw (cq_req c))) as (rq & Hrq & Huse).
  { apply elem_of_app. right. simpl. left. }
  pose proof (lookup_lt_Some _ _ _ Hrq) as Hlt.
  assert (with_reqs (<[cq_req c := rq]> (u_reqs s)) (u_inflight s) s = s) as Hsame.
  { rewrite list_insert_id by done. by destruct s. }
  assert (G → 0 < cq_res c) as Hpos.
  { intros g. destruct (Hg g) as [_ Hp]. by apply Forall_cons in Hp as [? _]. }
  assert (∀ t, cq_res c ≤ 0 → wp (set_io_error;; retire (cq_req c);; mret 0%nat) (λ n s' _,
    uinv G F done q (set_cq rest s') ∧ u_cq s' = u_cq s ∧ u_pending s' = u_pending s ∧
    length (u_sq s') = (length (u_sq s) + n)%nat ∧ u_stop s' = u_stop s ∧
    (outstanding s' < outstanding s)%nat) E s t) as Hfail.
  { intros t' Hle. unfold set_io_error. wp_step. wp_step. wp_step.
    pose proof (wp_retire E s t' done q c rest rq rq true Hi Hrq Huse (or_introl eq_refl)
      ltac:(intros g; specialize (Hpos g); lia)) as H.
    rewrite Hsame in H. eapply wp_mono; [exact H|]. intros _ s' t2 (H1 & H2 & H3 & H4 & H5 & H6).
    wp_steps. rewrite H4. split_and!; [done..|lia|done|done]. }
  unfold reap_one. wp_steps. rewrite Hrq, Huse. cbn [negb].
  destruct (cq_res c <? 0) eqn:Hneg; to_prop; [apply Hfail; lia|].
  destruct ((cq_res c =? 0) && bool_decide (rq_written rq < rq_len rq)%nat) eqn:Hz; [to_prop; apply Hfail; lia|].
  unfold set_req. wp_step. wp_step. set (w := (rq_written rq + _)%nat).
  destruct (wo_cq _ _ _ _ _ _ Hw c rq ltac:(left) Hrq Hneg) as [Hb _].
  destruct (decide (w < rq_len rq)%nat) as [Hshort|Hfull].
  - wp_step. eapply wp_mono; [apply wp_acquire_sqe; u_simpl; cbn [length] in Hdep; lia|].
    intros b s' t' [-> ->]. unfold io_uring_prep_write. wp_steps. u_simpl.
    split_and!; try done.
    + split; u_simpl; try done.
      * by rewrite length_insert.
      * rewrite Hc, length_app. simpl. lia.
      * eapply writes_ok_perm; [|done|].
        2: { pose proof (writes_ok_resubmit _ _ _ _ _ _ _ _ w Hw Hrq Hneg eq_refl Hshort Huse) as Hr.
             rewrite Huse in Hr. exact Hr. }
        solve_Permutation.
      * intros g. destruct (Hg g) as [? Hp]. split; [done|]. by apply Forall_cons in Hp as [_ ?].
    + rewrite length_app. simpl. lia.
    + unfold outstanding. u_simpl. set (y := Req _ _ _ _ _ _).
      pose proof (sum_insert (u_reqs s) (cq_req c) rq y Hrq) as Hs.
      assert (debt y = S (rq_len rq - w)) as Hy by done.
      rewrite Hy in Hs. unfold debt at 2 in Hs. rewrite Huse in Hs.
      assert (0 < Z.to_nat (cq_res c))%nat.
      { apply andb_false_iff in Hz as [Hz|Hz]; to_prop; [lia|].
        apply bool_decide_eq_false in Hz. subst w. lia. }
      subst w. lia.
  - wp_step. set (rq' := Req _ _ _ _ _ _).
    pose proof (wp_retire E s t done q c rest rq rq' (io_error (u_ring s)) Hi Hrq Huse) as H.
    assert (with_ring (Ring (slots (u_ring s)) (capacity (u_ring s)) (write_idx (u_ring s))
              (read_idx (u_ring s)) (io_error (u_ring s)))
              (with_reqs (<[cq_req c := rq']> (u_reqs s)) (u_inflight s) s)
            = with_reqs (<[cq_req c := rq']> (u_reqs s)) (u_inflight s) s) as Heq
      by (by destruct s as [[] ]).
    rewrite Heq in H. eapply wp_mono; [apply H; [right; split_and!; [done|done|lia]|intros g; by destruct (Hg g)]|].
    intros _ s' t2 (H1 & H2 & H3 & H4 & H5 & H6). wp_steps. rewrite H4. split_and!; [done..|lia|done|done].
Qed.

Lemma reap_all_spec E s t done q cs rest :
  uinv G F done q (set_cq (cs ++ rest) s) →
  wp (reap_all K cs) (λ n s' _, uinv G F done q (set_cq rest s') ∧ u_cq s' = u_cq s ∧
    u_pending s' = u_pending s ∧ length (u_sq s') = (length (u_sq s) + n)%nat ∧
    u_stop s' = u_stop s ∧ (outstanding s' + length cs ≤ outstanding s)%nat) E s t.
Proof.
  revert s t. induction cs as [|c cs IH]; intros s t Hi; cbn [reap_all]; wp_steps.
  { split_and!; simpl; try done; lia. }
  eapply wp_mono; [by apply (reap_one_spec E s t done q c (cs ++ rest))|].
  intros n s1 t1 (H1 & H2 & H3 & H4 & H5 & H6). wp_steps.
  eapply wp_mono; [by apply IH|]. intros m s2 t2 (G1 & G2 & G3 & G4 & G5 & G6). wp_steps.
  split_and!; [done|congruence|congruence|lia|congruence|simpl; lia].
Qed.

Lemma set_cq_id s cq : u_cq s = cq → set_cq cq s = s.
Proof. intros <-. by destruct s. Qed.

Lemma reap_loop_spec E s t done q fuel total n :
  uinv G F done q s → (length (u_pending s) + length (u_cq s) ≤ fuel)%nat →
  wp (reap_loop K fuel total n) (λ r s' _, uinv G F done q s' ∧
    (length (u_sq s') + n = length (u_sq s) + r.2)%nat ∧ u_stop s' = u_stop s ∧
    (outstanding s' ≤ outstanding s)%nat ∧
    (u_cq s ≠ [] → outstanding s' < outstanding s)%nat) E s t.
Proof.
  revert s t total n. induction fuel as [|fuel IH]; intros s t total n Hi Hf; cbn [reap_loop];
    unfold io_uring_peek_batch_cqe; wp_step; wp_step;
    (eapply wp_mono; [by apply wp_kernel_runs|]); intros _ s1 t1 [Hi1 [B1 B2 B3 B4 B5]]; wp_steps.
  - destruct (u_cq s1) eqn:Hcq; [|simpl in *; lia]. cbn [take]. rewrite firstn_nil. wp_steps.
    unfold outstanding. rewrite B1, B3. split_and!; [done|simpl; lia|done|lia|].
    destruct (u_cq s); [done|simpl in *; lia].
  - destruct (take AOF_CQE_BATCH (u_cq s1)) as [|c cs] eqn:Hcs.
    + assert (u_cq s1 = []) as Hcq by (by destruct (u_cq s1)). wp_steps.
      unfold outstanding. rewrite B1, B3. split_and!; [done|simpl; lia|done|lia|].
      intros Hne. destruct (u_cq s); [done|]. rewrite Hcq in *. simpl in *. lia.
    + assert (u_cq s1 = (c :: cs) ++ drop AOF_CQE_BATCH (u_cq s1)) as Hsplit
        by (by rewrite <-Hcs, take_drop).
      wp_steps. eapply wp_mono.
      { apply (reap_all_spec E s1 t1 done q (c :: cs) (drop AOF_CQE_BATCH (u_cq s1))).
        rewrite <-Hsplit. by rewrite set_cq_id. }
      intros m s2 t2 (G1 & G2 & G3 & G4 & G5 & G6). unfold io_uring_cq_advance. wp_step. wp_step.
      assert (drop (length (c :: cs)) (u_cq s2) = drop AOF_CQE_BATCH (u_cq s1)) as Hdrop.
      { rewrite G2. rewrite Hsplit at 1. by rewrite drop_app_length. }
      rewrite Hdrop.
      assert (length (u_cq s1) = S (length cs + length (drop AOF_CQE_BATCH (u_cq s1)))) as Hlen.
      { rewrite Hsplit at 1. rewrite length_app. done. }
      unfold outstanding in *. rewrite <-B1.
      eapply wp_mono; [apply IH; [done|]|].
      * u_simpl. rewrite G3. lia.
      * intros r s3 t3 (H1 & H2 & H3 & H4 & _). unfold outstanding in *. u_simpl in *.
        cbn [length] in G6. rewrite <-B3. split_and!; [done|lia|congruence|lia|lia].
Qed.

Context (Hwait : ∀ t, is_Some (k_wait K t)).
Context (Hkind : G → ∀ t how, k_wait K t = Some how → ∃ k, how = Some (S k)).

Lemma reap_completions_spec E s t done q wait_one :
  uinv G F done q s → u_sq s = [] →
  wp (aof_reap_completions K wait_one) (λ _ s' _, uinv G F done q s' ∧ u_sq s' = [] ∧
    u_stop s' = u_stop s ∧ (outstanding s' ≤ outstanding s)%nat ∧
    (wait_one = true → 0 < u_inflight s → (outstanding s' < outstanding s)%nat)) E s t.
Proof.
  intros Hi Hsq. unfold aof_reap_completions. wp_step. wp_step. wp_step.
  apply wp_mono with (λ b s' _, b = true ∧ uinv G F done q s' ∧ u_sq s' = [] ∧ u_stop s' = u_stop s ∧
    outstanding s' = outstanding s ∧ (wait_one = true → 0 < u_inflight s → u_cq s' ≠ [])).
  - destruct (wait_one && (0 <? u_inflight s)) eqn:Hw.
    + to_prop. unfold io_uring_wait_cqe. wp_steps. eapply wp_mono; [by apply wp_kernel_runs|].
      intros _ s1 t1 [Hi1 [B1 B2 B3 B4 B5]]. unfold wp, wait_one_cqe.
      destruct (Hwait t1) as [how Hhow]. rewrite Hhow. unfold outstanding. rewrite <-B1.
      pose proof (ui_count _ _ _ _ _ Hi) as Hc. rewrite Hsq in Hc. simpl in Hc.
      destruct (u_cq s1) as [|c cq] eqn:Hcq.
      * destruct (u_pending s1) as [|e l] eqn:Hp; [simpl in *; lia|].
        destruct (uinv_perform G F done q s1 0 how (λ g, Hkind g t1 how Hhow) Hi1) as [Hi2 [C1 C2 C3 C4 C5]].
        rewrite C1, C2, C3, B2, B3. split_and!; [done..|]. intros _ _ Hnil.
        unfold perform in Hnil. rewrite Hp in Hnil. cbn [lookup list_lookup] in Hnil.
        rewrite Hcq in Hnil. by destruct how.
      * split_and!; [done|done|congruence|done|done|]. intros _ _. congruence.
    + wp_steps. split_and!; [done..|]. intros -> Hpos. simpl in Hw. to_prop. lia.
  - intros b s1 t1 (-> & Hi1 & Hsq1 & Hst1 & Ho1 & Hc1). cbn [negb]. wp_step. wp_step. wp_step.
    eapply wp_mono; [by apply reap_loop_spec|]. intros [total n] s2 t2 (H1 & H2 & H3 & H4 & H5).
    cbn [fst snd] in *. rewrite Hsq1 in H2. simpl in H2.
    destruct (decide (0 < n)%nat) as [Hn|Hn].
    + wp_step. eapply wp_mono; [by apply wp_submit|]. intros b s3 t3 (-> & G1 & G2 & G3 & G4). wp_steps.
      unfold outstanding in *. rewrite G3. split_and!; [done|done|congruence|lia|].
      intros Hw Hp. specialize (H5 (Hc1 Hw Hp)). lia.
    + wp_steps. split_and!; [done| |congruence|lia|].
      * destruct (u_sq s2); [done|simpl in *; lia].
      * intros Hw Hp. specialize (H5 (Hc1 Hw Hp)). lia.
Qed.

(** ** Taking commands from the ring *)

Lemma publish_spec s done q cs :
  uinv G F done q s →
  ∃ q', uinv G F done (q ++ q') (publish cs s) ∧ beside s (publish cs s) ∧
    u_inflight (publish cs s) = u_inflight s ∧ u_local (publish cs s) = u_local s.
Proof.
  revert s q. induction cs as [|c cs IH]; intros s q Hi; cbn [publish].
  { exists []. by rewrite app_nil_r. }
  destruct (io_error (u_ring s) || _ || _) eqn:Hb; [exists []; by rewrite app_nil_r|].
  apply orb_false_iff in Hb as [[_ Hc]%orb_false_iff Hcap].
  apply bool_decide_eq_false in Hc. apply bool_decide_eq_false in Hcap.
  set (s1 := with_log _ _ _). pose proof Hi as [Hring Hread Hne Hlog Hoff Hd Hct Hw Hg].
  assert (uinv G F done (q ++ [c]) s1) as Hi1.
  { subst s1. split; u_simpl; try done.
    - pose proof (rr_len _ _ Hring). u_simpl in *.
      destruct (ring_rep_push _ _ c Hring) as [Hr _]; u_simpl; [lia|done].
    - apply Forall_app. split; [done|by constructor].
    - by rewrite Hlog, app_assoc. }
  destruct (IH s1 (q ++ [c]) Hi1) as (q' & H1 & H2 & H3 & H4).
  exists (c :: q'). rewrite <-app_assoc in H1. split_and!; [done| |done|done].
  etrans; [|done]. by split.
Qed.

Lemma wp_load_write_idx E s t done q :
  uinv G F done q s →
  wp (load_write_idx K) (λ w s' _, ∃ q', uinv G F done (q ++ q') s' ∧ beside s s' ∧
    u_inflight s' = u_inflight s ∧ u_local s' = u_local s ∧ w = (u_local s' + length (q ++ q'))%nat ∧
    (u_stop s = true → q' = [])) E s t.
Proof.
  intros Hi. unfold wp, load_write_idx.
  assert (∀ q s, uinv G F done q s → write_idx (u_ring s) = u_local s + length q)%nat as Hlen.
  { intros q0 s0 H0. exact (rr_len _ _ (ui_ring _ _ _ _ _ H0)). }
  destruct (u_stop s) eqn:Hs.
  - exists []. rewrite app_nil_r. split_and!; try done. by apply Hlen.
  - destruct (publish_spec s done q (k_appends K t) Hi) as (q' & H1 & H2 & H3 & H4).
    exists q'. split_and!; try done. by apply Hlen.
Qed.

Lemma take_memcpy_at buf pos d :
  (pos ≤ length buf)%nat →
  take (pos + length d) (memcpy_at buf pos d) = take pos buf ++ d ∧
  (pos + length d ≤ length (memcpy_at buf pos d))%nat.
Proof.
  intros Hp. unfold memcpy_at. rewrite app_assoc. split.
  - rewrite take_app_le; [|rewrite length_app, length_take; lia].
    apply take_ge. rewrite length_app, length_take. lia.
  - rewrite !length_app, length_take. lia.
Qed.

(** The batch is the concatenation of the oldest commands, at least one. *)
Lemma fill_loop_spec E s t n rq batch q :
  no_oom E → ring_rep (ring_read (u_local s) (u_ring s)) q → n = length q →
  (batch ≤ length (rq_buf rq))%nat → (batch ≤ rq_cap rq)%nat →
  wp (fill_loop n rq batch) (λ r s' _, ∃ rq' q1 q2 r',
    q = q1 ++ q2 ∧ r = Some (rq', batch + length (concat q1))%nat ∧
    take (batch + length (concat q1)) (rq_buf rq') = take batch (rq_buf rq) ++ concat q1 ∧
    rq_in_use rq' = rq_in_use rq ∧ (batch = 0%nat → q ≠ [] → q1 ≠ []) ∧
    s' = with_local (u_local s + length q1) (with_ring r' s) ∧
    io_error r' = io_error (u_ring s) ∧ read_idx r' = read_idx (u_ring s) ∧
    ring_rep (ring_read (u_local s + length q1) r') q2) E s t.
Proof.
  intros Hoom. revert s t rq batch q.
  induction n as [|n IH]; intros s t rq batch q Hring Hn Hbuf Hcap; cbn [fill_loop]; wp_steps.
  { destruct q; [|done]. exists rq, [], [], (u_ring s). simpl. rewrite !Nat.add_0_r, app_nil_r.
    split_and!; try done. by destruct s. }
  destruct q as [|d q]; [done|]. destruct (ring_rep_pop _ _ _ Hring) as [Hpop Hd]. u_simpl in *.
  rewrite Hd. set (rq1 := if bool_decide (rq_cap rq < length d)%nat && bool_decide (batch = 0%nat)
    then Req (rq_buf rq) (length d) (rq_len rq) (rq_written rq) (rq_off rq) (rq_in_use rq) else rq).
  wp_step. apply wp_mono with (λ r s' _, r = Some rq1 ∧ s' = s).
  { subst rq1. destruct (bool_decide (rq_cap rq < length d)%nat && bool_decide (batch = 0%nat)); wp_steps; [|done].
    rewrite Hoom. by wp_steps. }
  intros _ ? t' [-> ->].
  assert (rq_buf rq1 = rq_buf rq ∧ rq_in_use rq1 = rq_in_use rq ∧ (rq_cap rq ≤ rq_cap rq1)%nat ∧
          (batch = 0%nat → length d ≤ rq_cap rq1)%nat) as (Hb1 & Hu1 & Hc1 & Hroom).
  { subst rq1. destruct (decide (rq_cap rq < length d)%nat) as [Hlt|Hge].
    - rewrite (bool_decide_true _ Hlt). destruct (decide (batch = 0%nat)) as [Hz|Hz].
      + rewrite (bool_decide_true _ Hz). simpl. split_and!; [done|done|lia|lia].
      + rewrite (bool_decide_false _ Hz). simpl. split_and!; [done|done|lia|lia].
    - rewrite (bool_decide_false _ Hge). simpl. split_and!; [done|done|lia|lia]. }
  destruct (bool_decide (0 < batch)%nat && bool_decide (rq_cap rq1 < batch + length d)%nat) eqn:Hbreak.
  - apply andb_prop in Hbreak as [Hpos%bool_decide_eq_true_1 _]. wp_steps.
    exists rq1, [], (d :: q), (u_ring s). simpl. rewrite !Nat.add_0_r, app_nil_r.
    split_and!; try done; [by rewrite Hb1|lia|by destruct s].
  - assert (batch + length d ≤ rq_cap rq1)%nat as Hfit.
    { apply andb_false_iff in Hbreak as [H%bool_decide_eq_false|H%bool_decide_eq_false]; [|lia].
      replace batch with 0%nat in * by lia. by apply Hroom. }
    rewrite decide_False by lia. wp_step. wp_step. wp_step. wp_step.
    set (s1 := with_local _ _). set (rq2 := Req _ _ _ _ _ _).
    destruct (take_memcpy_at (rq_buf rq1) batch d) as [Hm1 Hm2]; [by rewrite Hb1|].
    eapply wp_mono; [apply (IH s1 t' rq2 (batch + length d)%nat q)|].
    + exact Hpop.
    + simpl in Hn. lia.
    + exact Hm2.
    + exact Hfit.
    + intros r s' t2 (rq' & q1 & q2 & r' & -> & -> & Htake & Huse & _ & -> & He & Hrd & Hrep).
      exists rq', (d :: q1), q2, r'. subst s1 rq2. u_simpl in *. cbn [concat length] in *.
      rewrite length_app, Nat.add_assoc.
      replace (u_local s + S (length q1))%nat with (S (u_local s) + length q1)%nat by lia.
      split_and!; try done.
      * rewrite Htake. cbn [rq_buf]. rewrite Hm1, Hb1. by rewrite <-app_assoc.
      * by rewrite Huse.
Qed.

Lemma concat_nonempty (q : list bytes) : Forall (λ c, c ≠ []) q → q ≠ [] → concat q ≠ [].
Proof. intros [|c l Hc Hl] Hne; [done|]. simpl. by destruct c. Qed.

Lemma fill_batch_spec E s t done q i rq :
  no_oom E → uinv G F done q s → q ≠ [] → u_reqs s !! i = Some rq →
  wp (aof_fill_batch K i rq) (λ r s' _, r = 1 ∧ ∃ s1 q' rq' q1 q2 r',
    uinv G F done (q ++ q') s1 ∧ beside s s1 ∧ u_inflight s1 = u_inflight s ∧
    (u_stop s = true → q' = []) ∧
    q ++ q' = q1 ++ q2 ∧ q1 ≠ [] ∧
    s' = with_reqs (<[i := rq']> (u_reqs s1)) (u_inflight s1)
           (with_local (u_local s1 + length q1) (with_ring r' s1)) ∧
    rq_in_use rq' = rq_in_use rq ∧ rq_written rq' = 0%nat ∧ rq_len rq' = length (concat q1) ∧
    take (length (concat q1)) (rq_buf rq') = concat q1 ∧
    io_error r' = io_error (u_ring s1) ∧ read_idx r' = read_idx (u_ring s1) ∧
    ring_rep (ring_read (u_local s1 + length q1) r') q2) E s t.
Proof.
  intros Hoom Hi Hq Hrq. unfold aof_fill_batch. wp_step.
  eapply wp_mono; [by apply wp_load_write_idx|].
  intros w s1 t1 (q' & Hi1 & Hb & Hin & Hloc & -> & Hstop). wp_step. wp_step.
  rewrite Nat.add_comm, Nat.add_sub. wp_step.
  eapply wp_mono; [apply (fill_loop_spec E s1 t1 _ rq 0 (q ++ q')); [done|apply Hi1|done|lia|lia]|].
  intros r s2 t2 (rq' & q1 & q2 & r' & Heq & -> & Htake & Huse & Hne & -> & He & Hrd & Hrep).
  assert (q1 ≠ []) as Hq1 by (apply Hne; [done|]; by destruct q).
  assert (concat q1 ≠ []) as Hc1.
  { apply concat_nonempty; [|done]. pose proof (ui_ne _ _ _ _ _ Hi1) as Hf. rewrite Heq in Hf.
    by apply Forall_app in Hf as [? _]. }
  assert (0 < length (concat q1))%nat as Hpos by (destruct (concat q1); [done|simpl; lia]).
  unfold set_req. wp_steps. cbn [Nat.add] in *. rewrite decide_True by done. split; [done|].
  exists s1, q', (Req (rq_buf rq') (rq_cap rq') (length (concat q1)) 0 (rq_off rq') (rq_in_use rq')), q1, q2, r'.
  split_and!; done.
Qed.

(** Handing the batch to the kernel. *)
Lemma uinv_start s done q1 q2 i rq rq' r' :
  uinv G F done (q1 ++ q2) s → q1 ≠ [] → u_reqs s !! i = Some rq → rq_in_use rq = false →
  rq_in_use rq' = true → rq_written rq' = 0%nat → rq_len rq' = length (concat q1) →
  rq_off rq' = u_off s → take (length (concat q1)) (rq_buf rq') = concat q1 →
  io_error r' = io_error (u_ring s) → read_idx r' = read_idx (u_ring s) →
  ring_rep (ring_read (u_local s + length q1) r') q2 →
  uinv G F (done ++ q1) q2
    (U r' (u_stop s) (<[i := rq']> (u_reqs s)) (u_inflight s + 1) (u_local s + length q1)
       (u_off s + rq_len rq') (u_sq s ++ [Sqe i 0 (rq_len rq') (u_off s)]) (u_pending s) (u_cq s)
       (u_file s) (u_log s)).
Proof.
  intros [Hring Hread Hne Hlog Hoff Hd Hc Hw Hg] Hq1 Hrq Hfree Huse Hw0 Hlen Ho Hbuf He Hrd Hrep.
  apply Forall_app in Hne as [Hne1 Hne2].
  split; u_simpl; try done.
  - lia.
  - by rewrite Hlog, app_assoc.
  - rewrite Hoff, concat_app, !length_app, Hlen. lia.
  - by rewrite length_insert.
  - rewrite Hc, length_app. simpl. lia.
  - rewrite concat_app, He, (app_assoc F). eapply writes_ok_perm; [|done|].
    2: { eapply (writes_ok_start _ (concat q1) _ _ _ _ _ i rq rq' Hw); try done.
         - by apply concat_nonempty.
         - congruence. }
    rewrite Hoff. solve_Permutation.
  - by rewrite He.
Qed.

Lemma find_free_spec l :
  match find_free l with
  | Some i => ∃ rq, l !! i = Some rq ∧ rq_in_use rq = false
  | None => Forall (λ rq, rq_in_use rq = true) l
  end.
Proof.
  induction l as [|rq l IH]; simpl; [constructor|]. destruct (rq_in_use rq) eqn:Hu; simpl.
  - destruct (find_free l) as [i|]; simpl; [done|]. by constructor.
  - by exists rq.
Qed.

(** With fewer than [AOF_IO_DEPTH] writes in flight a request is free. *)
Lemma find_free_some s done q :
  uinv G F done q s → u_inflight s < Z.of_nat AOF_IO_DEPTH →
  ∃ i rq, aof_find_free_req (u_reqs s) = Some i ∧ u_reqs s !! i = Some rq ∧ rq_in_use rq = false.
Proof.
  intros [_ _ _ _ _ Hd Hc Hw _] Hlt. unfold aof_find_free_req. rewrite take_ge by lia.
  pose proof (find_free_spec (u_reqs s)) as Hf. destruct (find_free (u_reqs s)) as [i|]; [naive_solver|].
  exfalso. assert (seq 0 AOF_IO_DEPTH ⊆ (sq_req <$> u_sq s ++ u_pending s) ++ (cq_req <$> u_cq s)) as Hsub.
  { intros i Hi%elem_of_seq. apply (wo_used _ _ _ _ _ _ Hw).
    destruct (lookup_lt_is_Some_2 (u_reqs s) i) as [rq Hrq]; [lia|].
    exists rq. split; [done|]. by eapply Forall_lookup in Hf. }
  pose proof (submseteq_length _ _ (NoDup_submseteq _ _ (NoDup_seq 0 AOF_IO_DEPTH) Hsub)) as Hlen.
  rewrite length_app, !length_fmap, length_app, length_seq in Hlen. lia.
Qed.

Lemma queued_app q1 q2 : queued (q1 ++ q2) = (queued q1 + queued q2)%nat.
Proof. apply sum_list_with_app. Qed.

Lemma queued_batch q : (2 * length q + length (concat q) = queued q)%nat.
Proof.
  induction q as [|c q IH]; [done|]. cbn [queued sum_list_with concat length].
  fold (queued q). rewrite length_app, <-IH. lia.
Qed.

Lemma submit_loop_spec E s t done q fuel n :
  no_oom E → uinv G F done q s → (Z.of_nat AOF_IO_DEPTH ≤ u_inflight s + Z.of_nat fuel) →
  wp (submit_loop K fuel n) (λ n' s' _, ∃ done' q', uinv G F done' q' s' ∧
    (n ≤ n')%nat ∧ (length (u_sq s') + n = length (u_sq s) + n')%nat ∧ u_stop s' = u_stop s ∧
    u_inflight s' + Z.of_nat n = u_inflight s + Z.of_nat n' ∧
    (u_stop s = true →
       done' ++ q' = done ++ q ∧
       (outstanding s' + queued q' + n' ≤ outstanding s + queued q + n)%nat ∧
       (q ≠ [] → u_inflight s < Z.of_nat AOF_IO_DEPTH → (n < n')%nat))) E s t.
Proof.
  intros Hoom. revert s t done q n. induction fuel as [|fuel IH]; intros s t done q n Hi Hf; cbn [submit_loop];
    wp_step; (eapply wp_mono; [by apply wp_load_write_idx|]);
    intros w s1 t1 (q1 & Hi1 & [B1 B2 B3 B4 B5] & Hin & Hloc & -> & Hstop); wp_step; wp_step; wp_step; wp_step.
  all: assert (∀ t, wp (mret n : M ust nat) (λ n' s' _, ∃ done' q', uinv G F done' q' s' ∧
    (n ≤ n')%nat ∧ (length (u_sq s') + n = length (u_sq s) + n')%nat ∧ u_stop s' = u_stop s ∧
    u_inflight s' + Z.of_nat n = u_inflight s + Z.of_nat n' ∧
    (u_stop s = true →
       done' ++ q' = done ++ q ∧
       (outstanding s' + queued q' + n' ≤ outstanding s + queued q + n)%nat ∧
       (q ≠ [] → u_inflight s < Z.of_nat AOF_IO_DEPTH → (n < n')%nat))) E s1 t ∨
       (q ≠ [] ∧ u_inflight s < Z.of_nat AOF_IO_DEPTH)) as Hstay.
  1, 3: intros t'; destruct (decide (q ≠ [] ∧ u_inflight s < Z.of_nat AOF_IO_DEPTH)) as [?|Hno]; [by right|left];
    wp_steps; exists done, (q ++ q1); unfold outstanding; rewrite B1, B3;
    split_and!; [done|lia|done|done|lia|]; intros Hs; rewrite (Hstop Hs), app_nil_r; split_and!; [done|lia|tauto].
  - destruct (bool_decide _ && _) eqn:Hgo; [apply andb_prop in Hgo as [_ Hgo%Z.ltb_lt]; lia|].
    destruct (Hstay t1) as [?|[_ ?]]; [done|lia].
  - destruct (bool_decide (u_local s1 < u_local s1 + length (q ++ q1))%nat && (u_inflight s1 <? Z.of_nat AOF_IO_DEPTH)) eqn:Hgo.
    + apply andb_prop in Hgo as [Hne%bool_decide_eq_true_1 Hlt%Z.ltb_lt]. clear Hstay.
      destruct (find_free_some s1 done (q ++ q1) Hi1 Hlt) as (i & rq & Hfree & Hrq & Huse).
      wp_step. wp_step. rewrite Hfree, Hrq. wp_step.
      eapply wp_mono; [apply (fill_batch_spec E s1 t1 done (q ++ q1) i rq); [done|done| |done]|].
      { intros Hnil. rewrite Hnil in Hne. simpl in Hne. lia. }
      intros r s2 t2 (-> & s3 & q2 & rq' & qa & qb & r' & Hi3 & [C1 C2 C3 C4 C5] & Hin3 & Hst3 & Heq & Hqa & ->
        & Hu' & Hw' & Hl' & Hbuf' & He' & Hrd' & Hrep'). cbn [Z.leb Z.compare]. wp_step.
      pose proof (uinv_depth _ _ _ _ _ Hi3) as Hdep.
      eapply wp_mono; [apply wp_acquire_sqe; u_simpl; lia|]. intros b ? t3 [-> ->]. cbn [negb].
      wp_step. wp_step. wp_step. wp_step. u_simpl.
      assert (u_reqs s3 !! i = Some rq) as Hrq3 by (by rewrite C1).
      rewrite list_lookup_insert_eq by (by eapply lookup_lt_Some).
      unfold io_uring_prep_write. wp_step. wp_step. wp_step. wp_step. wp_step. wp_step. u_simpl.
      rewrite list_insert_insert_eq. rewrite Heq in Hi3. set (rq2 := Req _ _ _ _ _ _).
      pose proof (uinv_start s3 done qa qb i rq rq2 r' Hi3 Hqa Hrq3 Huse eq_refl Hw' Hl' eq_refl Hbuf' He' Hrd' Hrep') as Hi4.
      eapply wp_mono; [apply (IH _ t3 _ _ (S n) Hi4); u_simpl; lia|].
      intros n' s4 t4 (done' & q' & H1 & H2 & H3 & H4 & Hinf & H5). exists done', q'. u_simpl in *.
      rewrite length_app in H3. simpl in H3. rewrite C2, B2 in *.
      split_and!; [done|lia|rewrite <-B3, <-C3; lia|done|lia|]. intros Hs. destruct (H5 Hs) as (Hlog & H6 & _).
      rewrite (Hstop Hs), (Hst3 ltac:(done)), !app_nil_r in *. subst q.
      split_and!; [by rewrite app_assoc| |lia].
      unfold outstanding in *. u_simpl in *. rewrite C1, B1 in *.
      pose proof (sum_insert (u_reqs s) i rq rq2 ltac:(done)) as Hsum.
      assert (debt rq = 0%nat) as Hz by (unfold debt; by rewrite Huse).
      assert (debt rq2 = S (length (concat qa))) as Hd2 by (unfold debt; simpl; rewrite Hl', Hw'; lia).
      rewrite queued_app, <-(queued_batch qa). destruct qa; [done|]. cbn [length] in *. lia.
    + apply andb_false_iff in Hgo.
      destruct (Hstay t1) as [?|[Hq Hlt]]; [done|]. exfalso.
      destruct Hgo as [H%bool_decide_eq_false|H%Z.ltb_ge]; [|lia].
      apply H. destruct q; [done|]. simpl. lia.
Qed.

(** ** The worker *)

Lemma iteration_spec E s t done q :
  no_oom E → uinv G F done q s → u_sq s = [] →
  wp (uring_iteration K) (λ _ s' _, ∃ done' q', uinv G F done' q' s' ∧ u_sq s' = [] ∧ u_stop s' = u_stop s ∧
    (u_stop s = true → u_log s' = u_log s) ∧
    (u_stop s = true → q ≠ [] ∨ 0 < u_inflight s →
       (outstanding s' + queued q' < outstanding s + queued q)%nat)) E s t.
Proof.
  intros Hoom Hi Hsq. unfold uring_iteration. wp_step. eapply wp_mono; [by apply reap_completions_spec|].
  intros _ s1 t1 (Hi1 & Hsq1 & Hst1 & Ho1 & _). wp_step.
  eapply wp_mono; [apply (submit_loop_spec E s1 t1 done q AOF_IO_DEPTH 0 Hoom Hi1)|].
  { rewrite (ui_count _ _ _ _ _ Hi1). lia. }
  intros n s2 t2 (done' & q' & Hi2 & _ & Hlen & Hst2 & Hcnt & Hdrain). rewrite Hsq1 in Hlen. simpl in Hlen.
  rewrite Hst1 in *.
  assert (∀ s', uinv G F done' q' s' → u_stop s = true → u_log s' = u_log s) as Hlog.
  { intros s' Hi' Hs. rewrite (ui_log _ _ _ _ _ Hi'), (ui_log _ _ _ _ _ Hi). by destruct (Hdrain Hs). }
  destruct (decide (0 < n)%nat) as [Hn|Hn].
  - wp_step. eapply wp_mono; [by apply wp_submit|]. intros b s3 t3 (-> & Hi3 & Hsq3 & Hr3 & Hst3).
    wp_steps. exists done', q'. u_simpl. assert (uinv G F done' q' (with_ring (ring_read (u_local s3) (u_ring s3)) s3)) as Hi4.
    { destruct Hi3 as [Hring Hread Hne Hlg Hoff Hd Hc Hw Hg]. by split; u_simpl. }
    split_and!; [exact Hi4|done|congruence|exact (Hlog _ Hi4)|].
    intros Hs _. destruct (Hdrain Hs) as (_ & Hle & _). unfold outstanding in *. u_simpl. rewrite Hr3. lia.
  - wp_step. wp_step. assert (u_sq s2 = []) as Hsq2 by (destruct (u_sq s2); [done|simpl in *; lia]).
    destruct (0 <? u_inflight s2) eqn:Hinf; to_prop.
    + wp_step. eapply wp_mono; [by apply reap_completions_spec|].
      intros _ s3 t3 (Hi3 & Hsq3 & Hst3 & _ & Ho3). wp_steps. exists done', q'.
      split_and!; [done|done|congruence|by apply Hlog|]. intros Hs _. destruct (Hdrain Hs) as (_ & Hle & _).
      specialize (Ho3 eq_refl Hinf). lia.
    + wp_steps. exists done', q'. split_and!; [done|done|done|by apply Hlog|]. intros Hs Hbusy.
      destruct (Hdrain Hs) as (_ & Hle & Hmust).
      assert (outstanding s2 = 0%nat) as Hz.
      { eapply outstanding_zero; [exact Hi2|]. rewrite (ui_count _ _ _ _ _ Hi2) in *. lia. }
      assert (q = []) as ->.
      { destruct q as [|c q]; [done|]. exfalso.
        assert (u_inflight s1 < Z.of_nat AOF_IO_DEPTH → (0 < n)%nat) as H1 by (by apply Hmust).
        destruct (decide (u_inflight s1 < Z.of_nat AOF_IO_DEPTH)) as [Hlt|Hge]; [by apply Hn, H1|].
        unfold AOF_IO_DEPTH in Hge. lia. }
      destruct Hbusy as [|Hpos]; [done|]. pose proof (outstanding_pos _ _ _ _ _ Hi Hpos).
      assert (outstanding s1 = 0%nat) as Hz1.
      { eapply outstanding_zero; [exact Hi1|]. rewrite (ui_count _ _ _ _ _ Hi1) in *. lia. }
      unfold queued in *. simpl in *. lia.
Qed.

(** Any number of iterations while the server runs. *)
Fixpoint iterations (n : nat) : M ust unit :=
  match n with
  | O => mret tt
  | S n' => uring_iteration K;; iterations n'
  end.

Lemma iterations_spec E s t done q n :
  no_oom E → uinv G F done q s → u_sq s = [] →
  wp (iterations n) (λ _ s' _, ∃ done' q', uinv G F done' q' s' ∧ u_sq s' = []) E s t.
Proof.
  intros Hoom. revert s t done q. induction n as [|n IH]; intros s t done q Hi Hsq; cbn [iterations]; wp_steps.
  { by exists done, q. }
  eapply wp_mono; [by apply (iteration_spec E s t done q)|]. intros _ s1 t1 (done' & q' & Hi' & Hsq' & _).
  by eapply IH.
Qed.

Lemma loop_exit s s1 done q :
  uinv G F done q s → uinv G F done q s1 → q = [] → u_inflight s1 = 0 →
  u_log s1 = u_log s ∧ u_inflight s1 = 0 ∧
  (io_error (u_ring s1) = true ∨ u_file s1 = F ++ concat (u_log s)) ∧
  (G → io_error (u_ring s1) = false).
Proof.
  intros Hi Hi1 -> Hz. pose proof (ui_log _ _ _ _ _ Hi) as Hlog. rewrite app_nil_r in Hlog.
  destruct Hi1 as [_ _ _ Hlog1 _ _ Hc Hw Hg]. rewrite app_nil_r in Hlog1.
  split_and!; [congruence|done| |intros g; by destruct (Hg g)]. destruct (io_error (u_ring s1)); [by left|right].
  destruct (u_sq s1); [|simpl in Hc; lia]. destruct (u_pending s1); [|simpl in Hc; lia].
  destruct (u_cq s1); [|simpl in Hc; lia]. rewrite Hlog. by eapply writes_ok_finished.
Qed.

(** Once stopped the worker returns, and then either the file is the whole log
    or an error has been recorded. *)
Lemma uring_loop_spec E s t done q fuel :
  no_oom E → uinv G F done q s → u_sq s = [] → u_stop s = true →
  (outstanding s + queued q ≤ fuel)%nat →
  wp (uring_loop K fuel) (λ _ s' _, u_log s' = u_log s ∧ u_inflight s' = 0 ∧
    (io_error (u_ring s') = true ∨ u_file s' = F ++ concat (u_log s)) ∧
    (G → io_error (u_ring s') = false)) E s t.
Proof.
  intros Hoom. revert s t done q.
  induction fuel as [|fuel IH]; intros s t done q Hi Hsq Hs Hf; cbn [uring_loop]; unfold uring_busy;
    wp_step; wp_step; wp_step; rewrite Hs; cbn [negb]; wp_step;
    (eapply wp_mono; [by apply wp_load_write_idx|]);
    intros w s1 t1 (q1 & Hi1 & [B1 B2 B3 B4 B5] & Hin & Hloc & -> & Hstop);
    specialize (Hstop Hs) as ->; rewrite app_nil_r in *; wp_step; wp_step; wp_step; wp_step; wp_step.
  all: assert (bool_decide (u_local s1 < u_local s1 + length q)%nat || (0 <? u_inflight s1) = false →
    q = [] ∧ u_inflight s1 = 0) as Hidle.
  1, 3: intros [H%bool_decide_eq_false H']%orb_false_iff; to_prop; rewrite (ui_count _ _ _ _ _ Hi1) in *;
    split; [destruct q; [done|simpl in H; lia]|lia].
  all: assert (bool_decide (u_local s1 < u_local s1 + length q)%nat || (0 <? u_inflight s1) = true →
    q ≠ [] ∨ 0 < u_inflight s1) as Hbusy.
  1, 3: intros [H%bool_decide_eq_true_1|H]%orb_true_iff; to_prop; [left|by right]; destruct q; [simpl in H; lia|done].
  all: destruct (bool_decide _ || _) eqn:Hb; cbn [negb].
  - exfalso. destruct (Hbusy eq_refl) as [Hq|Hpos].
    + destruct q; [done|]. unfold queued in Hf. simpl in Hf. lia.
    + pose proof (outstanding_pos _ _ _ _ _ Hi1 Hpos) as Hp. unfold outstanding in *. rewrite B1 in Hp. lia.
  - wp_steps. destruct (Hidle eq_refl). by apply (loop_exit s s1 done q).
  - wp_step. eapply wp_mono; [apply (iteration_spec E s1 t1 done q Hoom Hi1); congruence|].
    intros _ s2 t2 (done' & q' & Hi2 & Hsq2 & Hst2 & Hlog2 & Hdec).
    assert (u_log s2 = u_log s) as Hlog.
    { rewrite (Hlog2 ltac:(congruence)). by rewrite (ui_log _ _ _ _ _ Hi1), (ui_log _ _ _ _ _ Hi). }
    rewrite <-Hlog. eapply wp_mono; [apply (IH s2 t2 done' q' Hi2 Hsq2); [congruence|]|done].
    specialize (Hdec ltac:(congruence) (Hbusy eq_refl)). unfold outstanding in *. rewrite B1 in Hdec. lia.
  - wp_steps. destruct (Hidle eq_refl). by apply (loop_exit s s1 done q).
Qed.
End spec.

(** ** Theorems *)

(** The log file as kvs_persistence_init opens it in this mode: an empty ring,
    and the offset at the end of the file. *)
Definition uring_init (F : bytes) (cap : nat) : ust :=
  U (Ring ∅ cap 0 0 false) false [] 0 0 (length F) [] [] [] F [].

Lemma alloc_reqs_spec E s t n reqs :
  no_oom E →
  wp (alloc_reqs n reqs) (λ r s' _, r = Some (reqs ++ replicate n (Req [] AOF_BATCH_BUF 0 0 0 false)) ∧ s' = s) E s t.
Proof.
  intros Hoom. revert t reqs. induction n as [|n IH]; intros t reqs; cbn [alloc_reqs]; wp_steps.
  { by rewrite app_nil_r. }
  rewrite Hoom. eapply wp_mono; [apply IH|]. intros r s' t' [-> ->]. by rewrite <-app_assoc.
Qed.

Lemma uring_start_spec (G : Prop) E F cap t :
  no_oom E → (0 < cap)%nat →
  wp uring_start (λ _ s' _, uinv G F [] [] s' ∧ u_sq s' = []) E (uring_init F cap) t.
Proof.
  intros Hoom Hcap. unfold uring_start. wp_step. eapply wp_mono; [by apply alloc_reqs_spec|].
  intros r s t' [-> ->]. rewrite app_nil_l.
  set (reqs := replicate _ _). assert (length reqs = AOF_IO_DEPTH) as Hlen by apply length_replicate.
  assert (∀ i rq, reqs !! i = Some rq → rq_in_use rq = false) as Hfree by (by intros i rq [-> _]%lookup_replicate).
  clearbody reqs. wp_steps. split; [|done]. split; u_simpl; try done.
  - by apply ring_empty.
  - by rewrite app_nil_r.
  - cbn [concat app u_sq uring_init]. rewrite app_nil_r. split; try done.
    + constructor.
    + intros i. cbn [app fmap list_fmap map]. split; [by intros ?%not_elem_of_nil|].
      intros (rq & Hrq%Hfree & ?). congruence.
    + intros i rq Hrq%Hfree ?. congruence.
    + by intros e ?%not_elem_of_nil.
    + by intros c rq ?%not_elem_of_nil.
    + by intros _ p _ b.
Qed.

(** C15: the io_uring worker loses no command. For any number of iterations beside
    a command thread that publishes what it likes, whatever writes the kernel
    performs in whatever order and size, and after the stop, the worker returns
    and the file is what it was followed by every published command in order, or
    io_error is set; and when no write fails or returns 0 the file is complete
    without error, however short the writes. *)
Theorem uring_writes_all K E F cap n t :
  no_oom E → (0 < cap)%nat → (∀ t, k_submit K t = true) → (∀ t, is_Some (k_wait K t)) →
  wp (uring_start;; iterations K n;; modify with_stop;;
      fuel ← gets (λ s, outstanding s + queued (u_log s))%nat; uring_loop K fuel)
    (λ _ s _, u_inflight s = 0 ∧
      (io_error (u_ring s) = true ∨ u_file s = F ++ concat (u_log s)) ∧
      ((∀ t a, a ∈ k_work K t → ∃ k, a.2 = Some (S k)) → (∀ t, ∃ k, k_wait K t = Some (Some (S k))) →
       io_error (u_ring s) = false)) E (uring_init F cap) t.
Proof.
  intros Hoom Hcap Hsub Hwait.
  set (G := (∀ t a, a ∈ k_work K t → ∃ k, a.2 = Some (S k)) ∧ (∀ t, ∃ k, k_wait K t = Some (Some (S k)))).
  assert (G → ∀ t a, a ∈ k_work K t → ∃ k, a.2 = Some (S k)) as Hkinds by (by intros [? _]).
  assert (G → ∀ t how, k_wait K t = Some how → ∃ k, how = Some (S k)) as Hkind.
  { intros [_ Hk] t' how Hw. destruct (Hk t') as [k Hk']. exists k. congruence. }
  wp_step. eapply wp_mono; [by apply (uring_start_spec G)|]. intros _ s1 t1 [Hi1 Hsq1]. wp_step.
  eapply wp_mono; [by apply (iterations_spec K F G Hkinds Hsub Hwait Hkind E s1 t1 [] [])|].
  intros _ s2 t2 (done & q & Hi2 & Hsq2). wp_step. wp_step. wp_step. wp_step.
  assert (uinv G F done q (with_stop s2)) as Hi3.
  { destruct Hi2 as [Hring Hread Hne Hlog Hoff Hd Hc Hw Hg]. by split. }
  eapply wp_mono.
  { apply (uring_loop_spec K F G Hkinds Hsub Hwait Hkind E _ t2 done q _ Hoom Hi3 Hsq2 eq_refl).
    u_simpl. rewrite (ui_log _ _ _ _ _ Hi2), queued_app. lia. }
  intros _ s3 t3 (Hlog & Hz & Hor & Hg). rewrite Hlog. split_and!; [done|done|]. intros H1 H2. by apply Hg.
Qed.

(** A kernel that transfers one byte at a time, beside a command thread that
    appends "ab" at every opportunity. *)
Definition slow_kernel : kernel :=
  Kernel (λ _, [(0%nat, Some 1%nat)]) (λ _, 0%nat) (λ _, true) (λ _, Some (Some 1%nat)) (λ _, [lit "ab"]).

Lemma uring_writes_all_witness :
  wp (uring_start;; iterations slow_kernel 3;; modify with_stop;;
      fuel ← gets (λ s, outstanding s + queued (u_log s))%nat; uring_loop slow_kernel fuel)
    (λ _ s _, u_file s = lit "old" ++ concat (u_log s)) calm (uring_init (lit "old") 4) 0.
Proof.
  eapply wp_mono.
  - apply (uring_writes_all slow_kernel calm (lit "old") 4 3 0 calm_no_oom ltac:(lia)); [done|].
    intros t. by eexists.
  - intros _ s t (_ & [Herr|Hf] & Hgood); [|done].
    rewrite Hgood in Herr; [done| |].
    + intros t' a ->%list_elem_of_singleton. by exists 0%nat.
    + intros t'. by exists 0%nat.
Defined.

(** The publishing step of the command thread is what kvs_persistence_append
    does to the ring when there is room. *)
Lemma publish_is_append E a s t c :
  no_oom E → a_on a = true → a_loading a = false → u_ring s = a_ring a → c ≠ [] →
  io_error (a_ring a) = false → (write_idx (a_ring a) - read_idx (a_ring a) < capacity (a_ring a))%nat →
  wp (kvs_persistence_append c (strlen c)) (λ r a' _, r = 0 ∧ a_ring a' = u_ring (publish [c] s)) E a t.
Proof.
  intros Hoom Hon Hl Hr Hc He Hroom. unfold kvs_persistence_append, set_ring. wp_steps. rewrite Hl, Hon. simpl.
  unfold strlen. rewrite (proj2 (Z.leb_gt _ _)) by (destruct c; [done|simpl; lia]). wp_steps. rewrite He. wp_steps.
  rewrite Hoom. simpl. wp_steps. rewrite decide_True by done. wp_steps. simpl. wp_steps.
  rewrite Nat2Z.id, firstn_all, Hr, He. split; [done|].
  rewrite (bool_decide_false _ Hc), bool_decide_false by lia. done.
Qed.
