(* ===== verification/KvsVector.v ===== *)
(** * The vector index (kvs_vector.c)

    Entries, each a question with an answer and a vector of floats, are found by
    key through a red-black tree and by similarity through a hierarchical graph of
    neighbours (HNSW). An entry is shared by the tree, the array [items] and,
    through its number, the neighbour lists: entries live in a heap, a freed one is
    absent from it. The nodes of the tree are those of KvsRbtree, whose values are
    strings: a pointer to an entry is the string of its digits. *)

From S2P Require Import Prelude Cstdlib Float32 KvSpec KvsRbtree.

Definition KVS_HNSW_MAX_LEVEL : Z := 8.
Definition KVS_HNSW_M : Z := 8.
Definition KVS_HNSW_EF_CONSTRUCTION : Z := 32.
Definition KVS_HNSW_EF_SEARCH : Z := 64.
Definition HNSW_NEIGHBOR_CAP : Z := KVS_HNSW_M * 2.

(** ** Data *)

Record vector_entry := VEntry {
  ve_question  : bytes;
  ve_answer    : bytes;
  ve_vector    : list float;
  ve_dim       : Z;
  ve_norm      : float;
  ve_ctime     : Z;
  ve_id        : Z;                       (* hnsw_id *)
  ve_level     : Z;                       (* hnsw_level *)
  ve_deleted   : bool;                    (* hnsw_deleted *)
  ve_neighbors : list (option (list Z));  (* hnsw_neighbors; NULL is None *)
  ve_count     : list Z                   (* hnsw_neighbor_count *)
}.

Record kvs_vector := KVec {
  vt_tree        : kvs_rbtree;
  vt_heap        : gmap addr vector_entry;
  vt_fresh       : addr;
  vt_items       : option (list (option addr));
  vt_item_cap    : Z;
  vt_next_id     : Z;
  vt_entry_point : Z;
  vt_max_level   : Z;
  vt_rand_seed   : Z;
  vt_count       : Z
}.

(** The global before kvs_vector_create, and after memset. *)
Definition global_vector_tree0 : kvs_vector := KVec global_rbtree0 ∅ 0 None 0 0 0 0 0 0.

Record candidate := Cand { cd_id : Z; cd_score : float }.

Abbreviation T := (M kvs_vector).

Definition set_tree (x : kvs_rbtree) (v : kvs_vector) :=
  KVec x (vt_heap v) (vt_fresh v) (vt_items v) (vt_item_cap v) (vt_next_id v) (vt_entry_point v) (vt_max_level v)
    (vt_rand_seed v) (vt_count v).
Definition set_heap h (v : kvs_vector) :=
  KVec (vt_tree v) h (vt_fresh v) (vt_items v) (vt_item_cap v) (vt_next_id v) (vt_entry_point v) (vt_max_level v)
    (vt_rand_seed v) (vt_count v).
Definition set_items l c (v : kvs_vector) :=
  KVec (vt_tree v) (vt_heap v) (vt_fresh v) l c (vt_next_id v) (vt_entry_point v) (vt_max_level v)
    (vt_rand_seed v) (vt_count v).
Definition set_next_id n (v : kvs_vector) :=
  KVec (vt_tree v) (vt_heap v) (vt_fresh v) (vt_items v) (vt_item_cap v) n (vt_entry_point v) (vt_max_level v)
    (vt_rand_seed v) (vt_count v).
Definition set_entry_point p l (v : kvs_vector) :=
  KVec (vt_tree v) (vt_heap v) (vt_fresh v) (vt_items v) (vt_item_cap v) (vt_next_id v) p l (vt_rand_seed v) (vt_count v).
Definition set_seed n (v : kvs_vector) :=
  KVec (vt_tree v) (vt_heap v) (vt_fresh v) (vt_items v) (vt_item_cap v) (vt_next_id v) (vt_entry_point v)
    (vt_max_level v) n (vt_count v).
Definition set_count n (v : kvs_vector) :=
  KVec (vt_tree v) (vt_heap v) (vt_fresh v) (vt_items v) (vt_item_cap v) (vt_next_id v) (vt_entry_point v)
    (vt_max_level v) (vt_rand_seed v) n.

Definition on_tree {A} (m : M kvs_rbtree A) : T A := zoom vt_tree set_tree m.

Definition get_entry (a : addr) : T vector_entry :=
  h ← gets vt_heap;
  match h !! a with None => fail UseAfterFree | Some e => mret e end.

Definition put_entry (a : addr) (e : vector_entry) : T unit := modify (λ v, set_heap (<[a := e]> (vt_heap v)) v).

Definition set_deleted (a : addr) : T unit :=
  e ← get_entry a;
  put_entry a (VEntry (ve_question e) (ve_answer e) (ve_vector e) (ve_dim e) (ve_norm e) (ve_ctime e) (ve_id e)
                 (ve_level e) true (ve_neighbors e) (ve_count e)).

(** inst->items[id] *)
Definition item (id : Z) : T (option addr) :=
  items ← gets vt_items;
  match items with
  | None => fail NullDeref
  | Some l => if id <? 0 then fail OutOfBounds else
              match l !! Z.to_nat id with None => fail OutOfBounds | Some p => mret p end
  end.

(** entry->hnsw_neighbors[level] and the used part of it *)
Definition neighbors (e : vector_entry) (level : Z) : T (option (list Z)) :=
  if level <? 0 then fail OutOfBounds else
  match ve_neighbors e !! Z.to_nat level with None => fail OutOfBounds | Some r => mret r end.

Definition neighbor_count (e : vector_entry) (level : Z) : T Z :=
  if level <? 0 then fail OutOfBounds else
  match ve_count e !! Z.to_nat level with None => fail OutOfBounds | Some n => mret n end.

Definition used (arr : list Z) (count : Z) : T (list Z) :=
  if Z.of_nat (length arr) <? count then fail OutOfBounds else mret (take (Z.to_nat count) arr).

Definition put_neighbors (a : addr) (level : Z) (arr : option (list Z)) (count : Z) : T unit :=
  e ← get_entry a;
  put_entry a (VEntry (ve_question e) (ve_answer e) (ve_vector e) (ve_dim e) (ve_norm e) (ve_ctime e) (ve_id e)
                 (ve_level e) (ve_deleted e) (<[Z.to_nat level := arr]> (ve_neighbors e))
                 (<[Z.to_nat level := count]> (ve_count e))).

(** ** Vectors *)

Definition COMMA : byte := Byte.x2c.

(** strtok_r (s, ",", ...): the token and what is left after it. *)
Fixpoint skip_commas (s : bytes) : bytes :=
  match s with
  | [] => []
  | c :: s' => if decide (c = COMMA) then skip_commas s' else s
  end.

Fixpoint until_comma (s : bytes) : bytes * bytes :=
  match s with
  | [] => ([], [])
  | c :: s' => if decide (c = COMMA) then ([], s') else let '(k, r) := until_comma s' in (c :: k, r)
  end.

Definition strtok_comma (s : bytes) : option bytes * bytes :=
  match skip_commas s with
  | [] => (None, [])
  | s' => let '(k, r) := until_comma s' in (Some k, r)
  end.

(** while (token && i < dim), and the checks after it; None is NULL. Every token
    takes some of the string. *)
Fixpoint parse_loop (fuel : nat) (dim : Z) (vec : list float) (token : option bytes) (rest : bytes)
    : outcome (option (list float)) :=
  let i := Z.of_nat (length vec) in
  match token with
  | Some tok =>
      if i <? dim then
        match fuel with
        | O => Fault OutOfFuel
        | S fuel' =>
            let '(x, err, fin) := strtof tok in
            if err || bool_decide (length fin = length tok) || negb (bool_decide (fin = [])) || negb (isfinite x)
            then Done None
            else let '(token', rest') := strtok_comma rest in parse_loop fuel' dim (vec ++ [x]) token' rest'
        end
      else Done None
  | None => Done (if i =? dim then Some vec else None)
  end.

Definition parse_vector (vector_str : bytes) (dim : Z) : T (option (list float)) :=
  if dim <=? 0 then mret None else
  ok ← kvs_malloc;
  if negb ok then mret None else
  ok ← kvs_malloc;
  if negb ok then mret None else
  let '(token, rest) := strtok_comma vector_str in
  match parse_loop (length vector_str) dim [] token rest with Done r => mret r | Fault f => fail f end.

Definition vector_norm (vec : list float) : float := sqrtf (fold_left (λ sum x, fadd sum (fmul x x)) vec f_zero).

Definition cosine_similarity (a b : list float) (norm_a norm_b : float) : float :=
  if fle norm_a f_zero || fle norm_b f_zero then f_m2
  else fdiv (fold_left (λ dot p, fadd dot (fmul p.1 p.2)) (zip a b) f_zero) (fmul norm_a norm_b).

(** ** Candidates *)

Definition candidate_find (items : list candidate) (id : Z) : bool := existsb (λ c, cd_id c =? id) items.

(** The shifting loop: from the last place towards the front. *)
Fixpoint shift_in (c : candidate) (from_end : list candidate) : list candidate :=
  match from_end with
  | x :: l => if flt (cd_score x) (cd_score c) then x :: shift_in c l else c :: from_end
  | [] => [c]
  end.

Definition last_score (items : list candidate) : float :=
  match last items with Some c => cd_score c | None => f_zero end.

Definition candidate_add_sorted (items : list candidate) (cap id : Z) (score : float) : list candidate :=
  if (cap <=? 0) || (id <? 0) then items else
  if candidate_find items id then items else
  let count := Z.of_nat (length items) in
  if (cap <=? count) && fle score (last_score items) then items else
  let kept := if cap <=? count then take (Z.to_nat (cap - 1)) items else items in
  rev (shift_in (Cand id score) (rev kept)).

(** ** Scores *)

Definition entry_score (e : vector_entry) (query : list float) (dim : Z) (query_norm : float) : T float :=
  if ve_deleted e || negb (ve_dim e =? dim) then mret f_m2 else
  if (Z.of_nat (length query) <? dim) || (Z.of_nat (length (ve_vector e)) <? dim) then fail OutOfBounds else
  mret (cosine_similarity (take (Z.to_nat dim) query) (take (Z.to_nat dim) (ve_vector e)) query_norm (ve_norm e)).

Definition id_score (id : Z) (query : list float) (dim : Z) (query_norm : float) : T float :=
  v ← gets (λ v, v);
  if (id <? 0) || (vt_next_id v <=? id) || match vt_items v with None => true | _ => false end then mret f_m2 else
  p ← item id;
  match p with
  | None => mret f_m2
  | Some a => e ← get_entry a; entry_score e query dim query_norm
  end.

(** ** Entries *)

Definition ensure_item_capacity : T Z :=
  v ← gets (λ v, v);
  if vt_next_id v <? vt_item_cap v then mret 0 else
  new_cap ← (if vt_item_cap v =? 0 then mret 128 else checked32 (vt_item_cap v * 2));
  ok ← kvs_malloc;
  if negb ok then mret (-1) else
  let old := match vt_items v with Some l => take (Z.to_nat (vt_item_cap v)) l | None => [] end in
  modify (set_items (Some (old ++ replicate (Z.to_nat new_cap - length old) None)) new_cap);;
  mret 0.

Definition hnsw_rand : T Z :=
  seed ← gets vt_rand_seed;
  let seed' := u32 (u32 (seed * 1103515245) + 12345) in
  modify (set_seed seed');;
  mret seed'.

(** while (level + 1 < KVS_HNSW_MAX_LEVEL), [n] levels to go *)
Fixpoint random_level_loop (n : nat) (level : Z) : T Z :=
  match n with
  | O => mret level
  | S n' =>
      r ← hnsw_rand;
      if 0x8000 <=? Z.land r 0xffff then mret level else random_level_loop n' (level + 1)
  end.

Definition hnsw_random_level : T Z := random_level_loop (Z.to_nat (KVS_HNSW_MAX_LEVEL - 1)) 0.

(** for (level = 0; level <= entry->hnsw_level && level < KVS_HNSW_MAX_LEVEL; level++), [n] to go *)
Fixpoint alloc_neighbors_loop (n : nat) (a : addr) (level : Z) : T Z :=
  e ← get_entry a;
  if negb ((level <=? ve_level e) && (level <? KVS_HNSW_MAX_LEVEL)) then mret 0 else
  match n with
  | O => fail OutOfFuel
  | S n' =>
      ok ← kvs_malloc;
      if negb ok then put_neighbors a level None (default 0 (ve_count e !! Z.to_nat level));; mret (-1) else
      put_neighbors a level (Some (replicate (Z.to_nat HNSW_NEIGHBOR_CAP) (-1))) 0;;
      alloc_neighbors_loop n' a (level + 1)
  end.

Definition hnsw_alloc_neighbors (a : addr) : T Z := alloc_neighbors_loop (Z.to_nat KVS_HNSW_MAX_LEVEL) a 0.

(** NULL is None; [vector] becomes part of the entry. *)
Definition vector_entry_create (question answer : bytes) (dim : Z) (vector : list float) : T (option addr) :=
  if dim <=? 0 then mret None else
  ok ← kvs_malloc;
  if negb ok then mret None else
  okq ← kvs_malloc;
  oka ← kvs_malloc;
  if negb okq || negb oka then mret None else
  now ← kvs_current_time_ms;
  let norm := vector_norm (take (Z.to_nat dim) vector) in
  if fle norm f_zero then mret None else
  a ← gets vt_fresh;
  modify (λ v, KVec (vt_tree v)
    (<[a := VEntry question answer vector dim norm now (-1) 0 false
              (replicate (Z.to_nat KVS_HNSW_MAX_LEVEL) None) (replicate (Z.to_nat KVS_HNSW_MAX_LEVEL) 0)]> (vt_heap v))
    (S a) (vt_items v) (vt_item_cap v) (vt_next_id v) (vt_entry_point v) (vt_max_level v) (vt_rand_seed v) (vt_count v));;
  mret (Some a).

Definition vector_entry_free (a : addr) : T unit :=
  _e ← get_entry a;
  modify (λ v, set_heap (delete a (vt_heap v)) v).

(** ** Neighbours *)

(** The candidates among the neighbours [nids] of entry [e]. *)
Fixpoint prune_scan (e : vector_entry) (nids : list Z) (tmp : list candidate) : T (list candidate) :=
  match nids with
  | [] => mret tmp
  | nid :: nids' =>
      score ← id_score nid (ve_vector e) (ve_dim e) (ve_norm e);
      prune_scan e nids' (if flt f_m2 score then candidate_add_sorted tmp HNSW_NEIGHBOR_CAP nid score else tmp)
  end.

Definition hnsw_prune_neighbors (a : addr) (level : Z) : T unit :=
  if (level <? 0) || (KVS_HNSW_MAX_LEVEL <=? level) then mret tt else
  e ← get_entry a;
  arr ← neighbors e level;
  match arr with
  | None => mret tt
  | Some arr =>
      n ← neighbor_count e level;
      nids ← used arr n;
      tmp ← prune_scan e nids [];
      let kept := take (Z.to_nat KVS_HNSW_M) (cd_id <$> tmp) in
      put_neighbors a level (Some (kept ++ replicate (Z.to_nat HNSW_NEIGHBOR_CAP - length kept) (-1)))
        (Z.of_nat (length kept))
  end.

(** The neighbour with the worst score: its index and score. *)
Fixpoint worst_neighbor (e : vector_entry) (i : Z) (nids : list Z) (worst_idx : Z) (worst_score : float) : T (Z * float) :=
  match nids with
  | [] => mret (worst_idx, worst_score)
  | nid :: nids' =>
      score ← id_score nid (ve_vector e) (ve_dim e) (ve_norm e);
      if flt score worst_score then worst_neighbor e (i + 1) nids' i score
      else worst_neighbor e (i + 1) nids' worst_idx worst_score
  end.

Definition hnsw_add_neighbor (from_id to_id level : Z) : T unit :=
  next_id ← gets vt_next_id;
  if (from_id <? 0) || (to_id <? 0) || (from_id =? to_id) || (next_id <=? from_id) || (next_id <=? to_id) ||
     (level <? 0) || (KVS_HNSW_MAX_LEVEL <=? level) then mret tt else
  p ← item from_id;
  match p with
  | None => mret tt
  | Some from =>
      e ← get_entry from;
      if ve_deleted e || (ve_level e <? level) then mret tt else
      arr ← neighbors e level;
      match arr with
      | None => mret tt
      | Some arr =>
          count ← neighbor_count e level;
          nids ← used arr count;
          if existsb (Z.eqb to_id) nids then mret tt else
          if count <? HNSW_NEIGHBOR_CAP then
            if Z.of_nat (length arr) <=? count then fail OutOfBounds else
            put_neighbors from level (Some (<[Z.to_nat count := to_id]> arr)) (count + 1);;
            hnsw_prune_neighbors from level
          else
            to_score ← id_score to_id (ve_vector e) (ve_dim e) (ve_norm e);
            '(worst_idx, worst_score) ← worst_neighbor e 0 nids (-1) FLT_MAX;
            if (0 <=? worst_idx) && flt worst_score to_score then
              put_neighbors from level (Some (<[Z.to_nat worst_idx := to_id]> arr)) count;;
              hnsw_prune_neighbors from level
            else mret tt
      end
  end.

(** ** Searching *)

Section query.
Context (query : list float) (dim : Z) (query_norm : float).

(** The loop over the neighbours of one entry. *)
Fixpoint greedy_scan (nids : list Z) (current : Z) (current_score : float) (changed : bool) : T (Z * float * bool) :=
  match nids with
  | [] => mret (current, current_score, changed)
  | nid :: nids' =>
      score ← id_score nid query dim query_norm;
      if flt current_score score then greedy_scan nids' nid score true
      else greedy_scan nids' current current_score changed
  end.

(** while (changed) *)
Fixpoint greedy_loop (fuel : nat) (level current : Z) (current_score : float) : T Z :=
  next_id ← gets vt_next_id;
  if (current <? 0) || (next_id <=? current) then mret current else
  p ← item current;
  match p with
  | None => mret current
  | Some a =>
      e ← get_entry a;
      if ve_level e <? level then mret current else
      arr ← neighbors e level;
      match arr with
      | None => mret current
      | Some arr =>
          n ← neighbor_count e level;
          nids ← used arr n;
          '(current', score', changed) ← greedy_scan nids current current_score false;
          if changed : bool then
            match fuel with
            | O => fail OutOfFuel
            | S fuel' => greedy_loop fuel' level current' score'
            end
          else mret current'
      end
  end.

(** Every round but the last improves the score, so no entry is current twice. *)
Definition hnsw_greedy (entry_id level : Z) : T Z :=
  score ← id_score entry_id query dim query_norm;
  fuel ← gets (λ v, Z.to_nat (vt_next_id v));
  greedy_loop fuel level entry_id score.

(** The neighbours of one candidate. *)
Fixpoint expand (ef : Z) (nids : list Z) (cands : list candidate) (visited : list bool) : T (list candidate * list bool) :=
  match nids with
  | [] => mret (cands, visited)
  | nid :: nids' =>
      next_id ← gets vt_next_id;
      if (nid <? 0) || (next_id <=? nid) then expand ef nids' cands visited else
      match visited !! Z.to_nat nid with
      | None => fail OutOfBounds
      | Some true => expand ef nids' cands visited
      | Some false =>
          score ← id_score nid query dim query_norm;
          expand ef nids' (if flt f_m2 score then candidate_add_sorted cands ef nid score else cands)
            (<[Z.to_nat nid := true]> visited)
      end
  end.

(** for (cursor = 0; cursor < count; cursor++), at most [ef] rounds *)
Fixpoint layer_loop (fuel : nat) (ef level : Z) (cursor : nat) (cands : list candidate) (visited : list bool)
    : T (list candidate) :=
  match cands !! cursor with
  | None => mret cands
  | Some c =>
      match fuel with
      | O => fail OutOfFuel
      | S fuel' =>
          p ← item (cd_id c);
          match p with
          | None => layer_loop fuel' ef level (S cursor) cands visited
          | Some a =>
              e ← get_entry a;
              if ve_level e <? level then layer_loop fuel' ef level (S cursor) cands visited else
              arr ← neighbors e level;
              match arr with
              | None => layer_loop fuel' ef level (S cursor) cands visited
              | Some arr =>
                  n ← neighbor_count e level;
                  nids ← used arr n;
                  '(cands', visited') ← expand ef nids cands visited;
                  layer_loop fuel' ef level (S cursor) cands' visited'
              end
          end
      end
  end.

(** The return value and out[0 .. *out_count). *)
Definition hnsw_search_layer (entry_id ef level : Z) : T (Z * list candidate) :=
  if (entry_id <? 0) || (ef <=? 0) then mret (-1, []) else
  okc ← kvs_malloc;
  okv ← kvs_malloc;
  if negb okc || negb okv then mret (-1, []) else
  next_id ← gets vt_next_id;
  let visited := replicate (Z.to_nat next_id) false in
  score ← id_score entry_id query dim query_norm;
  let cands := candidate_add_sorted [] ef entry_id score in
  if next_id <=? entry_id then fail OutOfBounds else
  out ← layer_loop (Z.to_nat ef) ef level 0 cands (<[Z.to_nat entry_id := true]> visited);
  mret (0, out).

(** exact_search_all; [n] entries from number [eid] on *)
Fixpoint exact_loop (n : nat) (eid topk : Z) (threshold : float) (top : list candidate) : T (list candidate) :=
  match n with
  | O => mret top
  | S n' =>
      score ← id_score eid query dim query_norm;
      exact_loop n' (eid + 1) topk threshold (if fle threshold score then candidate_add_sorted top topk eid score else top)
  end.

Definition exact_search_all (topk : Z) (threshold : float) (top : list candidate) : T (list candidate) :=
  n ← gets (λ v, Z.to_nat (vt_next_id v));
  exact_loop n 0 topk threshold top.

(** The candidates above the threshold. *)
Fixpoint pick_top (cands : list candidate) (topk : Z) (threshold : float) (top : list candidate) : T (list candidate) :=
  match cands with
  | [] => mret top
  | c :: cands' =>
      score ← id_score (cd_id c) query dim query_norm;
      pick_top cands' topk threshold (if fle threshold score then candidate_add_sorted top topk (cd_id c) score else top)
  end.

(** for (level = ...; level > bottom; level--), [n] to go *)
Fixpoint descend (n : nat) (ep level : Z) : T Z :=
  match n with
  | O => mret ep
  | S n' => ep' ← hnsw_greedy ep level; descend n' ep' (level - 1)
  end.
End query.

(** ** Insertion *)

(** The links between the new entry and what was found on one level. *)
Fixpoint link_all (eid level : Z) (found : list candidate) : T unit :=
  match found with
  | [] => mret tt
  | c :: found' =>
      hnsw_add_neighbor eid (cd_id c) level;;
      hnsw_add_neighbor (cd_id c) eid level;;
      link_all eid level found'
  end.

(** for (level = ...; level >= 0; level--), [n] levels to go *)
Fixpoint insert_levels (n : nat) (a : addr) (ep level : Z) : T Z :=
  match n with
  | O => mret 0
  | S n' =>
      e ← get_entry a;
      '(ret, found) ← hnsw_search_layer (ve_vector e) (ve_dim e) (ve_norm e) ep KVS_HNSW_EF_CONSTRUCTION level;
      if negb (ret =? 0) then mret (-1) else
      link_all (ve_id e) level (take (Z.to_nat KVS_HNSW_M) found);;
      insert_levels n' a (match found with c :: _ => cd_id c | [] => ep end) (level - 1)
  end.

Definition hnsw_insert (a : addr) : T Z :=
  e ← get_entry a;
  if ve_id e <? 0 then mret (-1) else
  v ← gets (λ v, v);
  if vt_entry_point v <? 0 then modify (set_entry_point (ve_id e) (ve_level e));; mret 0 else
  let ep := vt_entry_point v in
  let old_max := vt_max_level v in
  ep ← descend (ve_vector e) (ve_dim e) (ve_norm e) (Z.to_nat (old_max - ve_level e)) ep old_max;
  let top := if ve_level e <? old_max then ve_level e else old_max in
  r ← insert_levels (Z.to_nat (top + 1)) a ep top;
  if negb (r =? 0) then mret (-1) else
  max_level ← gets vt_max_level;
  (if max_level <? ve_level e then modify (set_entry_point (ve_id e) (ve_level e)) else mret tt);;
  mret 0.

Definition vector_attach_to_hnsw (a : addr) : T Z :=
  r ← ensure_item_capacity;
  if negb (r =? 0) then mret (-1) else
  next_id ← gets vt_next_id;
  level ← hnsw_random_level;
  e ← get_entry a;
  put_entry a (VEntry (ve_question e) (ve_answer e) (ve_vector e) (ve_dim e) (ve_norm e) (ve_ctime e) next_id
                 level (ve_deleted e) (ve_neighbors e) (ve_count e));;
  r ← hnsw_alloc_neighbors a;
  if negb (r =? 0) then mret (-1) else
  items ← gets vt_items;
  match items with
  | None => fail NullDeref
  | Some l =>
      if Z.of_nat (length l) <=? next_id then fail OutOfBounds else
      cap ← gets vt_item_cap;
      modify (set_items (Some (<[Z.to_nat next_id := Some a]> l)) cap);;
      next' ← checked32 (next_id + 1);
      modify (set_next_id next');;
      hnsw_insert a
  end.

(** ** The index *)

(** Pointers to entries as values of the tree. *)
Definition entry_ptr (a : addr) : cptr := PStr (dec (Z.of_nat a)).
Definition ptr_entry (p : cptr) : option addr :=
  match p with PStr d => Some (Z.to_nat (numeral 0 d)) | _ => None end.

(** while (inst->tree.root != inst->tree.nil); every round frees a node *)
Fixpoint free_nodes_loop (fuel : nat) : M kvs_rbtree unit :=
  root ← gets rb_root;
  nil ← gets rb_nil;
  if decide (root = nil) then mret tt else
  match fuel with
  | O => fail OutOfFuel
  | S fuel' =>
      r ← get_root;
      mini ← rbtree_mini r;
      cur ← rbtree_delete mini;
      k ← f_key cur;
      (match k with PNull => mret tt | _ => kvs_free k end);;
      free_block cur;;
      free_nodes_loop fuel'
  end.

Definition free_tree_nodes_only : T unit :=
  on_tree (
    fuel ← walk_fuel;
    free_nodes_loop fuel;;
    nil ← gets rb_nil;
    match nil with
    | None => mret tt
    | Some n => free_block n;; modify (λ s, KRb (rb_heap s) (rb_fresh s) (rb_root s) None)
    end).

Definition kvs_vector_create : T Z :=
  modify (λ v, KVec (KRb (rb_heap (vt_tree v)) (rb_fresh (vt_tree v)) None None) (vt_heap v) (vt_fresh v) None 0 0 0 0 0 0);;
  r ← on_tree kvs_rbtree_create;
  if negb (r =? 0) then mret (-1) else
  modify (λ v, set_seed 0x9e3779b9 (set_entry_point (-1) 0 v));;
  mret 0.

Fixpoint free_items (items : list (option addr)) : T unit :=
  match items with
  | [] => mret tt
  | None :: l => free_items l
  | Some a :: l => vector_entry_free a;; free_items l
  end.

Definition kvs_vector_destroy : T unit :=
  free_tree_nodes_only;;
  v ← gets (λ v, v);
  (match vt_items v with
   | None => mret tt
   | Some l =>
       if Z.of_nat (length l) <? vt_next_id v then fail OutOfBounds else
       free_items (take (Z.to_nat (vt_next_id v)) l)
   end);;
  modify (λ v, KVec (KRb (rb_heap (vt_tree v)) (rb_fresh (vt_tree v)) None None) (vt_heap v) (vt_fresh v) None 0 0 (-1) 0 0 0).

(** The new node is cleared by memset; every field is written before it is read. *)
Definition kvs_vector_set (question answer : bytes) (dim : Z) (vector_str : bytes) : T Z :=
  if dim <=? 0 then mret (-1) else
  vec ← parse_vector vector_str dim;
  match vec with
  | None => mret (-2)
  | Some vec =>
      entry ← vector_entry_create question answer dim vec;
      match entry with
      | None => mret (-2)
      | Some a =>
          r ← vector_attach_to_hnsw a;
          if negb (r =? 0) then vector_entry_free a;; mret (-2) else
          old ← on_tree (rbtree_search question);
          nil ← on_tree get_nil;
          if negb (bool_decide (old = nil)) then
            old_value ← on_tree (f_value old);
            (match ptr_entry old_value with Some o => set_deleted o | None => mret tt end);;
            on_tree (set_value old (entry_ptr a));;
            mret 0
          else
          node ← on_tree alloc_node;
          match node with
          | None => set_deleted a;; mret (-2)
          | Some z =>
              ok ← kvs_malloc;
              if negb ok then on_tree (free_block z);; set_deleted a;; mret (-2) else
              on_tree (set_key z (PStr question);; set_value z (entry_ptr a);; set_expire z (-1);; rbtree_insert z);;
              count ← gets vt_count;
              count' ← checked32 (count + 1);
              modify (set_count count');;
              mret 0
          end
      end
  end.

Definition kvs_vector_get_by_key (question : bytes) : T (option addr) :=
  node ← on_tree (rbtree_search question);
  nil ← on_tree get_nil;
  if decide (node = nil) then mret None else
  p ← on_tree (f_value node);
  mret (ptr_entry p).

Record search_result := SResult { sr_question : bytes; sr_answer : bytes; sr_score : float }.

(** The results of the entries found. *)
Fixpoint read_results (top : list candidate) : T (list search_result) :=
  match top with
  | [] => mret []
  | c :: top' =>
      p ← item (cd_id c);
      match p with
      | None => fail NullDeref
      | Some a =>
          e ← get_entry a;
          rest ← read_results top';
          mret (SResult (ve_question e) (ve_answer e) (cd_score c) :: rest)
      end
  end.

(** The return value and results[0 .. *out_count). *)
Definition kvs_vector_search (dim : Z) (vector_str : bytes) (topk : Z) (threshold : float) : T (Z * list search_result) :=
  if (dim <=? 0) || (topk <=? 0) then mret (-1, []) else
  let topk := if 128 <? topk then 128 else topk in
  vec ← parse_vector vector_str dim;
  match vec with
  | None => mret (-2, [])
  | Some query =>
      let query_norm := vector_norm query in
      if fle query_norm f_zero then mret (-2, []) else
      ok ← kvs_malloc;
      if negb ok then mret (-2, []) else
      v ← gets (λ v, v);
      cands ← (if (0 <=? vt_entry_point v) && (0 <? vt_next_id v) then
                 ep ← descend query dim query_norm (Z.to_nat (vt_max_level v)) (vt_entry_point v) (vt_max_level v);
                 r ← hnsw_search_layer query dim query_norm ep KVS_HNSW_EF_SEARCH 0;
                 mret r.2
               else mret []);
      top ← pick_top query dim query_norm cands topk threshold [];
      match top with
      | [] => mret (0, [])
      | _ =>
          ok ← kvs_malloc;
          if negb ok then mret (-2, []) else
          results ← read_results top;
          mret (Z.of_nat (length top), results)
      end
  end.

(** The return value, and *result when it is 1. *)
Definition kvs_vector_get_by_vector (dim : Z) (vector_str : bytes) (threshold : float) : T (Z * option search_result) :=
  '(ret, results) ← kvs_vector_search dim vector_str 1 threshold;
  if ret <? 0 then mret (ret, None) else
  match results with
  | [] => mret (0, None)
  | r :: _ => mret (1, Some r)
  end.
