(* ===== verification/VectorSpec.v ===== *)
(** * The vector index is well-formed and its searches are sound

    The invariant of the index, what reading it gives, and that every operation
    keeps it. *)

From stdpp Require Import sorting.
From S2P Require Import Prelude Cstdlib Float32 KvSpec KvsRbtree RbtreeShape RbtreeInsert RbtreeSearch RbtreeUnlink RbtreeEngine KvsVector.

#[global] Opaque fadd fmul fdiv sqrtf strtof.

(** ** Parsing *)

(** What parse_vector makes of a text when memory does not run out. *)
Definition parsed (str : bytes) (dim : Z) : option (list float) :=
  let '(token, rest) := strtok_comma str in
  match parse_loop (length str) dim [] token rest with Done r => r | Fault _ => None end.

Lemma skip_commas_length s : (length (skip_commas s) ≤ length s)%nat.
Proof. induction s as [|c s IH]; cbn [skip_commas]; [done|]. case_decide; simpl; lia. Qed.

Lemma until_comma_length s : s ≠ [] → (length (until_comma s).2 < length s)%nat.
Proof.
  induction s as [|c s IH]; [done|]. intros _. cbn [until_comma]. case_decide; [simpl; lia|].
  destruct s as [|d s]; [simpl; lia|]. destruct (until_comma (d :: s)) as [k r] eqn:Hu. cbn [snd] in *.
  specialize (IH ltac:(done)). simpl in *. lia.
Qed.

Lemma strtok_comma_length s tok r : strtok_comma s = (Some tok, r) → (length r < length s)%nat.
Proof.
  unfold strtok_comma. pose proof (skip_commas_length s) as Hl. destruct (skip_commas s) as [|c s'] eqn:Hs; [done|].
  pose proof (until_comma_length (c :: s') ltac:(done)) as Hu. destruct (until_comma (c :: s')) as [k r'].
  intros [= _ <-]. cbn [snd] in Hu. lia.
Qed.

(** The text bounds the rounds; what is accepted has the right length. *)
Lemma parse_loop_spec fuel dim vec token rest :
  0 ≤ dim → Z.of_nat (length vec) ≤ dim → (match token with Some _ => length rest < fuel | None => True end)%nat →
  ∃ r, parse_loop fuel dim vec token rest = Done r ∧ ∀ v, r = Some v → Z.of_nat (length v) = dim.
Proof.
  intros Hd. revert vec token rest. induction fuel as [|fuel IH]; intros vec [tok|] rest Hlen Hf; cbn [parse_loop];
    try (lia || (eexists; split; [done|]; intros v; destruct (_ =? _) eqn:He; [intros [= <-]; by to_prop|done])).
  destruct (_ <? _) eqn:Hi; [|by eexists]. to_prop. destruct (strtof tok) as [[x err] fin].
  destruct (_ || _); [by eexists|]. destruct (strtok_comma rest) as [token' rest'] eqn:Ht.
  apply IH; [rewrite length_app; simpl; lia|]. destruct token'; [|done]. apply strtok_comma_length in Ht. lia.
Qed.

Lemma parsed_length str dim vec : 0 ≤ dim → parsed str dim = Some vec → Z.of_nat (length vec) = dim.
Proof.
  intros Hd. unfold parsed. destruct (strtok_comma str) as [token rest] eqn:Ht.
  destruct (parse_loop_spec (length str) dim [] token rest Hd) as (r & -> & Hr); [simpl; lia|by destruct token; [apply strtok_comma_length in Ht|]|].
  apply Hr.
Qed.

Lemma parse_vector_spec E str dim v t Q :
  no_oom E → 0 < dim → Q (parsed str dim) v (S (S t)) → wp (parse_vector str dim) Q E v t.
Proof.
  intros HE Hd HQ. unfold parse_vector. rewrite (proj2 (Z.leb_gt _ _)) by done. wp_steps. rewrite HE. cbn [negb].
  wp_steps. rewrite HE. cbn [negb]. unfold parsed in HQ. destruct (strtok_comma str) as [token rest] eqn:Ht.
  destruct (parse_loop_spec (length str) dim [] token rest) as (r & Hp & _);
    [lia|simpl; lia|by destruct token; [apply strtok_comma_length in Ht|]|].
  rewrite Hp in *. by wp_steps.
Qed.

(** ** Candidates *)

Section candidates.
Implicit Types (c : candidate) (l cands top items kept : list candidate).

Lemma shift_in_perm c l : shift_in c l ≡ₚ c :: l.
Proof.
  induction l as [|x l IH]; cbn [shift_in]; [done|]. destruct (flt _ _); [|done]. rewrite IH. apply perm_swap.
Qed.

(** A candidate is added at its place, the last one falling out of a full list, or
    nothing changes. *)
Lemma add_sorted_cases items cap i s :
  Z.of_nat (length items) ≤ cap →
  candidate_add_sorted items cap i s = items ∨
  0 ≤ i ∧ i ∉ (cd_id <$> items) ∧ ∃ kept, kept `prefix_of` items ∧ Z.of_nat (length kept) < cap ∧
    (kept = items ∨ Z.of_nat (length items) = cap) ∧
    candidate_add_sorted items cap i s = rev (shift_in (Cand i s) (rev kept)).
Proof.
  intros Hlen. unfold candidate_add_sorted. destruct (_ || _) eqn:H1; [by left|]. to_prop.
  destruct (candidate_find items i) eqn:H2; [by left|]. destruct (_ && _) eqn:H3; [by left|]. right.
  split_and!; [lia| |].
  - intros (x & -> & Hx)%list_elem_of_fmap. apply not_true_iff_false in H2. apply H2. unfold candidate_find.
    apply existsb_exists. exists x. split; [by apply list_elem_of_In|lia].
  - destruct (cap <=? _) eqn:H4; to_prop.
    + exists (take (Z.to_nat (cap - 1)) items). split_and!; [apply prefix_take|rewrite length_take; lia|right; lia|done].
    + exists items. split_and!; [done|lia|by left|done].
Qed.

Definition desc c1 c2 : Prop := fle (cd_score c2) (cd_score c1) = true.

Lemma StronglySorted_rev {A} (R : A → A → Prop) (l : list A) : StronglySorted R l → StronglySorted (λ x y, R y x) (rev l).
Proof.
  induction 1 as [|x l Hl IH Hx]; cbn [rev]; [constructor|]. apply StronglySorted_app. split_and!; [|done|repeat constructor].
  intros y z Hy Hz. apply list_elem_of_singleton in Hz as ->. rewrite Forall_forall in Hx. apply Hx.
  apply list_elem_of_In, in_rev in Hy. by apply list_elem_of_In.
Qed.

Lemma shift_in_sorted c l :
  is_num (cd_score c) = true → Forall (λ x, is_num (cd_score x) = true) l →
  StronglySorted (λ x y, desc y x) l → StronglySorted (λ x y, desc y x) (shift_in c l).
Proof.
  intros Hc Hl. induction l as [|x l IH]; cbn [shift_in]; [by repeat constructor|].
  intros [Hs Hx]%StronglySorted_inv. apply Forall_cons in Hl as [Hnx Hl]. destruct (flt _ _) eqn:Hf.
  - constructor; [by apply IH|]. rewrite shift_in_perm. constructor; [|done]. unfold desc.
    rewrite fle_not_flt by done. apply negb_true_iff, not_true_iff_false. intros Hf2.
    pose proof (flt_trans _ _ _ Hf Hf2) as Hff. by rewrite flt_irrefl in Hff.
  - assert (desc x c) as Hxc by (unfold desc; by rewrite fle_not_flt, Hf by done).
    constructor; [by constructor|]. constructor; [done|]. eapply Forall_impl; [exact Hx|]. intros y Hy.
    unfold desc in *. eapply fle_trans; done.
Qed.

End candidates.

(** ** The graph *)

Implicit Types (v : kvs_vector) (e : vector_entry) (a : addr).

Definition item_at v (i : Z) : option addr := vt_items v ≫= λ l, l !! Z.to_nat i ≫= id.

Definition entry_at v (i : Z) : option vector_entry := item_at v i ≫= λ a, vt_heap v !! a.

(** One neighbour list: at most [B] different other entries. *)
Record list_ok (B n i : Z) (arr : list Z) (c : Z) : Prop := {
  lk_length : length arr = Z.to_nat HNSW_NEIGHBOR_CAP;
  lk_count  : 0 ≤ c ≤ B;
  lk_range  : Forall (λ j, 0 ≤ j < n ∧ j ≠ i) (take (Z.to_nat c) arr);
  lk_nodup  : NoDup (take (Z.to_nat c) arr)
}.

(** Entry number [i] of [n]. *)
Record entry_ok (B n i : Z) e : Prop := {
  eo_id    : ve_id e = i;
  eo_dim   : 0 < ve_dim e ∧ Z.of_nat (length (ve_vector e)) = ve_dim e;
  eo_level : 0 ≤ ve_level e < KVS_HNSW_MAX_LEVEL;
  eo_size  : length (ve_neighbors e) = Z.to_nat KVS_HNSW_MAX_LEVEL ∧ length (ve_count e) = Z.to_nat KVS_HNSW_MAX_LEVEL;
  eo_lists l : 0 ≤ l ≤ ve_level e → ∃ arr c,
    ve_neighbors e !! Z.to_nat l = Some (Some arr) ∧ ve_count e !! Z.to_nat l = Some c ∧ list_ok B n i arr c
}.

Record graph_ok (B : Z) v : Prop := {
  go_cap   : match vt_items v with Some l => Z.of_nat (length l) = vt_item_cap v | None => vt_item_cap v = 0 end;
  go_next  : 0 ≤ vt_next_id v ≤ vt_item_cap v;
  go_items i : 0 ≤ i < vt_next_id v → ∃ a e, item_at v i = Some a ∧ vt_heap v !! a = Some e ∧ entry_ok B (vt_next_id v) i e;
  go_heap a e : vt_heap v !! a = Some e → 0 ≤ ve_id e < vt_next_id v ∧ item_at v (ve_id e) = Some a;
  go_fresh a : is_Some (vt_heap v !! a) → (a < vt_fresh v)%nat;
  go_entry : if vt_next_id v =? 0 then vt_entry_point v = -1
             else 0 ≤ vt_entry_point v < vt_next_id v ∧ ∃ e, entry_at v (vt_entry_point v) = Some e ∧ ve_level e = vt_max_level v
}.

Lemma item_entry v i a e : item_at v i = Some a → vt_heap v !! a = Some e → entry_at v i = Some e.
Proof. intros Hi Ha. unfold entry_at. by rewrite Hi. Qed.

Lemma go_entry_at B v i : graph_ok B v → 0 ≤ i < vt_next_id v → ∃ e, entry_at v i = Some e ∧ entry_ok B (vt_next_id v) i e.
Proof. intros Hg Hi. destruct (go_items B v Hg i Hi) as (a & e & Ha & He & Hok). exists e. split; [|done]. by eapply item_entry. Qed.

Section reading.
Context (B : Z) (HB : B ≤ HNSW_NEIGHBOR_CAP) (v : kvs_vector) (Hg : graph_ok B v) (E : env).
Abbreviation n := (vt_next_id v).

Lemma wp_item i t (Q : option addr → kvs_vector → nat → Prop) :
  0 ≤ i < n → (∀ a e, item_at v i = Some a → vt_heap v !! a = Some e → entry_at v i = Some e → entry_ok B n i e → Q (Some a) v t) →
  wp (item i) Q E v t.
Proof.
  intros Hi HQ. destruct (go_items B v Hg i Hi) as (a & e & Ha & He & Hok). unfold item. wp_steps.
  specialize (HQ a e Ha He (item_entry _ _ _ _ Ha He) Hok). unfold item_at in Ha.
  destruct (vt_items v) as [l|]; [|done]. cbn [mbind option_bind] in Ha. rewrite (proj2 (Z.ltb_ge _ _)) by lia.
  destruct (l !! Z.to_nat i) as [p|]; [|done]. cbn in Ha. subst p. by wp_steps.
Qed.

Lemma wp_get_entry a e t (Q : vector_entry → kvs_vector → nat → Prop) :
  vt_heap v !! a = Some e → Q e v t → wp (get_entry a) Q E v t.
Proof. intros He HQ. unfold get_entry. wp_steps. rewrite He. by wp_steps. Qed.

Lemma wp_neighbors i e l t (Q : option (list Z) → kvs_vector → nat → Prop) :
  entry_ok B n i e → 0 ≤ l ≤ ve_level e →
  (∀ arr c, ve_neighbors e !! Z.to_nat l = Some (Some arr) → ve_count e !! Z.to_nat l = Some c → list_ok B n i arr c → Q (Some arr) v t) →
  wp (neighbors e l) Q E v t.
Proof.
  intros Hok Hl HQ. destruct (eo_lists _ _ _ _ Hok l Hl) as (arr & c & Ha & Hc & Hlk). unfold neighbors.
  rewrite (proj2 (Z.ltb_ge _ _)), Ha by lia. wp_steps. by eapply HQ.
Qed.

Lemma wp_neighbor_count e l c t (Q : Z → kvs_vector → nat → Prop) :
  0 ≤ l → ve_count e !! Z.to_nat l = Some c → Q c v t → wp (neighbor_count e l) Q E v t.
Proof. intros Hl Hc HQ. unfold neighbor_count. rewrite (proj2 (Z.ltb_ge _ _)), Hc by lia. by wp_steps. Qed.

Lemma wp_used i arr c t (Q : list Z → kvs_vector → nat → Prop) :
  list_ok B n i arr c → Q (take (Z.to_nat c) arr) v t → wp (used arr c) Q E v t.
Proof.
  intros [Hlen Hc _ _] HQ. unfold used. rewrite (proj2 (Z.ltb_ge _ _)).
  - by wp_steps.
  - rewrite Hlen. unfold HNSW_NEIGHBOR_CAP, KVS_HNSW_M in *. lia.
Qed.

(** *** Scores *)

Section query.
Context (q : list float) (dim : Z) (qn : float) (Hq : Z.of_nat (length q) = dim).

(** The similarity of entry [i]; -2 when it has none. *)
Definition score (i : Z) : float :=
  match (if (i <? 0) || (n <=? i) then None else entry_at v i) with
  | Some e => if ve_deleted e || negb (ve_dim e =? dim) then f_m2 else cosine_similarity q (ve_vector e) qn (ve_norm e)
  | None => f_m2
  end.

Lemma wp_id_score i t (Q : float → kvs_vector → nat → Prop) : Q (score i) v t → wp (id_score i q dim qn) Q E v t.
Proof.
  intros HQ. unfold score in HQ. unfold id_score. wp_steps. destruct ((i <? 0) || (n <=? i)) eqn:Hr; [by wp_steps|]. to_prop.
  assert (0 ≤ i < n) as Hi by lia. cbn [orb].
  destruct (vt_items v) as [l|] eqn:Hit; [|by destruct (go_items B v Hg i Hi) as (a & e & Ha & _); unfold item_at in Ha; rewrite Hit in Ha].
  wp_step. apply wp_item; [done|]. intros a e Ha He Hat Hok. rewrite Hat in HQ. wp_step. apply (wp_get_entry a e); [done|].
  unfold entry_score. destruct (_ || _) eqn:Hd; [by wp_steps|]. to_prop. destruct (eo_dim _ _ _ _ Hok) as [Hd1 Hd2].
  rewrite !(proj2 (Z.ltb_ge _ _)) by lia. cbn [orb]. wp_steps.
  rewrite !take_ge in * by lia. done.
Qed.

Lemma score_outside i : i < 0 ∨ n ≤ i → score i = f_m2.
Proof. intros Hi. unfold score. replace ((i <? 0) || (n <=? i)) with true by lia. done. Qed.

(** *** Greedy search *)

Lemma greedy_scan_spec nids t current changed (Q : Z * float * bool → kvs_vector → nat → Prop) :
  Forall (λ j, 0 ≤ j < n) nids → 0 ≤ current < n →
  (∀ c ch, 0 ≤ c < n → c = current ∧ ch = changed ∧ Forall (λ j, flt (score current) (score j) = false) nids ∨
     flt (score current) (score c) = true ∧ ch = true → Q (c, score c, ch) v t) →
  wp (greedy_scan q dim qn nids current (score current) changed) Q E v t.
Proof.
  intros Hn. revert current changed Q.
  induction Hn as [|j nids Hj Hn IH]; intros current changed Q Hc HQ; cbn [greedy_scan]; wp_step; [apply HQ; auto|].
  apply wp_id_score. destruct (flt (score current) (score j)) eqn:Hf.
  - apply IH; [done|]. intros c ch Hr [(-> & -> & _)|[Hlt ->]]; apply HQ; eauto using flt_trans.
  - apply IH; [done|]. intros c ch Hr Hd. apply HQ; [done|]. destruct Hd as [(-> & -> & Ha)|?]; [left|by right]. by split_and!; [..|constructor].
Qed.

(** No neighbour of the entry on the level is better. *)
Definition local_max (level c : Z) : Prop := ∀ e arr k, entry_at v c = Some e → level ≤ ve_level e →
  ve_neighbors e !! Z.to_nat level = Some (Some arr) → ve_count e !! Z.to_nat level = Some k →
  Forall (λ j, flt (score c) (score j) = false) (take (Z.to_nat k) arr).

(** The entries that are better than a score. *)
Definition better (s : float) : list nat := filter (λ i, flt s (score (Z.of_nat i)) = true) (seq 0 (Z.to_nat n)).

Lemma better_less s c : 0 ≤ c < n → flt s (score c) = true → (length (better (score c)) < length (better s))%nat.
Proof.
  intros Hc Hs. unfold better.
  assert (Z.to_nat c ∈ seq 0 (Z.to_nat n)) as Hin by (apply elem_of_seq; lia).
  apply list_elem_of_split in Hin as (l1 & l2 & ->). rewrite !filter_app, !filter_cons, !length_app.
  rewrite Z2Nat.id by lia. rewrite flt_irrefl, (decide_False (P := false = true)), decide_True by done.
  assert (∀ l : list nat, length (filter (λ i, flt (score c) (score (Z.of_nat i)) = true) l) ≤
    length (filter (λ i, flt s (score (Z.of_nat i)) = true) l))%nat as Hle.
  { intros l. induction l as [|x l IH]; [done|]. rewrite !filter_cons.
    destruct (decide (flt (score c) (score (Z.of_nat x)) = true)) as [Hx|Hx].
    - rewrite decide_True by eauto using flt_trans. simpl. lia.
    - destruct (decide _); simpl; lia. }
  pose proof (Hle l1). pose proof (Hle l2). simpl. lia.
Qed.

Lemma greedy_loop_spec fuel level current t (Q : Z → kvs_vector → nat → Prop) :
  0 ≤ level → 0 ≤ current < n → (length (better (score current)) ≤ fuel)%nat →
  (∀ c, 0 ≤ c < n → local_max level c → c = current ∨ flt (score current) (score c) = true → Q c v t) →
  wp (greedy_loop q dim qn fuel level current (score current)) Q E v t.
Proof.
  intros Hl. revert current. induction fuel as [|fuel IH]; intros current Hc Hf HQ; cbn [greedy_loop]; wp_steps;
    rewrite (proj2 (Z.ltb_ge _ _)), (proj2 (Z.leb_gt _ _)) by lia; cbn [orb]; wp_step; (apply wp_item; [done|]);
    intros a e Ha He Hat Hok; wp_step; (apply (wp_get_entry a e); [done|]);
    (destruct (_ <? _) eqn:Hlev; [to_prop; wp_steps; apply HQ; [done| |by left]; intros e2 arr k He2; rewrite Hat in He2; injection He2 as <-; lia|]);
    to_prop; wp_step; (eapply wp_neighbors; [done|lia|]); intros arr c Harr Hcnt Hlk; wp_step;
    (eapply wp_neighbor_count; [done|done|]); wp_step; (eapply wp_used; [done|]); wp_step;
    (eapply greedy_scan_spec; [|done|]);
    [eapply Forall_impl; [apply Hlk|naive_solver]| |eapply Forall_impl; [apply Hlk|naive_solver]|];
    intros c' ch Hc' [(-> & -> & Hmax)|[Hlt ->]]; cbv beta iota;
    try (wp_steps; apply HQ; [done| |by left]; intros e2 arr2 k He2 _ Harr2 Hk2; rewrite Hat in He2; injection He2 as <-; congruence).
  - pose proof (better_less (score current) c' Hc' Hlt). lia.
  - apply IH; [done| |].
    + pose proof (better_less (score current) c' Hc' Hlt). lia.
    + intros c2 Hc2 Hm [->|Hlt2]; apply HQ; eauto using flt_trans.
Qed.

Lemma better_bound s : (length (better s) ≤ Z.to_nat n)%nat.
Proof. unfold better. etrans; [apply length_filter|]. by rewrite length_seq. Qed.

(** Greedy search ends, at a local maximum. *)
Lemma hnsw_greedy_spec eid level t (Q : Z → kvs_vector → nat → Prop) :
  0 ≤ level → 0 ≤ eid < n → (∀ c, 0 ≤ c < n → local_max level c → c = eid ∨ flt (score eid) (score c) = true → Q c v t) →
  wp (hnsw_greedy q dim qn eid level) Q E v t.
Proof.
  intros Hl Hi HQ. unfold hnsw_greedy. wp_step. apply wp_id_score. wp_steps.
  apply greedy_loop_spec; [done|done|apply better_bound|done].
Qed.

Lemma descend_spec k eid level t (Q : Z → kvs_vector → nat → Prop) :
  Z.of_nat k ≤ level + 1 → 0 ≤ eid < n → (∀ c, 0 ≤ c < n → Q c v t) → wp (descend q dim qn k eid level) Q E v t.
Proof.
  revert eid level. induction k as [|k IH]; intros eid level Hl Hi HQ; cbn [descend]; wp_step; [by apply HQ|].
  apply hnsw_greedy_spec; [lia|done|]. intros c Hc _ _. apply IH; [lia|done|done].
Qed.
(** *** Search of a layer *)

(** Different entries with their scores. *)
Record cands_ok (cap : Z) (cands : list candidate) : Prop := {
  co_length : Z.of_nat (length cands) ≤ cap;
  co_nodup  : NoDup (cd_id <$> cands);
  co_score  : Forall (λ c, 0 ≤ cd_id c < n ∧ cd_score c = score (cd_id c)) cands
}.

Lemma added_perm (c : candidate) (kept : list candidate) : rev (shift_in c (rev kept)) ≡ₚ c :: kept.
Proof. by rewrite <-Permutation_rev, shift_in_perm, <-Permutation_rev. Qed.

Lemma cands_add cap cands i :
  cands_ok cap cands → 0 ≤ i < n → cands_ok cap (candidate_add_sorted cands cap i (score i)).
Proof.
  intros [Hl Hnd Hs] Hi. destruct (add_sorted_cases cands cap i (score i) Hl) as [->|(_ & Hni & kept & [k Hk] & Hlk & _ & ->)]; [done|].
  pose proof (added_perm (Cand i (score i)) kept) as Hp. rewrite Hk in Hni, Hnd, Hs. rewrite fmap_app in Hni, Hnd.
  apply NoDup_app in Hnd as (Hnd & _). apply Forall_app in Hs as [Hs _]. split.
  - rewrite Hp. simpl. lia.
  - rewrite Hp. rewrite fmap_cons. constructor; [|done]. cbn [cd_id]. set_solver.
  - rewrite Hp. by constructor.
Qed.

Lemma cands_nil cap : 0 ≤ cap → cands_ok cap [].
Proof. intros Hc. split; [done|constructor|constructor]. Qed.

Lemma expand_spec ef nids cands visited t (Q : list candidate * list bool → kvs_vector → nat → Prop) :
  cands_ok ef cands → length visited = Z.to_nat n →
  (∀ cands' visited', cands_ok ef cands' → length visited' = Z.to_nat n → Q (cands', visited') v t) →
  wp (expand q dim qn ef nids cands visited) Q E v t.
Proof.
  revert cands visited. induction nids as [|j nids IH]; intros cands visited Hc Hv HQ; cbn [expand]; wp_steps; [by apply HQ|].
  destruct (_ || _) eqn:Hj; [by apply IH|]. to_prop.
  destruct (lookup_lt_is_Some_2 visited (Z.to_nat j)) as [b Hb]; [lia|]. rewrite Hb. destruct b; [by apply IH|].
  wp_step. apply wp_id_score. apply IH; [|by rewrite length_insert|done].
  destruct (flt f_m2 _); [|done]. apply cands_add; [done|lia].
Qed.

Lemma layer_loop_spec fuel ef level cursor cands visited t (Q : list candidate → kvs_vector → nat → Prop) :
  0 ≤ level → cands_ok ef cands → length visited = Z.to_nat n → ef ≤ Z.of_nat (fuel + cursor) →
  (∀ cands', cands_ok ef cands' → Q cands' v t) →
  wp (layer_loop q dim qn fuel ef level cursor cands visited) Q E v t.
Proof.
  intros Hl. revert cursor cands visited.
  induction fuel as [|fuel IH]; intros cursor cands visited Hc Hv Hf HQ; cbn [layer_loop];
    (destruct (cands !! cursor) as [c|] eqn:Hcur; [|wp_steps; by apply HQ]).
  { apply lookup_lt_Some in Hcur. pose proof (co_length _ _ Hc). lia. }
  pose proof (Forall_lookup_1 _ _ _ _ (co_score _ _ Hc) Hcur) as [Hr _].
  wp_step. apply wp_item; [done|]. intros a e Ha He Hat Hok. wp_step. apply (wp_get_entry a e); [done|].
  destruct (_ <? _) eqn:Hlev; [apply IH; (done || lia)|]. to_prop.
  wp_step. eapply wp_neighbors; [done|lia|]. intros arr cnt Harr Hcnt Hlk. wp_step.
  eapply wp_neighbor_count; [done|done|]. wp_step. eapply wp_used; [done|]. wp_step.
  apply expand_spec; [done|done|]. intros cands' visited' Hc' Hv'. apply IH; (done || lia).
Qed.

Lemma search_layer_spec eid ef level t (Q : Z * list candidate → kvs_vector → nat → Prop) :
  no_oom E → 0 ≤ eid < n → 0 < ef → 0 ≤ level →
  (∀ cands, cands_ok ef cands → Q (0, cands) v (S (S t))) →
  wp (hnsw_search_layer q dim qn eid ef level) Q E v t.
Proof.
  intros HE Hi Hef Hl HQ. unfold hnsw_search_layer. rewrite (proj2 (Z.ltb_ge _ _)), (proj2 (Z.leb_gt _ _)) by lia. cbn [orb].
  wp_steps. rewrite !HE. cbn [negb orb]. wp_steps. apply wp_id_score. rewrite (proj2 (Z.leb_gt _ _)) by lia. wp_step.
  eapply layer_loop_spec; [done| | | |].
  - apply cands_add; [apply cands_nil; lia|done].
  - by rewrite length_insert, length_replicate.
  - lia.
  - intros cands Hc. wp_steps. by apply HQ.
Qed.
(** *** The best ones *)

Record top_ok (topk : Z) (threshold : float) (top : list candidate) : Prop := {
  tk_cands  : cands_ok topk top;
  tk_sorted : StronglySorted desc top;
  tk_above  : Forall (λ c, fle threshold (cd_score c) = true) top
}.

Lemma top_add topk threshold top i :
  top_ok topk threshold top → 0 ≤ i < n → fle threshold (score i) = true →
  top_ok topk threshold (candidate_add_sorted top topk i (score i)).
Proof.
  intros [Hc Hs Ha] Hi Ht. split; [by apply cands_add| |].
  - destruct (add_sorted_cases top topk i (score i) (co_length _ _ Hc)) as [->|(_ & _ & kept & [k Hk] & _ & _ & ->)]; [done|].
    apply (StronglySorted_rev (λ x y, desc y x)). rewrite Hk in Hs, Ha. apply StronglySorted_app in Hs as (_ & Hs & _).
    apply Forall_app in Ha as [Ha _]. apply shift_in_sorted.
    + by apply (fle_num threshold).
    + rewrite <-Permutation_rev. eapply Forall_impl; [exact Ha|]. intros c [_ Hn]%fle_num. done.
    + by apply (StronglySorted_rev desc).
  - destruct (add_sorted_cases top topk i (score i) (co_length _ _ Hc)) as [->|(_ & _ & kept & [k Hk] & _ & _ & ->)]; [done|].
    rewrite added_perm. constructor; [done|]. rewrite Hk in Ha. by apply Forall_app in Ha as [Ha _].
Qed.

Lemma pick_top_spec cap cands topk threshold top t (Q : list candidate → kvs_vector → nat → Prop) :
  cands_ok cap cands → top_ok topk threshold top → (∀ top', top_ok topk threshold top' → Q top' v t) →
  wp (pick_top q dim qn cands topk threshold top) Q E v t.
Proof.
  intros [_ _ Hs] Ht HQ. revert top Ht. induction Hs as [|c cands [Hc _] Hs IH]; intros top Ht; cbn [pick_top]; wp_step; [by apply HQ|].
  apply wp_id_score. apply IH. destruct (fle _ _) eqn:Hf; [by apply top_add|done].
Qed.

(** What a search returns for a candidate. *)
Definition result_of (c : candidate) (r : search_result) : Prop :=
  ∃ e, entry_at v (cd_id c) = Some e ∧ r = SResult (ve_question e) (ve_answer e) (cd_score c).

Lemma read_results_spec top t (Q : list search_result → kvs_vector → nat → Prop) :
  Forall (λ c, 0 ≤ cd_id c < n) top → (∀ rs, Forall2 result_of top rs → Q rs v t) → wp (read_results top) Q E v t.
Proof.
  intros Ht. revert Q. induction Ht as [|c top Hc Ht IH]; intros Q HQ; cbn [read_results]; wp_step; [apply HQ; constructor|].
  apply wp_item; [done|]. intros a e Ha He Hat Hok. wp_step. apply (wp_get_entry a e); [done|]. wp_step.
  apply IH. intros rs Hrs. wp_steps. apply HQ. constructor; [|done]. by exists e.
Qed.
End query.
End reading.

(** A search finds entries above the threshold, the best first, each once. *)
Lemma vector_search_spec v E dim str topk threshold t :
  graph_ok KVS_HNSW_M v → no_oom E → 0 < dim → 0 < topk →
  wp (kvs_vector_search dim str topk threshold) (λ r v' _, v' = v ∧
    match parsed str dim with
    | Some q =>
        if fle (vector_norm q) f_zero then r = (-2, [])
        else ∃ top, top_ok v q dim (vector_norm q) (Z.min topk 128) threshold top ∧
               r.1 = Z.of_nat (length top) ∧ Forall2 (result_of v) top r.2
    | None => r = (-2, [])
    end) E v t.
Proof.
  intros Hg HE Hd Hk. unfold kvs_vector_search. rewrite !(proj2 (Z.leb_gt _ _)) by done. cbn [orb].
  replace (if 128 <? topk then 128 else topk) with (Z.min topk 128) by (destruct (_ <? _) eqn:?; to_prop; lia).
  wp_step. apply parse_vector_spec; [done|done|]. destruct (parsed str dim) as [q|] eqn:Hp; [|by wp_steps].
  pose proof (parsed_length str dim q ltac:(lia) Hp) as Hq. set (qn := vector_norm q).
  destruct (fle qn f_zero); wp_steps; [done|]. rewrite HE. cbn [negb]. wp_step. wp_step. wp_step.
  assert (∀ cap cands t', cands_ok v q dim qn cap cands →
    wp (pick_top q dim qn cands (Z.min topk 128) threshold []) (λ top v' t',
      wp (match top with
          | [] => mret (0, [])
          | _ => ok ← kvs_malloc; if negb ok then mret (-2, []) else results ← read_results top; mret (Z.of_nat (length top), results)
          end) (λ r v' _, v' = v ∧ ∃ top, top_ok v q dim qn (Z.min topk 128) threshold top ∧
            r.1 = Z.of_nat (length top) ∧ Forall2 (result_of v) top r.2) E v' t') E v t') as Hpick.
  { intros cap cands t' Hc. eapply (pick_top_spec KVS_HNSW_M ltac:(done) v Hg); [done|done| |].
    - split; [by apply cands_nil; lia|constructor|constructor].
    - intros top Ht. destruct top as [|c top]; wp_steps.
      + split; [done|]. exists []. split_and!; [done|done|constructor].
      + rewrite HE. cbn [negb]. wp_step. eapply (read_results_spec KVS_HNSW_M v Hg).
        * eapply Forall_impl; [apply (co_score _ _ _ _ _ _ (tk_cands _ _ _ _ _ _ _ Ht))|]. naive_solver.
        * intros rs Hrs. wp_steps. split; [done|]. by exists (c :: top). }
  destruct (_ && _) eqn:Hne; wp_steps.
  - to_prop. pose proof (go_entry _ v Hg) as He. rewrite (proj2 (Z.eqb_neq _ _)) in He by lia. destruct He as (He & e & Hat & Hlev).
    destruct (go_entry_at _ v _ Hg He) as (e' & Hat' & Hok). rewrite Hat in Hat'. injection Hat' as <-.
    pose proof (eo_level _ _ _ _ Hok). eapply (descend_spec KVS_HNSW_M ltac:(done) v Hg); [done|lia|done|]. intros c Hc. wp_step.
    eapply (search_layer_spec KVS_HNSW_M ltac:(done) v Hg); [done|done|done|done|done|]. intros cands Hcands. wp_steps. by eapply Hpick.
  - apply (Hpick 0 []). apply cands_nil. lia.
Qed.

(** ** Changing neighbour lists *)

(** An entry without its lists. *)
Definition blank e : vector_entry :=
  VEntry (ve_question e) (ve_answer e) (ve_vector e) (ve_dim e) (ve_norm e) (ve_ctime e) (ve_id e) (ve_level e)
    (ve_deleted e) [] [].

(** The two indexes differ in neighbour lists only. *)
Record kin v v' : Prop := {
  kn_tree  : vt_tree v' = vt_tree v;
  kn_items : vt_items v' = vt_items v;
  kn_cap   : vt_item_cap v' = vt_item_cap v;
  kn_next  : vt_next_id v' = vt_next_id v;
  kn_entry : vt_entry_point v' = vt_entry_point v;
  kn_max   : vt_max_level v' = vt_max_level v;
  kn_seed  : vt_rand_seed v' = vt_rand_seed v;
  kn_fresh : vt_fresh v' = vt_fresh v;
  kn_count : vt_count v' = vt_count v;
  kn_heap a : blank <$> vt_heap v' !! a = blank <$> vt_heap v !! a
}.

#[global] Instance kin_po : PreOrder kin.
Proof.
  split; [by intros v; split|]. intros v1 v2 v3 [] []. split; congruence.
Qed.

Definition with_list e (l : Z) (arr : list Z) (c : Z) : vector_entry :=
  VEntry (ve_question e) (ve_answer e) (ve_vector e) (ve_dim e) (ve_norm e) (ve_ctime e) (ve_id e) (ve_level e)
    (ve_deleted e) (<[Z.to_nat l := Some arr]> (ve_neighbors e)) (<[Z.to_nat l := c]> (ve_count e)).

Lemma entry_ok_mono B B' n i e : B ≤ B' → entry_ok B n i e → entry_ok B' n i e.
Proof.
  intros HB [H1 H2 H3 H4 H5]. split; try done. intros l Hl. destruct (H5 l Hl) as (arr & c & Ha & Hc & [L1 L2 L3 L4]).
  exists arr, c. split_and!; try done. split; try done. lia.
Qed.

Lemma entry_ok_with_list B n i e l arr c :
  entry_ok B n i e → 0 ≤ l ≤ ve_level e → list_ok B n i arr c → entry_ok B n i (with_list e l arr c).
Proof.
  intros [H1 H2 H3 [H4 H4'] H5] Hl Hok. unfold KVS_HNSW_MAX_LEVEL in *. split; cbn; try done.
  - by rewrite !length_insert.
  - intros l' Hl'. destruct (decide (l' = l)) as [->|Hne].
    + exists arr, c. rewrite !list_lookup_insert_eq by lia. done.
    + rewrite !list_lookup_insert_ne by lia. by apply H5.
Qed.

Definition put_list v a e l arr c : kvs_vector := set_heap (<[a := with_list e l arr c]> (vt_heap v)) v.

Lemma put_list_kin v a e l arr c : vt_heap v !! a = Some e → kin v (put_list v a e l arr c).
Proof.
  intros He. split; try done. intros a'. cbn. destruct (decide (a' = a)) as [->|Hne].
  - by rewrite lookup_insert_eq, He.
  - by rewrite lookup_insert_ne.
Qed.

(** The number of an entry leads to it. *)
Lemma go_number B v i a e :
  graph_ok B v → 0 ≤ i < vt_next_id v → item_at v i = Some a → vt_heap v !! a = Some e → entry_ok B (vt_next_id v) i e ∧ ve_id e = i.
Proof.
  intros Hg Hi Ha He. destruct (go_items _ _ Hg i Hi) as (a2 & e2 & Ha2 & He2 & Hok). rewrite Ha in Ha2. injection Ha2 as <-.
  rewrite He in He2. injection He2 as <-. split; [done|]. apply (eo_id _ _ _ _ Hok).
Qed.

(** An entry is replaced by one of the same level. *)
Lemma put_entry_ok B v a e e' :
  graph_ok B v → vt_heap v !! a = Some e → ve_level e' = ve_level e →
  (entry_ok B (vt_next_id v) (ve_id e) e → entry_ok B (vt_next_id v) (ve_id e) e') →
  graph_ok B (set_heap (<[a := e']> (vt_heap v)) v).
Proof.
  intros Hg He Hlev' Hent. pose proof (λ i, go_number B v i a e Hg) as Hnum. destruct Hg as [G1 G2 G3 G4 G5 G6].
  destruct (G4 a e He) as [Hi Ha]. assert (entry_ok B (vt_next_id v) (ve_id e) e') as Hok' by by apply Hent, Hnum.
  split; cbn; try done.
  - intros j Hj. change (item_at (set_heap _ v) j) with (item_at v j). destruct (G3 j Hj) as (a' & e2 & Ha' & He2 & Hok2).
    destruct (decide (a' = a)) as [->|Hne].
    + exists a, e'. rewrite lookup_insert_eq. split_and!; [done|done|]. by destruct (Hnum j Hj Ha' He) as [_ <-].
    + exists a', e2. by rewrite lookup_insert_ne.
  - intros a' e2. change (item_at (set_heap _ v)) with (item_at v). intros [[<- <-]|[_ He2]]%lookup_insert_Some; [|by apply G4].
    by rewrite (eo_id _ _ _ _ Hok').
  - intros a' [e2 [[<- _]|[_ He2]]%lookup_insert_Some]; apply G5; by eexists.
  - destruct (_ =? _); [done|]. destruct G6 as (Hr & e2 & Hat & Hlev). split; [done|]. unfold entry_at in *.
    destruct (item_at v (vt_entry_point v)) as [a'|] eqn:Hep; [|done]. unfold item_at in Hep. cbn in *. rewrite Hep. cbn.
    destruct (decide (a' = a)) as [->|Hne].
    + exists e'. rewrite He in Hat. injection Hat as <-. split; [apply lookup_insert_eq|by rewrite Hlev'].
    + exists e2. by rewrite lookup_insert_ne.
Qed.

Lemma put_list_ok B v i a e l arr c :
  graph_ok B v → 0 ≤ i < vt_next_id v → item_at v i = Some a → vt_heap v !! a = Some e → 0 ≤ l ≤ ve_level e →
  list_ok B (vt_next_id v) i arr c → graph_ok B (put_list v a e l arr c).
Proof.
  intros Hg Hi Ha He Hl Hok. destruct (go_number _ _ _ _ _ Hg Hi Ha He) as [_ Hid].
  eapply put_entry_ok; [done|done|done|]. rewrite Hid. intros Hok'. by apply entry_ok_with_list.
Qed.

Lemma graph_ok_mono B B' v : B ≤ B' → graph_ok B v → graph_ok B' v.
Proof.
  intros HB [G1 G2 G3 G4 G5 G6]. split; try done. intros i Hi. destruct (G3 i Hi) as (a & e & Ha & He & Hok).
  exists a, e. split_and!; try done. by eapply entry_ok_mono.
Qed.

Lemma put_list_twice v a e l arr c arr' c' :
  put_list (put_list v a e l arr c) a (with_list e l arr c) l arr' c' = put_list v a e l arr' c'.
Proof.
  unfold put_list, set_heap. cbn. rewrite insert_insert_eq. do 2 f_equal. unfold with_list. cbn.
  by rewrite !list_insert_insert_eq.
Qed.

Lemma wp_put_neighbors v a e l arr c E t (Q : unit → kvs_vector → nat → Prop) :
  vt_heap v !! a = Some e → Q tt (put_list v a e l arr c) t → wp (put_neighbors a l (Some arr) c) Q E v t.
Proof. intros He HQ. unfold put_neighbors. wp_step. apply (wp_get_entry v E a e); [done|]. unfold put_entry. by wp_steps. Qed.

Lemma add_sorted_ids items cap i s :
  Z.of_nat (length items) ≤ cap → NoDup (cd_id <$> items) →
  let items' := candidate_add_sorted items cap i s in
  Z.of_nat (length items') ≤ cap ∧ NoDup (cd_id <$> items') ∧
  ∀ j, j ∈ (cd_id <$> items') → j ∈ (cd_id <$> items) ∨ j = i.
Proof.
  intros Hl Hnd items'. unfold items'. destruct (add_sorted_cases items cap i s Hl) as [->|(_ & Hni & kept & [k Hk] & Hlk & _ & ->)];
    [by eauto|].
  pose proof (added_perm (Cand i s) kept) as Hp. rewrite Hk, fmap_app in Hni, Hnd. apply NoDup_app in Hnd as (Hnd & _).
  split_and!.
  - rewrite Hp. simpl. lia.
  - rewrite Hp, fmap_cons. constructor; [set_solver|done].
  - intros j. rewrite Hp, Hk, fmap_cons, fmap_app. set_solver.
Qed.

Section changing.
Context (E : env) (HE : no_oom E).

Lemma prune_scan_spec B v e nids tmp t (Q : list candidate → kvs_vector → nat → Prop) :
  graph_ok B v → Z.of_nat (length (ve_vector e)) = ve_dim e →
  Z.of_nat (length tmp) ≤ HNSW_NEIGHBOR_CAP → NoDup (cd_id <$> tmp) →
  (∀ tmp', NoDup (cd_id <$> tmp') → (∀ j, j ∈ (cd_id <$> tmp') → j ∈ (cd_id <$> tmp) ∨ j ∈ nids) → Q tmp' v t) →
  wp (prune_scan e nids tmp) Q E v t.
Proof.
  intros Hg Hd. revert tmp. induction nids as [|j nids IH]; intros tmp Hl Hnd HQ; cbn [prune_scan]; wp_step; [by apply HQ; auto|].
  eapply (wp_id_score B v Hg E); [done|]. destruct (flt f_m2 _).
  - destruct (add_sorted_ids tmp HNSW_NEIGHBOR_CAP j (score v (ve_vector e) (ve_dim e) (ve_norm e) j) Hl Hnd) as (Hl' & Hnd' & Hsub).
    apply IH; [done|done|]. intros tmp' Hnd2 Hsub2. apply HQ; [done|]. intros x [[?| ->]%Hsub|?]%Hsub2; set_solver.
  - apply IH; [done|done|]. intros tmp' Hnd2 Hsub2. apply HQ; [done|]. intros x [?|?]%Hsub2; set_solver.
Qed.

Lemma take_app_exact {A} (l k : list A) m : m = length l → take m (l ++ k) = l.
Proof. intros ->. apply take_app_length. Qed.

(** Pruning leaves at most M of the neighbours there were. *)
Lemma prune_spec v i a e l arr c t (Q : unit → kvs_vector → nat → Prop) :
  let v1 := put_list v a e l arr c in
  graph_ok KVS_HNSW_M v → 0 ≤ i < vt_next_id v → item_at v i = Some a → vt_heap v !! a = Some e →
  entry_ok KVS_HNSW_M (vt_next_id v) i e → 0 ≤ l ≤ ve_level e → list_ok HNSW_NEIGHBOR_CAP (vt_next_id v) i arr c →
  (∀ v', graph_ok KVS_HNSW_M v' → kin v v' → Q tt v' t) →
  wp (hnsw_prune_neighbors a l) Q E v1 t.
Proof.
  intros v1 Hg Hi Ha He Hok Hl Hlk HQ. pose proof (eo_level _ _ _ _ Hok) as Hlev.
  assert (graph_ok HNSW_NEIGHBOR_CAP v1) as Hg1.
  { eapply put_list_ok; [eapply graph_ok_mono; [|exact Hg]; done|done|done|done|done|done]. }
  assert (vt_heap v1 !! a = Some (with_list e l arr c)) as He1 by apply lookup_insert_eq.
  unfold hnsw_prune_neighbors. rewrite (proj2 (Z.ltb_ge _ _)), (proj2 (Z.leb_gt _ _)) by lia. cbn [orb].
  wp_step. apply (wp_get_entry v1 E a (with_list e l arr c)); [done|].
  destruct (eo_size _ _ _ _ Hok) as [Hs1 Hs2]. unfold KVS_HNSW_MAX_LEVEL in *.
  wp_step. unfold neighbors. rewrite (proj2 (Z.ltb_ge _ _)) by lia. cbn [ve_neighbors with_list].
  rewrite list_lookup_insert_eq by lia. wp_steps. eapply (wp_neighbor_count v1 E (with_list e l arr c)); [lia|cbn; apply list_lookup_insert_eq; lia|].
  wp_step. eapply (wp_used HNSW_NEIGHBOR_CAP ltac:(done) v1); [exact Hlk|]. wp_step.
  eapply (prune_scan_spec HNSW_NEIGHBOR_CAP); [done|apply (eo_dim _ _ _ _ Hok)|done|constructor|].
  intros tmp Hnd Hsub. set (kept := take (Z.to_nat KVS_HNSW_M) (cd_id <$> tmp)).
  assert (length kept ≤ 8)%nat as Hkl by (unfold kept; rewrite length_take; unfold KVS_HNSW_M; lia).
  eapply wp_put_neighbors; [exact He1|]. unfold v1. rewrite put_list_twice. apply HQ; [|by apply put_list_kin].
  eapply put_list_ok; [done|done|done|done|done|]. split.
  - rewrite length_app, length_replicate. unfold HNSW_NEIGHBOR_CAP, KVS_HNSW_M in *. lia.
  - unfold KVS_HNSW_M in *. lia.
  - rewrite take_app_exact by lia. apply Forall_forall. intros j Hj.
    assert (j ∈ (cd_id <$> tmp)) as [Hn|Hn]%Hsub by (unfold kept in Hj; by apply elem_of_take in Hj as (? & ?%list_elem_of_lookup_2 & _)).
    + set_solver.
    + pose proof (lk_range _ _ _ _ _ Hlk) as Hr. rewrite Forall_forall in Hr. by apply Hr.
  - rewrite take_app_exact by lia. unfold kept. eapply sublist_NoDup; [done|apply sublist_take].
Qed.

(** A list with one entry more at its end. *)
Lemma list_ok_push B n i arr c j :
  list_ok B n i arr c → c < HNSW_NEIGHBOR_CAP → 0 ≤ j < n → j ≠ i → j ∉ take (Z.to_nat c) arr →
  list_ok (B + 1) n i (<[Z.to_nat c := j]> arr) (c + 1).
Proof.
  intros [L1 L2 L3 L4] Hc Hj Hne Hni.
  assert (take (Z.to_nat (c + 1)) (<[Z.to_nat c := j]> arr) = take (Z.to_nat c) arr ++ [j]) as Ht.
  { replace (Z.to_nat (c + 1)) with (S (Z.to_nat c)) by lia.
    rewrite (take_S_r _ _ j) by (apply list_lookup_insert_eq; lia). by rewrite take_insert_ge. }
  split; [by rewrite length_insert|lia| |].
  - rewrite Ht. apply Forall_app. split; [done|]. by apply Forall_singleton.
  - rewrite Ht. apply NoDup_app. split_and!; [done|set_solver|apply NoDup_singleton].
Qed.

(** Linking two entries keeps the graph; no list grows past what pruning leaves. *)
Lemma add_neighbor_spec v i j l t (Q : unit → kvs_vector → nat → Prop) :
  graph_ok KVS_HNSW_M v → (∀ v', graph_ok KVS_HNSW_M v' → kin v v' → Q tt v' t) →
  wp (hnsw_add_neighbor i j l) Q E v t.
Proof.
  intros Hg HQ. assert (Q tt v t) as Hsame by by apply HQ.
  unfold hnsw_add_neighbor. wp_steps. destruct (_ || _) eqn:Hgd; [by wp_steps|]. to_prop.
  wp_step. eapply (wp_item KVS_HNSW_M); [done|lia|]. intros a e Ha He Hat Hok. wp_step. eapply wp_get_entry; [done|].
  destruct (_ || _) eqn:Hlev; [by wp_steps|]. to_prop. wp_step. eapply (wp_neighbors KVS_HNSW_M); [done|lia|].
  intros arr c Harr Hcnt Hlk. wp_step. eapply wp_neighbor_count; [lia|done|]. wp_step.
  eapply (wp_used KVS_HNSW_M ltac:(done)); [done|]. destruct (existsb _ _) eqn:Hex; [by wp_steps|].
  pose proof (lk_count _ _ _ _ _ Hlk) as Hc. pose proof (lk_length _ _ _ _ _ Hlk) as Hlen.
  unfold HNSW_NEIGHBOR_CAP, KVS_HNSW_M in Hc, Hlen.
  rewrite (proj2 (Z.ltb_lt _ _)), (proj2 (Z.leb_gt _ _)) by (unfold HNSW_NEIGHBOR_CAP, KVS_HNSW_M; lia).
  wp_step. eapply wp_put_neighbors; [done|]. eapply (prune_spec v i a e l); [done|lia|done|done|done|lia| |done].
  assert (list_ok (KVS_HNSW_M + 1) (vt_next_id v) i (<[Z.to_nat c := j]> arr) (c + 1)) as [L1 L2 L3 L4].
  { apply list_ok_push; [done|unfold HNSW_NEIGHBOR_CAP, KVS_HNSW_M; lia|lia|lia|]. intros Hin.
    apply not_true_iff_false in Hex. apply Hex, existsb_exists. exists j. split; [by apply list_elem_of_In|lia]. }
  split; [done|unfold HNSW_NEIGHBOR_CAP, KVS_HNSW_M in *; lia|done|done].
Qed.

Lemma link_all_spec v i l found t (Q : unit → kvs_vector → nat → Prop) :
  graph_ok KVS_HNSW_M v → (∀ v', graph_ok KVS_HNSW_M v' → kin v v' → Q tt v' t) →
  wp (link_all i l found) Q E v t.
Proof.
  revert v. induction found as [|c found IH]; intros v Hg HQ; cbn [link_all]; wp_step; [by apply HQ|].
  apply add_neighbor_spec; [done|]. intros v1 Hg1 Hk1. wp_step. apply add_neighbor_spec; [done|]. intros v2 Hg2 Hk2.
  apply IH; [done|]. intros v3 Hg3 Hk3. apply HQ; [done|]. by rewrite Hk1, Hk2.
Qed.

Lemma kin_entry v v' a e : kin v v' → vt_heap v !! a = Some e → ∃ e', vt_heap v' !! a = Some e' ∧ blank e' = blank e.
Proof.
  intros Hk He. pose proof (kn_heap _ _ Hk a) as Hb. rewrite He in Hb. destruct (vt_heap v' !! a) as [e'|]; [|done].
  change (Some (blank e') = Some (blank e)) in Hb. apply (inj Some) in Hb. by exists e'.
Qed.

(** The levels of an insertion, from the top one down. *)
Lemma insert_levels_spec k v a e ep l t (Q : Z → kvs_vector → nat → Prop) :
  graph_ok KVS_HNSW_M v → vt_heap v !! a = Some e → 0 ≤ ep < vt_next_id v → Z.of_nat k = l + 1 →
  (∀ v' t', graph_ok KVS_HNSW_M v' → kin v v' → Q 0 v' t') →
  wp (insert_levels k a ep l) Q E v t.
Proof.
  revert v e ep l t. induction k as [|k IH]; intros v e ep l t Hg He Hep Hk HQ; cbn [insert_levels]; wp_step; [by apply HQ|].
  eapply wp_get_entry; [done|]. wp_step.
  assert (Z.of_nat (length (ve_vector e)) = ve_dim e) as Hd.
  { destruct (go_heap _ _ Hg a e He) as [Hi Ha]. destruct (go_items _ _ Hg _ Hi) as (a' & e' & Ha' & He' & Hok).
    rewrite Ha in Ha'. injection Ha' as <-. rewrite He in He'. injection He' as <-. apply (eo_dim _ _ _ _ Hok). }
  eapply (search_layer_spec KVS_HNSW_M ltac:(done)); [done|done|done|done|done|lia|].
  intros cands Hc. cbv beta iota. cbn [negb Z.eqb]. wp_step. apply link_all_spec; [done|]. intros v1 Hg1 Hk1.
  destruct (kin_entry _ _ _ _ Hk1 He) as (e1 & He1 & _).
  eapply IH; [done|exact He1| |lia|intros v2 t2 Hg2 Hk2; apply HQ; [done|by rewrite Hk1]].
  rewrite (kn_next _ _ Hk1). destruct (co_score _ _ _ _ _ _ Hc) as [|c cs [Hr _] _]; done.
Qed.
End changing.
