(* ===== verification/VectorInsert.v ===== *)
(** * Insertion into the vector index

    A new entry gets a number, a level and empty neighbour lists, and is then linked
    into the graph. The table of entries grows when it is full. *)

From S2P Require Import Prelude Cstdlib Float32 KvSpec KvsRbtree KvsVector VectorSpec.

Implicit Types (v w : kvs_vector) (e : vector_entry) (a : addr).

(** What the index keeps of an entry for its users. *)
Definition core e : bytes * bytes * list float * Z * float * bool :=
  (ve_question e, ve_answer e, ve_vector e, ve_dim e, ve_norm e, ve_deleted e).

Lemma blank_core e e' : blank e = blank e' → core e = core e' ∧ ve_id e = ve_id e' ∧ ve_level e = ve_level e'.
Proof. destruct e, e'. intros [=]. by subst. Qed.

Lemma list_ok_grow B n n' i arr c : n ≤ n' → list_ok B n i arr c → list_ok B n' i arr c.
Proof. intros Hn [L1 L2 L3 L4]. split; try done. eapply Forall_impl; [exact L3|]. simpl. lia. Qed.

Lemma entry_ok_grow B n n' i e : n ≤ n' → entry_ok B n i e → entry_ok B n' i e.
Proof.
  intros Hn [H1 H2 H3 H4 H5]. split; try done. intros l Hl. destruct (H5 l Hl) as (arr & c & Ha & Hc & Hok).
  exists arr, c. split_and!; try done. by eapply list_ok_grow.
Qed.

(** ** The graph with one entry more *)

(** [w] is [v] with entry [e] at [a], its number the next one. *)
Record attached v w a e : Prop := {
  at_new   : a = vt_fresh v;
  at_entry : entry_ok KVS_HNSW_M (vt_next_id v + 1) (vt_next_id v) e;
  at_heap  : vt_heap w = <[a := e]> (vt_heap v);
  at_next  : vt_next_id w = vt_next_id v + 1;
  at_fresh : vt_fresh w = S a;
  at_cap   : match vt_items w with Some l => Z.of_nat (length l) = vt_item_cap w | None => False end;
  at_room  : vt_next_id w ≤ vt_item_cap w;
  at_items i : 0 ≤ i < vt_next_id v → item_at w i = item_at v i;
  at_item  : item_at w (vt_next_id v) = Some a
}.

Lemma attached_ok v w a e :
  graph_ok KVS_HNSW_M v → attached v w a e →
  (if vt_next_id v =? 0 then vt_entry_point w = 0 ∧ vt_max_level w = ve_level e
   else vt_entry_point w = vt_entry_point v ∧ vt_max_level w = vt_max_level v) →
  graph_ok KVS_HNSW_M w.
Proof.
  intros [G1 G2 G3 G4 G5 G6] [Hnew Hent Hheap Hnext Hfresh Hcap Hroom Hitems Hitem] Hep.
  assert (vt_heap v !! a = None) as Hna.
  { destruct (vt_heap v !! a) eqn:Hx; [|done]. specialize (G5 a ltac:(by eexists)). lia. }
  assert (∀ a' e', vt_heap v !! a' = Some e' → vt_heap w !! a' = Some e') as Hold.
  { intros a' e' He'. rewrite Hheap, lookup_insert_ne; [done|]. by intros <-; rewrite Hna in He'. }
  split.
  - by destruct (vt_items w).
  - lia.
  - intros i Hi. rewrite Hnext in *. destruct (decide (i = vt_next_id v)) as [->|Hne].
    + exists a, e. rewrite Hheap, lookup_insert_eq. done.
    + destruct (G3 i ltac:(lia)) as (a' & e' & Ha' & He' & Hok'). exists a', e'. split_and!; [|by apply Hold|].
      * rewrite Hitems by lia. done.
      * eapply entry_ok_grow; [|exact Hok']. lia.
  - intros a' e'. rewrite Hheap. intros [[<- <-]|[_ He']]%lookup_insert_Some.
    + rewrite (eo_id _ _ _ _ Hent). split; [lia|done].
    + destruct (G4 a' e' He') as [Hr Hat]. split; [lia|]. by rewrite Hitems.
  - intros a' [e' He']. rewrite Hheap in He'. apply lookup_insert_Some in He' as [[<- _]|[_ He']]; [lia|].
    specialize (G5 a' ltac:(by eexists)). lia.
  - rewrite Hnext, (proj2 (Z.eqb_neq _ _)) by lia. destruct (vt_next_id v =? 0) eqn:H0; to_prop.
    + destruct Hep as [-> ->]. split; [lia|]. exists e. split; [|done]. apply (item_entry w 0 a); [by rewrite <-H0 at 1|].
      rewrite Hheap. apply lookup_insert_eq.
    + destruct Hep as [-> ->]. destruct G6 as (Hr & e' & Hat & Hlev). split; [lia|]. exists e'. split; [|done].
      unfold entry_at in *. rewrite Hitems by lia. destruct (item_at v _) as [a'|]; [|done]. by apply Hold.
Qed.

Section steps.
Context (E : env) (HE : no_oom E).

(** ** Linking the new entry *)

Lemma hnsw_insert_spec v w a e t (Q : Z → kvs_vector → nat → Prop) :
  graph_ok KVS_HNSW_M v → attached v w a e → vt_entry_point w = vt_entry_point v → vt_max_level w = vt_max_level v →
  (∀ w1 w' t', graph_ok KVS_HNSW_M w' → kin w w1 → vt_heap w' = vt_heap w1 → vt_items w' = vt_items w →
     vt_next_id w' = vt_next_id w → vt_tree w' = vt_tree w → vt_count w' = vt_count w → Q 0 w' t') →
  wp (hnsw_insert a) Q E w t.
Proof.
  intros Hg Hat Hpe Hpm HQ.
  assert (vt_heap w !! a = Some e) as He by (rewrite (at_heap _ _ _ _ Hat); apply lookup_insert_eq).
  pose proof (at_entry _ _ _ _ Hat) as Hent. pose proof (go_next _ _ Hg) as Hn. pose proof (go_entry _ _ Hg) as Hge.
  pose proof (eo_level _ _ _ _ Hent) as Hel.
  unfold hnsw_insert. wp_step. eapply wp_get_entry; [done|]. rewrite (eo_id _ _ _ _ Hent).
  rewrite (proj2 (Z.ltb_ge _ _)) by lia. wp_steps. rewrite Hpe, Hpm.
  destruct (vt_next_id v =? 0) eqn:H0; to_prop.
  { rewrite Hge. cbn [Z.ltb Z.compare]. wp_steps. apply (HQ w); [|done..].
    eapply (attached_ok v _ a e); [done| |].
    - destruct Hat. by split.
    - rewrite H0. done. }
  assert (graph_ok KVS_HNSW_M w) as Hgw.
  { eapply attached_ok; [done|done|]. by rewrite (proj2 (Z.eqb_neq _ _)). }
  destruct Hge as (Hr & e0 & Hat0 & Hlev0). rewrite (proj2 (Z.ltb_ge _ _)) by lia.
  destruct (go_entry_at _ _ _ Hg Hr) as (e0' & Hat0' & Hok0). rewrite Hat0 in Hat0'. injection Hat0' as <-.
  pose proof (eo_level _ _ _ _ Hok0) as Hl0. rewrite Hlev0 in Hl0.
  pose proof (at_next _ _ _ _ Hat) as Hnw. destruct (eo_dim _ _ _ _ Hent) as [Hd0 Hd].
  wp_step. eapply (descend_spec KVS_HNSW_M ltac:(done)); [done|done|lia|lia|]. intros ep Hep.
  wp_step. eapply insert_levels_spec; [done|done|done|done| |].
  { destruct (_ <? _) eqn:?; to_prop; lia. }
  intros w1 t1 Hg1 Hk1. cbn [negb Z.eqb]. wp_steps. rewrite (kn_max _ _ Hk1).
  destruct (kin_entry _ _ _ _ Hk1 He) as (e1 & He1 & (_ & Hid1 & Hlv1)%blank_core).
  destruct (_ <? _) eqn:Hm; wp_steps.
  - apply (HQ w1); try done; try apply Hk1. destruct Hg1 as [K1 K2 K3 K4 K5 K6]. split; cbn; try done.
    rewrite (kn_next _ _ Hk1), Hnw, (proj2 (Z.eqb_neq _ _)) by lia. split; [lia|]. exists e1. split; [|done].
    destruct (K4 a e1 He1) as [_ Hi1]. rewrite Hid1, (eo_id _ _ _ _ Hent) in Hi1. by eapply item_entry.
  - apply (HQ w1); try done; apply Hk1.
Qed.

(** ** A number, a level and lists *)

(** The table has room for the next number; what it held is still there. *)
Lemma ensure_capacity_spec w t (Q : Z → kvs_vector → nat → Prop) :
  match vt_items w with Some l => Z.of_nat (length l) = vt_item_cap w | None => vt_item_cap w = 0 end →
  0 ≤ vt_next_id w ≤ vt_item_cap w → vt_next_id w < 2 ^ 30 →
  (∀ l c t', Z.of_nat (length l) = c → vt_next_id w < c →
     (∀ i, 0 ≤ i < vt_next_id w → item_at (set_items (Some l) c w) i = item_at w i) → Q 0 (set_items (Some l) c w) t') →
  wp ensure_item_capacity Q E w t.
Proof.
  intros Hcap Hn Hb HQ. unfold ensure_item_capacity. wp_steps. destruct (_ <? _) eqn:Hlt; to_prop.
  { wp_steps. destruct (vt_items w) as [l|] eqn:Hi; [|lia].
    assert (set_items (Some l) (vt_item_cap w) w = w) as Heq by (destruct w; cbn in *; by rewrite Hi).
    rewrite <-Heq. apply HQ; rewrite ?Heq; done. }
  set (new_cap := if vt_item_cap w =? 0 then 128 else vt_item_cap w * 2).
  assert (vt_item_cap w < new_cap) as Hgrow by (unfold new_cap; destruct (_ =? _) eqn:?; to_prop; lia).
  assert (wp (if vt_item_cap w =? 0 then mret 128 else checked32 (vt_item_cap w * 2)) (λ n s t', n = new_cap ∧ s = w ∧ t' = t) E w t) as Hw.
  { unfold new_cap. destruct (_ =? _) eqn:?; to_prop; [by wp_steps|]. apply wp_checked32; [unfold INT_MIN, INT_MAX; lia|done]. }
  wp_step. eapply wp_mono; [exact Hw|]. intros n s t' (-> & -> & ->). wp_steps. rewrite HE. cbn [negb]. wp_steps.
  set (old := match vt_items w with Some l => _ | None => [] end).
  assert (Z.of_nat (length old) = vt_item_cap w) as Hold.
  { unfold old. destruct (vt_items w) as [l|]; [rewrite take_ge by lia; lia|simpl; lia]. }
  apply HQ.
  - rewrite length_app, length_replicate. lia.
  - lia.
  - intros i Hi. unfold item_at. cbn [vt_items set_items mbind option_bind]. rewrite lookup_app_l by lia. unfold old.
    destruct (vt_items w) as [l|] eqn:Hl; [|simpl in *; lia]. cbn. by rewrite take_ge by lia.
Qed.

Lemma random_level_spec n l w t (Q : Z → kvs_vector → nat → Prop) :
  (∀ l' x, l ≤ l' ≤ l + Z.of_nat n → Q l' (set_seed x w) t) → wp (random_level_loop n l) Q E w t.
Proof.
  assert (∀ x y v, set_seed x (set_seed y v) = set_seed x v) as Hss by done.
  revert l w Q. induction n as [|n IH]; intros l w Q HQ; cbn [random_level_loop].
  - wp_steps. assert (set_seed (vt_rand_seed w) w = w) as Heq by by destruct w. rewrite <-Heq. apply HQ. lia.
  - unfold hnsw_rand. wp_steps. destruct (_ <=? _); [wp_steps; apply HQ; lia|]. apply IH. intros l' x Hl'. rewrite Hss.
    apply HQ. lia.
Qed.

(** A list just allocated. *)
Definition empty_list e (l : Z) : Prop :=
  ve_neighbors e !! Z.to_nat l = Some (Some (replicate (Z.to_nat HNSW_NEIGHBOR_CAP) (-1))) ∧ ve_count e !! Z.to_nat l = Some 0.

Lemma alloc_neighbors_spec n w a e l t (Q : Z → kvs_vector → nat → Prop) :
  vt_heap w !! a = Some e → length (ve_neighbors e) = Z.to_nat KVS_HNSW_MAX_LEVEL →
  length (ve_count e) = Z.to_nat KVS_HNSW_MAX_LEVEL → ve_level e < KVS_HNSW_MAX_LEVEL →
  0 ≤ l → ve_level e < l + Z.of_nat n → (∀ l', 0 ≤ l' < l → empty_list e l') →
  (∀ e' t', blank e' = blank e → length (ve_neighbors e') = Z.to_nat KVS_HNSW_MAX_LEVEL →
     length (ve_count e') = Z.to_nat KVS_HNSW_MAX_LEVEL → (∀ l', 0 ≤ l' ≤ ve_level e → empty_list e' l') →
     Q 0 (set_heap (<[a := e']> (vt_heap w)) w) t') →
  wp (alloc_neighbors_loop n a l) Q E w t.
Proof.
  unfold KVS_HNSW_MAX_LEVEL. revert w e l t.
  induction n as [|n IH]; intros w e l t He Hs1 Hs2 Hlev Hl Hn Hdone HQ; cbn [alloc_neighbors_loop]; wp_step;
    (eapply wp_get_entry; [done|]); unfold KVS_HNSW_MAX_LEVEL.
  - rewrite (proj2 (Z.leb_gt _ _)) by lia. cbn [andb negb]. wp_steps.
    assert (set_heap (<[a := e]> (vt_heap w)) w = w) as Heq by (destruct w; cbn in *; by rewrite insert_id).
    rewrite <-Heq.
    apply HQ; try done. intros l' Hl'. apply Hdone. lia.
  - destruct (l <=? ve_level e) eqn:Hle; to_prop.
    + rewrite (proj2 (Z.ltb_lt _ _)) by lia. cbn [andb negb]. wp_steps. rewrite HE. cbn [negb]. wp_step.
      eapply wp_put_neighbors; [done|]. unfold put_list.
      eapply (IH _ (with_list e l (replicate (Z.to_nat HNSW_NEIGHBOR_CAP) (-1)) 0)); cbn; try (done || lia).
      * apply lookup_insert_eq.
      * by rewrite length_insert.
      * by rewrite length_insert.
      * intros l' Hl'. unfold empty_list. cbn. destruct (decide (l' = l)) as [->|Hne].
        -- rewrite !list_lookup_insert_eq by lia. done.
        -- rewrite !list_lookup_insert_ne by lia. apply Hdone. lia.
      * intros e' t' Hb H1 H2 H3. unfold set_heap. cbn. rewrite insert_insert_eq. by apply HQ.
    + cbn [andb negb]. wp_steps. assert (set_heap (<[a := e]> (vt_heap w)) w = w) as Heq by (destruct w; cbn in *; by rewrite insert_id).
    rewrite <-Heq.
      apply HQ; try done. intros l' Hl'. apply Hdone. lia.
Qed.

Lemma empty_list_ok n i e l : 0 ≤ l → empty_list e l → ∃ arr c,
  ve_neighbors e !! Z.to_nat l = Some (Some arr) ∧ ve_count e !! Z.to_nat l = Some c ∧ list_ok KVS_HNSW_M n i arr c.
Proof.
  intros Hl [H1 H2]. eexists _, 0. split_and!; [done|done|]. split; [by rewrite length_replicate|done|constructor|constructor].
Qed.

(** ** The whole insertion *)

(** The entries of [w] are those of [v], with [e] at [a]. *)
Definition extends v w a e : Prop :=
  vt_tree w = vt_tree v ∧ vt_count w = vt_count v ∧ vt_next_id w = vt_next_id v + 1 ∧
  (core <$> vt_heap w !! a) = Some (core e) ∧
  ∀ a', a' ≠ a → core <$> vt_heap w !! a' = core <$> vt_heap v !! a'.

Definition with_entry v a e : kvs_vector :=
  KVec (vt_tree v) (<[a := e]> (vt_heap v)) (S a) (vt_items v) (vt_item_cap v) (vt_next_id v) (vt_entry_point v)
    (vt_max_level v) (vt_rand_seed v) (vt_count v).

Lemma kin_core w w' a : kin w w' → core <$> vt_heap w' !! a = core <$> vt_heap w !! a.
Proof.
  intros Hk. pose proof (kn_heap _ _ Hk a) as Hb.
  destruct (vt_heap w' !! a) as [e'|], (vt_heap w !! a) as [e|]; try done. apply (inj Some) in Hb.
  simpl. f_equal. by apply blank_core.
Qed.

Lemma attach_spec v a e t (Q : Z → kvs_vector → nat → Prop) :
  graph_ok KVS_HNSW_M v → a = vt_fresh v → vt_next_id v < 2 ^ 30 →
  0 < ve_dim e → Z.of_nat (length (ve_vector e)) = ve_dim e →
  length (ve_neighbors e) = Z.to_nat KVS_HNSW_MAX_LEVEL → length (ve_count e) = Z.to_nat KVS_HNSW_MAX_LEVEL →
  (∀ w t', graph_ok KVS_HNSW_M w → extends v w a e → Q 0 w t') →
  wp (vector_attach_to_hnsw a) Q E (with_entry v a e) t.
Proof.
  intros Hg Ha Hb Hd0 Hd Hs1 Hs2 HQ. pose proof (go_next _ _ Hg) as Hn. unfold vector_attach_to_hnsw. wp_step.
  apply ensure_capacity_spec; [apply (go_cap _ _ Hg)|done|done|]. intros l c t1 Hl Hc Hit. cbn [vt_next_id with_entry] in *.
  cbn [negb Z.eqb]. wp_steps. unfold hnsw_random_level. apply random_level_spec. intros lev x Hlev. cbn [vt_next_id set_items with_entry].
  change (0 ≤ lev ≤ 7) in Hlev. wp_step. eapply wp_get_entry; [cbn; apply lookup_insert_eq|]. unfold put_entry. wp_steps.
  eapply alloc_neighbors_spec; [cbn; apply lookup_insert_eq|done|done|cbn [ve_level]; unfold KVS_HNSW_MAX_LEVEL; lia|done|cbn [ve_level]; unfold KVS_HNSW_MAX_LEVEL; lia|intros; lia|].
  cbn [ve_level]. intros e' t' Hbl Hz1 Hz2 Hemp. pose proof (blank_core _ _ Hbl) as (Hcore & Hid & Hlv). cbn [ve_id ve_level] in Hid, Hlv.
  cbn [negb Z.eqb]. wp_steps. cbn [vt_items set_items set_seed set_heap with_entry]. rewrite (proj2 (Z.leb_gt _ _)) by lia. wp_steps.
  apply wp_checked32; [unfold INT_MIN, INT_MAX; lia|]. wp_steps.
  match goal with |- wp _ _ _ ?s _ => set (w := s) end.
  assert (vt_heap w = <[a := e']> (vt_heap v)) as Hh by (cbn; by rewrite !insert_insert_eq).
  assert (attached v w a e') as Hatt.
  { split; try done; try (cbn; lia).
    - split; [done|split; [|]| |done|].
      + by replace (ve_dim e') with (ve_dim e) by (by injection Hcore).
      + replace (ve_dim e') with (ve_dim e) by (by injection Hcore).
        by replace (ve_vector e') with (ve_vector e) by (by injection Hcore).
      + unfold KVS_HNSW_MAX_LEVEL. lia.
      + intros l' Hl'. apply empty_list_ok; [lia|]. apply Hemp. lia.
    - cbn. by rewrite length_insert.
    - intros i Hi. etrans; [|exact (Hit i Hi)]. unfold item_at. cbn. by rewrite list_lookup_insert_ne by lia.
    - unfold item_at. cbn. rewrite list_lookup_insert_eq by lia. done. }
  eapply hnsw_insert_spec; [exact Hg|exact Hatt|done|done|]. intros w1 w' t2 Hg' Hk Hhw Hiw Hnw Htw Hcw.
  apply HQ; [done|]. split_and!; [by rewrite Htw|by rewrite Hcw|by rewrite Hnw| |].
  - rewrite Hhw, (kin_core w w1), Hh, lookup_insert_eq by done. simpl. f_equal. exact Hcore.
  - intros a' Hne. rewrite Hhw, (kin_core w w1), Hh, lookup_insert_ne by done. done.
Qed.
End steps.
