(* ===== verification/VectorProps.v ===== *)
(** * The vector index is a map, and its searches are sound

    The invariant of the whole index: the graph is well-formed, and the tree leads
    from each question to its one entry that is not deleted. A sequence of VSETs is
    a sequence of insertions into a map, lookups read the map, searches return
    entries of the map with their exact scores, and destroying the index frees all
    of it. What searches may miss is shown on concrete runs. *)

From stdpp Require Import sorting.
From S2P Require Import Prelude Cstdlib Float32 KvSpec KvsRbtree RbtreeShape RbtreeInsert RbtreeSearch RbtreeUnlink RbtreeEngine RbtreeProps KvsVector VectorSpec VectorInsert.

Implicit Types (v w : kvs_vector) (e : vector_entry) (a : addr) (k : bytes).

(** ** The invariant *)

Record vec_ok v : Prop := {
  vk_graph : graph_ok KVS_HNSW_M v;
  vk_tree  : rb_wf (vt_tree v);
  vk_keys k x : rb_abs (vt_tree v) !! k = Some x →
    ∃ a e, x = (entry_ptr a, -1) ∧ vt_heap v !! a = Some e ∧ ve_question e = k ∧ ve_deleted e = false;
  vk_live a e : vt_heap v !! a = Some e → ve_deleted e = false →
    rb_abs (vt_tree v) !! ve_question e = Some (entry_ptr a, -1) ∧ ve_norm e = vector_norm (ve_vector e);
  vk_count : vt_count v = Z.of_nat (size (rb_abs (vt_tree v))) ∧ vt_count v ≤ vt_next_id v
}.

(** The answer and the vector stored for a question. *)
Definition stored v k : option (bytes * list float) :=
  x ← rb_abs (vt_tree v) !! k; a ← ptr_entry x.1; e ← vt_heap v !! a; Some (ve_answer e, ve_vector e).

(** The vector of an admissible VSET. *)
Definition accepted (dim : Z) (str : bytes) : option (list float) :=
  if dim <=? 0 then None else
  vec ← parsed str dim;
  if fle (vector_norm vec) f_zero then None else Some vec.

Lemma ptr_entry_ptr a : ptr_entry (entry_ptr a) = Some a.
Proof. unfold ptr_entry, entry_ptr. rewrite numeral_dec by lia. by rewrite Nat2Z.id. Qed.

Lemma entry_ptr_inj a a' : entry_ptr a = entry_ptr a' → a = a'.
Proof. intros H. apply (f_equal ptr_entry) in H. rewrite !ptr_entry_ptr in H. by injection H. Qed.

Lemma stored_live v a e k :
  vt_heap v !! a = Some e → rb_abs (vt_tree v) !! k = Some (entry_ptr a, -1) → stored v k = Some (ve_answer e, ve_vector e).
Proof. intros He Hk. unfold stored. rewrite Hk. cbn [mbind option_bind fst]. rewrite ptr_entry_ptr. cbn. by rewrite He. Qed.

(** ** The tree of the index *)

(** The search ends at the sentinel, or at the node of the key. *)
Lemma wp_search s k E t (Q : addr → kvs_rbtree → nat → Prop) :
  rb_wf s →
  (∀ nil, rb_nil s = Some nil → rb_abs s !! k = None → Q nil s t) →
  (∀ x nil np n C a c l r, rb_nil s = Some nil → a ≠ nil → located s k x nil np n C a c l r → Q a s t) →
  wp (rbtree_search k) Q E s t.
Proof.
  intros [[T HT] _] Hno Hyes. pose proof (rb_rep_abs _ _ HT) as Habs. destruct HT as (nil & np & n & H & Hrb & Hs).
  pose proof (rp_nil _ _ _ _ _ _ H) as Hnil. eapply wp_find; [exact H|done|done| |].
  - intros Hk. apply (Hno nil); [done|]. rewrite Habs. by apply not_elem_of_list_to_map.
  - intros C a c l x r H1 Heq Ha Hk. apply (Hyes x nil np n C a c l r); [done|done|]. split; rewrite ?Heq; try done. by rewrite Habs.
Qed.

Lemma set_tree_id v : set_tree (vt_tree v) v = v.
Proof. by destruct v. Qed.

(** A new node for a key the tree does not have. *)
Lemma wp_add_key s k p E t (Q : kvs_rbtree → Prop) :
  rb_wf s → rb_abs s !! k = None → p ≠ PFreed → no_oom E →
  (∀ s', rb_wf s' → rb_abs s' = <[k := (p, -1)]> (rb_abs s) → Q s') →
  wp alloc_node (λ z s1 t1, ∃ y, z = Some y ∧ ∀ t2,
    wp (set_key y (PStr k);; set_value y p;; set_expire y (-1);; rbtree_insert y) (λ _ s2 t3, t3 = t2 ∧ Q s2) E s1 t2) E s t.
Proof.
  intros Hwf Hk Hp HE HQ. pose proof Hwf as [[T HT] Hf]. rewrite (rb_rep_abs _ _ HT) in *.
  destruct HT as (nil & np & n & H & Hrb & Hs). unfold alloc_node. wp_steps. rewrite HE. cbn [negb]. wp_steps.
  eexists. split; [done|]. intros t2. apply rep_alloc in H. wp_step. eapply wp_write_fresh; [exact H|]. intros s1 H1.
  wp_step. eapply wp_write_fresh; [exact H1|]. intros s2 H2. wp_step. eapply wp_write_fresh; [exact H2|]. intros s3 H3.
  eapply (wp_insert_fresh _ k p (-1)); [exact H3|done|done|done|done|done|]. intros s' Hwf' Habs. split; [done|]. by apply HQ.
Qed.

(** ** Storing *)

Definition hide e : vector_entry :=
  VEntry (ve_question e) (ve_answer e) (ve_vector e) (ve_dim e) (ve_norm e) (ve_ctime e) (ve_id e)
    (ve_level e) true (ve_neighbors e) (ve_count e).

Lemma hide_graph B v a e : graph_ok B v → vt_heap v !! a = Some e → graph_ok B (set_heap (<[a := hide e]> (vt_heap v)) v).
Proof. intros Hg He. eapply put_entry_ok; [done|done|done|]. intros [O1 O2 O3 O4 O5]. by split. Qed.

Lemma wp_set_deleted v a e E t (Q : unit → kvs_vector → nat → Prop) :
  vt_heap v !! a = Some e → Q tt (set_heap (<[a := hide e]> (vt_heap v)) v) t → wp (set_deleted a) Q E v t.
Proof. intros He HQ. unfold set_deleted. wp_step. apply (wp_get_entry v E a e); [done|]. unfold put_entry. by wp_steps. Qed.

(** The tree changes, the entries do not. *)
Lemma set_tree_graph B v s : graph_ok B v → graph_ok B (set_tree s v).
Proof. intros []. by split. Qed.
Lemma set_count_graph B v n : graph_ok B v → graph_ok B (set_count n v).
Proof. intros []. by split. Qed.

Lemma vk_entry v k a : vec_ok v → rb_abs (vt_tree v) !! k = Some (entry_ptr a, -1) →
  ∃ e, vt_heap v !! a = Some e ∧ ve_question e = k ∧ ve_deleted e = false.
Proof.
  intros Hv Hx. destruct (vk_keys v Hv k _ Hx) as (a' & e & Heq & He). apply (f_equal fst), entry_ptr_inj in Heq as ->. by exists e.
Qed.

Lemma core_lookup v w a a' e :
  core <$> vt_heap w !! a = core <$> vt_heap v !! a' → vt_heap v !! a' = Some e → ∃ e', vt_heap w !! a = Some e' ∧ core e' = core e.
Proof. intros Hc He. rewrite He in Hc. destruct (vt_heap w !! a) as [e'|]; [|done]. apply (inj Some) in Hc. by exists e'. Qed.

(** The index with a question more, or with a new entry for one it had. *)
Lemma vec_ok_stored v w a e q :
  vec_ok v → graph_ok KVS_HNSW_M w → rb_wf (vt_tree w) → rb_abs (vt_tree w) = <[q := (entry_ptr a, -1)]> (rb_abs (vt_tree v)) →
  vt_heap v !! a = None → core <$> vt_heap w !! a = Some (core e) → ve_question e = q → ve_deleted e = false →
  ve_norm e = vector_norm (ve_vector e) →
  (∀ a', a' ≠ a → rb_abs (vt_tree v) !! q ≠ Some (entry_ptr a', -1) → core <$> vt_heap w !! a' = core <$> vt_heap v !! a') →
  (∀ a' e', rb_abs (vt_tree v) !! q = Some (entry_ptr a', -1) → vt_heap w !! a' = Some e' → ve_deleted e' = true) →
  vt_count w = Z.of_nat (size (rb_abs (vt_tree w))) → vt_count w ≤ vt_next_id w →
  vec_ok w ∧ ∀ k, stored w k = if decide (k = q) then Some (ve_answer e, ve_vector e) else stored v k.
Proof.
  intros Hv Hg Hwf Habs Hna Ha Hq Hdel Hnorm Hrest Hold Hc1 Hc2.
  destruct (vt_heap w !! a) as [ea|] eqn:Hea; [|done]. apply (inj Some) in Ha. injection Ha as Q1 Q2 Q3 _ Q5 Q6.
  assert (∀ k a' e', k ≠ q → rb_abs (vt_tree v) !! k = Some (entry_ptr a', -1) → vt_heap v !! a' = Some e' →
    ∃ e2, vt_heap w !! a' = Some e2 ∧ core e2 = core e') as Hkeep.
  { intros k a' e' Hk Hx He'. eapply core_lookup; [|exact He']. apply Hrest; [by intros ->; rewrite Hna in He'|].
    intros Hx2. destruct (vk_entry v _ _ Hv Hx) as (e1 & H1 & H2 & _), (vk_entry v _ _ Hv Hx2) as (e2 & H3 & H4 & _). congruence. }
  split; [split|].
  - done.
  - done.
  - intros k x. rewrite Habs. intros [[<- <-]|[Hne Hx]]%lookup_insert_Some.
    + exists a, ea. split_and!; [done|done|congruence|congruence].
    + destruct (vk_keys v Hv k x Hx) as (a' & e' & -> & He' & Hk' & Hd').
      destruct (Hkeep k a' e' ltac:(done) Hx He') as (e2 & He2 & Hcore). injection Hcore as C1 _ _ _ _ C6. exists a', e2.
      split_and!; [done|done|congruence|congruence].
  - intros a' e' He' Hd'. rewrite Habs. destruct (decide (a' = a)) as [->|Hne].
    + rewrite Hea in He'. injection He' as <-. rewrite Q1, Hq, lookup_insert_eq. split; [done|congruence].
    + assert (rb_abs (vt_tree v) !! q ≠ Some (entry_ptr a', -1)) as Hnq.
      { intros Hx. specialize (Hold _ _ Hx He'). congruence. }
      pose proof (Hrest a' Hne Hnq) as Hc. symmetry in Hc.
      destruct (core_lookup w v a' a' e' Hc He') as (e0 & He0 & Hcore). injection Hcore as C1 _ C3 _ C5 C6.
      pose proof (vk_live v Hv a' e0 He0 ltac:(congruence)) as [Hl Hl2]. rewrite C1 in Hl.
      rewrite lookup_insert_ne by congruence. split; [done|congruence].
  - done.
  - intros k. destruct (decide (k = q)) as [->|Hne].
    + rewrite (stored_live w a ea); [congruence|done|]. by rewrite Habs, lookup_insert_eq.
    + unfold stored. rewrite Habs, lookup_insert_ne by done. destruct (rb_abs (vt_tree v) !! k) as [x|] eqn:Hx; [|done]. cbn.
      destruct (vk_keys v Hv k x Hx) as (a' & e' & -> & He' & _). cbn [fst]. rewrite ptr_entry_ptr. cbn.
      destruct (Hkeep k a' e' Hne Hx He') as (e2 & He2 & Hcore). injection Hcore as _ C2 C3 _ _ _. rewrite He', He2. cbn. congruence.
Qed.

(** What a VSET leaves behind. *)
Definition vset_post v q ans dim str (r : Z) v' : Prop :=
  match accepted dim str with
  | Some vec => r = 0 ∧ vec_ok v' ∧ vt_next_id v' = vt_next_id v + 1 ∧
      ∀ k, stored v' k = if decide (k = q) then Some (ans, vec) else stored v k
  | None => r = (if dim <=? 0 then -1 else -2) ∧ v' = v
  end.

Lemma vector_entry_create_spec v q ans dim vec E t (Q : option addr → kvs_vector → nat → Prop) :
  no_oom E → 0 < dim → Z.of_nat (length vec) = dim →
  (if fle (vector_norm vec) f_zero then ∀ t', Q None v t'
   else ∀ now t', let a := vt_fresh v in
     Q (Some a) (with_entry v a (VEntry q ans vec dim (vector_norm vec) now (-1) 0 false
       (replicate (Z.to_nat KVS_HNSW_MAX_LEVEL) None) (replicate (Z.to_nat KVS_HNSW_MAX_LEVEL) 0))) t') →
  wp (vector_entry_create q ans dim vec) Q E v t.
Proof.
  intros HE Hd Hl HQ. unfold vector_entry_create. rewrite (proj2 (Z.leb_gt _ _)) by done. wp_steps. rewrite !HE. cbn [negb orb].
  wp_steps. rewrite !HE. cbn [negb orb]. unfold kvs_current_time_ms. wp_steps. rewrite take_ge by lia. destruct (fle _ _); wp_steps; apply HQ.
Qed.

Lemma vector_set_spec v q ans dim str E t :
  no_oom E → vec_ok v → vt_next_id v < 2 ^ 30 →
  wp (kvs_vector_set q ans dim str) (λ r v' _, vset_post v q ans dim str r v') E v t.
Proof.
  intros HE Hv Hb. unfold kvs_vector_set, vset_post, accepted. destruct (dim <=? 0) eqn:Hd; to_prop; [by wp_steps|].
  wp_step. apply parse_vector_spec; [done|done|]. destruct (parsed str dim) as [vec|] eqn:Hp; [|by wp_steps]. cbn [mbind option_bind].
  pose proof (parsed_length str dim vec ltac:(lia) Hp) as Hlen. wp_step. apply vector_entry_create_spec; [done|done|done|].
  destruct (fle (vector_norm vec) f_zero); [intros t'; by wp_steps|]. intros now t' a.
  set (e := VEntry q ans vec dim _ _ _ _ _ _ _). destruct Hv as [Hg Hwf Hkeys Hlive Hcount].
  assert (vt_heap v !! a = None) as Hna.
  { destruct (vt_heap v !! a) eqn:Hx; [|done]. pose proof (go_fresh _ _ Hg a ltac:(by eexists)). unfold a in *. lia. }
  wp_step. apply attach_spec; [done|done|done|done|done|done|done|done|]. intros w t1 Hgw (Ht & Hcw & Hnw & Ha & Hrest).
  cbn [negb Z.eqb]. wp_step. unfold on_tree. apply wp_zoom. rewrite Ht. apply wp_search; [done| |].
  - intros nil Hnil Hk. rewrite <-Ht, set_tree_id. wp_step. apply wp_zoom. rewrite Ht. eapply wp_get_nil; [exact Hnil|].
    rewrite <-Ht, set_tree_id. rewrite bool_decide_eq_true_2 by done. cbn [negb]. wp_step. apply wp_zoom. rewrite Ht.
    eapply wp_mono.
    { apply (wp_add_key _ q (entry_ptr a) _ _ (λ s', rb_wf s' ∧ rb_abs s' = <[q := (entry_ptr a, -1)]> (rb_abs (vt_tree v)))); done. }
    intros z s1 t2 (y & -> & Hins). cbv beta iota. wp_steps. rewrite HE. cbn [negb]. wp_step. apply wp_zoom.
    eapply wp_mono; [apply Hins|]. intros [] s2 t3 (-> & Hwf2 & Habs2). cbv beta. cbn [set_tree]. wp_steps.
    cbn [vt_count set_tree]. rewrite Hcw. apply wp_checked32; [unfold INT_MIN, INT_MAX; lia|]. wp_steps.
    split; [done|].
    match goal with |- vec_ok ?x ∧ _ => destruct (vec_ok_stored v x a e q) as [Hok Hst] end; try done.
    + by apply set_count_graph, set_tree_graph, set_tree_graph.
    + intros a' Hne _. by apply Hrest.
    + intros a' e' Hx. congruence.
    + cbn. rewrite Habs2, map_size_insert_None by done. lia.
    + cbn. lia.
  - intros x nil np n C o c l r Hnil Hne HL. pose proof (lo_key _ _ _ _ _ _ _ _ _ _ _ HL) as Hx.
    destruct (Hkeys _ _ Hx) as (ao & eo & -> & Heo & Hqo & Hdo). rewrite <-Ht, set_tree_id. wp_step. apply wp_zoom. rewrite Ht.
    eapply wp_get_nil; [exact Hnil|]. rewrite <-Ht, set_tree_id. rewrite bool_decide_eq_false_2 by done. cbn [negb].
    wp_step. apply wp_zoom. rewrite Ht. eapply wp_value; [by eapply located_cell|]. rewrite <-Ht, set_tree_id. cbn [fst].
    rewrite ptr_entry_ptr. assert (ao ≠ a) as Hao by (by intros ->; rewrite Hna in Heo).
    destruct (core_lookup v w ao ao eo (Hrest ao Hao) Heo) as (eo' & Heo' & _). wp_step. eapply wp_set_deleted; [exact Heo'|].
    wp_step. apply wp_zoom. cbn [vt_tree set_heap]. rewrite Ht. eapply wp_set_value; [by eapply located_cell|]. wp_steps. cbn [snd].
    destruct (located_write _ _ _ _ _ _ _ _ _ _ _ HL (entry_ptr a, -1) Hwf) as [Hw Habs]; [done|].
    split; [done|].
    match goal with |- vec_ok ?x ∧ _ => destruct (vec_ok_stored v x a e q) as [Hok Hst] end; try done.
    + by apply set_tree_graph, hide_graph.
    + cbn. by rewrite lookup_insert_ne.
    + intros a' Hne' Hx'. cbn. rewrite lookup_insert_ne; [by apply Hrest|]. intros <-. done.
    + intros a' e' Hx'. rewrite Hx in Hx'. apply (f_equal (from_option fst PNull)), entry_ptr_inj in Hx' as <-. cbn.
      rewrite lookup_insert_eq. by intros [= <-].
    + change (vt_count w = Z.of_nat (size (rb_abs (hset o (cell Lf c (root_of nil l) (root_of nil r) (up nil C) q (entry_ptr a, -1)) (vt_tree v))))).
      rewrite Habs, (map_size_insert_Some _ _ _ (ex_intro _ _ Hx)). rewrite Hcw. apply Hcount.
    + cbn. lia.
Qed.

(** ** Creation, and sequences of VSETs *)

Definition new_index : kvs_vector := KVec empty_tree ∅ 0 None 0 0 (-1) 0 0x9e3779b9 0.

Lemma new_index_ok : vec_ok new_index ∧ ∀ k, stored new_index k = None.
Proof.
  destruct empty_tree_wf as [Hwf Habs]. split; [split|].
  - split; try done.
    + cbn [vt_next_id new_index]. intros i Hi. lia.
    + intros a [e He]. change ((∅ : gmap addr vector_entry) !! a = Some e) in He. by rewrite lookup_empty in He.
  - done.
  - intros k x. cbn [vt_tree new_index]. rewrite Habs. by rewrite lookup_empty.
  - intros a e He. change ((∅ : gmap addr vector_entry) !! a = Some e) in He. by rewrite lookup_empty in He.
  - cbn [vt_tree vt_count vt_next_id new_index]. by rewrite Habs, map_size_empty.
  - intros k. unfold stored. cbn [vt_tree new_index]. by rewrite Habs, lookup_empty.
Qed.

Lemma vector_create_run E t : no_oom E → kvs_vector_create E global_vector_tree0 t = Done (0, new_index, S t).
Proof.
  intros HE. unfold kvs_vector_create, mbind, M_bind, modify, on_tree, zoom. cbn [vt_tree global_vector_tree0 rb_heap rb_fresh].
  fold global_rbtree0. rewrite rbtree_create_run by apply HE. reflexivity.
Qed.

(** One VSET: question, answer, dimension and the text of the vector. *)
Record vset := VSet { vs_question : bytes; vs_answer : bytes; vs_dim : Z; vs_text : bytes }.

Definition run_vset (c : vset) : T Z := kvs_vector_set (vs_question c) (vs_answer c) (vs_dim c) (vs_text c).

Fixpoint run_vsets (cs : list vset) : T (list Z) :=
  match cs with
  | [] => mret []
  | c :: cs' => r ← run_vset c; rs ← run_vsets cs'; mret (r :: rs)
  end.

(** The same on a map. *)
Definition spec_vset (m : gmap bytes (bytes * list float)) (c : vset) : gmap bytes (bytes * list float) :=
  match accepted (vs_dim c) (vs_text c) with
  | Some vec => <[vs_question c := (vs_answer c, vec)]> m
  | None => m
  end.

Definition vset_code (c : vset) : Z :=
  match accepted (vs_dim c) (vs_text c) with Some _ => 0 | None => if vs_dim c <=? 0 then -1 else -2 end.

Lemma run_vsets_spec E cs v m t :
  no_oom E → vec_ok v → vt_next_id v + Z.of_nat (length cs) ≤ 2 ^ 30 → (∀ k, stored v k = m !! k) →
  wp (run_vsets cs) (λ rs v' _, rs = vset_code <$> cs ∧ vec_ok v' ∧ ∀ k, stored v' k = foldl spec_vset m cs !! k) E v t.
Proof.
  intros HE. revert v m t. induction cs as [|c cs IH]; intros v m t Hv Hn Hm; cbn [run_vsets]; wp_step; [done|].
  cbn [length] in Hn. eapply wp_mono; [apply vector_set_spec; [done|done|lia]|]. intros r v' t' Hpost.
  assert (vec_ok v' ∧ r = vset_code c ∧ vt_next_id v' ≤ vt_next_id v + 1 ∧ ∀ k, stored v' k = spec_vset m c !! k) as (Hv' & -> & Hn' & Hm').
  { unfold vset_post, spec_vset, vset_code in *. destruct (accepted _ _) as [vec|].
    - destruct Hpost as (-> & Hv' & Hnx & Hst). split_and!; [done|done|lia|]. intros k. rewrite Hst. case_decide as Hk.
      + subst k. by rewrite lookup_insert_eq.
      + by rewrite lookup_insert_ne.
    - destruct Hpost as [-> ->]. split_and!; [done|done|lia|done]. }
  cbv beta. wp_step. eapply wp_mono; [apply (IH v' (spec_vset m c)); [done|lia|done]|]. intros rs v2 t2 (-> & Hv2 & Hst2). by wp_steps.
Qed.

Lemma get_by_key_spec E t v k :
  vec_ok v →
  wp (kvs_vector_get_by_key k) (λ r v' _, v' = v ∧
    match r with
    | Some a => ∃ e, vt_heap v !! a = Some e ∧ ve_question e = k ∧ ve_deleted e = false ∧ stored v k = Some (ve_answer e, ve_vector e)
    | None => stored v k = None
    end) E v t.
Proof.
  intros Hv. unfold kvs_vector_get_by_key, on_tree. wp_steps. apply wp_search; [apply Hv| |].
  - intros nil Hnil Hk. rewrite set_tree_id. wp_step. apply wp_zoom. eapply wp_get_nil; [exact Hnil|]. rewrite set_tree_id.
    rewrite decide_True by done. wp_steps. unfold stored. by rewrite Hk.
  - intros x nil np n C o c l r Hnil Hne HL. pose proof (lo_key _ _ _ _ _ _ _ _ _ _ _ HL) as Hx.
    rewrite set_tree_id. wp_step. apply wp_zoom. eapply wp_get_nil; [exact Hnil|]. rewrite set_tree_id.
    rewrite decide_False by done. wp_step. apply wp_zoom. eapply wp_value; [by eapply located_cell|]. rewrite set_tree_id.
    destruct (vk_keys v Hv k x Hx) as (a & e & -> & He & Hq & Hd). cbn [fst]. rewrite ptr_entry_ptr. wp_steps.
    split; [done|]. exists e. split_and!; [done|done|done|]. by eapply stored_live.
Qed.

(** ** A small index *)

Definition sample_sets : list vset :=
  [VSet (lit "x") (lit "one") 2 (lit "1,0"); VSet (lit "y") (lit "two") 2 (lit "0,1"); VSet (lit "x") (lit "three") 2 (lit "1,1")].

Definition sample : kvs_vector :=
  match run_vsets sample_sets calm new_index 0%nat with Done (_, v, _) => v | Fault _ => new_index end.

Lemma sample_ok : vec_ok sample.
Proof.
  pose proof (run_vsets_spec calm sample_sets new_index ∅ 0 calm_no_oom (proj1 new_index_ok) ltac:(done)) as H.
  unfold wp in H. unfold sample. destruct (run_vsets _ _ _ _) as [[[rs v] t]|]; [|apply new_index_ok].
  apply H. intros k. rewrite lookup_empty. apply new_index_ok.
Qed.

(** ** Claims *)

(** C13: After start-up and any sequence of VSETs, the vector index is a map from
    questions to answers and vectors: each VSET whose dimension is positive and
    whose text is that many numbers of positive norm replies 0 and binds its
    question, overwriting what was there; every other replies -1 or -2 and changes
    nothing. No step is undefined, and the invariant of tree, table and graph
    holds at the end. Up to 2^30 VSETs, while memory does not run out. *)
Theorem vector_index_refines_map E t (cs : list vset) :
  no_oom E → Z.of_nat (length cs) ≤ 2 ^ 30 →
  wp (_r ← kvs_vector_create; run_vsets cs) (λ rs v' _,
    rs = vset_code <$> cs ∧ vec_ok v' ∧ ∀ k, stored v' k = foldl spec_vset ∅ cs !! k) E global_vector_tree0 t.
Proof.
  intros HE Hn. destruct new_index_ok as [Hok Hst]. unfold wp, mbind at 1, M_bind. rewrite vector_create_run by done.
  apply (run_vsets_spec E cs new_index ∅ (S t)); [done|done|cbn; lia|]. intros k. by rewrite Hst, lookup_empty.
Qed.

Lemma vector_index_refines_map_witness :
  wp (_r ← kvs_vector_create; run_vsets sample_sets) (λ rs v' _,
    rs = [0; 0; 0] ∧ vec_ok v' ∧ fst <$> stored v' (lit "x") = Some (lit "three")) calm global_vector_tree0 0.
Proof.
  eapply wp_mono; [exact (vector_index_refines_map calm 0 sample_sets calm_no_oom ltac:(done))|].
  intros rs v' t' (Hr & Hv & Hs). split; [|split; [exact Hv|]].
  - rewrite Hr. vm_compute. reflexivity.
  - rewrite Hs. vm_compute. reflexivity.
Defined.

(** Kvs_vector_get_by_key returns a pointer to the entry stored for a question,
    NULL exactly when there is none, and changes nothing; the entry is live and is
    the question's. *)
Theorem vector_get_by_key E t v k :
  vec_ok v →
  wp (kvs_vector_get_by_key k) (λ r v' _, v' = v ∧
    match r with
    | Some a => ∃ e, vt_heap v !! a = Some e ∧ ve_question e = k ∧ ve_deleted e = false ∧ stored v k = Some (ve_answer e, ve_vector e)
    | None => stored v k = None
    end) E v t.
Proof. apply get_by_key_spec. Qed.

Lemma vector_get_by_key_witness :
  wp (kvs_vector_get_by_key (lit "y")) (λ r v' _, v' = sample ∧
    ∃ a e, r = Some a ∧ vt_heap sample !! a = Some e ∧ ve_answer e = lit "two") calm sample 0.
Proof.
  assert (fst <$> stored sample (lit "y") = Some (lit "two")) as Hst by (vm_compute; reflexivity).
  eapply wp_mono; [exact (vector_get_by_key calm 0 sample (lit "y") sample_ok)|].
  intros r v' t' [Hv Hr]. split; [exact Hv|]. destruct r as [a|]; [|rewrite Hr in Hst; discriminate Hst].
  destruct Hr as (e & He & _ & _ & Hs). rewrite Hs in Hst. injection Hst as Ha. exists a, e. split; [reflexivity|]. split; [exact He|exact Ha].
Defined.

(** What a search returns for a query: an entry that is stored, of the query's
    dimension, with its similarity. *)
Definition found_for v (q : list float) (threshold : float) (x : search_result) : Prop :=
  ∃ vec, stored v (sr_question x) = Some (sr_answer x, vec) ∧ length vec = length q ∧
    sr_score x = cosine_similarity q vec (vector_norm q) (vector_norm vec) ∧ fle threshold (sr_score x) = true.

(** The entry behind a candidate above the threshold. *)
Lemma top_live v q dim threshold topk top c :
  vec_ok v → Z.of_nat (length q) = dim → flt f_m2 threshold = true →
  top_ok v q dim (vector_norm q) topk threshold top → c ∈ top →
  ∃ a e, vt_heap v !! a = Some e ∧ ve_id e = cd_id c ∧ entry_at v (cd_id c) = Some e ∧
    rb_abs (vt_tree v) !! ve_question e = Some (entry_ptr a, -1) ∧ length (ve_vector e) = length q ∧
    cd_score c = cosine_similarity q (ve_vector e) (vector_norm q) (vector_norm (ve_vector e)) ∧ fle threshold (cd_score c) = true.
Proof.
  intros Hv Hq Hth Ht Hc. pose proof (co_score _ _ _ _ _ _ (tk_cands _ _ _ _ _ _ _ Ht)) as Hs. rewrite Forall_forall in Hs.
  destruct (Hs c Hc) as [Hr Hsc]. pose proof (tk_above _ _ _ _ _ _ _ Ht) as Hab. rewrite Forall_forall in Hab. specialize (Hab c Hc).
  destruct (go_items _ _ (vk_graph v Hv) _ Hr) as (a & e & Ha & He & Hok). pose proof (item_entry _ _ _ _ Ha He) as Hat.
  destruct (eo_dim _ _ _ _ Hok) as [_ Hd]. unfold score in Hsc. rewrite Hat in Hsc.
  rewrite (proj2 (Z.ltb_ge _ _)), (proj2 (Z.leb_gt _ _)) in Hsc by lia. cbn [orb] in Hsc. destruct (_ || _) eqn:Hx.
  { exfalso. rewrite Hsc in Hab. pose proof (flt_fle_trans _ _ _ Hth Hab) as Hf. by rewrite flt_irrefl in Hf. }
  to_prop. destruct (vk_live v Hv a e He) as [Hl Hn]; [done|]. exists a, e. rewrite <-Hn.
  split_and!; [done|apply (eo_id _ _ _ _ Hok)|done|done|lia|done|done].
Qed.

Lemma Forall2_elem_r {A B} (P : A → B → Prop) l (k : list B) y : Forall2 P l k → y ∈ k → ∃ x, x ∈ l ∧ P x y.
Proof.
  induction 1 as [|x y' l k Hxy _ IH]; [by intros ?%not_elem_of_nil|].
  intros [->|Hy]%elem_of_cons; [exists x; split; [by left|done]|]. destruct (IH Hy) as (x' & Hx' & Hp). exists x'. split; [by right|done].
Qed.

(** The results of a search for which the candidates are known. *)
Lemma results_sound v q dim threshold topk top rs :
  vec_ok v → Z.of_nat (length q) = dim → flt f_m2 threshold = true →
  top_ok v q dim (vector_norm q) topk threshold top → Forall2 (result_of v) top rs →
  NoDup (sr_question <$> rs) ∧ StronglySorted (λ x y, fle (sr_score y) (sr_score x) = true) rs ∧ Forall (found_for v q threshold) rs.
Proof.
  intros Hv Hq Hth Ht Hrs.
  pose proof (λ c, top_live v q dim threshold topk top c Hv Hq Hth Ht) as Hlive.
  pose proof (co_nodup _ _ _ _ _ _ (tk_cands _ _ _ _ _ _ _ Ht)) as Hnd. pose proof (tk_sorted _ _ _ _ _ _ _ Ht) as Hs. clear Ht.
  induction Hrs as [|c r top rs Hr Hrs IH]; [repeat constructor|].
  apply NoDup_cons in Hnd as [Hni Hnd]. apply StronglySorted_inv in Hs as [Hs Hc].
  destruct IH as (I1 & I2 & I3); [by intros c' Hc'; apply Hlive; right|done|done|].
  destruct (Hlive c ltac:(by left)) as (a & e & He & Hid & Hat & Hk & Hlen & Hsc & Hab).
  destruct Hr as (e' & He' & ->). rewrite Hat in He'. injection He' as <-. split_and!.
  - apply NoDup_cons. split; [|done]. intros (r2 & Hq2 & Hr2)%list_elem_of_fmap.
    destruct (Forall2_elem_r _ _ _ _ Hrs Hr2) as (c2 & Hc2 & e2 & He2 & ->).
    destruct (Hlive c2 ltac:(by right)) as (a' & e2' & He2' & Hid2 & Hat2 & Hk2 & _). rewrite Hat2 in He2. injection He2 as <-.
    cbn [sr_question] in Hq2. rewrite Hq2, Hk2 in Hk. apply (f_equal (from_option fst PNull)), entry_ptr_inj in Hk as ->.
    rewrite He2' in He. injection He as ->. apply Hni. rewrite <-Hid, Hid2. by apply list_elem_of_fmap_2.
  - constructor; [done|]. apply Forall_forall. intros r2 Hr2. destruct (Forall2_elem_r _ _ _ _ Hrs Hr2) as (c2 & Hc2 & e2 & _ & ->).
    rewrite Forall_forall in Hc. by apply Hc.
  - constructor; [|done]. exists (ve_vector e). split_and!; [|done|done|done]. by eapply stored_live.
Qed.

Lemma search_sound_spec E t v dim str topk threshold :
  no_oom E → vec_ok v → 0 < dim → 0 < topk → flt f_m2 threshold = true →
  wp (kvs_vector_search dim str topk threshold) (λ r v' _, v' = v ∧
    match accepted dim str with
    | Some q =>
        r.1 = Z.of_nat (length r.2) ∧ Z.of_nat (length r.2) ≤ Z.min topk 128 ∧ NoDup (sr_question <$> r.2) ∧
        StronglySorted (λ x y, fle (sr_score y) (sr_score x) = true) r.2 ∧ Forall (found_for v q threshold) r.2
    | None => r = (-2, [])
    end) E v t.
Proof.
  intros HE Hv Hd Hk Hth. eapply wp_mono; [apply vector_search_spec; [apply Hv|done|done|done]|].
  intros [ret rs] v' t' [-> Hr]. split; [done|]. unfold accepted. rewrite (proj2 (Z.leb_gt _ _)) by done.
  destruct (parsed str dim) as [q|] eqn:Hp; [|done]. cbn [mbind option_bind]. destruct (fle (vector_norm q) f_zero); [done|].
  destruct Hr as (top & Ht & Hret & Hrs). cbn [fst snd] in *. pose proof (parsed_length str dim q ltac:(lia) Hp) as Hq.
  pose proof (Forall2_length _ _ _ Hrs) as Hl. pose proof (co_length _ _ _ _ _ _ (tk_cands _ _ _ _ _ _ _ Ht)).
  destruct (results_sound v q dim threshold _ top rs Hv Hq Hth Ht Hrs) as (R1 & R2 & R3).
  split_and!; [by rewrite Hret, Hl|lia|done|done|done].
Qed.

(** C14: A similarity search with a threshold above -2 returns, when the query is
    admissible, at most min(topk, 128) results, best score first, no question
    twice; each is a question of the index with its stored answer, its vector has
    the query's dimension, its score is the cosine similarity of the two vectors,
    and the score reaches the threshold. A query that is not admissible is answered
    by -2. The search ends, reads no freed entry, and changes nothing. *)
Theorem vector_search_sound E t v dim str topk threshold :
  no_oom E → vec_ok v → 0 < dim → 0 < topk → flt f_m2 threshold = true →
  wp (kvs_vector_search dim str topk threshold) (λ r v' _, v' = v ∧
    match accepted dim str with
    | Some q =>
        r.1 = Z.of_nat (length r.2) ∧ Z.of_nat (length r.2) ≤ Z.min topk 128 ∧ NoDup (sr_question <$> r.2) ∧
        StronglySorted (λ x y, fle (sr_score y) (sr_score x) = true) r.2 ∧ Forall (found_for v q threshold) r.2
    | None => r = (-2, [])
    end) E v t.
Proof. apply search_sound_spec. Qed.

Lemma vector_search_sound_witness :
  wp (kvs_vector_search 2 (lit "0,2") 5 f_zero) (λ r v' _, v' = sample ∧ r.1 = Z.of_nat (length r.2) ∧ r.1 ≤ 5 ∧
    ∃ q, accepted 2 (lit "0,2") = Some q ∧ Forall (found_for sample q f_zero) r.2) calm sample 0.
Proof.
  eapply wp_mono; [exact (vector_search_sound calm 0 sample 2 (lit "0,2") 5 f_zero calm_no_oom sample_ok ltac:(lia) ltac:(lia) eq_refl)|].
  intros r v' t' [Hv Hr]. split; [exact Hv|]. assert (∃ q, accepted 2 (lit "0,2") = Some q) as [q Hq] by (eexists; vm_compute; reflexivity).
  rewrite Hq in Hr. destruct Hr as (R1 & R2 & _ & _ & R5). split; [exact R1|]. split; [lia|]. exists q. split; [exact Hq|exact R5].
Defined.

(** C26: The greedy descent on one level ends, within as many rounds as there are
    entries, at an entry none of whose neighbours on the level is more similar to
    the query; unless it is the one it started from, it is more similar than that
    one. *)
Theorem greedy_reaches_local_max E t v q dim qn eid level :
  vec_ok v → Z.of_nat (length q) = dim → 0 ≤ level → 0 ≤ eid < vt_next_id v →
  wp (hnsw_greedy q dim qn eid level) (λ c v' _, v' = v ∧ 0 ≤ c < vt_next_id v ∧ local_max v q dim qn level c ∧
    (c = eid ∨ flt (score v q dim qn eid) (score v q dim qn c) = true)) E v t.
Proof.
  intros Hv Hq Hl Hi. eapply (hnsw_greedy_spec KVS_HNSW_M ltac:(done) v (vk_graph v Hv)); [done|done|done|].
  intros c Hc Hm Hb. done.
Qed.

Definition e_y : list float := [f_zero; SpecFloat.S754_finite false 8388608 (-23)].

Lemma greedy_reaches_local_max_witness :
  wp (hnsw_greedy e_y 2 (vector_norm e_y) 0 0) (λ c v' _, v' = sample ∧ 0 ≤ c < 3 ∧ local_max sample e_y 2 (vector_norm e_y) 0 c)
    calm sample 0.
Proof.
  eapply wp_mono; [exact (greedy_reaches_local_max calm 0 sample e_y 2 (vector_norm e_y) 0 0 sample_ok eq_refl ltac:(lia) ltac:(vm_compute; split; [discriminate|reflexivity]))|].
  intros c v' t' (Hv & Hc & Hm & _). split; [exact Hv|]. split; [|exact Hm].
  replace 3 with (vt_next_id sample); [exact Hc|vm_compute; reflexivity].
Defined.

(** ** Destruction *)

Lemma wp_free_nodes fuel s nil np n T E t (Q : unit → kvs_rbtree → nat → Prop) :
  rep s nil np ∅ [] T → rb BLACK n T → sorted T → (length (inorder T) ≤ fuel)%nat →
  (∀ s' np', rep s' nil np' ∅ [] Leaf → Q tt s' t) →
  wp (free_nodes_loop fuel) Q E s t.
Proof.
  revert s np n T. induction fuel as [|fuel IH]; intros s np n T H Hrb Hs Hlen HQ; cbn [free_nodes_loop]; wp_steps;
    rewrite (rp_root _ _ _ _ _ _ H), (rp_nil _ _ _ _ _ _ H); cbn [plug].
  - destruct T; [|simpl in Hlen; rewrite length_app in Hlen; simpl in Hlen; lia]. simpl. rewrite decide_True by done. wp_steps. by eapply HQ.
  - assert (T = Leaf ∨ T ≠ Leaf) as [->|HT] by (destruct T; [by left|by right]); [simpl; rewrite decide_True by done; wp_steps; by eapply HQ|].
    rewrite decide_False.
    2: { destruct T; [done|]. intros [= Hx]. revert Hx. by eapply rep_not_nil. }
    wp_steps. eapply wp_get_root; [by eapply rp_root|]. cbn [plug]. wp_steps. unfold rbtree_mini, walk_fuel. wp_steps.
    eapply wp_get_nil; [by eapply rp_nil|]. wp_steps. eapply wp_mini_loop; [exact H|done| |].
    { pose proof (rep_size _ _ _ _ _ _ H). lia. }
    intros D a c k x u H1 _ Heq. wp_steps. rewrite app_nil_r in H1.
    eapply wp_rbtree_delete; [exact H1|by rewrite Heq|]. rewrite Heq.
    intros s1 np' T' b y n' H2 HT' Hy Hd Hk Hv.
    destruct (rest_lookup _ _ _ _ _ _ _ _ H2 (lookup_insert_eq _ _ _)) as [Hout Hcell].
    unfold f_key, read_field, get_node. wp_steps. rewrite Hcell. wp_steps. rewrite Hk. wp_steps. apply wp_free; [done|].
    wp_steps. eapply wp_free_outside; [exact H2|done|exact Hcell|]. intros s2 H3.
    rewrite delete_insert_id in H3 by done. apply dropped_length in Hd as Hl.
    eapply IH; [exact H3|done|by eapply dropped_sorted|lia|done].
Qed.

Lemma wp_free_items L v E t (Q : unit → kvs_vector → nat → Prop) :
  (∀ a, Some a ∈ L → is_Some (vt_heap v !! a)) →
  (∀ i j a, L !! i = Some (Some a) → L !! j = Some (Some a) → i = j) →
  (∀ h, (∀ a, Some a ∈ L → h !! a = None) → (∀ a, vt_heap v !! a = None → h !! a = None) → Q tt (set_heap h v) t) →
  wp (free_items L) Q E v t.
Proof.
  revert v. induction L as [|[a|] L IH]; intros v Hin Hinj HQ; cbn [free_items].
  - wp_steps. assert (set_heap (vt_heap v) v = v) as <- by by destruct v. apply HQ; [|done]. by intros a ?%not_elem_of_nil.
  - assert (Some a ∉ L) as Hni. { intros [i Hi]%list_elem_of_lookup. by specialize (Hinj 0%nat (S i) a eq_refl Hi). }
    destruct (Hin a ltac:(by left)) as [e He]. wp_step. unfold vector_entry_free. wp_step. eapply wp_get_entry; [exact He|]. wp_steps.
    apply IH; cbn [vt_heap set_heap].
    + intros a' Ha'. rewrite lookup_delete_ne by (by intros ->). apply Hin. by right.
    + intros i j a' Hi Hj. specialize (Hinj (S i) (S j) a' Hi Hj). lia.
    + intros h H1 H2. change (set_heap h (set_heap _ v)) with (set_heap h v). apply HQ.
      * intros a' [[= ->]|Ha']%elem_of_cons; [apply H2, lookup_delete_eq|by apply H1].
      * intros a' Ha'. apply H2. by rewrite lookup_delete_None; right.
  - apply IH.
    + intros a Ha. apply Hin. by right.
    + intros i j a Hi Hj. specialize (Hinj (S i) (S j) a Hi Hj). lia.
    + intros h H1 H2. apply HQ; [|done]. intros a [|Ha]%elem_of_cons; [done|by apply H1].
Qed.

Lemma destroy_spec E t v :
  vec_ok v → wp kvs_vector_destroy (λ _ v' _, vt_heap v' = ∅ ∧ rb_heap (vt_tree v') = ∅ ∧ vt_items v' = None) E v t.
Proof.
  intros [Hg [[T HT] _] _ _ _]. destruct HT as (nil & np & n & H & Hrb & Hs).
  unfold kvs_vector_destroy, free_tree_nodes_only, on_tree, walk_fuel. wp_steps.
  eapply wp_free_nodes; [exact H|done|done| |].
  { pose proof (rep_size _ _ _ _ _ _ H). rewrite inorder_addrs. lia. }
  intros s1 np1 H1. wp_steps. rewrite (rp_nil _ _ _ _ _ _ H1). unfold free_block, get_node. wp_steps.
  rewrite (rp_cell _ _ _ _ _ _ H1). wp_steps.
  assert (delete nil (rb_heap s1) = ∅) as Hemp.
  { apply map_eq. intros a. rewrite lookup_empty. destruct (decide (a = nil)) as [->|]; simplify_map_eq; [done|].
    rewrite (rp_rest _ _ _ _ _ _ H1); [done|]. simpl. set_solver. }
  cbn [vt_items vt_next_id set_tree]. pose proof (go_cap _ _ Hg) as Hcap. pose proof (go_next _ _ Hg) as Hn.
  destruct (vt_items v) as [l|] eqn:Hl; wp_steps.
  2: { cbn. split_and!; [|done|done]. apply map_empty. intros a. apply eq_None_not_Some. intros [e He].
       destruct (go_heap _ _ Hg a e He). lia. }
  rewrite (proj2 (Z.ltb_ge _ _)) by lia.
  assert (∀ i a, take (Z.to_nat (vt_next_id v)) l !! i = Some (Some a) → item_at v (Z.of_nat i) = Some a ∧ Z.of_nat i < vt_next_id v) as Hit.
  { intros i a Hi. apply lookup_take_Some in Hi as [Hi Hlt]. unfold item_at. rewrite Hl. cbn. rewrite Nat2Z.id, Hi. split; [done|lia]. }
  apply wp_free_items; cbn [vt_heap set_tree].
  - intros a [i Hi]%list_elem_of_lookup. destruct (Hit i a Hi) as [Ha Hlt].
    destruct (go_items _ _ Hg (Z.of_nat i) ltac:(lia)) as (a' & e & Ha' & He & _). rewrite Ha in Ha'. injection Ha' as <-. by eexists.
  - intros i j a Hi Hj. destruct (Hit i a Hi) as [Ha Hlt], (Hit j a Hj) as [Ha' Hlt'].
    destruct (go_items _ _ Hg (Z.of_nat i) ltac:(lia)) as (a' & e & Hx & He & _). rewrite Ha in Hx. injection Hx as <-.
    destruct (go_number _ _ (Z.of_nat i) _ _ Hg ltac:(lia) Ha He) as [_ Hid], (go_number _ _ (Z.of_nat j) _ _ Hg ltac:(lia) Ha' He) as [_ Hid']. lia.
  - intros h H2 H3. wp_steps. cbn. split_and!; [|done|done]. apply map_empty. intros a.
    destruct (vt_heap v !! a) as [e|] eqn:He; [|by apply H3]. destruct (go_heap _ _ Hg a e He) as [Hr Ha]. apply H2.
    apply list_elem_of_lookup. exists (Z.to_nat (ve_id e)). rewrite lookup_take_lt by lia. unfold item_at in Ha. rewrite Hl in Ha. cbn in Ha.
    destruct (l !! _) as [[x|]|]; [|done|done]. by injection Ha as ->.
Qed.

(** Destroying a well-formed index frees every node of the tree and every entry,
    the overwritten ones too, each exactly once. *)
Theorem vector_destroy_frees_all E t v :
  vec_ok v → wp kvs_vector_destroy (λ _ v' _, vt_heap v' = ∅ ∧ rb_heap (vt_tree v') = ∅ ∧ vt_items v' = None) E v t.
Proof. apply destroy_spec. Qed.

Lemma vector_destroy_frees_all_witness :
  wp kvs_vector_destroy (λ _ v' _, vt_heap v' = ∅ ∧ rb_heap (vt_tree v') = ∅ ∧ vt_items v' = None) calm sample 0.
Proof. exact (vector_destroy_frees_all calm 0 sample sample_ok). Defined.

(** ** What goes wrong *)

(** VSETs on a new index and a search for one result or more. *)
Definition sets_then_search (cs : list vset) (dim : Z) (text : bytes) : T (list Z * (Z * list search_result)) :=
  rs ← run_vsets cs; r ← kvs_vector_search dim text 5 f_zero; mret (rs, r).

Definition outcome_of {A} (o : outcome (A * kvs_vector * nat)) : option A :=
  match o with Done (a, _, _) => Some a | Fault _ => None end.

(** A search can miss an entry that is exactly the query. An entry of dimension
    2 stored after one of dimension 3 is linked to nothing, so a search for its own
    vector finds nothing; and storing a question three times leaves the live entry
    reachable through a deleted one only, which searches do not pass, so a search
    for its vector finds nothing either. And a vector whose norm overflows is stored
    but is similar to nothing, not even to itself. *)
Theorem vector_search_misses :
  outcome_of (sets_then_search [VSet (lit "x") (lit "one") 3 (lit "1,0,0"); VSet (lit "y") (lit "two") 2 (lit "1,0")]
    2 (lit "1,0") calm new_index 0%nat) = Some ([0; 0], (0, [])) ∧
  outcome_of (sets_then_search [VSet (lit "q") (lit "a") 2 (lit "1,0"); VSet (lit "q") (lit "b") 2 (lit "0,1"); VSet (lit "q") (lit "c") 2 (lit "1,1")]
    2 (lit "1,1") calm new_index 0%nat) = Some ([0; 0; 0], (0, [])) ∧
  outcome_of (sets_then_search [VSet (lit "q") (lit "a") 2 (lit "1e20,0")] 2 (lit "1e20,0") calm new_index 0%nat) = Some ([0], (0, [])).
Proof. split_and!; vm_compute; reflexivity. Qed.

(** A deleted entry scores -2, and the threshold of a search is the client's: at a
    threshold of -2 the entry point of the index is returned too, with the answer that
    has been replaced. *)
Theorem low_threshold_returns_deleted :
  outcome_of ((rs ← run_vsets [VSet (lit "q") (lit "old") 2 (lit "1,0"); VSet (lit "q") (lit "new") 2 (lit "0,1")];
    r ← kvs_vector_search 2 (lit "1,0") 5 f_m2; mret (rs, r.1, sr_answer <$> r.2)) calm new_index 0%nat) = Some ([0; 0], 2, [lit "new"; lit "old"]).
Proof. vm_compute. reflexivity. Qed.

(** Memory runs out once, at allocation [n]. *)
Definition runs_out_at (n : nat) : env :=
  Env (λ _, 1000) (λ t, negb (t =? n)%nat) (λ _, 1) (λ _, true) (λ _, 0%nat) true (λ _, 4096%nat) (λ _, Some 4096%nat) (λ _, true).

(** When memory runs out while a new entry is linked, VSET replies -2 and frees
    the entry, but its number stays in the table: destroying the index frees it a
    second time. *)
Theorem failed_vset_leaves_dangling :
  let two := [VSet (lit "x") (lit "one") 2 (lit "1,0"); VSet (lit "y") (lit "two") 2 (lit "0,1")] in
  outcome_of (run_vsets two (runs_out_at 20) new_index 0%nat) = Some [0; -2] ∧
  (rs ← run_vsets two; kvs_vector_destroy;; mret rs) (runs_out_at 20) new_index 0%nat = Fault UseAfterFree.
Proof. split; vm_compute; reflexivity. Qed.
