(* ===== verification/Server.v ===== *)
(** * The server's global state (kvstore.c)

    The four key-value engines, the vector engine, the append-only file, the
    replicas and the configuration, as one state; the functions of kvstore.c that
    create, reset and destroy all engines together. The vector engine enters
    through an interface: the operations the rest of the server calls. *)

From S2P Require Import Prelude KvSpec KvsArray KvsHash KvsSkiplist KvsRbtree KvsConfig Aof.

(** ** The vector engine as its callers see it *)

(** A search hit: question, answer and the score as "%.6f" prints it. *)
Record vector_hit := Hit { hit_question : bytes; hit_answer : bytes; hit_score : bytes }.

(** An entry of the snapshot: question, answer, dimension, components as text. *)
Record vector_row := VRow { vr_question : bytes; vr_answer : bytes; vr_dim : Z; vr_vector : bytes }.

Class VectorOps (V : Type) := {
  v_zero          : V;                                     (* after memset *)
  v_create        : M V Z;
  v_destroy       : M V unit;
  v_set           : bytes → bytes → Z → bytes → M V Z;     (* question answer dim vector *)
  v_get_by_key    : bytes → M V (option (bytes * bytes));
  v_get_by_vector : Z → bytes → bytes → M V (Z * vector_hit);   (* dim vector threshold *)
  v_search        : Z → bytes → Z → bytes → M V (Z * list vector_hit);
  v_rows          : V → list vector_row                    (* in key order *)
}.

(** Identifiers of entries are ints that index a table which doubles. *)
Definition VECTOR_MAX : Z := 2 ^ 30.

(** What the server relies on: while memory does not run out creation succeeds, and
    fewer than [VECTOR_MAX] sets leave a well-formed index, which can be destroyed. *)
Class VectorLaws (V : Type) `{VectorOps V} := {
  v_ok : V → Prop;
  v_used : V → Z;
  v_create_ok E t : no_oom E → wp v_create (λ r v _, r = 0 ∧ v_ok v ∧ v_used v = 0) E v_zero t;
  v_set_ok E v q a dim x t :
    no_oom E → v_ok v → v_used v < VECTOR_MAX →
    wp (v_set q a dim x) (λ _ v' _, v_ok v' ∧ v_used v' ≤ v_used v + 1) E v t;
  v_destroy_ok E v t : v_ok v → wp v_destroy (λ _ _ _, True) E v t
}.

(** ** Replicas *)

(** replica_state_t *)
Inductive replica_state :=
| KVS_REPL_STATE_INIT
| KVS_REPL_STATE_WAIT_RDMA
| KVS_REPL_STATE_WAIT_FINSYNC
| KVS_REPL_STATE_ONLINE.

#[global] Instance replica_state_eq_dec : EqDecision replica_state.
Proof. solve_decision. Defined.

(** What the command thread reads and writes of struct kvs_replica_s. *)
Record replica := Replica { rp_fd : Z; rp_addr : Z; rp_state : replica_state }.

(** ** The state *)

Record server (V : Type) := Server {
  sv_array       : kvs_array;
  sv_rbtree      : kvs_rbtree;
  sv_hash        : kvs_hash;
  sv_skiplist    : kvs_skiplist;
  sv_vector      : V;
  sv_aof         : aof;
  sv_rdb         : option bytes;      (* the file kvstore.rdb *)
  sv_replicas    : list replica;      (* g_replicas *)
  sv_closed      : list Z;            (* descriptors the command thread closed *)
  sv_sent        : list (Z * bytes);  (* what it sent on other descriptors *)
  sv_replicating : bool;              (* the thread-local flag *)
  sv_config      : kvs_config         (* g_config *)
}.
Arguments Server {V}.
Arguments sv_array {V}. Arguments sv_rbtree {V}. Arguments sv_hash {V}.
Arguments sv_skiplist {V}. Arguments sv_vector {V}. Arguments sv_aof {V}.
Arguments sv_rdb {V}. Arguments sv_replicas {V}. Arguments sv_closed {V}. Arguments sv_sent {V}.
Arguments sv_replicating {V}. Arguments sv_config {V}.

Section fields.
Context {V : Type}.
Implicit Types s : server V.

Definition put_array (x : kvs_array) s : server V :=
  Server x (sv_rbtree s) (sv_hash s) (sv_skiplist s) (sv_vector s) (sv_aof s) (sv_rdb s)
    (sv_replicas s) (sv_closed s) (sv_sent s) (sv_replicating s) (sv_config s).
Definition put_rbtree (x : kvs_rbtree) s : server V :=
  Server (sv_array s) x (sv_hash s) (sv_skiplist s) (sv_vector s) (sv_aof s) (sv_rdb s)
    (sv_replicas s) (sv_closed s) (sv_sent s) (sv_replicating s) (sv_config s).
Definition put_hash (x : kvs_hash) s : server V :=
  Server (sv_array s) (sv_rbtree s) x (sv_skiplist s) (sv_vector s) (sv_aof s) (sv_rdb s)
    (sv_replicas s) (sv_closed s) (sv_sent s) (sv_replicating s) (sv_config s).
Definition put_skiplist (x : kvs_skiplist) s : server V :=
  Server (sv_array s) (sv_rbtree s) (sv_hash s) x (sv_vector s) (sv_aof s) (sv_rdb s)
    (sv_replicas s) (sv_closed s) (sv_sent s) (sv_replicating s) (sv_config s).
Definition put_vector (x : V) s : server V :=
  Server (sv_array s) (sv_rbtree s) (sv_hash s) (sv_skiplist s) x (sv_aof s) (sv_rdb s)
    (sv_replicas s) (sv_closed s) (sv_sent s) (sv_replicating s) (sv_config s).
Definition put_aof (x : aof) s : server V :=
  Server (sv_array s) (sv_rbtree s) (sv_hash s) (sv_skiplist s) (sv_vector s) x (sv_rdb s)
    (sv_replicas s) (sv_closed s) (sv_sent s) (sv_replicating s) (sv_config s).
Definition put_rdb (x : option bytes) s : server V :=
  Server (sv_array s) (sv_rbtree s) (sv_hash s) (sv_skiplist s) (sv_vector s) (sv_aof s) x
    (sv_replicas s) (sv_closed s) (sv_sent s) (sv_replicating s) (sv_config s).
Definition put_replicas (x : list replica) s : server V :=
  Server (sv_array s) (sv_rbtree s) (sv_hash s) (sv_skiplist s) (sv_vector s) (sv_aof s) (sv_rdb s)
    x (sv_closed s) (sv_sent s) (sv_replicating s) (sv_config s).
Definition put_closed (x : list Z) s : server V :=
  Server (sv_array s) (sv_rbtree s) (sv_hash s) (sv_skiplist s) (sv_vector s) (sv_aof s) (sv_rdb s)
    (sv_replicas s) x (sv_sent s) (sv_replicating s) (sv_config s).
Definition put_sent (x : list (Z * bytes)) s : server V :=
  Server (sv_array s) (sv_rbtree s) (sv_hash s) (sv_skiplist s) (sv_vector s) (sv_aof s) (sv_rdb s)
    (sv_replicas s) (sv_closed s) x (sv_replicating s) (sv_config s).

Definition on_array {A} (m : M kvs_array A) : M (server V) A := zoom sv_array put_array m.
Definition on_rbtree {A} (m : M kvs_rbtree A) : M (server V) A := zoom sv_rbtree put_rbtree m.
Definition on_hash {A} (m : M kvs_hash A) : M (server V) A := zoom sv_hash put_hash m.
Definition on_skiplist {A} (m : M kvs_skiplist A) : M (server V) A := zoom sv_skiplist put_skiplist m.
Definition on_vector {A} (m : M V A) : M (server V) A := zoom sv_vector put_vector m.
Definition on_aof {A} (m : M aof A) : M (server V) A := zoom sv_aof put_aof m.
End fields.

(** ** Engine selection

    The command cases for the four engines differ only in the engine they
    address. A [Focus] is a component of the state that is an engine. *)

Class Focus (V T : Type) := { focus : server V → T; refocus : T → server V → server V }.

#[global] Instance focus_array {V} : Focus V kvs_array := {| focus := sv_array; refocus := put_array |}.
#[global] Instance focus_rbtree {V} : Focus V kvs_rbtree := {| focus := sv_rbtree; refocus := put_rbtree |}.
#[global] Instance focus_hash {V} : Focus V kvs_hash := {| focus := sv_hash; refocus := put_hash |}.
#[global] Instance focus_skiplist {V} : Focus V kvs_skiplist := {| focus := sv_skiplist; refocus := put_skiplist |}.

Definition on {V} (T : Type) `{Focus V T} {A} (m : M T A) : M (server V) A := zoom focus refocus m.

Lemma wp_on {V} T `{Focus V T} {A} (m : M T A) Q E (s : server V) t :
  wp m (λ a c t', Q a (refocus c s) t') E (focus s) t → wp (on T m) Q E s t.
Proof. apply wp_zoom. Qed.

(** An engine is a field of its own: writing it changes neither the log nor the
    configuration, and writing the log does not change it. *)
Class FocusLaws (V T : Type) `{Focus V T} := {
  focus_refocus (s : server V) c : focus (refocus c s) = c;
  refocus_focus (s : server V) : refocus (focus s) s = s;
  refocus_twice (s : server V) c c' : refocus c' (refocus c s) = refocus c' s;
  refocus_aof (s : server V) c : sv_aof (refocus c s) = sv_aof s;
  refocus_config (s : server V) c : sv_config (refocus c s) = sv_config s;
  refocus_replicating (s : server V) c : sv_replicating (refocus c s) = sv_replicating s;
  refocus_put_aof (s : server V) a c : refocus c (put_aof a s) = put_aof a (refocus c s);
  focus_put_aof (s : server V) a : focus (put_aof a s) = focus s
}.

#[global] Instance focus_laws_array {V} : FocusLaws V kvs_array.
Proof. split; by intros []. Qed.
#[global] Instance focus_laws_rbtree {V} : FocusLaws V kvs_rbtree.
Proof. split; by intros []. Qed.
#[global] Instance focus_laws_hash {V} : FocusLaws V kvs_hash.
Proof. split; by intros []. Qed.
#[global] Instance focus_laws_skiplist {V} : FocusLaws V kvs_skiplist.
Proof. split; by intros []. Qed.

Lemma put_aof_id {V} (s : server V) : put_aof (sv_aof s) s = s.
Proof. by destruct s. Qed.
Lemma put_aof_twice {V} (s : server V) a b : put_aof b (put_aof a s) = put_aof b s.
Proof. done. Qed.

(** ** All engines together *)

Section engines.
Context {V : Type} `{VectorOps V}.

(** Create the five engines, stopping at the first that fails. *)
Definition create_engines : M (server V) Z :=
  modify (put_array global_array0);;
  r ← on_array kvs_array_create;
  if negb (r =? 0) then mret (-1) else
  modify (put_rbtree global_rbtree0);;
  r ← on_rbtree kvs_rbtree_create;
  if negb (r =? 0) then mret (-1) else
  modify (put_hash global_hash0);;
  r ← on_hash kvs_hash_create;
  if negb (r =? 0) then mret (-1) else
  modify (put_skiplist global_skiplist0);;
  r ← on_skiplist kvs_skiplist_create;
  if negb (r =? 0) then mret (-1) else
  modify (put_vector v_zero);;
  r ← on_vector v_create;
  if negb (r =? 0) then mret (-1) else
  mret 0.

Definition init_kvengine : M (server V) Z := create_engines.

(** Each engine is destroyed, cleared and created again, in turn. *)
Definition kvs_reset_data_engines : M (server V) Z :=
  on_array kvs_array_destory;;
  modify (put_array global_array0);;
  r ← on_array kvs_array_create;
  if negb (r =? 0) then mret (-1) else
  on_rbtree kvs_rbtree_destory;;
  modify (put_rbtree global_rbtree0);;
  r ← on_rbtree kvs_rbtree_create;
  if negb (r =? 0) then mret (-1) else
  on_hash kvs_hash_destory;;
  modify (put_hash global_hash0);;
  r ← on_hash kvs_hash_create;
  if negb (r =? 0) then mret (-1) else
  on_skiplist kvs_skiplist_destroy;;
  modify (put_skiplist global_skiplist0);;
  r ← on_skiplist kvs_skiplist_create;
  if negb (r =? 0) then mret (-1) else
  on_vector v_destroy;;
  modify (put_vector v_zero);;
  r ← on_vector v_create;
  if negb (r =? 0) then mret (-1) else
  mret 0.

(** kvs_expire_scan (kvs_expire.c) *)
Definition kvs_expire_scan : M (server V) unit :=
  on_array kvs_array_scan_expired;;
  on_rbtree kvs_rbtree_scan_expired;;
  on_hash kvs_hash_scan_expired;;
  on_skiplist kvs_skiplist_scan_expired.
End engines.
