(* ===== verification/Boot.v ===== *)
(** * Start-up, and a concrete server

    What main does before it serves: the engines and the log are created. The
    theorem says what state that leaves; the rest of the file runs it on a
    concrete machine, which the examples of the other files start from. *)

From S2P Require Import Prelude KvSpec KvsArray KvsHash KvsSkiplist KvsRbtree RbtreeEngine RbtreeProps KvsConfig Aof Server.

Section boot.
Context {V : Type} `{VectorLaws V}.

(** init_kvengine(); then kvs_persistence_init(), which stops the program when it fails. *)
Definition boot (ring_capacity : nat) : M (server V) Z :=
  _r ← init_kvengine;
  on_aof (kvs_persistence_init ring_capacity).

(** The engines are well-formed and empty, the log is open and empty. *)
Record booted (s : server V) : Prop := {
  bo_array    : ar_inv (sv_array s);
  bo_hash     : ha_inv (sv_hash s);
  bo_skiplist : sk_inv (sv_skiplist s);
  bo_rbtree   : rb_wf (sv_rbtree s);
  bo_vector   : v_ok (sv_vector s) ∧ v_used (sv_vector s) = 0;
  bo_empty    : ar_abs (sv_array s) = ∅ ∧ ha_abs (sv_hash s) = ∅ ∧ sk_abs (sv_skiplist s) = ∅ ∧
                rb_abs (sv_rbtree s) = ∅
}.

Lemma init_kvengine_ok E (s : server V) t :
  no_oom E → zeroed E = true →
  wp init_kvengine (λ r s' _, r = 0 ∧ booted s' ∧ sv_aof s' = sv_aof s ∧
    sv_config s' = sv_config s ∧ sv_replicating s' = sv_replicating s) E s t.
Proof.
  intros HE Hz. unfold init_kvengine, create_engines, on_array, on_rbtree, on_hash, on_skiplist, on_vector.
  wp_steps. eapply wp_mono; [apply array_create_spec|]. rewrite HE. intros r ca ta (-> & Ha & Hae).
  cbn [negb Z.eqb]. wp_steps. eapply wp_mono; [by apply rbtree_create_spec|]. intros r cr tr (-> & Hr & Hre).
  cbn [negb Z.eqb]. wp_steps. eapply wp_mono; [by apply hash_create_spec|]. rewrite HE. intros r ch th (-> & Hh & Hhe).
  cbn [negb Z.eqb]. wp_steps. eapply wp_mono; [apply skiplist_create_spec|]. rewrite !HE. intros r ck tk (-> & Hk & Hke).
  cbn [negb Z.eqb]. wp_steps. eapply wp_mono; [by apply v_create_ok|]. intros r cv tv [-> Hv].
  cbn [negb Z.eqb]. wp_steps. split; [done|]. split; [by split|done].
Qed.

(** After start-up with recording configured and an empty file, nothing has been
    recorded and recording can begin. *)
Lemma boot_ok E cap (s : server V) t :
  no_oom E → zeroed E = true → (0 < cap)%nat →
  a_on (sv_aof s) = true → a_loading (sv_aof s) = false →
  wp (boot cap) (λ r s' _, r = 0 ∧ booted s' ∧ journal (sv_aof s') (a_file (sv_aof s)) ∧
    sv_config s' = sv_config s ∧ sv_replicating s' = sv_replicating s) E s t.
Proof.
  intros HE Hz Hcap Hon Hl. unfold boot. wp_steps. eapply wp_mono; [by apply init_kvengine_ok|].
  intros r s1 t1 (-> & Hb & Ha & Hc & Hr). unfold on_aof, kvs_persistence_init, set_ring. wp_steps.
  rewrite Ha, Hon. cbn [negb]. wp_steps. rewrite !HE. cbn [negb andb]. wp_steps.
  split; [done|]. split; [by destruct Hb|]. split; [|done].
  split_and!; simpl; [done..|]. exists []. split; [by apply ring_empty|]. by rewrite app_nil_r.
Qed.
End boot.

(** ** A concrete server *)

(** A vector engine that holds nothing. *)
#[global] Instance no_vectors : VectorOps unit := {|
  v_zero := tt;
  v_create := mret 0;
  v_destroy := mret tt;
  v_set _ _ _ _ := mret (-1);
  v_get_by_key _ := mret None;
  v_get_by_vector _ _ _ := mret (0, Hit [] [] []);
  v_search _ _ _ _ := mret (0, []);
  v_rows _ := []
|}.

#[global] Instance no_vectors_laws : VectorLaws unit.
Proof. exists (λ _, True) (λ _, 0); done. Defined.

(** The globals of the program, recording switched on. *)
Definition machine : server unit :=
  Server global_array0 global_rbtree0 global_hash0 global_skiplist0 tt
    (Aof (Ring ∅ 0 0 0 false) [] false true) None [] [] [] false g_config0.

Definition fresh : server unit := after (boot 16) machine.

Lemma fresh_ok :
  booted fresh ∧ journal (sv_aof fresh) [] ∧ sv_config fresh = g_config0 ∧ sv_replicating fresh = false.
Proof.
  apply (wp_after (boot 16) (λ s, booted s ∧ journal (sv_aof s) [] ∧ sv_config s = g_config0 ∧ sv_replicating s = false)).
  eapply wp_mono; [apply boot_ok; try done; lia|].
  intros r s t (_ & Hb & Hj & Hc & Hr). done.
Qed.

#[global] Opaque fresh.

(** ** Theorems *)

(** Start-up. When memory does not run out and fresh memory is zero, main's
    initialisation leaves four well-formed, empty engines, a log that is open for
    recording and represents exactly what the file held, and the configuration
    as it was read. *)
Theorem boot_establishes {V} `{VectorLaws V} E cap (s : server V) t :
  no_oom E → zeroed E = true → (0 < cap)%nat →
  a_on (sv_aof s) = true → a_loading (sv_aof s) = false →
  wp (boot cap) (λ r s' _, r = 0 ∧ booted s' ∧ journal (sv_aof s') (a_file (sv_aof s)) ∧
    sv_config s' = sv_config s ∧ sv_replicating s' = sv_replicating s) E s t.
Proof. apply boot_ok. Qed.

Lemma boot_establishes_witness :
  wp (boot 16) (λ r s' _, r = 0 ∧ booted s' ∧ journal (sv_aof s') [] ∧
    sv_config s' = g_config0 ∧ sv_replicating s' = false) calm machine 0.
Proof. apply (boot_establishes calm 16 machine 0); try done. lia. Defined.
