(* ===== verification/Rdb.v ===== *)
(** * Snapshots (the RDB part of kvs_persistence.c)

    A snapshot is a sequence of records: a type byte, then for the key-value
    engines the expiry time, the key and the value, each string with a 4-byte
    length; numbers are in the machine's little-endian representation. *)

From S2P Require Import Prelude KvSpec KvsArray KvsHash KvsSkiplist KvsRbtree RbtreeShape RbtreeRotate RbtreeInsert RbtreeSearch RbtreeEngine RbtreeProps KvsConfig Aof Server Boot.

(** ** Little-endian numbers *)

Fixpoint le_encode (n : nat) (z : Z) : bytes :=
  match n with
  | O => []
  | S n' => to_byte z :: le_encode n' (z / 256)
  end.

Fixpoint le_decode (l : bytes) : Z :=
  match l with
  | [] => 0
  | c :: l' => uchar c + 256 * le_decode l'
  end.

(** memcpy into an int and into a long long *)
Definition get_int (l : bytes) : Z := s32 (le_decode l).
Definition get_ll (l : bytes) : Z := s64 (le_decode l).

(** ** Record types *)

Definition TYPE_ARRAY : Z := 1.
Definition TYPE_RBTREE : Z := 2.
Definition TYPE_HASH : Z := 3.
Definition TYPE_SKIPLIST : Z := 4.
Definition TYPE_VECTOR : Z := 5.

(** ** Writing *)

(** int len = strlen(s); fwrite(&len, 4, 1, fp); fwrite(s, 1, len, fp) *)
Definition write_str {S} (s : bytes) : M S bytes :=
  let len := s32 (strlen s) in
  if len <? 0 then fail OutOfBounds
  else mret (le_encode 4 len ++ take (Z.to_nat len) s).

Definition rdb_write_kv_pair {S} (type : Z) (key value : cptr) (expire_ms : Z) : M S bytes :=
  k ← read_str key;
  v ← read_str value;
  kb ← write_str k;
  vb ← write_str v;
  mret (le_encode 1 type ++ le_encode 8 expire_ms ++ kb ++ vb).

(** for (i = 0; i < total; i++) *)
Fixpoint rdb_save_array (n i : nat) : M kvs_array bytes :=
  match n with
  | O => mret []
  | S n' =>
      it ← KvsArray.get_item i;
      b ← (match it_key it with
           | PNull => mret []
           | key => rdb_write_kv_pair TYPE_ARRAY key (it_value it) (it_expire it)
           end);
      rest ← rdb_save_array n' (S i);
      mret (b ++ rest)
  end.

Fixpoint rdb_save_rbtree_node (fuel : nat) (nil node : nat) : M kvs_rbtree bytes :=
  if decide (node = nil) then mret [] else
  match fuel with
  | O => fail OutOfFuel
  | S fuel' =>
      l ← f_left node;
      lb ← rdb_save_rbtree_node fuel' nil l;
      k ← f_key node; v ← f_value node; e ← f_expire node;
      b ← rdb_write_kv_pair TYPE_RBTREE k v e;
      r ← f_right node;
      rb ← rdb_save_rbtree_node fuel' nil r;
      mret (lb ++ b ++ rb)
  end.

Definition rdb_save_rbtree : M kvs_rbtree bytes :=
  root ← get_root;
  nil ← get_nil;
  fuel ← KvsRbtree.walk_fuel;
  rdb_save_rbtree_node fuel nil root.

Definition rdb_write_vector_entry {S} (r : vector_row) : M S bytes :=
  q ← write_str (vr_question r);
  a ← write_str (vr_answer r);
  v ← write_str (vr_vector r);
  mret (le_encode 1 TYPE_VECTOR ++ q ++ a ++ le_encode 4 (vr_dim r) ++ v).

Fixpoint rdb_save_vector {S} (rows : list vector_row) : M S bytes :=
  match rows with
  | [] => mret []
  | r :: rows' =>
      b ← rdb_write_vector_entry r;
      rest ← rdb_save_vector rows';
      mret (b ++ rest)
  end.

Fixpoint rdb_save_chain (chain : list hashnode) : M kvs_hash bytes :=
  match chain with
  | [] => mret []
  | node :: chain' =>
      b ← rdb_write_kv_pair TYPE_HASH (hn_key node) (hn_value node) (hn_expire node);
      rest ← rdb_save_chain chain';
      mret (b ++ rest)
  end.

Fixpoint rdb_save_slots (n : nat) (i : Z) : M kvs_hash bytes :=
  match n with
  | O => mret []
  | S n' =>
      chain ← get_slot i;
      b ← rdb_save_chain chain;
      rest ← rdb_save_slots n' (i + 1);
      mret (b ++ rest)
  end.

Definition rdb_save_hash : M kvs_hash bytes :=
  n ← gets h_max_slots;
  rdb_save_slots (Z.to_nat n) 0.

Fixpoint rdb_save_list (fuel : nat) (node : option nat) : M kvs_skiplist bytes :=
  match node with
  | None => mret []
  | Some a =>
      match fuel with
      | O => fail OutOfFuel
      | S fuel' =>
          n ← KvsSkiplist.get_node a;
          b ← rdb_write_kv_pair TYPE_SKIPLIST (sn_key n) (sn_value n) (sn_expire n);
          next ← get_forward a 0;
          rest ← rdb_save_list fuel' next;
          mret (b ++ rest)
      end
  end.

Definition rdb_save_skiplist : M kvs_skiplist bytes :=
  header ← get_header;
  node ← get_forward header 0;
  fuel ← KvsSkiplist.walk_fuel;
  rdb_save_list fuel node.

Section save.
Context {V : Type} `{VectorOps V}.

Definition rdb_save_to_fp : M (server V) bytes :=
  total ← gets (λ s, ar_total (sv_array s));
  a ← on_array (rdb_save_array total 0);
  r ← on_rbtree rdb_save_rbtree;
  rows ← gets (λ s, v_rows (sv_vector s));
  v ← rdb_save_vector rows;
  h ← on_hash rdb_save_hash;
  k ← on_skiplist rdb_save_skiplist;
  mret (a ++ r ++ v ++ h ++ k).

(** The file is replaced as a whole. *)
Definition rdb_save_to_file : M (server V) Z :=
  b ← rdb_save_to_fp;
  modify (put_rdb (Some b));;
  mret 0.

(** The snapshot in a memory stream. *)
Definition rdb_save_to_memory : M (server V) (option bytes) :=
  ok ← ask_sys;
  if negb ok then mret None else
  b ← rdb_save_to_fp;
  ok ← ask_sys;
  if negb ok then mret None else mret (Some b).

(** The child writes the snapshot of the state at the fork; the parent goes on. *)
Definition kvs_persistence_bgsave : M (server V) Z :=
  ok ← fork;
  if negb ok then mret (-1) else
  _r ← rdb_save_to_file;
  mret 0.

(** ** Loading *)

(** Reading [n] bytes: None is ptr + n > end. *)
Definition read_n (n : nat) (p : bytes) : option (bytes * bytes) :=
  if decide (length p < n)%nat then None else Some (take n p, drop n p).

(** int len; if (len < 0 || ptr + len > end) break *)
Definition read_lstr (p : bytes) : option (bytes * bytes) :=
  '(n, p1) ← read_n 4 p;
  let len := get_int n in
  if len <? 0 then None else read_n (Z.to_nat len) p1.

Record kv_record := KV { kv_type : Z; kv_expire : Z; kv_key : bytes; kv_value : bytes }.

(** The fields of one record after its type byte. *)
Definition read_kv (type : Z) (p : bytes) : option (kv_record * bytes) :=
  '(e, p1) ← read_n 8 p;
  '(k, p2) ← read_lstr p1;
  '(v, p3) ← read_lstr p2;
  Some (KV type (get_ll e) k v, p3).

Definition read_vector (p : bytes) : option (vector_row * bytes) :=
  '(q, p1) ← read_lstr p;
  '(a, p2) ← read_lstr p1;
  '(d, p3) ← read_n 4 p2;
  '(v, p4) ← read_lstr p3;
  Some (VRow q a (get_int d) v, p4).

(** The switch on the type. *)
Definition load_kv (r : kv_record) : M (server V) unit :=
  let key := PStr (cstr (kv_key r)) in
  let value := PStr (cstr (kv_value r)) in
  if kv_type r =? TYPE_ARRAY then _r ← on_array (kvs_array_set key value (kv_expire r)); mret tt
  else if kv_type r =? TYPE_RBTREE then _r ← on_rbtree (kvs_rbtree_set key value (kv_expire r)); mret tt
  else if kv_type r =? TYPE_HASH then _r ← on_hash (kvs_hash_set key value (kv_expire r)); mret tt
  else if kv_type r =? TYPE_SKIPLIST then _r ← on_skiplist (kvs_skiplist_set key value (kv_expire r)); mret tt
  else mret tt.

(** Growing a reused buffer: [None] when malloc fails. *)
Definition grow (cap len : Z) : M (server V) (option Z) :=
  if len + 1 >? cap then
    ok ← kvs_malloc; mret (if ok : bool then Some (len + 1) else None)
  else mret (Some cap).

Fixpoint load_loop (fuel : nat) (p : bytes) (key_cap val_cap : Z) : M (server V) unit :=
  match p with
  | [] => mret tt
  | c :: p1 =>
      match fuel with
      | O => fail OutOfFuel
      | S fuel' =>
          if schar c =? TYPE_VECTOR then
            match read_vector p1 with
            | None => mret tt
            | Some (r, p2) =>
                ok1 ← kvs_malloc; ok2 ← kvs_malloc; ok3 ← kvs_malloc;
                if negb (ok1 && ok2 && ok3) then mret tt else
                (if vr_dim r >? 0
                 then _r ← on_vector (v_set (cstr (vr_question r)) (cstr (vr_answer r)) (vr_dim r)
                                            (cstr (vr_vector r))); mret tt
                 else mret tt);;
                load_loop fuel' p2 key_cap val_cap
            end
          else
            match read_kv (schar c) p1 with
            | None => mret tt
            | Some (r, p2) =>
                kc ← grow key_cap (strlen (kv_key r));
                match kc with
                | None => mret tt
                | Some kc =>
                    vc ← grow val_cap (strlen (kv_value r));
                    match vc with
                    | None => mret tt
                    | Some vc => load_kv r;; load_loop fuel' p2 kc vc
                    end
                end
            end
      end
  end.

Definition rdb_load_from_memory (data : bytes) : M (server V) Z :=
  load_loop (length data) data 0 0;; mret 0.

Definition rdb_load_files : M (server V) Z :=
  file ← gets sv_rdb;
  match file with
  | None => mret 0
  | Some [] => mret 0
  | Some buf =>
      ok ← kvs_malloc;
      if negb ok then mret (-1) else
      r ← kvs_reset_data_engines;
      if negb (r =? 0) then mret (-1) else
      rdb_load_from_memory buf
  end.
End save.

(** ** Numbers survive the round trip *)

Lemma le_encode_length n z : length (le_encode n z) = n.
Proof. revert z. induction n as [|n IH]; intros z; simpl; [done|]. by rewrite IH. Qed.

Lemma le_decode_encode n z : le_decode (le_encode n z) = z mod 2 ^ (8 * Z.of_nat n).
Proof.
  revert z. induction n as [|n IH]; intros z; simpl.
  { by rewrite Z.mod_1_r. }
  rewrite IH, uchar_to_byte.
  replace (8 * Z.of_nat (S n)) with (8 + 8 * Z.of_nat n) by lia.
  rewrite Z.pow_add_r by lia. change (2 ^ 8) with 256.
  rewrite Z.rem_mul_r by lia. done.
Qed.

#[global] Arguments le_encode : simpl never.

Lemma get_int_encode z : INT_MIN ≤ z ≤ INT_MAX → get_int (le_encode 4 z) = z.
Proof.
  intros Hz. unfold get_int. rewrite le_decode_encode. unfold s32, INT_MIN, INT_MAX in *.
  change (8 * Z.of_nat 4) with 32. rewrite Zplus_mod_idemp_l.
  rewrite Z.mod_small by lia. lia.
Qed.

Lemma get_ll_encode z : LLONG_MIN ≤ z ≤ LLONG_MAX → get_ll (le_encode 8 z) = z.
Proof.
  intros Hz. unfold get_ll. rewrite le_decode_encode. unfold s64, LLONG_MIN, LLONG_MAX in *.
  change (8 * Z.of_nat 8) with 64. rewrite Zplus_mod_idemp_l.
  rewrite Z.mod_small by lia. lia.
Qed.

Lemma read_n_app (n : nat) (a p : bytes) : length a = n → read_n n (a ++ p) = Some (a, p).
Proof.
  intros <-. unfold read_n. rewrite decide_False by (rewrite length_app; lia).
  by rewrite take_app_length, drop_app_length.
Qed.

#[global] Arguments read_n : simpl never.
#[global] Arguments read_lstr : simpl never.
#[global] Arguments rdb_write_kv_pair : simpl never.

(** The bytes of a length-prefixed string and of a record. *)
Definition lstr (s : bytes) : bytes := le_encode 4 (strlen s) ++ s.

Definition encode_kv (r : kv_record) : bytes :=
  le_encode 1 (kv_type r) ++ le_encode 8 (kv_expire r) ++ lstr (kv_key r) ++ lstr (kv_value r).

Definition kv_ok (r : kv_record) : Prop :=
  strlen (kv_key r) ≤ INT_MAX ∧ strlen (kv_value r) ≤ INT_MAX ∧
  LLONG_MIN ≤ kv_expire r ≤ LLONG_MAX.

Lemma s32_id z : INT_MIN ≤ z ≤ INT_MAX → s32 z = z.
Proof.
  intros Hz. unfold s32, INT_MIN, INT_MAX in *. rewrite Z.mod_small by lia. lia.
Qed.

Lemma strlen_nonneg s : 0 ≤ strlen s.
Proof. unfold strlen. lia. Qed.

Lemma read_lstr_app s p : strlen s ≤ INT_MAX → read_lstr (lstr s ++ p) = Some (s, p).
Proof.
  intros Hs. pose proof (strlen_nonneg s). unfold read_lstr, lstr.
  rewrite <-app_assoc, read_n_app by apply le_encode_length. cbn [mbind option_bind].
  rewrite get_int_encode by (unfold INT_MIN; lia).
  rewrite (proj2 (Z.ltb_ge _ _)) by lia. apply read_n_app. unfold strlen. lia.
Qed.

Lemma read_kv_app r p :
  kv_ok r → read_kv (kv_type r) (le_encode 8 (kv_expire r) ++ lstr (kv_key r) ++ lstr (kv_value r) ++ p)
            = Some (r, p).
Proof.
  intros (Hk & Hv & He). unfold read_kv. rewrite read_n_app by apply le_encode_length.
  cbn [mbind option_bind]. rewrite read_lstr_app by done. cbn [mbind option_bind].
  rewrite read_lstr_app by done. cbn [mbind option_bind].
  rewrite get_ll_encode by done. by destruct r.
Qed.

Section writing.
Context {S : Type}.

Lemma wp_write_str (b : bytes) Q E (s : S) t :
  strlen b ≤ INT_MAX → Q (lstr b) s t → wp (write_str b) Q E s t.
Proof.
  intros Hb HQ. pose proof (strlen_nonneg b). unfold write_str.
  rewrite s32_id by (unfold INT_MIN; lia). rewrite (proj2 (Z.ltb_ge _ _)) by lia. wp_steps.
  unfold strlen at 2. rewrite Nat2Z.id, firstn_all. exact HQ.
Qed.

Lemma wp_write_kv type k v e Q E (s : S) t :
  strlen k ≤ INT_MAX → strlen v ≤ INT_MAX → Q (encode_kv (KV type e k v)) s t →
  wp (rdb_write_kv_pair type (PStr k) (PStr v) e) Q E s t.
Proof.
  intros Hk Hv HQ. unfold rdb_write_kv_pair. wp_steps. apply wp_write_str; [done|]. wp_steps.
  apply wp_write_str; [done|]. by wp_steps.
Qed.
End writing.

(** ** What an engine promises to snapshots *)

Definition str_of (p : cptr) : bytes := match p with PStr v => v | _ => [] end.

(** The record of an entry. *)
Definition kv_of (type : Z) (x : bytes * entry) : kv_record := KV type x.2.2 x.1 (str_of x.2.1).

Definition encode_all (type : Z) (L : list (bytes * entry)) : bytes :=
  concat ((λ x, encode_kv (kv_of type x)) <$> L).

(** Keys and values are C strings whose lengths fit an int; times fit a long long. *)
Definition entry_fits (k : bytes) (x : entry) : Prop :=
  NUL ∉ k ∧ NUL ∉ str_of x.1 ∧ strlen k ≤ INT_MAX ∧ strlen (str_of x.1) ≤ INT_MAX ∧
  LLONG_MIN ≤ x.2 ≤ LLONG_MAX.

Definition dict_fits (m : dict) : Prop := ∀ k x, m !! k = Some x → entry_fits k x.

(** [sn_save] writes the records of a list of entries that is the dictionary; the
    loader hands records of type [sn_type] to the engine's set operation, which
    adds keys that are not there. [sn_inv] is what that needs of the engine. *)
Class Snapshot (V T : Type) `{VectorOps V} `{Engine T} `{Focus V T} := {
  sn_type : Z;
  sn_save : M T bytes;
  sn_inv : T → Prop;
  sn_focus (s : server V) (c : T) : focus (refocus c s) = c;
  sn_id (s : server V) : refocus (focus s) s = s;
  sn_refocus (s : server V) (c c' : T) : refocus c' (refocus c s) = refocus c' s;
  sn_type_ok : 0 < sn_type < 128 ∧ sn_type ≠ TYPE_VECTOR;
  sn_dispatch (r : kv_record) :
    kv_type r = sn_type →
    load_kv (V := V) r =
      (_r ← on T (e_set (PStr (cstr (kv_key r))) (PStr (cstr (kv_value r))) (kv_expire r)); mret tt);
  sn_clean (s : T) : sn_inv s → clean (e_abs s);
  sn_max : option Z;                  (* how many keys the engine has room for *)
  sn_room (s : T) : sn_inv s → (∀ c, sn_max = Some c → Z.of_nat (size (e_abs s)) < c) → e_room s;
  sn_set_law E (s : T) t k v e :
    no_oom E → sn_inv s → e_key k → e_room s → e_abs s !! k = None →
    wp (e_set (PStr k) (PStr v) e) (λ _ s' _, sn_inv s' ∧ e_abs s' = <[k := (PStr v, e)]> (e_abs s)) E s t;
  sn_save_law E (s : T) t :
    sn_inv s → dict_fits (e_abs s) →
    wp sn_save (λ b s' _, s' = s ∧
      ∃ L, NoDup L.*1 ∧ list_to_map L = e_abs s ∧ b = encode_all sn_type L) E s t
}.

(** Saving lists of entries. *)
Lemma fits_kv_ok type k p e : entry_fits k (p, e) → kv_ok (kv_of type (k, (p, e))).
Proof. intros (_ & _ & ? & ? & ?). done. Qed.

Lemma wp_save_array L m n E Q t i :
  (∀ j x, L !! j = Some x → m !! (i + j)%nat = Some (item_of x)) →
  Z.of_nat (i + length L) ≤ KVS_ARRAY_SIZE →
  Forall (λ x, (∃ v, x.2.1 = PStr v) ∧ entry_fits x.1 x.2) L →
  Q (encode_all TYPE_ARRAY L) (KArray (Some m) n) t →
  wp (rdb_save_array (length L) i) Q E (KArray (Some m) n) t.
Proof.
  revert i Q. induction L as [|[k [p e]] L IH]; intros i Q Hm Hsz HL HQ; simpl; wp_steps; [done|].
  apply Forall_cons in HL as [[[v Hv] Hf] HL]. simpl in Hv. subst p.
  simpl in Hsz. eapply wp_get_item.
  { rewrite <-(Hm 0%nat (k, (PStr v, e))) by done. f_equal. lia. }
  { lia. }
  simpl. wp_steps. destruct Hf as (_ & _ & Hk & Hv & _).
  apply wp_write_kv; [done|done|]. wp_steps. apply IH; [|lia|done|by wp_steps].
  intros j x Hj. replace (S i + j)%nat with (i + S j)%nat by lia. by apply Hm.
Qed.

Lemma clean_fits_list (L : list (bytes * entry)) :
  NoDup L.*1 → clean (list_to_map L) → dict_fits (list_to_map L) →
  Forall (λ x, (∃ v, x.2.1 = PStr v) ∧ entry_fits x.1 x.2) L.
Proof.
  intros Hnd Hc Hf. apply Forall_forall. intros [k [p e]] Hx.
  apply (elem_of_list_to_map_1 (M := gmap bytes)) in Hx; [|done]. split; [by eapply Hc|by apply Hf].
Qed.

Lemma save_array_law E (s : kvs_array) t :
  ar_inv s → dict_fits (ar_abs s) →
  wp (total ← gets ar_total; rdb_save_array total 0) (λ b s' _, s' = s ∧
    ∃ L, NoDup L.*1 ∧ list_to_map L = ar_abs s ∧ b = encode_all TYPE_ARRAY L) E s t.
Proof.
  intros [[L HrepL] Hc] Hf. rewrite (ar_rep_abs s L HrepL) in *.
  pose proof HrepL as (m & -> & Hm & HL & Hsz). wp_steps. simpl.
  apply wp_save_array; [done|simpl; lia|by apply clean_fits_list|]. eauto.
Qed.

Lemma wp_save_chain (l : list (bytes * entry)) E Q s t :
  Forall (λ x, (∃ v, x.2.1 = PStr v) ∧ entry_fits x.1 x.2) l →
  Q (encode_all TYPE_HASH l) s t → wp (rdb_save_chain (node_of <$> l)) Q E s t.
Proof.
  intros Hl. revert Q. induction Hl as [|[k [p e]] l [[v Hv] Hf] Hl IH]; intros Q HQ; simpl; wp_steps; [done|].
  simpl in Hv. subst p. destruct Hf as (_ & _ & Hk & Hv & _). simpl.
  apply wp_write_kv; [done|done|]. wp_steps. apply IH. by wp_steps.
Qed.

Lemma encode_all_app type l1 l2 : encode_all type (l1 ++ l2) = encode_all type l1 ++ encode_all type l2.
Proof. unfold encode_all. by rewrite fmap_app, concat_app. Qed.

Lemma wp_save_slots n i B E Q t :
  (i + n = length B)%nat →
  Forall (Forall (λ x, (∃ v, x.2.1 = PStr v) ∧ entry_fits x.1 x.2)) B →
  Q (encode_all TYPE_HASH (concat (drop i B))) (hstate B) t →
  wp (rdb_save_slots n (Z.of_nat i)) Q E (hstate B) t.
Proof.
  revert i Q. induction n as [|n IH]; intros i Q Hn HB HQ; simpl.
  { wp_steps. by rewrite skipn_all2 in HQ by lia. }
  destruct (lookup_lt_is_Some_2 B i) as [l Hl]; [lia|].
  wp_steps. unfold hstate at 1. eapply wp_get_slot; [done|]. fold (hstate B). wp_steps.
  apply wp_save_chain; [by eapply Forall_lookup_1|]. wp_steps.
  replace (Z.of_nat i + 1) with (Z.of_nat (S i)) by lia. apply IH; [lia|done|]. wp_steps.
  rewrite (drop_S B l i Hl) in HQ. simpl in HQ. by rewrite encode_all_app in HQ.
Qed.

Lemma save_hash_law E (s : kvs_hash) t :
  ha_inv s → dict_fits (ha_abs s) →
  wp rdb_save_hash (λ b s' _, s' = s ∧
    ∃ L, NoDup L.*1 ∧ list_to_map L = ha_abs s ∧ b = encode_all TYPE_HASH L) E s t.
Proof.
  intros [[B [-> HB]] Hc] Hf. pose proof HB as (Hlen & Hnd & _). rewrite ha_abs_hstate in *.
  unfold rdb_save_hash. wp_steps. cbn [h_max_slots hstate].
  apply (wp_save_slots _ 0%nat); [by rewrite Hlen| |].
  - apply Forall_forall. intros l [i Hi]%list_elem_of_lookup. apply Forall_forall. intros x Hx.
    eapply (proj1 (Forall_forall _ _) (clean_fits_list _ Hnd Hc Hf)).
    destruct (bucket_perm B i l Hi) as (rest & Hp & _). rewrite Hp. apply elem_of_app. by left.
  - split; [done|]. exists (concat B). by rewrite drop_0.
Qed.

Lemma wp_save_list fuel s a P R E Q t :
  sk_rep s a (P ++ R) → (length R ≤ fuel)%nat →
  Forall (λ x, (∃ v, x.2.1 = PStr v) ∧ entry_fits x.1 x.2) (entry_of <$> R) →
  Q (encode_all TYPE_SKIPLIST (entry_of <$> R)) s t →
  wp (rdb_save_list fuel (hd_or (tall 0 R) None)) Q E s t.
Proof.
  intros Hrep. remember (P ++ R) as N eqn:HN. revert P R HN Q.
  induction fuel as [|fuel IH]; intros P R -> Q Hf HR HQ.
  { destruct R; simpl in Hf; [|lia]. simpl. by wp_steps. }
  destruct R as [|x R]; simpl; [by wp_steps|].
  pose proof (sr_heap _ _ _ Hrep) as Hheap.
  destruct (heap_node _ _ P (x :: R) Hheap x) as (f & Hx & _); [set_solver|].
  assert (fwd (sk_heap s) (ln_addr x) 0 = Some (hd_or (tall 0 R) None)) as Hnext.
  { pose proof (ho_links _ _ _ Hheap 0%nat ltac:(lia)) as Hs.
    rewrite tall_app, app_comm_cons, seg_app in Hs. simpl in Hs. tauto. }
  apply Forall_cons in HR as [[[v Hv] (_ & _ & Hk & Hvl & _)] HR].
  wp_steps. eapply wp_get_node; [done|]. simpl. wp_steps. simpl in Hv. rewrite Hv in *.
  apply wp_write_kv; [done|simpl in Hvl; by rewrite Hv in Hvl|]. wp_steps. eapply wp_get_forward; [done|]. wp_steps.
  simpl in Hf. apply (IH (P ++ [x]) R); [by rewrite <-app_assoc|lia|done|]. wp_steps.
  exact_upto HQ. unfold encode_all. simpl. unfold kv_of. simpl. by rewrite Hv.
Qed.

Lemma save_skiplist_law E (s : kvs_skiplist) t :
  sk_inv s → dict_fits (sk_abs s) →
  wp rdb_save_skiplist (λ b s' _, s' = s ∧
    ∃ L, NoDup L.*1 ∧ list_to_map L = sk_abs s ∧ b = encode_all TYPE_SKIPLIST L) E s t.
Proof.
  intros [(a & N & Hrep) Hc] Hf. rewrite (sk_rep_abs _ _ _ Hrep) in *.
  pose proof (rep_NoDup _ _ _ (sr_heap _ _ _ Hrep)) as Hnd. pose proof (sr_heap _ _ _ Hrep) as Hheap.
  unfold rdb_save_skiplist, KvsSkiplist.walk_fuel. wp_steps.
  eapply wp_get_header; [apply Hrep|]. wp_steps.
  destruct (ho_links _ _ _ Hheap 0%nat ltac:(lia)) as [H0 _].
  eapply wp_get_forward; [done|]. wp_steps.
  pose proof (heap_size s a [] N Hheap) as Hsz. simpl in Hsz.
  apply (wp_save_list _ s a [] N); [done|lia|by apply clean_fits_list|]. eauto.
Qed.

Lemma wp_save_tree fuel s nil np X C t E i (Q : bytes → kvs_rbtree → nat → Prop) :
  rep s nil np X C t → (height t ≤ fuel)%nat →
  Forall (λ x, (∃ v, x.2.1 = PStr v) ∧ entry_fits x.1 x.2) (inorder t) →
  Q (encode_all TYPE_RBTREE (inorder t)) s i →
  wp (rdb_save_rbtree_node fuel nil (root_of nil t)) Q E s i.
Proof.
  revert C t Q. induction fuel as [|fuel IH]; intros C t Q H Hf Ht HQ.
  { destruct t; [|simpl in Hf; lia]. simpl. by rewrite decide_True. }
  destruct t as [|a c l k [p e] r]; simpl; [by rewrite decide_True|].
  rewrite decide_False by (by eapply rep_not_nil). wp_steps. simpl in Hf.
  pose proof (rep_focus Lf _ _ _ _ _ _ _ _ _ _ _ H) as Ha.
  simpl in Ht. apply Forall_app in Ht as [Hl [[[v Hv] (_ & _ & Hk & Hvl & _)] Hr]%Forall_cons]. simpl in Hv. subst p.
  eapply (wp_near _ _ _ Lf); [exact Ha|]. wp_steps.
  eapply IH; [exact (proj1 (rep_down Lf _ _ _ _ _ _ _ _ _ _ _) H)|lia|done|]. wp_steps.
  eapply wp_key; [exact Ha|]. wp_steps. eapply wp_value; [exact Ha|]. wp_steps.
  eapply wp_expire; [exact Ha|]. wp_steps. cbn [fst snd]. apply wp_write_kv; [done|done|]. wp_steps.
  eapply (wp_far _ _ _ Lf); [exact Ha|]. wp_steps.
  eapply IH; [exact (proj1 (rep_across Lf _ _ _ _ _ _ _ _ _ _ _) H)|lia|done|]. wp_steps.
  exact_upto HQ. simpl. by rewrite encode_all_app.
Qed.

Lemma save_rbtree_law E (s : kvs_rbtree) t :
  rb_wf s ∧ clean (rb_abs s) → dict_fits (rb_abs s) →
  wp rdb_save_rbtree (λ b s' _, s' = s ∧
    ∃ L, NoDup L.*1 ∧ list_to_map L = rb_abs s ∧ b = encode_all TYPE_RBTREE L) E s t.
Proof.
  intros [[[T HT] _] Hc] Hf. rewrite (rb_rep_abs _ _ HT) in *. destruct HT as (nil & np & n & H & _ & Hs).
  unfold rdb_save_rbtree, KvsRbtree.walk_fuel. wp_steps. eapply wp_get_root; [by eapply rp_root|]. wp_steps.
  eapply RbtreeShape.wp_get_nil; [by eapply rp_nil|]. wp_steps. cbn [plug].
  pose proof (sorted_keys _ Hs) as Hnd. eapply wp_save_tree; [exact H| |by apply clean_fits_list|].
  - pose proof (rep_size _ _ _ _ _ _ H). pose proof (height_addrs T). lia.
  - split; [done|]. by exists (inorder T).
Qed.

(** ** Instances *)

Section instances.
Context {V : Type} `{VectorOps V}.

Lemma size_list_to_map (L : list (bytes * entry)) :
  NoDup L.*1 → size (list_to_map L : dict) = length L.
Proof.
  induction L as [|[k x] L IH]; simpl; intros Hnd; [by apply map_size_empty|].
  apply NoDup_cons in Hnd as [Hk Hnd].
  rewrite map_size_insert_None by (by apply not_elem_of_list_to_map). by rewrite IH.
Qed.

#[global] Program Instance snapshot_array : Snapshot V kvs_array := {|
  sn_type := TYPE_ARRAY;
  sn_save := total ← gets ar_total; rdb_save_array total 0;
  sn_inv := ar_inv;
  sn_max := Some KVS_ARRAY_SIZE
|}.
Next Obligation. done. Qed.
Next Obligation. by intros []. Qed.
Next Obligation. done. Qed.
Next Obligation. by split. Qed.
Next Obligation. intros r Hr. unfold load_kv. by rewrite Hr. Qed.
Next Obligation. exact (e_clean (S := kvs_array)). Qed.
Next Obligation.
  simpl. intros s [[L HrepL] Hc] Hsz. specialize (Hsz _ eq_refl). rewrite (ar_rep_abs s L HrepL) in Hsz.
  destruct HrepL as (m & -> & Hm & HL & _). simpl. by rewrite size_list_to_map in Hsz.
Qed.
Next Obligation. intros E s t k v e HE Hs Hk Hr _. eapply wp_mono; [by apply (e_set_law (S := kvs_array))|]. intros r s' t' (? & _ & ?). done. Qed.
Next Obligation. apply save_array_law. Qed.

#[global] Program Instance snapshot_hash : Snapshot V kvs_hash := {|
  sn_type := TYPE_HASH;
  sn_save := rdb_save_hash;
  sn_inv := ha_inv;
  sn_max := None
|}.
Next Obligation. done. Qed.
Next Obligation. by intros []. Qed.
Next Obligation. done. Qed.
Next Obligation. by split. Qed.
Next Obligation. intros r Hr. unfold load_kv. by rewrite Hr. Qed.
Next Obligation. exact (e_clean (S := kvs_hash)). Qed.
Next Obligation. done. Qed.
Next Obligation. intros E s t k v e HE Hs Hk Hr _. eapply wp_mono; [by apply (e_set_law (S := kvs_hash))|]. intros r s' t' (? & _ & ?). done. Qed.
Next Obligation. apply save_hash_law. Qed.

#[global] Program Instance snapshot_skiplist : Snapshot V kvs_skiplist := {|
  sn_type := TYPE_SKIPLIST;
  sn_save := rdb_save_skiplist;
  sn_inv := sk_inv;
  sn_max := None
|}.
Next Obligation. done. Qed.
Next Obligation. by intros []. Qed.
Next Obligation. done. Qed.
Next Obligation. by split. Qed.
Next Obligation. intros r Hr. unfold load_kv. by rewrite Hr. Qed.
Next Obligation. exact (e_clean (S := kvs_skiplist)). Qed.
Next Obligation. done. Qed.
Next Obligation. intros E s t k v e HE Hs Hk Hr _. eapply wp_mono; [by apply (e_set_law (S := kvs_skiplist))|]. intros r s' t' (? & _ & ?). done. Qed.
Next Obligation. apply save_skiplist_law. Qed.
#[global] Program Instance snapshot_rbtree : Snapshot V kvs_rbtree := {|
  sn_type := TYPE_RBTREE;
  sn_save := rdb_save_rbtree;
  sn_inv := λ s, rb_wf s ∧ clean (rb_abs s);
  sn_max := None
|}.
Next Obligation. done. Qed.
Next Obligation. by intros []. Qed.
Next Obligation. done. Qed.
Next Obligation. by split. Qed.
Next Obligation. intros r Hr. unfold load_kv. by rewrite Hr. Qed.
Next Obligation. by intros s [_ ?]. Qed.
Next Obligation. done. Qed.
Next Obligation.
  simpl. intros E s t k v e HE [Hs Hc] _ _ Hk. eapply wp_mono; [by apply rbtree_set_spec|].
  intros r s' t' (Hs' & [(_ & m & Hd & Habs)|[? _]]); [|done].
  apply drops_missing in Hd as ->; [|done]. rewrite Habs. split; [|done]. split; [done|].
  by apply clean_insert.
Qed.
Next Obligation. apply save_rbtree_law. Qed.
End instances.

(** ** Loading what was saved *)

Lemma encode_all_length type L : (length L ≤ length (encode_all type L))%nat.
Proof.
  induction L as [|x L IH]; [done|]. unfold encode_all in *. rewrite fmap_cons. cbn [concat length].
  unfold encode_kv at 1. rewrite !length_app, !le_encode_length. lia.
Qed.

Section load.
Context {V T : Type} `{Snapshot V T}.

Lemma wp_grow cap len Q E (s : server V) t :
  no_oom E → (∀ c t', Q (Some c) s t') → wp (grow cap len) Q E s t.
Proof.
  intros HE HQ. unfold grow. destruct (len + 1 >? cap); wp_steps; [rewrite HE|]; apply HQ.
Qed.

(** One record at the front of the data. *)
Lemma wp_load_one fuel r rest kc vc Q E (s : server V) t :
  kv_type r = sn_type → kv_ok r → NUL ∉ kv_key r → NUL ∉ kv_value r → no_oom E →
  (∀ kc vc t, wp (_r ← on T (e_set (PStr (kv_key r)) (PStr (kv_value r)) (kv_expire r));
     load_loop fuel rest kc vc) Q E s t) →
  wp (load_loop (S fuel) (encode_kv r ++ rest) kc vc) Q E s t.
Proof.
  intros Ht Hok Hk Hv HE HQ. destruct sn_type_ok as [Hr Hnv].
  unfold encode_kv. change (le_encode 1 (kv_type r)) with [to_byte (kv_type r)].
  rewrite <-!app_assoc. cbn [app load_loop].
  assert (schar (to_byte (kv_type r)) = kv_type r) as Hc.
  { unfold schar. rewrite uchar_to_byte, Ht, Z.mod_small by lia.
    by rewrite (proj2 (Z.ltb_lt _ _)) by lia. }
  rewrite Hc, Ht, (proj2 (Z.eqb_neq _ _)) by done. rewrite <-Ht.
  rewrite read_kv_app by done. wp_steps. apply wp_grow; [done|]. intros c1 t1. wp_steps.
  apply wp_grow; [done|]. intros c2 t2. wp_steps. rewrite sn_dispatch by done.
  rewrite !cstr_id by done. specialize (HQ c1 c2 t2). revert HQ. unfold wp, mbind, M_bind.
  destruct (on T _ E s t2) as [[[??]?]|]; done.
Qed.

(** Loading the records of [L] adds them to the dictionary, the last of equal
    keys winning, and changes nothing else of the server. *)
Lemma wp_load_all L rest fuel kc vc Q E (s : server V) t :
  no_oom E → sn_inv (focus s) → Forall (λ x, ∃ v, x.2.1 = PStr v) L →
  Forall (λ x, entry_fits x.1 x.2 ∧ e_key x.1) L →
  NoDup L.*1 → (∀ k, k ∈ L.*1 → e_abs (focus s) !! k = None) →
  (∀ c, sn_max = Some c → Z.of_nat (size (e_abs (focus s)) + length L) ≤ c) →
  (length L + length rest ≤ fuel)%nat →
  (∀ c kc vc t fuel', sn_inv c → e_abs c = list_to_map L ∪ e_abs (focus s) → (length rest ≤ fuel')%nat →
     wp (load_loop fuel' rest kc vc) Q E (refocus c s) t) →
  wp (load_loop fuel (encode_all sn_type L ++ rest) kc vc) Q E s t.
Proof.
  intros HE Hinv Hv HL Hnd Hdisj Hsz Hfuel HQ.
  revert s t fuel kc vc Hinv Hdisj Hsz Hfuel HQ.
  induction L as [|[k [p e]] L IH]; intros s t fuel kc vc Hinv Hdisj Hsz Hfuel HQ.
  { specialize (HQ (focus s) kc vc t fuel Hinv). rewrite sn_id in HQ.
    apply HQ; [simpl; by rewrite map_empty_union|simpl in Hfuel; lia]. }
  apply Forall_cons in Hv as [[v Hv] HvL]. simpl in Hv. subst p.
  apply Forall_cons in HL as [[Hfit Hkey] HL]. apply NoDup_cons in Hnd as [Hk Hnd].
  destruct fuel as [|fuel]; simpl in Hfuel; [lia|].
  unfold encode_all. cbn [fmap list_fmap concat]. rewrite <-app_assoc.
  assert (e_abs (focus s) !! k = None) as Hnone by (apply Hdisj; by left).
  apply wp_load_one; [done|by apply fits_kv_ok|apply Hfit|apply Hfit|done|].
  intros kc' vc' t'. wp_steps. apply wp_on. simpl.
  eapply wp_mono; [apply sn_set_law; [done|done|done| |done]|].
  { apply sn_room; [done|]. intros c Hc. specialize (Hsz c Hc). simpl in Hsz. lia. }
  intros r c t'' (Hc & Habs). apply (IH HvL HL Hnd); rewrite ?sn_focus.
  - done.
  - intros k' Hk'. rewrite Habs, lookup_insert_ne by (intros ->; done). apply Hdisj. by right.
  - intros c' Hc'. specialize (Hsz c' Hc'). rewrite Habs, map_size_insert_None by done. simpl in Hsz. lia.
  - lia.
  - intros c' kc2 vc2 t2 fuel' Hc' Habs' Hf'. rewrite sn_refocus. apply HQ; [done| |done].
    rewrite Habs', Habs. simpl. rewrite <-insert_union_l, <-insert_union_r; [done|].
    by apply not_elem_of_list_to_map.
Qed.

(** An engine whose dictionary a snapshot can hold. *)
Definition storable (c : T) : Prop :=
  sn_inv c ∧ dict_fits (e_abs c) ∧ (∀ k, is_Some (e_abs c !! k) → e_key k) ∧
  (∀ n, sn_max = Some n → Z.of_nat (size (e_abs c)) ≤ n).

(** The records of a storable engine, loaded into a server whose engine is
    empty, give back the dictionary. *)
Lemma wp_load_engine (c0 : T) L rest fuel kc vc Q E (s : server V) t :
  no_oom E → storable c0 → NoDup L.*1 → list_to_map L = e_abs c0 →
  sn_inv (focus s) → e_abs (focus s) = ∅ → (length (encode_all sn_type L ++ rest) ≤ fuel)%nat →
  (∀ c kc vc t fuel', sn_inv c → e_abs c = e_abs c0 → (length rest ≤ fuel')%nat →
     wp (load_loop fuel' rest kc vc) Q E (refocus c s) t) →
  wp (load_loop fuel (encode_all sn_type L ++ rest) kc vc) Q E s t.
Proof.
  intros HE (Hinv0 & Hfit & Hkey & Hsz) Hnd HL Hinv Hemp Hf HQ.
  assert (∀ k x, (k, x) ∈ L → e_abs c0 !! k = Some x) as Hin.
  { intros k x Hx. rewrite <-HL. by apply elem_of_list_to_map_1. }
  apply wp_load_all; [done|done| | |done| | | |].
  - apply Forall_forall. intros [k [p e]] Hx. eapply (sn_clean _ Hinv0). by apply Hin.
  - apply Forall_forall. intros [k x] Hx. apply Hin in Hx. split; [by apply Hfit|].
    apply (Hkey k). by rewrite Hx.
  - intros k _. by rewrite Hemp.
  - intros n Hn. specialize (Hsz n Hn). rewrite Hemp, map_size_empty. rewrite <-HL, size_list_to_map in Hsz by done. lia.
  - rewrite length_app in Hf. pose proof (encode_all_length sn_type L). lia.
  - intros c kc' vc' t' fuel' Hc Habs Hf'. apply HQ; [done| |done].
    by rewrite Habs, Hemp, map_union_empty.
Qed.
End load.

(** ** Vectors *)

(** The bytes of a row, and the rows whose lengths fit an int. *)
Definition encode_row (r : vector_row) : bytes :=
  le_encode 1 TYPE_VECTOR ++ lstr (vr_question r) ++ lstr (vr_answer r) ++ le_encode 4 (vr_dim r) ++ lstr (vr_vector r).

Definition row_fits (r : vector_row) : Prop :=
  NUL ∉ vr_question r ∧ NUL ∉ vr_answer r ∧ NUL ∉ vr_vector r ∧
  strlen (vr_question r) ≤ INT_MAX ∧ strlen (vr_answer r) ≤ INT_MAX ∧ strlen (vr_vector r) ≤ INT_MAX ∧
  0 < vr_dim r ≤ INT_MAX.

Lemma wp_save_vector {S} rows E (s : S) t (Q : bytes → S → nat → Prop) :
  Forall row_fits rows → Q (concat (encode_row <$> rows)) s t → wp (rdb_save_vector rows) Q E s t.
Proof.
  intros Hr. revert Q. induction Hr as [|r rows (_ & _ & _ & Hq & Ha & Hv & _) Hr IH]; intros Q HQ; cbn [rdb_save_vector]; [by wp_steps|].
  unfold rdb_write_vector_entry. wp_steps. apply wp_write_str; [done|]. wp_steps. apply wp_write_str; [done|]. wp_steps.
  apply wp_write_str; [done|]. wp_steps. apply IH. by wp_steps.
Qed.

Section vectors.
Context {V : Type} `{VectorLaws V}.

(** The index after the rows were set, one after the other. *)
Inductive restored (E : env) : list vector_row → V → V → Prop :=
| restored_nil v : restored E [] v v
| restored_cons r rows v1 v2 v3 z t t' :
    v_set (vr_question r) (vr_answer r) (vr_dim r) (vr_vector r) E v1 t = Done (z, v2, t') →
    restored E rows v2 v3 → restored E (r :: rows) v1 v3.

Lemma read_row_app r p :
  row_fits r → read_vector (lstr (vr_question r) ++ lstr (vr_answer r) ++ le_encode 4 (vr_dim r) ++ lstr (vr_vector r) ++ p) = Some (r, p).
Proof.
  intros (_ & _ & _ & Hq & Ha & Hv & Hd). unfold read_vector. rewrite read_lstr_app by done. cbn [mbind option_bind].
  rewrite read_lstr_app by done. cbn [mbind option_bind]. rewrite read_n_app by apply le_encode_length. cbn [mbind option_bind].
  rewrite read_lstr_app by done. cbn [mbind option_bind]. rewrite get_int_encode by (unfold INT_MIN; lia). by destruct r.
Qed.

(** Loading the rows sets them one after the other and changes nothing else. *)
Lemma wp_load_vectors rows rest fuel kc vc Q E (s : server V) t :
  no_oom E → v_ok (sv_vector s) → v_used (sv_vector s) + Z.of_nat (length rows) ≤ VECTOR_MAX → Forall row_fits rows →
  (length (concat (encode_row <$> rows) ++ rest) ≤ fuel)%nat →
  (∀ v t' fuel', v_ok v → restored E rows (sv_vector s) v → (length rest ≤ fuel')%nat →
     wp (load_loop fuel' rest kc vc) Q E (put_vector v s) t') →
  wp (load_loop fuel (concat (encode_row <$> rows) ++ rest) kc vc) Q E s t.
Proof.
  intros HE Hv Hu Hrows. revert fuel s t Hv Hu. induction Hrows as [|r rows Hr Hrows IH]; intros fuel s t Hv Hu Hf HQ.
  { specialize (HQ (sv_vector s) t fuel Hv (restored_nil E _) Hf). by destruct s. }
  cbn [fmap list_fmap concat length] in *. rewrite <-app_assoc in Hf |- *. unfold encode_row at 1 in Hf. unfold encode_row at 1.
  change (le_encode 1 TYPE_VECTOR) with [to_byte TYPE_VECTOR] in *. rewrite <-!app_assoc in Hf |- *.
  rewrite !length_app in Hf. cbn [length] in Hf. destruct fuel as [|fuel]; [lia|]. cbn [app load_loop].
  change (schar (to_byte TYPE_VECTOR) =? TYPE_VECTOR) with true. cbv iota. rewrite read_row_app by done.
  wp_steps. rewrite !HE. cbn [negb andb]. pose proof Hr as (Hq & Ha & Hx & _ & _ & _ & Hd).
  rewrite Z.gtb_ltb, (proj2 (Z.ltb_lt _ _)) by lia. rewrite !cstr_id by done. unfold on_vector. wp_steps.
  pose proof (v_set_ok E (sv_vector s) (vr_question r) (vr_answer r) (vr_dim r) (vr_vector r) (S (S (S t))) HE Hv ltac:(lia)) as Hset.
  apply wp_run in Hset as (z & v & t' & Hrun & Hv' & Hu'). apply wp_run. eexists _, _, _. split; [exact Hrun|]. wp_steps.
  apply IH; cbn [sv_vector put_vector]; [done|lia|rewrite length_app; lia|].
  intros v3 t3 fuel' Hv3 Hres Hf3. specialize (HQ v3 t3 fuel' Hv3). by apply HQ; [by eapply restored_cons|].
Qed.
End vectors.

(** ** Whole snapshots *)

Section whole.
Context {V : Type} `{VectorOps V}.

(** The engines and the vector index hold what a snapshot can hold. *)
Record storable_server (s : server V) : Prop := {
  ss_array    : storable (V := V) (sv_array s);
  ss_hash     : storable (V := V) (sv_hash s);
  ss_skiplist : storable (V := V) (sv_skiplist s);
  ss_rbtree   : storable (V := V) (sv_rbtree s);
  ss_vector   : Forall row_fits (v_rows (sv_vector s)) ∧ Z.of_nat (length (v_rows (sv_vector s))) ≤ VECTOR_MAX
}.

Lemma save_to_fp_spec E (s : server V) t :
  storable_server s →
  wp rdb_save_to_fp (λ b s' _, s' = s ∧ ∃ La Lr Lh Lk, NoDup La.*1 ∧ NoDup Lr.*1 ∧ NoDup Lh.*1 ∧ NoDup Lk.*1 ∧
    list_to_map La = ar_abs (sv_array s) ∧ list_to_map Lr = rb_abs (sv_rbtree s) ∧
    list_to_map Lh = ha_abs (sv_hash s) ∧ list_to_map Lk = sk_abs (sv_skiplist s) ∧
    b = encode_all TYPE_ARRAY La ++ encode_all TYPE_RBTREE Lr ++ concat (encode_row <$> v_rows (sv_vector s)) ++
        encode_all TYPE_HASH Lh ++ encode_all TYPE_SKIPLIST Lk) E s t.
Proof.
  intros [(Ha & Hfa & _) (Hh & Hfh & _) (Hk & Hfk & _) (Hr & Hfr & _) [Hv _]].
  unfold rdb_save_to_fp, on_array, on_rbtree, on_hash, on_skiplist. wp_steps.
  pose proof (save_array_law E (sv_array s) t Ha Hfa) as Hsa. apply wp_run in Hsa as (ba & c & ta & Hsa & -> & La & HLa & HLa' & ->).
  change (rdb_save_array (ar_total (sv_array s)) 0 E (sv_array s) t = Done (encode_all TYPE_ARRAY La, sv_array s, ta)) in Hsa.
  apply wp_run. eexists _, _, _. split; [exact Hsa|]. wp_steps.
  eapply wp_mono; [by apply save_rbtree_law|]. intros br c tr (-> & Lr & HLr & HLr' & ->). wp_steps.
  cbn [sv_vector put_array put_rbtree]. apply wp_save_vector; [done|]. wp_steps.
  eapply wp_mono; [by apply save_hash_law|]. intros bh c th (-> & Lh & HLh & HLh' & ->). wp_steps.
  eapply wp_mono; [by apply save_skiplist_law|]. intros bk c tk (-> & Lk & HLk & HLk' & ->). wp_steps.
  split; [by destruct s|]. exists La, Lr, Lh, Lk. done.
Qed.

Context `{!VectorLaws V}.

(** The engines are well-formed and hold live strings. *)
Record engines_ok (s : server V) : Prop := {
  eo_array    : ar_inv (sv_array s);
  eo_hash     : ha_inv (sv_hash s);
  eo_skiplist : sk_inv (sv_skiplist s);
  eo_rbtree   : rb_wf (sv_rbtree s);
  eo_vector   : v_ok (sv_vector s)
}.

Definition same_dicts (s s' : server V) : Prop :=
  ar_abs (sv_array s') = ar_abs (sv_array s) ∧ ha_abs (sv_hash s') = ha_abs (sv_hash s) ∧
  sk_abs (sv_skiplist s') = sk_abs (sv_skiplist s) ∧ rb_abs (sv_rbtree s') = rb_abs (sv_rbtree s).

(** What loading a saved snapshot leaves. *)
Lemma load_saved E (s : server V) t :
  no_oom E → storable_server s →
  wp rdb_save_to_fp (λ b s' _, s' = s ∧
    ∀ s2 t2, booted s2 →
      wp (rdb_load_from_memory b) (λ r s3 _, r = 0 ∧ same_dicts s s3 ∧ engines_ok s3 ∧
        (sv_rdb s3 = sv_rdb s2 ∧ sv_aof s3 = sv_aof s2) ∧
        restored E (v_rows (sv_vector s)) (sv_vector s2) (sv_vector s3)) E s2 t2) E s t.
Proof.
  intros HE Hs. eapply wp_mono; [by apply save_to_fp_spec|].
  intros b s' t' (-> & La & Lr & Lh & Lk & HLa & HLr & HLh & HLk & Ha & Hr & Hh & Hk & ->). split; [done|].
  intros s2 t2 [Hia Hih Hik Hir [Hiv Hiu] (Hea & Heh & Hek & Her)]. destruct Hs as [Hsa Hsh Hsk Hsr [Hsv Hsn]].
  assert (sn_inv (V := V) (sv_rbtree s2)) as Hir' by (split; [done|rewrite Her; apply clean_empty]).
  unfold rdb_load_from_memory. wp_steps.
  pose proof (wp_load_engine (V := V) (T := kvs_array) (sv_array s) La) as Hload_La.
  apply Hload_La; [done..|]. intros ca kc vc ta fa Hca Haa Hfa.
  pose proof (wp_load_engine (V := V) (T := kvs_rbtree) (sv_rbtree s) Lr) as Hload_Lr.
  apply Hload_Lr; [done..|]. intros cr kc1 vc1 tr fr Hcr Har Hfr.
  apply wp_load_vectors; [done|done|cbn; lia|done|done|]. cbn [sv_vector refocus]. intros cv tv fv Hcv Hres Hfv.
  pose proof (wp_load_engine (V := V) (T := kvs_hash) (sv_hash s) Lh) as Hload_Lh.
  apply Hload_Lh; [done..|].
  intros ch kc' vc' th fh Hch Hah Hfh. rewrite <-(app_nil_r (encode_all TYPE_SKIPLIST Lk)) in *.
  pose proof (wp_load_engine (V := V) (T := kvs_skiplist) (sv_skiplist s) Lk) as Hload_Lk.
  apply Hload_Lk; [done..|].
  intros ck kc2 vc2 tk fk Hck Hak _. destruct Hcr as [Hcr _].
  destruct fk; cbn [load_loop]; wp_steps; (split; [done|]; split; [by split_and!|]; split; [by split|]; by split).
Qed.
(** C20: a snapshot, loaded into a server whose engines are empty while no malloc
    fails, gives back the dictionaries of the array, the red-black tree, the hash
    table and the skip list, expiry times included, whatever vectors lie between
    their records; the rows of the vector index are set one after the other, in
    their order, on the empty index; and writing the snapshot changes nothing.
    Keys and values are C strings whose lengths fit an int (ASCII keys in the hash
    table), the array holds at most its capacity, the index at most 2^30 rows. *)
Theorem rdb_roundtrip E (s : server V) t :
  no_oom E → storable_server s →
  wp rdb_save_to_fp (λ b s' _, s' = s ∧
    ∀ s2 t2, booted s2 →
      wp (rdb_load_from_memory b) (λ r s3 _, r = 0 ∧
        ar_abs (sv_array s3) = ar_abs (sv_array s) ∧ ha_abs (sv_hash s3) = ha_abs (sv_hash s) ∧
        sk_abs (sv_skiplist s3) = sk_abs (sv_skiplist s) ∧ rb_abs (sv_rbtree s3) = rb_abs (sv_rbtree s) ∧
        restored E (v_rows (sv_vector s)) (sv_vector s2) (sv_vector s3)) E s2 t2) E s t.
Proof.
  intros HE Hs. eapply wp_mono; [by apply load_saved|]. intros b s' t' [-> Hl]. split; [done|].
  intros s2 t2 Hb. eapply wp_mono; [by apply Hl|]. intros r s3 t3 (-> & (Ha & Hh & Hk & Hr) & _ & _ & Hv). by split_and!.
Qed.
End whole.

(** A server with one key in each of three engines and three in the tree. *)
Definition stocked : server unit :=
  put_array array1 (put_hash hash1 (put_skiplist skiplist1 (put_rbtree abc fresh))).

Lemma entry_fits_kv k e : (k = lit "k" ∨ k = lit "a" ∨ k = lit "b" ∨ k = lit "c") → LLONG_MIN ≤ e ≤ LLONG_MAX →
  entry_fits k (PStr (lit "v"), e).
Proof.
  intros Hk He. unfold entry_fits. simpl.
  destruct Hk as [->|[->|[->| ->]]]; split_and!; try lia; by apply (bool_decide_unpack _).
Qed.

Lemma single_storable {T} `{Snapshot unit T} (c : T) :
  sn_inv (V := unit) c → e_abs c = {[lit "k" := (PStr (lit "v"), -1)]} → e_key (lit "k") →
  (∀ n, sn_max = Some n → 1 ≤ n) → storable (V := unit) c.
Proof.
  intros Hc Ha Hk Hmax. split; [done|]. rewrite Ha. split_and!.
  - intros k x [<- <-]%lookup_singleton_Some. apply entry_fits_kv; [by left|done].
  - intros k [x [<- _]%lookup_singleton_Some]. done.
  - intros n Hn. rewrite map_size_singleton. by apply Hmax.
Qed.

Lemma empty_storable {V T} `{Snapshot V T} (c : T) :
  sn_inv (V := V) c → e_abs c = ∅ → (∀ n, sn_max = Some n → 0 ≤ n) → storable (V := V) c.
Proof.
  intros Hc Ha Hm. split; [done|]. rewrite Ha. split_and!.
  - intros k x. by rewrite lookup_empty.
  - intros k [x Hx]. by rewrite lookup_empty in Hx.
  - intros n Hn. rewrite map_size_empty. by apply Hm.
Qed.

Lemma abc_storable : storable (V := unit) abc.
Proof.
  assert (∀ k x, rb_abs abc !! k = Some x →
    (k = lit "k" ∨ k = lit "a" ∨ k = lit "b" ∨ k = lit "c") ∧ x.1 = PStr (lit "v") ∧ LLONG_MIN ≤ x.2 ≤ LLONG_MAX) as Hall.
  { rewrite abc_abs. intros k x [[<- <-]|[_ [[<- <-]|[_ [<- <-]%lookup_singleton_Some]]%lookup_insert_Some]]%lookup_insert_Some;
      simpl; unfold LLONG_MIN, LLONG_MAX; (split; [tauto|split; [done|lia]]). }
  split; [split; [apply rb_of_wf|]|].
  - intros k p e Hk. destruct (Hall _ _ Hk) as (_ & Hp & _). simpl in Hp. eauto.
  - split_and!.
    + intros k [p e] Hk. destruct (Hall _ _ Hk) as (? & Hp & ?). simpl in *. subst p. by apply entry_fits_kv.
    + done.
    + intros n Hn. discriminate Hn.
Qed.

Lemma put_all_storable (s : server unit) :
  storable_server (put_array array1 (put_hash hash1 (put_skiplist skiplist1 (put_rbtree abc s)))).
Proof.
  split.
  - apply single_storable; [apply array1_ok..|done|by intros n [= <-]].
  - apply single_storable; [apply hash1_ok..|apply k_ascii|done].
  - apply single_storable; [apply skiplist1_ok..|done|done].
  - exact abc_storable.
  - by split.
Qed.

Lemma stocked_storable : storable_server stocked.
Proof. apply put_all_storable. Qed.

Lemma rdb_roundtrip_witness :
  wp rdb_save_to_fp (λ b s' _, s' = stocked ∧
    ∀ s2 t2, booted s2 →
      wp (rdb_load_from_memory b) (λ r s3 _, r = 0 ∧
        ar_abs (sv_array s3) = ar_abs array1 ∧ ha_abs (sv_hash s3) = ha_abs hash1 ∧
        sk_abs (sv_skiplist s3) = sk_abs skiplist1 ∧ rb_abs (sv_rbtree s3) = rb_abs abc ∧
        restored calm [] (sv_vector s2) (sv_vector s3)) calm s2 t2) calm stocked 0.
Proof. exact (rdb_roundtrip calm stocked 0 calm_no_oom stocked_storable). Defined.
