(* ===== verification/Rdma.v ===== *)
(** * RDMA connections of the replication (rdma.h)

    The messages of a full synchronisation as bytes, one end of a reliable
    connection with its buffers and queues, and the functions that post work on
    it. The network card is outside the code: what it does with posted work is in
    FullSync. *)

From S2P Require Import Prelude Aof AofUring Rdb.

(** ** Constants *)

Definition RDMA_REPL_MAGIC : Z := 0x52444d41.
Definition RDMA_REPL_VERSION : Z := 3.
Definition RDMA_REPL_WINDOW : nat := 64.
Definition RDMA_REPL_SLOT_SIZE : Z := 1048576.
Definition RDMA_REPL_CTRL_RECV_DEPTH : nat := 128.
Definition RDMA_REPL_SEND_SLOTS : nat := 64.
Definition RDMA_REPL_ACK_EVERY : Z := 16.
Definition RDMA_IMM_LEN_MASK : Z := 0xffffff.

(** sizeof (rdma_chunk_header_t), sizeof (rdma_ctrl_msg_t) *)
Definition HEADER_SIZE : Z := 56.
Definition CTRL_SIZE : Z := 32.
Definition RDMA_REPL_CHUNK_SIZE : Z := RDMA_REPL_SLOT_SIZE - HEADER_SIZE.

Definition RDMA_CTRL_ACK : Z := 1.
Definition RDMA_CTRL_DONE : Z := 2.
Definition RDMA_CTRL_ERROR : Z := 3.
Definition RDMA_CTRL_CHUNK : Z := 4.

(** ** Messages *)

Record rdma_chunk_header := ChunkHeader {
  h_magic : Z; h_version : Z; h_flags : Z; h_seq : Z; h_offset : Z; h_total_size : Z;
  h_checksum : Z; h_len : Z; h_is_last : Z; h_slot_id : Z; h_header_len : Z
}.

Record rdma_ctrl_msg := CtrlMsg {
  c_magic : Z; c_type : Z; c_seq : Z; c_offset : Z; c_status : Z
}.

(** The structs in memory: fields in order, little endian, no padding. *)
Definition encode_header (h : rdma_chunk_header) : bytes :=
  le_encode 4 (h_magic h) ++ le_encode 2 (h_version h) ++ le_encode 2 (h_flags h) ++
  le_encode 8 (h_seq h) ++ le_encode 8 (h_offset h) ++ le_encode 8 (h_total_size h) ++
  le_encode 8 (h_checksum h) ++ le_encode 4 (h_len h) ++ le_encode 4 (h_is_last h) ++
  le_encode 4 (h_slot_id h) ++ le_encode 4 (h_header_len h).

Definition encode_ctrl (c : rdma_ctrl_msg) : bytes :=
  le_encode 4 (c_magic c) ++ le_encode 4 (c_type c) ++ le_encode 8 (c_seq c) ++
  le_encode 8 (c_offset c) ++ le_encode 4 (c_status c) ++ le_encode 4 0.

(** The field of [n] bytes at offset [off]; memory is held as far as it has been
    written, the rest is zero. *)
Definition field (b : bytes) (off n : nat) : Z := le_decode (take n (drop off b)).

Definition decode_header (b : bytes) : rdma_chunk_header :=
  ChunkHeader (field b 0 4) (field b 4 2) (field b 6 2) (field b 8 8) (field b 16 8) (field b 24 8)
    (field b 32 8) (field b 40 4) (field b 44 4) (field b 48 4) (field b 52 4).

Definition decode_ctrl (b : bytes) : rdma_ctrl_msg :=
  CtrlMsg (field b 0 4) (field b 4 4) (field b 8 8) (field b 16 8) (field b 24 4).

(** The bytes after the header. *)
Definition payload_of (b : bytes) (len : Z) : bytes := take (Z.to_nat len) (drop (Z.to_nat HEADER_SIZE) b).

Fixpoint rdma_fnv1a64_update (h : Z) (data : bytes) : Z :=
  match data with
  | [] => h
  | c :: data' => rdma_fnv1a64_update (u64 (Z.lxor h (uchar c) * 1099511628211)) data'
  end.

Definition rdma_fnv1a64 (data : bytes) : Z := rdma_fnv1a64_update 1469598103934665603 data.

(** ** One end of a connection *)

Inductive wr_type := RDMA_WR_CTX_RECV | RDMA_WR_CTX_SEND | RDMA_WR_CTX_WRITE.

#[global] Instance wr_type_eq_dec : EqDecision wr_type.
Proof. solve_decision. Defined.

(** rdma_wr_ctx_t, without the pointer back to the connection *)
Record rdma_wr_ctx := WrCtx { x_type : wr_type; x_slot : nat; x_seq : Z }.

(** Posted work: a send of the first bytes of a send slot, or a write of them to
    a data slot of the peer. The sequence number of a write is the one it was
    posted for. *)
Inductive wr :=
| WrSend (slot : nat) (len : Z)
| WrWrite (slot : nat) (len : Z) (remote : nat) (seq : Z).

Definition wr_slot (w : wr) : nat := match w with WrSend s _ => s | WrWrite s _ _ _ => s end.

(** A completion names a context: that of a receive slot or of a send slot, as it
    is when the completion is handled. *)
Inductive wc_id := OfRecv (slot : nat) | OfSend (slot : nat).
Record wc := Wc { wc_success : bool; wc_ctx : wc_id }.

(** struct conn_manger with the queues of its queue pair *)
Record conn := Conn {
  cn_send       : list bytes;        (* send_buffer, by slot *)
  cn_data       : list bytes;        (* recv_buffer, by data slot *)
  cn_ctrl       : list bytes;        (* ctrl_recv_buffer, by slot *)
  cn_send_ctx   : list rdma_wr_ctx;  (* send_ctx *)
  cn_slot_size  : Z;                 (* local_slot_size, remote_slot_size *)
  cn_slot_count : nat;               (* local_slot_count, remote_slot_count *)
  cn_posted     : list wr;           (* send queue: posted *)
  cn_performed  : list wr;           (* send queue: performed at the peer *)
  cn_recvs      : list nat;          (* receive queue *)
  cn_cq         : list wc;           (* completion queue *)
  cn_up         : bool;              (* no rdma_disconnect so far *)
  cn_done       : bool;
  cn_failed     : bool
}.

Section setters.
Implicit Types (c : conn).
Definition set_send (l : list bytes) (x : list rdma_wr_ctx) c :=
  Conn l (cn_data c) (cn_ctrl c) x (cn_slot_size c) (cn_slot_count c) (cn_posted c)
    (cn_performed c) (cn_recvs c) (cn_cq c) (cn_up c) (cn_done c) (cn_failed c).
Definition set_data (l : list bytes) c :=
  Conn (cn_send c) l (cn_ctrl c) (cn_send_ctx c) (cn_slot_size c) (cn_slot_count c) (cn_posted c)
    (cn_performed c) (cn_recvs c) (cn_cq c) (cn_up c) (cn_done c) (cn_failed c).
Definition set_ctrl (l : list bytes) (r : list nat) c :=
  Conn (cn_send c) (cn_data c) l (cn_send_ctx c) (cn_slot_size c) (cn_slot_count c) (cn_posted c)
    (cn_performed c) r (cn_cq c) (cn_up c) (cn_done c) (cn_failed c).
Definition set_queues (p d : list wr) (q : list wc) c :=
  Conn (cn_send c) (cn_data c) (cn_ctrl c) (cn_send_ctx c) (cn_slot_size c) (cn_slot_count c) p d
    (cn_recvs c) q (cn_up c) (cn_done c) (cn_failed c).
Definition set_flags (up done failed : bool) c :=
  Conn (cn_send c) (cn_data c) (cn_ctrl c) (cn_send_ctx c) (cn_slot_size c) (cn_slot_count c)
    (cn_posted c) (cn_performed c) (cn_recvs c) (cn_cq c) up done failed.
End setters.

Definition rdma_disconnect : M conn unit := modify (λ c, set_flags false (cn_done c) (cn_failed c) c).
Definition rdma_mark_done : M conn unit := modify (λ c, set_flags (cn_up c) true (cn_failed c) c).
Definition rdma_mark_failed : M conn unit := modify (λ c, set_flags (cn_up c) (cn_done c) true c).

(** Reading a slot of a buffer. *)
Definition slot_mem (l : list bytes) (i : nat) : M conn bytes :=
  match l !! i with Some b => mret b | None => fail OutOfBounds end.

(** ** Posting *)

Definition post_recv_slot (slot : nat) : M conn Z :=
  if decide (RDMA_REPL_CTRL_RECV_DEPTH ≤ slot)%nat then mret (-1) else
  modify (λ c, set_ctrl (<[slot := []]> (cn_ctrl c)) (cn_recvs c) c);;
  ok ← ask_sys;
  if ok : bool then
    modify (λ c, set_ctrl (cn_ctrl c) (cn_recvs c ++ [slot]) c);; mret 0
  else rdma_disconnect;; mret (-1).

Fixpoint post_recvs (n i : nat) : M conn Z :=
  match n with
  | O => mret 0
  | S n' =>
      r ← post_recv_slot i;
      if negb (r =? 0) then mret (-1) else post_recvs n' (S i)
  end.

Definition post_recv_n (n : nat) : M conn Z := post_recvs (n `min` RDMA_REPL_CTRL_RECV_DEPTH) 0.

(** ibv_post_send with its retries *)
Definition post_work (w : wr) : M conn Z :=
  ok ← ask_sys;
  if ok : bool then
    modify (λ c, set_queues (cn_posted c ++ [w]) (cn_performed c) (cn_cq c) c);; mret 0
  else rdma_disconnect;; mret (-1).

Definition set_ctx (i : nat) (x : rdma_wr_ctx) : M conn unit :=
  modify (λ c, set_send (cn_send c) (<[i := x]> (cn_send_ctx c)) c).

Definition post_send_slot (slot : nat) (length : Z) (seq : Z) : M conn Z :=
  if length <=? 0 then mret (-1) else
  let slot := (slot mod RDMA_REPL_SEND_SLOTS)%nat in
  if RDMA_REPL_SLOT_SIZE <? length then mret (-1) else
  set_ctx slot (WrCtx RDMA_WR_CTX_SEND slot seq);;
  post_work (WrSend slot length).

(** memcpy or field stores at the start of a send slot *)
Definition store_send (slot : nat) (data : bytes) : M conn unit :=
  c ← gets id;
  b ← slot_mem (cn_send c) slot;
  if RDMA_REPL_SLOT_SIZE <? strlen data then fail OutOfBounds else
  modify (λ c, set_send (<[slot := memcpy_at b 0 data]> (cn_send c)) (cn_send_ctx c) c).

Definition post_ctrl_slot (slot : nat) (type seq offset status : Z) : M conn Z :=
  store_send (slot mod RDMA_REPL_SEND_SLOTS)%nat (encode_ctrl (CtrlMsg RDMA_REPL_MAGIC type seq offset status));;
  post_send_slot slot CTRL_SIZE seq.

Definition post_rdma_writev_slot (total_length : Z) (remote_slot : nat) (seq : Z) : M conn Z :=
  if total_length <=? 0 then mret (-1) else
  count ← gets cn_slot_count;
  size ← gets cn_slot_size;
  if decide (count ≤ remote_slot)%nat then rdma_disconnect;; mret (-1) else
  if size <? total_length then rdma_disconnect;; mret (-1) else
  if RDMA_IMM_LEN_MASK <? total_length then rdma_disconnect;; mret (-1) else
  let send_slot := (remote_slot mod RDMA_REPL_SEND_SLOTS)%nat in
  set_ctx send_slot (WrCtx RDMA_WR_CTX_WRITE remote_slot seq);;
  post_work (WrWrite send_slot total_length remote_slot seq).
