(* ===== verification/FullSync.v ===== *)
(** * Full synchronisation of a replica (kvs_repli_master.c, kvs_repli_slave.c)

    The master cuts a snapshot into chunks, writes each into the slave's memory
    with RDMA, at most a window of them at a time, and notifies the slave; the
    slave checks every chunk, appends it to a temporary file, acknowledges, and
    commits and loads the file after the last one. Each side's handlers are
    definitions over its own state and its end of the connection; the network
    cards perform posted work, complete it and deliver completions in steps of
    their own, so that an execution is a sequence of events. *)

From S2P Require Import Prelude KvsArray KvsHash KvsSkiplist KvsRbtree Aof AofUring Server Rdb Rdma.

(** ** The master *)

(** master_slot_state_t *)
Record master_slot_state := MSlot {
  sl_in_use : bool; sl_write_done : bool; sl_acked : bool; sl_is_last : bool;
  sl_seq : Z; sl_offset : Z; sl_len : Z
}.

Definition mslot0 : master_slot_state := MSlot false false false false 0 0 0.

(** master_sync_state_t with the snapshot fields of its replica *)
Record master := Master {
  ms_next_seq    : Z;
  ms_next_offset : Z;
  ms_empty_sent  : bool;
  ms_done        : bool;              (* done_received *)
  ms_finishing   : bool;
  ms_slots       : list master_slot_state;
  ms_buf         : option bytes;      (* replica->rdb_buf *)
  ms_size        : Z;                 (* replica->rdb_size *)
  ms_rdb_offset  : Z;
  ms_rdb_seq     : Z;
  ms_state       : replica_state;
  ms_tcp         : bytes;             (* sent on replica->tcp_fd *)
  ms_conn        : conn
}.

Section master_setters.
Implicit Types (m : master).
Definition set_conn (c : conn) m :=
  Master (ms_next_seq m) (ms_next_offset m) (ms_empty_sent m) (ms_done m) (ms_finishing m) (ms_slots m)
    (ms_buf m) (ms_size m) (ms_rdb_offset m) (ms_rdb_seq m) (ms_state m) (ms_tcp m) c.
Definition set_slots (l : list master_slot_state) m :=
  Master (ms_next_seq m) (ms_next_offset m) (ms_empty_sent m) (ms_done m) (ms_finishing m) l
    (ms_buf m) (ms_size m) (ms_rdb_offset m) (ms_rdb_seq m) (ms_state m) (ms_tcp m) (ms_conn m).
Definition set_next (seq off : Z) (empty : bool) m :=
  Master seq off empty (ms_done m) (ms_finishing m) (ms_slots m)
    (ms_buf m) (ms_size m) (ms_rdb_offset m) (ms_rdb_seq m) (ms_state m) (ms_tcp m) (ms_conn m).
Definition set_progress (off seq : Z) (done : bool) m :=
  Master (ms_next_seq m) (ms_next_offset m) (ms_empty_sent m) done (ms_finishing m) (ms_slots m)
    (ms_buf m) (ms_size m) off seq (ms_state m) (ms_tcp m) (ms_conn m).
Definition set_finishing m :=
  Master (ms_next_seq m) (ms_next_offset m) (ms_empty_sent m) (ms_done m) true (ms_slots m)
    (ms_buf m) (ms_size m) (ms_rdb_offset m) (ms_rdb_seq m) (ms_state m) (ms_tcp m) (ms_conn m).
Definition set_finished (tcp : bytes) m :=
  Master (ms_next_seq m) (ms_next_offset m) (ms_empty_sent m) (ms_done m) (ms_finishing m) (ms_slots m)
    None 0 0 0 KVS_REPL_STATE_WAIT_FINSYNC tcp (ms_conn m).
End master_setters.

Definition on_mconn {A} (x : M conn A) : M master A := zoom ms_conn set_conn x.

Definition master_has_inflight_locked (m : master) : bool :=
  existsb sl_in_use (take RDMA_REPL_WINDOW (ms_slots m)).

Definition set_slot (i : nat) (x : master_slot_state) : M master unit :=
  modify (λ m, set_slots (<[i := x]> (ms_slots m)) m).

(** What the next chunk is: its length and whether it is the last; None when
    everything has been sent. *)
Definition next_chunk (m : master) (slot_size : Z) : option (Z * bool) :=
  if ms_size m =? 0 then
    if ms_empty_sent m then None else Some (0, true)
  else if ms_size m <=? ms_next_offset m then None else
    let remaining := ms_size m - ms_next_offset m in
    let max_payload := Z.min (slot_size - HEADER_SIZE) RDMA_REPL_CHUNK_SIZE in
    let to_send := if remaining <? max_payload then remaining else max_payload in
    Some (to_send, ms_size m <=? ms_next_offset m + to_send).

Definition master_send_one_locked : M master Z :=
  m ← gets id;
  match next_chunk m (cn_slot_size (ms_conn m)) with
  | None => mret 0
  | Some (to_send, is_last) =>
      let slot := Z.to_nat ((ms_next_seq m - 1) mod Z.of_nat (cn_slot_count (ms_conn m))) in
      if decide (RDMA_REPL_WINDOW ≤ slot)%nat then mret (-1) else
      match ms_slots m !! slot with
      | None => fail OutOfBounds
      | Some st =>
          if sl_in_use st then mret 0 else
          match ms_buf m, 0 <? to_send with
          | None, true => fail NullDeref          (* rdma_fnv1a64 reads the snapshot *)
          | buf, _ =>
              let data := take (Z.to_nat to_send) (drop (Z.to_nat (ms_next_offset m)) (default [] buf)) in
              let hdr := ChunkHeader RDMA_REPL_MAGIC RDMA_REPL_VERSION 0 (ms_next_seq m) (ms_next_offset m)
                           (ms_size m) (rdma_fnv1a64 data) to_send (if is_last then 1 else 0)
                           (Z.of_nat slot) HEADER_SIZE in
              on_mconn (store_send (slot mod RDMA_REPL_SEND_SLOTS)%nat (encode_header hdr ++ data));;
              set_slot slot (MSlot true false false is_last (ms_next_seq m) (ms_next_offset m) to_send);;
              r ← on_mconn (post_rdma_writev_slot (HEADER_SIZE + to_send) slot (ms_next_seq m));
              if negb (r =? 0) then set_slot slot mslot0;; mret (-1) else
              (if ms_size m =? 0
               then modify (set_next (ms_next_seq m + 1) (ms_next_offset m) true)
               else modify (set_next (ms_next_seq m + 1) (ms_next_offset m + to_send) (ms_empty_sent m)));;
              mret 1
          end
      end
  end.

(** The loop of master_pump_locked; each turn takes a slot of the window. *)
Fixpoint pump_loop (fuel : nat) (sent_any : Z) : M master Z :=
  done ← gets ms_done;
  if done : bool then mret sent_any else
  ret ← master_send_one_locked;
  if ret <? 0 then on_mconn rdma_disconnect;; mret (-1) else
  if ret =? 0 then mret sent_any else
  match fuel with
  | O => fail OutOfFuel
  | S fuel' => pump_loop fuel' 1
  end.

Definition master_pump_locked : M master Z := pump_loop RDMA_REPL_WINDOW 0.

Definition master_finish_fullsync : M master unit :=
  modify (λ m, set_finished (ms_tcp m ++ lit "+DONE" ++ crlf) m).

Definition master_should_finish_locked (m : master) : bool :=
  ms_done m && negb (ms_finishing m) && negb (master_has_inflight_locked m).

Definition release_slot (x : master_slot_state) : master_slot_state :=
  if sl_in_use x && sl_write_done x && sl_acked x then mslot0 else x.

Definition master_release_completed_slots_locked : M master unit :=
  modify (λ m, set_slots (release_slot <$> ms_slots m) m).

(** The common end of the two completion handlers. *)
Definition master_advance : M master unit :=
  master_release_completed_slots_locked;;
  master_pump_locked;;
  m ← gets id;
  if master_should_finish_locked m then modify set_finishing;; master_finish_fullsync else mret tt.

Definition on_master_write_complete (ctx : rdma_wr_ctx) (success : bool) : M master unit :=
  if negb success then on_mconn rdma_disconnect else
  if negb (bool_decide (x_type ctx = RDMA_WR_CTX_WRITE)) then mret tt else
  slots ← gets ms_slots;
  (match (if decide (x_slot ctx < RDMA_REPL_WINDOW)%nat then slots !! x_slot ctx else None) with
   | Some st =>
       if sl_in_use st && (sl_seq st =? x_seq ctx) then
         set_slot (x_slot ctx) (MSlot (sl_in_use st) true (sl_acked st) (sl_is_last st) (sl_seq st)
                                  (sl_offset st) (sl_len st));;
         r ← on_mconn (post_ctrl_slot (x_slot ctx) RDMA_CTRL_CHUNK (x_seq ctx) (Z.of_nat (x_slot ctx)) 0);
         if negb (r =? 0) then on_mconn rdma_disconnect else mret tt
       else mret tt
   | None => mret tt
   end);;
  master_advance.

(** Every chunk up to the acknowledged one is acknowledged. *)
Definition ack_slot (seq : Z) (x : master_slot_state) : master_slot_state :=
  if sl_in_use x && (sl_seq x <=? seq)
  then MSlot (sl_in_use x) (sl_write_done x) true (sl_is_last x) (sl_seq x) (sl_offset x) (sl_len x)
  else x.

Definition on_master_recv_complete (slot : nat) (success : bool) : M master unit :=
  if negb success then on_mconn rdma_disconnect else
  c ← gets ms_conn;
  b ← on_mconn (slot_mem (cn_ctrl c) (slot mod RDMA_REPL_CTRL_RECV_DEPTH)%nat);
  let ctrl := decode_ctrl b in
  r ← on_mconn (post_recv_slot slot);
  if negb (r =? 0) then mret tt else
  if negb (c_magic ctrl =? RDMA_REPL_MAGIC) then on_mconn rdma_disconnect else
  if c_type ctrl =? RDMA_CTRL_ERROR then on_mconn rdma_disconnect else
  if negb (c_type ctrl =? RDMA_CTRL_ACK) && negb (c_type ctrl =? RDMA_CTRL_DONE)
  then on_mconn rdma_disconnect else
  modify (λ m, set_slots (ack_slot (c_seq ctrl) <$> ms_slots m) m);;
  modify (λ m, set_progress (c_offset ctrl) (c_seq ctrl + 1)
                 (ms_done m || (c_type ctrl =? RDMA_CTRL_DONE)) m);;
  master_advance.

(** A completion is handled with its context as it is now. *)
Definition on_master_completion (w : wc) : M master unit :=
  match wc_ctx w with
  | OfRecv slot => on_master_recv_complete slot (wc_success w)
  | OfSend slot =>
      c ← gets ms_conn;
      match cn_send_ctx c !! slot with
      | None => fail OutOfBounds
      | Some ctx => on_master_write_complete ctx (wc_success w)
      end
  end.

(** master_start_fullsync after the snapshot has been taken: it is in [ms_buf]. *)
Definition master_start_fullsync : M master Z :=
  r ← on_mconn (post_recv_n RDMA_REPL_CTRL_RECV_DEPTH);
  if negb (r =? 0) then on_mconn rdma_disconnect;; mret (-1) else
  r ← master_pump_locked;
  if r <? 0 then mret (-1) else mret 0.

(** ** The slave *)

Section slave.
Context {V : Type} `{VectorOps V}.

(** slave_rdb_state_t, the temporary file, the server that loads the snapshot *)
Record slave := Slave {
  sv_fd         : bool;              (* rdb_fd >= 0 *)
  sv_tmp        : option bytes;      (* the temporary file, if it exists *)
  sv_offset     : Z;                 (* rdb_offset *)
  sv_next_seq   : Z;
  sv_last_acked : Z;
  sv_done_posted : bool;
  sv_done_seq   : Z;
  sv_server     : server V;
  sv_conn       : conn
}.

Definition with_conn (c : conn) (s : slave) :=
  Slave (sv_fd s) (sv_tmp s) (sv_offset s) (sv_next_seq s) (sv_last_acked s) (sv_done_posted s)
    (sv_done_seq s) (sv_server s) c.
Definition with_server (x : server V) (s : slave) :=
  Slave (sv_fd s) (sv_tmp s) (sv_offset s) (sv_next_seq s) (sv_last_acked s) (sv_done_posted s)
    (sv_done_seq s) x (sv_conn s).
Definition with_file (fd : bool) (tmp : option bytes) (s : slave) :=
  Slave fd tmp (sv_offset s) (sv_next_seq s) (sv_last_acked s) (sv_done_posted s)
    (sv_done_seq s) (sv_server s) (sv_conn s).
Definition with_seqs (off next acked : Z) (s : slave) :=
  Slave (sv_fd s) (sv_tmp s) off next acked (sv_done_posted s) (sv_done_seq s) (sv_server s) (sv_conn s).
Definition with_done (seq : Z) (s : slave) :=
  Slave (sv_fd s) (sv_tmp s) (sv_offset s) (sv_next_seq s) (sv_last_acked s) true seq (sv_server s) (sv_conn s).

Definition on_sconn {A} (x : M conn A) : M slave A := zoom sv_conn with_conn x.
Definition on_server {A} (x : M (server V) A) : M slave A := zoom sv_server with_server x.

Definition open_slave_rdb : M slave Z :=
  fd ← gets sv_fd;
  if fd : bool then mret 0 else
  ok ← ask_sys;
  if ok : bool then modify (with_file true (Some []));; mret 0 else mret (-1).

Definition close_slave_rdb : M slave unit := modify (λ s, with_file false (sv_tmp s) s).

(** write () may take fewer bytes than it is given. *)
Fixpoint write_full (fuel : nat) (data : bytes) : M slave Z :=
  match data with
  | [] => mret 0
  | _ =>
      n ← ask_send;
      match n with
      | None | Some O => mret (-1)
      | Some n =>
          modify (λ s, with_file (sv_fd s) (Some (default [] (sv_tmp s) ++ take n data)) s);;
          match fuel with
          | O => fail OutOfFuel
          | S fuel' => write_full fuel' (drop n data)
          end
      end
  end.

Definition commit_slave_rdb (total_size : Z) : M slave Z :=
  fd ← gets sv_fd;
  synced ← (if fd : bool then ask_sys else mret true);
  if negb synced then close_slave_rdb;; mret (-1) else
  close_slave_rdb;;
  if total_size =? 0 then
    modify (λ s, with_server (put_rdb None (sv_server s)) (with_file (sv_fd s) None s));; mret 0
  else
    tmp ← gets sv_tmp;
    ok ← ask_sys;
    match tmp, ok with
    | Some f, true =>
        modify (λ s, with_server (put_rdb (Some f) (sv_server s)) (with_file (sv_fd s) None s));; mret 0
    | _, _ => mret (-1)
    end.

Definition load_received_rdb (total_size : Z) : M (server V) Z :=
  if total_size =? 0 then kvs_reset_data_engines else rdb_load_files.

Definition ctrl_slot (seq : Z) : nat := Z.to_nat (seq mod Z.of_nat RDMA_REPL_SEND_SLOTS).

Definition slave_post_ack (seq offset : Z) : M slave Z :=
  r ← on_sconn (post_ctrl_slot (ctrl_slot seq) RDMA_CTRL_ACK seq offset 0);
  if negb (r =? 0) then mret (-1) else
  modify (λ s, with_seqs (sv_offset s) (sv_next_seq s) seq s);;
  mret 0.

Definition slave_post_error (seq status : Z) : M slave Z :=
  offset ← gets sv_offset;
  on_sconn (post_ctrl_slot (ctrl_slot seq) RDMA_CTRL_ERROR seq offset status);;
  mret (-1).

(** The last chunk: commit, load, report. *)
Definition finish_chunk (hdr : rdma_chunk_header) : M slave Z :=
  r ← commit_slave_rdb (h_total_size hdr);
  if negb (r =? 0) then slave_post_error (h_seq hdr) 110 else
  r ← on_server (load_received_rdb (h_total_size hdr));
  if negb (r =? 0) then slave_post_error (h_seq hdr) 111 else
  offset ← gets sv_offset;
  r ← on_sconn (post_ctrl_slot (ctrl_slot (h_seq hdr)) RDMA_CTRL_DONE (h_seq hdr) offset 0);
  if negb (r =? 0) then mret (-1) else
  modify (with_done (h_seq hdr));;
  mret 0.

(** The payload of a chunk goes to the temporary file; 0 or the status of the
    error. *)
Definition store_chunk (hdr : rdma_chunk_header) (payload : bytes) : M slave Z :=
  if negb (0 <? h_len hdr) then mret 0 else
  if negb (rdma_fnv1a64 payload =? h_checksum hdr) then mret 107 else
  r ← open_slave_rdb;
  if negb (r =? 0) then mret 108 else
  r ← write_full (length payload) payload;
  if negb (r =? 0) then mret 109 else mret 0.

Definition process_rdma_chunk (data_slot : nat) : M slave Z :=
  s ← gets id;
  if decide (cn_slot_count (sv_conn s) ≤ data_slot)%nat then slave_post_error (sv_next_seq s) 100 else
  b ← on_sconn (slot_mem (cn_data (sv_conn s)) data_slot);
  let hdr := decode_header b in
  if negb ((h_magic hdr =? RDMA_REPL_MAGIC) && (h_version hdr =? RDMA_REPL_VERSION))
  then slave_post_error (sv_next_seq s) 101 else
  if negb (h_header_len hdr =? HEADER_SIZE) then slave_post_error (h_seq hdr) 102 else
  if negb (h_slot_id hdr =? Z.of_nat data_slot) then slave_post_error (h_seq hdr) 103 else
  if negb (h_seq hdr =? sv_next_seq s) then slave_post_error (h_seq hdr) 104 else
  if cn_slot_size (sv_conn s) - HEADER_SIZE <? h_len hdr then slave_post_error (h_seq hdr) 105 else
  if negb (u64 (sv_offset s) =? h_offset hdr) then slave_post_error (h_seq hdr) 106 else
  status ← store_chunk hdr (payload_of b (h_len hdr));
  if negb (status =? 0) then slave_post_error (h_seq hdr) status else
  modify (λ s, with_seqs (sv_offset s + h_len hdr) (sv_next_seq s) (sv_last_acked s) s);;
  if negb (h_is_last hdr =? 0) then finish_chunk hdr else
  modify (λ s, with_seqs (sv_offset s) (sv_next_seq s + 1) (sv_last_acked s) s);;
  s ← gets id;
  if RDMA_REPL_ACK_EVERY <=? u64 (h_seq hdr - sv_last_acked s) then
    r ← slave_post_ack (h_seq hdr) (sv_offset s);
    if negb (r =? 0) then mret (-1) else mret 0
  else mret 0.

(** rdma_mark_failed (conn); rdma_disconnect (conn->cm_id); *)
Definition slave_fails : M slave unit := on_sconn rdma_mark_failed;; on_sconn rdma_disconnect.

Definition on_rdma_recv_complete (w : wc) : M slave unit :=
  if negb (wc_success w) then slave_fails else
  s ← gets id;
  match wc_ctx w with
  | OfSend slot =>
      match cn_send_ctx (sv_conn s) !! slot with
      | None => fail OutOfBounds
      | Some ctx =>
          if sv_done_posted s && (x_seq ctx =? sv_done_seq s) then on_sconn rdma_mark_done else mret tt
      end
  | OfRecv slot =>
      b ← on_sconn (slot_mem (cn_ctrl (sv_conn s)) (slot mod RDMA_REPL_CTRL_RECV_DEPTH)%nat);
      let ctrl := decode_ctrl b in
      if negb ((c_magic ctrl =? RDMA_REPL_MAGIC) && (c_type ctrl =? RDMA_CTRL_CHUNK)) then slave_fails else
      r ← process_rdma_chunk (Z.to_nat (u32 (c_offset ctrl)));
      if negb (r =? 0) then slave_fails else
      s ← gets id;
      if sv_done_posted s then mret tt else
      r ← on_sconn (post_recv_slot slot);
      if negb (r =? 0) then on_sconn rdma_mark_failed else mret tt
  end.

(** ** The two ends together *)

Record sync := Sync { sy_master : master; sy_slave : slave }.

Definition at_master {A} (x : M master A) : M sync A := zoom sy_master (λ m s, Sync m (sy_slave s)) x.
Definition at_slave {A} (x : M slave A) : M sync A := zoom sy_slave (λ x s, Sync (sy_master s) x) x.

(** What the network card of [a] does with a posted work request: the bytes in
    the send slot now are written to the data slot of [b], or received into the
    oldest posted receive slot of [b]. Without one the send fails. *)
Definition perform_wr (w : wr) (a b : conn) : conn * conn :=
  match w with
  | WrWrite slot len remote _ =>
      let d := take (Z.to_nat len) (default [] (cn_send a !! slot)) in
      (set_queues (tail (cn_posted a)) (cn_performed a ++ [w]) (cn_cq a) a,
       set_data (alter (λ old, memcpy_at old 0 d) remote (cn_data b)) b)
  | WrSend slot len =>
      let d := take (Z.to_nat len) (default [] (cn_send a !! slot)) in
      match cn_recvs b with
      | [] => (set_queues (tail (cn_posted a)) (cn_performed a) (cn_cq a ++ [Wc false (OfSend slot)]) a, b)
      | r :: rs =>
          (set_queues (tail (cn_posted a)) (cn_performed a ++ [w]) (cn_cq a) a,
           set_queues (cn_posted b) (cn_performed b) (cn_cq b ++ [Wc true (OfRecv r)])
             (set_ctrl (alter (λ old, memcpy_at old 0 d) r (cn_ctrl b)) rs b))
      end
  end.

(** The oldest performed request of an end completes. *)
Definition complete_wr (a : conn) : conn :=
  match cn_performed a with
  | [] => a
  | w :: ws => set_queues (cn_posted a) ws (cn_cq a ++ [Wc true (OfSend (wr_slot w))]) a
  end.

Inductive event :=
| MasterPerform | MasterComplete | MasterHandle
| SlavePerform | SlaveComplete | SlaveHandle.

Definition link_up (s : sync) : bool := cn_up (ms_conn (sy_master s)) && cn_up (sv_conn (sy_slave s)).

Definition sync_step (e : event) : M sync unit :=
  s ← gets id;
  let a := ms_conn (sy_master s) in
  let b := sv_conn (sy_slave s) in
  match e with
  | MasterPerform =>
      match cn_posted a with
      | w :: _ =>
          if link_up s then
            modify (λ s, Sync (set_conn (perform_wr w a b).1 (sy_master s)) (with_conn (perform_wr w a b).2 (sy_slave s)))
          else mret tt
      | [] => mret tt
      end
  | SlavePerform =>
      match cn_posted b with
      | w :: _ =>
          if link_up s then
            modify (λ s, Sync (set_conn (perform_wr w b a).2 (sy_master s)) (with_conn (perform_wr w b a).1 (sy_slave s)))
          else mret tt
      | [] => mret tt
      end
  | MasterComplete => modify (λ s, Sync (set_conn (complete_wr a) (sy_master s)) (sy_slave s))
  | SlaveComplete => modify (λ s, Sync (sy_master s) (with_conn (complete_wr b) (sy_slave s)))
  | MasterHandle =>
      match cn_cq a with
      | w :: q => at_master (on_mconn (modify (λ c, set_queues (cn_posted c) (cn_performed c) q c));; on_master_completion w)
      | [] => mret tt
      end
  | SlaveHandle =>
      match cn_cq b with
      | w :: q => at_slave (on_sconn (modify (λ c, set_queues (cn_posted c) (cn_performed c) q c));; on_rdma_recv_complete w)
      | [] => mret tt
      end
  end.

Fixpoint sync_run (es : list event) : M sync unit :=
  match es with
  | [] => mret tt
  | e :: es' => sync_step e;; sync_run es'
  end.

(** The ends as initialize_connection leaves them; the slave has posted its
    receives, the master holds the snapshot. *)
Definition conn0 (slot_size : Z) (slot_count : nat) : conn :=
  Conn (replicate RDMA_REPL_SEND_SLOTS []) (replicate slot_count []) (replicate RDMA_REPL_CTRL_RECV_DEPTH [])
    (replicate RDMA_REPL_SEND_SLOTS (WrCtx RDMA_WR_CTX_RECV 0 0)) slot_size slot_count [] [] [] [] true false false.

Definition master0 (snap : bytes) (c : conn) : master :=
  Master 1 0 false false false (replicate RDMA_REPL_WINDOW mslot0) (Some snap) (strlen snap) 0 1
    KVS_REPL_STATE_WAIT_RDMA [] c.

(** master_prepare_snapshot and master_sync_state_new: the snapshot of the
    master's engines and a fresh synchronisation state for it. *)
Definition master_prepare_snapshot (c : conn) : M (server V) (option master) :=
  b ← rdb_save_to_memory;
  match b with
  | None => mret None
  | Some b =>
      ok ← kvs_malloc;
      if negb ok then mret None else mret (Some (master0 b c))
  end.

Definition slave0 (x : server V) (c : conn) : slave := Slave false None 0 1 0 false 0 x c.

Definition start_slave : M slave Z := on_sconn (post_recv_n RDMA_REPL_WINDOW).

(** A whole synchronisation: the slave connects, the master starts, and the
    events of a schedule follow. *)
Definition full_sync (es : list event) : M sync unit :=
  at_slave start_slave;; at_master master_start_fullsync;; sync_run es.
End slave.
Arguments slave V : clear implicits.
Arguments sync V : clear implicits.
