(* ===== verification/FullSyncSpec.v ===== *)
(** * A full synchronisation delivers the snapshot (kvs_repli_master.c, kvs_repli_slave.c)

    For every schedule of the two network cards and the two completion threads:
    the slave's file is at all times a prefix of the master's snapshot, it is
    committed and loaded only when it is the whole snapshot, and the master
    reports the end of the synchronisation only after that. *)

From S2P Require Import Prelude KvSpec KvsArray KvsHash KvsSkiplist KvsRbtree RbtreeProps Aof AofUring AofUringSpec Server Boot Rdb Rdma FullSync.

(** ** The wire format *)

Lemma field_skip a b off n :
  (length a ≤ off)%nat → field (a ++ b) off n = field b (off - length a) n.
Proof. intros Ha. unfold field. by rewrite drop_app_ge. Qed.

Lemma field_here (n : nat) z k :
  0 ≤ z < 2 ^ (8 * Z.of_nat n) → field (le_encode n z ++ k) 0 n = z.
Proof.
  intros Hz. unfold field. rewrite drop_0, take_app_length' by (by rewrite le_encode_length).
  rewrite le_decode_encode. by apply Z.mod_small.
Qed.

(** Reads the fields of an encoding, one after the other. *)
Ltac read_fields :=
  repeat (rewrite field_skip by (rewrite le_encode_length; lia); rewrite le_encode_length; cbn [Nat.sub]);
  rewrite field_here by (cbn; lia).

Record header_fits (h : rdma_chunk_header) : Prop := {
  hf_magic : 0 ≤ h_magic h < 2 ^ 32; hf_version : 0 ≤ h_version h < 2 ^ 16;
  hf_flags : 0 ≤ h_flags h < 2 ^ 16; hf_seq : 0 ≤ h_seq h < 2 ^ 64;
  hf_offset : 0 ≤ h_offset h < 2 ^ 64; hf_total : 0 ≤ h_total_size h < 2 ^ 64;
  hf_sum : 0 ≤ h_checksum h < 2 ^ 64; hf_len : 0 ≤ h_len h < 2 ^ 32;
  hf_last : 0 ≤ h_is_last h < 2 ^ 32; hf_slot : 0 ≤ h_slot_id h < 2 ^ 32;
  hf_hlen : 0 ≤ h_header_len h < 2 ^ 32
}.

Lemma decode_encode_header h k : header_fits h → decode_header (encode_header h ++ k) = h.
Proof.
  intros [H1 H2 H3 H4 H5 H6 H7 H8 H9 H10 H11]. destruct h as [a b c d e f g i j l m]. cbn in *.
  unfold decode_header, encode_header. cbn [h_magic h_version h_flags h_seq h_offset h_total_size h_checksum
    h_len h_is_last h_slot_id h_header_len]. rewrite <-!app_assoc.
  f_equal; by read_fields.
Qed.

Lemma encode_header_length h : length (encode_header h) = 56%nat.
Proof. unfold encode_header. by rewrite !length_app, !le_encode_length. Qed.

Lemma payload_encoded h d k : payload_of (encode_header h ++ d ++ k) (strlen d) = d.
Proof.
  unfold payload_of, strlen. rewrite Nat2Z.id.
  rewrite drop_app_length' by (by rewrite encode_header_length). by rewrite take_app_length.
Qed.

Record ctrl_fits (c : rdma_ctrl_msg) : Prop := {
  cf_magic : 0 ≤ c_magic c < 2 ^ 32; cf_type : 0 ≤ c_type c < 2 ^ 32; cf_seq : 0 ≤ c_seq c < 2 ^ 64;
  cf_offset : 0 ≤ c_offset c < 2 ^ 64; cf_status : 0 ≤ c_status c < 2 ^ 32
}.

Lemma decode_encode_ctrl c k : ctrl_fits c → decode_ctrl (encode_ctrl c ++ k) = c.
Proof.
  intros [H1 H2 H3 H4 H5]. destruct c as [a b d e f]. cbn in *.
  unfold decode_ctrl, encode_ctrl. cbn [c_magic c_type c_seq c_offset c_status]. rewrite <-!app_assoc.
  f_equal; by read_fields.
Qed.

Lemma encode_ctrl_length c : length (encode_ctrl c) = 32%nat.
Proof. unfold encode_ctrl. by rewrite !length_app, !le_encode_length. Qed.

Lemma fnv_range h data : 0 ≤ h < 2 ^ 64 → 0 ≤ rdma_fnv1a64_update h data < 2 ^ 64.
Proof.
  revert h. induction data as [|c data IH]; intros h Hh; cbn [rdma_fnv1a64_update]; [done|].
  apply IH. unfold u64. apply Z.mod_pos_bound. lia.
Qed.

(** Computes the fields of updated states. *)
Ltac m_simpl := cbn [ms_next_seq ms_next_offset ms_empty_sent ms_done ms_finishing ms_slots ms_buf ms_size
  ms_rdb_offset ms_rdb_seq ms_state ms_tcp ms_conn set_conn set_slots set_next set_progress set_finishing set_finished
  cn_send cn_data cn_ctrl cn_send_ctx cn_slot_size cn_slot_count cn_posted cn_performed cn_recvs cn_cq cn_up cn_done
  cn_failed set_send set_data set_ctrl set_queues set_flags].

(** ** Posting *)

Lemma wp_on_mconn {A} (x : M conn A) Q E m t :
  wp x (λ a c t', Q a (set_conn c m) t') E (ms_conn m) t → wp (on_mconn x) Q E m t.
Proof. apply wp_zoom. Qed.

Lemma set_conn_id m : set_conn (ms_conn m) m = m.
Proof. by destruct m. Qed.

Lemma with_conn_id {V} (s : slave V) : with_conn (sv_conn s) s = s.
Proof. by destruct s. Qed.

Lemma wp_slot_mem l i b Q E (c : conn) t : l !! i = Some b → Q b c t → wp (slot_mem l i) Q E c t.
Proof. intros Hb HQ. unfold slot_mem. rewrite Hb. by wp_steps. Qed.

Lemma wp_store_send slot data b (Q : unit → conn → nat → Prop) E c t :
  cn_send c !! slot = Some b → strlen data ≤ RDMA_REPL_SLOT_SIZE →
  Q tt (set_send (<[slot := memcpy_at b 0 data]> (cn_send c)) (cn_send_ctx c) c) t →
  wp (store_send slot data) Q E c t.
Proof.
  intros Hb Hd HQ. unfold store_send. wp_steps. eapply wp_slot_mem; [done|].
  rewrite (proj2 (Z.ltb_ge _ _)) by lia. by wp_steps.
Qed.

Lemma wp_post_work w (Q : Z → conn → nat → Prop) E c t :
  (∀ t, Q 0 (set_queues (cn_posted c ++ [w]) (cn_performed c) (cn_cq c) c) t) →
  (∀ t, Q (-1) (set_flags false (cn_done c) (cn_failed c) c) t) →
  wp (post_work w) Q E c t.
Proof.
  intros H1 H2. unfold post_work, rdma_disconnect. wp_steps. destruct (sys_ok E t); wp_steps; [apply H1|apply H2].
Qed.

Lemma wp_post_recv slot (Q : Z → conn → nat → Prop) E c t :
  (∀ t, (RDMA_REPL_CTRL_RECV_DEPTH ≤ slot)%nat → Q (-1) c t) →
  (∀ t f, (slot < RDMA_REPL_CTRL_RECV_DEPTH)%nat →
     let c1 := set_ctrl (<[slot := []]> (cn_ctrl c)) (cn_recvs c) c in
     if f : bool then Q 0 (set_ctrl (cn_ctrl c1) (cn_recvs c1 ++ [slot]) c1) t
     else Q (-1) (set_flags false (cn_done c1) (cn_failed c1) c1) t) →
  wp (post_recv_slot slot) Q E c t.
Proof.
  intros H1 H2. unfold post_recv_slot, rdma_disconnect.
  destruct (decide (RDMA_REPL_CTRL_RECV_DEPTH ≤ slot)%nat) as [Hge|Hlt]; wp_steps; [by apply H1|].
  destruct (sys_ok E t); wp_steps; [apply (H2 _ true); lia|apply (H2 _ false); lia].
Qed.

(** A control message is put in its slot and sent. *)
Lemma wp_post_ctrl slot type seq off status b (Q : Z → conn → nat → Prop) E c t :
  cn_send c !! (slot mod RDMA_REPL_SEND_SLOTS)%nat = Some b →
  (∀ t f, let s := (slot mod RDMA_REPL_SEND_SLOTS)%nat in
     let c1 := set_send (<[s := memcpy_at b 0 (encode_ctrl (CtrlMsg RDMA_REPL_MAGIC type seq off status))]> (cn_send c))
                 (<[s := WrCtx RDMA_WR_CTX_SEND s seq]> (cn_send_ctx c)) c in
     if f : bool then Q 0 (set_queues (cn_posted c ++ [WrSend s CTRL_SIZE]) (cn_performed c) (cn_cq c) c1) t
     else Q (-1) (set_flags false (cn_done c) (cn_failed c) c1) t) →
  wp (post_ctrl_slot slot type seq off status) Q E c t.
Proof.
  intros Hb HQ. unfold post_ctrl_slot, post_send_slot, set_ctx. wp_step.
  eapply wp_store_send; [done|unfold strlen; by rewrite encode_ctrl_length|].
  cbn [Z.leb Z.ltb CTRL_SIZE RDMA_REPL_SLOT_SIZE Z.compare Pos.compare Pos.compare_cont]. wp_step. wp_step. m_simpl.
  apply wp_post_work; intros t'; [apply (HQ t' true)|apply (HQ t' false)].
Qed.

(** ** The chunks of a snapshot *)

Section geometry.
Context (snap : bytes) (slot_size : Z) (count : nat).
Context (Hslot : HEADER_SIZE < slot_size) (Hcount : (0 < count ≤ RDMA_REPL_WINDOW)%nat)
        (Hsize : strlen snap < 2 ^ 63).

(** The most a chunk carries. *)
Definition room : Z := Z.min (slot_size - HEADER_SIZE) RDMA_REPL_CHUNK_SIZE.

(** Chunk [q], from 1 on: its offset, length, whether it is the last, its slot. *)
Definition chunk_off (q : Z) : Z := (q - 1) * room.
Definition chunk_len (q : Z) : Z := Z.min room (strlen snap - chunk_off q).
Definition chunk_last (q : Z) : bool := strlen snap <=? chunk_off q + chunk_len q.
Definition chunk_slot (q : Z) : nat := Z.to_nat ((q - 1) mod Z.of_nat count).
Definition chunk_data (q : Z) : bytes := take (Z.to_nat (chunk_len q)) (drop (Z.to_nat (chunk_off q)) snap).

Definition chunk_header (q : Z) : rdma_chunk_header :=
  ChunkHeader RDMA_REPL_MAGIC RDMA_REPL_VERSION 0 q (chunk_off q) (strlen snap)
    (rdma_fnv1a64 (chunk_data q)) (chunk_len q) (if chunk_last q then 1 else 0)
    (Z.of_nat (chunk_slot q)) HEADER_SIZE.

Definition chunk_bytes (q : Z) : bytes := encode_header (chunk_header q) ++ chunk_data q.

(** The snapshot has a chunk [q]; an empty one has one empty chunk. *)
Definition chunk (q : Z) : Prop := q = 1 ∨ (1 < q ∧ chunk_off q < strlen snap).

Lemma room_pos : 0 < room ≤ RDMA_REPL_CHUNK_SIZE.
Proof. unfold room, RDMA_REPL_CHUNK_SIZE, RDMA_REPL_SLOT_SIZE, HEADER_SIZE in *. lia. Qed.

Lemma chunk_bounds q : chunk q →
  0 ≤ chunk_off q ≤ strlen snap ∧ 0 ≤ chunk_len q ≤ room ∧ chunk_off q + chunk_len q ≤ strlen snap ∧ 1 ≤ q < 2 ^ 64.
Proof.
  pose proof room_pos as Hr. pose proof (strlen_nonneg snap) as Hs. intros [->|[Hq Ho]]; unfold chunk_len, chunk_off in *.
  - lia.
  - assert (q - 1 ≤ (q - 1) * room) by nia. lia.
Qed.

Lemma chunk_next q : chunk q → chunk_last q = false → chunk (q + 1) ∧ chunk_off q + chunk_len q = chunk_off (q + 1).
Proof.
  pose proof room_pos as Hr. intros Hq Hl. pose proof (chunk_bounds q Hq) as Hb.
  unfold chunk_last in Hl. to_prop. unfold chunk, chunk_len, chunk_off in *.
  replace (q + 1 - 1) with q by lia. split; [|nia]. right. split; [lia|]. nia.
Qed.

Lemma chunk_end q : chunk q → chunk_last q = true → chunk_off q + chunk_len q = strlen snap.
Proof. intros Hq Hl. pose proof (chunk_bounds q Hq). unfold chunk_last in Hl. to_prop. lia. Qed.

Lemma chunk_nonempty q : chunk q → 0 < strlen snap → chunk_off q < strlen snap ∧ 0 < chunk_len q.
Proof.
  pose proof room_pos as Hr. intros [->|[Hq Ho]] Hs; unfold chunk_len, chunk_off in *; lia.
Qed.

Lemma chunk_empty q : chunk q → strlen snap = 0 → q = 1.
Proof.
  pose proof room_pos as Hr. intros [->|[Hq Ho]] Hs; [done|]. unfold chunk_off in Ho. nia.
Qed.

Lemma chunk_data_length q : chunk q → strlen (chunk_data q) = chunk_len q.
Proof.
  intros Hq. pose proof (chunk_bounds q Hq). unfold chunk_data, strlen in *.
  rewrite length_take, length_drop. lia.
Qed.

Lemma chunk_bytes_length q : chunk q → strlen (chunk_bytes q) = HEADER_SIZE + chunk_len q.
Proof.
  intros Hq. pose proof (chunk_data_length q Hq) as Hl. unfold chunk_bytes, strlen, HEADER_SIZE in *.
  rewrite length_app, encode_header_length. lia.
Qed.

Lemma chunk_slot_lt q : (chunk_slot q < count)%nat.
Proof. unfold chunk_slot. pose proof (Z.mod_pos_bound (q - 1) (Z.of_nat count) ltac:(lia)). lia. Qed.

Lemma chunk_slot_window q : (chunk_slot q < RDMA_REPL_WINDOW)%nat.
Proof. pose proof (chunk_slot_lt q). lia. Qed.

Lemma chunk_slot_mod q : (chunk_slot q mod RDMA_REPL_SEND_SLOTS)%nat = chunk_slot q.
Proof. apply Nat.mod_small. apply chunk_slot_window. Qed.

Lemma chunk_header_fits q : chunk q → header_fits (chunk_header q).
Proof.
  intros Hq. pose proof (chunk_bounds q Hq) as Hb. pose proof room_pos as Hr.
  pose proof (chunk_slot_window q) as Hw. pose proof (strlen_nonneg snap) as Hs.
  unfold RDMA_REPL_CHUNK_SIZE, RDMA_REPL_SLOT_SIZE, HEADER_SIZE, RDMA_REPL_WINDOW in *.
  split; unfold chunk_header, RDMA_REPL_MAGIC, RDMA_REPL_VERSION, HEADER_SIZE;
    cbn [h_magic h_version h_flags h_seq h_offset h_total_size h_checksum h_len h_is_last h_slot_id h_header_len];
    try lia.
  - unfold rdma_fnv1a64. apply fnv_range. lia.
  - destruct (chunk_last q); lia.
Qed.

(** What the slave reads when a slot holds chunk [q]. *)
Lemma chunk_decode q b :
  chunk q → chunk_bytes q `prefix_of` b →
  decode_header b = chunk_header q ∧ payload_of b (chunk_len q) = chunk_data q.
Proof.
  intros Hq [k ->]. unfold chunk_bytes. rewrite <-app_assoc. split.
  - apply decode_encode_header. by apply chunk_header_fits.
  - rewrite <-(chunk_data_length q Hq). apply payload_encoded.
Qed.

(** Appending chunk [q] to what precedes it. *)
Lemma chunk_append q :
  chunk q → take (Z.to_nat (chunk_off q)) snap ++ chunk_data q = take (Z.to_nat (chunk_off q + chunk_len q)) snap.
Proof.
  intros Hq. pose proof (chunk_bounds q Hq). unfold chunk_data.
  rewrite Z2Nat.inj_add by lia. apply take_take_drop.
Qed.

(** ** The master's invariant *)

(** The sequence numbers of the writes among posted work. *)
Definition writes (l : list wr) : list Z := omap (λ w, match w with WrWrite _ _ _ q => Some q | _ => None end) l.

(** A version a slave accepts belongs to a chunk of the snapshot. *)
Definition versioned (b : bytes) : Prop := field b 4 2 = RDMA_REPL_VERSION.

(** What the queues refer to exists. *)
Record conn_ok (c : conn) : Prop := {
  co_send  : length (cn_send c) = RDMA_REPL_SEND_SLOTS;
  co_ctrl  : length (cn_ctrl c) = RDMA_REPL_CTRL_RECV_DEPTH;
  co_ctx   : length (cn_send_ctx c) = RDMA_REPL_SEND_SLOTS;
  co_perf  : ∀ w, w ∈ cn_posted c ++ cn_performed c → (wr_slot w < RDMA_REPL_SEND_SLOTS)%nat;
  co_recvs : ∀ r, r ∈ cn_recvs c → (r < RDMA_REPL_CTRL_RECV_DEPTH)%nat;
  co_cq    : ∀ w, w ∈ cn_cq c →
               match wc_ctx w with
               | OfRecv r => (r < RDMA_REPL_CTRL_RECV_DEPTH)%nat
               | OfSend r => (r < RDMA_REPL_SEND_SLOTS)%nat
               end
}.

(** A control message of the slave, against the chunks [acc] it has accepted and
    whether it has committed and loaded the snapshot. *)
Definition ctrl_ok (acc : Z → Prop) (done : Prop) (c : rdma_ctrl_msg) : Prop :=
  (c_type c = RDMA_CTRL_ACK → ∀ q, q ≤ c_seq c → chunk q → acc q) ∧
  (c_type c = RDMA_CTRL_DONE → done ∧ ∀ q, chunk q → acc q).

(** The position of the master in the snapshot. *)
Definition at_chunk (m : master) : Prop :=
  ms_size m = strlen snap ∧ ms_buf m = Some snap ∧
  ((chunk (ms_next_seq m) ∧ ms_empty_sent m = false ∧ ms_next_offset m = chunk_off (ms_next_seq m)) ∨
   (chunk (ms_next_seq m - 1) ∧ chunk_last (ms_next_seq m - 1) = true ∧ ms_next_offset m = strlen snap ∧
    (strlen snap = 0 → ms_empty_sent m = true))).

Record minv (acc : Z → Prop) (done : Prop) (m : master) : Prop := {
  mi_conn  : conn_ok (ms_conn m);
  mi_size  : cn_slot_size (ms_conn m) = slot_size;
  mi_count : cn_slot_count (ms_conn m) = count;
  mi_seq   : 1 ≤ ms_next_seq m;
  mi_at    : ms_done m = true ∨ at_chunk m;
  mi_window : length (ms_slots m) = RDMA_REPL_WINDOW;
  mi_slots : ∀ i st, ms_slots m !! i = Some st → sl_in_use st = true →
               chunk (sl_seq st) ∧ sl_seq st < ms_next_seq m ∧ i = chunk_slot (sl_seq st) ∧
               (sl_acked st = true → acc (sl_seq st));
  mi_writes : ∀ s len r q, WrWrite s len r q ∈ cn_posted (ms_conn m) →
               chunk q ∧ q < ms_next_seq m ∧ ¬ acc q ∧ s = chunk_slot q ∧ r = chunk_slot q ∧
               len = HEADER_SIZE + chunk_len q ∧
               (∃ b, cn_send (ms_conn m) !! s = Some b ∧ (56 ≤ length b)%nat ∧ (versioned b → chunk_bytes q `prefix_of` b)) ∧
               (∃ st, ms_slots m !! r = Some st ∧ sl_in_use st = true ∧ sl_seq st = q);
  mi_nodup : NoDup (writes (cn_posted (ms_conn m)));
  mi_ctrl  : ∀ b, b ∈ cn_ctrl (ms_conn m) → ctrl_ok acc done (decode_ctrl b);
  mi_acc   : ∀ q, acc q → q < ms_next_seq m;
  mi_done  : ms_done m = true → done;
  mi_state : ms_state m = KVS_REPL_STATE_WAIT_FINSYNC → ms_done m = true
}.

(** What the master's handlers do to the slave's view: new chunks only. *)
Record later (m m' : master) : Prop := {
  l_seq    : ms_next_seq m ≤ ms_next_seq m';
  l_writes : ∀ q, q < ms_next_seq m → q ∉ writes (cn_posted (ms_conn m)) → q ∉ writes (cn_posted (ms_conn m'))
}.

#[local] Instance later_po : PreOrder later.
Proof. split; [by intros m|]. intros a b c [H1 H2] [H3 H4]. split; [lia|]. intros q Hq Hn. apply H4; [lia|]. by apply H2. Qed.

(** ** The master's handlers *)

Lemma next_chunk_spec m :
  at_chunk m →
  (chunk (ms_next_seq m) ∧ ms_next_offset m = chunk_off (ms_next_seq m) ∧
   next_chunk m slot_size = Some (chunk_len (ms_next_seq m), chunk_last (ms_next_seq m))) ∨
  next_chunk m slot_size = None.
Proof.
  intros (Hsz & _ & Hat). unfold next_chunk. fold room. rewrite Hsz. pose proof (strlen_nonneg snap) as Hnn.
  destruct Hat as [(Hc & -> & Ho)|(Hc & Hl & Ho & He)]; rewrite Ho.
  - left. split; [done|]. split; [done|]. destruct (strlen snap =? 0) eqn:Hz; to_prop.
    + rewrite (chunk_empty _ Hc Hz). unfold chunk_last, chunk_len, chunk_off. pose proof room_pos.
      rewrite Hz. replace (Z.min room _) with 0 by lia. done.
    + destruct (chunk_nonempty _ Hc ltac:(lia)) as [H1 H2].
      replace (strlen snap <=? chunk_off (ms_next_seq m)) with false by lia.
      unfold chunk_last, chunk_len. do 2 f_equal.
      * destruct (_ <? room) eqn:E; to_prop; lia.
      * destruct (_ <? room) eqn:E; to_prop; [|f_equal; lia].
        rewrite Z.min_r by lia. done.
  - right. destruct (strlen snap =? 0) eqn:Hz; to_prop; [by rewrite He|].
    by rewrite Z.leb_refl.
Qed.

(** Slots the master may still fill. *)
Definition free_slots (m : master) : nat := length (filter (λ st, sl_in_use st = false) (ms_slots m)).

Lemma free_insert (l : list master_slot_state) i x y :
  l !! i = Some x → sl_in_use x = false → sl_in_use y = true →
  length (filter (λ st, sl_in_use st = false) l) =
  S (length (filter (λ st, sl_in_use st = false) (<[i := y]> l))).
Proof.
  revert i. induction l as [|z l IH]; intros [|i] Hi Hx Hy; simplify_eq/=; rewrite !filter_cons.
  - rewrite Hx, Hy. rewrite decide_True, decide_False by done. done.
  - destruct (decide (sl_in_use z = false)); simpl; [f_equal|]; by apply IH.
Qed.

Lemma writes_app l1 l2 : writes (l1 ++ l2) = writes l1 ++ writes l2.
Proof. apply omap_app. Qed.

Lemma elem_of_writes q l : q ∈ writes l ↔ ∃ s len r, WrWrite s len r q ∈ l.
Proof.
  unfold writes. rewrite list_elem_of_omap. split.
  - intros ([s len|s len r q'] & Hw & He); simplify_eq. eauto.
  - intros (s & len & r & Hw). by exists (WrWrite s len r q).
Qed.

(** A connection keeps its shape when a slot is stored or work is posted. *)
Lemma conn_ok_store c slot data b x i :
  conn_ok c → conn_ok (set_send (<[slot := memcpy_at b 0 data]> (cn_send c)) (<[i := x]> (cn_send_ctx c)) c).
Proof. intros [H1 H2 H3 H4 H5 H6]. split; m_simpl; try done; by rewrite length_insert. Qed.

Lemma conn_ok_post c w : conn_ok c → (wr_slot w < RDMA_REPL_SEND_SLOTS)%nat →
  conn_ok (set_queues (cn_posted c ++ [w]) (cn_performed c) (cn_cq c) c).
Proof.
  intros [H1 H2 H3 H4 H5 H6] Hw. split; m_simpl; try done.
  intros w'. rewrite <-app_assoc, !elem_of_app, list_elem_of_singleton.
  intros [Hw'|[->|Hw']]; [|done|]; apply H4, elem_of_app; tauto.
Qed.

Lemma conn_ok_flags c a b d : conn_ok c → conn_ok (set_flags a b d c).
Proof. by intros [H1 H2 H3 H4 H5 H6]. Qed.

(** A free slot is not the target of a posted write. *)
Lemma free_not_written acc done m i st s len r q :
  minv acc done m → ms_slots m !! i = Some st → sl_in_use st = false →
  WrWrite s len r q ∈ cn_posted (ms_conn m) → s ≠ i ∧ r ≠ i.
Proof.
  intros Hi Hst Hfree Hw. destruct (mi_writes _ _ _ Hi _ _ _ _ Hw) as (_ & _ & _ & -> & -> & _ & _ & st' & Hst' & Hu & _).
  split; intros Heq; subst i; congruence.
Qed.

Lemma memcpy_at_0 b d : memcpy_at b 0 d = d ++ drop (length d) b.
Proof. done. Qed.

(** The state after the next chunk was put in its slot and posted. *)
Lemma minv_sent acc done m q st b x empty :
  minv acc done m → ms_done m = false → at_chunk m → q = ms_next_seq m → chunk q →
  ms_next_offset m = chunk_off q → ms_slots m !! chunk_slot q = Some st → sl_in_use st = false →
  cn_send (ms_conn m) !! chunk_slot q = Some b → (strlen snap = 0 → empty = true) → (strlen snap ≠ 0 → empty = ms_empty_sent m) →
  let c := set_send (<[chunk_slot q := memcpy_at b 0 (chunk_bytes q)]> (cn_send (ms_conn m)))
             (<[chunk_slot q := x]> (cn_send_ctx (ms_conn m))) (ms_conn m) in
  let c := set_queues (cn_posted c ++ [WrWrite (chunk_slot q) (HEADER_SIZE + chunk_len q) (chunk_slot q) q])
             (cn_performed c) (cn_cq c) c in
  let m1 := set_conn c (set_slots (<[chunk_slot q := MSlot true false false (chunk_last q) q (chunk_off q) (chunk_len q)]>
              (ms_slots m)) m) in
  let m2 := set_next (q + 1) (chunk_off q + chunk_len q) empty m1 in
  minv acc done m2 ∧ later m m2 ∧ free_slots m = S (free_slots m2).
Proof.
  intros Hi Hnd (Hsz & Hbuf & Hat) -> Hc Hoff Hst Hfree Hb He1 He2 c1 c m1 m2. subst c1 c m1 m2.
  set (q := ms_next_seq m) in *. pose proof (chunk_slot_window q) as Hwin. pose proof Hi as Hi0.
  destruct Hi as [Hconn Hs Hcn Hseq _ Hlen Hslots Hwr Hnd' Hctrl Hacc Hdone Hstate].
  assert (q ∉ writes (cn_posted (ms_conn m))) as Hnew.
  { intros (s & len & r & Hw)%elem_of_writes. destruct (Hwr _ _ _ _ Hw) as (_ & Hlt & _). lia. }
  pose proof (conn_ok_post _ (WrWrite (chunk_slot q) (HEADER_SIZE + chunk_len q) (chunk_slot q) q)
    (conn_ok_store (ms_conn m) (chunk_slot q) (chunk_bytes q) b x (chunk_slot q) Hconn) Hwin) as Hok.
  split; [|split].
  - split; m_simpl; try done.
    + lia.
    + right. split; [done|]. split; [done|]. m_simpl. replace (q + 1 - 1) with q by lia.
      destruct (chunk_last q) eqn:Hl.
      * right. split_and!; [done|done|by apply chunk_end|done].
      * left. destruct (chunk_next q Hc Hl) as [Hc' Ho']. split_and!; [done| |done].
        assert (strlen snap ≠ 0) as Hnz.
        { intros Hz. unfold chunk_last in Hl. to_prop. pose proof (chunk_bounds q Hc). lia. }
        rewrite He2 by done. destruct Hat as [(_ & ? & _)|(_ & _ & Ho & _)]; [done|].
        destruct (chunk_nonempty q Hc) as [? _]; [pose proof (strlen_nonneg snap); lia|]. lia.
    + by rewrite length_insert.
    + intros i st' Hi' Hu. destruct (decide (i = chunk_slot q)) as [->|Hne].
      * rewrite list_lookup_insert_eq in Hi' by lia. simplify_eq/=. split_and!; [done|lia|done|done].
      * rewrite list_lookup_insert_ne in Hi' by done.
        destruct (Hslots i st' Hi' Hu) as (? & ? & ? & ?). split_and!; [done|lia|done|done].
    + intros s len r q' [Hw|Hw]%elem_of_app.
      * destruct (free_not_written _ _ _ _ _ _ _ _ _ Hi0 Hst Hfree Hw) as [Hns Hnr].
        destruct (Hwr _ _ _ _ Hw) as (H1 & H2 & H3 & H4 & H5 & H6 & H7 & H8).
        rewrite !list_lookup_insert_ne by done. split_and!; try done. lia.
      * apply list_elem_of_singleton in Hw. simplify_eq.
        split_and!; [done|lia|by intros ?%Hacc; lia|done|done|done| |].
        -- rewrite list_lookup_insert_eq by (by eapply lookup_lt_Some). eexists. split; [done|].
           rewrite memcpy_at_0. split; [|intros _; by eexists].
           unfold chunk_bytes. rewrite !length_app, encode_header_length. lia.
        -- rewrite list_lookup_insert_eq by lia. by eexists.
    + rewrite writes_app. apply NoDup_app. split_and!; [done| |apply NoDup_singleton].
      intros q' Hq' ->%list_elem_of_singleton. done.
    + intros q' ?%Hacc. lia.
  - split; m_simpl; [lia|]. intros q' Hlt Hn. rewrite writes_app, elem_of_app.
    intros [?| ->%list_elem_of_singleton]; [done|]. lia.
  - unfold free_slots. m_simpl. by eapply free_insert.
Qed.

(** The state after posting it failed. *)
Lemma minv_unsent acc done m q st b x d y :
  minv acc done m → ms_slots m !! chunk_slot q = Some st → sl_in_use st = false →
  cn_send (ms_conn m) !! chunk_slot q = Some b →
  let c := set_send (<[chunk_slot q := memcpy_at b 0 d]> (cn_send (ms_conn m)))
             (<[chunk_slot q := x]> (cn_send_ctx (ms_conn m))) (ms_conn m) in
  let c := set_flags false (cn_done c) (cn_failed c) c in
  let m1 := set_slots (<[chunk_slot q := mslot0]> (<[chunk_slot q := y]> (ms_slots m))) m in
  minv acc done (set_conn c m1) ∧ later m (set_conn c m1).
Proof.
  intros Hi Hst Hfree Hb c1 c m1. subst c1 c m1. pose proof Hi as Hi0.
  pose proof (lookup_lt_Some _ _ _ Hst) as Hlt.
  destruct Hi as [Hconn Hs Hcn Hseq Hat Hlen Hslots Hwr Hnd' Hctrl Hacc Hdone Hstate].
  pose proof (conn_ok_flags _ false (cn_done (ms_conn m)) (cn_failed (ms_conn m))
    (conn_ok_store (ms_conn m) (chunk_slot q) d b x (chunk_slot q) Hconn)) as Hok.
  rewrite list_insert_insert_eq. split; [|by split].
  split; m_simpl; try done.
  - by rewrite length_insert.
  - intros i st' Hi' Hu. destruct (decide (i = chunk_slot q)) as [->|Hne].
    + rewrite list_lookup_insert_eq in Hi' by done. by simplify_eq/=.
    + rewrite list_lookup_insert_ne in Hi' by done. by apply Hslots.
  - intros s len r q' Hw.
    destruct (free_not_written _ _ _ _ _ _ _ _ _ Hi0 Hst Hfree Hw) as [Hns Hnr].
    destruct (Hwr _ _ _ _ Hw) as (H1 & H2 & H3 & H4 & H5 & H6 & H7 & H8).
    rewrite !list_lookup_insert_ne by done. done.
Qed.

Lemma next_slot m acc done :
  minv acc done m →
  Z.to_nat ((ms_next_seq m - 1) mod Z.of_nat (cn_slot_count (ms_conn m))) = chunk_slot (ms_next_seq m).
Proof. intros Hi. by rewrite (mi_count _ _ _ Hi). Qed.

Lemma send_one_spec E m t acc done :
  minv acc done m → ms_done m = false →
  wp master_send_one_locked (λ r m' _, minv acc done m' ∧ later m m' ∧ ms_done m' = false ∧
    (r = -1 ∨ r = 0 ∨ (r = 1 ∧ free_slots m = S (free_slots m')))) E m t.
Proof.
  intros Hi Hnd. unfold master_send_one_locked, on_mconn. wp_step. wp_step.
  destruct (mi_at _ _ _ Hi) as [Hd|Hat]; [cbn in *; congruence|].
  assert (minv acc done m ∧ later m m) as Hsame by done.
  cbn [id]. rewrite (mi_size _ _ _ Hi).
  destruct (next_chunk_spec m Hat) as [(Hc & Hoff & ->)| ->]; [|wp_steps; naive_solver].
  pose proof (next_slot _ _ _ Hi) as Hslot'. cbn [id] in *. rewrite Hslot'.
  set (q := ms_next_seq m) in *. pose proof (chunk_slot_window q) as Hwin.
  rewrite decide_False by lia.
  destruct (lookup_lt_is_Some_2 (ms_slots m) (chunk_slot q)) as [st Hst]; [by rewrite (mi_window _ _ _ Hi)|].
  rewrite Hst. destruct (sl_in_use st) eqn:Hfree; [wp_steps; naive_solver|].
  destruct Hat as (Hsz & Hbuf & Hat). rewrite Hbuf.
  destruct (lookup_lt_is_Some_2 (cn_send (ms_conn m)) (chunk_slot q)) as [b Hb].
  { by rewrite (co_send _ (mi_conn _ _ _ Hi)). }
  pose proof (chunk_bounds q Hc) as Hbd. pose proof room_pos as Hroom. pose proof (chunk_bytes_length q Hc) as Hbl.
  unfold default, id. rewrite Hsz, Hoff. fold (chunk_data q). fold (chunk_header q). fold (chunk_bytes q).
  wp_step. rewrite (chunk_slot_mod q). wp_step.
  eapply wp_store_send; [done|unfold RDMA_REPL_CHUNK_SIZE in *; lia|]. unfold set_slot. wp_step. wp_step. wp_step. wp_step.
  unfold post_rdma_writev_slot, rdma_disconnect, set_ctx. m_simpl.
  rewrite (proj2 (Z.leb_gt _ _)) by (unfold HEADER_SIZE; lia). wp_step. wp_step. wp_step. wp_step. m_simpl.
  rewrite (mi_count _ _ _ Hi), (mi_size _ _ _ Hi). pose proof (chunk_slot_lt q).
  rewrite decide_False by lia. rewrite (proj2 (Z.ltb_ge _ _)) by (unfold room in *; lia).
  rewrite (proj2 (Z.ltb_ge RDMA_IMM_LEN_MASK _))
    by (unfold RDMA_IMM_LEN_MASK, RDMA_REPL_CHUNK_SIZE, RDMA_REPL_SLOT_SIZE, HEADER_SIZE in *; lia).
  rewrite (chunk_slot_mod q). wp_step. wp_step. m_simpl.
  assert (at_chunk m) as Hat' by done.
  apply wp_post_work; intros t'; cbn [negb Z.eqb]; m_simpl.
  - destruct (strlen snap =? 0) eqn:Hz; to_prop; wp_steps.
    + pose proof (minv_sent acc done m q st b (WrCtx RDMA_WR_CTX_WRITE (chunk_slot q) q) true Hi Hnd Hat' eq_refl Hc
        Hoff Hst Hfree Hb ltac:(done) ltac:(done)) as (H1 & H2 & H3).
      assert (chunk_len q = 0) as Hl0 by lia. rewrite Hl0 in H1, H2, H3. rewrite Z.add_0_r in H1, H2, H3.
      split_and!; [exact_upto H1|exact_upto H2|done|]; [by rewrite Hl0..|]. right. right. split; [done|].
      rewrite H3. by rewrite Hl0.
    + pose proof (minv_sent acc done m q st b (WrCtx RDMA_WR_CTX_WRITE (chunk_slot q) q) (ms_empty_sent m) Hi Hnd Hat'
        eq_refl Hc Hoff Hst Hfree Hb ltac:(done) ltac:(done)) as (H1 & H2 & H3).
      split_and!; [exact H1|exact H2|done|]. right. right. by split.
  - wp_step. wp_step. wp_steps.
    pose proof (minv_unsent acc done m q st b (WrCtx RDMA_WR_CTX_WRITE (chunk_slot q) q) (chunk_bytes q)
      (MSlot true false false (chunk_last q) q (chunk_off q) (chunk_len q)) Hi Hst Hfree Hb) as [H1 H2].
    split_and!; [exact H1|exact H2|done|by left].
Qed.

Lemma later_same m m' :
  ms_next_seq m' = ms_next_seq m → cn_posted (ms_conn m') = cn_posted (ms_conn m) → later m m'.
Proof. intros H1 H2. split; rewrite ?H1, ?H2; [lia|done]. Qed.

Lemma minv_disconnected acc done m c :
  c = ms_conn m → minv acc done m → minv acc done (set_conn (set_flags false (cn_done c) (cn_failed c) c) m).
Proof.
  intros -> [Hconn Hs Hcn Hseq Hat Hlen Hslots Hwr Hnd'' Hctrl Hacc Hdone Hstate].
  split; m_simpl; try done. by apply (conn_ok_flags (ms_conn m)).
Qed.

Lemma wp_disconnect E m t acc done :
  minv acc done m → wp (on_mconn rdma_disconnect) (λ _ m' _, minv acc done m' ∧ later m m') E m t.
Proof.
  intros Hi. unfold on_mconn, rdma_disconnect. wp_steps. split; [by apply minv_disconnected|by apply later_same].
Qed.

Lemma pump_loop_spec E m t acc done fuel x :
  minv acc done m → (free_slots m ≤ fuel)%nat →
  wp (pump_loop fuel x) (λ _ m' _, minv acc done m' ∧ later m m') E m t.
Proof.
  revert m t x. induction fuel as [|fuel IH]; intros m t x Hi Hf; cbn [pump_loop]; wp_step; wp_step;
    (destruct (ms_done m) eqn:Hnd; [by wp_steps|]); wp_step;
    (eapply wp_mono; [by apply send_one_spec|]); intros r m' t' (Hi' & Hl & Hnd' & Hr);
    destruct (r <? 0) eqn:Hneg; to_prop.
  1, 3: wp_step; (eapply wp_mono; [by eapply wp_disconnect|]); intros _ m2 t2 [H1 H2]; wp_steps;
    split; [done|by etrans].
  all: destruct (r =? 0) eqn:Hz; to_prop; [by wp_steps|].
  all: destruct Hr as [->|[->|[-> Hfree]]]; [lia|lia|].
  - lia.
  - eapply wp_mono; [apply IH; [done|lia]|]. intros _ m2 _ [H1 H2]. split; [done|]. by etrans.
Qed.

Lemma free_slots_window m acc done : minv acc done m → (free_slots m ≤ RDMA_REPL_WINDOW)%nat.
Proof. intros Hi. unfold free_slots. rewrite <-(mi_window _ _ _ Hi). apply length_filter. Qed.

Lemma minv_release acc done m :
  minv acc done m → minv acc done (set_slots (release_slot <$> ms_slots m) m).
Proof.
  intros [Hconn Hs Hcn Hseq Hat Hlen Hslots Hwr Hnd' Hctrl Hacc Hdone Hstate].
  split; m_simpl; try done.
  - by rewrite length_fmap.
  - intros i st. rewrite list_lookup_fmap_Some. intros (st0 & -> & Hst) Hu.
    unfold release_slot in *. destruct (sl_in_use st0 && sl_write_done st0 && sl_acked st0); [done|by apply Hslots].
  - intros s len r q Hw. destruct (Hwr _ _ _ _ Hw) as (H1 & H2 & H3 & H4 & H5 & H6 & H7 & st & Hst & Hu & Hq).
    split_and!; try done. exists st. rewrite list_lookup_fmap, Hst. cbn [fmap option_fmap option_map].
    unfold release_slot. destruct (sl_acked st) eqn:Ha; [|by rewrite andb_false_r].
    destruct (Hslots _ _ Hst Hu) as (_ & _ & _ & Hacked). rewrite Hq in Hacked. by destruct H3; apply Hacked.
Qed.

Lemma advance_spec E m t acc done :
  minv acc done m → wp master_advance (λ _ m' _, minv acc done m' ∧ later m m') E m t.
Proof.
  intros Hi. unfold master_advance, master_release_completed_slots_locked, master_pump_locked. wp_step. wp_step.
  pose proof (minv_release _ _ _ Hi) as Hi1. wp_step.
  eapply wp_mono; [apply pump_loop_spec; [done|by eapply free_slots_window]|].
  intros r m2 t2 [Hi2 Hl2]. wp_step. wp_step. unfold id.
  assert (later m m2) as Hl by (etrans; [|exact Hl2]; by apply later_same).
  destruct (master_should_finish_locked m2) eqn:Hfin; [|by wp_steps].
  unfold master_should_finish_locked in Hfin. to_prop. unfold master_finish_fullsync. wp_steps.
  split; [|by etrans; [exact Hl|by apply later_same]].
  destruct Hi2 as [Hconn Hs Hcn Hseq Hat Hlen Hslots Hwr Hnd' Hctrl Hacc Hdone Hstate].
  split; m_simpl; try done. by left.
Qed.

(** A notification overwrites the version of the chunk in its slot. *)
Lemma notify_unversioned seq off k :
  ¬ versioned (encode_ctrl (CtrlMsg RDMA_REPL_MAGIC RDMA_CTRL_CHUNK seq off 0) ++ k).
Proof.
  unfold versioned, encode_ctrl. cbn [c_magic c_type c_seq c_offset c_status]. rewrite <-!app_assoc.
  rewrite field_skip by (rewrite le_encode_length; lia). rewrite le_encode_length. cbn [Nat.sub].
  intros H. by vm_compute in H.
Qed.

(** Sending a notification from slot [s]. *)
Lemma minv_notify acc done m s b seq off x (f : bool) :
  minv acc done m → (s < RDMA_REPL_SEND_SLOTS)%nat → cn_send (ms_conn m) !! s = Some b →
  let c := set_send (<[s := memcpy_at b 0 (encode_ctrl (CtrlMsg RDMA_REPL_MAGIC RDMA_CTRL_CHUNK seq off 0))]>
             (cn_send (ms_conn m))) (<[s := x]> (cn_send_ctx (ms_conn m))) (ms_conn m) in
  let c' := if f then set_queues (cn_posted (ms_conn m) ++ [WrSend s CTRL_SIZE]) (cn_performed (ms_conn m)) (cn_cq (ms_conn m)) c
            else set_flags false (cn_done (ms_conn m)) (cn_failed (ms_conn m)) c in
  minv acc done (set_conn c' m) ∧ later m (set_conn c' m).
Proof.
  intros [Hconn Hs Hcn Hseq Hat Hlen Hslots Hwr Hnd' Hctrl Hacc Hdone Hstate] Hlt Hb c c'.
  set (d := encode_ctrl _) in *. pose proof (conn_ok_store (ms_conn m) s d b x s Hconn) as Hok.
  assert (conn_ok c') as Hok'.
  { subst c'. destruct f; [|by apply conn_ok_flags]. by apply (conn_ok_post c (WrSend s CTRL_SIZE)). }
  assert (∀ w, w ∈ cn_posted c' → w ∈ cn_posted (ms_conn m) ∨ w = WrSend s CTRL_SIZE) as Hposted.
  { intros w. subst c' c. destruct f; m_simpl; [|by left].
    rewrite elem_of_app, list_elem_of_singleton. tauto. }
  assert (writes (cn_posted c') = writes (cn_posted (ms_conn m))) as Hwrites.
  { subst c' c. destruct f; m_simpl; [|done]. rewrite writes_app. by rewrite app_nil_r. }
  assert (cn_send c' = <[s := memcpy_at b 0 d]> (cn_send (ms_conn m)) ∧ cn_ctrl c' = cn_ctrl (ms_conn m) ∧
          cn_slot_size c' = cn_slot_size (ms_conn m) ∧ cn_slot_count c' = cn_slot_count (ms_conn m)) as (Hsend & Hcc & Hs1 & Hs2).
  { subst c' c. by destruct f. }
  clearbody c'. split.
  - split; m_simpl; try done; try congruence.
    + intros s' len r q [Hw|Hw]%Hposted; [|done].
      destruct (Hwr _ _ _ _ Hw) as (H1 & H2 & H3 & H4 & H5 & H6 & (b' & Hb' & Hl' & Hv') & H8).
      split_and!; try done. rewrite Hsend. destruct (decide (s' = s)) as [->|Hne].
      * rewrite list_lookup_insert_eq by (by eapply lookup_lt_Some). eexists. split; [done|].
        simplify_eq. rewrite memcpy_at_0. split; [rewrite length_app, length_drop; lia|].
        intros Hv. by apply notify_unversioned in Hv.
      * rewrite list_lookup_insert_ne by done. eauto.
    + by rewrite Hcc.
  - split; m_simpl; [lia|]. by rewrite Hwrites.
Qed.

Lemma minv_write_done acc done m i st st' :
  minv acc done m → ms_slots m !! i = Some st →
  sl_in_use st' = sl_in_use st → sl_acked st' = sl_acked st → sl_seq st' = sl_seq st →
  minv acc done (set_slots (<[i := st']> (ms_slots m)) m).
Proof.
  intros [Hconn Hs Hcn Hseq Hat Hlen Hslots Hwr Hnd' Hctrl Hacc Hdone Hstate] Hst H1 H2 H3.
  pose proof (lookup_lt_Some _ _ _ Hst) as Hlt. split; m_simpl; try done.
  - by rewrite length_insert.
  - intros j x Hx Hu. destruct (decide (j = i)) as [->|Hne].
    + rewrite list_lookup_insert_eq in Hx by done. simplify_eq. rewrite H2, H3. apply (Hslots i st Hst). congruence.
    + rewrite list_lookup_insert_ne in Hx by done. by apply Hslots.
  - intros s len r q Hw. destruct (Hwr _ _ _ _ Hw) as (A1 & A2 & A3 & A4 & A5 & A6 & A7 & x & Hx & Hu & Hq).
    split_and!; try done. destruct (decide (r = i)) as [->|Hne].
    + rewrite list_lookup_insert_eq by done. simplify_eq. exists st'. split_and!; congruence.
    + rewrite list_lookup_insert_ne by done. eauto.
Qed.

Lemma write_complete_spec E m t acc done ctx ok :
  minv acc done m → wp (on_master_write_complete ctx ok) (λ _ m' _, minv acc done m' ∧ later m m') E m t.
Proof.
  intros Hi. unfold on_master_write_complete. destruct ok; cbn [negb]; [|by apply wp_disconnect].
  destruct (negb _); [by wp_steps|]. wp_step. wp_step. wp_step.
  apply wp_mono with (λ _ m' _, minv acc done m' ∧ later m m').
  2: { intros _ m' t' [H1 H2]. eapply wp_mono; [by apply advance_spec|]. intros _ m2 _ [H3 H4]. split; [done|by etrans]. }
  destruct (decide (x_slot ctx < RDMA_REPL_WINDOW)%nat) as [Hlt|Hge]; [|by wp_steps].
  destruct (ms_slots m !! x_slot ctx) as [st|] eqn:Hst; [|by wp_steps].
  destruct (sl_in_use st && (sl_seq st =? x_seq ctx)); [|by wp_steps].
  unfold set_slot, on_mconn. wp_step. wp_step. wp_step. wp_step. set (st' := MSlot _ _ _ _ _ _ _).
  pose proof (minv_write_done acc done m _ st st' Hi Hst eq_refl eq_refl eq_refl) as Hi1.
  assert ((x_slot ctx mod RDMA_REPL_SEND_SLOTS)%nat = x_slot ctx) as Hmod by (by apply Nat.mod_small).
  destruct (lookup_lt_is_Some_2 (cn_send (ms_conn m)) (x_slot ctx)) as [b Hb].
  { by rewrite (co_send _ (mi_conn _ _ _ Hi)). }
  eapply wp_post_ctrl; [by rewrite Hmod|]. rewrite Hmod. intros t' f. cbv zeta.
  pose proof (minv_notify acc done _ (x_slot ctx) b (x_seq ctx) (Z.of_nat (x_slot ctx))
    (WrCtx RDMA_WR_CTX_SEND (x_slot ctx) (x_seq ctx)) f Hi1 Hlt Hb) as [H1 H2].
  assert (∀ m2, later (set_slots (<[x_slot ctx := st']> (ms_slots m)) m) m2 → later m m2) as Hsame.
  { intros m2 Hm2. etrans; [|exact Hm2]. by apply later_same. }
  destruct f; cbn [negb Z.eqb]; [wp_steps; split; [exact H1|by apply Hsame]|].
  eapply wp_mono; [by eapply (wp_disconnect E)|]. intros _ m2 _ [H3 H4]. split; [done|].
  etrans; [|exact H4]. by apply Hsame.
Qed.

Lemma conn_ok_recv c slot (f : bool) :
  conn_ok c → (slot < RDMA_REPL_CTRL_RECV_DEPTH)%nat →
  let c1 := set_ctrl (<[slot := []]> (cn_ctrl c)) (cn_recvs c) c in
  conn_ok (if f then set_ctrl (cn_ctrl c1) (cn_recvs c1 ++ [slot]) c1
           else set_flags false (cn_done c1) (cn_failed c1) c1).
Proof.
  intros [H1 H2 H3 H4 H5 H6] Hlt c1. subst c1. destruct f; split; m_simpl; try done; try by rewrite length_insert.
  intros r [Hr| ->%list_elem_of_singleton]%elem_of_app; [by apply H5|done].
Qed.

Lemma minv_recv acc done m slot (f : bool) :
  minv acc done m → (slot < RDMA_REPL_CTRL_RECV_DEPTH)%nat →
  let c1 := set_ctrl (<[slot := []]> (cn_ctrl (ms_conn m))) (cn_recvs (ms_conn m)) (ms_conn m) in
  let c' := if f then set_ctrl (cn_ctrl c1) (cn_recvs c1 ++ [slot]) c1 else set_flags false (cn_done c1) (cn_failed c1) c1 in
  minv acc done (set_conn c' m) ∧ later m (set_conn c' m).
Proof.
  intros [Hconn Hs Hcn Hseq Hat Hlen Hslots Hwr Hnd' Hctrl Hacc Hdone Hstate] Hlt c1 c'.
  assert (conn_ok c') as Hok by apply (conn_ok_recv _ slot f Hconn Hlt).
  assert (cn_posted c' = cn_posted (ms_conn m) ∧ cn_send c' = cn_send (ms_conn m) ∧
          cn_ctrl c' = <[slot := []]> (cn_ctrl (ms_conn m)) ∧ cn_slot_size c' = cn_slot_size (ms_conn m) ∧
          cn_slot_count c' = cn_slot_count (ms_conn m)) as (E1 & E2 & E3 & E4 & E5) by (subst c' c1; by destruct f).
  clearbody c'. split; [|by apply later_same]. split; m_simpl; rewrite ?E1, ?E2, ?E3; try done; try congruence.
  intros b [i Hb]%list_elem_of_lookup. destruct (decide (i = slot)) as [->|Hne].
  - rewrite list_lookup_insert_eq in Hb by (by rewrite (co_ctrl _ Hconn)). simplify_eq. split; intros Ht; by vm_compute in Ht.
  - rewrite list_lookup_insert_ne in Hb by done. apply Hctrl. by eapply list_elem_of_lookup_2.
Qed.

Lemma minv_acked acc done m c :
  minv acc done m → ctrl_ok acc done c → c_type c = RDMA_CTRL_ACK ∨ c_type c = RDMA_CTRL_DONE →
  minv acc done (set_progress (c_offset c) (c_seq c + 1) (ms_done m || (c_type c =? RDMA_CTRL_DONE))
    (set_slots (ack_slot (c_seq c) <$> ms_slots m) m)).
Proof.
  intros [Hconn Hs Hcn Hseq Hat Hlen Hslots Hwr Hnd' Hctrl Hacc Hdone Hstate] [Hack Hfin] Htype.
  split; m_simpl; try done.
  - destruct Hat as [-> |Hat]; [by left|]. destruct (ms_done m || _); [by left|by right].
  - by rewrite length_fmap.
  - intros i st. rewrite list_lookup_fmap_Some. intros (st0 & -> & Hst). unfold ack_slot.
    destruct (sl_in_use st0 && (sl_seq st0 <=? c_seq c)) eqn:Ha; [|by apply Hslots]. cbn. intros Hu.
    to_prop. destruct (Hslots _ _ Hst Hu) as (H1 & H2 & H3 & H4). split_and!; try done. intros _.
    destruct Htype as [Ht|Ht]; [by eapply Hack|by apply Hfin].
  - intros s len r q Hw. destruct (Hwr _ _ _ _ Hw) as (A1 & A2 & A3 & A4 & A5 & A6 & A7 & x & Hx & Hu & Hq).
    split_and!; try done. exists (ack_slot (c_seq c) x). rewrite list_lookup_fmap, Hx. split; [done|].
    unfold ack_slot. by destruct (_ && _).
  - intros [Hd|Hd]%orb_true_iff; [by apply Hdone|]. to_prop. by apply Hfin.
  - intros Hf. by rewrite (Hstate Hf).
Qed.

Lemma recv_complete_spec E m t acc done slot ok :
  minv acc done m → (slot < RDMA_REPL_CTRL_RECV_DEPTH)%nat →
  wp (on_master_recv_complete slot ok) (λ _ m' _, minv acc done m' ∧ later m m') E m t.
Proof.
  intros Hi Hlt. unfold on_master_recv_complete. destruct ok; cbn [negb]; [|by apply wp_disconnect].
  wp_step. wp_step. wp_step. apply wp_on_mconn. rewrite Nat.mod_small by done.
  destruct (lookup_lt_is_Some_2 (cn_ctrl (ms_conn m)) slot) as [b Hb].
  { by rewrite (co_ctrl _ (mi_conn _ _ _ Hi)). }
  eapply wp_slot_mem; [done|]. rewrite set_conn_id.
  pose proof (mi_ctrl _ _ _ Hi b ltac:(by eapply list_elem_of_lookup_2)) as Hc. set (c := decode_ctrl b) in *. clearbody c.
  wp_step. apply wp_on_mconn, wp_post_recv; [lia|]. intros t' f _. cbv zeta.
  pose proof (minv_recv acc done m slot f Hi Hlt) as [H1 H2]. cbv zeta in H1, H2.
  destruct f; cbn [negb Z.eqb]; [|by wp_steps]. set (m1 := set_conn _ m) in *. clearbody m1.
  assert (wp (on_mconn rdma_disconnect) (λ _ m' _, minv acc done m' ∧ later m m') E m1 t') as Hdis.
  { eapply wp_mono; [by apply wp_disconnect|]. intros _ m2 _ [? ?]. split; [done|by etrans]. }
  destruct (c_magic c =? RDMA_REPL_MAGIC); cbn [negb]; [|done].
  destruct (c_type c =? RDMA_CTRL_ERROR); [done|].
  destruct (negb (c_type c =? RDMA_CTRL_ACK) && negb (c_type c =? RDMA_CTRL_DONE)) eqn:Hneg; [done|].
  assert (c_type c = RDMA_CTRL_ACK ∨ c_type c = RDMA_CTRL_DONE) as Htype.
  { apply andb_false_iff in Hneg as [Hn|Hn]; to_prop; tauto. }
  wp_step. wp_step. wp_step. wp_step.
  eapply wp_mono; [apply advance_spec; exact (minv_acked acc done m1 c H1 Hc Htype)|].
  intros _ m2 _ [H3 H4]. split; [done|]. etrans; [exact H2|]. etrans; [|exact H4]. by apply later_same.
Qed.

Lemma master_completion_spec E m t acc done w :
  minv acc done m →
  match wc_ctx w with
  | OfRecv r => (r < RDMA_REPL_CTRL_RECV_DEPTH)%nat
  | OfSend r => (r < RDMA_REPL_SEND_SLOTS)%nat
  end →
  wp (on_master_completion w) (λ _ m' _, minv acc done m' ∧ later m m') E m t.
Proof.
  intros Hi Hw. unfold on_master_completion. destruct (wc_ctx w) as [slot|slot]; [by apply recv_complete_spec|].
  wp_step. wp_step. destruct (lookup_lt_is_Some_2 (cn_send_ctx (ms_conn m)) slot) as [x Hx].
  { by rewrite (co_ctx _ (mi_conn _ _ _ Hi)). }
  rewrite Hx. by apply write_complete_spec.
Qed.

(** ** The slave's invariant *)

Context {V : Type} `{VectorOps V} (Good Loaded : server V → Prop) (x0 : server V).

(** The snapshot file after a synchronisation. *)
Definition committed : option bytes := if strlen snap =? 0 then None else Some snap.

Definition complete (x : server V) : Prop := sv_rdb x = committed ∧ Loaded x.

(** The chunks the slave has taken; [fin] says that the last one is among them. *)
Definition accepted (fin : bool) (s : slave V) (q : Z) : Prop :=
  chunk q ∧ (q < sv_next_seq s ∨ (fin = true ∧ q = sv_next_seq s)).

Definition ctrl_slot_ok (fin : bool) (s : slave V) (b : bytes) : Prop :=
  b = [] ∨ ∃ c k, b = encode_ctrl c ++ k ∧ ctrl_fits c ∧ ctrl_ok (accepted fin s) (complete (sv_server s)) c.

Record sinv (fin : bool) (s : slave V) : Prop := {
  si_conn  : conn_ok (sv_conn s);
  si_size  : cn_slot_size (sv_conn s) = slot_size;
  si_count : cn_slot_count (sv_conn s) = count;
  si_data  : length (cn_data (sv_conn s)) = count;
  si_seq   : chunk (sv_next_seq s);
  si_off   : sv_offset s = if fin then strlen snap else chunk_off (sv_next_seq s);
  si_fin   : fin = true → chunk_last (sv_next_seq s) = true;
  si_fd    : sv_fd s = true → sv_tmp s = Some (take (Z.to_nat (sv_offset s)) snap);
  si_nofd  : sv_fd s = false → fin = true ∨ sv_offset s = 0;
  si_good  : Good (sv_server s);
  si_keep  : fin = false → sv_server s = x0;
  si_done  : sv_done_posted s = true → fin = true ∧ complete (sv_server s);
  si_send  : ∀ b, b ∈ cn_send (sv_conn s) → ctrl_slot_ok fin s b;
  si_posted : ∀ w, w ∈ cn_posted (sv_conn s) → ∃ i, w = WrSend i CTRL_SIZE
}.

(** What a step of the slave may do, when the chunks in its memory satisfy [R]. *)
Record grows (R : Z → Prop) (fin fin' : bool) (s s' : slave V) : Prop := {
  g_acc  : ∀ q, accepted fin s q → accepted fin' s' q;
  g_new  : ∀ q, accepted fin' s' q → accepted fin s q ∨ R q;
  g_done : complete (sv_server s) → complete (sv_server s');
  g_data : cn_data (sv_conn s') = cn_data (sv_conn s)
}.

Lemma grows_refl R fin s : grows R fin fin s s.
Proof. split; tauto. Qed.

Lemma grows_trans R fin1 fin2 fin3 s1 s2 s3 :
  grows R fin1 fin2 s1 s2 → grows R fin2 fin3 s2 s3 → grows R fin1 fin3 s1 s3.
Proof. intros [A1 A2 A3 A4] [B1 B2 B3 B4]. split; [eauto| |eauto|congruence]. intros q [?%A2|?]%B2; tauto. Qed.

Lemma ctrl_ok_mono (acc acc' : Z → Prop) (done done' : Prop) c :
  (∀ q, acc q → acc' q) → (done → done') → ctrl_ok acc done c → ctrl_ok acc' done' c.
Proof. intros Ha Hd [H1 H2]. split; [eauto|]. intros Ht. destruct (H2 Ht). eauto. Qed.

Lemma ctrl_slot_mono R fin fin' s s' b : grows R fin fin' s s' → ctrl_slot_ok fin s b → ctrl_slot_ok fin' s' b.
Proof.
  intros [H1 _ H3 _] [->|(c & k & Hb & Hf & Hc)]; [by left|]. right. exists c, k. split_and!; [done|done|].
  by eapply ctrl_ok_mono.
Qed.

Lemma chunk_max q l : chunk q → chunk l → chunk_last l = true → q ≤ l.
Proof.
  pose proof room_pos as Hr. intros Hq Hl Hlast. pose proof (chunk_end l Hl Hlast) as Hend.
  pose proof (chunk_bounds l Hl). destruct (decide (q ≤ l)) as [|Hgt]; [done|exfalso].
  destruct Hq as [->|[Hq Ho]]; [lia|]. unfold chunk_len, chunk_off in *. nia.
Qed.

(** Replacing the connection. *)
Lemma sinv_conn fin s c :
  sinv fin s → conn_ok c → cn_slot_size c = slot_size → cn_slot_count c = count →
  cn_data c = cn_data (sv_conn s) → (∀ b, b ∈ cn_send c → ctrl_slot_ok fin s b) →
  (∀ w, w ∈ cn_posted c → ∃ i, w = WrSend i CTRL_SIZE) →
  sinv fin (with_conn c s) ∧ ∀ R, grows R fin fin s (with_conn c s).
Proof.
  intros [H1 H2 H3 H4 H5 H6 H7 H8 H9 H10 H10' H11 H12 H13] Hok Hs Hc Hd Hsend Hp. split.
  - split; try done. cbn. congruence.
  - intros R. split; try done; tauto.
Qed.

Definition s_post (fin : bool) (s : slave V) (r : Z) (s' : slave V) : Prop :=
  (r = 0 ∨ r = -1) ∧ sinv fin s' ∧ (∀ R, grows R fin fin s s') ∧
  sv_next_seq s' = sv_next_seq s ∧ sv_server s' = sv_server s ∧ ∃ c, s' = with_conn c s.

Lemma wp_on_sconn {A} (x : M conn A) Q E (s : slave V) t :
  wp x (λ a c t', Q a (with_conn c s) t') E (sv_conn s) t → wp (on_sconn x) Q E s t.
Proof. apply wp_zoom. Qed.

(** Sending a control message. *)
Lemma slave_post_spec E s t fin slot type seq off status :
  sinv fin s → ctrl_fits (CtrlMsg RDMA_REPL_MAGIC type seq off status) →
  ctrl_ok (accepted fin s) (complete (sv_server s)) (CtrlMsg RDMA_REPL_MAGIC type seq off status) →
  wp (on_sconn (post_ctrl_slot slot type seq off status)) (λ r s' _, s_post fin s r s') E s t.
Proof.
  intros Hi Hfits Hok. pose proof (si_conn _ _ Hi) as Hconn. apply wp_on_sconn.
  set (i := (slot mod RDMA_REPL_SEND_SLOTS)%nat) in *.
  assert (i < RDMA_REPL_SEND_SLOTS)%nat as Hlt by (apply Nat.mod_upper_bound; done).
  destruct (lookup_lt_is_Some_2 (cn_send (sv_conn s)) i) as [b Hb]; [by rewrite (co_send _ Hconn)|].
  eapply wp_post_ctrl; [exact Hb|]. intros t' f. cbv zeta. fold i. set (msg := CtrlMsg _ _ _ _ _) in *.
  set (c1 := set_send _ _ _).
  set (c := if f then set_queues (cn_posted (sv_conn s) ++ [WrSend i CTRL_SIZE]) (cn_performed (sv_conn s)) (cn_cq (sv_conn s)) c1
            else set_flags false (cn_done (sv_conn s)) (cn_failed (sv_conn s)) c1).
  assert (sinv fin (with_conn c s) ∧ ∀ R, grows R fin fin s (with_conn c s)) as [H1 H2].
  { pose proof (conn_ok_store (sv_conn s) i (encode_ctrl msg) b (WrCtx RDMA_WR_CTX_SEND i seq) i Hconn) as Hok1.
    assert (conn_ok c) as Hokc.
    { subst c. destruct f; [|by apply conn_ok_flags]. by apply (conn_ok_post c1 (WrSend i CTRL_SIZE)). }
    apply sinv_conn; try done.
    - subst c c1. rewrite <-(si_size _ _ Hi). by destruct f.
    - subst c c1. rewrite <-(si_count _ _ Hi). by destruct f.
    - subst c c1. by destruct f.
    - assert (cn_send c = <[i := memcpy_at b 0 (encode_ctrl msg)]> (cn_send (sv_conn s))) as -> by (subst c c1; by destruct f).
      intros b' [j Hj]%list_elem_of_lookup. destruct (decide (j = i)) as [->|Hne].
      + rewrite list_lookup_insert_eq in Hj by (by rewrite (co_send _ Hconn)). simplify_eq.
        right. exists msg, (drop (length (encode_ctrl msg)) b). by rewrite memcpy_at_0.
      + rewrite list_lookup_insert_ne in Hj by done. apply (si_send _ _ Hi). by eapply list_elem_of_lookup_2.
    - intros w Hw. subst c c1. destruct f; m_simpl; [|by apply (si_posted _ _ Hi)].
      apply elem_of_app in Hw as [Hw| ->%list_elem_of_singleton]; [by apply (si_posted _ _ Hi)|eauto]. }
  destruct f; (split; [tauto|]); split_and!; try done; eauto.
Qed.

Lemma slave_error_spec E s t fin seq status :
  sinv fin s → 0 ≤ seq < 2 ^ 64 → 0 ≤ status < 2 ^ 32 →
  wp (slave_post_error seq status) (λ r s' _, r = -1 ∧ s_post fin s (-1) s') E s t.
Proof.
  intros Hi Hseq Hst. unfold slave_post_error. wp_step. wp_step. wp_step.
  eapply wp_mono; [apply (slave_post_spec E s t fin); [done| |]|].
  - assert (0 ≤ sv_offset s ≤ strlen snap) as Ho.
    { rewrite (si_off _ _ Hi). pose proof (strlen_nonneg snap). pose proof (chunk_bounds _ (si_seq _ _ Hi)).
      destruct fin; lia. }
    split; cbn [c_magic c_type c_seq c_offset c_status]; unfold RDMA_REPL_MAGIC, RDMA_CTRL_ERROR; lia.
  - split; intros Ht; by vm_compute in Ht.
  - intros r s' t' (_ & H1 & H2 & H3 & H4 & H5). wp_steps. split; [done|]. split_and!; [by right|done..].
Qed.

(** Each write of the run takes at least one byte. *)
Definition writes_progress (E : env) : Prop := ∀ t, ∃ n, send_n E t = Some (S n).

Lemma write_full_spec E (s : slave V) t fuel data :
  writes_progress E → (length data ≤ fuel)%nat → data ≠ [] →
  wp (write_full fuel data) (λ r s' _, r = 0 ∧
    s' = with_file (sv_fd s) (Some (default [] (sv_tmp s) ++ data)) s) E s t.
Proof.
  intros HE. revert s t data. induction fuel as [|fuel IH]; intros s t data Hf Hne; cbn [write_full];
    (destruct data as [|c d]; [done|]); [simpl in Hf; lia|].
  set (data := c :: d) in *. wp_step. wp_step. destruct (HE t) as [n ->]. wp_step. wp_step.
  destruct (drop (S n) data) as [|c' d'] eqn:Hd.
  - destruct fuel; cbn [write_full]; wp_steps; (split; [done|]); f_equal; f_equal; f_equal;
      apply take_ge; assert (length (drop (S n) data) = 0%nat) as Hl by (by rewrite Hd);
      rewrite length_drop in Hl; lia.
  - eapply wp_mono; [apply IH; [|done]|].
    + rewrite <-Hd, length_drop. simpl in *. lia.
    + intros r s' t' [-> ->]. split; [done|]. cbn [sv_fd sv_tmp with_file default].
      unfold id. rewrite <-Hd, <-app_assoc, take_drop. done.
Qed.

Lemma store_chunk_spec E s t fin :
  let q := sv_next_seq s in
  writes_progress E → sinv fin s → sv_offset s = chunk_off q →
  wp (store_chunk (chunk_header q) (chunk_data q)) (λ r s' _,
    (r = 108 ∧ s' = s) ∨
    (r = 0 ∧ ((chunk_len q = 0 ∧ s' = s) ∨ (0 < chunk_len q ∧
       s' = with_file true (Some (take (Z.to_nat (chunk_off q + chunk_len q)) snap)) s)))) E s t.
Proof.
  intros q HE Hi Hoff. pose proof (si_seq _ _ Hi) as Hc. fold q in Hc. unfold store_chunk, chunk_header.
  cbn [h_len h_checksum]. pose proof (chunk_bounds q Hc) as Hb.
  destruct (0 <? chunk_len q) eqn:Hl; to_prop; cbn [negb]; [|wp_steps; right; split; [done|left; split; [lia|done]]].
  rewrite Z.eqb_refl. cbn [negb]. wp_step. unfold open_slave_rdb. wp_step. wp_step.
  assert (∀ t, wp (r ← write_full (length (chunk_data q)) (chunk_data q); if negb (r =? 0) then mret 109 else mret 0)
    (λ r s' _, (r = 108 ∧ s' = s) ∨
      (r = 0 ∧ ((chunk_len q = 0 ∧ s' = s) ∨ (0 < chunk_len q ∧
         s' = with_file true (Some (take (Z.to_nat (chunk_off q + chunk_len q)) snap)) s))))
    E (with_file true (Some (take (Z.to_nat (chunk_off q)) snap)) s) t) as Hwrite.
  { intros t'. wp_step. eapply wp_mono; [apply write_full_spec; [done|done|]|].
    - intros Hnil. pose proof (chunk_data_length q Hc) as Hdl. rewrite Hnil in Hdl. unfold strlen in Hdl. simpl in Hdl. lia.
    - intros r s' t2 [-> ->]. cbn [negb Z.eqb sv_fd sv_tmp with_file default]. wp_steps. right. split; [done|]. right.
      split; [lia|]. unfold id. rewrite chunk_append by done. by destruct s. }
  destruct (sv_fd s) eqn:Hfd; wp_steps; cbn [negb Z.eqb].
  - specialize (Hwrite t). rewrite <-Hoff, <-(si_fd _ _ Hi Hfd), <-Hfd in Hwrite.
    assert (with_file (sv_fd s) (sv_tmp s) s = s) as Heq by (by destruct s). rewrite Heq in Hwrite.
    rewrite Hfd, Hoff in Hwrite. exact Hwrite.
  - destruct (sys_ok E t); wp_steps; cbn [negb Z.eqb]; [|wp_steps; by left].
    destruct (si_nofd _ _ Hi Hfd) as [Hfin|Hz].
    + exfalso. pose proof (si_off _ _ Hi) as Ho. rewrite Hfin in Ho.
      pose proof (chunk_nonempty q Hc) as Hne. pose proof (strlen_nonneg snap). destruct (decide (0 < strlen snap)); [|lia].
      destruct Hne; [done|lia].
    + specialize (Hwrite (S t)). rewrite <-Hoff, Hz in Hwrite. simpl (take (Z.to_nat 0) snap) in Hwrite.
      rewrite <-Hoff, Hz. exact Hwrite.
Qed.

Definition loads (E : env) : Prop := ∀ x t, Good x → sv_rdb x = committed →
  wp (load_received_rdb (strlen snap)) (λ r x' _, r = 0 ∧ Good x' ∧ sv_rdb x' = sv_rdb x ∧ Loaded x') E x t.

Context (Hgood : ∀ x f, Good x → Good (put_rdb f x)) (Hloaded : ∀ x f, Loaded x → Loaded (put_rdb f x)).

(** The file changes hands, or the slave keeps what it had. *)
Lemma sinv_files s fd tmp x :
  sinv true s → fd = false → Good x → (complete (sv_server s) → complete x) →
  sinv true (with_server x (with_file fd tmp s)) ∧ ∀ R, grows R true true s (with_server x (with_file fd tmp s)).
Proof.
  intros [H1 H2 H3 H4 H5 H6 H7 H8 H9 H10 H10' H11 H12 H13] -> Hx Hcomp.
  assert (∀ R, grows R true true s (with_server x (with_file false tmp s))) as Hg by (intros R; split; try done; tauto).
  split; [|done]. split; try done.
  - intros _. by left.
  - intros Hd. cbn. destruct (H11 Hd). auto.
  - intros b Hb. eapply (ctrl_slot_mono (λ _, True)); [apply Hg|]. by apply H12.
Qed.

Lemma commit_spec E s t :
  sinv true s → (strlen snap ≠ 0 → sv_fd s = true) →
  wp (commit_slave_rdb (strlen snap)) (λ r s' _, (r = 0 ∨ r = -1) ∧ sinv true s' ∧ (∀ R, grows R true true s s') ∧
    sv_next_seq s' = sv_next_seq s ∧ sv_fd s' = false ∧ (r = 0 → sv_rdb (sv_server s') = committed)) E s t.
Proof.
  intros Hi Hfd. unfold commit_slave_rdb, close_slave_rdb. wp_step. wp_step. wp_step.
  assert (∀ s' fd tmp, s' = with_file fd tmp s → fd = false → sinv true s' ∧ ∀ R, grows R true true s s') as Hclosed.
  { intros s' fd tmp -> ->. pose proof (sinv_files s false tmp (sv_server s) Hi eq_refl (si_good _ _ Hi) ltac:(done)) as H'.
    assert (with_server (sv_server s) (with_file false tmp s) = with_file false tmp s) as Heq by (by destruct s).
    by rewrite Heq in H'. }
  apply wp_mono with (λ b s' _, s' = s).
  { destruct (sv_fd s); by wp_steps. }
  intros b s' t' ->. destruct b; cbn [negb]; wp_steps.
  2: { destruct (Hclosed (with_file false (sv_tmp s) s) false (sv_tmp s) eq_refl eq_refl) as [? ?].
       split_and!; [by right|done|done|done|done|by intros]. }
  assert (∀ f, sv_rdb (put_rdb f (sv_server s)) = f) as Hput by done.
  assert (complete (sv_server s) → complete (put_rdb committed (sv_server s))) as Hcomp.
  { intros [_ Hl]. split; [done|by apply Hloaded]. }
  unfold committed in *. destruct (strlen snap =? 0) eqn:Hz; to_prop; wp_steps.
  - destruct (sinv_files s false None (put_rdb None (sv_server s)) Hi eq_refl) as [H1 H2]; [by apply Hgood, Hi|done|].
    split_and!; [by left|done..].
  - cbn [sv_tmp with_file]. rewrite (si_fd _ _ Hi (Hfd ltac:(lia))). pose proof (si_off _ _ Hi) as Ho. rewrite Ho.
    assert (take (Z.to_nat (strlen snap)) snap = snap) as -> by (unfold strlen; by rewrite Nat2Z.id, firstn_all).
    destruct (sys_ok E t'); wp_steps.
    + destruct (sinv_files s false None (put_rdb (Some snap) (sv_server s)) Hi eq_refl) as [H1 H2]; [by apply Hgood, Hi|done|].
      split_and!; [by left|done..].
    + destruct (Hclosed (with_file false (Some snap) s) false (Some snap) eq_refl eq_refl) as [? ?].
      split_and!; [by right|done|done|done|done|by intros].
Qed.

Lemma finish_chunk_spec E s t :
  loads E → sinv true s → (strlen snap ≠ 0 → sv_fd s = true) →
  wp (finish_chunk (chunk_header (sv_next_seq s))) (λ r s' _, sinv true s' ∧ ∀ R, grows R true true s s') E s t.
Proof.
  intros Hload Hi Hfd. unfold finish_chunk. set (q := sv_next_seq s). cbn [chunk_header h_total_size h_seq].
  pose proof (si_seq _ _ Hi) as Hc. fold q in Hc. pose proof (chunk_bounds q Hc) as Hb.
  wp_step. eapply wp_mono; [by apply commit_spec|].
  intros r s1 t1 (Hr & Hi1 & Hg1 & Hq1 & Hfd1 & Hrdb). destruct (r =? 0) eqn:Hz; to_prop; cbn [negb].
  2: { eapply wp_mono; [apply (slave_error_spec E s1 t1 true q 110); [done|lia|lia]|].
       intros _ s2 _ (_ & _ & Hi2 & Hg2 & _). split; [done|]. intros R. by eapply grows_trans. }
  wp_step. unfold on_server. wp_step. eapply wp_mono; [apply Hload; [apply Hi1|by apply Hrdb]|].
  intros r2 x t2 (-> & Hx & Hrx & Hlx). cbn [negb Z.eqb].
  assert (complete x) as Hcx by (split; [rewrite Hrx; by apply Hrdb|done]).
  destruct (sinv_files s1 false (sv_tmp s1) x Hi1 eq_refl Hx ltac:(done)) as [Hi2 Hg2].
  assert (with_server x (with_file false (sv_tmp s1) s1) = with_server x s1) as Heq.
  { rewrite <-Hfd1. by destruct s1. }
  rewrite Heq in Hi2, Hg2.
  assert (sv_next_seq (with_server x s1) = q ∧ sv_server (with_server x s1) = x) as [Hq2 Hx2] by done.
  set (s2 := with_server x s1) in *. clearbody s2.
  wp_step. wp_step. wp_step. eapply wp_mono.
  { apply (slave_post_spec E s2 t2 true).
    - done.
    - assert (0 ≤ sv_offset s2 < 2 ^ 63) by (rewrite (si_off _ _ Hi2); pose proof (strlen_nonneg snap); lia).
      split; cbn [c_magic c_type c_seq c_offset c_status]; unfold RDMA_REPL_MAGIC, RDMA_CTRL_DONE; lia.
    - split; [intros Ht; by vm_compute in Ht|]. intros _. rewrite Hx2. split; [done|]. intros q' Hq'.
      split; [done|]. rewrite Hq2. pose proof (chunk_max q' q Hq' Hc ltac:(rewrite <-Hq2; by apply (si_fin _ _ Hi2))).
      destruct (decide (q' = q)); [right; done|left; lia]. }
  intros r3 s3 t3 (_ & Hi3 & Hg3 & Hq3 & Hx3 & _).
  assert (∀ R, grows R true true s s3) as Hg by (intros R; eapply grows_trans; [apply Hg1|]; eapply grows_trans; [apply Hg2|done]).
  destruct (r3 =? 0); cbn [negb]; wp_steps; [|done].
  split; [|intros R; eapply grows_trans; [apply Hg|]; split; try done; tauto].
  destruct Hi3 as [H1 H2 H3 H4 H5 H6 H7 H8 H9 H10 H10' H11 H12 H13]. split; try done.
  intros _. split; [done|]. cbn. by rewrite Hx3, Hx2.
Qed.

(** Chunk [sv_next_seq s] has been taken: its payload is in the file, the offset
    and, unless it is the last, the sequence number are advanced. *)
Lemma sinv_accept (R : Z → Prop) fin s s1 :
  let q := sv_next_seq s in
  sinv fin s → R q → sv_offset s = chunk_off q →
  (chunk_len q = 0 ∧ s1 = s) ∨
  (0 < chunk_len q ∧ s1 = with_file true (Some (take (Z.to_nat (chunk_off q + chunk_len q)) snap)) s) →
  let s2 := with_seqs (sv_offset s1 + chunk_len q) (if chunk_last q then q else q + 1) (sv_last_acked s1) s1 in
  sinv (chunk_last q) s2 ∧ grows R fin (chunk_last q) s s2 ∧
  (chunk_last q = true → strlen snap ≠ 0 → sv_fd s2 = true).
Proof.
  intros q Hi HR Hoff Hs1 s2. pose proof (si_seq _ _ Hi) as Hc. fold q in Hc. pose proof (chunk_bounds q Hc) as Hb.
  assert (fin = true → chunk_last q = true) as Hfl by apply (si_fin _ _ Hi).
  assert (sv_offset s1 = chunk_off q ∧ sv_next_seq s1 = q ∧ sv_server s1 = sv_server s ∧ sv_conn s1 = sv_conn s ∧
          sv_done_posted s1 = sv_done_posted s) as (E1 & E2 & E3 & E4 & E5) by (destruct Hs1 as [[_ ->]|[_ ->]]; done).
  assert (grows R fin (chunk_last q) s s2) as Hg.
  { split.
    - intros q' [Hq' Hacc]. split; [done|]. cbn. fold q in Hacc. destruct (chunk_last q); [|lia].
      destruct Hacc as [?|[_ ?]]; [by left|by right].
    - intros q' [Hq' Hacc]. cbn in Hacc. unfold accepted. fold q. destruct (decide (q' < q)); [left; split; [done|by left]|].
      right. replace q' with q; [done|]. destruct (chunk_last q); lia.
    - unfold s2. cbn [sv_server with_seqs]. by rewrite E3.
    - unfold s2. cbn [sv_conn with_seqs]. by rewrite E4. }
  assert (chunk_last q = true → strlen snap ≠ 0 → sv_fd s2 = true) as Hopen.
  { intros _ Hnz. pose proof (strlen_nonneg snap). destruct (chunk_nonempty q Hc ltac:(lia)) as [_ Hpos].
    destruct Hs1 as [[? _]|[_ ->]]; [lia|done]. }
  split; [|done]. destruct Hi as [H1 H2 H3 H4 H5 H6 H7 H8 H9 H10 H10' H11 H12 H13].
  split; unfold s2; cbn [sv_conn sv_server sv_next_seq sv_offset sv_fd sv_tmp sv_done_posted with_seqs]; try (by rewrite ?E4, ?E3).
  - destruct (chunk_last q) eqn:Hl; [done|]. by apply chunk_next.
  - rewrite E1. destruct (chunk_last q) eqn:Hl; [by apply chunk_end|]. by apply chunk_next.
  - intros Hl. by rewrite Hl.
  - rewrite E1. destruct Hs1 as [[Hz ->]|[_ ->]]; [|done]. rewrite Hz, Z.add_0_r, <-Hoff. done.
  - rewrite E1. destruct Hs1 as [[Hz ->]|[_ ->]]; [|done]. rewrite Hz, Z.add_0_r. intros Hf.
    destruct (H9 Hf) as [Hfin|Ho]; [left; by apply Hfl|right; lia].
  - intros Hl. rewrite E3. apply H10'. destruct fin; [|done]. by rewrite Hfl in Hl.
  - rewrite E5, E3. intros Hd. destruct (H11 Hd) as [Hfin ?]. split; [by apply Hfl|done].
  - rewrite E4. intros b Hb'. eapply ctrl_slot_mono; [exact Hg|]. by apply H12.
Qed.

Lemma process_chunk_spec E s t fin (R : Z → Prop) slot :
  loads E → writes_progress E → sinv fin s →
  (∀ b, b ∈ cn_data (sv_conn s) → versioned b → ∃ q, chunk q ∧ chunk_bytes q `prefix_of` b ∧ R q) →
  wp (process_rdma_chunk slot) (λ _ s' _, ∃ fin', sinv fin' s' ∧ grows R fin fin' s s') E s t.
Proof.
  intros Hload Hwrite Hi Hdata. unfold process_rdma_chunk. wp_step. wp_step. unfold id.
  assert (∀ q, chunk q → 0 ≤ q < 2 ^ 64) as Hrange by (intros q Hq; pose proof (chunk_bounds q Hq); lia).
  assert (∀ t q st, chunk q → 0 ≤ st < 2 ^ 32 →
    wp (slave_post_error q st) (λ _ s' _, ∃ fin', sinv fin' s' ∧ grows R fin fin' s s') E s t) as Herr.
  { intros t' q st Hq Hst. eapply wp_mono; [apply (slave_error_spec E s t' fin q st); auto|].
    intros _ s' _ (_ & _ & Hi' & Hg' & _). exists fin. by split. }
  pose proof (si_seq _ _ Hi) as Hc. rewrite (si_count _ _ Hi).
  destruct (decide (count ≤ slot)%nat) as [Hge|Hlt]; [apply Herr; [done|lia]|].
  destruct (lookup_lt_is_Some_2 (cn_data (sv_conn s)) slot) as [b Hb]; [rewrite (si_data _ _ Hi); lia|].
  wp_step. apply wp_on_sconn. eapply wp_slot_mem; [done|]. rewrite with_conn_id.
  destruct ((h_magic (decode_header b) =? RDMA_REPL_MAGIC) && (h_version (decode_header b) =? RDMA_REPL_VERSION)) eqn:Hmv;
    cbn [negb]; [|apply Herr; [done|lia]]. to_prop.
  destruct (Hdata b) as (q & Hq & Hpre & HR); [by eapply list_elem_of_lookup_2|done|].
  destruct (chunk_decode q b Hq Hpre) as [-> Hpay]. cbn [chunk_header h_header_len h_slot_id h_seq h_len h_offset].
  rewrite Z.eqb_refl. cbn [negb]. destruct (_ =? Z.of_nat slot); cbn [negb]; [|apply Herr; [done|lia]].
  destruct (q =? sv_next_seq s) eqn:Hqs; cbn [negb]; [|apply Herr; [done|lia]].
  destruct (_ <? chunk_len q); [apply Herr; [done|lia]|].
  destruct (u64 (sv_offset s) =? chunk_off q) eqn:Ho; cbn [negb]; [|apply Herr; [done|lia]]. to_prop. subst q.
  assert (sv_offset s = chunk_off (sv_next_seq s)) as Hoff.
  { rewrite <-Ho. symmetry. unfold u64. apply Z.mod_small. rewrite (si_off _ _ Hi).
    pose proof (strlen_nonneg snap). pose proof (chunk_bounds _ Hc). destruct fin; lia. }
  rewrite Hpay. wp_step. eapply wp_mono; [by apply (store_chunk_spec E s t fin)|].
  intros r s1 t1 [[-> ->]|[-> Hs1]]; cbn [negb Z.eqb]; [apply Herr; [done|lia]|].
  destruct (sinv_accept R fin s s1 Hi HR Hoff Hs1) as (Hi2 & Hg2 & Hopen).
  assert (sv_next_seq s1 = sv_next_seq s) as Hq1 by (destruct Hs1 as [[_ ->]|[_ ->]]; done).
  wp_step. wp_step.
  assert (h_is_last (chunk_header (sv_next_seq s)) = if chunk_last (sv_next_seq s) then 1 else 0) as -> by done.
  destruct (chunk_last (sv_next_seq s)) eqn:Hl; cbn [negb Z.eqb].
  - rewrite Hq1. set (s2 := with_seqs _ _ _ s1) in *. change (sv_next_seq s) with (sv_next_seq s2).
    eapply wp_mono; [apply finish_chunk_spec; [done|done|by apply Hopen]|].
    intros _ s3 _ [Hi3 Hg3]. exists true. split; [done|]. by eapply grows_trans.
  - wp_step. wp_step. cbn [sv_offset sv_next_seq sv_last_acked with_seqs]. rewrite Hq1.
    set (s2 := with_seqs _ _ _ _).
    assert (sinv false s2 ∧ grows R fin false s s2 ∧ sv_next_seq s2 = sv_next_seq s + 1) as (Hi3 & Hg3 & Hq3).
    { by split_and!. }
    clearbody s2. wp_step. wp_step. unfold id. destruct (RDMA_REPL_ACK_EVERY <=? _); [|wp_steps; by exists false].
    wp_step. unfold slave_post_ack. wp_step. eapply wp_mono.
    { apply (slave_post_spec E s2 t1 false); [done| |].
      - assert (0 ≤ sv_offset s2 < 2 ^ 63).
        { rewrite (si_off _ _ Hi3). pose proof (chunk_bounds _ (si_seq _ _ Hi3)). lia. }
        pose proof (Hrange _ Hc).
        split; cbn [c_magic c_type c_seq c_offset c_status]; unfold RDMA_REPL_MAGIC, RDMA_CTRL_ACK; lia.
      - split; [|intros Ht; by vm_compute in Ht]. intros _ q' Hle Hq'. split; [done|]. left. cbn in Hle. lia. }
    intros r s3 t3 (_ & Hi4 & Hg4 & _).
    destruct (r =? 0); cbn [negb]; wp_steps; cbn [negb Z.eqb]; wp_steps; exists false.
    + split.
      * destruct Hi4 as [G1 G2 G3 G4 G5 G6 G7 G8 G9 G10 G10' G11 G12 G13]. by split.
      * eapply grows_trans; [exact Hg3|]. eapply grows_trans; [apply Hg4|]. split; try done; tauto.
    + split; [done|]. eapply grows_trans; [exact Hg3|apply Hg4].
Qed.

(** Steps on the connection that leave sends, data and posted work alone. *)
Lemma sinv_quiet fin s c :
  sinv fin s → conn_ok c → cn_slot_size c = cn_slot_size (sv_conn s) → cn_slot_count c = cn_slot_count (sv_conn s) →
  cn_data c = cn_data (sv_conn s) → cn_send c = cn_send (sv_conn s) → cn_posted c = cn_posted (sv_conn s) →
  sinv fin (with_conn c s) ∧ ∀ R, grows R fin fin s (with_conn c s).
Proof.
  intros Hi Hok Hs Hc Hd Hsend Hp. apply sinv_conn; try done.
  - by rewrite Hs, (si_size _ _ Hi).
  - by rewrite Hc, (si_count _ _ Hi).
  - rewrite Hsend. apply (si_send _ _ Hi).
  - rewrite Hp. apply (si_posted _ _ Hi).
Qed.

Lemma slave_flags_spec E s t fin (x : M conn unit) f :
  sinv fin s → (∀ c, ∃ a b d, f c = set_flags a b d c) → x = modify f →
  wp (on_sconn x) (λ _ s' _, sinv fin s' ∧ ∀ R, grows R fin fin s s') E s t.
Proof.
  intros Hi Hf ->. apply wp_on_sconn. wp_step. destruct (Hf (sv_conn s)) as (a & b & d & ->).
  apply sinv_quiet; try done. by apply conn_ok_flags, Hi.
Qed.

Lemma slave_fails_spec E s t fin :
  sinv fin s → wp slave_fails (λ _ s' _, sinv fin s' ∧ ∀ R, grows R fin fin s s') E s t.
Proof.
  intros Hi. unfold slave_fails. wp_step. eapply wp_mono; [eapply slave_flags_spec; [done| |reflexivity]; eauto|].
  intros _ s1 t1 [Hi1 Hg1]. eapply wp_mono; [eapply slave_flags_spec; [done| |reflexivity]; eauto|].
  intros _ s2 t2 [Hi2 Hg2]. split; [done|]. intros R. by eapply grows_trans.
Qed.

Lemma slave_recv_spec E s t fin slot :
  sinv fin s → wp (on_sconn (post_recv_slot slot)) (λ _ s' _, sinv fin s' ∧ ∀ R, grows R fin fin s s') E s t.
Proof.
  intros Hi. apply wp_on_sconn, wp_post_recv.
  - intros t' _. apply sinv_quiet; try done. apply Hi.
  - intros t' f Hlt. cbv zeta. pose proof (conn_ok_recv _ slot f (si_conn _ _ Hi) Hlt) as Hok. cbv zeta in Hok.
    destruct f; apply sinv_quiet; done.
Qed.

Lemma slave_completion_spec E s t fin (R : Z → Prop) w :
  loads E → writes_progress E → sinv fin s →
  (∀ b, b ∈ cn_data (sv_conn s) → versioned b → ∃ q, chunk q ∧ chunk_bytes q `prefix_of` b ∧ R q) →
  match wc_ctx w with
  | OfRecv r => (r < RDMA_REPL_CTRL_RECV_DEPTH)%nat
  | OfSend r => (r < RDMA_REPL_SEND_SLOTS)%nat
  end →
  wp (on_rdma_recv_complete w) (λ _ s' _, ∃ fin', sinv fin' s' ∧ grows R fin fin' s s') E s t.
Proof.
  intros Hload Hwrite Hi Hdata Hw. unfold on_rdma_recv_complete.
  assert (∀ fin1 s1 t1, sinv fin1 s1 → grows R fin fin1 s s1 →
    wp slave_fails (λ _ s' _, ∃ fin', sinv fin' s' ∧ grows R fin fin' s s') E s1 t1) as Hfails.
  { intros fin1 s1 t1 Hi1 Hg1. eapply wp_mono; [by apply slave_fails_spec|]. intros _ s2 _ [Hi2 Hg2].
    exists fin1. split; [done|]. by eapply grows_trans. }
  destruct (wc_success w); cbn [negb]; [|apply (Hfails fin); [done|apply grows_refl]].
  wp_step. wp_step. unfold id. destruct (wc_ctx w) as [slot|slot].
  - rewrite Nat.mod_small by done.
    destruct (lookup_lt_is_Some_2 (cn_ctrl (sv_conn s)) slot) as [b Hb]; [by rewrite (co_ctrl _ (si_conn _ _ Hi))|].
    wp_step. apply wp_on_sconn. eapply wp_slot_mem; [done|]. rewrite with_conn_id.
    destruct (negb (_ && _)); [apply (Hfails fin); [done|apply grows_refl]|].
    wp_step. eapply wp_mono; [by apply (process_chunk_spec E s t fin R)|].
    intros r s1 t1 (fin1 & Hi1 & Hg1). destruct (negb (r =? 0)); [by apply (Hfails fin1)|].
    wp_step. wp_step. unfold id. destruct (sv_done_posted s1); [wp_steps; by exists fin1|].
    wp_step. eapply wp_mono; [by apply slave_recv_spec|]. intros r2 s2 t2 [Hi2 Hg2].
    assert (grows R fin fin1 s s2) as Hg by (by eapply grows_trans).
    destruct (negb (r2 =? 0)); [|wp_steps; by exists fin1].
    eapply wp_mono; [eapply slave_flags_spec; [done| |reflexivity]; eauto|].
    intros _ s3 _ [Hi3 Hg3]. exists fin1. split; [done|]. by eapply grows_trans.
  - destruct (lookup_lt_is_Some_2 (cn_send_ctx (sv_conn s)) slot) as [x Hx]; [by rewrite (co_ctx _ (si_conn _ _ Hi))|].
    rewrite Hx. destruct (_ && _); [|wp_steps; exists fin; split; [done|apply grows_refl]].
    eapply wp_mono; [eapply slave_flags_spec; [done| |reflexivity]; eauto|].
    intros _ s1 _ [Hi1 Hg1]. exists fin. by split.
Qed.

(** ** The whole system *)

Record sync_inv (s : sync V) (fin : bool) : Prop := {
  sy_m : minv (accepted fin (sy_slave s)) (complete (sv_server (sy_slave s))) (sy_master s);
  sy_s : sinv fin (sy_slave s);
  sy_d : ∀ b, b ∈ cn_data (sv_conn (sy_slave s)) → versioned b →
           ∃ q, chunk q ∧ chunk_bytes q `prefix_of` b ∧
             (q < ms_next_seq (sy_master s) ∧ q ∉ writes (cn_posted (ms_conn (sy_master s))))
}.

Lemma minv_mono (acc acc' : Z → Prop) (done done' : Prop) m :
  minv acc done m → (∀ q, acc q → acc' q) → (done → done') →
  (∀ q, acc' q → acc q ∨ (q < ms_next_seq m ∧ q ∉ writes (cn_posted (ms_conn m)))) →
  minv acc' done' m.
Proof.
  intros [Hconn Hs Hcn Hseq Hat Hlen Hslots Hwr Hnd' Hctrl Hacc Hdone Hstate] Ha Hd Hnew.
  split; try done; eauto.
  - intros i st Hi Hu. destruct (Hslots i st Hi Hu) as (? & ? & ? & ?). split_and!; eauto.
  - intros s len r q Hw. destruct (Hwr _ _ _ _ Hw) as (A1 & A2 & A3 & A4).
    split; [done|]. split; [done|]. split; [|done]. intros [?|[_ Hn]]%Hnew; [done|]. apply Hn, elem_of_writes. eauto.
  - intros b Hb. eapply ctrl_ok_mono; [exact Ha|exact Hd|by apply Hctrl].
  - intros q [?%Hacc|[? _]]%Hnew; lia.
Qed.

(** *** Queues *)

Lemma conn_ok_pop c w q : conn_ok c → cn_cq c = w :: q → conn_ok (set_queues (cn_posted c) (cn_performed c) q c).
Proof.
  intros [H1 H2 H3 H4 H5 H6] Hq. split; m_simpl; try done. intros w' Hw'. apply H6. rewrite Hq. by right.
Qed.

Lemma conn_ok_complete c : conn_ok c → conn_ok (complete_wr c).
Proof.
  intros Hok. unfold complete_wr. destruct (cn_performed c) as [|w ws] eqn:Hp; [done|].
  destruct Hok as [H1 H2 H3 H4 H5 H6]. rewrite Hp in H4. split; m_simpl; try done.
  - intros w' Hw'. apply H4. set_solver.
  - intros w' [Hw'| ->%list_elem_of_singleton]%elem_of_app; [by apply H6|]. cbn. apply H4. set_solver.
Qed.

(** The sender's side of performed work. *)
Lemma conn_ok_sender c w l (f : bool) :
  conn_ok c → cn_posted c = w :: l →
  conn_ok (if f then set_queues l (cn_performed c ++ [w]) (cn_cq c) c
           else set_queues l (cn_performed c) (cn_cq c ++ [Wc false (OfSend (wr_slot w))]) c).
Proof.
  intros [H1 H2 H3 H4 H5 H6] Hp. rewrite Hp in H4. destruct f; split; m_simpl; try done.
  - intros w' Hw'. apply H4. set_solver.
  - intros w' Hw'. apply H4. set_solver.
  - intros w' [Hw'| ->%list_elem_of_singleton]%elem_of_app; [by apply H6|]. cbn. apply H4. set_solver.
Qed.

(** The receiver's side. *)
Lemma conn_ok_receiver c r rs g :
  conn_ok c → cn_recvs c = r :: rs →
  conn_ok (set_queues (cn_posted c) (cn_performed c) (cn_cq c ++ [Wc true (OfRecv r)])
            (set_ctrl (alter g r (cn_ctrl c)) rs c)).
Proof.
  intros [H1 H2 H3 H4 H5 H6] Hr. split; m_simpl; try done.
  - by rewrite length_alter.
  - intros r' Hr'. apply H5. rewrite Hr. by right.
  - intros w' [Hw'| ->%list_elem_of_singleton]%elem_of_app; [by apply H6|]. cbn. apply H5. rewrite Hr. left.
Qed.

(** The master's invariant when its connection changes in the queues only. *)
Lemma minv_queues acc done m c :
  minv acc done m → conn_ok c → cn_slot_size c = cn_slot_size (ms_conn m) → cn_slot_count c = cn_slot_count (ms_conn m) →
  cn_send c = cn_send (ms_conn m) → (∀ b, b ∈ cn_ctrl c → ctrl_ok acc done (decode_ctrl b)) →
  (∀ w, w ∈ cn_posted c → w ∈ cn_posted (ms_conn m)) → NoDup (writes (cn_posted c)) →
  minv acc done (set_conn c m).
Proof.
  intros [Hconn Hs Hcn Hseq Hat Hlen Hslots Hwr Hnd' Hctrl Hacc Hdone Hstate] Hok E1 E2 E3 E4 E5 E6.
  split; m_simpl; try done; try congruence. intros s len r q Hw. rewrite E3. by apply Hwr, E5.
Qed.

Lemma in_alter {A} (g : A → A) (l : list A) i x : x ∈ alter g i l → x ∈ l ∨ ∃ y, l !! i = Some y ∧ x = g y.
Proof.
  intros [j Hj]%list_elem_of_lookup. destruct (decide (j = i)) as [->|Hne].
  - rewrite list_lookup_alter_eq in Hj. apply fmap_Some in Hj as (y & Hy & ->). right. eauto.
  - rewrite list_lookup_alter_ne in Hj by done. left. by eapply list_elem_of_lookup_2.
Qed.

Lemma versioned_take (n : nat) bs k :
  (6 ≤ n)%nat → (6 ≤ length bs)%nat → versioned (take n bs ++ k) → versioned bs.
Proof.
  intros Hn Hl. unfold versioned, field.
  rewrite drop_app_le by (rewrite length_take; lia). rewrite take_app_le by (rewrite length_drop, length_take; lia).
  rewrite skipn_firstn_comm, firstn_firstn, Nat.min_l by lia. done.
Qed.

Lemma sync_master_perform E s t fin :
  sync_inv s fin → wp (sync_step MasterPerform) (λ _ s' _, ∃ fin', sync_inv s' fin') E s t.
Proof.
  intros Hinv. pose proof Hinv as [Hm Hs Hd]. unfold sync_step. wp_step. wp_step. unfold id.
  destruct (cn_posted (ms_conn (sy_master s))) as [|w l] eqn:Hp; [wp_steps; by exists fin|].
  destruct (link_up s); [|wp_steps; by exists fin]. wp_step. exists fin.
  pose proof (mi_conn _ _ _ Hm) as Hca. pose proof (si_conn _ _ Hs) as Hcb.
  pose proof (mi_nodup _ _ _ Hm) as Hnd. rewrite Hp in Hnd.
  assert (NoDup (writes l)) as Hndl by (destruct w; [done|by apply NoDup_cons in Hnd as [_ ?]]).
  assert (∀ q, q ∉ writes (w :: l) → q ∉ writes l) as Hsub.
  { intros q Hq Hin. apply Hq. destruct w; [done|by right]. }
  assert (∀ f : bool, minv (accepted fin (sy_slave s)) (complete (sv_server (sy_slave s)))
    (set_conn (if f then set_queues l (cn_performed (ms_conn (sy_master s)) ++ [w]) (cn_cq (ms_conn (sy_master s))) (ms_conn (sy_master s))
      else set_queues l (cn_performed (ms_conn (sy_master s))) (cn_cq (ms_conn (sy_master s)) ++ [Wc false (OfSend (wr_slot w))])
             (ms_conn (sy_master s))) (sy_master s))) as Hma.
  { intros f. apply minv_queues; try by destruct f.
    - by apply conn_ok_sender.
    - destruct f; apply (mi_ctrl _ _ _ Hm).
    - rewrite Hp. destruct f; m_simpl; intros w' Hw'; by right. }
  destruct w as [slot len|slot len remote q]; cbn [perform_wr]; rewrite Hp; cbn [tail].
  - destruct (cn_recvs (sv_conn (sy_slave s))) as [|r rs] eqn:Hr; cbn [fst snd].
    + split; cbn [sy_master sy_slave].
      * rewrite with_conn_id. apply (Hma false).
      * by rewrite with_conn_id.
      * intros b Hb Hv. destruct (Hd b Hb Hv) as (q & H1 & H2 & H3 & H4). exists q. split_and!; try done.
    + split; cbn [sy_master sy_slave].
      * apply (Hma true).
      * apply sinv_quiet; try done. by apply conn_ok_receiver.
      * intros b Hb Hv. destruct (Hd b Hb Hv) as (q & H1 & H2 & H3 & H4). exists q. split_and!; try done.
  - cbn [fst snd].
    destruct (mi_writes _ _ _ Hm slot len remote q) as (Hq & Hlt & Hna & -> & -> & -> & (bs & Hbs & Hlen & Hv) & _);
      [rewrite Hp; left|].
    rewrite Hbs. cbn [default]. unfold id. set (g := λ old : bytes, _).
    split; cbn [sy_master sy_slave].
    + apply (Hma true).
    + destruct Hs as [H1 H2 H3 H4 H5 H6 H7 H8 H9 H10 H10' H11 H12 H13]. destruct Hcb as [C1 C2 C3 C4 C5 C6].
      split; try done. cbn. by rewrite length_alter.
    + intros b [Hb|(old & Hold & ->)]%in_alter Hver.
      * destruct (Hd b Hb Hver) as (q' & G1 & G2 & G3 & G4). exists q'. split_and!; try done. by apply Hsub.
      * exists q. assert (chunk_bytes q `prefix_of` bs) as [k Hk].
        { apply Hv. pose proof (chunk_bounds q Hq). unfold HEADER_SIZE in *.
          eapply versioned_take; [| |exact Hver]; lia. }
        split_and!; [done| |done|].
        -- subst g. cbv beta. rewrite memcpy_at_0, Hk, <-(chunk_bytes_length q Hq). unfold strlen.
           rewrite Nat2Z.id, take_app_length. by eexists.
        -- cbn. by apply NoDup_cons in Hnd as [? _].
Qed.

(** What the master finds in a control slot after the slave's send. *)
Lemma ctrl_delivered fin x old b :
  ctrl_slot_ok fin x b → ctrl_ok (accepted fin x) (complete (sv_server x)) (decode_ctrl old) →
  ctrl_ok (accepted fin x) (complete (sv_server x)) (decode_ctrl (memcpy_at old 0 (take (Z.to_nat CTRL_SIZE) b))).
Proof.
  intros [->|(c & k & -> & Hfit & Hc)] Hold; [done|]. rewrite memcpy_at_0.
  rewrite take_app_length' by (by rewrite encode_ctrl_length). by rewrite decode_encode_ctrl.
Qed.

Lemma sync_slave_perform E s t fin :
  sync_inv s fin → wp (sync_step SlavePerform) (λ _ s' _, ∃ fin', sync_inv s' fin') E s t.
Proof.
  intros Hinv. pose proof Hinv as [Hm Hs Hd]. unfold sync_step. wp_step. wp_step. unfold id.
  destruct (cn_posted (sv_conn (sy_slave s))) as [|w l] eqn:Hp; [wp_steps; by exists fin|].
  destruct (link_up s); [|wp_steps; by exists fin]. wp_step. exists fin.
  destruct (si_posted _ _ Hs w) as [slot ->]; [rewrite Hp; left|].
  pose proof (mi_conn _ _ _ Hm) as Hca. pose proof (si_conn _ _ Hs) as Hcb.
  assert (∀ f : bool, let c := if f then set_queues l (cn_performed (sv_conn (sy_slave s)) ++ [WrSend slot CTRL_SIZE])
             (cn_cq (sv_conn (sy_slave s))) (sv_conn (sy_slave s))
           else set_queues l (cn_performed (sv_conn (sy_slave s))) (cn_cq (sv_conn (sy_slave s)) ++ [Wc false (OfSend slot)])
             (sv_conn (sy_slave s)) in sinv fin (with_conn c (sy_slave s))) as Hsc.
  { intros f c. apply sinv_conn; try (subst c; by destruct f).
    - apply (conn_ok_sender _ (WrSend slot CTRL_SIZE) l f Hcb Hp).
    - subst c. rewrite <-(si_size _ _ Hs). by destruct f.
    - subst c. rewrite <-(si_count _ _ Hs). by destruct f.
    - subst c. destruct f; apply (si_send _ _ Hs).
    - intros w Hw. apply (si_posted _ _ Hs). rewrite Hp. right. subst c. by destruct f. }
  cbn [perform_wr]. rewrite Hp. cbn [tail].
  destruct (cn_recvs (ms_conn (sy_master s))) as [|r rs] eqn:Hr; cbn [fst snd]; rewrite ?set_conn_id;
    split; cbn [sy_master sy_slave]; try done.
  - apply (Hsc false).
  - apply minv_queues; try done; [by apply conn_ok_receiver| |apply (mi_nodup _ _ _ Hm)].
    intros b [Hb|(old & Hold & ->)]%in_alter; [by apply (mi_ctrl _ _ _ Hm)|].
    destruct (lookup_lt_is_Some_2 (cn_send (sv_conn (sy_slave s))) slot) as [bs Hbs].
    { rewrite (co_send _ Hcb). apply (co_perf _ Hcb (WrSend slot CTRL_SIZE)). rewrite Hp. left. }
    rewrite Hbs. cbn [default]. unfold id.
    apply (ctrl_delivered fin (with_conn _ (sy_slave s))).
    + apply (si_send _ _ Hs). by eapply list_elem_of_lookup_2.
    + apply (mi_ctrl _ _ _ Hm). by eapply list_elem_of_lookup_2.
  - apply (Hsc true).
Qed.

Lemma sync_complete E s t fin e :
  e = MasterComplete ∨ e = SlaveComplete →
  sync_inv s fin → wp (sync_step e) (λ _ s' _, ∃ fin', sync_inv s' fin') E s t.
Proof.
  intros He Hinv. pose proof Hinv as [Hm Hs Hd]. unfold sync_step. wp_step. wp_step. unfold id.
  destruct He as [-> | ->]; wp_step; exists fin; split; cbn [sy_master sy_slave]; try done.
  - pose proof (conn_ok_complete _ (mi_conn _ _ _ Hm)) as Hok. unfold complete_wr in *.
    destruct (cn_performed (ms_conn (sy_master s))).
    + by rewrite set_conn_id.
    + apply minv_queues; try done; [apply (mi_ctrl _ _ _ Hm)|apply (mi_nodup _ _ _ Hm)].
  - intros b Hb Hv. destruct (Hd b Hb Hv) as (q & H1 & H2 & H3 & H4). exists q. split_and!; try done.
    unfold complete_wr. by destruct (cn_performed _).
  - pose proof (conn_ok_complete _ (si_conn _ _ Hs)) as Hok. unfold complete_wr in *.
    destruct (cn_performed (sv_conn (sy_slave s))).
    + by rewrite with_conn_id.
    + by apply sinv_quiet.
  - intros b Hb Hv. apply Hd; [|done]. cbn in Hb. unfold complete_wr in Hb. by destruct (cn_performed _).
Qed.

Lemma sync_master_handle E s t fin :
  sync_inv s fin → wp (sync_step MasterHandle) (λ _ s' _, ∃ fin', sync_inv s' fin') E s t.
Proof.
  intros Hinv. pose proof Hinv as [Hm Hs Hd]. unfold sync_step. wp_step. wp_step. unfold id.
  destruct (cn_cq (ms_conn (sy_master s))) as [|w q] eqn:Hq; [wp_steps; by exists fin|].
  unfold at_master. wp_step. wp_step. apply wp_on_mconn. wp_step.
  pose proof (co_cq _ (mi_conn _ _ _ Hm) w ltac:(rewrite Hq; left)) as Hw.
  pose proof (conn_ok_pop _ w q (mi_conn _ _ _ Hm) Hq) as Hok.
  eapply wp_mono; [apply master_completion_spec; [|done]|].
  { apply (minv_queues _ _ _ _ Hm Hok); try done; [apply (mi_ctrl _ _ _ Hm)|apply (mi_nodup _ _ _ Hm)]. }
  intros _ m' t' [Hm' [Hl1 Hl2]]. exists fin. split; cbn [sy_master sy_slave]; try done.
  intros b Hb Hv. destruct (Hd b Hb Hv) as (q' & H1 & H2 & H3 & H4). exists q'. cbn in Hl1. split_and!; try done; [lia|].
  by apply Hl2.
Qed.

Lemma sync_slave_handle E s t fin :
  loads E → writes_progress E →
  sync_inv s fin → wp (sync_step SlaveHandle) (λ _ s' _, ∃ fin', sync_inv s' fin') E s t.
Proof.
  intros Hload Hwr Hinv. pose proof Hinv as [Hm Hs Hd]. unfold sync_step. wp_step. wp_step. unfold id.
  destruct (cn_cq (sv_conn (sy_slave s))) as [|w q] eqn:Hq; [wp_steps; by exists fin|].
  unfold at_slave. wp_step. wp_step. apply wp_on_sconn. wp_step.
  pose proof (co_cq _ (si_conn _ _ Hs) w ltac:(rewrite Hq; left)) as Hw.
  pose proof (conn_ok_pop _ w q (si_conn _ _ Hs) Hq) as Hok.
  destruct (sinv_quiet fin _ _ Hs Hok) as [Hs1 Hg1]; try done.
  set (R := λ q, q < ms_next_seq (sy_master s) ∧ q ∉ writes (cn_posted (ms_conn (sy_master s)))).
  eapply wp_mono; [apply (slave_completion_spec E _ t fin R); done|].
  intros _ s' t' (fin' & Hs' & Hg'). exists fin'.
  pose proof (grows_trans R _ _ _ _ _ _ (Hg1 R) Hg') as [G1 G2 G3 G4].
  split; cbn [sy_master sy_slave].
  - eapply minv_mono; [exact Hm|done|done|]. intros q' Hq'. by apply G2 in Hq'.
  - done.
  - rewrite G4. exact Hd.
Qed.

Lemma sync_run_spec E s t fin es :
  loads E → writes_progress E → sync_inv s fin →
  wp (sync_run es) (λ _ s' _, ∃ fin', sync_inv s' fin') E s t.
Proof.
  intros Hload Hwr. revert s t fin. induction es as [|e es IH]; intros s t fin Hi; cbn [sync_run].
  { wp_steps. by exists fin. }
  wp_step. eapply (wp_mono _ (λ _ s' _, ∃ fin', sync_inv s' fin')).
  2: { intros _ s' t' [fin' Hi']. by eapply IH. }
  destruct e; [by eapply sync_master_perform|eapply sync_complete; [by left|done]|by eapply sync_master_handle
    |by eapply sync_slave_perform|eapply sync_complete; [by right|done]|by eapply sync_slave_handle].
Qed.

(** ** The start *)

Definition sync0 : sync V := Sync (master0 snap (conn0 slot_size count)) (slave0 x0 (conn0 slot_size count)).

Lemma conn0_ok : conn_ok (conn0 slot_size count).
Proof.
  split; cbn [conn0 cn_send cn_ctrl cn_send_ctx cn_posted cn_performed cn_recvs cn_cq app];
    try apply length_replicate; by intros ? ?%not_elem_of_nil.
Qed.

Lemma sync0_inv : Good x0 → sync_inv sync0 false.
Proof.
  intros Hx. pose proof room_pos as Hroom. pose proof (strlen_nonneg snap) as Hnn.
  assert (∀ b, b ∈ replicate count [] → ¬ versioned b) as Hzero.
  { intros b [j [-> _]%lookup_replicate]%list_elem_of_lookup. intros Hv. by vm_compute in Hv. }
  split; cbn [sy_master sy_slave sync0].
  - split; cbn [ms_conn ms_next_seq ms_slots ms_done ms_state master0]; try done; try apply conn0_ok.
    + right. split; [done|]. split; [done|]. left. split_and!; [by left|done|]. cbn. unfold chunk_off. lia.
    + intros i st [-> _]%lookup_replicate. done.
    + by intros ? ? ? ? ?%not_elem_of_nil.
    + constructor.
    + intros b [j [-> _]%lookup_replicate]%list_elem_of_lookup. split; intros Ht; by vm_compute in Ht.
    + intros q [Hq [Hlt|[? _]]]; [|done]. done.
  - split; cbn [sv_conn sv_server sv_next_seq sv_offset sv_fd sv_done_posted slave0]; try done; try apply conn0_ok.
    + apply length_replicate.
    + by left.
    + by right.
    + intros b [j [-> _]%lookup_replicate]%list_elem_of_lookup. by left.
    + by intros ? ?%not_elem_of_nil.
  - intros b Hb Hv. by destruct (Hzero b Hb Hv).
Qed.

Lemma slave_recvs_spec E s t fin n i :
  sinv fin s → wp (on_sconn (post_recvs n i)) (λ _ s' _, sinv fin s' ∧ ∀ R, grows R fin fin s s') E s t.
Proof.
  revert s t i. induction n as [|n IH]; intros s t i Hi; cbn [post_recvs].
  - apply wp_on_sconn. wp_step. rewrite with_conn_id. split; [done|]. intros R. apply grows_refl.
  - apply wp_on_sconn. wp_step.
    pose proof (slave_recv_spec E s t fin i Hi) as Hr. unfold on_sconn, wp, zoom in Hr. unfold wp at 1.
    destruct (post_recv_slot i E (sv_conn s) t) as [[[r c] t1]|]; [|done]. destruct Hr as [Hi1 Hg1].
    destruct (negb (r =? 0)); [by wp_steps|].
    specialize (IH _ t1 (S i) Hi1). unfold on_sconn, wp, zoom in IH. unfold wp. cbn [sv_conn with_conn] in IH.
    destruct (post_recvs n (S i) E c t1) as [[[r2 c2] t2]|]; [|done]. destruct IH as [H1 H2].
    split; [done|]. intros R. by eapply grows_trans.
Qed.

Lemma master_recvs_spec E m t acc done n i :
  minv acc done m → wp (on_mconn (post_recvs n i)) (λ _ m' _, minv acc done m' ∧ later m m') E m t.
Proof.
  revert m t i. induction n as [|n IH]; intros m t i Hi; cbn [post_recvs]; apply wp_on_mconn; wp_step.
  - rewrite set_conn_id. done.
  - apply wp_post_recv.
    + intros t' Hge. cbn [negb Z.eqb]. wp_steps. by rewrite set_conn_id.
    + intros t' f Hlt. cbv zeta. pose proof (minv_recv acc done m i f Hi Hlt) as [H1 H2]. cbv zeta in H1, H2.
      destruct f; cbn [negb Z.eqb]; [|by wp_steps].
      specialize (IH _ t' (S i) H1). unfold on_mconn, wp, zoom in IH. unfold wp. cbn [ms_conn set_conn] in IH.
      destruct (post_recvs n (S i) E _ t') as [[[r2 c2] t2]|]; [|done]. destruct IH as [H3 H4].
      split; [done|]. by etrans.
Qed.

Lemma start_spec E m t acc done :
  minv acc done m → wp master_start_fullsync (λ _ m' _, minv acc done m' ∧ later m m') E m t.
Proof.
  intros Hi. unfold master_start_fullsync, post_recv_n, master_pump_locked. wp_step.
  eapply wp_mono; [by apply master_recvs_spec|]. intros r m1 t1 [Hi1 Hl1]. destruct (negb (r =? 0)).
  - wp_step. eapply wp_mono; [by apply wp_disconnect|]. intros _ m2 t2 [? ?]. wp_steps. split; [done|]. by etrans.
  - wp_step. eapply wp_mono; [apply pump_loop_spec; [done|by eapply free_slots_window]|].
    intros r2 m2 t2 [? ?]. destruct (r2 <? 0); wp_steps; (split; [done|by etrans]).
Qed.

(** Every schedule keeps the invariant. *)
Lemma full_sync_inv E t es :
  loads E → writes_progress E → Good x0 →
  wp (full_sync es) (λ _ s _, ∃ fin, sync_inv s fin) E sync0 t.
Proof.
  intros Hload Hwr Hx. unfold full_sync, at_slave, at_master, start_slave, post_recv_n. wp_step. wp_step.
  destruct (sync0_inv Hx) as [Hm Hs Hd].
  eapply wp_mono; [by apply slave_recvs_spec|]. intros _ s1 t1 [Hs1 Hg1]. wp_step. wp_step.
  set (R := λ q, q < ms_next_seq (sy_master sync0) ∧ q ∉ writes (cn_posted (ms_conn (sy_master sync0)))).
  destruct (Hg1 R) as [G1 G2 G3 G4].
  eapply wp_mono; [apply start_spec; eapply (minv_mono _ (accepted false s1) _ (complete (sv_server s1)) _ Hm);
                   [done|done|]; intros q Hq; by apply G2 in Hq|].
  intros _ m2 t2 [Hm2 [Hl1 Hl2]]. cbn [sy_master sy_slave].
  apply (sync_run_spec E _ t2 false); [done|done|]. split; cbn [sy_master sy_slave]; [done|done|].
  rewrite G4. intros b Hb Hv. destruct (Hd b Hb Hv) as (q & H1 & H2 & H3 & H4). exists q.
  split_and!; [done|done|eapply Z.lt_le_trans; [exact H3|exact Hl1]|by apply Hl2].
Qed.
End geometry.
