(* ===== verification/RdmaConn.v ===== *)
(** * Life of an RDMA connection (rdma.h)

    A communication identifier (struct rdma_cm_id) carries a connection manager
    with a protection domain, a completion channel and queue, a queue pair, three
    buffers with their memory regions and a thread that polls for completions.
    Every resource taken from the verbs library, the system or the heap and every
    one given back is recorded, so that leaks, double releases and releases in the
    wrong order are visible in the record of an identifier. *)

From S2P Require Import Prelude Aof AofUring Rdb Rdma Server FullSync.

(** ** Resources *)

Inductive ring := RecvRing | SendRing | CtrlRing.

Inductive resource :=
| EventChannel | CmEvent | CmId
| Manager                       (* the conn_manger_t itself *)
| Pd | Channel | Cq | Qp
| Buf (r : ring) | Mr (r : ring)
| Params                        (* cq_params_t *)
| Poller                        (* the thread of cq_poller *)
| SyncState                     (* conn->user_data *)
| ListenFd | AcceptThread | TcpFd.

#[global] Instance ring_eq_dec : EqDecision ring.
Proof. solve_decision. Defined.
#[global] Instance resource_eq_dec : EqDecision resource.
Proof. solve_decision. Defined.

Inductive call := New (x : resource) | Del (x : resource).

(** What the libraries ask to be gone before a resource is given back: the objects
    built on it, the events of an identifier, the thread that reads it. *)
Definition library_uses (x : resource) : list resource :=
  match x with
  | EventChannel => [CmId; CmEvent]
  | CmId => [Qp; CmEvent]
  | Manager => [Poller]
  | Pd => [Qp; Mr RecvRing; Mr SendRing; Mr CtrlRing]
  | Channel => [Cq; Poller]
  | Cq => [Qp; Poller]
  | Buf r => [Mr r]
  | _ => []
  end.

(** The completion handlers also read the synchronisation state. *)
Definition thread_uses (x : resource) : list resource :=
  match x with SyncState => [Poller] | _ => library_uses x end.

(** A record is replayed from the resources held at its beginning: nothing is
    taken twice, and what is given back is held and not used by anything held. *)
Definition replay1 (uses : resource → list resource) (live : list resource) (c : call) : option (list resource) :=
  match c with
  | New x => if decide (x ∈ live) then None else Some (x :: live)
  | Del x =>
      if decide (x ∈ live) then
        if forallb (λ y, bool_decide (y ∉ live)) (uses x) then Some (filter (.≠ x) live) else None
      else None
  end.

Fixpoint replay (uses : resource → list resource) (live : list resource) (tr : list call) : option (list resource) :=
  match tr with
  | [] => Some live
  | c :: tr' => match replay1 uses live c with Some live' => replay uses live' tr' | None => None end
  end.

(** ** The connection *)

(** rdma_peer_region_t *)
Record rdma_peer_region := PeerRegion {
  pr_addr : Z; pr_rkey : Z; pr_length : Z; pr_slot_size : Z; pr_slot_count : Z; pr_version : Z
}.

(** struct conn_manger: the pointers that are not NULL, the flags, what it knows of
    the peer's memory, and its buffers and queues. *)
Record manger := Manger {
  mg_ptrs       : list resource;
  mg_running    : bool;
  mg_destroying : bool;
  mg_user       : bool;                     (* user_data != NULL *)
  mg_region     : option rdma_peer_region;
  mg_io         : conn
}.

(** What the connection manager of the library does for an identifier. *)
Inductive phase := Created | AddrAsked | RouteAsked | ConnectAsked | Requested | Rejected | Accepted | Up | Closed.

#[global] Instance phase_eq_dec : EqDecision phase.
Proof. solve_decision. Defined.

(** struct rdma_cm_id *)
Record cm_id := CmIdent {
  id_alive   : bool;
  id_context : option manger;
  id_qp      : bool;
  id_phase   : phase;
  id_calls   : list call
}.

Abbreviation C := (M cm_id).

Definition record (c : call) : C unit :=
  modify (λ i, CmIdent (id_alive i) (id_context i) (id_qp i) (id_phase i) (id_calls i ++ [c])).
Definition set_context (c : option manger) : C unit :=
  modify (λ i, CmIdent (id_alive i) c (id_qp i) (id_phase i) (id_calls i)).
Definition set_qp (b : bool) : C unit :=
  modify (λ i, CmIdent (id_alive i) (id_context i) b (id_phase i) (id_calls i)).
Definition set_phase (p : phase) : C unit :=
  modify (λ i, CmIdent (id_alive i) (id_context i) (id_qp i) p (id_calls i)).
Definition set_alive (b : bool) : C unit :=
  modify (λ i, CmIdent b (id_context i) (id_qp i) (id_phase i) (id_calls i)).

(** Reading through a pointer to the identifier, and through its context. *)
Definition deref_id : C unit :=
  alive ← gets id_alive; if alive : bool then mret tt else fail UseAfterFree.
Definition deref_context : C manger :=
  deref_id;; c ← gets id_context; match c with Some c => mret c | None => fail NullDeref end.

Definition set_ptrs (f : list resource → list resource) (c : manger) : manger :=
  Manger (f (mg_ptrs c)) (mg_running c) (mg_destroying c) (mg_user c) (mg_region c) (mg_io c).
Definition set_run (running destroying : bool) (c : manger) : manger :=
  Manger (mg_ptrs c) running destroying (mg_user c) (mg_region c) (mg_io c).
Definition set_user (b : bool) (c : manger) : manger :=
  Manger (mg_ptrs c) (mg_running c) (mg_destroying c) b (mg_region c) (mg_io c).
Definition set_region (r : rdma_peer_region) (c : manger) : manger :=
  Manger (mg_ptrs c) (mg_running c) (mg_destroying c) (mg_user c) (Some r) (mg_io c).
Definition set_io (x : conn) (c : manger) : manger :=
  Manger (mg_ptrs c) (mg_running c) (mg_destroying c) (mg_user c) (mg_region c) x.

Definition on_context (f : manger → manger) : C unit :=
  c ← deref_context; set_context (Some (f c)).

(** The functions of the connection's queues, which deref the context. *)
Definition on_io {A} (x : M conn A) : C A :=
  c ← deref_context;
  zoom (λ _, mg_io c) (λ io i, CmIdent (id_alive i) (Some (set_io io c)) (id_qp i) (id_phase i) (id_calls i)) x.

(** A call of the library or the system that gives a resource or fails. *)
Definition acquire (x : resource) : C bool :=
  ok ← ask_sys; (if ok : bool then record (New x) else mret tt);; mret ok.

(** ... whose result is stored in the connection. *)
Definition acquire_ptr (x : resource) : C bool :=
  ok ← acquire x; (if ok : bool then on_context (set_ptrs (cons x)) else mret tt);; mret ok.

(** if (conn->x) release it *)
Definition release_ptr (x : resource) : C unit :=
  c ← deref_context; if decide (x ∈ mg_ptrs c) then record (Del x) else mret tt.

Definition rdma_create_qp : C bool :=
  ok ← acquire Qp; (if ok : bool then set_qp true else mret tt);; mret ok.
Definition rdma_destroy_qp : C unit :=
  record (Del Qp);; set_qp false;; on_context (set_ptrs (filter (.≠ Qp))).
Definition rdma_destroy_id : C unit := deref_id;; record (Del CmId);; set_alive false.

(** rdma_alloc_aligned *)
Definition rdma_alloc_aligned (r : ring) : C bool :=
  ok ← kvs_malloc;
  if ok : bool then record (New (Buf r));; on_context (set_ptrs (cons (Buf r)));; mret true else mret false.

(** conn after calloc and the assignments that follow *)
Definition manger0 : manger := Manger [] true false false None (conn0 RDMA_REPL_SLOT_SIZE RDMA_REPL_WINDOW).

(** The calls that initialize_connection's fail label and destroy_connection share. *)
Definition release_parts : C unit :=
  release_ptr (Mr RecvRing);; release_ptr (Mr SendRing);; release_ptr (Mr CtrlRing);;
  release_ptr Cq;; release_ptr Channel;; release_ptr Pd;;
  release_ptr (Buf RecvRing);; release_ptr (Buf SendRing);; release_ptr (Buf CtrlRing).

(** fail: *)
Definition initialize_fail : C Z :=
  on_context (set_run false false);;
  c ← deref_context;
  (if decide (Qp ∈ mg_ptrs c) then rdma_destroy_qp else mret tt);;
  release_parts;;
  record (Del Manager);;
  set_context None;; mret (-1).

Definition initialize_connection : C Z :=
  deref_id;;
  ok ← kvs_malloc; if negb ok then mret (-1) else
  record (New Manager);; set_context (Some manger0);;
  ok ← acquire_ptr Pd; if negb ok then initialize_fail else
  ok ← acquire_ptr Channel; if negb ok then initialize_fail else
  ok ← acquire_ptr Cq; if negb ok then initialize_fail else
  ok ← ask_sys; if negb ok then initialize_fail else
  ok ← rdma_create_qp; if negb ok then initialize_fail else
  on_context (set_ptrs (cons Qp));;
  ok ← rdma_alloc_aligned RecvRing; if negb ok then initialize_fail else
  ok ← rdma_alloc_aligned SendRing; if negb ok then initialize_fail else
  ok ← rdma_alloc_aligned CtrlRing; if negb ok then initialize_fail else
  ok1 ← acquire_ptr (Mr RecvRing);
  ok2 ← acquire_ptr (Mr SendRing);
  ok3 ← acquire_ptr (Mr CtrlRing);
  if negb (ok1 && ok2 && ok3) then initialize_fail else
  ok ← kvs_malloc; if negb ok then initialize_fail else
  record (New Params);;
  ok ← acquire_ptr Poller; if negb ok then record (Del Params);; initialize_fail else
  mret 0.

(** pthread_join: the poller, which frees its parameters when it starts, has run. *)
Definition join_poller : C unit :=
  record (Del Params);; record (Del Poller);; on_context (set_ptrs (filter (.≠ Poller))).

Definition destroy_connection : C unit :=
  deref_id;;
  c ← gets id_context;
  match c with
  | None => rdma_destroy_id
  | Some c =>
      if mg_destroying c then mret tt else
      on_context (set_run false true);;
      (if decide (Poller ∈ mg_ptrs c) then join_poller else mret tt);;
      qp ← gets id_qp;
      (if qp : bool then rdma_destroy_qp else mret tt);;
      release_parts;;
      set_context None;;
      rdma_destroy_id;;
      record (Del Manager)
  end.

(** ** The peer's memory *)

Definition rdma_set_remote_region (r : rdma_peer_region) : C Z :=
  _c ← deref_context;
  if negb (pr_version r =? RDMA_REPL_VERSION) then mret (-1) else
  if (pr_slot_count r =? 0) || (pr_slot_size r <=? HEADER_SIZE) then mret (-1) else
  if pr_length r <? u32 (pr_slot_count r * pr_slot_size r) then mret (-1) else
  on_context (set_region r);; mret 0.

(** rdma_get_local_region, for memory at [addr] registered with [rkey] *)
Definition rdma_get_local_region (addr rkey : Z) : C (Z * option rdma_peer_region) :=
  c ← deref_context;
  if decide (Mr RecvRing ∈ mg_ptrs c ∧ Buf RecvRing ∈ mg_ptrs c) then
    mret (0, Some (PeerRegion addr rkey (u32 (Z.of_nat RDMA_REPL_WINDOW * RDMA_REPL_SLOT_SIZE))
                     (cn_slot_size (mg_io c)) (Z.of_nat (cn_slot_count (mg_io c))) RDMA_REPL_VERSION))
  else mret (-1, None).

(** ** Replaying records *)

Lemma replay_app uses live K1 K2 :
  replay uses live (K1 ++ K2) = match replay uses live K1 with Some live' => replay uses live' K2 | None => None end.
Proof.
  revert live. induction K1 as [|c K1 IH]; intros live; simpl; [done|]. by destruct (replay1 uses live c).
Qed.

Lemma filter_absent (x : resource) (l : list resource) : x ∉ l → filter (.≠ x) l = l.
Proof.
  induction l as [|y l IH]; intros Hx; [done|]. rewrite not_elem_of_cons in Hx. rewrite filter_cons_True by (intros ->; tauto).
  by rewrite IH by tauto.
Qed.

Definition call_res (c : call) : resource := match c with New x | Del x => x end.

(** What the record touches and what that is used by is within [parts]. *)
Definition within (uses : resource → list resource) (parts : list resource) (K : list call) : bool :=
  forallb (λ c, bool_decide (call_res c ∈ parts) && forallb (λ y, bool_decide (y ∈ parts)) (uses (call_res c))) K.

(** Resources outside of it do not matter. *)
Lemma replay_frame uses parts F K live live' :
  within uses parts K = true → (∀ x, x ∈ parts → x ∉ F) →
  replay uses live K = Some live' → replay uses (live ++ F) K = Some (live' ++ F).
Proof.
  intros Hw HF. revert live. induction K as [|c K IH]; intros live; simpl in *; [by intros [= ->]|].
  apply andb_prop in Hw as [Hc Hw]. apply andb_prop in Hc as [Hx Hu]. apply bool_decide_eq_true in Hx.
  intros Hr. destruct (replay1 uses live c) as [live1|] eqn:H1; [|done]. specialize (IH Hw _ Hr).
  enough (replay1 uses (live ++ F) c = Some (live1 ++ F)) as -> by done.
  pose proof (HF _ Hx) as HxF. clear IH Hr. destruct c as [x|x]; simpl in *.
  - destruct (decide (x ∈ live)); [done|]. rewrite decide_False by (rewrite elem_of_app; tauto). by injection H1 as <-.
  - destruct (decide (x ∈ live)); [|done]. rewrite decide_True by (rewrite elem_of_app; tauto).
    destruct (forallb _ (uses x)) eqn:Hf in H1; [|done]. injection H1 as <-.
    replace (forallb _ (uses x)) with true.
    + by rewrite filter_app, (filter_absent x F).
    + symmetry. rewrite forallb_forall in *. intros y Hy. specialize (Hf y Hy). specialize (Hu y Hy).
      rewrite bool_decide_eq_true in *. rewrite elem_of_app. intros [?|?]; [done|]. by eapply HF.
Qed.

(** Fewer constraints accept more. *)
Lemma replay_weaken (uses uses' : resource → list resource) live K live' :
  (∀ x, uses' x ⊆ uses x) → replay uses live K = Some live' → replay uses' live K = Some live'.
Proof.
  intros Hsub. revert live. induction K as [|c K IH]; intros live; simpl; [done|].
  destruct (replay1 uses live c) as [live1|] eqn:H1; [|done]. intros Hr.
  enough (replay1 uses' live c = Some live1) as -> by auto. destruct c as [x|x]; simpl in *; [done|].
  destruct (decide (x ∈ live)); [|done]. destruct (forallb _ (uses x)) eqn:Hf; [|done].
  replace (forallb _ (uses' x)) with true; [done|]. symmetry. rewrite forallb_forall in *.
  intros y Hy. apply Hf. apply list_elem_of_In. apply Hsub. by apply list_elem_of_In.
Qed.

(** ** What the two functions do *)

(** Everything initialize_connection and destroy_connection touch. *)
Definition conn_parts : list resource :=
  [Manager; Pd; Channel; Cq; Qp; Buf RecvRing; Buf SendRing; Buf CtrlRing; Mr RecvRing; Mr SendRing; Mr CtrlRing; Params; Poller].

Definition up_ptrs : list resource :=
  [Poller; Mr CtrlRing; Mr SendRing; Mr RecvRing; Buf CtrlRing; Buf SendRing; Buf RecvRing; Qp; Cq; Channel; Pd].

(** What is held while the connection is up. *)
Definition up_live : list resource :=
  [Poller; Params; Mr CtrlRing; Mr SendRing; Mr RecvRing; Buf CtrlRing; Buf SendRing; Buf RecvRing; Qp; Cq; Channel; Pd; Manager].

Definition parts_order : list resource :=
  [Mr RecvRing; Mr SendRing; Mr CtrlRing; Cq; Channel; Pd; Buf RecvRing; Buf SendRing; Buf CtrlRing].

Definition released (ptrs : list resource) : list call := Del <$> filter (λ x, x ∈ ptrs) parts_order.

Section specs.
Implicit Types (E : env) (c : manger) (qp : bool) (ph : phase) (tr K : list call).

Lemma wp_on_context f c qp ph tr E t Q :
  Q tt (CmIdent true (Some (f c)) qp ph tr) t → wp (on_context f) Q E (CmIdent true (Some c) qp ph tr) t.
Proof. intros HQ. exact HQ. Qed.

Lemma wp_acquire_ptr x c qp ph tr E t Q :
  (∀ t', Q true (CmIdent true (Some (set_ptrs (cons x) c)) qp ph (tr ++ [New x])) t') →
  (∀ t', Q false (CmIdent true (Some c) qp ph tr) t') →
  wp (acquire_ptr x) Q E (CmIdent true (Some c) qp ph tr) t.
Proof.
  intros HT HF. unfold acquire_ptr, acquire, record. wp_steps. destruct (sys_ok E t); wp_steps; [|apply HF].
  by apply wp_on_context; wp_steps.
Qed.

Lemma wp_alloc_aligned r c qp ph tr E t Q :
  (∀ t', Q true (CmIdent true (Some (set_ptrs (cons (Buf r)) c)) qp ph (tr ++ [New (Buf r)])) t') →
  (∀ t', Q false (CmIdent true (Some c) qp ph tr) t') →
  wp (rdma_alloc_aligned r) Q E (CmIdent true (Some c) qp ph tr) t.
Proof.
  intros HT HF. unfold rdma_alloc_aligned, record. wp_steps. destruct (malloc_ok E t); wp_steps; [|apply HF].
  by apply wp_on_context; wp_steps.
Qed.

Lemma wp_release_ptr x c qp ph tr E t Q :
  Q tt (CmIdent true (Some c) qp ph (tr ++ (Del <$> filter (λ y, y ∈ mg_ptrs c) [x]))) t →
  wp (release_ptr x) Q E (CmIdent true (Some c) qp ph tr) t.
Proof.
  intros HQ. unfold release_ptr, deref_context, deref_id, record. wp_steps. cbn [id_alive]. wp_steps. cbn [id_context]. wp_steps.
  rewrite filter_cons, filter_nil in HQ. destruct (decide (x ∈ mg_ptrs c)); wp_steps; [done|]. by rewrite app_nil_r in HQ.
Qed.

Lemma wp_release_parts c qp ph tr E t Q :
  Q tt (CmIdent true (Some c) qp ph (tr ++ released (mg_ptrs c))) t →
  wp release_parts Q E (CmIdent true (Some c) qp ph tr) t.
Proof.
  intros HQ. unfold release_parts. do 8 (apply wp_bind, wp_release_ptr). apply wp_release_ptr.
  rewrite <-!app_assoc, <-!fmap_app, <-!filter_app. exact HQ.
Qed.

(** The failure label undoes what has been done. *)
Lemma wp_initialize_fail c qp ph tr E t Q :
  qp = bool_decide (Qp ∈ mg_ptrs c) →
  (∀ t', Q (-1) (CmIdent true None false ph
     (tr ++ (if decide (Qp ∈ mg_ptrs c) then [Del Qp] else []) ++ released (filter (.≠ Qp) (mg_ptrs c)) ++ [Del Manager])) t') →
  wp initialize_fail Q E (CmIdent true (Some c) qp ph tr) t.
Proof.
  intros -> HQ. unfold initialize_fail. apply wp_bind, wp_on_context. unfold deref_context, deref_id. wp_steps.
  cbn [id_alive]. wp_steps. cbn [id_context mg_ptrs set_run]. wp_steps. cbn [mg_ptrs set_run].
  destruct (decide (Qp ∈ mg_ptrs c)) as [Hq|Hq]; [|rewrite bool_decide_false by done]; unfold rdma_destroy_qp, record, set_qp; wp_steps.
  - apply wp_on_context. cbn [id_alive id_context id_qp id_phase id_calls]. apply wp_bind, wp_release_parts.
    unfold record, set_context. wp_steps. cbn [id_alive id_context id_qp id_phase id_calls mg_ptrs set_run set_ptrs].
    rewrite <-!app_assoc. apply HQ.
  - apply wp_release_parts. unfold record, set_context. wp_steps.
    cbn [id_alive id_context id_qp id_phase id_calls mg_ptrs set_run set_ptrs]. rewrite <-!app_assoc.
    specialize (HQ t). by rewrite filter_absent in HQ.
Qed.

Definition manger_up : manger := set_ptrs (λ _, up_ptrs) manger0.

Definition init_post ph tr (r : Z) (i : cm_id) : Prop :=
  ∃ K, within thread_uses conn_parts K = true ∧
    ((r = 0 ∧ i = CmIdent true (Some manger_up) true ph (tr ++ K) ∧ replay thread_uses [] K = Some up_live) ∨
     (r = -1 ∧ i = CmIdent true None false ph (tr ++ K) ∧ replay thread_uses [] K = Some [])).

(** A record that is closed is replayed by computation. *)
Ltac init_failed := apply wp_initialize_fail; [reflexivity|]; intros ?;
  rewrite <-!app_assoc; refine (ex_intro _ _ (conj _ (or_intror (conj eq_refl (conj eq_refl _))))); vm_compute; reflexivity.

Ltac acquiring := lazymatch goal with |- wp (mbind _ _) _ _ _ _ => apply wp_bind | _ => idtac end; first [apply wp_acquire_ptr|apply wp_alloc_aligned]; intros ?; cbn [negb]; [|init_failed].

Lemma initialize_connection_ok ph tr E t :
  wp initialize_connection (λ r i _, init_post ph tr r i) E (CmIdent true None false ph tr) t.
Proof.
  unfold initialize_connection, deref_id, record, set_context. wp_steps. cbn [id_alive]. wp_steps.
  destruct (malloc_ok E t); cbn [negb]; [|wp_steps; exists []; split; [done|]; right; by rewrite app_nil_r].
  wp_steps. cbn [id_alive id_context id_qp id_phase id_calls].
  do 3 acquiring. wp_step. wp_step. destruct (sys_ok _ _); cbn [negb]; [|init_failed].
  unfold rdma_create_qp, acquire, record, set_qp. wp_step. wp_step. wp_step. wp_step. destruct (sys_ok _ _); wp_steps; cbn [negb]; [|init_failed].
  wp_step. apply wp_on_context. cbn [id_alive id_context id_qp id_phase id_calls].
  do 3 acquiring.
  do 3 (apply wp_bind, wp_acquire_ptr; intros ?). all: cbn [negb andb]; try init_failed.
  wp_steps. destruct (malloc_ok _ _); cbn [negb]; [|init_failed]. wp_steps. cbn [id_alive id_context id_qp id_phase id_calls].
  apply wp_acquire_ptr; intros ?; cbn [negb]; wp_steps; cbn [id_alive id_context id_qp id_phase id_calls]; [|init_failed].
  rewrite <-!app_assoc. refine (ex_intro _ _ (conj _ (or_introl (conj eq_refl (conj eq_refl _))))); vm_compute; reflexivity.
Qed.

(** ... and succeeds when every call does. *)
Definition calls_succeed E : Prop := (∀ t, sys_ok E t = true) ∧ no_oom E.

Lemma wp_acquire_given x c qp ph tr E t Q :
  calls_succeed E → (∀ c' tr' t', Q true (CmIdent true (Some c') qp ph tr') t') →
  wp (acquire_ptr x) Q E (CmIdent true (Some c) qp ph tr) t.
Proof.
  intros [Hsys _] HQ. unfold acquire_ptr, acquire, record. wp_step. wp_step. wp_step. rewrite Hsys. wp_steps.
  by apply wp_on_context; wp_steps.
Qed.

Lemma wp_alloc_given r c qp ph tr E t Q :
  calls_succeed E → (∀ c' tr' t', Q true (CmIdent true (Some c') qp ph tr') t') →
  wp (rdma_alloc_aligned r) Q E (CmIdent true (Some c) qp ph tr) t.
Proof.
  intros [_ Hoom] HQ. unfold rdma_alloc_aligned, record. wp_step. wp_step. rewrite Hoom. wp_steps.
  by apply wp_on_context; wp_steps.
Qed.

Ltac given := lazymatch goal with |- wp (mbind _ _) _ _ _ _ => apply wp_bind | _ => idtac end;
  first [apply wp_acquire_given|apply wp_alloc_given]; [done|]; intros; cbn [negb].

Lemma initialize_connection_succeeds ph tr E t :
  calls_succeed E → wp initialize_connection (λ r _ _, r = 0) E (CmIdent true None false ph tr) t.
Proof.
  intros Hok. pose proof Hok as [Hsys Hoom]. unfold initialize_connection, deref_id, record, set_context. wp_steps. cbn [id_alive]. wp_steps.
  rewrite Hoom. cbn [negb]. wp_steps. cbn [id_alive id_context id_qp id_phase id_calls].
  do 3 given. wp_step. wp_step. rewrite Hsys. cbn [negb].
  unfold rdma_create_qp, acquire, record, set_qp. wp_step. wp_step. wp_step. wp_step. rewrite Hsys. wp_steps. cbn [negb].
  wp_step. apply wp_on_context. cbn [id_alive id_context id_qp id_phase id_calls].
  do 3 given.
  do 3 given. cbn [andb negb]. wp_step. wp_step. rewrite Hoom. cbn [negb].
  wp_steps. cbn [id_alive id_context id_qp id_phase id_calls]. given. by wp_steps.
Qed.

(** Posting receives always returns. *)
Lemma post_recvs_total n j io E t : wp (post_recvs n j) (λ _ _ _, True) E io t.
Proof.
  revert j io t. induction n as [|n IH]; intros j io t; simpl; [by wp_steps|]. wp_step.
  apply wp_mono with (Q := λ _ _ _, True).
  - unfold post_recv_slot, rdma_disconnect. destruct (decide _); wp_steps; [done|]. by destruct (sys_ok E t); wp_steps.
  - intros r io' t' _. destruct (negb (r =? 0)); [by wp_steps|apply IH].
Qed.

(** What destroy_connection does to a connection that is up. *)
Definition destroyed : list call :=
  [Del Params; Del Poller; Del Qp] ++ released up_ptrs ++ [Del CmId; Del Manager].

Lemma wp_destroy_id ph x qp tr E t Q :
  Q tt (CmIdent false x qp ph (tr ++ [Del CmId])) t → wp rdma_destroy_id Q E (CmIdent true x qp ph tr) t.
Proof. intros HQ. exact HQ. Qed.

Lemma wp_destroy_up c ph tr E t Q :
  mg_destroying c = false → mg_ptrs c = up_ptrs →
  Q tt (CmIdent false None false ph (tr ++ destroyed)) t →
  wp destroy_connection Q E (CmIdent true (Some c) true ph tr) t.
Proof.
  intros Hd Hp HQ. unfold destroy_connection, deref_id. wp_steps. cbn [id_alive]. wp_steps. cbn [id_context]. rewrite Hd.
  wp_step. apply wp_on_context. wp_step. rewrite Hp, decide_True by (by vm_compute; repeat constructor).
  unfold join_poller, record. wp_steps. apply wp_on_context. wp_steps. cbn [id_alive id_context id_qp id_phase id_calls].
  unfold rdma_destroy_qp, record, set_qp. wp_steps. apply wp_on_context. wp_step. apply wp_release_parts.
  unfold set_context. wp_steps. cbn [id_alive id_context id_qp id_phase id_calls]. apply wp_destroy_id. wp_steps.
  cbn [id_alive id_context id_qp id_phase id_calls set_run set_ptrs mg_ptrs]. rewrite Hp.
  rewrite <-!app_assoc. exact HQ.
Qed.

Lemma destroyed_replay : replay thread_uses (up_live ++ [CmId]) destroyed = Some [].
Proof. vm_compute. reflexivity. Qed.
End specs.

(** ** Theorems *)

(** C12: a connection is all or nothing. Whichever calls of the verbs library, of
    the thread library and of the allocator fail, initialize_connection either
    returns 0 with every part in place and the poller running, or -1 with the
    context NULL and everything it took given back; destroy_connection then gives
    back everything and the identifier itself. Nothing is given back twice, while
    an object built on it exists, or while the poller runs. *)
Theorem connection_balanced E ph tr t :
  wp initialize_connection (λ r i t', ∃ K,
    id_calls i = tr ++ K ∧
    (r = 0 ∧ id_context i = Some manger_up ∧ replay thread_uses [CmId] K = Some (up_live ++ [CmId]) ∨
     r = -1 ∧ id_context i = None ∧ replay thread_uses [CmId] K = Some [CmId]) ∧
    wp destroy_connection (λ _ i' _, ∃ K',
      id_alive i' = false ∧ id_calls i' = tr ++ K ++ K' ∧ replay thread_uses [CmId] (K ++ K') = Some []) E i t')
    E (CmIdent true None false ph tr) t.
Proof.
  eapply wp_mono; [apply initialize_connection_ok|]. intros r i t' (K & Hw & Hr). exists K.
  assert (∀ x, x ∈ conn_parts → x ∉ [CmId]) as HF by (intros x Hx ->%list_elem_of_singleton; revert Hx; by apply (bool_decide_eq_false _)).
  destruct Hr as [(-> & -> & HK)|(-> & -> & HK)]; apply (replay_frame _ _ _ _ _ _ Hw HF) in HK; cbn [id_calls id_context app] in *;
    (split; [done|]); (split; [tauto|]).
  - apply wp_destroy_up; [done|done|]. exists destroyed. cbn [id_alive id_calls]. rewrite <-app_assoc.
    split_and!; [done|done|]. rewrite replay_app, HK. exact destroyed_replay.
  - unfold destroy_connection, deref_id. wp_steps. cbn [id_alive]. wp_steps. cbn [id_context]. apply wp_destroy_id.
    exists [Del CmId]. cbn [id_alive id_calls]. rewrite <-app_assoc. split_and!; [done|done|]. by rewrite replay_app, HK.
Qed.

(** The check of the peer's region multiplies in 32 bits: 65536 slots of 65536
    bytes are accepted in a region of no bytes. *)
Theorem empty_region_accepted :
  wp (rdma_set_remote_region (PeerRegion 4096 7 0 65536 65536 RDMA_REPL_VERSION)) (λ r i _,
    r = 0 ∧ mg_region <$> id_context i = Some (Some (PeerRegion 4096 7 0 65536 65536 RDMA_REPL_VERSION)))
    calm (CmIdent true (Some manger_up) true Requested []) 0.
Proof. vm_compute. split; reflexivity. Qed.

(** What a slave offers, a master accepts. *)
Theorem local_region_accepted E addr rkey c c' qp qp' ph ph' tr tr' t t' :
  mg_ptrs c = up_ptrs → cn_slot_size (mg_io c) = RDMA_REPL_SLOT_SIZE → cn_slot_count (mg_io c) = RDMA_REPL_WINDOW →
  wp (rdma_get_local_region addr rkey) (λ r _ _, ∃ g, r = (0, Some g) ∧
    wp (rdma_set_remote_region g) (λ r' i' _, r' = 0 ∧ ∃ c1, id_context i' = Some c1 ∧ mg_region c1 = Some g) E
      (CmIdent true (Some c') qp' ph' tr') t') E (CmIdent true (Some c) qp ph tr) t.
Proof.
  intros Hp Hs Hn. unfold rdma_get_local_region, deref_context, deref_id. wp_steps. cbn [id_alive]. wp_steps. cbn [id_context]. wp_steps.
  rewrite Hp, decide_True by (by apply (bool_decide_unpack _); vm_compute). wp_steps. eexists. split; [done|].
  unfold rdma_set_remote_region. rewrite Hs, Hn. unfold deref_context, deref_id. wp_steps. cbn [id_alive]. wp_steps. cbn [id_context]. wp_steps.
  cbn [pr_version pr_slot_count pr_slot_size pr_length]. apply wp_bind, wp_on_context. wp_steps. split; [done|]. eexists. by split.
Qed.
