(* ===== verification/SlaveStart.v ===== *)
(** * Start of a slave (kvs_repli_slave.c)

    kvs_replication_slave_start opens the port for the forwarder, asks the master
    for a synchronisation over TCP, connects by RDMA, waits for the snapshot and
    reports the end; on every failure it undoes what it did. The identifier, the
    event channel, descriptors and threads are resources of one record (RdmaConn);
    the contents of the synchronisation are those of FullSync. *)

From S2P Require Import Prelude Aof AofUring Rdb Rdma Server FullSync RdmaConn.

(** The globals slave_tcp_fd, slave_ebpf_listen_fd and slave_running, the identifier,
    and the two directions of the TCP connection to the master. *)
Record slave_net := SlaveNet {
  sn_id        : cm_id;
  sn_tcp_fd    : bool;      (* >= 0 *)
  sn_listen_fd : bool;
  sn_running   : bool;
  sn_in        : bytes;     (* what the master sends, unread *)
  sn_out       : bytes;     (* what was sent to the master *)
  sn_clients   : list bool  (* accepted forwarders: has a thread, or closed *)
}.

Abbreviation N := (M slave_net).

Definition on_id {A} (m : M cm_id A) : N A :=
  zoom sn_id (λ i s, SlaveNet i (sn_tcp_fd s) (sn_listen_fd s) (sn_running s) (sn_in s) (sn_out s) (sn_clients s)) m.
Definition set_fds (tcp lfd running : bool) : N unit :=
  modify (λ s, SlaveNet (sn_id s) tcp lfd running (sn_in s) (sn_out s) (sn_clients s)).
Definition set_tcp (i o : bytes) : N unit :=
  modify (λ s, SlaveNet (sn_id s) (sn_tcp_fd s) (sn_listen_fd s) (sn_running s) i o (sn_clients s)).
Definition add_client (b : bool) : N unit :=
  modify (λ s, SlaveNet (sn_id s) (sn_tcp_fd s) (sn_listen_fd s) (sn_running s) (sn_in s) (sn_out s) (sn_clients s ++ [b])).

(** ** TCP *)

(** send_all; every round sends something or ends *)
Fixpoint send_all (fuel : nat) (data : bytes) : N Z :=
  match data with
  | [] => mret 0
  | _ =>
      match fuel with
      | O => fail OutOfFuel
      | S fuel' =>
          granted ← ask_send;
          match granted with
          | None | Some O => mret (-1)
          | Some n => s ← gets (λ s, s); set_tcp (sn_in s) (sn_out s ++ take n data);; send_all fuel' (drop n data)
          end
      end
  end.

(** strstr (s, token) != NULL *)
Fixpoint strstr (s token : bytes) : bool :=
  bool_decide (token `prefix_of` s) || match s with [] => false | _ :: s' => strstr s' token end.

Definition TOKEN_BUF : nat := 128.

(** The loop of recv_until_token; every round receives something or ends. After
    what it sends, the master [closes] the connection or keeps it open: then recv
    waits for ever. *)
Fixpoint recv_loop (closes : bool) (fuel : nat) (buf token : bytes) : N Z :=
  if (length buf <? TOKEN_BUF - 1)%nat then
    ok ← ask_sys; if negb ok then mret (-1) else
    n ← ask_recv;
    s ← gets (λ s, s);
    match sn_in s with
    | [] => if closes then mret (-1) else fail Blocked
    | inp =>
        let data := take (max 1 n `min` (TOKEN_BUF - 1 - length buf)) inp in
        set_tcp (drop (length data) inp) (sn_out s);;
        let buf' := buf ++ data in
        if (length token <=? length buf')%nat && strstr (cstr buf') token then mret 0 else
        match fuel with O => fail OutOfFuel | S fuel' => recv_loop closes fuel' buf' token end
    end
  else mret (-1).

Definition recv_until_token (closes : bool) (token : bytes) : N Z := recv_loop closes TOKEN_BUF [] token.

Definition DONE_TOKEN : bytes := lit "+DONE" ++ crlf.
Definition OK_TOKEN : bytes := lit "+OK" ++ crlf.
Definition SYNC_CMD : bytes := lit "*1" ++ crlf ++ lit "$4" ++ crlf ++ lit "SYNC" ++ crlf.
Definition FINSYNC_CMD : bytes := lit "*1" ++ crlf ++ lit "$7" ++ crlf ++ lit "FINSYNC" ++ crlf.

Definition recv_master_done (closes : bool) : N Z := recv_until_token closes DONE_TOKEN.

Definition connect_master_tcp (closes : bool) : N bool :=
  ok ← on_id (acquire TcpFd); if negb ok then mret false else
  ok ← ask_sys; if negb ok then on_id (record (Del TcpFd));; mret false else
  r ← send_all (length SYNC_CMD) SYNC_CMD; if negb (r =? 0) then on_id (record (Del TcpFd));; mret false else
  r ← recv_until_token closes OK_TOKEN; if negb (r =? 0) then on_id (record (Del TcpFd));; mret false else
  mret true.

(** ** The port for the forwarder *)

(** accept_ebpf_conn on what accept and pthread_create answer: an error, or a
    descriptor and whether its thread was created *)
Fixpoint accept_ebpf_conn (answers : list (option bool)) : N unit :=
  running ← gets sn_running;
  match running, answers with
  | true, [] => mret tt                       (* blocked in accept *)
  | true, Some ok :: answers' => add_client ok;; accept_ebpf_conn answers'
  | _, _ => on_id (record (Del ListenFd);; record (Del AcceptThread))
  end.

Definition start_ebpf_listener : N Z :=
  ok ← on_id (acquire ListenFd); if negb ok then mret (-1) else
  ok ← ask_sys; if negb ok then on_id (record (Del ListenFd));; mret (-1) else
  ok ← ask_sys; if negb ok then on_id (record (Del ListenFd));; mret (-1) else
  s ← gets (λ s, s); set_fds (sn_tcp_fd s) true (sn_running s);;
  ok ← on_id (acquire AcceptThread);
  if negb ok then on_id (record (Del ListenFd));; s ← gets (λ s, s); set_fds (sn_tcp_fd s) false (sn_running s);; mret (-1)
  else mret 0.

(** ** RDMA *)

Inductive cm_event := ADDR_RESOLVED | ROUTE_RESOLVED | ESTABLISHED | OtherEvent.

(** The event that the library reports for what was asked of it last: success, or
    one of its errors. *)
Definition rdma_get_cm_event : C (option cm_event) :=
  ok ← acquire CmEvent;
  if negb ok then mret None else
  good ← ask_sys;
  p ← gets id_phase;
  if negb good then mret (Some OtherEvent) else
  match p with
  | AddrAsked => mret (Some ADDR_RESOLVED)
  | RouteAsked => mret (Some ROUTE_RESOLVED)
  | ConnectAsked => mret (Some ESTABLISHED)
  | _ => mret (Some OtherEvent)
  end.

Definition rdma_ack_cm_event : C unit := record (Del CmEvent).

(** rdma_resolve_addr, rdma_resolve_route, rdma_connect *)
Definition ask_cm (p : phase) : C bool :=
  ok ← ask_sys; (if ok : bool then set_phase p else mret tt);; mret ok.

(** fail: *)
Definition connect_fail (state : bool) : C (Z * bool) :=
  (if state then record (Del SyncState) else mret tt);;
  c ← gets id_context;
  match c with Some _ => destroy_connection | None => rdma_destroy_id end;;
  record (Del EventChannel);;
  mret (-1, false).

(** The branch of RDMA_CM_EVENT_ROUTE_RESOLVED: whether to go on, and whether state
    is allocated. *)
Definition on_route_resolved (addr rkey : Z) : C (bool * bool) :=
  r ← initialize_connection;
  if negb (r =? 0) then mret (false, false) else
  ok ← kvs_malloc;
  if negb ok then mret (false, false) else
  record (New SyncState);;
  on_context (set_user true);;
  r ← on_io (post_recv_n RDMA_REPL_WINDOW);
  if negb (r =? 0) then mret (false, true) else
  '(r, _region) ← rdma_get_local_region addr rkey;
  if negb (r =? 0) then mret (false, true) else
  ok ← ask_cm ConnectAsked;
  mret (ok, true).

(** while (!connected); every round but the last asks the library for the next phase *)
Fixpoint connect_loop (fuel : nat) (addr rkey : Z) (state : bool) : C (Z * bool) :=
  ev ← rdma_get_cm_event;
  match ev with
  | None => connect_fail state
  | Some ADDR_RESOLVED =>
      ok ← ask_cm RouteAsked;
      rdma_ack_cm_event;;
      if negb ok then connect_fail state
      else match fuel with O => fail OutOfFuel | S fuel' => connect_loop fuel' addr rkey state end
  | Some ROUTE_RESOLVED =>
      '(ok, state') ← on_route_resolved addr rkey;
      rdma_ack_cm_event;;
      if negb ok then connect_fail state'
      else match fuel with O => fail OutOfFuel | S fuel' => connect_loop fuel' addr rkey state' end
  | Some ESTABLISHED => rdma_ack_cm_event;; mret (0, state)
  | Some OtherEvent => rdma_ack_cm_event;; connect_fail state
  end.

(** The result and whether *out_state is set. *)
Definition connect_master_rdma (addr rkey : Z) : C (Z * bool) :=
  ok ← acquire EventChannel; if negb ok then mret (-1, false) else
  ok ← acquire CmId; if negb ok then record (Del EventChannel);; mret (-1, false) else
  set_alive true;;
  ok ← ask_cm AddrAsked; if negb ok then connect_fail false else
  connect_loop 3 addr rkey false.

(** What the thread that polls for completions does to the connection before it
    broadcasts its condition: it marks it, or leaves it as it is, at its end after
    a failing poll. *)
Inductive mark := MarkDone | MarkFailed | Wake.

Definition poller_marks (m : mark) : C unit :=
  match m with
  | MarkDone => on_io rdma_mark_done
  | MarkFailed => on_io rdma_mark_failed;; on_context (set_run false false)
  | Wake => mret tt
  end.

(** rdma_wait_done: pthread_cond_wait returns after a broadcast, and never when
    none comes. *)
Fixpoint rdma_wait_done (marks : list mark) : C unit :=
  c ← deref_context;
  if mg_running c && negb (cn_done (mg_io c)) && negb (cn_failed (mg_io c)) then
    match marks with
    | [] => fail Blocked
    | m :: marks' => poller_marks m;; rdma_wait_done marks'
    end
  else mret tt.

(** ** Start and end *)

(** out: *)
Definition slave_out (cm_id ec state : bool) (ret : Z) : N Z :=
  (if cm_id then
     on_id (set_phase Closed;;
            c ← gets id_context;
            match c with Some _ => destroy_connection | None => rdma_destroy_id end)
   else mret tt);;
  (if ec then on_id (record (Del EventChannel)) else mret tt);;
  (if state then on_id (record (Del SyncState)) else mret tt);;
  s ← gets (λ s, s);
  (if negb (ret =? 0) && sn_tcp_fd s then
     on_id (record (Del TcpFd));; set_fds false (sn_listen_fd s) (sn_running s) else mret tt);;
  s ← gets (λ s, s);
  (if negb (ret =? 0) then
     (if sn_listen_fd s then on_id (record (Del ListenFd)) else mret tt);; set_fds (sn_tcp_fd s) false false
   else mret tt);;
  mret ret.

(** The poller's [marks], what the master sends on the TCP connection after the
    snapshot, [late], and whether it [closes] the connection when it has sent all *)
Definition kvs_replication_slave_start (addr rkey : Z) (marks : list mark) (late : bytes) (closes : bool) : N Z :=
  s ← gets (λ s, s); set_fds (sn_tcp_fd s) (sn_listen_fd s) true;;
  r ← start_ebpf_listener; if negb (r =? 0) then mret (-1) else
  ok ← connect_master_tcp closes;
  s ← gets (λ s, s); set_fds ok (sn_listen_fd s) (sn_running s);;
  if negb ok then slave_out false false false (-1) else
  '(r, state) ← on_id (connect_master_rdma addr rkey);
  if negb (r =? 0) then slave_out false false false (-1) else
  on_id (rdma_wait_done marks);;
  s ← gets (λ s, s); set_tcp (sn_in s ++ late) (sn_out s);;
  c ← on_id deref_context;
  if cn_failed (mg_io c) || negb (cn_done (mg_io c)) then slave_out true true state (-1) else
  r ← recv_master_done closes; if negb (r =? 0) then slave_out true true state (-1) else
  r ← send_all (length FINSYNC_CMD) FINSYNC_CMD; if negb (r =? 0) then slave_out true true state (-1) else
  slave_out true true state 0.

Definition kvs_replication_slave_cleanup : N unit :=
  s ← gets (λ s, s);
  (if sn_listen_fd s then on_id (record (Del ListenFd)) else mret tt);;
  (if sn_tcp_fd s then on_id (record (Del TcpFd)) else mret tt);;
  set_fds false false false.

(** ** What is held *)

(** The record so far is in order and leaves exactly [L]. *)
Definition held (L : list resource) (tr : list call) : Prop := replay library_uses [] tr = Some L.

Lemma held_app L L' tr K : held L tr → replay library_uses L K = Some L' → held L' (tr ++ K).
Proof. unfold held. intros H1 H2. by rewrite replay_app, H1. Qed.

Definition listening : list resource := [AcceptThread; ListenFd].
Definition dialled : list resource := [CmId; EventChannel; TcpFd] ++ listening.

Lemma parts_fresh x : x ∈ conn_parts → x ∉ CmEvent :: dialled.
Proof. intros Hx Hd. revert x Hx Hd. assert (Forall (λ x, x ∉ CmEvent :: dialled) conn_parts) as Hf by (apply (bool_decide_unpack _); vm_compute; done). by rewrite Forall_forall in Hf. Qed.

Lemma init_held ph tr r i :
  init_post ph tr r i → held (CmEvent :: dialled) tr →
  (r = 0 ∧ ∃ tr', i = CmIdent true (Some manger_up) true ph tr' ∧ held (up_live ++ CmEvent :: dialled) tr') ∨
  (r = -1 ∧ ∃ tr', i = CmIdent true None false ph tr' ∧ held (CmEvent :: dialled) tr').
Proof.
  intros (K & Hw & Hr) Hh.
  assert (∀ live, replay thread_uses [] K = Some live → held (live ++ CmEvent :: dialled) (tr ++ K)) as HK.
  { intros live HK. eapply held_app; [exact Hh|]. apply (replay_weaken thread_uses); [|by apply (replay_frame _ _ _ _ [] _ Hw parts_fresh)].
    intros x. destruct x; simpl; set_solver. }
  destruct Hr as [(-> & -> & H0)|(-> & -> & H0)]; [left|right]; (split; [done|]); eexists; (split; [done|]); by apply HK in H0.
Qed.

Section slave.
Context (E : env) (addr rkey : Z).
Implicit Types (t : nat) (tr : list call) (i : cm_id) (c : manger) (s : slave_net).

(** One more call in the record. *)
Lemma wp_record_held L L' x i t (Q : unit → cm_id → nat → Prop) :
  held L (id_calls i) → replay1 library_uses L x = Some L' →
  (∀ tr, held L' tr → Q tt (CmIdent (id_alive i) (id_context i) (id_qp i) (id_phase i) tr) t) →
  wp (record x) Q E i t.
Proof.
  intros Hh Hx HQ. unfold record. wp_steps. apply HQ. eapply held_app; [exact Hh|]. simpl. by rewrite Hx.
Qed.

Lemma wp_acquire_held L x i t (Q : bool → cm_id → nat → Prop) :
  held L (id_calls i) → x ∉ L →
  (∀ tr t', held (x :: L) tr → Q true (CmIdent (id_alive i) (id_context i) (id_qp i) (id_phase i) tr) t') →
  (∀ t', Q false i t') →
  wp (acquire x) Q E i t.
Proof.
  intros Hh Hx HT HF. unfold acquire. wp_step. wp_step. destruct (sys_ok E t); wp_step; [|wp_steps; apply HF].
  eapply wp_record_held; [exact Hh|simpl; by rewrite decide_False|]. intros tr Htr. wp_steps. by apply HT.
Qed.

Lemma wp_ask_cm p i t (Q : bool → cm_id → nat → Prop) :
  (∀ t', Q true (CmIdent (id_alive i) (id_context i) (id_qp i) p (id_calls i)) t') → (∀ t', Q false i t') →
  wp (ask_cm p) Q E i t.
Proof. intros HT HF. unfold ask_cm, set_phase. wp_steps. destruct (sys_ok E t); wp_steps; [apply HT|apply HF]. Qed.

Lemma wp_ack_held L i t (Q : unit → cm_id → nat → Prop) :
  held (CmEvent :: L) (id_calls i) → CmEvent ∉ L →
  (∀ tr, held L tr → Q tt (CmIdent (id_alive i) (id_context i) (id_qp i) (id_phase i) tr) t) →
  wp rdma_ack_cm_event Q E i t.
Proof.
  intros Hh HL HQ. apply wp_record_held with (L := CmEvent :: L) (L' := L); [done| |done]. unfold replay1.
  rewrite decide_True by set_solver. cbn [library_uses forallb]. rewrite filter_cons_False by (intros []; done). by rewrite filter_absent.
Qed.

(** What the connection looks like while it is up. *)
Definition up_conn (i : cm_id) : Prop :=
  ∃ c, id_alive i = true ∧ id_context i = Some c ∧ id_qp i = true ∧ mg_destroying c = false ∧ mg_ptrs c = up_ptrs.

Lemma wp_destroy_held L L' i t (Q : unit → cm_id → nat → Prop) :
  up_conn i → held L (id_calls i) → replay library_uses L destroyed = Some L' →
  (∀ i', id_alive i' = false → held L' (id_calls i') → Q tt i' t) → wp destroy_connection Q E i t.
Proof.
  destruct i as [al ctx qp ph tr]. intros (c & Ha & Hc & Hq & Hd & Hp) Hh HL HQ. simpl in *. subst.
  apply wp_destroy_up; [done|done|]. apply HQ; [done|]. by eapply held_app.
Qed.

(** ** Connecting *)

Definition connected : list resource := SyncState :: up_live ++ dialled.

Definition connect_post (r : Z * bool) i : Prop :=
  (r = (0, true) ∧ up_conn i ∧ held connected (id_calls i)) ∨
  (r = (-1, false) ∧ id_alive i = false ∧ held (TcpFd :: listening) (id_calls i)).

Definition early i : Prop := id_alive i = true ∧ id_context i = None ∧ id_qp i = false.

Lemma fail_early i t : early i → held dialled (id_calls i) → wp (connect_fail false) (λ r i' _, connect_post r i') E i t.
Proof.
  destruct i as [al ctx qp ph tr]. intros (Ha & Hc & Hq) Hh. simpl in *. subst.
  unfold connect_fail. wp_steps. cbn [id_context]. apply wp_destroy_id. wp_step.
  eapply wp_record_held; [eapply held_app; [exact Hh|vm_compute; reflexivity]|vm_compute; reflexivity|].
  intros tr' Htr. wp_steps. right. done.
Qed.

Lemma fail_late (state : bool) i t :
  up_conn i → held (if state then connected else up_live ++ dialled) (id_calls i) →
  wp (connect_fail state) (λ r i' _, connect_post r i') E i t.
Proof.
  intros Hu Hh. unfold connect_fail. wp_step.
  apply wp_mono with (Q := λ _ i' _, up_conn i' ∧ held (up_live ++ dialled) (id_calls i')).
  { destruct state; [|by wp_steps]. eapply wp_record_held; [exact Hh|vm_compute; reflexivity|]. by intros tr Htr. }
  intros [] i1 t1 [Hu1 Hh1]. wp_step. wp_step. pose proof Hu1 as (c & _ & Hc & _). rewrite Hc. wp_step.
  eapply wp_destroy_held; [exact Hu1|exact Hh1|vm_compute; reflexivity|]. intros i2 Hd Hh2. wp_step.
  eapply wp_record_held; [exact Hh2|vm_compute; reflexivity|]. intros tr Htr. wp_steps. by right.
Qed.

Lemma wp_on_io {A} (x : M conn A) i t (Q : A → cm_id → nat → Prop) (P : A → conn → Prop) :
  up_conn i → (∀ io t', wp x (λ a io' _, P a io') E io t') →
  (∀ a i' t', up_conn i' → id_calls i' = id_calls i → id_phase i' = id_phase i → id_context i' ≠ None →
     (∀ c, id_context i' = Some c → P a (mg_io c)) → Q a i' t') → wp (on_io x) Q E i t.
Proof.
  destruct i as [al ctx qp ph tr]. intros (c & Ha & Hc & Hq & Hd & Hp) Hx HQ. simpl in *. subst.
  unfold on_io, deref_context, deref_id. wp_steps. cbn [id_alive]. wp_steps. cbn [id_context]. wp_steps.
  eapply wp_mono; [apply Hx|]. intros a io t' HP. apply HQ; try done; [by eexists|]. by intros c' [= <-].
Qed.

Lemma on_route_resolved_ok i t :
  early i → held (CmEvent :: dialled) (id_calls i) →
  wp (on_route_resolved addr rkey) (λ '(ok, state) i' _,
    (ok = false ∧ state = false ∧ early i' ∧ held (CmEvent :: dialled) (id_calls i')) ∨
    (up_conn i' ∧ held ((if state : bool then [SyncState] else []) ++ up_live ++ CmEvent :: dialled) (id_calls i') ∧
     (ok = true → state = true ∧ id_phase i' = ConnectAsked))) E i t.
Proof.
  destruct i as [al ctx qp ph tr]. intros (Ha & Hc & Hq) Hh. simpl in *. subst.
  unfold on_route_resolved. wp_step. eapply wp_mono; [apply initialize_connection_ok|].
  intros r i1 t1 Hp. destruct (init_held _ _ _ _ Hp Hh) as [(-> & tr1 & -> & Hh1)|(-> & tr1 & -> & Hh1)]; cbn [Z.eqb negb]; [|wp_steps; left; done].
  assert (∀ tr', up_conn (CmIdent true (Some manger_up) true ph tr')) as Hup by (intros tr'; by eexists).
  wp_step. wp_step. destruct (malloc_ok E t1); cbn [negb]; [|wp_steps; right; split_and!; [apply Hup|done|done]].
  wp_step. eapply wp_record_held; [exact Hh1|vm_compute; reflexivity|]. intros tr2 Htr2. cbn [id_alive id_context id_qp id_phase].
  wp_step. apply wp_on_context. wp_step.
  eapply (wp_on_io (post_recv_n RDMA_REPL_WINDOW) _ _ _ (λ _ _, True)); [by eexists|intros; apply post_recvs_total|].
  intros r i3 t3 Hu3 Hc3 Hph Hn _. simpl in Hc3.
  destruct (r =? 0); cbn [negb]; [|wp_steps; right; rewrite Hc3; split_and!; [done|done|done]].
  wp_step. unfold rdma_get_local_region, deref_context, deref_id. wp_steps. pose proof Hu3 as (c & Ha3 & Hx3 & _ & _ & Hptr). rewrite Ha3. wp_steps. rewrite Hx3. wp_steps.
  rewrite Hptr, decide_True by (by apply (bool_decide_unpack _); vm_compute). wp_steps. cbn [negb Z.eqb]. wp_step.
  destruct Hu3 as (c' & H1 & H2 & H3 & H4 & H5).
  apply wp_ask_cm; intros t4; wp_steps; right; rewrite ?Hc3; (split_and!; [by exists c'|done|done]).
Qed.

(** What was asked of the library last, and what is held then. *)
Definition loop_inv (fuel : nat) (state : bool) i : Prop :=
  (id_phase i = AddrAsked ∧ (2 ≤ fuel)%nat ∧ state = false ∧ early i ∧ held dialled (id_calls i)) ∨
  (id_phase i = RouteAsked ∧ (1 ≤ fuel)%nat ∧ state = false ∧ early i ∧ held dialled (id_calls i)) ∨
  (id_phase i = ConnectAsked ∧ state = true ∧ up_conn i ∧ held connected (id_calls i)).

Definition loop_live (state : bool) : list resource := if state then connected else dialled.

Lemma loop_inv_held fuel state i : loop_inv fuel state i → held (loop_live state) (id_calls i).
Proof. intros [(_ & _ & -> & _ & Hh)|[(_ & _ & -> & _ & Hh)|(_ & -> & _ & Hh)]]; exact Hh. Qed.

Lemma loop_inv_fail fuel state i tr t :
  loop_inv fuel state i → held (loop_live state) tr →
  wp (connect_fail state) (λ r i' _, connect_post r i') E (CmIdent (id_alive i) (id_context i) (id_qp i) (id_phase i) tr) t.
Proof.
  intros [(_ & _ & -> & He & _)|[(_ & _ & -> & He & _)|(_ & -> & Hu & _)]] Hh; [by apply fail_early..|].
  apply fail_late; [|exact Hh]. destruct Hu as (c & ?). by exists c.
Qed.

Lemma connect_loop_ok fuel state i t :
  loop_inv fuel state i → wp (connect_loop fuel addr rkey state) (λ r i' _, connect_post r i') E i t.
Proof.
  revert state i t. induction fuel as [|fuel IH]; intros state i t Hinv; cbn [connect_loop];
    pose proof (loop_inv_held _ _ _ Hinv) as Hh; wp_step; unfold rdma_get_cm_event; wp_step.
  all: (eapply wp_acquire_held; [exact Hh|by destruct state; apply (bool_decide_unpack _); vm_compute| |]).
  all: try (intros t'; cbn [negb]; wp_steps; destruct i; exact (loop_inv_fail _ _ _ _ _ Hinv Hh)).
  all: intros tr t' Htr; cbn [negb]; wp_steps; cbn [id_phase].
  all: destruct (sys_ok E t'); cbn [negb]; wp_steps.
  all: try (eapply (wp_ack_held (loop_live state)); [exact Htr|by destruct state; apply (bool_decide_unpack _); vm_compute|];
       intros tr2 Htr2; exact (loop_inv_fail _ _ _ _ _ Hinv Htr2)).
  - destruct Hinv as [(_ & ? & _)|[(_ & ? & _)|(-> & -> & Hu & _)]]; [lia|lia|]. wp_steps.
    eapply (wp_ack_held connected); [exact Htr|by apply (bool_decide_unpack _); vm_compute|]. intros tr2 Htr2. wp_steps.
    left. split_and!; [done| |done]. destruct Hu as (c & ?). by exists c.
  - destruct Hinv as [(-> & Hf & -> & He & _)|[(-> & Hf & -> & He & _)|(-> & -> & Hu & _)]]; wp_steps.
    + apply wp_ask_cm; intros t2; wp_step; (eapply (wp_ack_held dialled); [exact Htr|by apply (bool_decide_unpack _); vm_compute|]);
        intros tr2 Htr2; cbn [negb]; [|by apply fail_early]. apply IH. right. left. split_and!; [done|lia|done|done|done].
    + eapply wp_mono; [by apply on_route_resolved_ok|]. intros [ok st] i2 t2 Hr. wp_step.
      destruct Hr as [(-> & -> & He2 & Hh2)|(Hu2 & Hh2 & Hok)].
      * eapply (wp_ack_held dialled); [exact Hh2|by apply (bool_decide_unpack _); vm_compute|]. intros tr2 Htr2. by apply fail_early.
      * eapply wp_record_held with (L' := if st then connected else up_live ++ dialled); [exact Hh2|by destruct st; vm_compute|].
        intros tr2 Htr2. assert (∀ tr', up_conn (CmIdent (id_alive i2) (id_context i2) (id_qp i2) (id_phase i2) tr')) as Hup.
        { intros tr'. destruct Hu2 as (c & ?). by exists c. }
        destruct ok; cbn [negb]; [|by apply fail_late]. destruct (Hok eq_refl) as [-> Hph]. apply IH. right. right. by split_and!.
    + eapply (wp_ack_held connected); [exact Htr|by apply (bool_decide_unpack _); vm_compute|]. intros tr2 Htr2. wp_steps.
      left. split_and!; [done| |done]. destruct Hu as (c & ?). by exists c.
Qed.

Lemma connect_master_rdma_ok i t :
  id_alive i = false → id_context i = None → id_qp i = false → held (TcpFd :: listening) (id_calls i) →
  wp (connect_master_rdma addr rkey) (λ r i' _, connect_post r i') E i t.
Proof.
  intros Ha Hc Hq Hh. unfold connect_master_rdma. wp_step.
  eapply wp_acquire_held; [exact Hh|by apply (bool_decide_unpack _); vm_compute| |].
  2: { intros t1. wp_steps. by right. }
  intros tr1 t1 Htr1. cbn [negb]. wp_step.
  eapply wp_acquire_held; [exact Htr1|by apply (bool_decide_unpack _); vm_compute| |].
  2: { intros t2. cbn [negb]. wp_step. eapply wp_record_held; [exact Htr1|vm_compute; reflexivity|]. intros tr2 Htr2. wp_steps. by right. }
  intros tr2 t2 Htr2. cbn [negb]. unfold set_alive. wp_step. wp_step. wp_step.
  apply wp_ask_cm; intros t3; cbn [negb]; [apply connect_loop_ok; left; split_and!; try done; lia|by apply fail_early].
Qed.

(** ** The TCP connection *)

(** Everything but the bytes in transit. *)
Definition same_net s s' : Prop :=
  sn_id s' = sn_id s ∧ sn_tcp_fd s' = sn_tcp_fd s ∧ sn_listen_fd s' = sn_listen_fd s ∧ sn_running s' = sn_running s.

Lemma send_all_ok fuel data s t :
  (length data ≤ fuel)%nat →
  wp (send_all fuel data) (λ r s' _, same_net s s' ∧ sn_in s' = sn_in s ∧ (r = 0 ∧ sn_out s' = sn_out s ++ data ∨ r = -1)) E s t.
Proof.
  revert data s t. induction fuel as [|fuel IH]; intros [|b data] s t Hf; simpl in Hf; try lia; cbn [send_all].
  1-2: wp_steps; split_and!; [done|done|left; by rewrite app_nil_r].
  wp_steps. destruct (send_n E t) as [[|g]|]; [wp_steps; split_and!; [done|done|by right]| |wp_steps; split_and!; [done|done|by right]].
  unfold set_tcp. wp_steps. eapply wp_mono; [apply IH; rewrite length_drop; simpl; lia|].
  intros r s' t' (Hsame & Hin & Hr). split_and!; [exact Hsame|exact Hin|]. destruct Hr as [[-> Ho]|]; [left|by right]. split; [done|].
  rewrite Ho. cbn [sn_out]. by rewrite <-app_assoc, (take_drop (S g) (b :: data)).
Qed.

Lemma strstr_prefix a b : a `prefix_of` b → strstr b a = true.
Proof. intros Hp. destruct b; cbn [strstr]; by rewrite bool_decide_true. Qed.

Lemma cstr_prefix a b : NUL ∉ a → cstr (a ++ b) = a ++ cstr b.
Proof.
  induction a as [|x a IH]; intros Hn; simpl; [done|]. rewrite not_elem_of_cons in Hn. rewrite decide_False by naive_solver.
  by rewrite IH by tauto.
Qed.

(** The loop ends when the master closes the connection or sends the token. *)
Definition answers (closes : bool) (token buf inp : bytes) : Prop :=
  closes = true ∨ (length buf < length token < TOKEN_BUF)%nat ∧ NUL ∉ token ∧ ∃ rest, buf ++ inp = token ++ rest.

Lemma answers_next closes token buf inp g :
  answers closes token buf inp → ((length token <=? length (buf ++ take g inp))%nat && strstr (cstr (buf ++ take g inp)) token) = false →
  answers closes token (buf ++ take g inp) (drop g inp).
Proof.
  intros [->|((Hl & Hm) & Hn & rest & Heq)] Hno; [by left|]. right. apply andb_false_iff in Hno.
  assert ((buf ++ take g inp) ++ drop g inp = token ++ rest) as Heq' by (by rewrite <-app_assoc, take_drop).
  split_and!; [|done|done|by exists rest]. destruct Hno as [Hno|Hno]; [by apply Nat.leb_gt|].
  destruct (decide (length token ≤ length (buf ++ take g inp))%nat) as [Hge|]; [|lia]. exfalso.
  apply app_eq_inv in Heq' as [(k & H1 & H2)|(k & H1 & H2)].
  - rewrite H1, cstr_prefix, strstr_prefix in Hno by (done || by eexists). done.
  - pose proof (f_equal length H1) as Hk. rewrite length_app in Hk. assert (k = []) as -> by (destruct k; [done|simpl in Hk; lia]).
    rewrite app_nil_r in H1. rewrite <-H1, cstr_id, strstr_prefix in Hno by done. done.
Qed.

Lemma token_loop_ok closes fuel buf token s t :
  (TOKEN_BUF - length buf ≤ fuel)%nat → answers closes token buf (sn_in s) →
  wp (recv_loop closes fuel buf token) (λ r s' _, same_net s s' ∧ sn_out s' = sn_out s ∧ (r = 0 ∨ r = -1) ∧
    (r = 0 → ∃ got, buf ++ sn_in s = got ++ sn_in s' ∧ (length token ≤ length got)%nat)) E s t.
Proof.
  revert buf s t. induction fuel as [|fuel IH]; intros buf s t Hf Hans; cbn [recv_loop];
    (destruct (_ <? _)%nat eqn:Hb; [apply Nat.ltb_lt in Hb|wp_steps; split_and!; [done|done|by right|done]]).
  { unfold TOKEN_BUF in *. lia. }
  wp_step. wp_step. destruct (sys_ok E t); cbn [negb]; [|wp_steps; split_and!; [done|done|by right|done]].
  wp_steps. destruct (sn_in s) as [|x inp] eqn:Hin.
  { destruct Hans as [->|(Hl & _ & rest & Heq)]; [wp_steps; split_and!; [done|done|by right|done]|].
    apply (f_equal length) in Heq. rewrite app_nil_r, length_app in Heq. lia. }
  unfold set_tcp. wp_steps. set (g := (_ `min` _)%nat).
  assert (drop (length (take g (x :: inp))) (x :: inp) = drop g (x :: inp)) as ->.
  { rewrite length_take. destruct (decide (g ≤ length (x :: inp)))%nat; [by rewrite Nat.min_l|by rewrite Nat.min_r, !drop_ge by lia]. }
  destruct (_ && _) eqn:Hfound.
  - wp_steps. split_and!; [done|done|by left|]. intros _. exists (buf ++ take g (x :: inp)). cbn [sn_in].
    rewrite <-app_assoc, take_drop. split; [done|]. apply andb_prop in Hfound as [Hl _]. by apply Nat.leb_le.
  - apply (answers_next _ _ _ _ g) in Hans; [|done]. eapply wp_mono; [apply IH; [|exact Hans]|].
    + rewrite length_app, length_take, length_cons. unfold g, TOKEN_BUF in *. lia.
    + intros r s' t' (H1 & H2 & H3 & H4). split_and!; [done|done|done|]. intros Hr. destruct (H4 Hr) as (got & Hgot & Hlen).
      exists got. split; [|done]. cbn [sn_in] in Hgot. by rewrite <-Hgot, <-app_assoc, take_drop.
Qed.

(** ** Start *)

(** The descriptors as the globals say, and what is held. *)
Definition globals L (tcp lfd run : bool) (o : bytes) s : Prop :=
  held L (id_calls (sn_id s)) ∧ sn_tcp_fd s = tcp ∧ sn_listen_fd s = lfd ∧ sn_running s = run ∧ sn_out s = o.

(** No identifier yet. *)
Definition no_id s : Prop := id_alive (sn_id s) = false ∧ id_context (sn_id s) = None ∧ id_qp (sn_id s) = false.

Lemma wp_net_acquire L x tcp lfd run o s t (Q : bool → slave_net → nat → Prop) :
  globals L tcp lfd run o s → no_id s → x ∉ L →
  (∀ s' t', globals (x :: L) tcp lfd run o s' → no_id s' → sn_in s' = sn_in s → Q true s' t') →
  (∀ t', Q false s t') → wp (on_id (acquire x)) Q E s t.
Proof.
  intros (Hh & Hg) Hn Hx HT HF. unfold on_id. apply wp_zoom. eapply wp_acquire_held; [exact Hh|done| |].
  - intros tr t' Htr. by apply HT.
  - intros t'. destruct s. apply HF.
Qed.

Lemma wp_net_record L L' x tcp lfd run o s t (Q : unit → slave_net → nat → Prop) :
  globals L tcp lfd run o s → replay1 library_uses L x = Some L' →
  (∀ s', globals L' tcp lfd run o s' → (no_id s → no_id s') → sn_in s' = sn_in s → Q tt s' t) → wp (on_id (record x)) Q E s t.
Proof.
  intros (Hh & Hg) Hx HQ. unfold on_id. apply wp_zoom. eapply wp_record_held; [exact Hh|exact Hx|].
  intros tr Htr. by apply HQ.
Qed.

Ltac not_held := by apply (bool_decide_unpack _); vm_compute.
Ltac closing := wp_step; eapply wp_net_record; [eassumption|vm_compute; reflexivity|]; intros ? ? ? ?; wp_steps.

Lemma start_ebpf_listener_ok o s t :
  globals [] false false true o s → no_id s →
  wp start_ebpf_listener (λ r s' _,
    no_id s' ∧ (r = 0 ∧ globals listening false true true o s' ∧ sn_in s' = sn_in s ∨ r = -1 ∧ globals [] false false true o s')) E s t.
Proof.
  intros Hg Hn. unfold start_ebpf_listener. wp_step.
  eapply wp_net_acquire; [exact Hg|exact Hn|not_held| |intros t'; cbn [negb]; wp_steps; by auto]. intros s1 t1 Hg1 Hn1 Hin1. cbn [negb].
  wp_step. wp_step. destruct (sys_ok E t1); cbn [negb]; [|closing; by auto].
  wp_step. wp_step. destruct (sys_ok E (S t1)); cbn [negb]; [|closing; by auto].
  unfold set_fds. wp_step. wp_step. wp_step. wp_step. wp_step.
  eapply (wp_net_acquire [ListenFd] AcceptThread false true true o); [destruct Hg1 as (? & ? & ? & ? & ?); by split_and!|exact Hn1|not_held| |].
  - intros s2 t2 Hg2 Hn2 Hin2. cbn [negb]. wp_steps. split; [done|]. left. by rewrite Hin2.
  - intros t2. cbn [negb]. wp_step. eapply (wp_net_record [ListenFd] [] _ false true true o);
      [destruct Hg1 as (? & ? & ? & ? & ?); by split_and!|vm_compute; reflexivity|]. intros s3 Hg3 Hn3 _. wp_steps.
    split; [by apply Hn3|]. right. split; [done|]. destruct Hg3 as (? & ? & ? & ? & ?). by split_and!.
Qed.

Lemma globals_same L tcp lfd run o o' s s' :
  globals L tcp lfd run o s → same_net s s' → sn_out s' = o' → globals L tcp lfd run o' s'.
Proof. intros (Hh & H1 & H2 & H3 & H4) (Hi & E1 & E2 & E3) Ho. unfold globals. rewrite Hi, E1, E2, E3. by split_and!. Qed.

Lemma no_id_same s s' : no_id s → same_net s s' → no_id s'.
Proof. intros Hn (Hi & _). unfold no_id. by rewrite Hi. Qed.

Lemma connect_master_tcp_ok closes o s t :
  globals listening false true true o s → no_id s → answers closes OK_TOKEN [] (sn_in s) →
  wp (connect_master_tcp closes) (λ ok s' _,
    no_id s' ∧ (ok = true ∧ globals (TcpFd :: listening) false true true (o ++ SYNC_CMD) s' ∧
                  (∃ got, sn_in s = got ++ sn_in s' ∧ (length OK_TOKEN ≤ length got)%nat) ∨
                ok = false ∧ ∃ o', globals listening false true true o' s')) E s t.
Proof.
  intros Hg Hn Hans. unfold connect_master_tcp. wp_step.
  eapply wp_net_acquire; [exact Hg|exact Hn|not_held| |intros t'; cbn [negb]; wp_steps; by eauto 8]. intros s1 t1 Hg1 Hn1 Hin1. cbn [negb].
  wp_step. wp_step. destruct (sys_ok E t1); cbn [negb]; [|closing; by eauto 8].
  wp_step. eapply wp_mono; [by apply send_all_ok|]. intros r s2 t2 (Hsame & Hin2 & Hr). rewrite <-Hin1, <-Hin2 in *.
  pose proof (no_id_same _ _ Hn1 Hsame) as Hn2. pose proof (globals_same _ _ _ _ _ _ _ _ Hg1 Hsame eq_refl) as Hg2.
  destruct Hr as [[-> Ho]| ->]; cbn [Z.eqb negb]; [|closing; by eauto 8].
  wp_step. eapply wp_mono; [apply token_loop_ok; [unfold TOKEN_BUF; simpl; lia|exact Hans]|]. intros r s3 t3 (Hsame3 & Ho3 & Hr & Hgot).
  pose proof (no_id_same _ _ Hn2 Hsame3) as Hn3. pose proof (globals_same _ _ _ _ _ _ _ _ Hg2 Hsame3 Ho3) as Hg3.
  destruct Hr as [-> | ->]; cbn [Z.eqb negb]; [|closing; by eauto 8]. wp_steps. split; [done|]. left. split_and!; [done| |by apply Hgot].
  destruct Hg1 as (_ & _ & _ & _ & <-). by rewrite <-Ho.
Qed.

(** What a start leaves behind. *)
Definition start_post (o : bytes) (r : Z) s : Prop :=
  (r = 0 ∧ globals (TcpFd :: listening) true true true (o ++ SYNC_CMD ++ FINSYNC_CMD) s) ∨
  (r = -1 ∧ ∃ o', globals [] false false true o' s ∨ globals [AcceptThread] false false false o' s).

(** out: without a connection. *)
Lemma slave_out_early (tcp : bool) o o' s t :
  globals ((if tcp then [TcpFd] else []) ++ listening) tcp true true o' s →
  wp (slave_out false false false (-1)) (λ r s' _, start_post o r s') E s t.
Proof.
  intros Hg. unfold slave_out, set_fds. wp_steps. cbn [Z.eqb negb andb]. pose proof Hg as (_ & -> & _).
  apply wp_mono with (Q := λ _ s' _, globals listening false true true o' s').
  { destruct tcp; cbv iota; [|by wp_steps]. wp_step. eapply wp_net_record; [exact Hg|vm_compute; reflexivity|]. intros s1 (? & ? & ? & ? & ?) _ _.
    wp_steps. destruct Hg as (_ & _ & ? & ? & _). by split_and!. }
  intros [] s1 t1 Hg1. wp_steps. pose proof Hg1 as (_ & _ & -> & _).
  eapply wp_net_record; [exact Hg1|vm_compute; reflexivity|]. intros s2 (? & ? & ? & ? & ?) _ _. wp_steps.
  right. split; [done|]. exists o'. right. pose proof Hg1 as (_ & Ht & _). by split_and!.
Qed.

(** out: with the connection up. *)
Lemma slave_out_late (ret : Z) o o' s t :
  (ret = 0 ∧ o' = o ++ SYNC_CMD ++ FINSYNC_CMD) ∨ ret = -1 →
  globals connected true true true o' s → up_conn (sn_id s) →
  wp (slave_out true true true ret) (λ r s' _, start_post o r s') E s t.
Proof.
  intros Hret Hg Hu. unfold slave_out, set_fds. wp_step. unfold on_id at 1, set_phase. wp_steps.
  destruct Hu as (c & Hu). pose proof Hu as (_ & Hc & _). cbn [id_context]. rewrite Hc.
  eapply (wp_destroy_held connected ([SyncState; EventChannel; TcpFd] ++ listening)); [destruct Hu as (? & _ & Hu); by exists c|exact (proj1 Hg)|vm_compute; reflexivity|].
  intros i1 _ Hh1.
  assert (globals ([SyncState; EventChannel; TcpFd] ++ listening) true true true o'
    (SlaveNet i1 (sn_tcp_fd s) (sn_listen_fd s) (sn_running s) (sn_in s) (sn_out s) (sn_clients s))) as Hg1.
  { destruct Hg as (_ & Hg). by split. }
  wp_step. eapply wp_net_record; [exact Hg1|vm_compute; reflexivity|]. intros s2 Hg2 _ _.
  wp_step. eapply wp_net_record; [exact Hg2|vm_compute; reflexivity|]. intros s3 Hg3 _ _. wp_step. wp_step.
  destruct Hret as [[-> ->]| ->]; cbn [Z.eqb negb andb].
  - wp_steps. left. by split.
  - pose proof Hg3 as (_ & Ht & _). rewrite Ht. wp_step. wp_step.
    eapply wp_net_record; [exact Hg3|vm_compute; reflexivity|]. intros s4 (Hh4 & _ & Hl4 & Hr4 & Ho4) _ _.
    wp_steps. cbn [sn_listen_fd]. pose proof Hg3 as (_ & _ & Hl3 & Hr3 & _). rewrite Hl3.
    eapply (wp_net_record listening [AcceptThread] _ false true true o'); [by split_and!|vm_compute; reflexivity|].
    intros s5 (Hh5 & Ht5 & _ & _ & Ho5) _ _. wp_steps. right. split; [done|]. exists o'. right. by split_and!.
Qed.

(** The poller marks the connection done or failed. *)
Definition ends (marks : list mark) : Prop := ∃ m, m ∈ marks ∧ m ≠ Wake.

(** The wait is over. *)
Definition over i : Prop :=
  ∀ c, id_context i = Some c → mg_running c && negb (cn_done (mg_io c)) && negb (cn_failed (mg_io c)) = false.

Lemma wait_over marks i t : up_conn i → over i → wp (rdma_wait_done marks) (λ _ i' _, up_conn i' ∧ id_calls i' = id_calls i) E i t.
Proof.
  intros Hu Hov. pose proof Hu as (c & Ha & Hc & _). destruct marks; cbn [rdma_wait_done]; unfold deref_context, deref_id; wp_steps;
    rewrite Ha; wp_steps; rewrite Hc; wp_steps; rewrite (Hov c Hc); by wp_steps.
Qed.

Lemma mark_ok m i t :
  up_conn i → wp (poller_marks m) (λ _ i' _, up_conn i' ∧ id_calls i' = id_calls i ∧ (m ≠ Wake → over i')) E i t.
Proof.
  intros Hu. destruct m; cbn [poller_marks]; unfold rdma_mark_done, rdma_mark_failed; [| |by wp_steps].
  - eapply (wp_on_io _ _ _ _ (λ _ io, cn_done io = true)); [done|intros; by wp_steps|]. intros [] i' t' Hu' Hc _ _ Hd.
    split_and!; [done|done|]. intros _ c Hx. rewrite (Hd c Hx). cbn. by rewrite andb_false_r.
  - wp_step. eapply (wp_on_io _ _ _ _ (λ _ _, True)); [done|intros; by wp_steps|].
    intros [] [al ctx qp ph tr] t1 (c & Ha & Hc & Hq & Hd & Hp) Hcalls _ _ _. simpl in *. subst. apply wp_on_context.
    split_and!; [by eexists|done|]. by intros _ c' [= <-].
Qed.

Lemma wait_done_ok marks i t :
  up_conn i → ends marks → wp (rdma_wait_done marks) (λ _ i' _, up_conn i' ∧ id_calls i' = id_calls i) E i t.
Proof.
  revert i t. induction marks as [|m marks IH]; intros i t Hu (m' & Hin & Hw); [by apply not_elem_of_nil in Hin|].
  pose proof Hu as (c & Ha & Hc & _). cbn [rdma_wait_done]. unfold deref_context, deref_id. wp_steps. rewrite Ha. wp_steps. rewrite Hc. wp_steps.
  destruct (_ && _); [|by wp_steps]. wp_step. eapply wp_mono; [by apply mark_ok|]. intros [] i1 t1 (Hu1 & Hc1 & Hov). rewrite <-Hc1.
  apply elem_of_cons in Hin as [->|Hin]; [by apply wait_over; auto|]. apply IH; [done|]. by exists m'.
Qed.

Ltac net_simpl := cbn [sn_id sn_tcp_fd sn_listen_fd sn_running sn_in sn_out sn_clients] in *.

(** What the master does on the TCP connection: it closes it after what it sent, or
    answers SYNC and reports the end. *)
Definition master_answers (closes : bool) (inp late : bytes) : Prop :=
  closes = true ∨ inp = OK_TOKEN ∧ DONE_TOKEN `prefix_of` late.

Lemma slave_start_ok marks late closes inp o t i :
  ends marks → master_answers closes inp late →
  id_calls i = [] → id_alive i = false → id_context i = None → id_qp i = false →
  wp (kvs_replication_slave_start addr rkey marks late closes) (λ r s _, start_post o r s) E (SlaveNet i false false true inp o []) t.
Proof.
  intros Hends Hans Hi Ha Hc Hq. unfold kvs_replication_slave_start, set_fds. wp_steps. net_simpl.
  eapply wp_mono; [apply (start_ebpf_listener_ok o); [|by split_and!]; split_and!; [by unfold held; cbn; rewrite Hi|done..]|].
  intros r s1 t1 [Hn1 [(-> & Hg1 & Hin1)|[-> Hg1]]]; cbn [Z.eqb negb]; [|wp_steps; right; eauto]. net_simpl.
  wp_step. eapply wp_mono; [apply (connect_master_tcp_ok closes o); [done|done|]|].
  { rewrite Hin1. destruct Hans as [->|[-> _]]; [by left|]. right. split_and!; [simpl; lia|unfold TOKEN_BUF; simpl; lia|by apply (bool_decide_unpack _); vm_compute|by exists []]. }
  intros ok s2 t2 [Hn2 Hok]. do 4 wp_step. net_simpl.
  destruct Hok as [(-> & Hg2 & got & Hgot & Hlen)|[-> [o' Hg2]]]; cbn [negb].
  2: { apply (slave_out_early false o o'). destruct Hg2 as (? & ? & ? & ? & ?). by split_and!. }
  wp_step. unfold on_id. apply wp_zoom. destruct Hn2 as (Ha2 & Hc2 & Hq2).
  eapply wp_mono; [apply connect_master_rdma_ok; [exact Ha2|exact Hc2|exact Hq2|exact (proj1 Hg2)]|].
  destruct Hg2 as (_ & _ & Hl2 & Hr2 & Ho2).
  intros [r st] i3 t3 [([= -> ->] & Hu3 & Hh3)|([= -> ->] & Ha3 & Hh3)]; cbn [Z.eqb negb].
  2: { apply (slave_out_early true o (o ++ SYNC_CMD)). by split_and!. }
  wp_step. wp_step. eapply wp_mono; [by apply (wait_done_ok marks)|]. intros [] i4 t4 [Hu4 Hh4]. net_simpl.
  unfold set_tcp, deref_context, deref_id. do 4 wp_step. net_simpl. destruct Hu4 as (c & Hu4). pose proof Hu4 as (Ha4 & Hc4 & _).
  wp_steps. net_simpl. rewrite Ha4. wp_steps. rewrite Hc4. wp_steps. net_simpl.
  set (s4 := SlaveNet i4 _ _ _ _ _ _). 
  assert (globals connected true true true (o ++ SYNC_CMD) s4 ∧ up_conn (sn_id s4)) as [Hg5 Hu5].
  { split; [|by exists c]. split_and!; [cbn; by rewrite Hh4|done|done|done|done]. }
  destruct (_ || _); [apply (slave_out_late _ o (o ++ SYNC_CMD)); by auto|].
  wp_step. eapply wp_mono; [apply token_loop_ok; [unfold TOKEN_BUF; simpl; lia|]|].
  { destruct Hans as [->|[Hinp [rest ->]]]; [by left|]. right. rewrite Hin1, Hinp in Hgot.
    split_and!; [simpl; lia|unfold TOKEN_BUF; simpl; lia|by apply (bool_decide_unpack _); vm_compute|]. exists rest. unfold s4. net_simpl.
    pose proof (f_equal length Hgot) as Hx. rewrite length_app in Hx. by rewrite (nil_length_inv (sn_in s2)) by lia. }
  intros r s6 t6 (Hs6 & Ho6 & Hr & _).
  pose proof (globals_same _ _ _ _ _ _ _ _ Hg5 Hs6 Ho6) as Hg6. pose proof Hg5 as (_ & _ & _ & _ & Ho5). rewrite Ho5 in Hg6.
  assert (up_conn (sn_id s6)) as Hu6 by (destruct Hs6 as (-> & _); done).
  destruct Hr as [-> | ->]; cbn [Z.eqb negb]; [|apply (slave_out_late _ o (o ++ SYNC_CMD)); by auto].
  wp_step. eapply wp_mono; [by apply send_all_ok|]. intros r s7 t7 (Hs7 & _ & Hr).
  pose proof (globals_same _ _ _ _ _ _ _ _ Hg6 Hs7 eq_refl) as Hg7.
  assert (up_conn (sn_id s7)) as Hu7 by (destruct Hs7 as (-> & _); done).
  destruct Hr as [[-> Ho7]| ->]; cbn [Z.eqb negb]; [|apply (slave_out_late _ o (sn_out s7)); by auto].
  apply (slave_out_late _ o (sn_out s7)); [|done|done]. left. split; [done|]. rewrite Ho7.
  destruct Hg6 as (_ & _ & _ & _ & ->). by rewrite <-app_assoc.
Qed.
End slave.

(** ** Theorems *)

(** The slave before its start, with what the master answers to SYNC. *)
Definition starting (inp : bytes) : slave_net := SlaveNet (CmIdent false None false Created []) false false true inp [] [].

(** C11: the start of a slave gives back what it took. Suppose that the waits of the
    start are answered: the thread that polls for completions marks the connection
    done or failed at some time, and on the TCP connection the master closes its end
    after whatever it sent, or sends +OK and later +DONE; sends and the connection
    manager answer each question. Then, whichever system calls, verbs, allocations,
    transfers and phases of the RDMA connection fail, and in whatever pieces the bytes
    of the master arrive, kvs_replication_slave_start returns. On success it has sent
    SYNC and FINSYNC and holds only the TCP connection, the port for the forwarder and
    the thread of that port. On failure every descriptor, event, identifier, buffer and
    region has been given back in an order the libraries allow; the thread of the
    port, if it was started, still runs with slave_running 0. *)
Theorem slave_start_balanced E addr rkey marks late closes inp t :
  ends marks → master_answers closes inp late →
  wp (kvs_replication_slave_start addr rkey marks late closes) (λ r s _,
    r = 0 ∧ held [TcpFd; AcceptThread; ListenFd] (id_calls (sn_id s)) ∧
      sn_tcp_fd s = true ∧ sn_listen_fd s = true ∧ sn_out s = SYNC_CMD ++ FINSYNC_CMD ∨
    r = -1 ∧ sn_tcp_fd s = false ∧ sn_listen_fd s = false ∧
      (held [] (id_calls (sn_id s)) ∨ held [AcceptThread] (id_calls (sn_id s)) ∧ sn_running s = false)) E (starting inp) t.
Proof.
  intros Hends Hans.
  eapply wp_mono; [by apply slave_start_ok|]. intros r s _ [(-> & Hh & Ht & Hl & Hr & Ho)|(-> & o & [(Hh & Ht & Hl & Hr & Ho)|(Hh & Ht & Hl & Hr & Ho)])].
  - left. by split_and!.
  - right. by auto.
  - right. by auto 6.
Qed.

Lemma slave_start_balanced_witness :
  (ends [Wake; MarkDone] ∧ master_answers false OK_TOKEN DONE_TOKEN) ∧
  wp (kvs_replication_slave_start 0 0 [Wake; MarkDone] DONE_TOKEN false) (λ r s _,
    r = 0 ∧ held [TcpFd; AcceptThread; ListenFd] (id_calls (sn_id s)) ∧
      sn_tcp_fd s = true ∧ sn_listen_fd s = true ∧ sn_out s = SYNC_CMD ++ FINSYNC_CMD ∨
    r = -1 ∧ sn_tcp_fd s = false ∧ sn_listen_fd s = false ∧
      (held [] (id_calls (sn_id s)) ∨ held [AcceptThread] (id_calls (sn_id s)) ∧ sn_running s = false)) calm (starting OK_TOKEN) 0.
Proof.
  assert (ends [Wake; MarkDone]) as Hends by (exists MarkDone; split; [right; left|done]).
  assert (master_answers false OK_TOKEN DONE_TOKEN) as Hans by (right; by split).
  split; [by split|]. exact (slave_start_balanced calm 0 0 _ _ _ _ 0 Hends Hans).
Defined.

(** Without failures the start succeeds. *)
Example slave_starts :
  wp (kvs_replication_slave_start 0 0 [Wake; MarkDone] DONE_TOKEN false) (λ r s _, r = 0 ∧ sn_running s = true) calm (starting OK_TOKEN) 0.
Proof. vm_compute. split; reflexivity. Qed.

(** rdma_wait_done has no timeout: when the poller's poll fails, its thread ends
    with the connection still running, and the start waits for ever, even if the
    master closes the TCP connection. *)
Theorem wait_without_poller_blocks E i marks t :
  up_conn i → ¬ over i → Forall (.= Wake) marks → rdma_wait_done marks E i t = Fault Blocked.
Proof.
  intros (c & Ha & Hc & _) Hno. assert (mg_running c && negb (cn_done (mg_io c)) && negb (cn_failed (mg_io c)) = true) as Hw.
  { apply not_false_iff_true. intros Hf. apply Hno. intros c' Hc'. congruence. }
  induction marks as [|m marks IH]; intros Hm; cbn [rdma_wait_done]; unfold deref_context, deref_id, mbind, M_bind, gets, mret, M_ret; rewrite Ha, Hc, Hw; [done|].
  apply Forall_cons in Hm as [-> Hm]. by apply IH.
Qed.

Example start_without_poller_blocks :
  kvs_replication_slave_start 0 0 [Wake] DONE_TOKEN true calm (starting OK_TOKEN) 0%nat = Fault Blocked.
Proof. vm_compute. reflexivity. Qed.

(** All calls succeed but one. *)
Definition failing (k : nat) : env :=
  Env (clock calm) (malloc_ok calm) (rand_at calm) (fork_ok calm) (io_short calm) (zeroed calm) (recv_n calm) (send_n calm)
    (λ t, negb (t =? k)%nat).

(** When the master rejects the RDMA connection, the failure label of
    connect_master_rdma frees the synchronisation state while the thread that polls
    for completions, whose handler reads it, still runs. The exit of
    kvs_replication_slave_start itself destroys the connection first. *)
Theorem rejected_slave_frees_state_early :
  wp (kvs_replication_slave_start 0 0 [MarkDone] DONE_TOKEN true) (λ r s _,
    r = -1 ∧ held [AcceptThread] (id_calls (sn_id s)) ∧ replay thread_uses [] (id_calls (sn_id s)) = None)
    (failing 98) (starting OK_TOKEN) 0.
Proof. vm_compute. split_and!; reflexivity. Qed.

(** The descriptor of the port for the forwarder is closed twice: by the
    failing start or by kvs_replication_slave_cleanup, and again by accept_ebpf_conn
    when it leaves its loop. *)
Theorem listen_descriptor_closed_twice :
  wp (kvs_replication_slave_start 0 0 [MarkDone] DONE_TOKEN true;; kvs_replication_slave_cleanup;; accept_ebpf_conn [None]) (λ _ s _,
    replay library_uses [] (id_calls (sn_id s)) = None ∧
    length (List.filter (λ c, match c with Del ListenFd => true | _ => false end) (id_calls (sn_id s))) = 2%nat) calm (starting OK_TOKEN) 0.
Proof. vm_compute. split; reflexivity. Qed.
