(* ===== verification/RdmaMaster.v ===== *)
(** * The RDMA listener of the master (kvs_repli_master.c)

    A thread receives the events of the connection manager and sets up, starts and
    takes down the connections of replicas; the command thread adds replicas (SYNC)
    and puts them online (FINSYNC), and the pollers finish synchronisations. What
    happens when is an event; an event that the connection manager cannot report in
    the current state does not occur. *)

From S2P Require Import Prelude Aof AofUring Rdb Rdma Server FullSync RdmaConn.

(** struct kvs_replica_s, with a name for its address in memory; cmd_queue and
    rdb_fd are never set, rdb_mr never either. *)
Record mreplica := MReplica {
  mr_key   : Z;
  mr_fd    : Z;               (* tcp_fd *)
  mr_addr  : Z;               (* tcp_addr.sin_addr *)
  mr_state : replica_state;
  mr_cm    : option Z;        (* rdma_cm_id *)
  mr_buf   : bool             (* rdb_buf != NULL *)
}.

Record listener := Listener {
  ls_replicas : list mreplica;      (* g_replicas *)
  ls_ids      : gmap Z cm_id;       (* identifiers by address *)
  ls_syncs    : gmap Z Z;           (* st->replica of the identifier's connection *)
  ls_done     : list Z;             (* descriptors that +DONE was sent to *)
  ls_closed   : list Z              (* descriptors closed *)
}.

Abbreviation L := (M listener).

Definition put_replicas (l : list mreplica) : L unit :=
  modify (λ s, Listener l (ls_ids s) (ls_syncs s) (ls_done s) (ls_closed s)).
Definition put_id (i : Z) (c : cm_id) : L unit :=
  modify (λ s, Listener (ls_replicas s) (<[i := c]> (ls_ids s)) (ls_syncs s) (ls_done s) (ls_closed s)).
Definition put_sync (m : gmap Z Z) : L unit :=
  modify (λ s, Listener (ls_replicas s) (ls_ids s) m (ls_done s) (ls_closed s)).
Definition say_done (fd : Z) : L unit :=
  modify (λ s, Listener (ls_replicas s) (ls_ids s) (ls_syncs s) (ls_done s ++ [fd]) (ls_closed s)).
Definition close_fd (fd : Z) : L unit :=
  modify (λ s, Listener (ls_replicas s) (ls_ids s) (ls_syncs s) (ls_done s) (ls_closed s ++ [fd])).

(** A function of rdma.h on the identifier at an address. *)
Definition at_id {A} (i : Z) (m : C A) : L A :=
  ids ← gets ls_ids;
  match ids !! i with
  | None => fail UseAfterFree
  | Some c =>
      zoom (λ _, c) (λ c' s, Listener (ls_replicas s) (<[i := c']> (ls_ids s)) (ls_syncs s) (ls_done s) (ls_closed s)) m
  end.

(** Assigning to the fields of a replica. *)
Definition update_replica (k : Z) (f : mreplica → mreplica) : L unit :=
  l ← gets ls_replicas; put_replicas ((λ r, if mr_key r =? k then f r else r) <$> l).

Definition set_cm (x : option Z) (r : mreplica) := MReplica (mr_key r) (mr_fd r) (mr_addr r) (mr_state r) x (mr_buf r).
Definition set_buf (b : bool) (r : mreplica) := MReplica (mr_key r) (mr_fd r) (mr_addr r) (mr_state r) (mr_cm r) b.
Definition set_state (x : replica_state) (r : mreplica) := MReplica (mr_key r) (mr_fd r) (mr_addr r) x (mr_cm r) (mr_buf r).

(** ** Finding replicas: the first of the list *)

Fixpoint find_replica (P : mreplica → bool) (l : list mreplica) : option mreplica :=
  match l with [] => None | r :: l' => if P r then Some r else find_replica P l' end.

Definition find_replica_by_rdma_cm_id (i : Z) (l : list mreplica) : option mreplica :=
  find_replica (λ r, bool_decide (mr_cm r = Some i)) l.
Definition find_waiting_replica_by_peer (peer : Z) (l : list mreplica) : option mreplica :=
  find_replica (λ r, bool_decide (mr_state r = KVS_REPL_STATE_WAIT_RDMA) && (mr_addr r =? peer)) l.
Definition find_replica_by_tcp_fd (fd : Z) (l : list mreplica) : option mreplica :=
  find_replica (λ r, mr_fd r =? fd) l.

(** ** Handlers *)

Definition replica_free_snapshot (k : Z) : L unit := update_replica k (set_buf false).

Definition disconnect (i : Z) : L unit := at_id i (on_io rdma_disconnect).
Definition rdma_reject (i : Z) : L unit := at_id i (deref_id;; set_phase Rejected).

(** if (!cm_id->context) nothing, otherwise the state of the connection is freed *)
Definition master_cleanup_conn_state (i : Z) : L unit :=
  at_id i (
    deref_id;;
    c ← gets id_context;
    match c with
    | None => mret tt
    | Some c => if mg_user c then on_context (set_user false);; record (Del SyncState) else mret tt
    end);;
  s ← gets ls_syncs; put_sync (delete i s).

(** master_start_fullsync, for the replica whose identifier it is *)
Definition master_start_fullsync (k i : Z) : L Z :=
  c ← at_id i (deref_id;; gets id_context);
  match c with
  | None => mret (-1)
  | Some _ =>
      (* master_prepare_snapshot *)
      replica_free_snapshot k;;
      ok ← ask_sys; if negb ok then disconnect i;; mret (-1) else
      update_replica k (set_buf true);;
      (* master_sync_state_new *)
      ok ← kvs_malloc; if negb ok then replica_free_snapshot k;; disconnect i;; mret (-1) else
      at_id i (record (New SyncState);; on_context (set_user true));;
      s ← gets ls_syncs; put_sync (<[i := k]> s);;
      r ← at_id i (on_io (post_recv_n RDMA_REPL_CTRL_RECV_DEPTH));
      if negb (r =? 0) then disconnect i;; mret (-1) else
      (* master_pump_locked, which ends the connection when it fails *)
      ok ← ask_sys; if negb ok then disconnect i;; mret (-1) else mret 0
  end.

Definition on_rdma_connect_request (i : Z) (region : option rdma_peer_region) (peer : Z) (accept_ok : bool) : L unit :=
  match region with
  | None => rdma_reject i
  | Some region =>
      l ← gets ls_replicas;
      match find_waiting_replica_by_peer peer l with
      | None => rdma_reject i
      | Some replica =>
          r ← at_id i initialize_connection;
          if negb (r =? 0) then rdma_reject i else
          at_id i (on_context (set_user false));;
          r ← at_id i (rdma_set_remote_region region);
          if negb (r =? 0) then rdma_reject i;; at_id i destroy_connection else
          update_replica (mr_key replica) (set_cm (Some i));;
          if accept_ok then at_id i (set_phase Accepted) else at_id i destroy_connection
      end
  end.

Definition on_rdma_connect_established (i : Z) : L unit :=
  l ← gets ls_replicas;
  match find_replica_by_rdma_cm_id i l with
  | None => disconnect i
  | Some replica =>
      if negb (bool_decide (mr_state replica = KVS_REPL_STATE_WAIT_RDMA)) then mret tt
      else _r ← master_start_fullsync (mr_key replica) i; mret tt
  end.

Definition on_rdma_disconnected (i : Z) : L unit :=
  l ← gets ls_replicas;
  (match find_replica_by_rdma_cm_id i l with
   | Some replica => update_replica (mr_key replica) (set_cm None);; replica_free_snapshot (mr_key replica)
   | None => mret tt
   end);;
  master_cleanup_conn_state i;;
  at_id i destroy_connection.

(** master_finish_fullsync, in the poller of the identifier *)
Definition master_finish_fullsync (i : Z) : L unit :=
  s ← gets (λ s, s);
  match ls_syncs s !! i with
  | None => mret tt
  | Some k =>
      replica_free_snapshot k;;
      update_replica k (set_state KVS_REPL_STATE_WAIT_FINSYNC);;
      match find_replica (λ r, mr_key r =? k) (ls_replicas s) with
      | Some r => if 0 <=? mr_fd r then say_done (mr_fd r) else mret tt
      | None => fail UseAfterFree
      end
  end.

(** The command thread: add_replica and kvs_replication_master_handle_finsync *)
Definition add_replica (k fd addr : Z) : L unit :=
  ok ← kvs_malloc;
  if negb ok then close_fd fd else
  l ← gets ls_replicas; put_replicas (MReplica k fd addr KVS_REPL_STATE_WAIT_RDMA None false :: l).

Definition handle_finsync (fd : Z) : L unit :=
  l ← gets ls_replicas;
  match find_replica_by_tcp_fd fd l with
  | None => mret tt
  | Some r =>
      if negb (bool_decide (mr_state r = KVS_REPL_STATE_WAIT_FINSYNC)) then mret tt else
      update_replica (mr_key r) (set_state KVS_REPL_STATE_ONLINE);;
      match mr_cm r with Some i => disconnect i | None => mret tt end
  end.

(** remove_replica for the first of the list *)
Definition remove_head (r : mreplica) (l : list mreplica) : L unit :=
  put_replicas l;;
  (match mr_cm r with
   | Some i => disconnect i;; master_cleanup_conn_state i;; at_id i destroy_connection
   | None => mret tt
   end);;
  if 0 <=? mr_fd r then close_fd (mr_fd r) else mret tt.

(** The loop of kvs_replication_master_cleanup; every round removes a replica *)
Fixpoint cleanup_loop (fuel : nat) : L unit :=
  l ← gets ls_replicas;
  match l with
  | [] => mret tt
  | r :: l' =>
      match fuel with
      | O => fail OutOfFuel
      | S fuel' => remove_head r l';; cleanup_loop fuel'
      end
  end.

(** ** Histories *)

Inductive event :=
| Sync (k fd addr : Z)
| ConnectRequest (i : Z) (region : option rdma_peer_region) (peer : Z) (accept_ok : bool)
| Established (i : Z)
| Disconnected (i : Z)
| CmError (i : Z)                   (* REJECTED, UNREACHABLE and the like: only printed *)
| FullsyncDone (i : Z)
| Finsync (fd : Z).

(** What the connection manager and the pollers can do. *)
Definition occurs (s : listener) (ev : event) : bool :=
  match ev with
  | Sync k _ _ => bool_decide (k ∉ mr_key <$> ls_replicas s)
  | ConnectRequest i _ _ _ => bool_decide (ls_ids s !! i = None)
  | Established i => match ls_ids s !! i with Some c => id_alive c && bool_decide (id_phase c = Accepted) | None => false end
  | Disconnected i => match ls_ids s !! i with Some c => id_alive c && bool_decide (id_phase c = Up) | None => false end
  | FullsyncDone i => match ls_ids s !! i with Some c => id_alive c && bool_decide (id_phase c = Up) | None => false end
  | CmError _ | Finsync _ => true
  end.

(** The branches of rdma_listen_thread_func, and the other threads. *)
Definition handle_event (ev : event) : L unit :=
  match ev with
  | Sync k fd addr => add_replica k fd addr
  | ConnectRequest i region peer ok =>
      put_id i (CmIdent true None false Requested []);; on_rdma_connect_request i region peer ok
  | Established i => at_id i (set_phase Up);; on_rdma_connect_established i
  | Disconnected i => at_id i (set_phase Closed);; on_rdma_disconnected i
  | CmError _ => mret tt
  | FullsyncDone i => master_finish_fullsync i
  | Finsync fd => handle_finsync fd
  end.

Fixpoint run_events (evs : list event) : L unit :=
  match evs with
  | [] => mret tt
  | ev :: evs' => s ← gets (λ s, s); (if occurs s ev then handle_event ev else mret tt);; run_events evs'
  end.

(** ** The listening identifier *)

(** rdma_listen_thread_func up to its loop: the channel and the identifier, bound
    and listening, or neither *)
Definition listen_open : C bool :=
  ok ← acquire EventChannel; if negb ok then mret false else
  ok ← acquire CmId; if negb ok then record (Del EventChannel);; mret false else
  set_alive true;;
  ok ← ask_sys; if negb ok then rdma_destroy_id;; record (Del EventChannel);; mret false else
  ok ← ask_sys; if negb ok then rdma_destroy_id;; record (Del EventChannel);; mret false else
  mret true.

(** ... and after it *)
Definition listen_close : C unit := rdma_destroy_id;; record (Del EventChannel).

(** ** The start and the end *)

(** The replicas and their connections, the listening identifier with the event
    channel (by the record of its calls), rdma_running and rdma_listen_thread_started. *)
Record master := Master {
  ms_listener : listener;
  ms_listen   : cm_id;
  ms_running  : bool;
  ms_started  : bool
}.

Definition on_listener {A} (m : L A) : M master A :=
  zoom ms_listener (λ l s, Master l (ms_listen s) (ms_running s) (ms_started s)) m.
Definition on_listen {A} (m : C A) : M master A :=
  zoom ms_listen (λ i s, Master (ms_listener s) i (ms_running s) (ms_started s)) m.
Definition set_running (b : bool) : M master unit :=
  modify (λ s, Master (ms_listener s) (ms_listen s) b (ms_started s)).
Definition set_started (b : bool) : M master unit :=
  modify (λ s, Master (ms_listener s) (ms_listen s) (ms_running s) b).

Definition kvs_replication_master_init : M master Z :=
  on_listener (put_replicas []);;
  set_running true;;
  ok ← ask_sys;
  if negb ok then set_running false;; mret (-1) else
  set_started true;; mret 0.

(** pthread_join: the thread sees that rdma_running is 0, leaves its loops and
    destroys what it listens with, unless it has returned before. *)
Definition join_listener : M master unit :=
  i ← gets ms_listen;
  if id_alive i then on_listen listen_close else mret tt.

Definition kvs_replication_master_cleanup : M master unit :=
  set_running false;;
  started ← gets ms_started;
  (if started : bool then join_listener;; set_started false else mret tt);;
  n ← gets (λ s, length (ls_replicas (ms_listener s)));
  on_listener (cleanup_loop n).

(** Events that need no listening identifier. *)
Definition is_command (ev : event) : bool :=
  match ev with Sync _ _ _ | Finsync _ => true | _ => false end.

(** The master from its start on: when the thread cannot listen, no connection
    is ever reported. *)
Definition master_run (evs : list event) : M master Z :=
  r ← kvs_replication_master_init;
  if negb (r =? 0) then mret r else
  ok ← on_listen listen_open;
  on_listener (run_events (if ok : bool then evs else filter is_command evs));;
  mret 0.

(** ** The invariant *)

Definition is_up (c : cm_id) (m : manger) : Prop :=
  id_alive c = true ∧ id_context c = Some m ∧ id_qp c = true ∧ mg_destroying m = false ∧ mg_ptrs m = up_ptrs.

Definition user_live (m : manger) : list resource := if mg_user m then [SyncState] else [].

(** An identifier is destroyed with everything given back, or is a request without
    a connection, or has a connection that is up. *)
Definition id_ok (c : cm_id) : Prop :=
  (id_alive c = false ∧ replay library_uses [CmId] (id_calls c) = Some []) ∨
  (id_alive c = true ∧ id_context c = None ∧ id_qp c = false ∧ (id_phase c = Requested ∨ id_phase c = Rejected) ∧
   replay library_uses [CmId] (id_calls c) = Some [CmId]) ∨
  (∃ m, is_up c m ∧ replay library_uses [CmId] (id_calls c) = Some (user_live m ++ up_live ++ [CmId]) ∧
   (id_phase c = Accepted → mg_user m = false)).

(** [strict] until replicas are removed: no state names a removed one. *)
Record listener_inv (strict : bool) (s : listener) : Prop := {
  lo_ids i c : ls_ids s !! i = Some c → id_ok c;
  lo_cm r i : r ∈ ls_replicas s → mr_cm r = Some i → ∃ c m, ls_ids s !! i = Some c ∧ is_up c m;
  lo_one r r' i : r ∈ ls_replicas s → r' ∈ ls_replicas s → mr_cm r = Some i → mr_cm r' = Some i → mr_key r = mr_key r';
  lo_keys : NoDup (mr_key <$> ls_replicas s);
  lo_syncs i k : strict = true → ls_syncs s !! i = Some k → k ∈ mr_key <$> ls_replicas s
}.

Section proofs.
Context (E : env) (strict : bool).
Local Abbreviation listener_ok := (listener_inv strict).
Implicit Types (s : listener) (i k : Z) (c : cm_id) (m : manger) (r : mreplica) (t : nat).

Lemma find_replica_Some P l r : find_replica P l = Some r → r ∈ l ∧ P r = true.
Proof.
  induction l as [|x l IH]; simpl; [done|]. destruct (P x) eqn:HP; [intros [= ->]; split; [left|done]|].
  intros Hr. destruct (IH Hr). split; [by right|done].
Qed.

Lemma find_replica_None P l : find_replica P l = None → ∀ r, r ∈ l → P r = false.
Proof.
  induction l as [|x l IH]; simpl; [by intros _ r ?%not_elem_of_nil|]. destruct (P x) eqn:HP; [done|].
  intros Hr r [->|Hx]%elem_of_cons; [done|by apply IH].
Qed.

Lemma wp_at_id {A} i (x : C A) s c t (Q : A → listener → nat → Prop) :
  ls_ids s !! i = Some c →
  wp x (λ a c' t', Q a (Listener (ls_replicas s) (<[i := c']> (ls_ids s)) (ls_syncs s) (ls_done s) (ls_closed s)) t') E c t →
  wp (at_id i x) Q E s t.
Proof. intros Hi Hx. unfold at_id. wp_steps. rewrite Hi. apply wp_zoom. exact Hx. Qed.

(** Changing an identifier. *)
Lemma ok_put s i c :
  listener_ok s → id_ok c → (∀ r, r ∈ ls_replicas s → mr_cm r = Some i → ∃ m, is_up c m) →
  listener_ok (Listener (ls_replicas s) (<[i := c]> (ls_ids s)) (ls_syncs s) (ls_done s) (ls_closed s)).
Proof.
  intros [H1 H2 H3 H4 H5] Hc Hr. split; cbn [ls_replicas ls_ids ls_syncs]; try done.
  - intros j c'. rewrite lookup_insert_Some. intros [[<- <-]|[_ Hj]]; [done|by eapply H1].
  - intros r j Hin Hj. destruct (decide (i = j)) as [<-|Hne].
    + destruct (Hr r Hin Hj) as [m Hm]. exists c, m. by rewrite lookup_insert_eq.
    + rewrite lookup_insert_ne by done. by eapply H2.
Qed.

Definition updated k (f : mreplica → mreplica) (l : list mreplica) := (λ r, if mr_key r =? k then f r else r) <$> l.

Lemma updated_keys k f l : (∀ r, mr_key (f r) = mr_key r) → mr_key <$> updated k f l = mr_key <$> l.
Proof. intros Hk. unfold updated. rewrite <-list_fmap_compose. apply list_fmap_ext. intros _ r _. simpl. destruct (_ =? _); [apply Hk|done]. Qed.

Lemma elem_of_updated k f l r : r ∈ updated k f l → ∃ r0, r0 ∈ l ∧ (r = r0 ∧ mr_key r0 ≠ k ∨ r = f r0 ∧ mr_key r0 = k).
Proof.
  unfold updated. rewrite list_elem_of_fmap. intros (r0 & -> & Hin). exists r0. split; [done|].
  destruct (_ =? _) eqn:Hk; to_prop; auto.
Qed.

Definition with_replicas (l : list mreplica) s : listener := Listener l (ls_ids s) (ls_syncs s) (ls_done s) (ls_closed s).

Lemma ok_update s k f :
  (∀ r, mr_key (f r) = mr_key r) → (∀ r, mr_cm (f r) = mr_cm r ∨ mr_cm (f r) = None) →
  listener_ok s → listener_ok (with_replicas (updated k f (ls_replicas s)) s).
Proof.
  intros Hk Hcm [H1 H2 H3 H4 H5]. 
  assert (∀ r i, r ∈ updated k f (ls_replicas s) → mr_cm r = Some i →
    ∃ r0, r0 ∈ ls_replicas s ∧ mr_key r0 = mr_key r ∧ mr_cm r0 = Some i) as Hback.
  { intros r i (r0 & Hin & [[-> _]|[-> _]])%elem_of_updated Hi; [by eauto|]. exists r0. split_and!; [done|by rewrite Hk|].
    destruct (Hcm r0) as [Hx|Hx]; rewrite Hx in Hi; [by rewrite <-Hi|done]. }
  split; cbn [with_replicas ls_replicas ls_ids ls_syncs]; try done.
  - intros r i Hin Hi. destruct (Hback r i Hin Hi) as (r0 & ? & _ & ?). by eapply H2.
  - intros r r' i Hin Hin' Hi Hi'. destruct (Hback r i Hin Hi) as (r0 & ? & <- & ?), (Hback r' i Hin' Hi') as (r1 & ? & <- & ?). by eapply H3.
  - by rewrite updated_keys.
  - intros i k' Hst. rewrite updated_keys by done. by apply H5.
Qed.

Lemma wp_update k f s t (Q : unit → listener → nat → Prop) :
  Q tt (with_replicas (updated k f (ls_replicas s)) s) t → wp (update_replica k f) Q E s t.
Proof. intros HQ. exact HQ. Qed.

Lemma ok_buf s k b : listener_ok s → listener_ok (with_replicas (updated k (set_buf b) (ls_replicas s)) s).
Proof. apply ok_update; [done|by left]. Qed.

Lemma ok_state s k x : listener_ok s → listener_ok (with_replicas (updated k (set_state x) (ls_replicas s)) s).
Proof. apply ok_update; [done|by left]. Qed.

(** A replica is given an identifier that no other has. *)
Lemma ok_set_cm s k i c m :
  listener_ok s → ls_ids s !! i = Some c → is_up c m → (∀ r, r ∈ ls_replicas s → mr_cm r ≠ Some i) →
  listener_ok (with_replicas (updated k (set_cm (Some i)) (ls_replicas s)) s).
Proof.
  intros [H1 H2 H3 H4 H5] Hi Hu Hno. split; cbn [with_replicas ls_replicas ls_ids ls_syncs]; try done.
  - intros r j (r0 & Hin & [[-> _]|[-> _]])%elem_of_updated Hj; [by eapply H2|]. simpl in Hj. injection Hj as <-. by eauto.
  - intros r r' j (r0 & Hin & Hr)%elem_of_updated (r1 & Hin1 & Hr1)%elem_of_updated Hj Hj'.
    destruct Hr as [[-> _]|[-> <-]], Hr1 as [[-> _]|[-> Hk1]]; simpl in *; [by eapply H3| | |done].
    + injection Hj' as <-. by destruct (Hno r0).
    + injection Hj as <-. by destruct (Hno r1).
  - by rewrite updated_keys.
  - intros j k' Hst. rewrite updated_keys by done. by apply H5.
Qed.

(** ** Operations on an identifier *)

Lemma up_replay c m : id_ok c → is_up c m →
  replay library_uses [CmId] (id_calls c) = Some (user_live m ++ up_live ++ [CmId]) ∧ (id_phase c = Accepted → mg_user m = false).
Proof.
  intros [(Ha & _)|[(_ & Hc & _)|(m' & (_ & Hc & _) & Hr)]] (Ha' & Hc' & _); [congruence|congruence|].
  rewrite Hc' in Hc. by injection Hc as ->.
Qed.

(** The same identifier as far as its record goes. *)
Definition alike c m c' m' : Prop :=
  is_up c' m' ∧ id_calls c' = id_calls c ∧ id_phase c' = id_phase c ∧ mg_user m' = mg_user m.

Lemma alike_ok c m c' m' : id_ok c → is_up c m → alike c m c' m' → id_ok c'.
Proof.
  intros Hok Hu (Hu' & Hc & Hp & Hm). destruct (up_replay _ _ Hok Hu) as [Hr Hacc]. right. right. exists m'.
  unfold user_live. rewrite Hc, Hp, Hm. by split_and!.
Qed.

Lemma wp_on_io_up {A} (x : M conn A) c m t (Q : A → cm_id → nat → Prop) :
  is_up c m → (∀ io t', wp x (λ _ _ _, True) E io t') →
  (∀ a c' m' t', alike c m c' m' → Q a c' t') → wp (on_io x) Q E c t.
Proof.
  destruct c as [al ctx qp ph tr]. intros (Ha & Hc & Hq & Hd & Hp) Hx HQ. simpl in *. subst.
  unfold on_io, deref_context, deref_id. wp_steps. cbn [id_alive]. wp_steps. cbn [id_context]. wp_steps.
  eapply wp_mono; [apply Hx|]. intros a io t' _. eapply HQ. by split.
Qed.

Definition put i c s : listener := Listener (ls_replicas s) (<[i := c]> (ls_ids s)) (ls_syncs s) (ls_done s) (ls_closed s).

Lemma ok_alike s i c m c' m' :
  listener_ok s → ls_ids s !! i = Some c → is_up c m → alike c m c' m' → listener_ok (put i c' s).
Proof.
  intros Hs Hi Hu Hal. apply ok_put; [done| |].
  - eapply alike_ok; [by eapply lo_ids|exact Hu|exact Hal].
  - intros r _ _. exists m'. by destruct Hal.
Qed.

Lemma disconnect_ok s i c m t (Q : unit → listener → nat → Prop) :
  listener_ok s → ls_ids s !! i = Some c → is_up c m →
  (∀ c' m' t', alike c m c' m' → listener_ok (put i c' s) → Q tt (put i c' s) t') → wp (disconnect i) Q E s t.
Proof.
  intros Hs Hi Hu HQ. unfold disconnect. eapply wp_at_id; [exact Hi|].
  eapply wp_on_io_up; [exact Hu|intros; unfold rdma_disconnect; by wp_steps|]. intros [] c' m' t' Hal.
  eapply HQ; [exact Hal|]. by eapply ok_alike.
Qed.

Lemma ids_put i c s j : ls_ids (put i c s) !! j = if decide (i = j) then Some c else ls_ids s !! j.
Proof. unfold put. cbn [ls_ids]. case_decide; subst; [apply lookup_insert_eq|by apply lookup_insert_ne]. Qed.

Lemma put_put i c c' s : put i c (put i c' s) = put i c s.
Proof. unfold put. cbn [ls_replicas ls_ids ls_syncs ls_done ls_closed]. by rewrite insert_insert_eq. Qed.

(** What is taken down: the state of the connection, then the connection. *)
Definition down c c' : Prop := id_alive c' = false ∧ id_ok c' ∧ id_phase c' = id_phase c.

Lemma destroy_up c m t (Q : unit → cm_id → nat → Prop) :
  id_ok c → is_up c m → mg_user m = false → (∀ c', down c c' → Q tt c' t) → wp destroy_connection Q E c t.
Proof.
  destruct c as [al ctx qp ph tr]. intros Hok Hu Hm HQ. destruct (up_replay _ _ Hok Hu) as [Hr _].
  destruct Hu as (Ha & Hc & Hq & Hd & Hp). simpl in *. subst. apply wp_destroy_up; [done|done|]. apply HQ. split_and!; [done| |done].
  left. split; [done|]. cbn [id_calls]. rewrite replay_app, Hr. unfold user_live. rewrite Hm. vm_compute. reflexivity.
Qed.

Definition drop_sync i s : listener :=
  Listener (ls_replicas s) (ls_ids s) (delete i (ls_syncs s)) (ls_done s) (ls_closed s).

Lemma ok_drop_sync i s : listener_ok s → listener_ok (drop_sync i s).
Proof.
  intros [H1 H2 H3 H4 H5]. split; try done. cbn. intros j k Hst. rewrite lookup_delete_Some. intros [_ Hj]. by eapply H5.
Qed.

Lemma cleanup_conn_ok s i c m t (Q : unit → listener → nat → Prop) :
  listener_ok s → ls_ids s !! i = Some c → is_up c m →
  (∀ c' m', is_up c' m' → id_ok c' → mg_user m' = false → Q tt (drop_sync i (put i c' s)) t) →
  wp (master_cleanup_conn_state i) Q E s t.
Proof.
  intros Hs Hi Hu HQ. pose proof (lo_ids _ _ Hs _ _ Hi) as Hok. destruct (up_replay _ _ Hok Hu) as [Hr Hacc].
  unfold master_cleanup_conn_state, put_sync. wp_step. eapply wp_at_id; [exact Hi|].
  destruct c as [al ctx qp ph tr]. pose proof Hu as (Ha & Hc & Hq & Hd & Hp). simpl in *. subst.
  unfold deref_id. wp_steps. cbn [id_alive]. wp_steps. cbn [id_context]. destruct (mg_user m) eqn:Hm.
  - wp_step. apply wp_on_context. unfold record. wp_steps. cbn [id_alive id_context id_qp id_phase id_calls].
    apply (HQ (CmIdent true (Some (set_user false m)) true ph (tr ++ [Del SyncState])) (set_user false m)); [done| |done].
    right. right. exists (set_user false m). split_and!; [done| |done]. cbn [id_calls user_live mg_user set_user].
    rewrite replay_app, Hr. unfold user_live. rewrite Hm. vm_compute. reflexivity.
  - wp_steps. by eapply (HQ _ m).
Qed.

(** ** Handlers *)

(** The identifier is up; [u] says whether its connection has a state. *)
Definition at_up i (u : bool) s : Prop :=
  ∃ c m, ls_ids s !! i = Some c ∧ is_up c m ∧ mg_user m = u ∧ id_phase c ≠ Accepted.

Lemma at_up_put i c m s (u : bool) : is_up c m → mg_user m = u → id_phase c ≠ Accepted → at_up i u (put i c s).
Proof. intros. exists c, m. rewrite ids_put, decide_True by done. done. Qed.

Lemma disconnect_up s i u t (Q : unit → listener → nat → Prop) :
  listener_ok s → at_up i u s →
  (∀ s' t', listener_ok s' → at_up i u s' → ls_replicas s' = ls_replicas s → Q tt s' t') → wp (disconnect i) Q E s t.
Proof.
  intros Hs (c & m & Hi & Hu & Hm & Hp) HQ. eapply disconnect_ok; [exact Hs|exact Hi|exact Hu|].
  intros c' m' t' (Hu' & Hc & Hph & Hm') Hs'. apply HQ; [done| |done]. eapply at_up_put; [exact Hu'|congruence|congruence].
Qed.

Lemma take_down_ok s i u t (Q : unit → listener → nat → Prop) :
  listener_ok s → at_up i u s → (∀ r, r ∈ ls_replicas s → mr_cm r ≠ Some i) →
  (∀ s' t', listener_ok s' → ls_replicas s' = ls_replicas s → Q tt s' t') →
  wp (master_cleanup_conn_state i;; at_id i destroy_connection) Q E s t.
Proof.
  intros Hs (c & m & Hi & Hu & Hm & Hp) Hno HQ. wp_step. eapply cleanup_conn_ok; [exact Hs|exact Hi|exact Hu|].
  intros c' m' Hu' Hok' Hm'. assert (listener_ok (drop_sync i (put i c' s))) as Hs'.
  { apply ok_drop_sync, ok_put; [done|done|]. intros r Hr Hx. by destruct (Hno r). }
  eapply wp_at_id; [cbn; apply lookup_insert_eq|]. eapply destroy_up; [exact Hok'|exact Hu'|exact Hm'|].
  intros c2 (_ & Hok2 & _). apply HQ; [|done]. apply (ok_put (drop_sync i (put i c' s))); [done|done|].
  intros r Hr Hx. by destruct (Hno r).
Qed.

Lemma at_up_replicas i u l s : at_up i u s → at_up i u (with_replicas l s).
Proof. intros (c & m & H). by exists c, m. Qed.

Lemma disconnected_ok s i u t :
  listener_ok s → at_up i u s → wp (on_rdma_disconnected i) (λ _ s' _, listener_ok s') E s t.
Proof.
  intros Hs Hup. unfold on_rdma_disconnected. wp_step. wp_step.
  destruct (find_replica_by_rdma_cm_id i (ls_replicas s)) as [r|] eqn:Hf.
  - apply find_replica_Some in Hf as [Hin Hcm]. apply bool_decide_eq_true in Hcm. wp_step. wp_step. apply wp_update.
    set (s1 := with_replicas _ s). assert (listener_ok s1) as Hs1 by (apply ok_update; [done|by right|done]).
    apply wp_update. pose proof (ok_buf s1 (mr_key r) false Hs1) as Hs2. set (s2 := with_replicas _ s1) in *.
    eapply take_down_ok; [exact Hs2|by apply at_up_replicas, at_up_replicas; exact Hup| |by intros].
    intros r2 (r1 & (r0 & Hr0 & Hr1)%elem_of_updated & Hr2)%elem_of_updated Hx.
    assert (mr_cm r1 = Some i) as Hx1 by (destruct Hr2 as [[-> _]|[-> _]]; done).
    destruct Hr1 as [[-> Hne]|[-> _]]; [|done]. apply Hne. by eapply (lo_one _ _ Hs).
  - wp_step. wp_step. eapply take_down_ok; [exact Hs|exact Hup| |by intros]. intros r Hr Hx.
    pose proof (find_replica_None _ _ Hf r Hr) as Hn. cbv beta in Hn. by rewrite bool_decide_true in Hn.
Qed.

Lemma set_phase_ok s i c m ph t (Q : unit → listener → nat → Prop) :
  listener_ok s → ls_ids s !! i = Some c → is_up c m → (ph = Accepted → mg_user m = false) →
  (∀ c', is_up c' m → id_phase c' = ph → listener_ok (put i c' s) → Q tt (put i c' s) t) →
  wp (at_id i (set_phase ph)) Q E s t.
Proof.
  intros Hs Hi Hu Hp HQ. eapply wp_at_id; [exact Hi|]. unfold set_phase. wp_steps. pose proof (lo_ids _ _ Hs _ _ Hi) as Hok.
  destruct (up_replay _ _ Hok Hu) as [Hr _]. apply HQ; [done|done|]. apply ok_put; [done| |by intros; eexists].
  right. right. by exists m.
Qed.

Lemma start_fullsync_ok s k i t :
  listener_ok s → at_up i false s → k ∈ mr_key <$> ls_replicas s →
  wp (master_start_fullsync k i) (λ _ s' _, listener_ok s') E s t.
Proof.
  intros Hs Hup Hk. unfold master_start_fullsync. pose proof Hup as (c & m & Hi & Hu & Hm & Hp). wp_step.
  eapply wp_at_id; [exact Hi|]. unfold deref_id. pose proof Hu as (Ha & Hc & _). wp_steps. rewrite Ha. wp_steps. rewrite Hc.
  assert (∀ x, Listener (ls_replicas x) (<[i := c]> (ls_ids x)) (ls_syncs x) (ls_done x) (ls_closed x) = put i c x) as Hput by done.
  rewrite Hput. assert (put i c s = s) as -> by (unfold put; rewrite insert_id by done; by destruct s). clear Hput.
  wp_step. apply wp_update. pose proof (ok_buf s k false Hs) as Hs1. apply (at_up_replicas i false (updated k (set_buf false) (ls_replicas s))) in Hup.
  set (s1 := with_replicas _ s) in *. assert (k ∈ mr_key <$> ls_replicas s1) as Hk1 by (unfold s1; cbn [with_replicas ls_replicas]; by rewrite updated_keys).
  wp_step. wp_step. destruct (sys_ok E t); cbn [negb].
  2: { wp_step. eapply disconnect_up; [done|done|]. intros. by wp_steps. }
  wp_step. apply wp_update. pose proof (ok_buf s1 k true Hs1) as Hs2. apply (at_up_replicas i false (updated k (set_buf true) (ls_replicas s1))) in Hup.
  set (s2 := with_replicas _ s1) in *. assert (k ∈ mr_key <$> ls_replicas s2) as Hk2 by (unfold s2; cbn [with_replicas ls_replicas]; by rewrite updated_keys).
  wp_step. wp_step. destruct (malloc_ok E (S t)); cbn [negb].
  2: { wp_step. apply wp_update. wp_step. eapply disconnect_up; [by apply ok_buf|by apply at_up_replicas; exact Hup|]. intros. by wp_steps. }
  clear c m Hi Hu Hm Hp Ha Hc. destruct Hup as (c & m & Hi & Hu & Hm & Hp). pose proof (lo_ids _ _ Hs2 _ _ Hi) as Hok.
  destruct (up_replay _ _ Hok Hu) as [Hr _].
  wp_step. eapply wp_at_id; [exact Hi|]. destruct c as [al ctx qp ph tr]. pose proof Hu as (Ha & Hc & Hq & Hd & Hpt). simpl in *. subst.
  unfold record. wp_steps. cbn [id_alive id_context id_qp id_phase id_calls]. apply wp_on_context. unfold put_sync. wp_steps.
  match goal with |- wp _ _ _ ?x _ => set (s3 := x) end.
  assert (listener_ok s3 ∧ at_up i true s3) as [Hs3 Hup3].
  { split.
    - pose proof (ok_put s2 i (CmIdent true (Some (set_user true m)) true ph (tr ++ [New SyncState])) Hs2) as [P1 P2 P3 P4 P5].
      + right. right. exists (set_user true m). split_and!; [done| |done]. cbn [id_calls]. rewrite replay_app, Hr.
        unfold user_live. rewrite Hm. vm_compute. reflexivity.
      + intros; by eexists.
      + split; try done. cbn. intros j k' Hst. rewrite lookup_insert_Some. intros [[<- <-]|[_ Hj]]; [done|by eapply P5].
    - exists (CmIdent true (Some (set_user true m)) true ph (tr ++ [New SyncState])), (set_user true m).
      split_and!; [apply lookup_insert_eq|done|done|done]. }
  clearbody s3. destruct Hup3 as (c3 & m3 & Hi3 & Hu3 & Hm3 & Hp3). eapply wp_at_id; [exact Hi3|].
  eapply wp_on_io_up; [exact Hu3|intros; apply post_recvs_total|]. intros r c4 m4 t4 Hal.
  pose proof (ok_alike _ _ _ _ _ _ Hs3 Hi3 Hu3 Hal) as Hs4. destruct Hal as (Hu4 & _ & Hp4 & Hm4).
  assert (at_up i true (put i c4 s3)) as Hup4 by (eapply at_up_put; [exact Hu4|congruence|congruence]).
  destruct (r =? 0); cbn [negb]; [wp_step; wp_step; destruct (sys_ok E t4); cbn [negb]; [by wp_steps|]|];
    (wp_step; eapply disconnect_up; [exact Hs4|exact Hup4|]; intros; by wp_steps).
Qed.

Lemma established_ok s i t :
  listener_ok s → at_up i false s → wp (on_rdma_connect_established i) (λ _ s' _, listener_ok s') E s t.
Proof.
  intros Hs Hup. unfold on_rdma_connect_established. wp_step. wp_step.
  destruct (find_replica_by_rdma_cm_id i (ls_replicas s)) as [r|] eqn:Hf.
  - destruct (negb _); [by wp_steps|]. wp_step. apply find_replica_Some in Hf as [Hin _].
    eapply wp_mono; [apply start_fullsync_ok; [done|done|by apply list_elem_of_fmap_2]|]. intros x s' t' Hs'. by wp_steps.
  - eapply disconnect_up; [done|done|]. by intros.
Qed.

(** A request that has not been answered yet, without or with a connection. *)
Definition asked i (up : bool) s : Prop :=
  (∀ r, r ∈ ls_replicas s → mr_cm r ≠ Some i) ∧
  ∃ c, ls_ids s !! i = Some c ∧ id_phase c = Requested ∧ id_alive c = true ∧
    if up then ∃ m, is_up c m ∧ mg_user m = false else id_context c = None ∧ id_qp c = false.

(** What the peer offered is memory for at least one chunk. *)
Definition valid_region (g : rdma_peer_region) : Prop :=
  pr_version g = RDMA_REPL_VERSION ∧ pr_slot_count g ≠ 0 ∧ HEADER_SIZE < pr_slot_size g ∧
  u32 (pr_slot_count g * pr_slot_size g) ≤ pr_length g.

(** A connection request is accepted and the waiting replica at the peer's address
    names the connection, or it is rejected and no replica names it, for a reason. *)
Definition answered i (region : option rdma_peer_region) (peer : Z) s s' : Prop :=
  ∃ c, ls_ids s' !! i = Some c ∧
    ((∃ r m, find_waiting_replica_by_peer peer (ls_replicas s) = Some r ∧ id_phase c = Accepted ∧ is_up c m ∧
        ls_replicas s' = updated (mr_key r) (set_cm (Some i)) (ls_replicas s)) ∨
     (id_phase c = Rejected ∧ ls_replicas s' = ls_replicas s ∧
      (calls_succeed E → ∀ g r, region = Some g → find_waiting_replica_by_peer peer (ls_replicas s) = Some r → ¬ valid_region g))).

Lemma reject_ok s i up t (Q : unit → listener → nat → Prop) :
  listener_ok s → asked i up s →
  (∀ s', listener_ok s' → (up = true → at_up i false s') → (∃ c, ls_ids s' !! i = Some c ∧ id_phase c = Rejected) →
     ls_replicas s' = ls_replicas s → Q tt s' t) →
  wp (rdma_reject i) Q E s t.
Proof.
  intros Hs (Hno & c & Hi & Hp & Ha & Hu) HQ. pose proof (lo_ids _ _ Hs _ _ Hi) as Hok. unfold rdma_reject.
  eapply wp_at_id; [exact Hi|]. unfold deref_id, set_phase. wp_steps. rewrite Ha. wp_steps. rewrite Ha.
  set (c' := CmIdent true _ _ Rejected _). apply (HQ (put i c' s)).
  - apply ok_put; [done| |by intros r Hr Hx; destruct (Hno r)]. destruct up.
    + destruct Hu as (m & Hu & Hm). destruct (up_replay _ _ Hok Hu) as [Hr _]. right. right. exists m.
      destruct Hu as (_ & Hu). by split_and!.
    + destruct Hu as [Hc Hq]. right. left. split_and!; [done|done|done|by right|].
      destruct Hok as [(Hx & _)|[(_ & _ & _ & _ & Hr)|(m & (_ & Hx & _) & _)]]; [congruence|exact Hr|congruence].
  - intros ->. destruct Hu as (m & Hu & Hm). apply (at_up_put i c' m); [|done|done]. destruct Hu as (_ & Hu). by split.
  - exists c'. by rewrite ids_put, decide_True.
  - done.
Qed.

(** A result that a condition gives. *)
Lemma wp_given {S A} (G : Prop) (x : M S A) (P Q : A → S → nat → Prop) (σ : S) t :
  wp x P E σ t → (G → wp x Q E σ t) → wp x (λ a σ' t', P a σ' t' ∧ (G → Q a σ' t')) E σ t.
Proof. unfold wp. destruct (x E σ t) as [[[a σ'] t']|]; [by auto|done]. Qed.

Lemma init_ok s i t (Q : Z → listener → nat → Prop) :
  listener_ok s → asked i false s →
  (∀ s' t', listener_ok s' → asked i true s' → ls_replicas s' = ls_replicas s → Q 0 s' t') →
  (∀ s' t', listener_ok s' → asked i false s' → ls_replicas s' = ls_replicas s → ¬ calls_succeed E → Q (-1) s' t') → wp (at_id i initialize_connection) Q E s t.
Proof.
  intros Hs (Hno & c & Hi & Hp & Ha & Hc & Hq) HT HF. pose proof (lo_ids _ _ Hs _ _ Hi) as Hok.
  assert (replay library_uses [CmId] (id_calls c) = Some [CmId]) as Hr.
  { destruct Hok as [(Hx & _)|[(_ & _ & _ & _ & Hr)|(m & (_ & Hx & _) & _)]]; [congruence|exact Hr|congruence]. }
  eapply wp_at_id; [exact Hi|]. destruct c as [al ctx qp ph tr]. simpl in *. subst.
  eapply wp_mono; [apply (wp_given (calls_succeed E)); [apply initialize_connection_ok|apply initialize_connection_succeeds]|].
  intros r c' t' [(K & Hw & HK) Hgood].
  assert (∀ live, replay thread_uses [] K = Some live → replay library_uses [CmId] (tr ++ K) = Some (live ++ [CmId])) as Hfr.
  { intros live Hl. rewrite replay_app, Hr. apply (replay_weaken thread_uses); [intros x; destruct x; simpl; set_solver|].
    apply (replay_frame _ _ [CmId] _ [] _ Hw); [|done]. intros x Hx ->%list_elem_of_singleton. revert Hx. by apply (bool_decide_eq_false _). }
  assert (∀ c'', id_ok c'' → listener_ok (put i c'' s)) as Hput.
  { intros c'' Hc''. apply ok_put; [done|done|]. intros r' Hr' Hx. by destruct (Hno r'). }
  destruct HK as [(-> & -> & HK)|(-> & -> & HK)]; apply Hfr in HK; [apply HT|apply HF]; try apply Hput; try done.
  - right. right. by exists manger_up.
  - split; [done|]. eexists. split; [apply lookup_insert_eq|]. split_and!; [done|done|]. by exists manger_up.
  - right. left. split_and!; [done|done|done|by left|exact HK].
  - split; [done|]. eexists. split; [apply lookup_insert_eq|]. by split_and!.
  - intros Hall. by specialize (Hgood Hall).
Qed.

(** A step on a connection that leaves its record as it is. *)
Lemma asked_alike s i c m c' m' :
  listener_ok s → asked i true s → ls_ids s !! i = Some c → is_up c m → mg_user m = false → alike c m c' m' →
  listener_ok (put i c' s) ∧ asked i true (put i c' s).
Proof.
  intros Hs (Hno & c0 & Hi0 & Hp & Ha & _) Hi Hu Hm Hal. split; [by eapply ok_alike|]. rewrite Hi in Hi0. injection Hi0 as <-.
  destruct Hal as (Hu' & Hc & Hph & Hm'). split; [exact Hno|]. exists c'. rewrite ids_put, decide_True by done.
  pose proof Hu' as (Ha' & _). split_and!; [done|congruence|done|]. exists m'. split; [done|congruence].
Qed.

Lemma asked_up s i : asked i true s → ∃ c m, ls_ids s !! i = Some c ∧ is_up c m ∧ mg_user m = false.
Proof. intros (_ & c & Hi & _ & _ & m & Hu & Hm). by exists c, m. Qed.

Lemma on_context_alike f c m t (Q : unit → cm_id → nat → Prop) :
  is_up c m → (mg_ptrs (f m) = mg_ptrs m ∧ mg_destroying (f m) = mg_destroying m ∧ mg_user (f m) = mg_user m) →
  (∀ c' m', alike c m c' m' → Q tt c' t) → wp (on_context f) Q E c t.
Proof.
  destruct c as [al ctx qp ph tr]. intros (Ha & Hc & Hq & Hd & Hp) (F1 & F2 & F3) HQ. simpl in *. subst. apply wp_on_context.
  apply (HQ _ (f m)). split_and!; try done. split_and!; [done|done|done|congruence|congruence].
Qed.

Lemma connect_request_ok s i region peer t :
  listener_ok s → asked i false s →
  wp (on_rdma_connect_request i region peer true) (λ _ s' _, listener_ok s' ∧ answered i region peer s s') E s t.
Proof.
  intros Hs Has. unfold on_rdma_connect_request.
  assert (∀ (up : bool) s1 t1, listener_ok s1 → asked i up s1 → ls_replicas s1 = ls_replicas s →
    (calls_succeed E → ∀ g r, region = Some g → find_waiting_replica_by_peer peer (ls_replicas s) = Some r → ¬ valid_region g) →
    wp (rdma_reject i) (λ _ s' _, listener_ok s' ∧ answered i region peer s s') E s1 t1) as Hrej.
  { intros up s1 t1 Hs1 Has1 Hl Hwhy. eapply reject_ok; [exact Hs1|exact Has1|]. intros s' Hs' _ (c & Hi & Hp) Hl'.
    split; [done|]. exists c. split; [done|]. right. by rewrite Hl'. }
  destruct region as [g|]; [|by apply (Hrej false)]. wp_step. wp_step.
  destruct (find_waiting_replica_by_peer peer (ls_replicas s)) as [r|] eqn:Hfind; [|by apply (Hrej false)].
  wp_step. apply init_ok; [done|done| |].
  2: { intros s1 t1 Hs1 Has1 Hl1 Hbad. cbn [Z.eqb negb]. by apply (Hrej false). }
  intros s1 t1 Hs1 Has1 Hsame. cbn [Z.eqb negb]. destruct (asked_up _ _ Has1) as (c & m & Hi & Hu & Hm).
  wp_step. eapply wp_at_id; [exact Hi|]. eapply on_context_alike; [exact Hu|by split_and!|].
  intros c2 m2 Hal. destruct (asked_alike _ _ _ _ _ _ Hs1 Has1 Hi Hu Hm Hal) as [Hs2 Has2].
  change (wp (ret ← at_id i (rdma_set_remote_region g); if negb (ret =? 0) then rdma_reject i;; at_id i destroy_connection
     else update_replica (mr_key r) (set_cm (Some i));; at_id i (set_phase Accepted)) (λ _ s' _, listener_ok s' ∧ answered i (Some g) peer s s') E (put i c2 s1) t1).
  assert (ls_replicas (put i c2 s1) = ls_replicas s) as Hsame2 by done.
  set (s2 := put i c2 s1) in *. clearbody s2. clear c m Hi Hu Hm c2 m2 Hal.
  destruct (asked_up _ _ Has2) as (c & m & Hi & Hu & Hm). wp_step. eapply wp_at_id; [exact Hi|].
  apply wp_mono with (Q := λ (ret : Z) c' _, (∃ m', alike c m c' m') ∧ (valid_region g → ret = 0)).
  { unfold rdma_set_remote_region, deref_context, deref_id. pose proof Hu as (Ha & Hc & _). wp_steps. rewrite Ha. wp_steps. rewrite Hc. wp_steps.
    assert (∃ m', alike c m c m') as Hself by (by exists m). unfold valid_region.
    destruct (negb _) eqn:?; [wp_steps; split; [done|to_prop; lia]|]. destruct (_ || _) eqn:?; [wp_steps; split; [done|to_prop; lia]|].
    destruct (_ <? _) eqn:?; [wp_steps; split; [done|to_prop; lia]|].
    wp_step. eapply on_context_alike; [exact Hu|by split_and!|]. intros c' m' Hal. wp_steps. split; [by exists m'|done]. }
  intros ret c3 t3 [[m3 Hal] Hvalid]. assert (ls_replicas (put i c3 s2) = ls_replicas s) as Hsame3 by done. destruct (asked_alike _ _ _ _ _ _ Hs2 Has2 Hi Hu Hm Hal) as [Hs3 Has3]. fold (put i c3 s2).
  set (s3 := put i c3 s2) in *. clearbody s3. clear c m Hi Hu Hm c3 m3 Hal.
  destruct (negb _) eqn:Hret.
  - wp_step. eapply reject_ok; [exact Hs3|exact Has3|]. intros s4 Hs4 Hup4 (c0 & Hi0 & Hrej0) Hl4.
    assert (∀ r', r' ∈ ls_replicas s4 → mr_cm r' ≠ Some i) as Hno by (rewrite Hl4; exact (proj1 Has3)). destruct (Hup4 eq_refl) as (c & m & Hi & Hu & Hm & Hp).
    eapply wp_at_id; [exact Hi|]. eapply destroy_up; [by eapply lo_ids|exact Hu|exact Hm|]. intros c' (_ & Hok' & Hp').
    split; [apply (ok_put s4); [done|done|]; intros r' Hr' Hx; by destruct (Hno r')|].
    exists c'. split; [apply lookup_insert_eq|]. right. rewrite Hi in Hi0. injection Hi0 as <-. split_and!; [congruence|cbn [ls_replicas]; congruence|].
    intros _ g' r' [= <-] _ Hg. apply Hvalid in Hg as ->. done.
  - wp_step. apply wp_update. destruct (asked_up _ _ Has3) as (c & m & Hi & Hu & Hm).
    pose proof (ok_set_cm s3 (mr_key r) i c m Hs3 Hi Hu (proj1 Has3)) as Hs4.
    eapply set_phase_ok; [exact Hs4|exact Hi|exact Hu|done|]. intros c' Hu' Hp' Hs5. split; [done|].
    exists c'. split; [apply lookup_insert_eq|]. left.
    exists r, m. split_and!; try done. cbn [put with_replicas ls_replicas]. by rewrite Hsame3.
Qed.

Lemma ok_done s d x : listener_ok s → listener_ok (Listener (ls_replicas s) (ls_ids s) (ls_syncs s) d x).
Proof. intros [H1 H2 H3 H4 H5]. by split. Qed.

Lemma key_found k l : k ∈ mr_key <$> l → ∃ r, find_replica (λ r, mr_key r =? k) l = Some r.
Proof.
  induction l as [|x l IH]; simpl; [by intros ?%not_elem_of_nil|]. destruct (mr_key x =? k) eqn:Hx; [by eexists|].
  to_prop. intros [->|Hin]%elem_of_cons; [done|by apply IH].
Qed.

Lemma finish_fullsync_ok s i t : strict = true → listener_ok s → wp (master_finish_fullsync i) (λ _ s' _, listener_ok s') E s t.
Proof.
  intros Hst Hs. unfold master_finish_fullsync. wp_step. wp_step. destruct (ls_syncs s !! i) as [k|] eqn:Hk; [|by wp_steps].
  wp_step. apply wp_update. pose proof (ok_buf s k false Hs) as Hs1. wp_step. apply wp_update.
  apply (ok_state _ k KVS_REPL_STATE_WAIT_FINSYNC) in Hs1. destruct (key_found k (ls_replicas s)) as [r ->]; [by eapply lo_syncs|].
  destruct (0 <=? mr_fd r); unfold say_done; wp_steps; [|done]. by apply (ok_done (with_replicas _ (with_replicas _ s))).
Qed.

Lemma finsync_ok s fd t : listener_ok s → wp (handle_finsync fd) (λ _ s' _, listener_ok s') E s t.
Proof.
  intros Hs. unfold handle_finsync. wp_step. wp_step. destruct (find_replica_by_tcp_fd _ _) as [r|] eqn:Hf; [|by wp_steps].
  destruct (negb _); [by wp_steps|]. wp_step. apply wp_update. apply find_replica_Some in Hf as [Hin _].
  pose proof (ok_state s (mr_key r) KVS_REPL_STATE_ONLINE Hs) as Hs1. destruct (mr_cm r) as [i|] eqn:Hcm; [|by wp_steps].
  destruct (lo_cm _ _ Hs r i Hin Hcm) as (c & m & Hi & Hu). eapply disconnect_ok; [exact Hs1|exact Hi|exact Hu|]. by intros.
Qed.

Lemma add_replica_ok s k fd addr t :
  listener_ok s → k ∉ mr_key <$> ls_replicas s → wp (add_replica k fd addr) (λ _ s' _, listener_ok s') E s t.
Proof.
  intros Hs Hk. unfold add_replica, close_fd, put_replicas. wp_step. wp_step. destruct (malloc_ok E t); cbn [negb]; wp_steps; [|by apply ok_done].
  destruct Hs as [H1 H2 H3 H4 H5]. split; cbn [ls_replicas ls_ids ls_syncs]; [done| | | |].
  - intros r i [->|Hin]%elem_of_cons Hcm; [done|by eapply H2].
  - intros r r' i [->|Hin]%elem_of_cons [->|Hin']%elem_of_cons Hcm Hcm'; [done..|by eapply H3].
  - rewrite fmap_cons. by constructor.
  - intros i k' Hst Hi. rewrite fmap_cons. right. by eapply H5.
Qed.

Definition accepting (ev : event) : Prop :=
  match ev with ConnectRequest _ _ _ ok => ok = true | _ => True end.

Lemma alive_up s i c ph :
  listener_ok s → ls_ids s !! i = Some c → id_alive c = true → id_phase c = ph → ph = Accepted ∨ ph = Up →
  ∃ m, is_up c m ∧ (ph = Accepted → mg_user m = false).
Proof.
  intros Hs Hi Ha Hp Hph. destruct (lo_ids _ _ Hs _ _ Hi) as [(Hx & _)|[(_ & _ & _ & Hx & _)|(m & Hu & _ & Hacc)]].
  - congruence.
  - destruct Hph, Hx; congruence.
  - exists m. split; [done|]. by rewrite <-Hp.
Qed.

Lemma request_ok s i g peer t :
  listener_ok s → ls_ids s !! i = None →
  wp (handle_event (ConnectRequest i g peer true)) (λ _ s' _, listener_ok s' ∧ answered i g peer s s') E s t.
Proof.
  intros Hs Hf. cbn [handle_event]. unfold put_id. wp_step. wp_step.
  assert (∀ r, r ∈ ls_replicas s → mr_cm r ≠ Some i) as Hno.
  { intros r Hr Hx. destruct (lo_cm _ _ Hs r i Hr Hx) as (c & m & Hi & _). congruence. }
  eapply wp_mono; [apply connect_request_ok|by intros].
  - apply (ok_put s); [done| |by intros r Hr Hx; destruct (Hno r)]. right. left. split_and!; [done|done|done|by left|done].
  - split; [exact Hno|]. eexists. split; [apply lookup_insert_eq|]. by split_and!.
Qed.

Lemma handle_event_ok s ev t :
  strict = true → listener_ok s → accepting ev → occurs s ev = true → wp (handle_event ev) (λ _ s' _, listener_ok s') E s t.
Proof.
  intros Hst Hs Hacc Hocc. destruct ev as [k fd addr|i g peer ok|i|i|i|i|fd]; cbn [handle_event occurs] in *.
  - apply bool_decide_eq_true in Hocc. by apply add_replica_ok.
  - apply bool_decide_eq_true in Hocc. simpl in Hacc. subst ok. eapply wp_mono; [by apply request_ok|by intros ??? []].
  - destruct (ls_ids s !! i) as [c|] eqn:Hi; [|done]. apply andb_prop in Hocc as [Ha Hp%bool_decide_eq_true].
    destruct (alive_up s i c Accepted Hs Hi Ha Hp) as (m & Hu & Hm); [by left|]. wp_step.
    eapply set_phase_ok; [exact Hs|exact Hi|exact Hu|done|]. intros c' Hu' Hp' Hs'. apply established_ok; [done|].
    eapply at_up_put; [exact Hu'|by apply Hm|by rewrite Hp'].
  - destruct (ls_ids s !! i) as [c|] eqn:Hi; [|done]. apply andb_prop in Hocc as [Ha Hp%bool_decide_eq_true].
    destruct (alive_up s i c Up Hs Hi Ha Hp) as (m & Hu & Hm); [by right|]. wp_step.
    eapply set_phase_ok; [exact Hs|exact Hi|exact Hu|done|]. intros c' Hu' Hp' Hs'. eapply disconnected_ok; [done|].
    eapply at_up_put; [exact Hu'|reflexivity|by rewrite Hp'].
  - by wp_steps.
  - by apply finish_fullsync_ok.
  - by apply finsync_ok.
Qed.

Lemma history_ok evs s t :
  strict = true → listener_ok s → Forall accepting evs → wp (run_events evs) (λ _ s' _, listener_ok s') E s t.
Proof.
  intros Hst. revert s t. induction evs as [|ev evs IH]; intros s t Hs Hacc; cbn [run_events]; [by wp_steps|].
  apply Forall_cons in Hacc as [Ha Hacc]. wp_step. wp_step. wp_step.
  apply wp_mono with (Q := λ _ s' _, listener_ok s').
  - destruct (occurs s ev) eqn:Ho; [by apply handle_event_ok|by wp_steps].
  - intros [] s' t' Hs'. by apply IH.
Qed.

(** ** The end *)

Lemma cleanup_loop_ok fuel s t :
  strict = false → listener_ok s → (length (ls_replicas s) ≤ fuel)%nat →
  wp (cleanup_loop fuel) (λ _ s' _, listener_ok s' ∧ ls_replicas s' = []) E s t.
Proof.
  intros Hst. revert s t. induction fuel as [|fuel IH]; intros s t Hs Hf; cbn [cleanup_loop]; wp_step; wp_step;
    destruct (ls_replicas s) as [|r l] eqn:Hl; [by wp_steps|simpl in Hf; lia|by wp_steps|].
  unfold remove_head, put_replicas. wp_step. wp_step. wp_step. fold (with_replicas l s).
  pose proof Hs as [H1 H2 H3 H4 H5]. rewrite Hl in *. rewrite fmap_cons, NoDup_cons in H4. destruct H4 as [Hk H4].
  assert (listener_ok (with_replicas l s)) as Hs1.
  { split; cbn [with_replicas ls_replicas ls_ids ls_syncs]; [done| | |done|by rewrite Hst].
    - intros r' i Hin. by apply H2, list_elem_of_further.
    - intros r1 r2 i Hr1 Hr2. apply H3; by right. }
  apply wp_bind. apply wp_mono with (Q := λ _ s' _, listener_ok s' ∧ ls_replicas s' = l).
  - destruct (mr_cm r) as [i|] eqn:Hcm; [|by wp_steps].
    destruct (H2 r i) as (c & m & Hi & Hu); [by left|done|].
    assert (∀ r', r' ∈ l → mr_cm r' ≠ Some i) as Hno.
    { intros r' Hin Hx. apply Hk. rewrite (H3 r r' i); [by apply list_elem_of_fmap_2|by left|by right|done|done]. }
    wp_step. eapply disconnect_ok; [exact Hs1|exact Hi|exact Hu|]. intros c' m' t' (Hu' & _) Hs2.
    wp_step. eapply cleanup_conn_ok; [exact Hs2|cbn; apply lookup_insert_eq|exact Hu'|]. intros c2 m2 Hu2 Hok2 Hm2.
    eapply wp_at_id; [cbn; apply lookup_insert_eq|]. eapply destroy_up; [exact Hok2|exact Hu2|exact Hm2|]. intros c3 (_ & Hok3 & _).
    split; [|done]. apply (ok_put (drop_sync i (put i c2 (put i c' (with_replicas l s))))); [|done|intros r' Hr' Hx; by destruct (Hno r')].
    apply ok_drop_sync, ok_put; [done|done|]. intros r' Hr' Hx. by destruct (Hno r').
  - intros [] s2 t2 [Hs2 Hl2]. apply wp_mono with (Q := λ _ s' _, listener_ok s' ∧ ls_replicas s' = l).
    + destruct (0 <=? mr_fd r); unfold close_fd; wp_steps; [|done]. split; [by apply ok_done|done].
    + intros [] s3 t3 [Hs3 Hl3]. apply IH; [done|]. rewrite Hl3. simpl in Hf. lia.
Qed.
End proofs.

(** ** Theorems *)

(** What an identifier holds according to its state. *)
Definition expected (c : cm_id) : list resource :=
  if id_alive c then
    match id_context c with
    | None => [CmId]
    | Some m => user_live m ++ up_live ++ [CmId]
    end
  else [].

Lemma id_ok_expected c : id_ok c → replay library_uses [CmId] (id_calls c) = Some (expected c).
Proof.
  unfold expected. intros [(-> & Hr)|[(-> & -> & _ & _ & Hr)|(m & (-> & -> & _) & Hr & _)]]; exact Hr.
Qed.

Definition no_replicas : listener := Listener [] ∅ ∅ [] [].

Definition master0 : master := Master no_replicas (CmIdent false None false Created []) false false.

(** Every identifier holds what its state says. *)
Definition accounted (s : listener) : Prop :=
  ∀ i c, ls_ids s !! i = Some c → replay library_uses [CmId] (id_calls c) = Some (expected c).

Lemma fresh_inv l : ls_ids l = ∅ → ls_syncs l = ∅ → ls_replicas l = [] → listener_inv true l.
Proof.
  intros Hi Hs Hr. split; rewrite ?Hi, ?Hs, ?Hr; [done| | |constructor|done]; intros; by destruct (not_elem_of_nil r).
Qed.

(** From the start on: the invariant, and the listening identifier open or closed. *)
Definition listening (m : master) : Prop :=
  (id_alive (ms_listen m) = true ∧ id_context (ms_listen m) = None ∧ id_qp (ms_listen m) = false ∧
   replay library_uses [] (id_calls (ms_listen m)) = Some [CmId; EventChannel]) ∨
  (id_alive (ms_listen m) = false ∧ replay library_uses [] (id_calls (ms_listen m)) = Some []).

Lemma listen_open_ok E t :
  wp listen_open (λ _ i _, ∀ l r st, listening (Master l i r st)) E (CmIdent false None false Created []) t.
Proof.
  unfold listen_open, acquire, record, set_alive. wp_step. wp_step. wp_step. wp_step.
  destruct (sys_ok E t); wp_steps; cbn [negb]; wp_steps; [|by right].
  destruct (sys_ok E (S t)); wp_steps; cbn [negb]; wp_steps; [|by right].
  destruct (sys_ok E _); cbn [negb]; wp_steps; cbn [id_alive id_context id_qp id_phase id_calls];
    [|by apply wp_destroy_id; wp_steps; right].
  destruct (sys_ok E _); cbn [negb]; wp_steps; cbn [id_alive id_context id_qp id_phase id_calls]; [by left|].
  by apply wp_destroy_id; wp_steps; right.
Qed.

Lemma master_run_ok E evs t :
  Forall accepting evs →
  wp (master_run evs) (λ r m _, listener_inv true (ms_listener m) ∧ listening m ∧ (ms_started m = true ↔ r = 0) ∧
    (r ≠ 0 → id_alive (ms_listen m) = false)) E master0 t.
Proof.
  intros Hacc. unfold master_run, kvs_replication_master_init, on_listener, on_listen, put_replicas, set_running, set_started.
  do 2 wp_step. apply wp_zoom. wp_steps. destruct (sys_ok E t); cbn [negb]; wp_steps; cbn [Z.eqb negb].
  2: { wp_steps. split_and!; [by apply fresh_inv|by right|done|done]. }
  wp_step. apply wp_zoom. eapply wp_mono; [apply listen_open_ok|]. intros ok i t1 Hi. wp_step. apply wp_zoom.
  eapply wp_mono; [apply (history_ok E true); [done|by apply fresh_inv|]|].
  { destruct ok; [done|rewrite Forall_forall in *; intros x [_ Hx]%list_elem_of_filter; by apply Hacc]. }
  intros [] l t2 Hl. wp_steps. split_and!; [done|apply Hi|done|done].
Qed.

Lemma cleanup_ok E m t :
  listener_inv true (ms_listener m) → listening m → (ms_started m = false → id_alive (ms_listen m) = false) →
  wp kvs_replication_master_cleanup (λ _ m' _,
    ls_replicas (ms_listener m') = [] ∧ accounted (ms_listener m') ∧
    id_alive (ms_listen m') = false ∧ replay library_uses [] (id_calls (ms_listen m')) = Some []) E m t.
Proof.
  destruct m as [l i rn st]. intros Hl Hi Hst. cbn [ms_listener ms_listen ms_started] in *.
  unfold kvs_replication_master_cleanup, set_running, join_listener, set_started, on_listen, on_listener. wp_step. wp_step. wp_step. wp_step. wp_step.
  cbn [ms_started ms_listener ms_listen].
  apply wp_mono with (Q := λ _ m' _, ms_listener m' = l ∧ id_alive (ms_listen m') = false ∧ replay library_uses [] (id_calls (ms_listen m')) = Some []).
  - destruct Hi as [(Ha & Hc & Hq & Hr)|(Ha & Hr)]; cbn [ms_listen] in *.
    + destruct st; [|by rewrite Hst in Ha]. wp_step. wp_step. wp_step. cbn [ms_listen]. rewrite Ha. apply wp_zoom.
      destruct i as [al ctx qp ph tr]. cbn [id_alive id_context id_qp id_calls ms_listen] in *. subst. unfold listen_close, record.
      wp_step. apply wp_destroy_id. wp_steps. split_and!; [done|done|]. cbn. rewrite <-app_assoc, replay_app, Hr. vm_compute. reflexivity.
    + destruct st; wp_steps; cbn [ms_listen]; [|done]. rewrite Ha. by wp_steps.
  - intros [] m' t' (Hm & Ha & Hr). wp_steps. rewrite Hm. pose proof Hl as [H1 H2 H3 H4 H5].
    eapply wp_mono; [apply (cleanup_loop_ok E false); [done|by split|done]|]. intros [] l' t2 [[H1' _ _ _ _] Hn].
    split_and!; [done| |done|done]. intros j c Hj. by eapply id_ok_expected, H1'.
Qed.

(** C10: the master's connections. The thread that listens is started, opens its
    identifier or fails to, and then any history follows of SYNCs, connection
    requests with any regions from any peers, connections that are established and
    closed, finished synchronisations and FINSYNCs, whichever calls fail except
    rdma_accept. The listener touches no destroyed identifier. Each identifier holds
    exactly what its state says and, once destroyed, has given everything back once
    and in an order the libraries allow. An identifier that a replica names is a live
    connection, and no other replica names it. The next connection request is
    accepted, and then the first replica waiting at that address names the connection,
    or rejected, and then the replicas stay as they are and a call failed, no replica
    was waiting at that address or the peer offered no usable memory. The cleanup removes every
    replica and closes the listening identifier and its channel. (What a replica
    without a connection waits for, and that the event channel is destroyed while
    connections of replicas live, are not claimed.) *)
Theorem master_connections_balanced E evs t :
  Forall accepting evs →
  wp (master_run evs) (λ _ m t', let s := ms_listener m in
    accounted s ∧
    (∀ r i, r ∈ ls_replicas s → mr_cm r = Some i → ∃ c x, ls_ids s !! i = Some c ∧ is_up c x) ∧
    (∀ r r' i, r ∈ ls_replicas s → r' ∈ ls_replicas s → mr_cm r = Some i → mr_cm r' = Some i → mr_key r = mr_key r') ∧
    (∀ i region peer, ls_ids s !! i = None →
      wp (handle_event (ConnectRequest i region peer true)) (λ _ s' _, answered E i region peer s s') E s t') ∧
    wp kvs_replication_master_cleanup (λ _ m' _,
      ls_replicas (ms_listener m') = [] ∧ accounted (ms_listener m') ∧
      id_alive (ms_listen m') = false ∧ replay library_uses [] (id_calls (ms_listen m')) = Some []) E m t')
    E master0 t.
Proof.
  intros Hacc. eapply wp_mono; [by apply master_run_ok|]. intros r m t' (Hs & Hi & Hst & Hr). pose proof Hs as [H1 H2 H3 H4 H5].
  cbn zeta. split_and!; [|done|done| |].
  - intros i c Hc. by eapply id_ok_expected, H1.
  - intros i g peer Hf. eapply wp_mono; [by eapply request_ok|by intros ??? []].
  - apply cleanup_ok; [done|done|]. intros Hf. apply Hr. intros ->. by rewrite (proj2 Hst) in Hf.
Qed.

Definition good_region : rdma_peer_region := PeerRegion 4096 7 67108864 RDMA_REPL_SLOT_SIZE 64 RDMA_REPL_VERSION.

Definition one_replica : list event :=
  [Sync 1 10 99; ConnectRequest 5 (Some good_region) 99 true; Established 5; FullsyncDone 5; Finsync 10; Disconnected 5].

Lemma master_connections_balanced_witness :
  Forall accepting one_replica ∧
  wp (master_run one_replica) (λ _ m t', let s := ms_listener m in
    accounted s ∧
    (∀ r i, r ∈ ls_replicas s → mr_cm r = Some i → ∃ c x, ls_ids s !! i = Some c ∧ is_up c x) ∧
    (∀ r r' i, r ∈ ls_replicas s → r' ∈ ls_replicas s → mr_cm r = Some i → mr_cm r' = Some i → mr_key r = mr_key r') ∧
    (∀ i region peer, ls_ids s !! i = None →
      wp (handle_event (ConnectRequest i region peer true)) (λ _ s' _, answered calm i region peer s s') calm s t') ∧
    wp kvs_replication_master_cleanup (λ _ m' _,
      ls_replicas (ms_listener m') = [] ∧ accounted (ms_listener m') ∧
      id_alive (ms_listen m') = false ∧ replay library_uses [] (id_calls (ms_listen m')) = Some []) calm m t')
    calm master0 0.
Proof.
  assert (Forall accepting one_replica) as Hacc by repeat constructor.
  split; [exact Hacc|]. exact (master_connections_balanced calm one_replica 0 Hacc).
Defined.

(** The replica of that history is online and its connection gone. *)
Example one_replica_online :
  wp (run_events one_replica) (λ _ s _, ls_replicas s = [MReplica 1 10 99 KVS_REPL_STATE_ONLINE None false] ∧ ls_done s = [10]) calm no_replicas 0.
Proof. vm_compute. split; reflexivity. Qed.


Definition two_waiting : list event := [Sync 1 10 99; Sync 2 11 99; ConnectRequest 5 (Some good_region) 99 true; Established 5].


(** The two replicas of that history: the second connection is taken for the last
    one too, which is told twice that it is synchronised. *)
Example same_host_told_twice :
  wp (run_events (two_waiting ++ [ConnectRequest 6 (Some good_region) 99 true; Established 6; FullsyncDone 5; FullsyncDone 6])) (λ _ s _,
    ls_done s = [11; 11] ∧
    mr_state <$> ls_replicas s = [KVS_REPL_STATE_WAIT_FINSYNC; KVS_REPL_STATE_WAIT_RDMA]) calm no_replicas 0.
Proof. vm_compute. split; reflexivity. Qed.

(** The cleanup joins the listening thread first, which destroys the event channel
    with the connections of the replicas still on it. *)
Example cleanup_closes_channel_first :
  wp (master_run [Sync 1 10 99; ConnectRequest 5 (Some good_region) 99 true; Established 5]) (λ _ m t',
    wp join_listener (λ _ m' _, id_calls (ms_listen m') = [New EventChannel; New CmId; Del CmId; Del EventChannel] ∧
      id_alive <$> ls_ids (ms_listener m') !! 5 = Some true) calm m t') calm master0 0.
Proof. vm_compute. split; reflexivity. Qed.

(** When rdma_accept fails, the identifier is destroyed but the replica keeps
    its address: the next use of it, at the latest by the cleanup, is a use after
    free. *)
Theorem failed_accept_dangles :
  (_r ← master_run [Sync 1 10 99; ConnectRequest 5 (Some good_region) 99 false]; kvs_replication_master_cleanup) calm master0 0%nat
  = Fault UseAfterFree.
Proof. vm_compute. reflexivity. Qed.

(** Rejected requests are never destroyed. *)
Theorem rejected_requests_leak :
  wp (_r ← master_run [ConnectRequest 5 None 99 true; ConnectRequest 6 (Some good_region) 99 true]; kvs_replication_master_cleanup) (λ _ m _,
    expected <$> ls_ids (ms_listener m) !! 5 = Some [CmId] ∧ expected <$> ls_ids (ms_listener m) !! 6 = Some [CmId]) calm master0 0.
Proof. vm_compute. split; reflexivity. Qed.

(** A closed connection's state is freed before its poller is joined. *)
Theorem closed_connection_frees_state_early :
  wp (run_events one_replica) (λ _ s _,
    match ls_ids s !! 5 with Some c => replay thread_uses [CmId] (id_calls c) = None | None => False end) calm no_replicas 0.
Proof. vm_compute. reflexivity. Qed.
