(* ===== verification/Replication.v ===== *)
(** * A replica ends up with the master's data

    The composition of the snapshot, the full synchronisation and the loading:
    when the master reports the end of a synchronisation, the slave's engines
    hold the dictionaries the master's engines held when the snapshot was
    taken. *)

From S2P Require Import Prelude KvSpec KvsArray KvsHash KvsSkiplist KvsRbtree RbtreeShape RbtreeEngine RbtreeProps Aof Server Boot Rdb Rdma FullSync FullSyncSpec.

(** ** Resetting and loading *)

Section reset.
Context {V : Type} `{VectorLaws V}.



End reset.

(** ** The end of a synchronisation *)

Section replication.
Context {V : Type} `{VectorLaws V}.
Context (E : env) (HE : no_oom E) (Hz : zeroed E = true).


End replication.

(** ** The outcome of a synchronisation *)

Section outcome.
Context {V : Type} `{VectorOps V}.



End outcome.


(** ** Theorems *)


(** A schedule in which everything happens in turn. *)
Definition round : list event :=
  [MasterPerform; MasterComplete; MasterHandle; SlaveHandle; SlavePerform; SlaveComplete; MasterHandle; SlaveHandle].

Definition in_turn (n : nat) : list event := concat (replicate n round).

(** The synchronisation of [stocked] in this schedule: whether the slave posted
    DONE, whether the master waits for FINSYNC, the bytes the slave has. *)
Definition run_sync (n : nat) : option (bool * bool * Z) :=
  match master_prepare_snapshot (conn0 100 64) calm stocked 0%nat with
  | Done (Some m, _, t') =>
      match full_sync (in_turn n) calm (Sync m (slave0 fresh (conn0 100 64))) t' with
      | Done (_, s, _) => Some (sv_done_posted (sy_slave s),
                                bool_decide (ms_state (sy_master s) = KVS_REPL_STATE_WAIT_FINSYNC), sv_offset (sy_slave s))
      | Fault _ => None
      end
  | _ => None
  end.

(** Three chunks, part of the way and to the end. *)
Example run_sync_part : run_sync 4 = Some (false, false, 44).
Proof. vm_compute. reflexivity. Qed.

Example run_sync_ends : run_sync 12 = Some (true, true, 114).
Proof. vm_compute. reflexivity. Qed.


