(* ===== verification/KvsCommand.v ===== *)
(** * Command execution (kvs_command.c)

    The command tables, the replies, one definition per case of the switch of
    [kvs_execute_command], and [kvs_protocol] of kvstore.c on top. A reply is
    printed into a buffer of the size the code allocates; printing more than fits
    is a fault. *)

From S2P Require Import Prelude Resp Cstdlib KvsConfig KvSpec KvsArray KvsHash KvsSkiplist KvsRbtree Aof Server Rdb.

(** ** Tables *)

Inductive kvs_cmd :=
| KVS_CMD_SET | KVS_CMD_GET | KVS_CMD_DEL | KVS_CMD_MOD | KVS_CMD_EXIST
| KVS_CMD_RSET | KVS_CMD_RGET | KVS_CMD_RDEL | KVS_CMD_RMOD | KVS_CMD_REXIST
| KVS_CMD_HSET | KVS_CMD_HGET | KVS_CMD_HDEL | KVS_CMD_HMOD | KVS_CMD_HEXIST
| KVS_CMD_SKSET | KVS_CMD_SKGET | KVS_CMD_SKDEL | KVS_CMD_SKMOD | KVS_CMD_SKEXIST
| KVS_CMD_BGSAVE | KVS_CMD_SYNC | KVS_CMD_FINSYNC
| KVS_CMD_EXPIRE | KVS_CMD_TTL | KVS_CMD_SETEX
| KVS_CMD_REXPIRE | KVS_CMD_RTTL | KVS_CMD_RSETEX
| KVS_CMD_HEXPIRE | KVS_CMD_HTTL | KVS_CMD_HSETEX
| KVS_CMD_SKEXPIRE | KVS_CMD_SKTTL | KVS_CMD_SKSETEX
| KVS_CMD_VSET | KVS_CMD_VGET | KVS_CMD_VSEARCH
| KVS_CMD_PING.

#[global] Instance kvs_cmd_eq_dec : EqDecision kvs_cmd.
Proof. solve_decision. Defined.

(** The names, in the order of the enumeration. *)
Definition command : list (bytes * kvs_cmd) :=
  [(lit "SET", KVS_CMD_SET); (lit "GET", KVS_CMD_GET); (lit "DEL", KVS_CMD_DEL);
   (lit "MOD", KVS_CMD_MOD); (lit "EXIST", KVS_CMD_EXIST);
   (lit "RSET", KVS_CMD_RSET); (lit "RGET", KVS_CMD_RGET); (lit "RDEL", KVS_CMD_RDEL);
   (lit "RMOD", KVS_CMD_RMOD); (lit "REXIST", KVS_CMD_REXIST);
   (lit "HSET", KVS_CMD_HSET); (lit "HGET", KVS_CMD_HGET); (lit "HDEL", KVS_CMD_HDEL);
   (lit "HMOD", KVS_CMD_HMOD); (lit "HEXIST", KVS_CMD_HEXIST);
   (lit "SKSET", KVS_CMD_SKSET); (lit "SKGET", KVS_CMD_SKGET); (lit "SKDEL", KVS_CMD_SKDEL);
   (lit "SKMOD", KVS_CMD_SKMOD); (lit "SKEXIST", KVS_CMD_SKEXIST);
   (lit "BGSAVE", KVS_CMD_BGSAVE);
   (lit "SYNC", KVS_CMD_SYNC); (lit "FINSYNC", KVS_CMD_FINSYNC);
   (lit "EXPIRE", KVS_CMD_EXPIRE); (lit "TTL", KVS_CMD_TTL); (lit "SETEX", KVS_CMD_SETEX);
   (lit "REXPIRE", KVS_CMD_REXPIRE); (lit "RTTL", KVS_CMD_RTTL); (lit "RSETEX", KVS_CMD_RSETEX);
   (lit "HEXPIRE", KVS_CMD_HEXPIRE); (lit "HTTL", KVS_CMD_HTTL); (lit "HSETEX", KVS_CMD_HSETEX);
   (lit "SKEXPIRE", KVS_CMD_SKEXPIRE); (lit "SKTTL", KVS_CMD_SKTTL); (lit "SKSETEX", KVS_CMD_SKSETEX);
   (lit "VSET", KVS_CMD_VSET); (lit "VGET", KVS_CMD_VGET); (lit "VSEARCH", KVS_CMD_VSEARCH);
   (lit "PING", KVS_CMD_PING)].

(** kvs_cmd_meta_t *)
Record kvs_cmd_meta := Meta { min_argc : Z; max_argc : Z; is_write : bool; persist_on_success : bool }.

Definition command_meta (cmd : kvs_cmd) : kvs_cmd_meta :=
  match cmd with
  | KVS_CMD_SET | KVS_CMD_RSET | KVS_CMD_HSET | KVS_CMD_SKSET => Meta 3 3 true true
  | KVS_CMD_GET | KVS_CMD_RGET | KVS_CMD_HGET | KVS_CMD_SKGET => Meta 2 2 false false
  | KVS_CMD_DEL | KVS_CMD_RDEL | KVS_CMD_HDEL | KVS_CMD_SKDEL => Meta 2 2 true true
  | KVS_CMD_MOD | KVS_CMD_RMOD | KVS_CMD_HMOD | KVS_CMD_SKMOD => Meta 3 3 true true
  | KVS_CMD_EXIST | KVS_CMD_REXIST | KVS_CMD_HEXIST | KVS_CMD_SKEXIST => Meta 2 2 false false
  | KVS_CMD_BGSAVE | KVS_CMD_SYNC | KVS_CMD_FINSYNC => Meta 1 1 false false
  | KVS_CMD_EXPIRE | KVS_CMD_REXPIRE | KVS_CMD_HEXPIRE | KVS_CMD_SKEXPIRE => Meta 3 3 true true
  | KVS_CMD_TTL | KVS_CMD_RTTL | KVS_CMD_HTTL | KVS_CMD_SKTTL => Meta 2 2 false false
  | KVS_CMD_SETEX | KVS_CMD_RSETEX | KVS_CMD_HSETEX | KVS_CMD_SKSETEX => Meta 4 4 true true
  | KVS_CMD_VSET => Meta 5 5 true true
  | KVS_CMD_VGET => Meta 2 4 false false
  | KVS_CMD_VSEARCH => Meta 5 5 false false
  | KVS_CMD_PING => Meta 1 1 false false
  end.

(** for (i = 0; i < KVS_CMD_COUNT; i++) if (strcmp(argv[0], command[i]) == 0) *)
Fixpoint find_command (name : bytes) (table : list (bytes * kvs_cmd)) : option kvs_cmd :=
  match table with
  | [] => None
  | (n, c) :: table' => if strcmp name n =? 0 then Some c else find_command name table'
  end.

Definition is_write_command (cmd : kvs_cmd) : bool := is_write (command_meta cmd).

Definition command_argc_ok (cmd : kvs_cmd) (argc : Z) : bool :=
  (argc >=? min_argc (command_meta cmd)) && (argc <=? max_argc (command_meta cmd)).

Definition command_result_changed_data (cmd : kvs_cmd) (ret : Z) : bool :=
  if ret <? 0 then false else
  match cmd with
  | KVS_CMD_SET | KVS_CMD_RSET | KVS_CMD_HSET | KVS_CMD_SKSET
  | KVS_CMD_SETEX | KVS_CMD_RSETEX | KVS_CMD_HSETEX | KVS_CMD_SKSETEX | KVS_CMD_VSET => true
  | KVS_CMD_DEL | KVS_CMD_RDEL | KVS_CMD_HDEL | KVS_CMD_SKDEL
  | KVS_CMD_MOD | KVS_CMD_RMOD | KVS_CMD_HMOD | KVS_CMD_SKMOD
  | KVS_CMD_EXPIRE | KVS_CMD_REXPIRE | KVS_CMD_HEXPIRE | KVS_CMD_SKEXPIRE => ret =? 0
  | _ => false
  end.

Section commands.
Context {V : Type} `{VectorOps V}.

(** The return value and [*out_buf]. *)
Abbreviation answer := (Z * option bytes)%type.
Abbreviation Cmd := (M (server V)).

(** ** Replies *)

(** *out_buf = kvs_malloc(size); if ( !*out_buf) return -2; length = sprintf( *out_buf, msg);
    then the rest of the case, and return length. *)
Definition reply (size : Z) (msg : bytes) (k : Cmd unit) : Cmd answer :=
  ok ← kvs_malloc;
  if negb ok then mret (-2, None) else
  if strlen msg + 1 >? size then fail OutOfBounds else
  k;; mret (strlen msg, Some msg).

(** A reply whose buffer is measured first. *)
Definition reply_fit (msg : bytes) (k : Cmd unit) : Cmd answer := reply (strlen msg + 1) msg k.

Definition kvs_reply_error (msg : bytes) : Cmd answer := reply_fit msg (mret tt).

Definition OK : bytes := lit "+OK" ++ crlf.
Definition ERR_INTERNAL : bytes := lit "-ERR internal error" ++ crlf.
Definition ERR_NO_KEY : bytes := lit "-ERR no such key" ++ crlf.
Definition ERR_ARGS : bytes := lit "-ERR wrong number of arguments" ++ crlf.
Definition READONLY : bytes := lit "-READONLY" ++ crlf.
Definition INT0 : bytes := lit ":0" ++ crlf.
Definition INT1 : bytes := lit ":1" ++ crlf.
Definition NIL : bytes := lit "$-1" ++ crlf.
Definition bulk (v : bytes) : bytes := lit "$" ++ dec (strlen v) ++ crlf ++ v ++ crlf.
Definition integer (n : Z) : bytes := lit ":" ++ dec_signed n ++ crlf.

(** ** Persistence of a command *)

Definition persist_command_if_changed (cmd : kvs_cmd) (ret : Z) (raw_msg : bytes) (raw_len : Z)
    : Cmd unit :=
  if negb (persist_on_success (command_meta cmd)) || negb (command_result_changed_data cmd ret)
     || (raw_len <=? 0)
  then mret tt
  else _r ← on_aof (kvs_persistence_append raw_msg raw_len); mret tt.

(** ** The cases that exist once per engine *)

Section per_engine.
Context (T : Type) `{EngineOps T} `{Focus V T}.
Context (cmd : kvs_cmd) (raw_msg : bytes) (raw_len : Z).

Definition case_set (key value : cptr) : Cmd answer :=
  ret ← on T (e_set key value (-1));
  (if ret <? 0 then reply 25 ERR_INTERNAL else reply 6 OK)
    (persist_command_if_changed cmd ret raw_msg raw_len).

Definition case_get (key : cptr) : Cmd answer :=
  result ← on T (e_get key);
  match result with
  | PNull => reply 6 NIL (mret tt)
  | _ => v ← read_str result; reply_fit (bulk v) (mret tt)
  end.

Definition case_del (key : cptr) : Cmd answer :=
  ret ← on T (e_del key);
  (if ret <? 0 then reply 25 ERR_INTERNAL
   else if ret =? 0 then reply 6 INT1 else reply 6 INT0)
    (persist_command_if_changed cmd ret raw_msg raw_len).

Definition case_mod (key value : cptr) : Cmd answer :=
  ret ← on T (e_mod key value);
  (if ret <? 0 then reply 25 ERR_INTERNAL
   else if ret =? 0 then reply 6 OK else reply 20 ERR_NO_KEY)
    (persist_command_if_changed cmd ret raw_msg raw_len).

Definition case_exist (key : cptr) : Cmd answer :=
  ret ← on T (e_exist key);
  if ret =? 0 then reply 6 INT1 (mret tt) else reply 6 INT0 (mret tt).

(** kvs_current_time_ms() + seconds * 1000 *)
Definition deadline (seconds : Z) : Cmd Z :=
  now ← kvs_current_time_ms;
  ms ← checked64 (seconds * 1000);
  checked64 (now + ms).

Definition case_setex (argc : Z) (key real_value seconds : cptr) : Cmd answer :=
  if negb (argc =? 4) then reply 28 ERR_ARGS (mret tt) else
  secs ← read_str seconds;
  expire_ms ← deadline (atoll secs);
  ret ← on T (e_set key real_value expire_ms);
  (if ret <? 0 then reply 25 ERR_INTERNAL else reply 6 OK)
    (persist_command_if_changed cmd ret raw_msg raw_len).

Definition case_expire (argc : Z) (key seconds : cptr) : Cmd answer :=
  if negb (argc =? 3) then reply 28 ERR_ARGS (mret tt) else
  secs ← read_str seconds;
  expire_ms ← deadline (atoll secs);
  ret ← on T (e_expire key expire_ms);
  (if ret =? 0 then reply 6 INT1
   else if ret =? 1 then reply 6 INT0 else reply 25 ERR_INTERNAL)
    (persist_command_if_changed cmd ret raw_msg raw_len).

Definition case_ttl (argc : Z) (key : cptr) : Cmd answer :=
  if negb (argc =? 2) then reply 28 ERR_ARGS (mret tt) else
  ttl ← on T (e_ttl key);
  if ttl =? -2 then reply 6 (integer (-2)) (mret tt)
  else if ttl =? -1 then reply 6 (integer (-1)) (mret tt)
  else
    up ← checked64 (ttl + 999);
    reply_fit (integer (Z.quot up 1000)) (mret tt).
End per_engine.

(** ** Replication commands *)

(** add_replica (kvs_repli_master.c): the new replica is at the head of the list. *)
Definition add_replica (fd addr : Z) (st : replica_state) : Cmd bool :=
  ok ← kvs_malloc;
  if negb ok then mret false else
  modify (λ s, put_replicas (Replica fd addr st :: sv_replicas s) s);;
  mret true.

Definition kvs_replication_master_handle_sync (fd addr : Z) : Cmd unit :=
  ok ← add_replica fd addr KVS_REPL_STATE_WAIT_RDMA;
  if negb ok then modify (λ s, put_closed (fd :: sv_closed s) s)
  else modify (λ s, put_sent ((fd, OK) :: sv_sent s) s).

(** The first replica of the descriptor, if it waits for FINSYNC, goes online;
    tearing down its RDMA connection is the library's affair. *)
Fixpoint finsync_list (fd : Z) (l : list replica) : list replica :=
  match l with
  | [] => []
  | r :: l' =>
      if rp_fd r =? fd then
        (if decide (rp_state r = KVS_REPL_STATE_WAIT_FINSYNC)
         then Replica (rp_fd r) (rp_addr r) KVS_REPL_STATE_ONLINE else r) :: l'
      else r :: finsync_list fd l'
  end.

Definition kvs_replication_master_handle_finsync (fd : Z) : Cmd unit :=
  modify (λ s, put_replicas (finsync_list fd (sv_replicas s)) s).

(** ** The vector commands *)

Definition case_vset (raw_msg : bytes) (raw_len argc : Z) (vkey ans dim vector_str : bytes)
    : Cmd answer :=
  if negb (argc =? 5) then reply 36 ERR_ARGS (mret tt) else
  let dim := atoi dim in
  if dim <=? 0 then reply 26 (lit "-ERR invalid dim" ++ crlf) (mret tt) else
  ret ← on_vector (v_set vkey ans dim vector_str);
  if ret <? 0 then reply 30 (lit "-ERR vector set failed" ++ crlf) (mret tt)
  else reply 6 OK (persist_command_if_changed KVS_CMD_VSET ret raw_msg raw_len).

(** "*3\r\n" and the three bulk strings of a hit. *)
Definition hit_reply (h : vector_hit) : bytes :=
  lit "*3" ++ crlf ++ bulk (hit_question h) ++ bulk (hit_answer h) ++ bulk (hit_score h).

Definition EMPTY_ARRAY : bytes := lit "*0" ++ crlf.

(** VGET key, or VGET dim vector threshold. *)
Definition case_vget (argv : list bytes) : Cmd answer :=
  match argv with
  | [_; vkey] =>
      entry ← on_vector (v_get_by_key vkey);
      match entry with
      | None => reply 5 EMPTY_ARRAY (mret tt)
      | Some (q, a) => reply_fit (lit "*2" ++ crlf ++ bulk q ++ bulk a) (mret tt)
      end
  | [_; dim; vector_str; threshold] =>
      let dim := atoi dim in
      if dim <=? 0 then reply 26 (lit "-ERR invalid dim" ++ crlf) (mret tt) else
      '(ret, h) ← on_vector (v_get_by_vector dim vector_str threshold);
      if ret =? 1 then reply_fit (hit_reply h) (mret tt)
      else if ret =? 0 then reply 5 EMPTY_ARRAY (mret tt)
      else reply 31 (lit "-ERR vector get failed" ++ crlf) (mret tt)
  | _ => reply 36 ERR_ARGS (mret tt)
  end.

Definition case_vsearch (dim vector_str topk threshold : bytes) : Cmd answer :=
  let dim := atoi dim in
  let topk := atoi topk in
  if (dim <=? 0) || (topk <=? 0)
  then kvs_reply_error (lit "-ERR invalid vector search args" ++ crlf) else
  '(ret, hits) ← on_vector (v_search dim vector_str topk threshold);
  if ret <? 0 then reply 34 (lit "-ERR vector search failed" ++ crlf) (mret tt)
  else
    reply_fit (lit "*" ++ dec (Z.of_nat (length hits)) ++ crlf ++ concat (hit_reply <$> hits)) (mret tt).

Definition case_bgsave : Cmd answer :=
  ret ← kvs_persistence_bgsave;
  if ret <? 0 then reply 22 (lit "-ERR bgsave failed" ++ crlf) (mret tt)
  else reply 6 OK (mret tt).

Definition case_sync (fd : Z) (peer : option Z) : Cmd answer :=
  kvs_replication_master_handle_sync fd (default 0 peer);; mret (0, None).

Definition case_finsync (fd : Z) : Cmd answer :=
  kvs_replication_master_handle_finsync fd;; mret (0, None).

(** The buffer has room for the text but not for its terminating NUL. *)
Definition case_ping : Cmd answer := reply 7 (lit "+PONG" ++ crlf) (mret tt).

(** ** The switch: one definition per case label *)

Section switch.
Context (fd : Z) (peer : option Z) (argv : list bytes) (raw_msg : bytes) (raw_len : Z).

Let argc : Z := Z.of_nat (length argv).

(** argv[i] as a C string; NULL stands for the arguments that are not there. *)
Definition arg (i : nat) : cptr :=
  match argv !! i with Some a => PStr (cstr a) | None => PNull end.
Definition arg_str (i : nat) : bytes := match argv !! i with Some a => cstr a | None => [] end.

Let key := arg 1.
Let value := arg 2.

Definition exec_SET := case_set kvs_array KVS_CMD_SET raw_msg raw_len key value.
Definition exec_GET := case_get kvs_array key.
Definition exec_DEL := case_del kvs_array KVS_CMD_DEL raw_msg raw_len key.
Definition exec_MOD := case_mod kvs_array KVS_CMD_MOD raw_msg raw_len key value.
Definition exec_EXIST := case_exist kvs_array key.
Definition exec_RSET := case_set kvs_rbtree KVS_CMD_RSET raw_msg raw_len key value.
Definition exec_RGET := case_get kvs_rbtree key.
Definition exec_RDEL := case_del kvs_rbtree KVS_CMD_RDEL raw_msg raw_len key.
Definition exec_RMOD := case_mod kvs_rbtree KVS_CMD_RMOD raw_msg raw_len key value.
Definition exec_REXIST := case_exist kvs_rbtree key.
Definition exec_HSET := case_set kvs_hash KVS_CMD_HSET raw_msg raw_len key value.
Definition exec_HGET := case_get kvs_hash key.
Definition exec_HDEL := case_del kvs_hash KVS_CMD_HDEL raw_msg raw_len key.
Definition exec_HMOD := case_mod kvs_hash KVS_CMD_HMOD raw_msg raw_len key value.
Definition exec_HEXIST := case_exist kvs_hash key.
Definition exec_SKSET := case_set kvs_skiplist KVS_CMD_SKSET raw_msg raw_len key value.
Definition exec_SKGET := case_get kvs_skiplist key.
Definition exec_SKDEL := case_del kvs_skiplist KVS_CMD_SKDEL raw_msg raw_len key.
Definition exec_SKMOD := case_mod kvs_skiplist KVS_CMD_SKMOD raw_msg raw_len key value.
Definition exec_SKEXIST := case_exist kvs_skiplist key.
Definition exec_SETEX := case_setex kvs_array KVS_CMD_SETEX raw_msg raw_len argc key (arg 2) (arg 3).
Definition exec_EXPIRE := case_expire kvs_array KVS_CMD_EXPIRE raw_msg raw_len argc key (arg 2).
Definition exec_TTL := case_ttl kvs_array argc key.
Definition exec_RSETEX := case_setex kvs_rbtree KVS_CMD_RSETEX raw_msg raw_len argc key (arg 2) (arg 3).
Definition exec_REXPIRE := case_expire kvs_rbtree KVS_CMD_REXPIRE raw_msg raw_len argc key (arg 2).
Definition exec_RTTL := case_ttl kvs_rbtree argc key.
Definition exec_HSETEX := case_setex kvs_hash KVS_CMD_HSETEX raw_msg raw_len argc key (arg 2) (arg 3).
Definition exec_HEXPIRE := case_expire kvs_hash KVS_CMD_HEXPIRE raw_msg raw_len argc key (arg 2).
Definition exec_HTTL := case_ttl kvs_hash argc key.
Definition exec_SKSETEX := case_setex kvs_skiplist KVS_CMD_SKSETEX raw_msg raw_len argc key (arg 2) (arg 3).
Definition exec_SKEXPIRE := case_expire kvs_skiplist KVS_CMD_SKEXPIRE raw_msg raw_len argc key (arg 2).
Definition exec_SKTTL := case_ttl kvs_skiplist argc key.
Definition exec_VSET := case_vset raw_msg raw_len argc (arg_str 1) (arg_str 2) (arg_str 3) (arg_str 4).
Definition exec_VGET := case_vget (cstr <$> argv).
Definition exec_VSEARCH := case_vsearch (arg_str 1) (arg_str 2) (arg_str 3) (arg_str 4).

Definition switch (cmd : kvs_cmd) : Cmd answer :=
  match cmd with
  | KVS_CMD_SET => exec_SET
  | KVS_CMD_GET => exec_GET
  | KVS_CMD_DEL => exec_DEL
  | KVS_CMD_MOD => exec_MOD
  | KVS_CMD_EXIST => exec_EXIST
  | KVS_CMD_RSET => exec_RSET
  | KVS_CMD_RGET => exec_RGET
  | KVS_CMD_RDEL => exec_RDEL
  | KVS_CMD_RMOD => exec_RMOD
  | KVS_CMD_REXIST => exec_REXIST
  | KVS_CMD_HSET => exec_HSET
  | KVS_CMD_HGET => exec_HGET
  | KVS_CMD_HDEL => exec_HDEL
  | KVS_CMD_HMOD => exec_HMOD
  | KVS_CMD_HEXIST => exec_HEXIST
  | KVS_CMD_SKSET => exec_SKSET
  | KVS_CMD_SKGET => exec_SKGET
  | KVS_CMD_SKDEL => exec_SKDEL
  | KVS_CMD_SKMOD => exec_SKMOD
  | KVS_CMD_SKEXIST => exec_SKEXIST
  | KVS_CMD_BGSAVE => case_bgsave
  | KVS_CMD_SYNC => case_sync fd peer
  | KVS_CMD_FINSYNC => case_finsync fd
  | KVS_CMD_EXPIRE => exec_EXPIRE
  | KVS_CMD_TTL => exec_TTL
  | KVS_CMD_SETEX => exec_SETEX
  | KVS_CMD_REXPIRE => exec_REXPIRE
  | KVS_CMD_RTTL => exec_RTTL
  | KVS_CMD_RSETEX => exec_RSETEX
  | KVS_CMD_HEXPIRE => exec_HEXPIRE
  | KVS_CMD_HTTL => exec_HTTL
  | KVS_CMD_HSETEX => exec_HSETEX
  | KVS_CMD_SKEXPIRE => exec_SKEXPIRE
  | KVS_CMD_SKTTL => exec_SKTTL
  | KVS_CMD_SKSETEX => exec_SKSETEX
  | KVS_CMD_VSET => exec_VSET
  | KVS_CMD_VGET => exec_VGET
  | KVS_CMD_VSEARCH => exec_VSEARCH
  | KVS_CMD_PING => case_ping
  end.

(** The checks before the switch. *)
Definition kvs_execute_command : Cmd answer :=
  match argv with
  | [] => kvs_reply_error ERR_ARGS
  | name :: _ =>
      let name := cstr name in
      match find_command name command with
      | None =>
          reply_fit (lit "-ERR unknown command '" ++ name ++ lit "'" ++ crlf) (mret tt)
      | Some cmd =>
          if negb (command_argc_ok cmd argc) then kvs_reply_error ERR_ARGS else
          slave ← gets (λ s, slave_mode (sv_config s));
          replicating ← gets sv_replicating;
          if slave && negb replicating && is_write_command cmd then kvs_reply_error READONLY
          else switch cmd
      end
  end.
End switch.

(** ** One message of the network *)

Definition kvs_protocol (fd : Z) (peer : option Z) (msg : bytes) : Cmd answer :=
  argv ← resp_parse_arguments msg;
  match argv with
  | None => reply 22 (lit "-ERR protocol error" ++ crlf) (mret tt)
  | Some argv => kvs_execute_command fd peer argv msg (s32 (strlen msg))
  end.
End commands.
