(* ===== verification/CommandSpec.v ===== *)
(** * What a command does (kvs_command.c against KvSpec)

    A request is a command on one engine's dictionary. [request_spec] says what
    reply it deserves, how it changes the dictionary and whether it is recorded;
    the theorems show that the cases of [kvs_execute_command], and [kvs_protocol]
    on the encoding of the request, do exactly that for every engine. *)

From S2P Require Import Prelude Resp Cstdlib KvsConfig KvSpec KvsArray KvsHash KvsSkiplist KvsRbtree Aof Server Boot Rdb KvsCommand.

Implicit Types (now : Z) (k v : bytes) (m : dict).

(** ** Requests *)

Inductive request :=
| RSet (k v : bytes)
| RGet (k : bytes)
| RDel (k : bytes)
| RMod (k v : bytes)
| RExist (k : bytes)
| RSetex (k v : bytes) (seconds : Z)
| RExpire (k : bytes) (seconds : Z)
| RTtl (k : bytes).

Definition request_key (o : request) : bytes :=
  match o with
  | RSet k _ | RGet k | RDel k | RMod k _ | RExist k | RSetex k _ _ | RExpire k _ | RTtl k => k
  end.

(** The arguments after the command's name. *)
Definition request_args (o : request) : list bytes :=
  match o with
  | RSet k v | RMod k v => [k; v]
  | RGet k | RDel k | RExist k | RTtl k => [k]
  | RSetex k v n => [k; v; dec_signed n]
  | RExpire k n => [k; dec_signed n]
  end.

(** Whole seconds, rounded up, of what [spec_ttl] says. *)
Definition ttl_seconds (now : Z) (k : bytes) (m : dict) : Z :=
  let ttl := spec_ttl now k m in
  if ttl <? 0 then ttl else (ttl + 999) / 1000.

(** [request_spec now o m reply m' recorded]. A MOD of an expired key is the one
    request whose answer depends on the engine. *)
Inductive request_spec (now : Z) : request → dict → bytes → dict → bool → Prop :=
| spec_set k v m : request_spec now (RSet k v) m OK (<[k := (PStr v, -1)]> m) true
| spec_get k v m : live now m k = Some (PStr v) →
    request_spec now (RGet k) m (bulk v) (purge now k m) false
| spec_get_nil k m : live now m k = None →
    request_spec now (RGet k) m NIL (purge now k m) false
| spec_del k m : is_Some (m !! k) → request_spec now (RDel k) m INT1 (delete k m) true
| spec_del_none k m : m !! k = None → request_spec now (RDel k) m INT0 m false
| spec_mod k v p e m : m !! k = Some (p, e) → is_expired now e = false →
    request_spec now (RMod k v) m OK (<[k := (PStr v, e)]> m) true
| spec_mod_none k v m : m !! k = None → request_spec now (RMod k v) m ERR_NO_KEY m false
| spec_mod_stale k v p e m m' (b : bool) :
    m !! k = Some (p, e) → is_expired now e = true → live_equiv now m' m →
    request_spec now (RMod k v) m (if b then OK else ERR_NO_KEY) m' b
| spec_exist k m m' : m' = m ∨ m' = purge now k m →
    request_spec now (RExist k) m (if live now m k then INT1 else INT0) m' false
| spec_setex k v n m : request_spec now (RSetex k v n) m OK (<[k := (PStr v, now + n * 1000)]> m) true
| spec_expires k n m : is_Some (m !! k) →
    request_spec now (RExpire k n) m INT1 (spec_expire k (now + n * 1000) m) true
| spec_expires_none k n m : m !! k = None → request_spec now (RExpire k n) m INT0 m false
| spec_ttls k m : request_spec now (RTtl k) m (integer (ttl_seconds now k m)) m false.

(** ** Replies *)

Section replies.
Context {V : Type} `{VectorOps V}.

Lemma wp_reply size msg (k : M (server V) unit) Q E s t :
  no_oom E → strlen msg + 1 ≤ size →
  wp k (λ _ s' t', Q (strlen msg, Some msg) s' t') E s (S t) → wp (reply size msg k) Q E s t.
Proof.
  intros HE Hsz Hk. unfold reply. wp_steps. rewrite HE. cbn [negb].
  rewrite Z.gtb_ltb, (proj2 (Z.ltb_ge _ _)) by lia. apply wp_bind. eapply wp_mono; [exact Hk|].
  intros [] s' t' HQ. by wp_steps.
Qed.

Lemma wp_reply_fit msg (k : M (server V) unit) Q E s t :
  no_oom E → wp k (λ _ s' t', Q (strlen msg, Some msg) s' t') E s (S t) → wp (reply_fit msg k) Q E s t.
Proof. intros HE Hk. apply wp_reply; [done|lia|done]. Qed.

(** The log after the persistence step of a command. *)
Lemma wp_persist cmd ret raw E (s : server V) t :
  recording (sv_aof s) → io_good E → no_oom E → raw ≠ [] →
  wp (persist_command_if_changed cmd ret raw (strlen raw)) (λ _ s' _,
    ∃ a', s' = put_aof a' s ∧ logs (sv_aof s) a'
      (if persist_on_success (command_meta cmd) && command_result_changed_data cmd ret then raw else [])) E s t.
Proof.
  intros Hrec Hio HE Hraw. unfold persist_command_if_changed.
  rewrite (proj2 (Z.leb_gt (strlen raw) 0)), orb_false_r by (destruct raw; [done|unfold strlen; simpl; lia]).
  rewrite <-negb_andb. destruct (_ && _); cbn [negb].
  - unfold on_aof. wp_steps. eapply wp_mono; [by apply append_logs|].
    intros r a' t' [_ Hl]. wp_steps. eauto.
  - wp_steps. exists (sv_aof s). rewrite put_aof_id. split; [done|]. by apply logs_nothing.
Qed.
End replies.

(** ** The commands of an engine *)

(** Is the request recorded when the engine returns [ret]? *)
Definition request_changed (o : request) (ret : Z) : bool :=
  if ret <? 0 then false else
  match o with
  | RSet _ _ | RSetex _ _ _ => true
  | RDel _ | RMod _ _ | RExpire _ _ => ret =? 0
  | _ => false
  end.

Section cases.
Context {V : Type} `{VectorOps V} (T : Type) `{EngineOps T} `{Focus V T}.

(** The case of the switch for a request, as command [cmd]. *)
Definition request_case (cmd : kvs_cmd) (raw : bytes) (raw_len : Z) (o : request) : M (server V) (Z * option bytes) :=
  match o with
  | RSet k v => case_set T cmd raw raw_len (PStr (cstr k)) (PStr (cstr v))
  | RGet k => case_get T (PStr (cstr k))
  | RDel k => case_del T cmd raw raw_len (PStr (cstr k))
  | RMod k v => case_mod T cmd raw raw_len (PStr (cstr k)) (PStr (cstr v))
  | RExist k => case_exist T (PStr (cstr k))
  | RSetex k v n =>
      case_setex T cmd raw raw_len 4 (PStr (cstr k)) (PStr (cstr v)) (PStr (cstr (dec_signed n)))
  | RExpire k n => case_expire T cmd raw raw_len 3 (PStr (cstr k)) (PStr (cstr (dec_signed n)))
  | RTtl k => case_ttl T 2 (PStr (cstr k))
  end.
End cases.

(** The names under which an engine's commands are found, and that the tables and
    the switch lead each name to the case for this engine. *)
Class Commands (V T : Type) `{VectorOps V} `{EngineOps T} `{Focus V T} := {
  c_cmd  : request → kvs_cmd;
  c_name : request → bytes;
  c_find o : find_command (c_name o) command = Some (c_cmd o);
  c_text o : cstr (c_name o) = c_name o ∧ strlen (c_name o) ≤ 8;
  c_argc o : command_argc_ok (c_cmd o) (Z.of_nat (S (length (request_args o)))) = true;
  c_write o : is_write_command (c_cmd o) = request_changed o 0;
  c_record o ret :
    persist_on_success (command_meta (c_cmd o)) && command_result_changed_data (c_cmd o) ret
    = request_changed o ret;
  c_switch fd peer o raw len :
    switch (V := V) fd peer (c_name o :: request_args o) raw len (c_cmd o)
    = request_case T (c_cmd o) raw len o
}.

Ltac solve_commands :=
  intros;
  first [match goal with o : request |- _ => destruct o end; first [done|by split]
        |match goal with o : request, ret : Z |- _ => destruct o; unfold command_result_changed_data, request_changed; by destruct (ret <? 0) end].

#[global] Program Instance commands_array {V} `{VectorOps V} : Commands V kvs_array := {|
  c_cmd o := match o with
    | RSet _ _ => KVS_CMD_SET | RGet _ => KVS_CMD_GET | RDel _ => KVS_CMD_DEL
    | RMod _ _ => KVS_CMD_MOD | RExist _ => KVS_CMD_EXIST | RSetex _ _ _ => KVS_CMD_SETEX
    | RExpire _ _ => KVS_CMD_EXPIRE | RTtl _ => KVS_CMD_TTL end;
  c_name o := lit match o with
    | RSet _ _ => "SET" | RGet _ => "GET" | RDel _ => "DEL" | RMod _ _ => "MOD"
    | RExist _ => "EXIST" | RSetex _ _ _ => "SETEX" | RExpire _ _ => "EXPIRE" | RTtl _ => "TTL" end
|}.
Solve All Obligations with solve_commands.

#[global] Program Instance commands_rbtree {V} `{VectorOps V} : Commands V kvs_rbtree := {|
  c_cmd o := match o with
    | RSet _ _ => KVS_CMD_RSET | RGet _ => KVS_CMD_RGET | RDel _ => KVS_CMD_RDEL
    | RMod _ _ => KVS_CMD_RMOD | RExist _ => KVS_CMD_REXIST | RSetex _ _ _ => KVS_CMD_RSETEX
    | RExpire _ _ => KVS_CMD_REXPIRE | RTtl _ => KVS_CMD_RTTL end;
  c_name o := lit match o with
    | RSet _ _ => "RSET" | RGet _ => "RGET" | RDel _ => "RDEL" | RMod _ _ => "RMOD"
    | RExist _ => "REXIST" | RSetex _ _ _ => "RSETEX" | RExpire _ _ => "REXPIRE" | RTtl _ => "RTTL" end
|}.
Solve All Obligations with solve_commands.

#[global] Program Instance commands_hash {V} `{VectorOps V} : Commands V kvs_hash := {|
  c_cmd o := match o with
    | RSet _ _ => KVS_CMD_HSET | RGet _ => KVS_CMD_HGET | RDel _ => KVS_CMD_HDEL
    | RMod _ _ => KVS_CMD_HMOD | RExist _ => KVS_CMD_HEXIST | RSetex _ _ _ => KVS_CMD_HSETEX
    | RExpire _ _ => KVS_CMD_HEXPIRE | RTtl _ => KVS_CMD_HTTL end;
  c_name o := lit match o with
    | RSet _ _ => "HSET" | RGet _ => "HGET" | RDel _ => "HDEL" | RMod _ _ => "HMOD"
    | RExist _ => "HEXIST" | RSetex _ _ _ => "HSETEX" | RExpire _ _ => "HEXPIRE" | RTtl _ => "HTTL" end
|}.
Solve All Obligations with solve_commands.

#[global] Program Instance commands_skiplist {V} `{VectorOps V} : Commands V kvs_skiplist := {|
  c_cmd o := match o with
    | RSet _ _ => KVS_CMD_SKSET | RGet _ => KVS_CMD_SKGET | RDel _ => KVS_CMD_SKDEL
    | RMod _ _ => KVS_CMD_SKMOD | RExist _ => KVS_CMD_SKEXIST | RSetex _ _ _ => KVS_CMD_SKSETEX
    | RExpire _ _ => KVS_CMD_SKEXPIRE | RTtl _ => KVS_CMD_SKTTL end;
  c_name o := lit match o with
    | RSet _ _ => "SKSET" | RGet _ => "SKGET" | RDel _ => "SKDEL" | RMod _ _ => "SKMOD"
    | RExist _ => "SKEXIST" | RSetex _ _ _ => "SKSETEX" | RExpire _ _ => "SKEXPIRE" | RTtl _ => "SKTTL" end
|}.
Solve All Obligations with solve_commands.

(** ** Every case meets the specification *)

Section refinement.
Context {V : Type} `{VectorOps V} {T : Type} `{Engine T} `{Focus V T} `{!FocusLaws V T} `{!Commands V T}.
Implicit Types (s : server V) (c : T) (o : request) (raw : bytes).

(** now + n * 1000 can be computed. *)
Definition seconds_ok (now n : Z) : Prop :=
  LLONG_MIN ≤ n * 1000 ≤ LLONG_MAX ∧ LLONG_MIN ≤ now + n * 1000 ≤ LLONG_MAX.

(** The key is one the engine can store, the arguments are C strings, there is
    room for a new key, times do not overflow and the engine holds them. *)
Definition request_ok (now : Z) (c : T) (o : request) : Prop :=
  e_key (request_key o) ∧ Forall (λ a, NUL ∉ a) (request_args o) ∧
  match o with
  | RSet _ _ => e_room c
  | RSetex _ _ n => e_room c ∧ seconds_ok now n ∧ ∀ e, e_time (S := T) e
  | RExpire _ n => seconds_ok now n ∧ ∀ e, e_time (S := T) e
  | RTtl k => ∀ p e, e_abs c !! k = Some (p, e) → LLONG_MIN ≤ e - now ∧ e - now + 999 ≤ LLONG_MAX
  | _ => True
  end.

(** The arguments are short enough for the lengths of the protocol. *)
Definition request_short (o : request) : Prop := Forall (λ a, strlen a ≤ INT_MAX) (request_args o).

(** The answer, the engine and the log are as specified, nothing else changes. *)
Definition request_post (now : Z) s raw o (ans : Z * option bytes) s' : Prop :=
  ∃ rep (lg : bool) c a, ans = (strlen rep, Some rep) ∧ s' = put_aof a (refocus c s) ∧
    e_inv c ∧ request_spec now o (e_abs (focus s)) rep (e_abs c) lg ∧
    logs (sv_aof s) a (if lg then raw else []).

Lemma wp_answer now size rep ret lg c s raw o E t :
  no_oom E → io_good E → recording (sv_aof s) → raw ≠ [] → strlen rep + 1 ≤ size → e_inv c →
  request_changed o ret = lg → request_spec now o (e_abs (focus s)) rep (e_abs c) lg →
  wp (reply size rep (persist_command_if_changed (c_cmd o) ret raw (strlen raw)))
    (λ ans s' _, request_post now s raw o ans s') E (refocus c s) t.
Proof.
  intros HE Hio Hrec Hraw Hsz Hc Hlg Hspec. apply wp_reply; [done|done|].
  eapply wp_mono; [apply wp_persist; [by rewrite refocus_aof|done..]|].
  intros _ s' t' (a & -> & Ha). rewrite c_record, Hlg, refocus_aof in Ha.
  exists rep, lg, c, a. done.
Qed.

Lemma wp_answer_read now size rep c s raw o E t :
  no_oom E → recording (sv_aof s) → strlen rep + 1 ≤ size → e_inv c →
  request_spec now o (e_abs (focus s)) rep (e_abs c) false →
  wp (reply size rep (mret tt)) (λ ans s' _, request_post now s raw o ans s') E (refocus c s) t.
Proof.
  intros HE Hrec Hsz Hc Hspec. apply wp_reply; [done|done|]. wp_steps.
  exists rep, false, c, (sv_aof s). rewrite <-(refocus_aof s c), put_aof_id, refocus_aof.
  split_and!; [done..|]. by apply logs_nothing.
Qed.

Lemma wp_deadline now n Q E s t :
  clock E t = now → seconds_ok now n → Q (now + n * 1000) s (S t) → wp (deadline n) Q E s t.
Proof.
  intros Ht [Hn Hs] HQ. unfold deadline. wp_steps. rewrite Ht.
  apply wp_checked64; [done|]. by apply wp_checked64.
Qed.

Lemma dec_signed_cstr n : cstr (dec_signed n) = dec_signed n.
Proof.
  apply cstr_id. unfold dec_signed.
  assert (∀ z, 0 ≤ z → NUL ∉ dec z) as Hz.
  { intros z Hz Hin. pose proof (dec_digits z Hz) as Hd. rewrite Forall_forall in Hd.
    by specialize (Hd NUL Hin). }
  destruct (n <? 0) eqn:Hn; to_prop; [|by apply Hz].
  apply not_elem_of_cons. split; [done|]. apply Hz. lia.
Qed.

Lemma spec_ttl_cases now k m :
  spec_ttl now k m = -2 ∨ spec_ttl now k m = -1 ∨
  0 ≤ spec_ttl now k m ∧ ∃ p e, m !! k = Some (p, e) ∧ (spec_ttl now k m = 0 ∨ spec_ttl now k m = e - now).
Proof.
  unfold spec_ttl. destruct (m !! k) as [[p e]|]; [|by left].
  destruct (e =? -1); [by right; left|]. right. right. unfold clamp_ttl.
  destruct (e - now >? 0) eqn:Hs; (split; [lia|]); exists p, e; auto.
Qed.

Lemma live_str now c k p : e_inv c → live now (e_abs c) k = Some p → ∃ v, p = PStr v.
Proof.
  intros Hinv Hl. unfold live in Hl. destruct (e_abs c !! k) as [[p' e]|] eqn:Hk; simplify_eq/=.
  destruct (is_expired now e); simplify_eq. by eapply e_clean.
Qed.

Context (E : env) (t : nat) (s : server V) (raw : bytes).
Hypotheses (HE : no_oom E) (Hio : io_good E) (Hrec : recording (sv_aof s)) (Hraw : raw ≠ [])
  (Hinv : e_inv (focus s)).

(** The specification of the case of a request, run at time [t]. *)
Definition case_meets (o : request) : Prop :=
  request_ok (clock E t) (focus s) o →
  wp (request_case T (c_cmd o) raw (strlen raw) o)
    (λ ans s' _, request_post (clock E t) s raw o ans s') E s t.

(** Runs the engine's operation by its law. *)
Ltac engine_step law :=
  apply wp_on; eapply wp_mono; [eapply law; done|]; cbv beta.

Lemma case_set_meets k v : case_meets (RSet k v).
Proof.
  intros (Hk & Hargs & Hroom). pose proof (e_never (S := T)) as Hnever. decompose_Forall. simpl in *. unfold case_set. rewrite !cstr_id by done.
  wp_steps. engine_step e_set_law. intros r c t' (Hc & -> & Habs). cbn [Z.ltb Z.compare].
  eapply wp_answer; try done. rewrite Habs. constructor.
Qed.

Lemma case_get_meets k : case_meets (RGet k).
Proof.
  intros (Hk & Hargs & _). decompose_Forall. simpl in *. unfold case_get. rewrite cstr_id by done.
  wp_steps. engine_step e_get_law. intros r c t' (Hc & -> & Habs).
  destruct (live _ _ k) as [p|] eqn:Hl; simpl.
  - destruct (live_str _ _ _ _ Hinv Hl) as [v ->]. wp_steps. eapply wp_answer_read; try done.
    rewrite Habs. by constructor.
  - eapply wp_answer_read; try done. rewrite Habs. by constructor.
Qed.

Lemma case_del_meets k : case_meets (RDel k).
Proof.
  intros (Hk & Hargs & _). decompose_Forall. simpl in *. unfold case_del. rewrite cstr_id by done.
  wp_steps. engine_step e_del_law. intros r c t' (Hc & -> & Habs).
  destruct (e_abs (focus s) !! k) as [x|] eqn:Hm; cbn [Z.ltb Z.eqb Z.compare].
  - eapply wp_answer; try done. rewrite Habs. by constructor.
  - eapply wp_answer; try done. rewrite Habs, delete_id by done. by constructor.
Qed.

Lemma case_mod_meets k v : case_meets (RMod k v).
Proof.
  intros (Hk & Hargs & _). decompose_Forall. simpl in *. unfold case_mod. rewrite !cstr_id by done.
  wp_steps. engine_step e_mod_law. intros r c t' (Hc & Hr & Habs).
  rewrite (proj2 (Z.ltb_ge r 0)) by lia.
  assert (request_changed (RMod k v) r = (r =? 0)) as Hch.
  { unfold request_changed. by rewrite (proj2 (Z.ltb_ge r 0)) by lia. }
  destruct (e_abs (focus s) !! k) as [[p e]|] eqn:Hm; [destruct (is_expired _ e) eqn:He|].
  - destruct (r =? 0) eqn:Hz.
    + eapply wp_answer; try done. by eapply (spec_mod_stale _ _ _ _ _ _ _ true).
    + eapply wp_answer; try done. by eapply (spec_mod_stale _ _ _ _ _ _ _ false).
  - destruct Habs as [-> Habs]. cbn [Z.eqb]. eapply wp_answer; try done. rewrite Habs. by econstructor.
  - destruct Habs as [Hpos Habs]. rewrite (proj2 (Z.eqb_neq r 0)) in * by lia.
    eapply wp_answer; try done. rewrite Habs. by constructor.
Qed.

Lemma case_exist_meets k : case_meets (RExist k).
Proof.
  intros (Hk & Hargs & _). decompose_Forall. simpl in *. unfold case_exist. rewrite cstr_id by done.
  wp_steps. engine_step e_exist_law. intros r c t' (Hc & -> & Habs).
  pose proof (spec_exist (clock E t) k _ _ Habs) as Hsp.
  destruct (live _ _ k) as [p|] eqn:Hl; cbn [Z.eqb]; by eapply wp_answer_read.
Qed.

Lemma atoll_dec now n : seconds_ok now n → atoll (dec_signed n) = n.
Proof.
  intros [Hn _]. apply strtoll_dec_signed. unfold LLONG_MIN, LLONG_MAX in *. lia.
Qed.

Lemma case_setex_meets k v n : case_meets (RSetex k v n).
Proof.
  intros (Hk & Hargs & Hroom & Hn & Htime). decompose_Forall. simpl in *. unfold case_setex.
  rewrite dec_signed_cstr, !cstr_id by done. cbn [Z.eqb negb Pos.eqb]. wp_steps.
  rewrite (atoll_dec _ _ Hn). eapply wp_deadline; [done|done|].
  wp_steps. engine_step e_set_law. intros r c t' (Hc & -> & Habs). cbn [Z.ltb Z.compare].
  eapply wp_answer; try done. rewrite Habs. constructor.
Qed.

Lemma case_expire_meets k n : case_meets (RExpire k n).
Proof.
  intros (Hk & Hargs & Hn & Htime). decompose_Forall. simpl in *. unfold case_expire.
  rewrite dec_signed_cstr, !cstr_id by done. cbn [Z.eqb negb Pos.eqb]. wp_steps.
  rewrite (atoll_dec _ _ Hn). eapply wp_deadline; [done|done|].
  wp_steps. apply wp_on. eapply wp_mono; [eapply e_expire_law; try done; by right|]. cbv beta. intros r c t' (Hc & -> & Habs).
  destruct (e_abs (focus s) !! k) as [x|] eqn:Hm; cbn [Z.eqb Pos.eqb].
  - eapply wp_answer; try done. rewrite Habs. by constructor.
  - eapply wp_answer; try done. rewrite Habs. unfold spec_expire. rewrite Hm. by constructor.
Qed.

Lemma case_ttl_meets k : case_meets (RTtl k).
Proof.
  intros (Hk & Hargs & Hr). decompose_Forall. simpl in *. unfold case_ttl.
  rewrite !cstr_id by done. cbn [Z.eqb negb Pos.eqb]. wp_steps.
  apply wp_on. eapply wp_mono; [eapply e_ttl_law; try done; intros; by edestruct Hr; eauto; lia|].
  intros r c t' [-> ->].
  pose proof (spec_ttls (clock E t) k (e_abs (focus s))) as Hsp. unfold ttl_seconds in Hsp.
  destruct (spec_ttl_cases (clock E t) k (e_abs (focus s))) as [Hs|[Hs|(Hpos & p & e & Hm & Hs)]].
  - rewrite Hs in *. by eapply wp_answer_read.
  - rewrite Hs in *. by eapply wp_answer_read.
  - rewrite (proj2 (Z.eqb_neq _ (-2))), (proj2 (Z.eqb_neq _ (-1))) by lia.
    specialize (Hr _ _ Hm). apply wp_bind, wp_checked64; [unfold LLONG_MIN, LLONG_MAX in *; lia|].
    rewrite (proj2 (Z.ltb_ge _ 0)) in Hsp by lia. rewrite Z.quot_div_nonneg by lia.
    by eapply wp_answer_read.
Qed.

Lemma request_case_meets o : case_meets o.
Proof.
  destruct o; auto using case_set_meets, case_get_meets, case_del_meets, case_mod_meets,
    case_exist_meets, case_setex_meets, case_expire_meets, case_ttl_meets.
Qed.

(** The server accepts writes: it is no slave, or it applies a replicated command. *)
Definition accepts (s : server V) (o : request) : Prop :=
  slave_mode (sv_config s) = false ∨ sv_replicating s = true ∨ request_changed o 0 = false.

(** The checks before the switch let a well-formed request through. *)
Lemma execute_request fd peer o Q :
  accepts s o →
  wp (request_case T (c_cmd o) raw (strlen raw) o) Q E s t →
  wp (kvs_execute_command fd peer (c_name o :: request_args o) raw (strlen raw)) Q E s t.
Proof.
  intros Hacc Hwp. unfold kvs_execute_command. destruct (c_text o) as [Hn _]. rewrite Hn, c_find.
  cbn [length]. rewrite c_argc. cbn [negb]. wp_steps.
  assert (slave_mode (sv_config s) && negb (sv_replicating s) && is_write_command (c_cmd o) = false) as Hg.
  { rewrite c_write. destruct Hacc as [Hs|[Hs|Hs]]; rewrite Hs; [done| |by rewrite andb_false_r].
    by rewrite andb_false_r. }
  rewrite Hg, c_switch. exact Hwp.
Qed.

Lemma dec_signed_length n : LLONG_MIN ≤ n ≤ LLONG_MAX → strlen (dec_signed n) ≤ INT_MAX.
Proof.
  intros Hn. assert (∀ z, 0 ≤ z ≤ 2 ^ 63 → strlen (dec z) ≤ 64) as Hz.
  { intros z Hz. unfold dec, strlen. rewrite length_rev.
    assert (∀ fuel x, (length (dec_rev fuel x) ≤ fuel)%nat) as Hl.
    { induction fuel as [|fuel IH]; intros x; simpl; [lia|]. destruct (_ =? 0); simpl; [lia|].
      specialize (IH (x / 10)). lia. }
    specialize (Hl (S (Z.to_nat (Z.log2 z))) z).
    pose proof (Z.log2_le_mono z (2 ^ 63) ltac:(lia)) as Hlog. rewrite Z.log2_pow2 in Hlog by lia.
    pose proof (Z.log2_nonneg z). lia. }
  unfold dec_signed, LLONG_MIN, LLONG_MAX, INT_MAX in *. destruct (n <? 0) eqn:Hs; to_prop.
  - unfold strlen in *. simpl. specialize (Hz (- n) ltac:(lia)). lia.
  - specialize (Hz n ltac:(lia)). lia.
Qed.
End refinement.

Section protocol.
Context {V : Type} `{VectorOps V} {T : Type} `{Engine T} `{Focus V T} `{!FocusLaws V T} `{!Commands V T}.
Implicit Types (s : server V) (o : request).

(** A request as a client sends it. *)
Definition request_argv (o : request) : list bytes := c_name (V := V) (T := T) o :: request_args o.
Definition request_message (o : request) : bytes := resp_encode (request_argv o).

Lemma request_small o : strlen (request_message o) ≤ INT_MAX → small_command (request_argv o).
Proof. apply resp_encode_small. Qed.

(** What the client of a request sees, and what happens to the server: the parser
    recovers the request, the command runs once, at some time [t']. *)
Lemma protocol_request E fd peer s o t :
  no_oom E → io_good E → recording (sv_aof s) → e_inv (focus s) → accepts s o →
  request_short o → strlen (request_message o) ≤ INT_MAX →
  (∀ t', request_ok (clock E t') (focus s) o) →
  wp (kvs_protocol fd peer (request_message o)) (λ ans s' _,
    ∃ t', request_post (clock E t') s (request_message o) o ans s') E s t.
Proof.
  intros HE Hio Hrec Hinv Hacc Hshort Hlen Hok. unfold kvs_protocol. wp_steps.
  apply wp_parse_arguments; [by apply request_small|done|done|]. intros t1. cbn [option_bind].
  rewrite s32_id by (pose proof (strlen_nonneg (request_message o)); unfold INT_MIN; lia).
  apply execute_request; [done|].
  eapply wp_mono; [by apply request_case_meets|]. intros ans s' t2 Hpost. exists t1. exact Hpost.
Qed.
End protocol.

(** ** Commands that only read are not recorded *)

Section keeps.
Context {V : Type} `{VectorOps V}.

(** [m] leaves the log as it is. *)
Definition keeps_log {A} (m : M (server V) A) : Prop :=
  ∀ E s t a s' t', m E s t = Done (a, s', t') → sv_aof s' = sv_aof s.

Lemma keeps_ret {A} (a : A) : keeps_log (mret a).
Proof. intros E s t a' s' t' [= <- <- <-]. done. Qed.
Lemma keeps_fail {A} f : keeps_log (fail f : M (server V) A).
Proof. done. Qed.
Lemma keeps_bind {A B} (m : M (server V) A) (f : A → M (server V) B) :
  keeps_log m → (∀ a, keeps_log (f a)) → keeps_log (m ≫= f).
Proof.
  intros Hm Hf E s t b s' t' Heq. unfold mbind, M_bind in Heq.
  destruct (m E s t) as [[[a s1] t1]|] eqn:Hr; [|done].
  by rewrite (Hf _ _ _ _ _ _ _ Heq), (Hm _ _ _ _ _ _ Hr).
Qed.
Lemma keeps_malloc : keeps_log kvs_malloc.
Proof. by intros E s t a s' t' [= <- <- <-]. Qed.
Lemma keeps_fork : keeps_log fork.
Proof. by intros E s t a s' t' [= <- <- <-]. Qed.
Lemma keeps_gets {A} (f : server V → A) : keeps_log (gets f).
Proof. by intros E s t a s' t' [= <- <- <-]. Qed.
Lemma keeps_modify f : (∀ s, sv_aof (f s) = sv_aof s) → keeps_log (modify f).
Proof. by intros Hf E s t a s' t' [= <- <- <-]. Qed.
Lemma keeps_zoom {T A} (proj : server V → T) inj (m : M T A) :
  (∀ c s, sv_aof (inj c s) = sv_aof s) → keeps_log (zoom proj inj m).
Proof.
  intros Hi E s t a s' t' Heq. unfold zoom in Heq.
  destruct (m E (proj s) t) as [[[??]?]|]; simplify_eq. apply Hi.
Qed.
Lemma keeps_on {T A} `{Focus V T} `{!FocusLaws V T} (m : M T A) : keeps_log (on T m).
Proof. apply keeps_zoom. intros c s. apply refocus_aof. Qed.
Lemma keeps_read_str p : keeps_log (read_str p).
Proof. destruct p; [apply keeps_fail|apply keeps_ret|apply keeps_fail]. Qed.
Lemma keeps_checked64 z : keeps_log (checked64 z).
Proof. unfold checked64. destruct (_ && _); [apply keeps_ret|apply keeps_fail]. Qed.

Lemma keeps_reply size msg (k : M (server V) unit) : keeps_log k → keeps_log (reply size msg k).
Proof.
  intros Hk. unfold reply. apply keeps_bind; [apply keeps_malloc|]. intros []; simpl; [|apply keeps_ret].
  destruct (_ >? size); [apply keeps_fail|]. apply keeps_bind; [done|]. intros _. apply keeps_ret.
Qed.

Lemma keeps_write_str b : keeps_log (write_str b).
Proof. unfold write_str. destruct (_ <? 0); [apply keeps_fail|apply keeps_ret]. Qed.

Lemma keeps_save_vector rows : keeps_log (rdb_save_vector rows).
Proof.
  induction rows as [|r rows IH]; simpl; [apply keeps_ret|]. unfold rdb_write_vector_entry.
  repeat first [apply keeps_bind|apply keeps_write_str|apply keeps_ret|exact IH|intros ?].
Qed.
End keeps.

(** Decomposes a computation into steps that keep the log. *)
Ltac keeps_log_tac :=
  repeat match goal with
  | |- keeps_log (mbind _ _) => apply keeps_bind
  | |- keeps_log (mret _) => apply keeps_ret
  | |- keeps_log (fail _) => apply keeps_fail
  | |- keeps_log kvs_malloc => apply keeps_malloc
  | |- keeps_log fork => apply keeps_fork
  | |- keeps_log (gets _) => apply keeps_gets
  | |- keeps_log (modify _) => by apply keeps_modify
  | |- keeps_log (on _ _) => apply keeps_on
  | |- keeps_log (zoom _ _ _) => by apply keeps_zoom
  | |- keeps_log (read_str _) => apply keeps_read_str
  | |- keeps_log (checked64 _) => apply keeps_checked64
  | |- keeps_log (reply _ _ _) => apply keeps_reply
  | |- keeps_log (rdb_save_vector _) => apply keeps_save_vector
  | |- keeps_log (let '(_, _) := ?x in _) => destruct x
  | |- keeps_log (match ?x with _ => _ end) => destruct x
  | |- ∀ _, _ => intros ?
  end.

Section readers.
Context {V : Type} `{VectorOps V} (T : Type) `{EngineOps T} `{Focus V T} `{!FocusLaws V T}.

Lemma keeps_get (k : cptr) : keeps_log (V := V) (case_get T k).
Proof. unfold case_get, reply_fit. keeps_log_tac. Qed.
Lemma keeps_exist (k : cptr) : keeps_log (V := V) (case_exist T k).
Proof. unfold case_exist. keeps_log_tac. Qed.
Lemma keeps_ttl argc (k : cptr) : keeps_log (V := V) (case_ttl T argc k).
Proof. unfold case_ttl, reply_fit. keeps_log_tac. Qed.
End readers.

Section switch_readers.
Context {V : Type} `{VectorOps V}.

Lemma keeps_bgsave : keeps_log (V := V) case_bgsave.
Proof.
  unfold case_bgsave, kvs_persistence_bgsave, rdb_save_to_file, rdb_save_to_fp,
    on_array, on_rbtree, on_hash, on_skiplist. keeps_log_tac.
Qed.

Lemma keeps_vget argv : keeps_log (V := V) (case_vget argv).
Proof. unfold case_vget, on_vector, reply_fit. keeps_log_tac. Qed.

Lemma keeps_vsearch a b c d : keeps_log (V := V) (case_vsearch a b c d).
Proof. unfold case_vsearch, kvs_reply_error, on_vector, reply_fit. keeps_log_tac. Qed.

Lemma switch_keeps fd peer argv raw len cmd :
  is_write_command cmd = false → keeps_log (V := V) (switch fd peer argv raw len cmd).
Proof.
  intros Hw. destruct cmd; try discriminate Hw; simpl;
    first [apply keeps_get; apply _|apply keeps_exist; apply _|apply keeps_ttl; apply _
          |apply keeps_bgsave|apply keeps_vget|apply keeps_vsearch|idtac].
  - unfold case_sync, kvs_replication_master_handle_sync, add_replica. keeps_log_tac.
  - unfold case_finsync, kvs_replication_master_handle_finsync. keeps_log_tac.
  - unfold case_ping. keeps_log_tac.
Qed.
End switch_readers.

(** ** Theorems *)

(** C1: refinement. A request to any engine that keeps the interface's promises,
    encoded as a client sends it, is answered exactly as the abstract dictionary
    prescribes: the reply (which fits the buffer allocated for it), the effect on
    that engine's dictionary, whether the message is appended to the log, byte for
    byte, and that nothing else of the server changes. *)
Theorem protocol_refines {V} `{VectorOps V} {T} `{Engine T} `{Focus V T} `{!FocusLaws V T} `{!Commands V T}
    E fd peer (s : server V) (o : request) t :
  no_oom E → io_good E → recording (sv_aof s) → e_inv (focus s) → accepts s o →
  request_short o → strlen (request_message (V := V) (T := T) o) ≤ INT_MAX →
  (∀ t', request_ok (clock E t') (focus s) o) →
  wp (kvs_protocol fd peer (request_message (V := V) (T := T) o)) (λ ans s' _,
    ∃ t' rep (lg : bool) (c : T) a,
      ans = (strlen rep, Some rep) ∧ s' = put_aof a (refocus c s) ∧ e_inv c ∧
      request_spec (clock E t') o (e_abs (focus s)) rep (e_abs c) lg ∧
      logs (sv_aof s) a (if lg then request_message (V := V) (T := T) o else [])) E s t.
Proof. apply protocol_request. Qed.

(** The array of a fresh server has room. *)
Lemma fresh_room : e_room (sv_array fresh).
Proof.
  destruct fresh_ok as [[Ha _ _ _ _ (He & _)] _]. apply (sn_room (V := unit)); [exact Ha|]. intros c [= <-].
  change (e_abs (sv_array fresh)) with (ar_abs (sv_array fresh)). by rewrite He, map_size_empty.
Qed.

Lemma k_v_strings : Forall (λ a, NUL ∉ a) [lit "k"; lit "v"].
Proof. repeat constructor; by apply (bool_decide_unpack _). Qed.

(** The messages "SET k v" and "GET k". *)
Abbreviation set_message := (request_message (V := unit) (T := kvs_array) (RSet (lit "k") (lit "v"))).
Abbreviation get_message := (request_message (V := unit) (T := kvs_array) (RGet (lit "k"))).

Lemma protocol_refines_witness :
  wp (kvs_protocol 5 None set_message) (λ ans s' _,
    ∃ t' rep (lg : bool) (c : kvs_array) a,
      ans = (strlen rep, Some rep) ∧ s' = put_aof a (refocus c fresh) ∧ e_inv c ∧
      request_spec (clock calm t') (RSet (lit "k") (lit "v")) (e_abs (focus fresh)) rep (e_abs c) lg ∧
      logs (sv_aof fresh) a (if lg then set_message else [])) calm fresh 0.
Proof.
  destruct fresh_ok as (Hb & Hj & Hc & _).
  pose proof (protocol_refines (V := unit) (T := kvs_array) calm 5 None fresh (RSet (lit "k") (lit "v")) 0
    calm_no_oom calm_io) as Hr.
  apply Hr; clear Hr.
  - right. eauto.
  - apply Hb.
  - left. by rewrite Hc.
  - by repeat constructor.
  - by vm_compute.
  - intros t'. split; [done|]. split; [exact k_v_strings|exact fresh_room].
Defined.

(** What was written is read back. On every engine, a SET of any value under a
    key followed by a GET of the key is answered with exactly the value. *)
Theorem set_then_get {V} `{VectorOps V} {T} `{Engine T} `{Focus V T} `{!FocusLaws V T} `{!Commands V T}
    E fd peer (s : server V) (k v : bytes) t :
  no_oom E → io_good E → recording (sv_aof s) → e_inv (focus s) → slave_mode (sv_config s) = false →
  e_key k → e_room (focus s) → NUL ∉ k → NUL ∉ v →
  strlen (request_message (V := V) (T := T) (RSet k v)) ≤ INT_MAX →
  strlen (request_message (V := V) (T := T) (RGet k)) ≤ INT_MAX →
  strlen k ≤ INT_MAX → strlen v ≤ INT_MAX →
  wp (_r ← kvs_protocol fd peer (request_message (V := V) (T := T) (RSet k v));
      kvs_protocol fd peer (request_message (V := V) (T := T) (RGet k)))
    (λ ans _ _, ans = (strlen (bulk v), Some (bulk v))) E s t.
Proof.
  intros HE Hio Hrec Hinv Hm Hk Hroom Hnk Hnv Hl1 Hl2 Hk' Hv'. apply wp_bind.
  pose proof (protocol_request (V := V) (T := T) E fd peer s (RSet k v) t HE Hio Hrec Hinv) as Hset.
  assert (request_short (RSet k v)) as Hsh by (apply Forall_cons; split; [exact Hk'|by apply Forall_singleton]).
  eapply wp_mono; [apply Hset; [|exact Hsh|exact Hl1|]|].
  - by left.
  - intros t'. split; [done|]. split; [apply Forall_cons; split; [done|by apply Forall_singleton]|done].
  - intros ans s' t1 (t' & rep & lg & c & a & _ & -> & Hc & Hsp & Hlog). inversion Hsp as [? ? ? Habs| | | | | | | | | | | |]. subst.
    pose proof (protocol_request (V := V) (T := T) E fd peer (put_aof a (refocus c s)) (RGet k) t1 HE Hio) as Hget.
    rewrite focus_put_aof, focus_refocus in Hget.
    eapply wp_mono; [apply Hget; [by eapply logs_recording|exact Hc| |by apply Forall_singleton|exact Hl2|]|].
    + left. change (sv_config (put_aof a (refocus c s))) with (sv_config (refocus c s)). by rewrite refocus_config.
    + intros t2. split; [done|]. split; [by apply Forall_singleton|done].
    + intros ans2 s2 t2 (t3 & rep & lg & c2 & a2 & -> & _ & _ & Hsp2 & _).
      rewrite focus_put_aof, focus_refocus in Hsp2.
      assert (live (clock E t3) (e_abs c) k = Some (PStr v)) as Hlive.
      { unfold live. by match goal with Heq : _ = e_abs c |- _ => rewrite <-Heq end; rewrite lookup_insert_eq. }
      inversion Hsp2; subst; congruence.
Qed.

Lemma set_then_get_witness :
  wp (_r ← kvs_protocol 5 None set_message; kvs_protocol 5 None get_message)
    (λ ans _ _, ans = (strlen (bulk (lit "v")), Some (bulk (lit "v")))) calm fresh 0.
Proof.
  destruct fresh_ok as (Hb & Hj & Hc & _). pose proof k_v_strings as Hkv. decompose_Forall.
  pose proof (set_then_get (V := unit) (T := kvs_array) calm 5 None fresh (lit "k") (lit "v") 0
    calm_no_oom calm_io) as Hr.
  apply Hr; clear Hr.
  - right. eauto.
  - apply Hb.
  - by rewrite Hc.
  - exact I.
  - exact fresh_room.
  - assumption.
  - assumption.
  - by vm_compute.
  - by vm_compute.
  - by vm_compute.
  - by vm_compute.
Defined.

(** A read-only slave. While the server is a slave and is not applying a
    replicated command, every write command, whatever its arguments, is answered
    with -READONLY and changes nothing. *)
Theorem slave_refuses_writes {V} `{VectorOps V} E fd peer (s : server V) name args raw len cmd t :
  no_oom E → slave_mode (sv_config s) = true → sv_replicating s = false →
  find_command (cstr name) command = Some cmd → is_write_command cmd = true →
  command_argc_ok cmd (Z.of_nat (S (length args))) = true →
  wp (kvs_execute_command fd peer (name :: args) raw len) (λ ans s' _,
    ans = (strlen READONLY, Some READONLY) ∧ s' = s) E s t.
Proof.
  intros HE Hs Hr Hf Hw Ha. unfold kvs_execute_command. rewrite Hf. cbn [length]. rewrite Ha. cbn [negb].
  wp_steps. rewrite Hs, Hr, Hw. cbn [negb andb]. unfold kvs_reply_error. apply wp_reply_fit; [done|]. by wp_steps.
Qed.

(** A slave. *)
Definition slave : server unit :=
  Server (sv_array fresh) (sv_rbtree fresh) (sv_hash fresh) (sv_skiplist fresh) tt (sv_aof fresh) None [] [] []
    false (Config [] 0 0 true 2 true (lit "h") 6379).

Lemma slave_refuses_writes_witness :
  wp (kvs_execute_command 5 None [lit "DEL"; lit "k"] [] 0) (λ ans s' _,
    ans = (strlen READONLY, Some READONLY) ∧ s' = slave) calm slave 0.
Proof.
  apply (slave_refuses_writes calm 5 None slave (lit "DEL") [lit "k"] [] 0 KVS_CMD_DEL 0 calm_no_oom); reflexivity.
Defined.

(** Only writes are recorded. Whatever the server's state, a command that the
    table does not mark as a write leaves the log exactly as it was, and so does
    anything that is no command or has the wrong number of arguments. *)
Theorem reads_not_recorded {V} `{VectorOps V} E fd peer (s : server V) argv raw len ans s' t t' :
  kvs_execute_command fd peer argv raw len E s t = Done (ans, s', t') →
  (∀ name cmd, head argv = Some name → find_command (cstr name) command = Some cmd →
     is_write_command cmd = false ∨ command_argc_ok cmd (Z.of_nat (length argv)) = false) →
  sv_aof s' = sv_aof s.
Proof.
  intros Hrun Hread. revert Hrun.
  assert (keeps_log (kvs_execute_command (V := V) fd peer argv raw len)) as Hk; [|apply Hk].
  unfold kvs_execute_command, kvs_reply_error, reply_fit.
  destruct argv as [|name args]; [keeps_log_tac|].
  destruct (find_command (cstr name) command) as [cmd|] eqn:Hf; [|keeps_log_tac].
  destruct (command_argc_ok cmd _) eqn:Ha; simpl; [|keeps_log_tac].
  destruct (Hread name cmd eq_refl Hf) as [Hw|Hw]; [|congruence].
  apply keeps_bind; [keeps_log_tac|]. intros slave. apply keeps_bind; [keeps_log_tac|]. intros repl.
  rewrite Hw, andb_false_r. by apply switch_keeps.
Qed.

Lemma reads_not_recorded_witness :
  ∃ s', sv_aof s' = sv_aof slave ∧
    kvs_execute_command 5 None [lit "FOO"; lit "k"] [] 0 calm slave 0%nat
    = Done ((28, Some (lit "-ERR unknown command 'FOO'" ++ crlf)), s', 1%nat).
Proof.
  exists slave. split; [|reflexivity].
  apply (reads_not_recorded calm 5 None slave [lit "FOO"; lit "k"] [] 0
    (28, Some (lit "-ERR unknown command 'FOO'" ++ crlf)) slave 0 1); [reflexivity|].
  intros name cmd [= <-] Hf. discriminate Hf.
Defined.

(** Requests that are no command are answered, not executed. A name that is
    not in the table gets an error that repeats it, a wrong number of arguments
    gets an error, and neither changes the server. *)
Theorem bad_requests_answered {V} `{VectorOps V} E fd peer (s : server V) argv raw len t :
  no_oom E →
  (∀ name cmd, head argv = Some name → find_command (cstr name) command = Some cmd →
     command_argc_ok cmd (Z.of_nat (length argv)) = false) →
  wp (kvs_execute_command fd peer argv raw len) (λ ans s' _, s' = s ∧
    let msg := match argv with
               | name :: _ => if find_command (cstr name) command then ERR_ARGS
                              else lit "-ERR unknown command '" ++ cstr name ++ lit "'" ++ crlf
               | [] => ERR_ARGS
               end in
    ans = (strlen msg, Some msg)) E s t.
Proof.
  intros HE Hbad. unfold kvs_execute_command, kvs_reply_error.
  destruct argv as [|name args]; [apply wp_reply_fit; [done|]; by wp_steps|].
  destruct (find_command (cstr name) command) as [cmd|] eqn:Hf.
  - rewrite (Hbad name cmd eq_refl Hf). cbn [negb]. apply wp_reply_fit; [done|]. by wp_steps.
  - apply wp_reply_fit; [done|]. by wp_steps.
Qed.

Lemma bad_requests_answered_witness :
  wp (kvs_execute_command 5 None [lit "GET"] [] 0) (λ ans s' _, s' = slave ∧
    ans = (strlen ERR_ARGS, Some ERR_ARGS)) calm slave 0.
Proof.
  apply (bad_requests_answered calm 5 None slave [lit "GET"] [] 0 0 calm_no_oom).
  intros name cmd [= <-] [= <-]. reflexivity.
Defined.

(** PING writes one byte past its reply buffer: seven bytes are allocated and
    "+PONG\r\n" takes eight with its terminating NUL. *)
Theorem ping_overflows {V} `{VectorOps V} E fd peer (s : server V) raw len t :
  malloc_ok E t = true →
  kvs_execute_command fd peer [lit "PING"] raw len E s t = Fault OutOfBounds.
Proof.
  intros Hm. unfold kvs_execute_command.
  change (find_command (cstr (lit "PING")) command) with (Some KVS_CMD_PING).
  unfold mbind at 1 2, M_bind at 1 2, gets. cbv beta iota.
  replace (command_argc_ok KVS_CMD_PING _) with true by done. cbn [negb].
  replace (is_write_command KVS_CMD_PING) with false by done. rewrite andb_false_r. cbn [switch].
  unfold case_ping, reply, mbind, M_bind, kvs_malloc. by rewrite Hm.
Qed.

Lemma ping_overflows_witness :
  kvs_execute_command 5 None [lit "PING"] [] 0 calm slave 0%nat = Fault OutOfBounds.
Proof. apply (ping_overflows calm 5 None slave). reflexivity. Defined.

(** The replica table. FINSYNC brings online exactly the most recently added
    replica of the connection, and only if it is waiting for it; no other replica
    changes and none is added or lost. *)
Theorem finsync_exact fd l :
  length (finsync_list fd l) = length l ∧
  ∀ i r, l !! i = Some r →
    finsync_list fd l !! i =
      Some (if decide (rp_fd r = fd ∧ rp_state r = KVS_REPL_STATE_WAIT_FINSYNC ∧
                       Forall (λ r', rp_fd r' ≠ fd) (take i l))
            then Replica (rp_fd r) (rp_addr r) KVS_REPL_STATE_ONLINE else r).
Proof.
  split.
  { induction l as [|r l IH]; simpl; [done|]. destruct (rp_fd r =? fd); simpl; congruence. }
  induction l as [|r0 l IH]; intros i r Hi; [done|]. simpl.
  destruct (rp_fd r0 =? fd) eqn:Hfd; to_prop; destruct i as [|i]; simplify_eq/=.
  - f_equal. destruct (decide (rp_state r = _)) as [Hst|Hst].
    + by rewrite decide_True.
    + rewrite decide_False; [done|]. naive_solver.
  - rewrite decide_False; [done|]. intros (_ & _ & Hj). by apply Forall_cons in Hj as [Hj _].
  - rewrite decide_False; [done|]. naive_solver.
  - rewrite (IH i r Hi). f_equal. apply decide_ext. rewrite Forall_cons. naive_solver.
Qed.
