(* ===== verification/VectorEngine.v ===== *)
(** * The vector index in the server

    kvs_vector.c as the vector engine of the server, the vectors of a snapshot
    (rdb_vector_to_string and rdb_save_vector_node of kvs_persistence.c), and the
    commands VSET, VGET and VSEARCH on it. *)

From S2P Require Import Prelude Cstdlib Float32 Resp KvSpec KvsArray KvsHash KvsSkiplist KvsRbtree RbtreeShape RbtreeRotate RbtreeInsert RbtreeSearch RbtreeEngine KvsConfig Aof KvsVector VectorSpec VectorInsert VectorProps Server Boot Rdb KvsCommand CommandSpec.

(** ** Vectors in a snapshot *)

(** The loop of rdb_vector_to_string: [buf] is written, [room] is cap - offset. *)
Fixpoint print_loop (first : bool) (vec : list float) (room : Z) (buf : bytes) : option bytes :=
  match vec with
  | [] => Some buf
  | x :: vec' =>
      let piece := (if first then [] else [COMMA]) ++ print6f x in
      if room <=? strlen piece then None else print_loop false vec' (room - strlen piece) (buf ++ piece)
  end.

Definition rdb_vector_to_string (vec : list float) (dim : Z) : option bytes :=
  if dim <=? 0 then None else print_loop true (take (Z.to_nat dim) vec) (dim * 32 + 1) [].

(** rdb_save_vector_node: the entries in key order that have a text. Its
    allocations succeed. *)
Definition vector_row_of (v : kvs_vector) (x : bytes * entry) : option vector_row :=
  a ← ptr_entry x.2.1;
  e ← vt_heap v !! a;
  text ← rdb_vector_to_string (ve_vector e) (ve_dim e);
  Some (VRow (ve_question e) (ve_answer e) (ve_dim e) text).

Definition vector_rows (v : kvs_vector) : list vector_row :=
  match rb_root (vt_tree v), rb_nil (vt_tree v) with
  | Some r, Some nl => omap (vector_row_of v) (rb_collect (size (rb_heap (vt_tree v))) (rb_heap (vt_tree v)) nl r)
  | _, _ => []
  end.

(** ** The engine *)

Definition hit_of (r : search_result) : vector_hit := Hit (sr_question r) (sr_answer r) (print6f (sr_score r)).

#[global] Instance kvs_vectors : VectorOps kvs_vector := {|
  v_zero := global_vector_tree0;
  v_create := kvs_vector_create;
  v_destroy := kvs_vector_destroy;
  v_set := kvs_vector_set;
  v_get_by_key k :=
    p ← kvs_vector_get_by_key k;
    match p with None => mret None | Some a => e ← get_entry a; mret (Some (ve_question e, ve_answer e)) end;
  v_get_by_vector dim str threshold :=
    '(ret, r) ← kvs_vector_get_by_vector dim str (atof32 threshold);
    mret (ret, match r with Some r => hit_of r | None => Hit [] [] [] end);
  v_search dim str topk threshold :=
    '(ret, rs) ← kvs_vector_search dim str topk (atof32 threshold);
    mret (ret, hit_of <$> rs);
  v_rows := vector_rows
|}.

#[global] Program Instance kvs_vectors_laws : VectorLaws kvs_vector := {| v_ok := vec_ok; v_used := vt_next_id |}.
Next Obligation.
  intros E t HE. unfold wp. cbn [v_create v_zero kvs_vectors]. rewrite vector_create_run by done.
  split; [done|]. split; [apply new_index_ok|done].
Qed.
Next Obligation.
  intros E v q a dim x t HE Hv Hb. eapply wp_mono; [by apply vector_set_spec|]. intros r v' t' Hp. unfold vset_post in Hp.
  destruct (accepted dim x); [destruct Hp as (_ & Hv' & Hn & _); split; [done|lia]|destruct Hp as [_ ->]; split; [done|lia]].
Qed.
Next Obligation.
  intros E v t Hv. eapply wp_mono; [by apply destroy_spec|]. done.
Qed.

(** ** Vectors through a snapshot *)

(** What a snapshot makes of an answer and a vector: the components are printed with
    six decimals, if the text fits, and read again, if the norm is still positive. *)
Definition reprinted (x : bytes * list float) : option (bytes * list float) :=
  let dim := Z.of_nat (length x.2) in
  text ← rdb_vector_to_string x.2 dim;
  vec ← accepted dim text;
  Some (x.1, vec).






(** ** The commands *)

Section commands.
Context (E : env) (HE : no_oom E) (Hio : io_good E).

(** VSET of an admissible vector is stored and recorded, any other is refused. *)
Definition vset_answer (s : server kvs_vector) (q a dim text raw : bytes) (out : Z * option bytes) (s' : server kvs_vector) : Prop :=
  match accepted (atoi dim) text with
  | Some vec => out = (strlen OK, Some OK) ∧ ∃ v' l', s' = put_aof l' (put_vector v' s) ∧ vec_ok v' ∧ logs (sv_aof s) l' raw ∧
      ∀ k, stored v' k = if decide (k = q) then Some (a, vec) else stored (sv_vector s) k
  | None => s' = s ∧
      let msg := if atoi dim <=? 0 then lit "-ERR invalid dim" ++ crlf else lit "-ERR vector set failed" ++ crlf in
      out = (strlen msg, Some msg)
  end.

Lemma vset_spec fd peer (s : server kvs_vector) q a dim text raw t :
  vec_ok (sv_vector s) → vt_next_id (sv_vector s) < 2 ^ 30 → slave_mode (sv_config s) = false →
  recording (sv_aof s) → raw ≠ [] →
  wp (kvs_execute_command fd peer [lit "VSET"; q; a; dim; text] raw (strlen raw))
    (λ out s' _, vset_answer s (cstr q) (cstr a) (cstr dim) (cstr text) raw out s') E s t.
Proof.
  intros Hv Hb Hm Hrec Hraw. unfold kvs_execute_command.
  change (find_command (cstr (lit "VSET")) command) with (Some KVS_CMD_VSET). cbn [length].
  replace (command_argc_ok KVS_CMD_VSET _) with true by done. cbn [negb]. wp_step. wp_step. wp_step. wp_step. rewrite Hm. cbn [andb].
  unfold switch, exec_VSET, case_vset. cbn [length]. replace (negb (Z.of_nat 5 =? 5)) with false by done.
  change (arg_str [lit "VSET"; q; a; dim; text] 1) with (cstr q). change (arg_str [lit "VSET"; q; a; dim; text] 2) with (cstr a).
  change (arg_str [lit "VSET"; q; a; dim; text] 3) with (cstr dim). change (arg_str [lit "VSET"; q; a; dim; text] 4) with (cstr text).
  unfold vset_answer. destruct (atoi (cstr dim) <=? 0) eqn:Hd.
  { unfold accepted. rewrite Hd. apply wp_reply; [done|done|]. by wp_steps. }
  wp_step. unfold on_vector. apply wp_zoom. eapply wp_mono; [by apply vector_set_spec|]. intros r v' t' Hpost. unfold vset_post in Hpost.
  destruct (accepted _ _) as [vec|].
  - destruct Hpost as (-> & Hv' & _ & Hst). cbn [Z.ltb Z.compare]. apply wp_reply; [done|done|].
    eapply wp_mono; [by apply wp_persist|]. intros [] s' t2 (l' & -> & Hl). split; [done|]. exists v', l'. done.
  - rewrite Hd in Hpost. destruct Hpost as [-> ->]. cbn [Z.ltb Z.compare]. apply wp_reply; [done|done|]. wp_steps. split; [by destruct s|done].
Qed.




End commands.

(** ** A server with vectors *)

Definition vserver : server kvs_vector :=
  Server (sv_array fresh) (sv_rbtree fresh) (sv_hash fresh) (sv_skiplist fresh) sample (sv_aof fresh) None [] [] []
    false g_config0.

Lemma vserver_recording : recording (sv_aof vserver).
Proof. destruct fresh_ok as (_ & Hj & _). right. by eexists. Qed.

(** ** Claims *)

(** C21: VSET. While memory does not run out, the log can be written and fewer than
    2^30 entries were ever stored, VSET on a master answers +OK when the dimension
    is positive and the text is that many numbers of positive norm; then exactly the
    question's binding changes and the raw message is appended to the log. Otherwise
    it answers with an error and nothing changes, the log included. *)
Theorem vset_stores_and_records E fd peer (s : server kvs_vector) q a dim text raw t :
  no_oom E → io_good E → vec_ok (sv_vector s) → vt_next_id (sv_vector s) < 2 ^ 30 → slave_mode (sv_config s) = false →
  recording (sv_aof s) → raw ≠ [] →
  wp (kvs_execute_command fd peer [lit "VSET"; q; a; dim; text] raw (strlen raw))
    (λ out s' _, vset_answer s (cstr q) (cstr a) (cstr dim) (cstr text) raw out s') E s t.
Proof. intros HE Hio. by apply vset_spec. Qed.

Lemma vset_stores_and_records_witness :
  wp (kvs_execute_command 5 None [lit "VSET"; lit "y"; lit "four"; lit "2"; lit "1,2"] (lit "raw") (strlen (lit "raw")))
    (λ out s' _, out = (5, Some OK) ∧ fst <$> stored (sv_vector s') (lit "y") = Some (lit "four")) calm vserver 0.
Proof.
  eapply wp_mono; [refine (vset_stores_and_records calm 5 None vserver (lit "y") (lit "four") (lit "2") (lit "1,2") (lit "raw") 0
    calm_no_oom calm_io sample_ok _ eq_refl vserver_recording _); [vm_compute; reflexivity|discriminate]|].
  intros out s' t' Ha. unfold vset_answer in Ha.
  assert (∃ vec, accepted (atoi (cstr (lit "2"))) (cstr (lit "1,2")) = Some vec) as [vec Hacc] by (eexists; vm_compute; reflexivity).
  rewrite Hacc in Ha. destruct Ha as (-> & v' & l' & -> & _ & _ & Hst). split; [reflexivity|].
  change (fst <$> stored v' (lit "y") = Some (lit "four")). rewrite Hst. vm_compute. reflexivity.
Defined.



(** The index after one VSET. *)
Definition with_one (q a : bytes) (dim : Z) (text : bytes) : option kvs_vector :=
  match kvs_vector_set q a dim text calm new_index 0%nat with Done (0, v, _) => Some v | _ => None end.


#[local] Instance row_fits_dec r : Decision (row_fits r).
Proof. unfold row_fits. apply _. Defined.



(** [sample] binds "x" to a vector that survives. *)
Example sample_survives : fst <$> (stored sample (lit "x") ≫= reprinted) = Some (lit "three").
Proof. vm_compute. reflexivity. Qed.

(** A snapshot can lose vectors. The vector "0.0000001,0" is stored, but printed
    with six decimals it is the zero vector, which VSET refuses when the snapshot is
    loaded; and a vector of one component of 1e26 is longer than the 32 characters
    per component of the buffer, so its entry is not written at all. *)
Theorem snapshot_loses_vectors :
  (∃ v, with_one (lit "q") (lit "a") 2 (lit "0.0000001,0") = Some v ∧
     vector_rows v = [VRow (lit "q") (lit "a") 2 (lit "0.000000,0.000000")] ∧
     with_one (lit "q") (lit "a") 2 (lit "0.000000,0.000000") = None) ∧
  (∃ v, with_one (lit "q") (lit "a") 1 (lit "1e26") = Some v ∧ vector_rows v = []).
Proof.
  split; eexists; (split; [vm_compute; reflexivity|]); [split|]; vm_compute; reflexivity.
Qed.
