(* ===== verification/Recovery.v ===== *)
(** * Recovery from the append-only file (kvs_persistence.c)

    [aof_load_file] parses the file command by command and executes each one with
    recording switched off. The main theorem: a server that replays the journal of
    another holds the same dictionaries. *)

From S2P Require Import Prelude Resp Cstdlib KvsConfig KvSpec KvsArray KvsHash KvsSkiplist KvsRbtree RbtreeEngine Aof Server Boot Rdb KvsCommand CommandSpec.

(** ** Loading the file *)

Section load.
Context {V : Type} `{VectorOps V}.

Definition set_loading (b : bool) : M (server V) unit :=
  on_aof (modify (λ a, Aof (a_ring a) (a_file a) b (a_on a))).

(** A pure function that may fault, run in the monad. *)
Definition lift {S A} (r : outcome A) : M S A :=
  match r with Done a => mret a | Fault f => fail f end.

(** while (ptr < end). Every command consumes input, so the length of the file
    bounds the iterations. *)
Fixpoint aof_load_loop (fuel : nat) (ptr : bytes) : M (server V) unit :=
  match ptr with
  | [] => mret tt
  | _ =>
      match fuel with
      | O => fail OutOfFuel
      | S fuel' =>
          '(ret, cmd_len) ← lift (resp_parse_one_command ptr);
          if ret <=? 0 then mret tt else
          _resp ← kvs_protocol (-1) None (take cmd_len ptr);
          aof_load_loop fuel' (drop cmd_len ptr)
      end
  end.

Definition aof_load_file : M (server V) Z :=
  buf ← gets (λ s, a_file (sv_aof s));
  match buf with
  | [] => mret 0
  | _ =>
      ok ← kvs_malloc;
      if negb ok then mret (-1) else
      set_loading true;;
      aof_load_loop (length buf) buf;;
      set_loading false;;
      mret 0
  end.

(** static int persistence_mode = 2 *)
Definition persistence_mode : Z := 2.

Definition kvs_persistence_load : M (server V) Z :=
  (if persistence_mode =? 2 then _r ← aof_load_file; mret tt
   else if persistence_mode =? 1 then _r ← rdb_load_files; mret tt
   else mret tt);;
  mret 0.

Lemma wp_lift {S A} (r : outcome A) a Q E (s : S) t : r = Done a → Q a s t → wp (lift r) Q E s t.
Proof. by intros ->. Qed.
End load.

(** ** Requests to the verified engines *)

Inductive target := OnArray | OnHash | OnSkiplist | OnRbtree.

#[global] Instance target_eq_dec : EqDecision target.
Proof. solve_decision. Defined.

(** Requests without expiry, with the engine they go to. *)
Inductive plain : request → Prop :=
| plain_set k v : plain (RSet k v)
| plain_get k : plain (RGet k)
| plain_del k : plain (RDel k)
| plain_mod k v : plain (RMod k v)
| plain_exist k : plain (RExist k).

Section recovery.
Context {V : Type} `{VectorOps V}.
Implicit Types (s : server V) (x y : target) (o : request) (m : dict).

Definition dict_of x s : dict :=
  match x with
  | OnArray => ar_abs (sv_array s)
  | OnHash => ha_abs (sv_hash s)
  | OnSkiplist => sk_abs (sv_skiplist s)
  | OnRbtree => rb_abs (sv_rbtree s)
  end.

Definition message x o : bytes :=
  match x with
  | OnArray => request_message (V := V) (T := kvs_array) o
  | OnHash => request_message (V := V) (T := kvs_hash) o
  | OnSkiplist => request_message (V := V) (T := kvs_skiplist) o
  | OnRbtree => request_message (V := V) (T := kvs_rbtree) o
  end.

(** What a plain request does to a dictionary without expiry. *)
Definition plain_apply o m : dict :=
  match o with
  | RSet k v => <[k := (PStr v, -1)]> m
  | RDel k => delete k m
  | RMod k v => if m !! k then <[k := (PStr v, -1)]> m else m
  | _ => m
  end.

(** How it is answered. *)
Definition plain_answer o m : bytes :=
  match o with
  | RSet _ _ => OK
  | RGet k => match m !! k with Some (PStr v, _) => bulk v | _ => NIL end
  | RDel k | RExist k => if m !! k then INT1 else INT0
  | RMod k _ => if m !! k then OK else ERR_NO_KEY
  | _ => []
  end.

Lemma timeless_live now m k : timeless m → purge now k m = m.
Proof.
  intros Hm. unfold purge. destruct (m !! k) as [[p e]|] eqn:Hk; [|done]. by rewrite (Hm _ _ _ Hk).
Qed.

(** On a dictionary without expiry the specification is a function; what is not
    recorded changes nothing. *)
Lemma plain_spec now o m rep m' lg :
  plain o → timeless m → request_spec now o m rep m' lg →
  m' = plain_apply o m ∧ (lg = false → m' = m) ∧ timeless m' ∧ rep = plain_answer o m.
Proof.
  intros Ho Hm Hsp.
  assert (∀ k, live now m k = fst <$> m !! k) as Hlive.
  { intros k. unfold live. destruct (m !! k) as [[p e]|] eqn:Hk; [|done]. simpl. by rewrite (Hm _ _ _ Hk). }
  assert (∀ k v, timeless (<[k := (PStr v, -1)]> m)) as Hins.
  { intros k v k' p e [[_ ?]|[_ ?]]%lookup_insert_Some; [naive_solver|eauto]. }
  assert (∀ k, timeless (delete k m)) as Hdel.
  { intros k k' p e [_ ?]%lookup_delete_Some. eauto. }
  destruct Hsp as [k v m|k v m Hl|k m Hl|k m [x Hk]|k m Hk|k v p e m Hk He|k v m Hk
                  |k v p e m m' b Hk He|k m m' Hx|k v n m|k n m Hk|k n m Hk|k m]; simpl.
  - by split_and!.
  - rewrite timeless_live by done. rewrite Hlive in Hl. by destruct (m !! k) as [[p e]|]; simplify_eq/=.
  - rewrite timeless_live by done. rewrite Hlive in Hl. by destruct (m !! k) as [[p e]|]; simplify_eq/=.
  - rewrite Hk. by split_and!.
  - by rewrite delete_id, Hk.
  - rewrite Hk, (Hm _ _ _ Hk). by split_and!.
  - by rewrite Hk.
  - by rewrite (Hm _ _ _ Hk) in He.
  - rewrite timeless_live in Hx by done. assert (m' = m) as -> by naive_solver. rewrite Hlive. by destruct (m !! k).
  - inversion Ho.
  - inversion Ho.
  - inversion Ho.
  - inversion Ho.
Qed.

(** ** Servers and requests of the theorem *)

(** [K] bounds the keys of the array, whose capacity is finite. *)
Record sound (K : gset bytes) s : Prop := {
  so_array : ar_inv (sv_array s);
  so_hash : ha_inv (sv_hash s);
  so_skiplist : sk_inv (sv_skiplist s);
  so_rbtree : rb_inv (sv_rbtree s);
  so_timeless x : timeless (dict_of x s);
  so_keys : dom (dict_of OnArray s) ⊆ K;
  so_accepts : slave_mode (sv_config s) = false ∨ sv_replicating s = true
}.

(** The key suits the engine, arguments are C strings of lengths that fit. *)
Definition admissible (K : gset bytes) x o : Prop :=
  plain o ∧ Forall (λ a, NUL ∉ a) (request_args o) ∧ request_short o ∧
  strlen (message x o) ≤ INT_MAX ∧
  match x with
  | OnArray => request_key o ∈ K
  | OnHash => ascii_key (request_key o)
  | OnSkiplist | OnRbtree => True
  end.

Lemma plain_keys K o m : plain o → dom m ⊆ K → request_key o ∈ K → dom (plain_apply o m) ⊆ K.
Proof. intros [] Hd Hk; simpl in *; [..|destruct (m !! k)|]; set_solver. Qed.

Lemma message_nonempty x o : message x o ≠ [].
Proof. by destruct x. Qed.

(** What one message does to a sound server, and how it is answered. *)
Definition message_post x o s (ans : Z * option bytes) s' : Prop :=
  ans = (strlen (plain_answer o (dict_of x s)), Some (plain_answer o (dict_of x s))) ∧
  dict_of x s' = plain_apply o (dict_of x s) ∧ (∀ y, y ≠ x → dict_of y s' = dict_of y s) ∧
  ∃ lg : bool, logs (sv_aof s) (sv_aof s') (if lg then message x o else []) ∧
    (lg = false → dict_of x s' = dict_of x s).

(** The room [request_ok] asks for. *)
Lemma array_room K s : sound K s → Z.of_nat (size K) < KVS_ARRAY_SIZE → e_room (sv_array s).
Proof.
  intros Hs HK. apply (sn_room (V := V)); [apply Hs|]. intros c [= <-]. eapply Z.le_lt_trans; [|exact HK].
  apply inj_le. rewrite <-size_dom. apply subseteq_size, Hs.
Qed.

Section one_message.
Context (K : gset bytes) (E : env) (fd : Z) (peer : option Z) (s : server V) (o : request).
Hypotheses (HK : Z.of_nat (size K) < KVS_ARRAY_SIZE) (HE : no_oom E) (Hio : io_good E)
  (Hs : sound K s) (Hrec : recording (sv_aof s)).

(** The room and time conditions of a plain request. *)
Lemma plain_ok {T} `{Engine T} now (c : T) :
  plain o → e_key (request_key o) → Forall (λ a, NUL ∉ a) (request_args o) → e_room c →
  request_ok now c o.
Proof. intros Ho Hk Ha Hr. split; [done|]. split; [done|]. by destruct Ho. Qed.

Lemma message_array t :
  admissible K OnArray o →
  wp (kvs_protocol fd peer (message OnArray o)) (λ ans s' _, sound K s' ∧ message_post OnArray o s ans s') E s t.
Proof.
  intros (Ho & Ha & Hsh & Hl & Hk). pose proof Hs as [H1 H2 H3 Hr H4 H5 H6].
  eapply wp_mono; [apply protocol_request; try done|].
  - destruct H6; [by left|by right; left].
  - intros t'. apply plain_ok; try done. by eapply array_room.
  - intros ans s' _ (t' & rep & lg & c & a & -> & -> & Hinv & Hsp & Hlog).
    destruct (plain_spec _ _ _ _ _ _ Ho (H4 OnArray) Hsp) as (Habs & Hf & Htl & ->). simpl in *.
    split; [split; simpl; try done|].
    + intros []; [done|apply (H4 OnHash)|apply (H4 OnSkiplist)|apply (H4 OnRbtree)].
    + rewrite Habs. by apply plain_keys.
    + split; [done|]. split; [done|]. split; [by intros []|]. by exists lg.
Qed.

Lemma message_hash t :
  admissible K OnHash o →
  wp (kvs_protocol fd peer (message OnHash o)) (λ ans s' _, sound K s' ∧ message_post OnHash o s ans s') E s t.
Proof.
  intros (Ho & Ha & Hsh & Hl & Hk). pose proof Hs as [H1 H2 H3 Hr H4 H5 H6].
  eapply wp_mono; [apply protocol_request; try done|].
  - destruct H6; [by left|by right; left].
  - intros t'. by apply plain_ok.
  - intros ans s' _ (t' & rep & lg & c & a & -> & -> & Hinv & Hsp & Hlog).
    destruct (plain_spec _ _ _ _ _ _ Ho (H4 OnHash) Hsp) as (Habs & Hf & Htl & ->). simpl in *.
    split; [split; simpl; try done|].
    + intros []; [apply (H4 OnArray)|done|apply (H4 OnSkiplist)|apply (H4 OnRbtree)].
    + split; [done|]. split; [done|]. split; [by intros []|]. by exists lg.
Qed.

Lemma message_skiplist t :
  admissible K OnSkiplist o →
  wp (kvs_protocol fd peer (message OnSkiplist o)) (λ ans s' _, sound K s' ∧ message_post OnSkiplist o s ans s') E s t.
Proof.
  intros (Ho & Ha & Hsh & Hl & Hk). pose proof Hs as [H1 H2 H3 Hr H4 H5 H6].
  eapply wp_mono; [apply protocol_request; try done|].
  - destruct H6; [by left|by right; left].
  - intros t'. by apply plain_ok.
  - intros ans s' _ (t' & rep & lg & c & a & -> & -> & Hinv & Hsp & Hlog).
    destruct (plain_spec _ _ _ _ _ _ Ho (H4 OnSkiplist) Hsp) as (Habs & Hf & Htl & ->). simpl in *.
    split; [split; simpl; try done|].
    + intros []; [apply (H4 OnArray)|apply (H4 OnHash)|done|apply (H4 OnRbtree)].
    + split; [done|]. split; [done|]. split; [by intros []|]. by exists lg.
Qed.

Lemma message_rbtree t :
  admissible K OnRbtree o →
  wp (kvs_protocol fd peer (message OnRbtree o)) (λ ans s' _, sound K s' ∧ message_post OnRbtree o s ans s') E s t.
Proof.
  intros (Ho & Ha & Hsh & Hl & Hk). pose proof Hs as [H1 H2 H3 Hr H4 H5 H6].
  eapply wp_mono; [apply protocol_request; try done|].
  - destruct H6; [by left|by right; left].
  - intros t'. by apply plain_ok.
  - intros ans s' _ (t' & rep & lg & c & a & -> & -> & Hinv & Hsp & Hlog).
    destruct (plain_spec _ _ _ _ _ _ Ho (H4 OnRbtree) Hsp) as (Habs & Hf & Htl & ->). simpl in *.
    split; [split; simpl; try done|].
    + intros []; [apply (H4 OnArray)|apply (H4 OnHash)|apply (H4 OnSkiplist)|done].
    + split; [done|]. split; [done|]. split; [by intros []|]. by exists lg.
Qed.

Lemma wp_message x t :
  admissible K x o →
  wp (kvs_protocol fd peer (message x o)) (λ ans s' _, sound K s' ∧ message_post x o s ans s') E s t.
Proof. destruct x; [apply message_array|apply message_hash|apply message_skiplist|apply message_rbtree]. Qed.
End one_message.

(** ** Running and replaying *)

Abbreviation treq := (target * request)%type.
Implicit Types (J l : list treq).

(** The messages of clients, one after another. *)
Fixpoint run_all (fd : Z) (peer : option Z) l : M (server V) unit :=
  match l with
  | [] => mret tt
  | (x, o) :: l' => _answer ← kvs_protocol fd peer (message x o); run_all fd peer l'
  end.

(** The dictionary of engine [x] after the requests [J]. *)
Fixpoint replayed J x m : dict :=
  match J with
  | [] => m
  | (y, o) :: J' => replayed J' x (if decide (y = x) then plain_apply o m else m)
  end.

Definition messages J : bytes := concat ((λ '(x, o), message x o) <$> J).

Lemma replayed_app J1 J2 x d : replayed (J1 ++ J2) x d = replayed J2 x (replayed J1 x d).
Proof. revert d. induction J1 as [|[y o] J1 IH]; intros d; simpl; [done|]. apply IH. Qed.

Lemma messages_app J1 J2 : messages (J1 ++ J2) = messages J1 ++ messages J2.
Proof. unfold messages. by rewrite fmap_app, concat_app. Qed.

Lemma message_post_dict x o s ans s' y :
  message_post x o s ans s' → dict_of y s' = if decide (x = y) then plain_apply o (dict_of y s) else dict_of y s.
Proof. intros (_ & H1 & H2 & _). case_decide; subst; auto. Qed.

Lemma run_all_spec K E fd peer l s t :
  Z.of_nat (size K) < KVS_ARRAY_SIZE → no_oom E → io_good E → sound K s → recording (sv_aof s) →
  Forall (λ '(x, o), admissible K x o) l →
  wp (run_all fd peer l) (λ _ s' _, sound K s' ∧ ∃ J, J `sublist_of` l ∧
    logs (sv_aof s) (sv_aof s') (messages J) ∧
    (∀ x, dict_of x s' = replayed J x (dict_of x s)) ∧
    (∀ n, ∃ i, ∀ x, replayed (take n J) x (dict_of x s) = replayed (take i l) x (dict_of x s))) E s t.
Proof.
  intros HK HE Hio Hs Hrec Hl. revert s t Hs Hrec.
  induction Hl as [|[x o] l Hxo Hl IH]; intros s t Hs Hrec; simpl; wp_steps.
  { split; [done|]. exists []. split; [done|]. split; [by apply logs_nothing|]. split; [done|].
    intros n. exists 0%nat. by rewrite take_nil. }
  eapply wp_mono; [by apply wp_message with (K := K)|]. intros ans s1 t1 [Hs1 Hpost].
  pose proof Hpost as (_ & _ & _ & lg & Hlog & Hlg).
  eapply wp_mono; [apply IH; [done|by eapply logs_recording]|].
  intros _ s2 t2 (Hs2 & J & HJ & Hlog2 & Hd & Hpre). split; [done|].
  pose proof (logs_trans _ _ _ _ _ Hlog Hlog2) as Hlog'.
  assert (∀ y, dict_of y s1 = if decide (x = y) then plain_apply o (dict_of y s) else dict_of y s) as Hs1y.
  { intros y. by eapply message_post_dict. }
  destruct lg.
  - exists ((x, o) :: J). split; [by constructor|]. split; [done|]. split.
    + intros y. simpl. by rewrite Hd, Hs1y.
    + intros [|n]; [by exists 0%nat|]. destruct (Hpre n) as [i Hi]. exists (S i). intros y. simpl.
      by rewrite <-Hs1y.
  - assert (∀ y, dict_of y s1 = dict_of y s) as Hsame.
    { intros y. destruct (decide (y = x)) as [->|]; [by apply Hlg|]. by apply Hpost. }
    exists J. split; [by constructor|]. split; [done|]. split; [intros y; by rewrite Hd, Hsame|].
    intros n. destruct (Hpre n) as [i Hi]. exists (S i). intros y. simpl.
    by rewrite <-Hs1y, <-Hi, Hsame.
Qed.

Lemma message_encode K x o :
  admissible K x o → ∃ argv, message x o = resp_encode argv ∧ small_command argv.
Proof. intros (_ & _ & _ & Hl & _). destruct x; eexists; (split; [done|]); by apply request_small. Qed.

(** What stops the loop: the end of the file, or something that is no command. *)
Definition no_command (q : bytes) : Prop :=
  q = [] ∨ ∃ ret n, resp_parse_one_command q = Done (ret, n) ∧ ret ≤ 0.

Lemma load_loop_stop q fuel Q E s t :
  no_command q → (length q ≤ fuel)%nat → Q tt s t → wp (aof_load_loop fuel q) Q E s t.
Proof.
  intros [->|(ret & n & Hp & Hr)] Hf HQ; [by destruct fuel|].
  destruct q as [|c q]; [by destruct fuel|]. destruct fuel as [|fuel]; [simpl in Hf; lia|].
  cbn [aof_load_loop]. wp_steps. eapply wp_lift; [exact Hp|]. cbv beta iota. rewrite (proj2 (Z.leb_le _ _)) by done.
  by wp_steps.
Qed.

Lemma load_loop_spec K E J q fuel s t :
  Z.of_nat (size K) < KVS_ARRAY_SIZE → no_oom E → io_good E → sound K s → silent (sv_aof s) →
  Forall (λ '(x, o), admissible K x o) J → no_command q →
  (length (messages J ++ q) ≤ fuel)%nat →
  wp (aof_load_loop fuel (messages J ++ q)) (λ _ s' _, sound K s' ∧ sv_aof s' = sv_aof s ∧
    ∀ x, dict_of x s' = replayed J x (dict_of x s)) E s t.
Proof.
  intros HK HE Hio Hs Hsil HJ Hq. revert fuel s t Hs Hsil.
  induction HJ as [|[x o] J Hxo HJ IH]; intros fuel s t Hs Hsil Hf.
  { by apply load_loop_stop. }
  unfold messages in Hf. rewrite fmap_cons in Hf. cbn [concat] in Hf. rewrite <-app_assoc in Hf.
  unfold messages. rewrite fmap_cons. cbn [concat]. rewrite <-app_assoc. fold (messages J) in Hf |- *.
  destruct (message_encode K x o Hxo) as (argv & Henc & Hsm).
  pose proof (parse_one_encode argv (messages J ++ q) Hsm) as Hp. rewrite <-Henc in Hp.
  pose proof (message_nonempty x o) as Hne. rewrite length_app in Hf.
  destruct (message x o) as [|c msg] eqn:Hmsg; [done|]. destruct fuel as [|fuel]; [simpl in Hf; lia|].
  cbn [aof_load_loop app]. wp_steps. eapply wp_lift; [exact Hp|]. cbn [Z.leb Z.compare]. cbv beta iota.
  rewrite app_comm_cons, take_app_length, drop_app_length, <-Hmsg. wp_steps.
  eapply wp_mono; [apply wp_message with (K := K); try done; by left|]. intros ans s1 t1 [Hs1 Hpost].
  pose proof Hpost as (_ & _ & _ & lg & Hlog & _). apply logs_silent in Hlog; [|done].
  eapply wp_mono; [apply IH; [done|by rewrite Hlog|simpl in Hf; lia]|].
  intros _ s2 t2 (Hs2 & Ha & Hd). split; [done|]. split; [congruence|]. intros y. simpl.
  by rewrite Hd, (message_post_dict _ _ _ _ _ _ Hpost).
Qed.

Lemma sound_put_aof K s a : sound K s → sound K (put_aof a s).
Proof. by intros []. Qed.

Lemma sound_loading K s b :
  sound K s → sound K (put_aof (Aof (a_ring (sv_aof s)) (a_file (sv_aof s)) b (a_on (sv_aof s))) s).
Proof. apply sound_put_aof. Qed.

(** Loading a file that holds the messages [J], then perhaps an incomplete one. *)
Lemma aof_load_spec K E J q s t :
  Z.of_nat (size K) < KVS_ARRAY_SIZE → no_oom E → io_good E → sound K s →
  Forall (λ '(x, o), admissible K x o) J → no_command q → a_file (sv_aof s) = messages J ++ q →
  wp aof_load_file (λ r s' _, r = 0 ∧ sound K s' ∧
    ∀ x, dict_of x s' = replayed J x (dict_of x s)) E s t.
Proof.
  intros HK HE Hio Hs HJ Hq Hfile. unfold aof_load_file. wp_steps.
  destruct (a_file (sv_aof s)) as [|c f] eqn:Hf.
  { wp_steps. destruct J as [|[x o] J]; [done|]. unfold messages in Hfile. simpl in Hfile.
    by destruct (message x o) eqn:Hm; [apply message_nonempty in Hm|]. }
  wp_steps. rewrite HE. cbn [negb]. unfold set_loading, on_aof. wp_steps.
  rewrite Hfile. eapply wp_mono; [eapply load_loop_spec with (K := K); try done; [by apply sound_loading|by left]|].
  intros _ s' t' (Hs' & Ha & Hd). wp_steps. split; [done|]. split; [by apply sound_loading|].
  intros x. by destruct x; [apply (Hd OnArray)|apply (Hd OnHash)|apply (Hd OnSkiplist)|apply (Hd OnRbtree)].
Qed.

(** ** Truncated files *)

(** How many of the messages [J] the first bytes [p] of the file hold completely. *)
Fixpoint whole J (p : bytes) : nat :=
  match J with
  | [] => 0
  | (x, o) :: J' =>
      let n := length (message x o) in
      if decide (n ≤ length p)%nat then S (whole J' (drop n p)) else 0
  end.

Lemma whole_length J p : (whole J p ≤ length J)%nat.
Proof. revert p. induction J as [|[x o] J IH]; intros p; simpl; [done|]. case_decide; [specialize (IH (drop (length (message x o)) p))|]; lia. Qed.

Lemma whole_all J : whole J (messages J) = length J.
Proof.
  induction J as [|[x o] J IH]; [done|]. unfold messages. cbn [whole fmap list_fmap concat length].
  fold (messages J). rewrite decide_True by (rewrite length_app; lia). by rewrite drop_app_length, IH.
Qed.

Lemma truncated_message K x o (q m : bytes) :
  admissible K x o → message x o = q ++ m → m ≠ [] → no_command q.
Proof.
  intros Ha Heq Hm. destruct (message_encode K x o Ha) as (argv & Henc & Hsm). right.
  rewrite Henc in Heq. destruct (parse_one_prefix argv q m Hsm Heq Hm) as (ret & n & Hp & Hr).
  exists ret, n. split; [done|]. destruct (parse_one_return _ _ _ Hp) as [|[|]]; lia.
Qed.

(** A prefix of the messages is the whole messages and something that is none. *)
Lemma messages_prefix K J p r :
  Forall (λ '(x, o), admissible K x o) J → messages J = p ++ r →
  ∃ q, p = messages (take (whole J p) J) ++ q ∧ no_command q.
Proof.
  intros HJ. revert p. induction HJ as [|[x o] J Hxo HJ IH]; intros p Heq.
  { symmetry in Heq. apply app_eq_nil in Heq as [-> _]. exists []. split; [done|by left]. }
  unfold messages in Heq. cbn [fmap list_fmap concat] in Heq. fold (messages J) in Heq. cbn [whole].
  apply app_eq_app in Heq as (k & [[Hm Hr]|[-> Hk]]).
  - destruct k as [|c k].
    + rewrite app_nil_r in Hm. subst p. rewrite decide_True by done. rewrite drop_all.
      destruct (IH [] (eq_sym Hr)) as (q & Hq & Hno). exists q. split; [|done].
      cbn [take]. unfold messages. cbn [fmap list_fmap concat]. fold (messages (take (whole J []) J)).
      by rewrite <-app_assoc, <-Hq, app_nil_r.
    + rewrite decide_False by (rewrite Hm, length_app; simpl; lia). exists p. split; [done|].
      by eapply truncated_message.
  - rewrite decide_True by (rewrite length_app; lia). rewrite drop_app_length.
    destruct (IH k Hk) as (q & Hq & Hno). exists q. split; [|done].
    cbn [take]. unfold messages. cbn [fmap list_fmap concat]. fold (messages (take (whole J k) J)).
    by rewrite <-app_assoc, <-Hq.
Qed.
(** A command torn inside the number of its first line, followed by whole ones, is
    no command. *)
Lemma torn_header_no_command K J n (q m : bytes) :
  0 ≤ n ≤ INT_MAX → STAR :: dec n = q ++ m → q ≠ [] → Forall (λ '(x, o), admissible K x o) J →
  no_command (q ++ messages J).
Proof.
  intros Hn Hq Hne HJ. destruct q as [|c d]; [done|]. injection Hq as <- Hd.
  pose proof (dec_digits n ltac:(lia)) as Hdig. rewrite Hd in Hdig. apply Forall_app in Hdig as [Hd1 Hd2].
  pose proof (numeral_dec n ltac:(lia)) as Hv. rewrite Hd, numeral_app in Hv.
  pose proof (numeral_mono 0 d Hd1 ltac:(lia)) as H0. pose proof (numeral_mono _ m Hd2 H0) as Hle.
  right. unfold resp_parse_one_command. cbn [app]. rewrite decide_True by done.
  assert (∃ r, messages J = r ∧ match r with [] => True | c :: _ => c = STAR end) as (r & Hr & Hhead).
  { eexists. split; [done|]. destruct HJ as [|[x o] J Hxo HJ]; [done|].
    destruct (message_encode K x o Hxo) as (argv & Henc & _). unfold messages. cbn [fmap list_fmap concat].
    by rewrite Henc. }
  rewrite Hr, parse_digits_app; [|done|done|lia|by destruct r; subst].
  destruct r as [|c r]; [by exists 0, 0%nat|]. subst c. exists 0, 0%nat. split; [|done].
  by destruct r as [|c r]; cbn; [|rewrite decide_False by (by intros [[=] _])].
Qed.
End recovery.

(** ** Theorems *)

(** Recovery. A server that starts empty, serves any sequence of requests
    without expiry on the four engines, and whose journal then reaches the file
    completely, is reproduced exactly: loading the file into a fresh server gives
    every engine the dictionary the first server had at the end. *)
Theorem aof_recovery {V} `{VectorOps V} K E fd peer l (s0 : server V) t :
  Z.of_nat (size K) < KVS_ARRAY_SIZE → no_oom E → io_good E →
  sound K s0 → (∀ x, dict_of x s0 = ∅) → journal (sv_aof s0) [] →
  Forall (λ '(x, o), admissible (V := V) K x o) l →
  wp (run_all fd peer l) (λ _ s1 _, ∃ L, journal (sv_aof s1) L ∧
    ∀ (s2 : server V) t2, sound K s2 → (∀ x, dict_of x s2 = ∅) → a_file (sv_aof s2) = L →
      wp aof_load_file (λ r s3 _, r = 0 ∧ ∀ x, dict_of x s3 = dict_of x s1) E s2 t2) E s0 t.
Proof.
  intros HK HE Hio Hs0 He0 HJ Hl.
  eapply wp_mono; [apply (run_all_spec K); try done; right; by exists []|].
  intros _ s1 t1 (Hs1 & J & Hsub & Hlog & Hd & _). exists (messages (V := V) J).
  split; [exact (logs_journal _ _ _ [] Hlog HJ)|]. intros s2 t2 Hs2 He2 Hf.
  assert (Forall (λ '(x, o), admissible (V := V) K x o) J) as HJ'.
  { by eapply sublist_Forall. }
  eapply wp_mono; [apply (aof_load_spec K E J []); try done; [by left|by rewrite app_nil_r]|].
  intros r s3 t3 (-> & _ & Hd3). split; [done|]. intros x. by rewrite Hd3, Hd, He2, He0.
Qed.

(** C5: recovery after a crash. A server that starts empty serves any plain requests
    (SET, GET, DEL, MOD and EXIST, on the four engines, without expiry; C strings
    whose lengths fit an int, ASCII keys for the hash table, fewer keys than the
    array has room for), and no malloc or append fails. The journal is then the
    messages of the requests [J] that changed something, and [J] produces the
    dictionaries of the server. Whatever prefix [p] of the journal reached the file,
    torn in the middle of a command or not, loading it completes and restores
    exactly what the commands that [p] holds completely produce, which is the state
    after some prefix of the requests; when [p] is the whole journal, that is the
    state of the server at the end. *)
Theorem aof_crash_recovery {V} `{VectorOps V} K E fd peer l (s0 : server V) t :
  Z.of_nat (size K) < KVS_ARRAY_SIZE → no_oom E → io_good E →
  sound K s0 → (∀ x, dict_of x s0 = ∅) → journal (sv_aof s0) [] →
  Forall (λ '(x, o), admissible (V := V) K x o) l →
  wp (run_all fd peer l) (λ _ s1 _, ∃ J, J `sublist_of` l ∧ journal (sv_aof s1) (messages (V := V) J) ∧
    (∀ x, dict_of x s1 = replayed J x ∅) ∧ whole (V := V) J (messages (V := V) J) = length J ∧
    ∀ p rest (s2 : server V) t2, messages (V := V) J = p ++ rest →
      sound K s2 → (∀ x, dict_of x s2 = ∅) → a_file (sv_aof s2) = p →
      wp aof_load_file (λ r s3 _, r = 0 ∧
        (∀ x, dict_of x s3 = replayed (take (whole (V := V) J p) J) x ∅) ∧
        ∃ i, ∀ x, dict_of x s3 = replayed (take i l) x ∅) E s2 t2) E s0 t.
Proof.
  intros HK HE Hio Hs0 He0 HJ Hl.
  eapply wp_mono; [apply (run_all_spec K); try done; right; by exists []|].
  intros _ s1 t1 (Hs1 & J & Hsub & Hlog & Hd & Hpre). exists J. split; [done|].
  split; [exact (logs_journal _ _ _ [] Hlog HJ)|]. split; [intros x; by rewrite Hd, He0|].
  split; [apply whole_all|]. intros p rest s2 t2 Hp Hs2 He2 Hf.
  assert (Forall (λ '(x, o), admissible (V := V) K x o) J) as HJ'.
  { by eapply sublist_Forall. }
  destruct (messages_prefix K J p rest HJ' Hp) as (q & Hpq & Hq).
  eapply wp_mono; [apply (aof_load_spec K E (take (whole (V := V) J p) J) q); try done; [by apply Forall_take|by rewrite Hf]|].
  intros r s3 t3 (-> & _ & Hd3). split; [done|]. split; [intros x; by rewrite Hd3, He2|].
  destruct (Hpre (whole (V := V) J p)) as [i Hi]. exists i. intros x.
  specialize (Hi x). rewrite He0 in Hi. by rewrite Hd3, He2.
Qed.

(** C36: a file is only ever appended to. When the last command of one process was
    torn inside the number of its first line, everything the later processes log
    behind it is ignored at every start: loading restores the commands before the
    tear and nothing after. (The commands are plain requests without expiry, within
    the sizes of [admissible], and no malloc fails.) *)
Theorem torn_tail_hides {V} `{VectorOps V} K E J J' n q m (s : server V) t :
  Z.of_nat (size K) < KVS_ARRAY_SIZE → no_oom E → io_good E → sound K s →
  Forall (λ '(x, o), admissible (V := V) K x o) J → Forall (λ '(x, o), admissible (V := V) K x o) J' →
  0 ≤ n ≤ INT_MAX → STAR :: dec n = q ++ m → q ≠ [] →
  a_file (sv_aof s) = messages (V := V) J ++ q ++ messages (V := V) J' →
  wp aof_load_file (λ r s' _, r = 0 ∧ ∀ x, dict_of x s' = replayed J x (dict_of x s)) E s t.
Proof.
  intros HK HE Hio Hs HJ HJ' Hn Hq Hne Hf.
  eapply wp_mono; [apply (aof_load_spec K E J (q ++ messages (V := V) J')); [done..| |done]; by eapply torn_header_no_command|].
  by intros r s' t' (-> & _ & Hd).
Qed.

(** Two requests to the array, and one to the red-black tree. *)
Definition three_requests : list (target * request) :=
  [(OnArray, RSet (lit "k") (lit "v")); (OnRbtree, RSet (lit "k") (lit "v")); (OnArray, RDel (lit "k"))].

Lemma fresh_sound : sound {[lit "k"]} fresh ∧ (∀ x, dict_of x fresh = ∅) ∧ journal (sv_aof fresh) [].
Proof.
  destruct fresh_ok as ([Ha Hh Hk Hr Hv (Hea & Heh & Hek & Her)] & Hj & Hc & _).
  assert (rb_inv (sv_rbtree fresh)) as Hr'.
  { split; [done|]. rewrite Her. split; [apply clean_empty|]. intros k p e. by rewrite lookup_empty. }
  assert (∀ x, dict_of x fresh = ∅) as He by (intros []; done).
  split; [|done]. split; [done..| | |left; by rewrite Hc].
  - intros x k p e. by rewrite He.
  - rewrite He. set_solver.
Qed.

Lemma three_admissible : Forall (λ '(x, o), admissible (V := unit) {[lit "k"]} x o) three_requests.
Proof.
  assert (∀ a, a ∈ [lit "k"; lit "v"] → NUL ∉ a) as Hnul.
  { pose proof k_v_strings as Hkv. by rewrite Forall_forall in Hkv. }
  repeat apply Forall_cons_2; [..|by constructor];
    (split_and!; [constructor|repeat (apply Forall_cons_2 || apply Forall_nil_2); apply Hnul; set_solver
                 |repeat constructor; by vm_compute|by vm_compute|simpl; try done; set_solver]).
Qed.

Lemma aof_recovery_witness :
  wp (run_all 5 None three_requests) (λ _ s1 _, ∃ L, journal (sv_aof s1) L ∧
    ∀ (s2 : server unit) t2, sound {[lit "k"]} s2 → (∀ x, dict_of x s2 = ∅) → a_file (sv_aof s2) = L →
      wp aof_load_file (λ r s3 _, r = 0 ∧ ∀ x, dict_of x s3 = dict_of x s1) calm s2 t2) calm fresh 0.
Proof.
  destruct fresh_sound as (Hs & He & Hj).
  apply (aof_recovery {[lit "k"]} calm 5 None three_requests fresh 0); try done.
  exact three_admissible.
Defined.

Lemma aof_crash_recovery_witness :
  wp (run_all 5 None three_requests) (λ _ s1 _, ∃ J, J `sublist_of` three_requests ∧ journal (sv_aof s1) (messages (V := unit) J) ∧
    (∀ x, dict_of x s1 = replayed J x ∅) ∧ whole (V := unit) J (messages (V := unit) J) = length J ∧
    ∀ p rest (s2 : server unit) t2, messages (V := unit) J = p ++ rest →
      sound {[lit "k"]} s2 → (∀ x, dict_of x s2 = ∅) → a_file (sv_aof s2) = p →
      wp aof_load_file (λ r s3 _, r = 0 ∧
        (∀ x, dict_of x s3 = replayed (take (whole (V := unit) J p) J) x ∅) ∧
        ∃ i, ∀ x, dict_of x s3 = replayed (take i three_requests) x ∅)
        calm s2 t2) calm fresh 0.
Proof.
  destruct fresh_sound as (Hs & He & Hj).
  apply (aof_crash_recovery {[lit "k"]} calm 5 None three_requests fresh 0); try done.
  exact three_admissible.
Defined.

(** A server that finds a torn command and three whole ones. *)
Definition torn_server : server unit :=
  put_aof (Aof (a_ring (sv_aof fresh)) (lit "*3" ++ messages (V := unit) three_requests) false true) fresh.

Lemma torn_server_sound : sound {[lit "k"]} torn_server.
Proof. apply sound_put_aof, fresh_sound. Qed.

Lemma torn_tail_hides_witness :
  wp aof_load_file (λ r s' _, r = 0 ∧ ∀ x, dict_of x s' = replayed [] x (dict_of x torn_server)) calm torn_server 0.
Proof.
  apply (torn_tail_hides {[lit "k"]} calm [] three_requests 3 (lit "*3") []);
    [done|done|done|exact torn_server_sound|by constructor|exact three_admissible|done|done|done|reflexivity].
Defined.
