(* ===== verification/Reactor.v ===== *)
(** * The network loop (reactor.c)

    The table of connections, the callbacks of the descriptors and the body of the
    event loop. The system's side of a socket is the data that has arrived and is
    unread, the data the server has sent, and the entry in the epoll set. The
    callback [g_network_callback] is [kvs_protocol]. *)

From S2P Require Import Prelude Resp KvsConfig KvSpec Aof Server Rdb KvsCommand Recovery.

Definition CONNECTION_SIZE : Z := 1024.
Definition BUF_INIT : Z := 4 * 1024 * 1024.

(** ** State *)

Inductive callback := accept_callback | recv_callback | send_callback.

(** struct conn. A buffer is the bytes it holds up to its length; [None] is NULL. *)
Record conn := Conn {
  cn_fd            : Z;
  cn_rbuffer       : option bytes;
  cn_rbuf_size     : Z;
  cn_rparse_offset : nat;
  cn_wbuffer       : option bytes;
  cn_wbuf_size     : Z;
  cn_woffset       : nat;
  cn_send          : option callback;
  cn_recv          : option callback
}.

Definition conn0 : conn := Conn 0 None 0 0 None 0 0 None None.

Definition rdata (c : conn) : bytes := match cn_rbuffer c with Some b => b | None => [] end.
Definition wdata (c : conn) : bytes := match cn_wbuffer c with Some b => b | None => [] end.
Definition rlength (c : conn) : Z := strlen (rdata c).
Definition wlength (c : conn) : Z := strlen (wdata c).

(** The system's side: [k_interest] is the entry in the epoll set, EPOLLIN and
    EPOLLOUT. *)
Record sock := Sock {
  k_in       : bytes;
  k_out      : bytes;
  k_interest : option (bool * bool)
}.

Record reactor (V : Type) := React {
  r_conns   : gmap Z conn;      (* conn_list *)
  r_socks   : gmap Z sock;
  r_backlog : list Z;           (* the descriptors accept returns *)
  r_server  : server V
}.
Arguments React {V}. Arguments r_conns {V}. Arguments r_socks {V}. Arguments r_backlog {V}. Arguments r_server {V}.

Section reactor.
Context {V : Type} `{VectorOps V} (peer_of : Z → option Z).

Abbreviation R := (M (reactor V)).

Definition conn_fd_valid (fd : Z) : bool := (fd >=? 0) && (fd <? CONNECTION_SIZE).

Definition get_conn (fd : Z) : R conn := gets (λ r, default conn0 (r_conns r !! fd)).
Definition put_conn (fd : Z) (c : conn) : R unit :=
  modify (λ r, React (<[fd := c]> (r_conns r)) (r_socks r) (r_backlog r) (r_server r)).
Definition get_sock (fd : Z) : R (option sock) := gets (λ r, r_socks r !! fd).
Definition put_sock (fd : Z) (k : sock) : R unit :=
  modify (λ r, React (r_conns r) (<[fd := k]> (r_socks r)) (r_backlog r) (r_server r)).
Definition on_server {A} (m : M (server V) A) : R A :=
  zoom r_server (λ s r, React (r_conns r) (r_socks r) (r_backlog r) s) m.

(** close (fd): the descriptor leaves the epoll set with it. *)
Definition close_fd (fd : Z) : R unit :=
  modify (λ r, React (r_conns r) (delete fd (r_socks r)) (r_backlog r) (r_server r)).

Definition close_conn (fd : Z) : R unit :=
  if negb (conn_fd_valid fd) then (if fd >=? 0 then close_fd fd else mret tt) else
  put_conn fd conn0;;
  close_fd fd.

(** epoll_ctl: ADD of a descriptor in the set and MOD of one outside fail. *)
Definition set_event (fd : Z) (ein eout : bool) (flag : bool) : R Z :=
  if negb (conn_fd_valid fd) then mret (-1) else
  k ← get_sock fd;
  match k with
  | None => mret (-1)
  | Some k =>
      if decide (is_Some (k_interest k)) then
        if flag then mret (-1) else put_sock fd (Sock (k_in k) (k_out k) (Some (ein, eout)));; mret 0
      else
        if flag then put_sock fd (Sock (k_in k) (k_out k) (Some (ein, eout)));; mret 0 else mret (-1)
  end.

Definition event_register (fd : Z) (ein : bool) : R Z :=
  if negb (conn_fd_valid fd) then (if fd >=? 0 then close_fd fd else mret tt);; mret (-1) else
  ok1 ← kvs_malloc;
  ok2 ← kvs_malloc;
  put_conn fd (Conn fd (if ok1 : bool then Some [] else None) BUF_INIT 0
                    (if ok2 : bool then Some [] else None) BUF_INIT 0 (Some send_callback) (Some recv_callback));;
  r ← set_event fd ein false true;
  if negb (r =? 0) then close_conn fd;; mret (-1) else mret 0.

Definition accept_cb (fd : Z) : R Z :=
  backlog ← gets r_backlog;
  match backlog with
  | [] => mret (-1)
  | clientfd :: rest =>
      modify (λ r, React (r_conns r) (<[clientfd := Sock [] [] None]> (r_socks r)) rest (r_server r));;
      r ← event_register clientfd true;
      if negb (r =? 0) then mret (-1) else mret 0
  end.

(** send: [None] for an error other than EAGAIN, [Some 0] for EAGAIN. *)
Definition send (fd : Z) (data : bytes) : R (option nat) :=
  k ← get_sock fd;
  granted ← ask_send;
  match k, granted with
  | Some k, Some n =>
      put_sock fd (Sock (k_in k) (k_out k ++ take n data) (k_interest k));;
      mret (Some (length (take n data)))
  | _, _ => mret None
  end.

Definition send_cb (fd : Z) : R Z :=
  if negb (conn_fd_valid fd) then mret (-1) else
  c ← get_conn fd;
  if wlength c =? 0 then mret 0 else
  r ← send fd (drop (cn_woffset c) (wdata c));
  match r with
  | None => close_conn fd;; mret (-1)
  | Some O => _r ← set_event fd true true false; mret 0
  | Some n =>
      let woffset := (cn_woffset c + n)%nat in
      (if Z.of_nat woffset >=? wlength c then
         put_conn fd (Conn (cn_fd c) (cn_rbuffer c) (cn_rbuf_size c) (cn_rparse_offset c)
                           (option_map (λ _, []) (cn_wbuffer c)) (cn_wbuf_size c) 0 (cn_send c) (cn_recv c));;
         set_event fd true false false
       else
         put_conn fd (Conn (cn_fd c) (cn_rbuffer c) (cn_rbuf_size c) (cn_rparse_offset c)
                           (cn_wbuffer c) (cn_wbuf_size c) woffset (cn_send c) (cn_recv c));;
         set_event fd true true false);;
      mret (Z.of_nat n)
  end.

(** Room in the receive buffer: [false] when malloc fails. *)
Definition grow_rbuffer (fd : Z) : R bool :=
  c ← get_conn fd;
  if rlength c >=? u64 (cn_rbuf_size c - 1) then
    ok ← kvs_malloc;
    if negb ok then mret false else
    put_conn fd (Conn (cn_fd c) (Some (rdata c)) (u64 (cn_rbuf_size c * 2)) (cn_rparse_offset c)
                      (cn_wbuffer c) (cn_wbuf_size c) (cn_woffset c) (cn_send c) (cn_recv c));;
    mret true
  else mret true.

(** recv into a buffer with room for [room] bytes: nothing at the end of the
    stream, and when the buffer is NULL. *)
Definition recv (fd : Z) (buf : option bytes) (room : Z) : R bytes :=
  k ← get_sock fd;
  n ← ask_recv;
  match k, buf with
  | Some k, Some _ =>
      let n := (max 1 n `min` Z.to_nat room)%nat in
      put_sock fd (Sock (drop n (k_in k)) (k_out k) (k_interest k));;
      mret (take n (k_in k))
  | _, _ => mret []
  end.

(** Appending a reply to the send buffer: [false] when malloc fails. *)
Definition append_reply (fd : Z) (resp : bytes) : R bool :=
  c ← get_conn fd;
  total ← checked32 (wlength c + strlen resp);
  grown ← (if total >? cn_wbuf_size c then
             let new_size := u64 (cn_wbuf_size c * 2) in
             let new_size := if new_size <? total then total else new_size in
             ok ← kvs_malloc;
             if negb ok then mret None else mret (Some (Some (wdata c), new_size))
           else mret (Some (cn_wbuffer c, cn_wbuf_size c)));
  match grown with
  | None => mret false
  | Some (None, _) => fail NullDeref
  | Some (Some wb, size) =>
      put_conn fd (Conn (cn_fd c) (cn_rbuffer c) (cn_rbuf_size c) (cn_rparse_offset c)
                        (Some (wb ++ resp)) size (cn_woffset c) (cn_send c) (cn_recv c));;
      mret true
  end.

Definition advance (fd : Z) (cmd_len : nat) : R unit :=
  c ← get_conn fd;
  put_conn fd (Conn (cn_fd c) (cn_rbuffer c) (cn_rbuf_size c) (cn_rparse_offset c + cmd_len)
                    (cn_wbuffer c) (cn_wbuf_size c) (cn_woffset c) (cn_send c) (cn_recv c)).

(** while (1): [true] when it ends with break, [false] when recv_cb returns -1.
    Every command consumes input, so the length of the buffer bounds the iterations. *)
Fixpoint recv_loop (fuel : nat) (fd : Z) : R bool :=
  c ← get_conn fd;
  let buf := drop (cn_rparse_offset c) (rdata c) in
  match buf with
  | [] => mret true
  | _ =>
      match fuel with
      | O => fail OutOfFuel
      | S fuel' =>
          '(ret, cmd_len) ← lift (resp_parse_one_command buf);
          if ret =? 1 then
            '(resp_len, resp_buf) ← on_server (kvs_protocol fd (peer_of fd) (take cmd_len buf));
            match resp_buf with
            | Some resp =>
                if resp_len >? 0 then
                  ok ← append_reply fd resp;
                  if negb ok then close_conn fd;; mret false
                  else advance fd cmd_len;; recv_loop fuel' fd
                else if resp_len <? 0 then close_conn fd;; mret false
                else advance fd cmd_len;; recv_loop fuel' fd
            | None =>
                if resp_len <? 0 then close_conn fd;; mret false
                else advance fd cmd_len;; recv_loop fuel' fd
            end
          else if ret =? 0 then mret true
          else mret false
      end
  end.

(** The unparsed rest moves to the front. *)
Definition compact (fd : Z) : R unit :=
  c ← get_conn fd;
  if (0 <? cn_rparse_offset c)%nat then
    put_conn fd (Conn (cn_fd c) (option_map (drop (cn_rparse_offset c)) (cn_rbuffer c)) (cn_rbuf_size c) 0
                      (cn_wbuffer c) (cn_wbuf_size c) (cn_woffset c) (cn_send c) (cn_recv c))
  else mret tt.

Definition recv_cb (fd : Z) : R Z :=
  if negb (conn_fd_valid fd) then mret (-1) else
  ok ← grow_rbuffer fd;
  if negb ok then close_conn fd;; mret (-1) else
  c ← get_conn fd;
  data ← recv fd (cn_rbuffer c) (u64 (cn_rbuf_size c - rlength c - 1));
  match data with
  | [] => close_conn fd;; mret (-1)
  | _ =>
      _rlength ← checked32 (rlength c + strlen data);
      put_conn fd (Conn (cn_fd c) (Some (rdata c ++ data)) (cn_rbuf_size c) (cn_rparse_offset c)
                        (cn_wbuffer c) (cn_wbuf_size c) (cn_woffset c) (cn_send c) (cn_recv c));;
      done ← recv_loop (length (rdata c ++ data)) fd;
      if negb done then mret (-1) else
      compact fd;;
      c ← get_conn fd;
      (if wlength c >? 0 then _r ← send_cb fd; mret tt else mret tt);;
      mret (strlen data)
  end.

Definition run_callback (cb : option callback) (fd : Z) : R unit :=
  match cb with
  | None => mret tt
  | Some accept_callback => _r ← accept_cb fd; mret tt
  | Some recv_callback => _r ← recv_cb fd; mret tt
  | Some send_callback => _r ← send_cb fd; mret tt
  end.

(** The body of the loop over the events epoll_wait returns. *)
Definition dispatch (fd : Z) (ein eout : bool) : R unit :=
  if negb (conn_fd_valid fd) then mret tt else
  (if ein then c ← get_conn fd; run_callback (cn_recv c) fd else mret tt);;
  (if eout then c ← get_conn fd; run_callback (cn_send c) fd else mret tt).

(** ** Histories of one connection

    Data arrives from the peer, and epoll_wait reports the descriptor readable,
    which needs unread data, or writable. *)

Inductive event := Arrive (data : bytes) | Readable | Writable.

Definition arrive (fd : Z) (data : bytes) : R unit :=
  k ← get_sock fd;
  match k with
  | None => mret tt
  | Some k => put_sock fd (Sock (k_in k ++ data) (k_out k) (k_interest k))
  end.

Definition run_event (fd : Z) (ev : event) : R unit :=
  match ev with
  | Arrive data => arrive fd data
  | Readable =>
      k ← get_sock fd;
      match k with
      | Some (Sock (_ :: _) _ _) => dispatch fd true false
      | _ => mret tt
      end
  | Writable => dispatch fd false true
  end.

Fixpoint run_events (fd : Z) (evs : list event) : R unit :=
  match evs with
  | [] => mret tt
  | ev :: evs' => run_event fd ev;; run_events fd evs'
  end.
End reactor.

Fixpoint arrivals (evs : list event) : bytes :=
  match evs with
  | [] => []
  | Arrive data :: evs' => data ++ arrivals evs'
  | _ :: evs' => arrivals evs'
  end.
