(* ===== verification/ReactorSpec.v ===== *)
(** * What a client of the network loop sees

    Requests arrive in pieces of any size, and the system takes the replies in
    pieces of any size. Whatever the cuts and the order of events, the requests are
    executed once each in the order they were sent and the replies go out in that
    order. *)

From S2P Require Import Prelude Resp Cstdlib KvsConfig KvSpec KvsArray KvsHash KvsSkiplist KvsRbtree RbtreeEngine Aof Server Boot Rdb KvsCommand CommandSpec Recovery Reactor.

Section answers.
Context {V : Type} `{VectorOps V}.
Implicit Types (J : list (target * request)) (m : target → dict).

(** The replies to the requests [J] of a server that holds [m]. *)
Fixpoint answers J m : bytes :=
  match J with
  | [] => []
  | (x, o) :: J' => plain_answer o (m x) ++ answers J' (λ y, if decide (x = y) then plain_apply o (m y) else m y)
  end.

Lemma answers_ext J m m' : (∀ x, m x = m' x) → answers J m = answers J m'.
Proof.
  revert m m'. induction J as [|[x o] J IH]; intros m m' Hm; simpl; [done|]. rewrite Hm. f_equal.
  apply IH. intros y. by rewrite Hm.
Qed.

Lemma answers_app J1 J2 m : answers (J1 ++ J2) m = answers J1 m ++ answers J2 (λ x, replayed J1 x (m x)).
Proof.
  revert m. induction J1 as [|[x o] J1 IH]; intros m; simpl; [done|]. by rewrite IH, <-app_assoc.
Qed.

Lemma plain_answer_nonempty o d : plain o → plain_answer o d ≠ [].
Proof.
  intros []; simpl; try done.
  - destruct (d !! k) as [[[] ?]|]; done.
  - by destruct (d !! k).
  - by destruct (d !! k).
  - by destruct (d !! k).
Qed.

Lemma messages_cons x o J : messages (V := V) ((x, o) :: J) = message (V := V) x o ++ messages (V := V) J.
Proof. done. Qed.
Lemma messages_one x o : messages (V := V) [(x, o)] = message (V := V) x o.
Proof. unfold messages. simpl. apply app_nil_r. Qed.
End answers.

(** ** One connection *)

(** No send fails for good. *)
Definition net_good (E : env) : Prop := ∀ t, is_Some (send_n E t).

Section serving.
Context {V : Type} `{VectorOps V} (peer_of : Z → option Z).
Context (K : gset bytes) (E : env) (fd : Z) (l : list (target * request)) (m0 : target → dict).
Hypotheses (HK : Z.of_nat (size K) < KVS_ARRAY_SIZE) (HE : no_oom E) (Hio : io_good E) (Hnet : net_good E).
Hypotheses (Hfd : conn_fd_valid fd = true) (Hl : Forall (λ '(x, o), admissible (V := V) K x o) l).
Hypotheses (Hlen : strlen (messages (V := V) l) < INT_MAX) (Hans : strlen (answers l m0) ≤ INT_MAX).

Implicit Types (r : reactor V) (p q : bytes) (n : nat).

(** The connection after [n] requests: [x] has been parsed and [q] not, the write
    buffer holds [w], of which [wo] bytes have been sent. *)
Record conn_ok (c : conn) (x q w : bytes) (wo : nat) : Prop := {
  co_rbuf : cn_rbuffer c = Some (x ++ q);
  co_off : cn_rparse_offset c = length x;
  co_rsize : 2 ≤ cn_rbuf_size c ≤ 2 ^ 34 ∧ strlen (x ++ q) < cn_rbuf_size c;
  co_wbuf : cn_wbuffer c = Some w;
  co_woff : cn_woffset c = wo ∧ (wo ≤ length w)%nat;
  co_wsize : 0 < cn_wbuf_size c ≤ 2 ^ 34;
  co_cb : cn_recv c = Some recv_callback ∧ cn_send c = Some send_callback
}.

(** [p] has arrived, [n] requests have been executed, [q] is in the buffer. *)
Record serving r p n q : Prop := {
  se_conn : ∃ c k x w wo, r_conns r !! fd = Some c ∧ r_socks r !! fd = Some k ∧ conn_ok c x q w wo ∧
    is_Some (k_interest k) ∧ (length x ≤ length (messages (V := V) (take n l)))%nat ∧
    (wo ≤ length (k_out k))%nat ∧
    p = messages (V := V) (take n l) ++ q ++ k_in k ∧
    k_out k ++ drop wo w = answers (take n l) m0;
  se_sound : sound K (r_server r);
  se_rec : recording (sv_aof (r_server r));
  se_dict x : dict_of x (r_server r) = replayed (take n l) x (m0 x);
  se_bound : (n ≤ length l)%nat
}.

(** Less than one request is left in the buffer. *)
Definition short n q : Prop :=
  match l !! n with Some (x, o) => (length q < length (message (V := V) x o))%nat | None => q = [] end.

Lemma checked_len z s t (Q : Z → reactor V → nat → Prop) :
  0 ≤ z ≤ INT_MAX → Q z s t → wp (checked32 z) Q E s t.
Proof. intros Hz. apply wp_checked32. unfold INT_MIN. lia. Qed.

Lemma u64_small z : 0 ≤ z < 2 ^ 64 → u64 z = z.
Proof. intros Hz. unfold u64. by apply Z.mod_small. Qed.

(** ** Sending *)

Lemma set_event_ok r k ein eout t (Q : Z → reactor V → nat → Prop) :
  r_socks r !! fd = Some k → is_Some (k_interest k) →
  Q 0 (React (r_conns r) (<[fd := Sock (k_in k) (k_out k) (Some (ein, eout))]> (r_socks r)) (r_backlog r) (r_server r)) t →
  wp (set_event fd ein eout false) Q E r t.
Proof.
  intros Hk Hi HQ. unfold set_event, get_sock, put_sock. rewrite Hfd. cbn [negb]. wp_steps. rewrite Hk.
  rewrite decide_True by done. by wp_steps.
Qed.

Lemma send_cb_ok r p n q t :
  serving r p n q → wp (send_cb fd) (λ _ r' _, serving r' p n q) E r t.
Proof.
  intros Hs. pose proof Hs as [(c & k & x & w & wo & Hc & Hk & Hco & Hi & Hx & Hwo & Hp & Ha) H1 H2 H3 H4].
  unfold send_cb. rewrite Hfd. cbn [negb]. unfold get_conn. wp_steps. rewrite Hc. simpl.
  destruct (wlength c =? 0); wp_steps; [done|]. unfold send, get_sock, put_sock. wp_steps. rewrite Hk.
  destruct (Hnet t) as [g Hg]. rewrite Hg. wp_steps. cbn [r_conns r_socks r_backlog r_server].
  pose proof Hco as [Hrb Hoff Hrs Hwb [Hwoff Hwol] Hws Hcb]. unfold wdata. rewrite Hwb, Hwoff.
  set (sent := take g (drop wo w)).
  assert (k_out k ++ sent ++ drop (wo + length sent) w = answers (take n l) m0) as Ha'.
  { rewrite <-Ha. f_equal. rewrite <-(take_drop (length sent) (drop wo w)), drop_drop. f_equal.
    unfold sent. rewrite length_take. destruct (decide (g ≤ length (drop wo w))%nat).
    - by rewrite Nat.min_l.
    - rewrite Nat.min_r by lia. by rewrite !take_ge by lia. }
  assert (length sent ≤ length w - wo)%nat as Hsl.
  { unfold sent. rewrite length_take, length_drop. lia. }
  destruct (length sent) as [|g'] eqn:Hsent.
  - wp_steps. eapply set_event_ok; [apply lookup_insert_eq|done|]. wp_steps.
    split; simpl; [|done..].
    eexists c, _, x, w, wo. split_and!; [done|by rewrite lookup_insert_eq|done|done|done| |done|].
    + simpl. rewrite length_app. lia.
    + simpl. rewrite <-app_assoc. rewrite Nat.add_0_r in Ha'. exact Ha'.
  - wp_steps. unfold put_conn.
    destruct (Z.of_nat (wo + S g') >=? wlength c) eqn:Hall; wp_steps.
    + eapply set_event_ok; [apply lookup_insert_eq|done|]. wp_steps. split; simpl; [|done..].
      eexists _, _, x, [], 0%nat. split_and!; [apply lookup_insert_eq|by rewrite lookup_insert_eq| |done|done|simpl; lia|done|].
      * by split; simpl; rewrite ?Hwb.
      * simpl. rewrite app_nil_r, <-Ha'. f_equal. unfold wlength, wdata, strlen in Hall. rewrite Hwb, Z.geb_leb, Z.leb_le in Hall.
        rewrite drop_ge by lia. by rewrite app_nil_r.
    + eapply set_event_ok; [apply lookup_insert_eq|done|]. wp_steps. split; simpl; [|done..].
      eexists _, _, x, w, (wo + S g')%nat. split_and!; [apply lookup_insert_eq|by rewrite lookup_insert_eq| |done|done| |done|].
      * split; simpl; try done. split; [done|lia].
      * simpl. rewrite length_app. lia.
      * simpl. by rewrite <-app_assoc.
Qed.

(** ** The parse loop *)

(** What the buffer starts with when a prefix of the stream has arrived. *)
Lemma next_request p n q kin rest :
  p = messages (V := V) (take n l) ++ q ++ kin → messages (V := V) l = p ++ rest → (n ≤ length l)%nat →
  q = [] ∨ ∃ x o, l !! n = Some (x, o) ∧
    ((∃ q', q = message (V := V) x o ++ q') ∨ (∃ m, message (V := V) x o = q ++ m ∧ m ≠ [])).
Proof.
  intros -> Hm Hn. rewrite <-(take_drop n l) in Hm at 1. rewrite messages_app, <-!app_assoc in Hm.
  apply app_inv_head in Hm. destruct (drop n l) as [|[x o] l'] eqn:Hd.
  { left. symmetry in Hm. by apply app_eq_nil in Hm as [-> _]. }
  assert (l !! n = Some (x, o)) as Hln.
  { rewrite <-(Nat.add_0_r n), <-lookup_drop, Hd. done. }
  rewrite messages_cons in Hm. apply app_eq_app in Hm as (k & [[H1 H2]|[H1 H2]]).
  - destruct k as [|b k].
    + right. exists x, o. split; [done|]. left. exists []. by rewrite !app_nil_r in *.
    + right. exists x, o. split; [done|]. right. by exists (b :: k).
  - right. exists x, o. split; [done|]. left. by exists k.
Qed.

Lemma take_next n x o : l !! n = Some (x, o) → take (S n) l = take n l ++ [(x, o)].
Proof. intros Hn. by apply take_S_r. Qed.

(** A request that fits leaves room for its reply. *)
Lemma answers_bound n x o :
  l !! n = Some (x, o) →
  strlen (answers (take n l) m0) + strlen (plain_answer o (replayed (take n l) x (m0 x))) ≤ INT_MAX.
Proof.
  intros Hn. rewrite <-(take_drop (S n) l) in Hans. rewrite (take_next _ _ _ Hn), <-app_assoc, answers_app in Hans.
  simpl in Hans. unfold strlen in *. rewrite !length_app in Hans. lia.
Qed.

Lemma append_reply_ok r c w resp t (Q : bool → reactor V → nat → Prop) :
  r_conns r !! fd = Some c → cn_wbuffer c = Some w → 0 < cn_wbuf_size c ≤ 2 ^ 34 →
  strlen w + strlen resp ≤ INT_MAX →
  (∀ t' size, 0 < size ≤ 2 ^ 34 →
     Q true (React (<[fd := Conn (cn_fd c) (cn_rbuffer c) (cn_rbuf_size c) (cn_rparse_offset c)
        (Some (w ++ resp)) size (cn_woffset c) (cn_send c) (cn_recv c)]> (r_conns r)) (r_socks r) (r_backlog r) (r_server r)) t') →
  wp (append_reply fd resp) Q E r t.
Proof.
  intros Hc Hw Hsz Hb HQ. unfold append_reply, get_conn, put_conn. wp_steps. rewrite Hc. simpl.
  unfold wlength, wdata. rewrite Hw.
  pose proof (strlen_nonneg w). pose proof (strlen_nonneg resp).
  apply checked_len; [lia|]. wp_steps. destruct (_ >? cn_wbuf_size c) eqn:Hg; wp_steps.
  - rewrite HE. cbn [negb]. wp_steps. apply HQ. rewrite Z.gtb_ltb, Z.ltb_lt in Hg.
    unfold INT_MAX in *. rewrite u64_small by lia. case_match; lia.
  - by apply HQ.
Qed.

Lemma advance_ok r c n t (Q : unit → reactor V → nat → Prop) :
  r_conns r !! fd = Some c →
  Q tt (React (<[fd := Conn (cn_fd c) (cn_rbuffer c) (cn_rbuf_size c) (cn_rparse_offset c + n)
        (cn_wbuffer c) (cn_wbuf_size c) (cn_woffset c) (cn_send c) (cn_recv c)]> (r_conns r)) (r_socks r) (r_backlog r) (r_server r)) t →
  wp (advance fd n) Q E r t.
Proof. intros Hc HQ. unfold advance, get_conn, put_conn. wp_steps. by rewrite Hc. Qed.

(** One complete request is executed and answered. *)
Lemma serving_step r p n q q' x o c k xb w wo ans s' size :
  serving r p n q → l !! n = Some (x, o) → q = message (V := V) x o ++ q' →
  r_conns r !! fd = Some c → r_socks r !! fd = Some k → conn_ok c xb q w wo → is_Some (k_interest k) →
  (length xb ≤ length (messages (V := V) (take n l)))%nat → (wo ≤ length (k_out k))%nat →
  p = messages (V := V) (take n l) ++ q ++ k_in k → k_out k ++ drop wo w = answers (take n l) m0 →
  sound K s' → message_post x o (r_server r) ans s' → 0 < size ≤ 2 ^ 34 →
  serving (React (<[fd := Conn (cn_fd c) (cn_rbuffer c) (cn_rbuf_size c) (cn_rparse_offset c + length (message (V := V) x o))
     (Some (w ++ plain_answer o (dict_of x (r_server r)))) size (cn_woffset c) (cn_send c) (cn_recv c)]> (r_conns r))
     (r_socks r) (r_backlog r) s') p (S n) q'.
Proof.
  intros Hs Hn -> Hc Hk [Hrb Hoff Hrs Hwb [Hwoff Hwol] Hws Hcb] Hi Hx Hwo Hp Ha Hs' Hpost Hsize.
  pose proof Hpost as (_ & _ & _ & lg & Hlog & _).
  split; cbn [r_conns r_socks r_server].
  - eexists _, k, (xb ++ message (V := V) x o), (w ++ plain_answer o (dict_of x (r_server r))), wo.
    split_and!; [apply lookup_insert_eq|done| |done| |done| |].
    + split; simpl; try done.
      * by rewrite Hrb, <-!app_assoc.
      * rewrite Hoff, length_app. done.
      * by rewrite <-app_assoc.
      * split; [done|]. rewrite length_app. lia.
    + rewrite (take_next _ _ _ Hn), messages_app, messages_one, !length_app. lia.
    + by rewrite (take_next _ _ _ Hn), messages_app, messages_one, Hp, <-!app_assoc.
    + rewrite (take_next _ _ _ Hn), answers_app, <-Ha, drop_app_le, <-app_assoc by done. simpl.
      by rewrite app_nil_r, (se_dict _ _ _ _ Hs).
  - done.
  - by eapply logs_recording.
  - intros y. rewrite (take_next _ _ _ Hn), replayed_app. simpl.
    by rewrite (message_post_dict _ _ _ _ _ _ Hpost), (se_dict _ _ _ _ Hs).
  - by apply lookup_lt_Some in Hn.
Qed.

Lemma recv_loop_ok fuel r p rest n q t :
  serving r p n q → messages (V := V) l = p ++ rest → (length q ≤ fuel)%nat →
  wp (recv_loop peer_of fuel fd) (λ _ r' _, ∃ n' q', serving r' p n' q' ∧ short n' q') E r t.
Proof.
  intros Hs Hm. revert r n q t Hs. induction fuel as [|fuel IH]; intros r n q t Hs Hf.
  all: pose proof Hs as [(c & k & x & w & wo & Hc & Hk & Hco & Hi & Hx & Hwo & Hp & Ha) H1 H2 H3 H4];
    cbn [recv_loop]; unfold get_conn at 1; wp_steps; rewrite Hc; cbn [default from_option id];
    unfold rdata; rewrite (co_rbuf _ _ _ _ _ Hco), (co_off _ _ _ _ _ Hco), drop_app_length.
  - destruct q; [|simpl in Hf; lia]. wp_steps. exists n, []. split; [done|]. unfold short.
    destruct (l !! n) as [[y o]|]; [|done]. pose proof (message_nonempty (V := V) y o). by destruct (message (V := V) y o); simpl; [|lia].
  - destruct q as [|b q0] eqn:Hq.
    { wp_steps. exists n, []. split; [done|]. unfold short.
      destruct (l !! n) as [[y o]|]; [|done]. pose proof (message_nonempty (V := V) y o). by destruct (message (V := V) y o); simpl; [|lia]. }
    rewrite <-Hq in Hs, Hf, Hco, Hp |- *.
    destruct (next_request p n q (k_in k) rest) as [?|(y & o & Hn & Hcase)]; [done|done|done|by subst q|].
    pose proof (proj1 (Forall_lookup _ _) Hl _ _ Hn) as Hadm. simpl in Hadm.
    destruct (message_encode K y o Hadm) as (argv & Henc & Hsm).
    clear b q0 Hq. destruct Hcase as [[q' Hq']|(m & Hmsg & Hne)].
    + rewrite Hq'. wp_steps. eapply wp_lift; [rewrite Henc; by apply parse_one_encode|]. cbn [Z.eqb Pos.eqb].
      rewrite <-Henc, take_app_length. unfold on_server. wp_steps.
      eapply wp_mono; [by apply (wp_message K)|]. intros ans s' t' [Hs' Hpost].
      pose proof Hpost as (-> & _). cbv beta iota. destruct Hadm as [Hplain _].
      rewrite Z.gtb_ltb, (proj2 (Z.ltb_lt _ _)).
      2: { pose proof (plain_answer_nonempty o (dict_of y (r_server r)) Hplain).
           unfold strlen. destruct (plain_answer _ _); [done|simpl; lia]. }
      wp_steps. eapply append_reply_ok; [exact Hc|apply Hco|apply Hco| |].
      { pose proof (answers_bound n y o Hn) as Hb. rewrite (H3 y). rewrite <-Ha in Hb.
        pose proof (co_woff _ _ _ _ _ Hco) as [_ ?].
        unfold strlen in *. rewrite length_app, length_drop in Hb. lia. }
      intros t'' sz Hsz. cbn [negb]. wp_steps. eapply advance_ok; [apply lookup_insert_eq|]. wp_steps.
      cbn [r_conns r_socks r_backlog r_server cn_fd cn_rbuffer cn_rbuf_size cn_rparse_offset cn_wbuffer cn_wbuf_size cn_woffset cn_send cn_recv].
      rewrite insert_insert_eq. apply (IH _ (S n) q').
      * eapply serving_step; [exact Hs|exact Hn|exact Hq'|done..].
      * rewrite Hq', length_app in Hf. pose proof (message_nonempty (V := V) y o) as Hmn.
        destruct (message (V := V) y o); [done|]. simpl in Hf. lia.
    + wp_steps. rewrite Henc in Hmsg. destruct (parse_one_prefix argv q m Hsm Hmsg Hne) as (ret & nn & Hparse & Hret).
      eapply wp_lift; [exact Hparse|]. cbv beta iota. rewrite (proj2 (Z.eqb_neq _ _)) by done.
      assert (∃ n' q', serving r p n' q' ∧ short n' q') as Hdone.
      { exists n, q. split; [done|]. unfold short. rewrite Hn, Henc, Hmsg, length_app. destruct m; [done|simpl; lia]. }
      destruct (ret =? 0); by wp_steps.
Qed.

(** ** The callbacks *)

Lemma serving_length r p rest n q c x w wo :
  serving r p n q → messages (V := V) l = p ++ rest → r_conns r !! fd = Some c → conn_ok c x q w wo →
  (length x ≤ length (messages (V := V) (take n l)))%nat → strlen (x ++ q) < INT_MAX.
Proof.
  intros [(c' & k & x' & w' & wo' & Hc' & Hk & Hco' & Hi & Hx' & Hwo & Hp & Ha) _ _ _ _] Hm Hc Hco Hx.
  unfold strlen in *. rewrite Hm, Hp, !length_app in Hlen. rewrite length_app. lia.
Qed.

Lemma grow_rbuffer_ok r p rest n q t (Q : bool → reactor V → nat → Prop) :
  serving r p n q → messages (V := V) l = p ++ rest →
  (∀ r' t' c x w wo, serving r' p n q → r_conns r' !! fd = Some c → conn_ok c x q w wo →
     r_socks r' = r_socks r →
     (length x ≤ length (messages (V := V) (take n l)))%nat →
     rlength c + 1 < cn_rbuf_size c → Q true r' t') →
  wp (grow_rbuffer fd) Q E r t.
Proof.
  intros Hs Hm HQ. pose proof Hs as [(c & k & x & w & wo & Hc & Hk & Hco & Hi & Hx & Hwo & Hp & Ha) H1 H2 H3 H4].
  pose proof (serving_length _ _ _ _ _ _ _ _ _ Hs Hm Hc Hco Hx) as Hxq.
  unfold grow_rbuffer, get_conn, put_conn. wp_steps. rewrite Hc. simpl.
  pose proof Hco as [Hrb Hoff [Hrs Hrs'] Hwb Hwoff Hws Hcb]. unfold rlength, rdata. rewrite Hrb.
  rewrite (u64_small (cn_rbuf_size c - 1)) by lia. rewrite Z.geb_leb.
  destruct (_ <=? strlen (x ++ q)) eqn:Hg; to_prop; wp_steps.
  - rewrite HE. cbn [negb]. wp_steps. unfold INT_MAX in *. rewrite u64_small by lia.
    eapply (HQ _ _ _ x w wo); [|apply lookup_insert_eq| |done|done|unfold rlength, rdata; simpl; lia].
    + split; simpl; [|done..]. eexists _, k, x, w, wo. split_and!; [apply lookup_insert_eq|done| |done..].
      split; simpl; try done. lia.
    + split; simpl; try done. lia.
  - eapply HQ; [exact Hs|exact Hc|exact Hco|done|done|]. unfold rlength, rdata. rewrite Hrb. lia.
Qed.

Lemma compact_ok r p n q t (Q : unit → reactor V → nat → Prop) :
  serving r p n q → (∀ r', serving r' p n q → Q tt r' t) → wp (compact fd) Q E r t.
Proof.
  intros Hs HQ. pose proof Hs as [(c & k & x & w & wo & Hc & Hk & Hco & Hi & Hx & Hwo & Hp & Ha) H1 H2 H3 H4].
  unfold compact, get_conn, put_conn. wp_steps. rewrite Hc. simpl. destruct (0 <? _)%nat; wp_steps; [|by apply HQ].
  apply HQ. split; simpl; [|done..].
  eexists _, k, [], w, wo. split_and!; [apply lookup_insert_eq|done| |done|simpl; lia|done..].
  pose proof Hco as [Hrb Hoff [Hrs Hrs'] Hwb Hwoff Hws Hcb].
  split; simpl; try done.
  - rewrite Hrb, Hoff. simpl. by rewrite drop_app_length.
  - split; [done|]. unfold strlen in *. rewrite length_app in Hrs'. lia.
Qed.

Lemma recv_cb_ok r p rest n q t :
  serving r p n q → messages (V := V) l = p ++ rest →
  (∀ k, r_socks r !! fd = Some k → k_in k ≠ []) →
  wp (recv_cb peer_of fd) (λ _ r' _, ∃ n' q', serving r' p n' q' ∧ short n' q') E r t.
Proof.
  intros Hs Hm Hin. unfold recv_cb. rewrite Hfd. cbn [negb]. wp_steps.
  eapply grow_rbuffer_ok; [exact Hs|done|]. clear Hs.
  intros r1 t1 c x w wo Hs Hc Hco Hsock Hx Hroom. rewrite <-Hsock in Hin. cbn [negb]. wp_steps. unfold get_conn at 1. wp_steps.
  rewrite Hc. cbn [default from_option id]. pose proof (serving_length _ _ _ _ _ _ _ _ _ Hs Hm Hc Hco Hx) as Hxq.
  pose proof Hs as [(c' & k & x' & w' & wo' & Hc' & Hk & Hco' & Hi & Hx' & Hwo & Hp & Ha) H1 H2 H3 H4].
  assert (c' = c) as -> by congruence. specialize (Hin k Hk).
  pose proof Hco' as [Hrb Hoff [Hrs Hrs'] Hwb Hwoff Hws Hcb].
  unfold recv, get_sock, put_sock. wp_steps. rewrite Hk, Hrb. wp_steps. cbn [r_conns r_socks r_backlog r_server].
  unfold rlength, rdata in Hroom |- *. rewrite Hrb in Hroom |- *.
  pose proof (strlen_nonneg (x' ++ q)). rewrite u64_small by lia.
  set (g := (Nat.min (Nat.max 1 (recv_n E t1)) (Z.to_nat (cn_rbuf_size c - strlen (x' ++ q) - 1)))%nat).
  assert (1 ≤ g)%nat as Hg by (unfold g; lia).
  assert (take g (k_in k) ≠ []) as Hdata by (destruct (k_in k), g; done || lia).
  assert (Z.of_nat (length (take g (k_in k))) ≤ cn_rbuf_size c - strlen (x' ++ q) - 1) as Hfit.
  { rewrite length_take. unfold g. lia. }
  assert (p = messages (V := V) (take n l) ++ (q ++ take g (k_in k)) ++ drop g (k_in k)) as Hp'.
  { by rewrite Hp, <-app_assoc, (take_drop g). }
  destruct (take g (k_in k)) as [|b data0] eqn:Hd; [done|]. rewrite <-Hd in *. clear b data0 Hd.
  wp_steps. apply checked_len.
  { split; [unfold strlen; lia|]. unfold strlen in *. rewrite Hm, Hp', !length_app in Hlen. rewrite length_app. lia. }
  unfold put_conn. wp_steps. cbn [r_conns r_socks r_backlog r_server].
  eapply wp_mono; [apply (recv_loop_ok _ _ p rest n (q ++ take g (k_in k)))|].
  - split; simpl; [|done..]. eexists _, _, x', w', wo'.
    split_and!; [apply lookup_insert_eq|apply lookup_insert_eq| |done..].
    split; simpl; try done; [by rewrite <-app_assoc|].
    split; [done|]. rewrite app_assoc. unfold strlen in *. rewrite length_app. lia.
  - done.
  - rewrite !length_app. lia.
  - intros b r2 t2 (n' & q' & Hs2 & Hsh). destruct b; cbn [negb]; wp_steps; [|by exists n', q'].
    eapply compact_ok; [exact Hs2|]. intros r3 Hs3. wp_steps. unfold get_conn. wp_steps.
    destruct (wlength _ >? 0); wp_steps; [|by exists n', q'].
    eapply wp_mono; [by apply (send_cb_ok _ p n' q')|]. intros z r4 t4 Hs4. wp_steps. by exists n', q'.
Qed.

(** A newly accepted connection. *)
Lemma event_register_ok r t :
  r_socks r !! fd = Some (Sock [] [] None) → sound K (r_server r) → recording (sv_aof (r_server r)) →
  (∀ x, dict_of x (r_server r) = m0 x) →
  wp (event_register fd true) (λ res r' _, res = 0 ∧ serving r' [] 0 []) E r t.
Proof.
  intros Hk Hs Hr Hd. unfold event_register, put_conn. rewrite Hfd. cbn [negb]. wp_steps. rewrite !HE. wp_steps.
  unfold set_event, get_sock, put_sock. rewrite Hfd. cbn [negb]. wp_steps. cbn [r_socks]. rewrite Hk. cbn [k_interest].
  rewrite decide_False by (by intros []). wp_steps. split; [done|].
  split; simpl; [|done|done|done|lia].
  eexists _, _, [], [], 0%nat. split_and!; [apply lookup_insert_eq|apply lookup_insert_eq| |done|done|done|done|done].
  by split.
Qed.

Lemma run_event_ok r ev p rest n q t :
  serving r p n q → short n q → messages (V := V) l = p ++ arrivals [ev] ++ rest →
  wp (run_event peer_of fd ev) (λ _ r' _, ∃ n' q', serving r' (p ++ arrivals [ev]) n' q' ∧ short n' q') E r t.
Proof.
  intros Hs Hsh Hm. pose proof Hs as [(c & k & x & w & wo & Hc & Hk & Hco & Hi & Hx & Hwo & Hp & Ha) H1 H2 H3 H4].
  destruct ev as [data| |]; simpl in *; rewrite ?app_nil_r.
  - unfold arrive, get_sock, put_sock. wp_steps. rewrite Hk. wp_steps. exists n, q. split; [|done].
    split; simpl; [|done..]. eexists c, _, x, w, wo.
    split_and!; [done|apply lookup_insert_eq|done|done|done|done| |done]. simpl. by rewrite Hp, <-!app_assoc.
  - unfold get_sock. wp_steps. rewrite Hk. destruct k as [[|b kin] kout ki]; wp_steps; [by exists n, q|].
    unfold dispatch. rewrite Hfd. cbn [negb]. unfold get_conn. wp_steps. rewrite Hc. cbn [default from_option id].
    rewrite (proj1 (co_cb _ _ _ _ _ Hco)). cbn [run_callback]. wp_steps.
    eapply wp_mono; [eapply recv_cb_ok; [exact Hs|exact Hm|]|].
    + intros k' Hk'. by assert (k' = Sock (b :: kin) kout ki) as -> by congruence.
    + intros z r' t' Hr'. by wp_steps.
  - unfold dispatch. rewrite Hfd. cbn [negb]. unfold get_conn. wp_steps. rewrite Hc. cbn [default from_option id].
    rewrite (proj2 (co_cb _ _ _ _ _ Hco)). cbn [run_callback]. wp_steps.
    eapply wp_mono; [by apply (send_cb_ok _ p n q)|]. intros z r' t' Hr'. wp_steps. by exists n, q.
Qed.

Lemma run_events_ok evs r p rest n q t :
  serving r p n q → short n q → messages (V := V) l = p ++ arrivals evs ++ rest →
  wp (run_events peer_of fd evs) (λ _ r' _, ∃ n' q', serving r' (p ++ arrivals evs) n' q' ∧ short n' q') E r t.
Proof.
  revert r p n q t. induction evs as [|ev evs IH]; intros r p n q t Hs Hsh Hm; simpl.
  { wp_steps. rewrite app_nil_r. by exists n, q. }
  assert (arrivals (ev :: evs) = arrivals [ev] ++ arrivals evs) as Harr.
  { destruct ev; simpl; by rewrite ?app_nil_r. }
  change (match ev with Arrive data => data ++ arrivals evs | _ => arrivals evs end) with (arrivals (ev :: evs)).
  rewrite Harr in *. rewrite <-!app_assoc in Hm. wp_steps.
  eapply wp_mono; [by eapply run_event_ok|]. intros [] r' t' (n' & q' & Hs' & Hsh').
  rewrite app_assoc. eapply IH; [done|done|]. by rewrite Hm, <-app_assoc.
Qed.
End serving.

(** ** Theorems *)

(** C2: the network loop. A client connects and sends requests without expiry to
    the four engines; their bytes arrive in pieces of any size, events come in any
    order, and each recv and send transfers as much as it likes. Then the requests
    that have arrived completely have been executed, in order and once each, and
    what has been sent followed by what waits in the write buffer is exactly their
    replies in order. *)
Theorem reactor_serves {V} `{VectorOps V} peer_of K E fd l evs rest (r0 : reactor V) t :
  Z.of_nat (size K) < KVS_ARRAY_SIZE → no_oom E → io_good E → net_good E → conn_fd_valid fd = true →
  Forall (λ '(x, o), admissible (V := V) K x o) l →
  strlen (messages (V := V) l) < INT_MAX →
  strlen (answers l (λ x, dict_of x (r_server r0))) ≤ INT_MAX →
  r_socks r0 !! fd = Some (Sock [] [] None) → sound K (r_server r0) → recording (sv_aof (r_server r0)) →
  messages (V := V) l = arrivals evs ++ rest →
  wp (_r ← event_register fd true; run_events peer_of fd evs) (λ _ r1 _,
    ∃ n c k, r_conns r1 !! fd = Some c ∧ r_socks r1 !! fd = Some k ∧
      (∀ x, dict_of x (r_server r1) = replayed (take n l) x (dict_of x (r_server r0))) ∧
      k_out k ++ drop (cn_woffset c) (wdata c) = answers (take n l) (λ x, dict_of x (r_server r0)) ∧
      (k_in k = [] → rest = [] → n = length l)) E r0 t.
Proof.
  intros HK HE Hio Hnet Hfd Hl Hlen Hans Hk Hs Hr Hm. apply wp_bind.
  pose proof (event_register_ok K E fd l (λ x, dict_of x (r_server r0)) HE Hfd r0 t Hk Hs Hr ltac:(done)) as Hreg.
  eapply wp_mono; [exact Hreg|]. intros z r1 t1 [_ Hs1].
  eapply wp_mono.
  { eapply (run_events_ok peer_of K E fd l (λ x, dict_of x (r_server r0)) HK HE Hio Hnet Hfd Hl Hlen Hans evs r1 []);
      [exact Hs1| |exact Hm].
    unfold short. destruct (l !! 0%nat) as [[x o]|]; [|done]. pose proof (message_nonempty (V := V) x o).
    destruct (message (V := V) x o); [done|simpl; lia]. }
  intros [] r2 t2 (n & q & [(c & k & x & w & wo & Hc & Hk2 & Hco & Hi & Hx & Hwo & Hp & Ha) _ _ Hd Hn] & Hsh).
  exists n, c, k. split_and!; [done|done|done| |].
  - unfold wdata. rewrite (co_wbuf _ _ _ _ _ Hco), (proj1 (co_woff _ _ _ _ _ Hco)). exact Ha.
  - intros Hin ->. simpl in Hp. rewrite Hin, app_nil_r in Hp. rewrite app_nil_r, Hp in Hm.
    rewrite <-(take_drop n l) in Hm at 1. rewrite messages_app in Hm. apply app_inv_head in Hm.
    unfold short in Hsh. destruct (l !! n) as [[y o]|] eqn:Hln; [|by apply lookup_ge_None in Hln; lia].
    rewrite (drop_S _ _ _ Hln), messages_cons in Hm. rewrite <-Hm, length_app in Hsh. lia.
Qed.

(** A server that has just accepted descriptor 5. *)
Definition accepted (s : server unit) : reactor unit := React ∅ {[5 := Sock [] [] None]} [] s.

Definition two_requests : list (target * request) :=
  [(OnArray, RSet (lit "k") (lit "v")); (OnArray, RGet (lit "k"))].

Definition in_pieces (b : bytes) : list event :=
  [Arrive (take 9 b); Readable; Arrive (drop 9 b); Writable; Readable].

Lemma two_admissible : Forall (λ '(x, o), admissible (V := unit) {[lit "k"]} x o) two_requests.
Proof.
  assert (∀ a, a ∈ [lit "k"; lit "v"] → NUL ∉ a) as Hnul.
  { pose proof k_v_strings as Hkv. by rewrite Forall_forall in Hkv. }
  repeat apply Forall_cons_2; [..|by constructor];
    (split_and!; [constructor|repeat (apply Forall_cons_2 || apply Forall_nil_2); apply Hnul; set_solver
                 |repeat constructor; by vm_compute|by vm_compute|simpl; set_solver]).
Qed.

Lemma reactor_serves_witness :
  wp (_r ← event_register 5 true; run_events (λ _, None) 5 (in_pieces (messages (V := unit) two_requests))) (λ _ r1 _,
    ∃ n c k, r_conns r1 !! 5 = Some c ∧ r_socks r1 !! 5 = Some k ∧
      (∀ x, dict_of x (r_server r1) = replayed (take n two_requests) x (dict_of x fresh)) ∧
      k_out k ++ drop (cn_woffset c) (wdata c) = answers (take n two_requests) (λ x, dict_of x fresh) ∧
      (k_in k = [] → ([] : bytes) = [] → n = 2%nat)) calm (accepted fresh) 0.
Proof.
  destruct fresh_sound as (Hs & He & Hj).
  pose proof (reactor_serves (V := unit) (λ _, None) {[lit "k"]} calm 5 two_requests
    (in_pieces (messages (V := unit) two_requests)) [] (accepted fresh) 0) as Hr.
  apply Hr; clear Hr; try done.
  - by intros t; eexists.
  - exact two_admissible.
  - right. eexists. exact Hj.
Defined.

(** A request, and the first line of another. *)
Definition cut_before_bulk : bytes :=
  message (V := unit) OnArray (RGet (lit "k")) ++ lit "*2" ++ crlf.

(** A reply that is ready is not sent: when a complete request is followed by
    the first line of the next one, cut before its '$', recv_cb returns -1 with the
    reply in the write buffer, without sending it and without asking epoll for
    writability. *)
Theorem reactor_withholds_reply :
  wp (_r ← event_register 5 true; run_events (λ _, None) 5 [Arrive cut_before_bulk; Readable]) (λ _ r1 _,
    ∃ c, r_conns r1 !! 5 = Some c ∧ wdata c = NIL ∧ r_socks r1 !! 5 = Some (Sock [] [] (Some (true, false))))
    calm (accepted (after (boot 16) machine)) 0.
Proof. vm_compute. eexists. split_and!; reflexivity. Qed.
