(* ===== verification/Ntyco.v ===== *)
(** * The coroutine network (ntyco.c)

    One coroutine serves one connection: it receives, frames, executes and sends,
    and yields to the scheduler when the socket would block. Its local variables and
    the point where it yielded are its state; the scheduler of the NtyCo library
    resumes it whenever it likes. The system's side of the socket is the data that
    has arrived and is unread, the data sent, and whether the peer has closed. *)

From S2P Require Import Prelude Resp KvsConfig KvSpec Aof Server Rdb KvsCommand Recovery.

Definition RBUF_INIT : Z := 4096.

Record stream := Stream { st_in : bytes; st_out : bytes; st_fin : bool }.

(** Where the coroutine waits: before a recv, inside the send loop, or not at all. *)
Inductive point := AtRecv | AtSend (resp : bytes) (sent cmd_len : nat) | Ended.

Record reader (V : Type) := Reader {
  rd_rbuf   : option bytes;   (* the first rlen bytes; None is NULL *)
  rd_size   : Z;              (* rbuf_size *)
  rd_offset : nat;            (* parse_offset *)
  rd_point  : point;
  rd_sock   : stream;
  rd_server : server V
}.
Arguments Reader {V}. Arguments rd_rbuf {V}. Arguments rd_size {V}. Arguments rd_offset {V}. Arguments rd_point {V}.
Arguments rd_sock {V}. Arguments rd_server {V}.

(** How a part of the coroutine ends: it goes on, it has yielded, or it leaves by
    break or goto out. *)
Inductive flow := Next | Yielded | Out.

Section ntyco.
Context {V : Type} `{VectorOps V} (fd : Z) (peer : option Z).

Abbreviation R := (M (reader V)).

Definition rbytes (r : reader V) : bytes := default [] (rd_rbuf r).
Definition rlen (r : reader V) : Z := strlen (rbytes r).

Definition set_rbuf b size off : R unit :=
  modify (λ r, Reader b size off (rd_point r) (rd_sock r) (rd_server r)).
Definition set_point p : R unit :=
  modify (λ r, Reader (rd_rbuf r) (rd_size r) (rd_offset r) p (rd_sock r) (rd_server r)).
Definition set_sock k : R unit :=
  modify (λ r, Reader (rd_rbuf r) (rd_size r) (rd_offset r) (rd_point r) k (rd_server r)).
Definition on_server {A} (m : M (server V) A) : R A :=
  zoom rd_server (λ s r, Reader (rd_rbuf r) (rd_size r) (rd_offset r) (rd_point r) (rd_sock r) s) m.

(** free(rbuf); close(fd); *)
Definition finish : R unit :=
  modify (λ r, Reader None (rd_size r) (rd_offset r) Ended (rd_sock r) (rd_server r)).

(** Growing and receiving, up to rbuf[rlen] = 0. *)
Definition co_recv : R flow :=
  r ← gets (λ r, r);
  grown ← (if rlen r >=? u64 (rd_size r - 1) then
             ok ← kvs_malloc;
             if negb ok then mret false
             else set_rbuf (Some (rbytes r)) (u64 (rd_size r * 2)) (rd_offset r);; mret true
           else mret true);
  if negb grown then mret Out else
  r ← gets (λ r, r);
  match rd_rbuf r with
  | None => mret Out
  | Some b =>
      n ← ask_recv;
      let k := rd_sock r in
      match st_in k with
      | [] => if st_fin k then mret Out else set_point AtRecv;; mret Yielded
      | _ =>
          let n := (max 1 n `min` Z.to_nat (u64 (rd_size r - rlen r - 1)))%nat in
          set_sock (Stream (drop n (st_in k)) (st_out k) (st_fin k));;
          _rlen ← checked32 (rlen r + strlen (take n (st_in k)));
          set_rbuf (Some (b ++ take n (st_in k))) (rd_size r) (rd_offset r);;
          mret Next
      end
  end.

(** while (sent < resp_len); every round but the last sends some of the reply *)
Fixpoint send_loop (fuel : nat) (resp : bytes) (sent cmd_len : nat) : R flow :=
  if (sent <? length resp)%nat then
    ns ← ask_send;
    match ns with
    | None => mret Out
    | Some n =>
        let data := take n (drop sent resp) in
        match data with
        | [] => set_point (AtSend resp sent cmd_len);; mret Yielded
        | _ =>
            k ← gets rd_sock;
            set_sock (Stream (st_in k) (st_out k ++ data) (st_fin k));;
            match fuel with
            | O => fail OutOfFuel
            | S fuel' => send_loop fuel' resp (sent + length data) cmd_len
            end
        end
    end
  else mret Next.

Definition skip_command (cmd_len : nat) : R unit :=
  r ← gets (λ r, r); set_rbuf (rd_rbuf r) (rd_size r) (rd_offset r + cmd_len).

(** The inner while (1); every command consumes input *)
Fixpoint parse_loop (fuel : nat) : R flow :=
  r ← gets (λ r, r);
  let buf := drop (rd_offset r) (rbytes r) in
  match buf with
  | [] => mret Next
  | _ =>
      match fuel with
      | O => fail OutOfFuel
      | S fuel' =>
          '(ret, cmd_len) ← lift (resp_parse_one_command buf);
          if ret =? 1 then
            '(resp_len, resp_buf) ← on_server (kvs_protocol fd peer (take cmd_len buf));
            match resp_buf with
            | Some resp =>
                if resp_len >? 0 then
                  f ← send_loop (length resp) resp 0 cmd_len;
                  match f with Next => skip_command cmd_len;; parse_loop fuel' | _ => mret f end
                else if resp_len <? 0 then mret Out else skip_command cmd_len;; parse_loop fuel'
            | None => if resp_len <? 0 then mret Out else skip_command cmd_len;; parse_loop fuel'
            end
          else if ret =? 0 then mret Next
          else mret Out
      end
  end.

(** memmove of the unparsed rest *)
Definition compact : R unit :=
  r ← gets (λ r, r);
  if (0 <? rd_offset r)%nat then set_rbuf (option_map (drop (rd_offset r)) (rd_rbuf r)) (rd_size r) 0 else mret tt.

(** What follows the inner loop: the rest of the round, the end, or nothing. *)
Definition parsed_then (next : R unit) (f : flow) : R unit :=
  match f with Next => compact;; next | Yielded => mret tt | Out => finish end.

(** The outer while (1), until it yields or ends; every round receives something *)
Fixpoint rounds (fuel : nat) : R unit :=
  f ← co_recv;
  match f with
  | Next =>
      match fuel with
      | O => fail OutOfFuel
      | S fuel' =>
          n ← gets (λ r, length (rbytes r));
          f ← parse_loop n;
          parsed_then (rounds fuel') f
      end
  | Yielded => mret tt
  | Out => finish
  end.

(** The scheduler resumes the coroutine. *)
Definition resume : R unit :=
  p ← gets rd_point;
  fuel ← gets (λ r, length (st_in (rd_sock r)));
  match p with
  | Ended => mret tt
  | AtRecv => rounds fuel
  | AtSend resp sent cmd_len =>
      f ← send_loop (length resp) resp sent cmd_len;
      match f with
      | Next =>
          skip_command cmd_len;;
          n ← gets (λ r, length (rbytes r));
          f ← parse_loop n;
          parsed_then (rounds fuel) f
      | Yielded => mret tt
      | Out => finish
      end
  end.

(** The start of server_reader. *)
Definition server_reader_start : R unit :=
  ok ← kvs_malloc;
  set_rbuf (if ok : bool then Some [] else None) RBUF_INIT 0;;
  set_point AtRecv.

(** ** Histories *)

Inductive co_event := Arrive (data : bytes) | Fin | Resume.

Definition run_co_event (ev : co_event) : R unit :=
  match ev with
  | Arrive data => k ← gets rd_sock; set_sock (Stream (st_in k ++ data) (st_out k) (st_fin k))
  | Fin => k ← gets rd_sock; set_sock (Stream (st_in k) (st_out k) true)
  | Resume => resume
  end.

Fixpoint run_co_events (evs : list co_event) : R unit :=
  match evs with
  | [] => mret tt
  | ev :: evs' => run_co_event ev;; run_co_events evs'
  end.
End ntyco.

Fixpoint co_arrivals (evs : list co_event) : bytes :=
  match evs with
  | [] => []
  | Arrive data :: evs' => data ++ co_arrivals evs'
  | _ :: evs' => co_arrivals evs'
  end.
