(* ===== verification/NtycoSpec.v ===== *)
(** * What a client of the coroutine network sees

    Whatever the cuts of the stream and the moments at which the scheduler resumes
    the coroutine, requests are executed once each and in order, and what has been
    sent, followed by what the coroutine still holds of the current reply, is exactly
    their replies. *)

From S2P Require Import Prelude Resp Cstdlib KvsConfig KvSpec KvsArray KvsHash KvsSkiplist KvsRbtree RbtreeEngine Aof Server Boot Rdb KvsCommand CommandSpec Recovery Reactor ReactorSpec Ntyco.

Lemma sent_rest {A} g sent (l : list A) : take g (drop sent l) ++ drop (sent + length (take g (drop sent l))) l = drop sent l.
Proof.
  rewrite <-drop_drop, length_take. set (d := drop sent l). destruct (decide (g ≤ length d)%nat).
  - by rewrite Nat.min_l, take_drop.
  - by rewrite Nat.min_r, drop_all, take_ge, app_nil_r by lia.
Qed.

Section serving.
Context {V : Type} `{VectorOps V} (peer : option Z).
Context (K : gset bytes) (E : env) (fd : Z) (l : list (target * request)) (m0 : target → dict).
Hypotheses (HK : Z.of_nat (size K) < KVS_ARRAY_SIZE) (HE : no_oom E) (Hio : io_good E) (Hnet : net_good E).
Hypotheses (Hl : Forall (λ '(x, o), admissible (V := V) K x o) l).
Hypotheses (Hlen : strlen (messages (V := V) l) < INT_MAX).

Implicit Types (r : reader V) (p q pend : bytes) (n skip : nat).

(** [p] has arrived, [n] requests have been executed, [q] is in the buffer after
    them, the last [skip] bytes of what was parsed are not yet counted in the
    offset, and [pend] is what is left of the current reply. *)
Record co_core r p n q skip pend : Prop := {
  cc_buf : ∃ x, rd_rbuf r = Some (x ++ q) ∧ (rd_offset r + skip)%nat = length x ∧
    (length x ≤ length (messages (V := V) (take n l)))%nat;
  cc_size : 2 ≤ rd_size r ≤ 2 ^ 34 ∧ rlen r < rd_size r;
  cc_in : p = messages (V := V) (take n l) ++ q ++ st_in (rd_sock r);
  cc_out : st_out (rd_sock r) ++ pend = answers (take n l) m0;
  cc_sound : sound K (rd_server r);
  cc_rec : recording (sv_aof (rd_server r));
  cc_dict x : dict_of x (rd_server r) = replayed (take n l) x (m0 x);
  cc_bound : (n ≤ length l)%nat
}.

(** Why the coroutine has left its loops: the client has closed the connection and
    the request [q] is incomplete, or the framer takes [q] for an error. *)
Definition left_because r n q : Prop :=
  st_fin (rd_sock r) = true ∧ short l (V := V) n q ∨ ∃ k, resp_parse_one_command q = Done (-1, k).

Definition co_done r p : Prop :=
  ∃ n q, p = messages (V := V) (take n l) ++ q ++ st_in (rd_sock r) ∧ left_because r n q ∧
    st_out (rd_sock r) = answers (take n l) m0 ∧ (∀ x, dict_of x (rd_server r) = replayed (take n l) x (m0 x)) ∧ (n ≤ length l)%nat.

(** It waits in the send loop. *)
Definition co_sending r p : Prop :=
  ∃ n q resp sent cmd_len, rd_point r = AtSend resp sent cmd_len ∧ co_core r p n q cmd_len (drop sent resp).

(** It waits before a recv. *)
Definition co_receiving r p : Prop :=
  ∃ n q, rd_point r = AtRecv ∧ co_core r p n q 0 [] ∧ short l (V := V) n q.

Lemma core_done r p n q skip : co_core r p n q skip [] → left_because r n q → co_done r p.
Proof. intros [] Hw. exists n, q. split_and!; [done|done|by rewrite app_nil_r in *|done|done]. Qed.

Lemma send_loop_ok fuel r p n q resp sent cmd_len t :
  co_core r p n q cmd_len (drop sent resp) → (length resp - sent ≤ fuel)%nat →
  wp (send_loop fuel resp sent cmd_len) (λ f r' _,
    match f with Next => co_core r' p n q cmd_len [] ∧ st_in (rd_sock r') = st_in (rd_sock r) | Yielded => co_sending r' p | Out => False end) E r t.
Proof.
  revert r sent t. induction fuel as [|fuel IH]; intros r sent t Hc Hf; cbn [send_loop];
    (destruct (sent <? length resp)%nat eqn:Hs; [apply Nat.ltb_lt in Hs|apply Nat.ltb_ge in Hs; wp_steps; rewrite drop_ge in Hc by done; by split]).
  { lia. }
  wp_steps. destruct (Hnet t) as [g Hg]. rewrite Hg. destruct (take g (drop sent resp)) as [|b data] eqn:Hd.
  - unfold set_point. wp_steps. exists n, q, resp, sent, cmd_len. split; [done|]. destruct Hc. by split.
  - rewrite <-Hd. unfold set_sock. wp_steps. eapply wp_mono; [apply IH|by intros [| |]].
    + destruct Hc as [Hb Hsz Hin Ho H1 H2 H3 H4]. split; try done. cbn. rewrite <-Ho, <-app_assoc. f_equal.
      apply sent_rest.
    + apply (f_equal length) in Hd. rewrite Hd. simpl. lia.
Qed.

Lemma skip_command_ok r p n q cmd_len t (Q : unit → reader V → nat → Prop) :
  co_core r p n q cmd_len [] → (∀ r', co_core r' p n q 0 [] → rd_sock r' = rd_sock r → rbytes r' = rbytes r → Q tt r' t) →
  wp (skip_command cmd_len) Q E r t.
Proof.
  intros [(x & Hb & Hx & Hxl) Hsz Hin Ho H1 H2 H3 H4] HQ. unfold skip_command, set_rbuf. wp_steps. apply HQ; [|done|done].
  split; try done. exists x. cbn. split_and!; [done|lia|done].
Qed.

Lemma short_nil n : (n ≤ length l)%nat → short l (V := V) n [].
Proof.
  intros Hn. unfold short. destruct (l !! n) as [[y o]|]; [|done]. pose proof (message_nonempty (V := V) y o).
  by destruct (message (V := V) y o); simpl; [|lia].
Qed.

(** One request executed. *)
Lemma core_step r p n q q' x o ans s' :
  co_core r p n q 0 [] → l !! n = Some (x, o) → q = message (V := V) x o ++ q' →
  sound K s' → message_post x o (rd_server r) ans s' →
  co_core (Reader (rd_rbuf r) (rd_size r) (rd_offset r) (rd_point r) (rd_sock r) s') p (S n) q'
    (length (message (V := V) x o)) (plain_answer o (dict_of x (rd_server r))).
Proof.
  intros [(xb & Hb & Hx & Hxl) Hsz Hin Ho H1 H2 H3 H4] Hn -> Hs' Hpost. pose proof Hpost as (_ & _ & _ & lg & Hlog & _).
  pose proof (take_next l n x o Hn) as Htn. rewrite app_nil_r in Ho.
  split; cbn [rd_rbuf rd_offset rd_sock rd_server].
  - exists (xb ++ message (V := V) x o). split_and!.
    + by rewrite Hb, <-app_assoc.
    + rewrite length_app. lia.
    + rewrite Htn, messages_app, messages_one, !length_app. lia.
  - done.
  - by rewrite Htn, messages_app, messages_one, Hin, <-!app_assoc.
  - rewrite Htn, answers_app, <-Ho. simpl. by rewrite app_nil_r, H3.
  - done.
  - by eapply logs_recording.
  - intros y. rewrite Htn, replayed_app. simpl. by rewrite (message_post_dict _ _ _ _ _ _ Hpost), H3.
  - by apply lookup_lt_Some in Hn.
Qed.

Definition parse_post p (f : flow) r : Prop :=
  match f with
  | Next => ∃ n q, co_core r p n q 0 [] ∧ short l (V := V) n q
  | Yielded => co_sending r p
  | Out => co_done r p
  end.

Lemma parse_loop_ok fuel r p rest n q t :
  co_core r p n q 0 [] → messages (V := V) l = p ++ rest → (length q ≤ fuel)%nat →
  wp (parse_loop fd peer fuel) (λ f r' _, parse_post p f r' ∧ (f = Next → st_in (rd_sock r') = st_in (rd_sock r))) E r t.
Proof.
  intros Hc Hm. revert r n q t Hc. induction fuel as [|fuel IH]; intros r n q t Hc Hf.
  all: pose proof Hc as [(x & Hb & Hx & Hxl) Hsz Hin Ho H1 H2 H3 H4]; cbn [parse_loop]; wp_steps;
    unfold rbytes; rewrite Hb; cbn [default from_option id]; rewrite (Nat.add_0_r (rd_offset r)) in Hx; rewrite Hx, drop_app_length.
  - destruct q; [|simpl in Hf; lia]. wp_steps. split; [|done]. exists n, []. split; [done|by apply short_nil].
  - destruct q as [|b q0] eqn:Hq; [wp_steps; split; [|done]; exists n, []; split; [done|by apply short_nil]|].
    rewrite <-Hq in Hc, Hf, Hin, Hb |- *.
    destruct (next_request l p n q (st_in (rd_sock r)) rest) as [?|(y & o & Hn & Hcase)]; [done|done|done|by subst q|].
    pose proof (proj1 (Forall_lookup _ _) Hl _ _ Hn) as Hadm. simpl in Hadm.
    destruct (message_encode K y o Hadm) as (argv & Henc & Hsm).
    clear b q0 Hq. destruct Hcase as [[q' Hq']|(m & Hmsg & Hne)].
    + rewrite Hq'. wp_steps. eapply wp_lift; [rewrite Henc; by apply parse_one_encode|]. cbn [Z.eqb Pos.eqb].
      rewrite <-Henc, take_app_length. unfold on_server. wp_steps.
      eapply wp_mono; [by apply (wp_message K)|]. intros ans s' t' [Hs' Hpost].
      pose proof (core_step _ _ _ _ _ _ _ _ _ Hc Hn Hq' Hs' Hpost) as Hc'.
      pose proof Hpost as (-> & _). cbv beta iota. destruct Hadm as [Hplain _].
      rewrite Z.gtb_ltb, (proj2 (Z.ltb_lt _ _)).
      2: { pose proof (plain_answer_nonempty o (dict_of y (rd_server r)) Hplain).
           unfold strlen. destruct (plain_answer _ _); [done|simpl; lia]. }
      wp_step. eapply wp_mono; [apply (send_loop_ok _ _ p (S n) q'); [exact Hc'|lia]|].
      intros [| |] r1 t1 Hs1; [|by wp_steps; split|done]. destruct Hs1 as [Hc1 Hi1]. wp_step.
      eapply skip_command_ok; [exact Hc1|]. intros r2 Hc2 Hk2 _. eapply wp_mono; [eapply (IH r2 (S n) q'); [exact Hc2|]|].
      * rewrite Hq', length_app in Hf. pose proof (message_nonempty (V := V) y o) as Hmn.
        destruct (message (V := V) y o); [done|]. simpl in Hf. lia.
      * intros f r3 t3 [Hp3 Hi3]. split; [done|]. intros Hnx. rewrite (Hi3 Hnx), Hk2. exact Hi1.
    + wp_steps. rewrite Henc in Hmsg. destruct (parse_one_prefix argv q m Hsm Hmsg Hne) as (ret & nn & Hparse & Hret).
      eapply wp_lift; [exact Hparse|]. cbv beta iota. rewrite (proj2 (Z.eqb_neq _ _)) by done.
      destruct (ret =? 0) eqn:Hz; wp_steps.
      * split; [|done]. exists n, q. split; [done|]. unfold short. rewrite Hn, Henc, Hmsg, length_app. destruct m; [done|simpl; lia].
      * split; [|done]. eapply core_done; [exact Hc|]. right. exists nn.
        by destruct (parse_one_return _ _ _ Hparse) as [->|[->| ->]].
Qed.

(** ** Receiving *)

Definition idle r p : Prop := ∃ n q, co_core r p n q 0 [] ∧ short l (V := V) n q.

Definition co_state r p : Prop :=
  co_receiving r p ∨ co_sending r p ∨ (rd_point r = Ended ∧ co_done r p).

(** It has read whatever had arrived when it was resumed. *)
Definition drained r : Prop := rd_point r = AtRecv → st_in (rd_sock r) = [].

Lemma core_room r p rest n q : co_core r p n q 0 [] → messages (V := V) l = p ++ rest →
  rlen r + strlen (st_in (rd_sock r)) < INT_MAX.
Proof.
  intros [(x & Hb & Hx & Hxl) Hsz Hin _ _ _ _ _] Hm. unfold rlen, rbytes, strlen in *. rewrite Hb. simpl.
  rewrite Hm, Hin, !length_app in Hlen. rewrite length_app. lia.
Qed.

Lemma co_recv_ok r p rest t :
  idle r p → messages (V := V) l = p ++ rest →
  wp co_recv (λ f r' _,
    match f with
    | Next => (∃ n q, co_core r' p n q 0 []) ∧ (length (st_in (rd_sock r')) < length (st_in (rd_sock r)))%nat
    | Yielded => co_receiving r' p ∧ st_in (rd_sock r') = []
    | Out => co_done r' p
    end) E r t.
Proof.
  intros (n & q & Hc & Hsh) Hm. pose proof (core_room _ _ _ _ _ Hc Hm) as Hroom.
  pose proof (strlen_nonneg (rbytes r)) as Hnn. pose proof (strlen_nonneg (st_in (rd_sock r))) as Hin0.
  unfold co_recv. wp_step. wp_step. wp_step.
  apply wp_mono with (Q := λ ok r' _, ok = true ∧ co_core r' p n q 0 [] ∧ rd_sock r' = rd_sock r ∧ rlen r' + 1 < rd_size r').
  { pose proof Hc as [Hb Hsz Hin Ho H1 H2 H3 H4]. rewrite (u64_small (rd_size r - 1)) by lia. rewrite Z.geb_leb.
    unfold rlen, INT_MAX in *. destruct (_ <=? strlen (rbytes r)) eqn:Hg; to_prop; wp_steps.
    - rewrite HE. cbn [negb]. unfold set_rbuf. wp_steps. destruct Hb as (x & Hb & Hx & Hxl). rewrite u64_small by lia.
      assert (default [] (rd_rbuf r) = x ++ q) as Hd by by rewrite Hb.
      unfold rbytes, rlen in *. rewrite Hd in *. cbn [rd_size rd_sock].
      split_and!; [done| |done|unfold rbytes; cbn [rd_rbuf default from_option id]; lia].
      split; try done; cbn; [by exists x|]. unfold rlen, rbytes. cbn. lia.
    - split_and!; [done|done|done|]. unfold rlen. lia. }
  intros ok r1 t1 (-> & Hc1 & Hk1 & Hr1). clear Hc. cbn [negb]. rewrite <-Hk1 in *. wp_step. wp_step.
  pose proof (core_room _ _ _ _ _ Hc1 Hm) as Hroom1.
  pose proof Hc1 as [(x & Hb & Hx & Hxl) Hsz Hin Ho H1 H2 H3 H4]. rewrite Hb. wp_step. wp_step.
  destruct (st_in (rd_sock r1)) as [|b kin] eqn:Hk.
  { destruct (st_fin (rd_sock r1)) eqn:Hfin; [wp_steps; eapply core_done; [exact Hc1|by left]|].
    unfold set_point. wp_steps. split; [|done]. exists n, q. split_and!; [done| |done]. split; try done; [|by cbn; rewrite Hk].
    by exists x. }
  rewrite <-Hk in *. pose proof (strlen_nonneg (rbytes r1)). unfold rlen, INT_MAX in *.
  rewrite u64_small by lia.
  set (g := (Nat.min (Nat.max 1 (recv_n E t1)) (Z.to_nat (rd_size r1 - strlen (rbytes r1) - 1)))%nat).
  assert (1 ≤ g)%nat as Hg by (unfold g; lia).
  assert (Z.of_nat (length (take g (st_in (rd_sock r1)))) ≤ rd_size r1 - strlen (rbytes r1) - 1) as Hfit.
  { rewrite length_take. unfold g. lia. }
  unfold set_sock, set_rbuf. wp_step. wp_step. wp_step. apply wp_checked32.
  { unfold strlen, INT_MIN, INT_MAX in *. rewrite length_take. lia. }
  wp_steps. cbn [rd_sock st_in rd_size rd_offset rd_point rd_server st_out].
  split; [|by rewrite length_drop, Hk; simpl; lia].
  exists n, (q ++ take g (st_in (rd_sock r1))). split; cbn [rd_sock st_in rd_size rd_offset rd_rbuf rd_server st_out]; try done.
  - exists x. by rewrite app_assoc.
  - split; [lia|]. unfold rlen, rbytes, strlen in *. cbn [rd_rbuf]. rewrite Hb in *. cbn [default from_option id] in *.
    rewrite length_app. lia.
  - by rewrite Hin, <-!app_assoc, (take_drop g).
Qed.

Lemma compact_idle r p t (Q : unit → reader V → nat → Prop) :
  idle r p → (∀ r', idle r' p → rd_sock r' = rd_sock r → Q tt r' t) → wp compact Q E r t.
Proof.
  intros (n & q & Hc & Hsh) HQ. pose proof Hc as [(x & Hb & Hx & Hxl) Hsz Hin Ho H1 H2 H3 H4].
  unfold compact, set_rbuf. wp_steps. destruct (0 <? _)%nat; wp_steps; [|apply HQ; [by exists n, q|done]].
  apply HQ; [|done]. exists n, q. split; [|done]. rewrite Nat.add_0_r in Hx. rewrite Hb, Hx. cbn [option_map].
  rewrite drop_app_length. split; cbn [rd_sock rd_size rd_offset rd_rbuf rd_server]; try done.
  - exists []. split_and!; simpl; [done|done|lia].
  - split; [lia|]. unfold rlen, rbytes, strlen in *. rewrite Hb in Hsz. simpl in *. rewrite length_app in Hsz. lia.
Qed.

Lemma finish_ok r p t : co_done r p → wp finish (λ _ r' _, co_state r' p ∧ drained r') E r t.
Proof. intros Hd. unfold finish. wp_steps. split; [|done]. right. by right. Qed.

Lemma sending_drained r p : co_sending r p → co_state r p ∧ drained r.
Proof. intros Hs. split; [right; by left|]. destruct Hs as (n & q & resp & sent & cl & Hp & _). unfold drained. by rewrite Hp. Qed.

Lemma parsed_then_ok next f r p t :
  parse_post p f r →
  (∀ r', f = Next → idle r' p → rd_sock r' = rd_sock r → wp next (λ _ r'' _, co_state r'' p ∧ drained r'') E r' t) →
  wp (parsed_then next f) (λ _ r' _, co_state r' p ∧ drained r') E r t.
Proof.
  intros Hp Hnext. destruct f; cbn [parsed_then].
  - wp_step. apply compact_idle with (p := p); [exact Hp|]. intros r' Hi Hk. by apply Hnext.
  - wp_steps. by apply sending_drained.
  - by apply finish_ok.
Qed.

Lemma core_fuel r p n q : co_core r p n q 0 [] → (length q ≤ length (rbytes r))%nat.
Proof. intros [(x & Hb & _) _ _ _ _ _ _ _]. unfold rbytes. rewrite Hb. simpl. rewrite length_app. lia. Qed.

Lemma rounds_ok fuel r p rest t :
  idle r p → messages (V := V) l = p ++ rest → (length (st_in (rd_sock r)) ≤ fuel)%nat →
  wp (rounds fd peer fuel) (λ _ r' _, co_state r' p ∧ drained r') E r t.
Proof.
  intros Hi Hm. revert r t Hi. induction fuel as [|fuel IH]; intros r t Hi Hf; cbn [rounds]; wp_step;
    (eapply wp_mono; [by eapply co_recv_ok|]); intros [| |] r1 t1 Hr; cbv beta iota in Hr.
  - lia.
  - wp_steps. destruct Hr as [Hr Hk]. split; [by left|by intros _].
  - by apply finish_ok.
  - destruct Hr as [(n & q & Hc) Hlt]. wp_steps.
    eapply wp_mono; [eapply parse_loop_ok; [exact Hc|exact Hm|by eapply core_fuel]|].
    intros f r2 t2 [Hp Hin]. apply parsed_then_ok; [exact Hp|]. intros r3 -> Hi3 Hk3. apply IH; [done|].
    rewrite Hk3, (Hin eq_refl). lia.
  - wp_steps. destruct Hr as [Hr Hk]. split; [by left|by intros _].
  - by apply finish_ok.
Qed.

Lemma resume_ok r p rest t :
  co_state r p → messages (V := V) l = p ++ rest → wp (resume fd peer) (λ _ r' _, co_state r' p ∧ drained r') E r t.
Proof.
  intros Hst Hm. unfold resume. wp_step. wp_step. wp_step. wp_step.
  destruct Hst as [(n & q & Hp & Hc & Hsh)|[(n & q & resp & sent & cl & Hp & Hc)|[Hp Hd]]]; rewrite Hp.
  - eapply rounds_ok; [by exists n, q|exact Hm|done].
  - wp_step. eapply wp_mono; [eapply send_loop_ok; [exact Hc|lia]|]. intros [| |] r1 t1 Hr; [|by wp_steps; apply sending_drained|done].
    destruct Hr as [Hc1 Hi1]. wp_step. eapply skip_command_ok; [exact Hc1|]. intros r2 Hc2 Hk2 Hb2.
    wp_steps. eapply wp_mono; [eapply parse_loop_ok; [exact Hc2|exact Hm|by eapply core_fuel]|].
    intros f r3 t3 [Hp3 Hin]. apply parsed_then_ok; [exact Hp3|]. intros r4 -> Hi4 Hk4.
    eapply rounds_ok; [done|exact Hm|]. by rewrite Hk4, (Hin eq_refl), Hk2, Hi1.
  - wp_steps. split; [right; by right|]. unfold drained. by rewrite Hp.
Qed.

(** What the system does with the socket meanwhile. *)
Lemma core_sock r p n q skip pend data fin :
  co_core r p n q skip pend →
  co_core (Reader (rd_rbuf r) (rd_size r) (rd_offset r) (rd_point r)
    (Stream (st_in (rd_sock r) ++ data) (st_out (rd_sock r)) fin) (rd_server r)) (p ++ data) n q skip pend.
Proof. intros [Hb Hsz Hin Ho H1 H2 H3 H4]. split; try done. cbn. by rewrite Hin, <-!app_assoc. Qed.

Lemma state_sock r p data fin :
  co_state r p → (st_fin (rd_sock r) = true → fin = true) →
  co_state (Reader (rd_rbuf r) (rd_size r) (rd_offset r) (rd_point r)
    (Stream (st_in (rd_sock r) ++ data) (st_out (rd_sock r)) fin) (rd_server r)) (p ++ data).
Proof.
  intros [(n & q & Hp & Hc & Hsh)|[(n & q & resp & sent & cl & Hp & Hc)|[Hp Hd]]] Hfin.
  - left. exists n, q. split_and!; [done|by apply core_sock|done].
  - right. left. exists n, q, resp, sent, cl. split; [done|by apply core_sock].
  - right. right. split; [done|]. destruct Hd as (n & q & -> & Hw & Hrest). exists n, q.
    split; [by rewrite <-!app_assoc|]. split; [|done]. destruct Hw as [[Hf Hsh]|Hk]; [left; cbn; auto|by right].
Qed.

Lemma run_co_event_ok r ev p rest t :
  co_state r p → messages (V := V) l = p ++ co_arrivals [ev] ++ rest →
  wp (run_co_event fd peer ev) (λ _ r' _, co_state r' (p ++ co_arrivals [ev]) ∧ (ev = Resume → drained r')) E r t.
Proof.
  intros Hst Hm. destruct ev as [data| |]; cbn [run_co_event co_arrivals] in *; rewrite ?app_nil_r in *.
  - unfold set_sock. wp_steps. split; [by apply state_sock|done].
  - unfold set_sock. wp_steps. pose proof (state_sock r p [] true Hst ltac:(done)) as Hs. rewrite !app_nil_r in Hs. by split.
  - eapply wp_mono; [by eapply resume_ok|]. intros [] r' t' []. by split.
Qed.

Lemma run_co_events_ok evs r p rest t :
  co_state r p → messages (V := V) l = p ++ co_arrivals evs ++ rest →
  wp (run_co_events fd peer evs) (λ _ r' _, co_state r' (p ++ co_arrivals evs) ∧
    (last evs = Some Resume → drained r')) E r t.
Proof.
  revert r p t. induction evs as [|ev evs IH]; intros r p t Hst Hm; cbn [run_co_events].
  { wp_steps. by rewrite app_nil_r. }
  assert (co_arrivals (ev :: evs) = co_arrivals [ev] ++ co_arrivals evs) as Harr by (destruct ev; simpl; by rewrite ?app_nil_r).
  rewrite Harr in *. rewrite <-!app_assoc in Hm. wp_step.
  eapply wp_mono; [by eapply run_co_event_ok|]. intros [] r' t' [Hst' Hdr]. rewrite app_assoc.
  destruct evs as [|ev2 evs].
  { cbn [run_co_events co_arrivals]. wp_steps. rewrite app_nil_r. split; [done|]. intros [= ->]. by apply Hdr. }
  eapply wp_mono; [apply IH; [done|by rewrite Hm, <-app_assoc]|]. intros [] r2 t2 [Hst2 Hdr2]. by split.
Qed.
End serving.

(** ** Theorems *)

(** What the coroutine still holds of the current reply. *)
Definition unsent (p : point) : bytes :=
  match p with AtSend resp sent _ => drop sent resp | _ => [] end.

(** A coroutine created for a connection that has just been accepted. *)
Definition created {V} (s : server V) : reader V := Reader None 0 0 AtRecv (Stream [] [] false) s.

(** C3: the coroutine network. A client sends requests without expiry to the four
    engines (within the sizes of [admissible], no malloc or append fails, no send
    fails for good); their bytes arrive in pieces of any size, the client may stop
    sending, the scheduler resumes the coroutine at any moments and each recv and
    send transfers as much as it likes. Every resumption returns. What has been read
    is the first [n] requests and a part [q] of the next; exactly those [n] have been
    executed, once each and in order, and what has been sent followed by the rest of
    the reply in the hands of the coroutine is exactly their replies. A coroutine
    that waits for input has executed every request that it has read completely, and
    after a resumption it has read everything that has arrived. It has ended only
    after the client closed the connection, with every complete request executed, or
    when the framer reported an error on [q], which it also does when [q] ends right
    before a '$' ([coroutine_drops_client]). *)
Theorem coroutine_serves {V} `{VectorOps V} peer K E fd l evs rest (s0 : server V) t :
  Z.of_nat (size K) < KVS_ARRAY_SIZE → no_oom E → io_good E → net_good E →
  Forall (λ '(x, o), admissible (V := V) K x o) l →
  strlen (messages (V := V) l) < INT_MAX →
  sound K s0 → recording (sv_aof s0) →
  messages (V := V) l = co_arrivals evs ++ rest →
  wp (server_reader_start;; run_co_events fd peer evs) (λ _ r _,
    ∃ n q, (n ≤ length l)%nat ∧ co_arrivals evs = messages (V := V) (take n l) ++ q ++ st_in (rd_sock r) ∧
      (∀ x, dict_of x (rd_server r) = replayed (take n l) x (dict_of x s0)) ∧
      st_out (rd_sock r) ++ unsent (rd_point r) = answers (take n l) (λ x, dict_of x s0) ∧
      match rd_point r with
      | AtRecv => short l (V := V) n q ∧ (last evs = Some Resume → st_in (rd_sock r) = [] ∧ (rest = [] → n = length l))
      | AtSend _ _ _ => True
      | Ended => st_fin (rd_sock r) = true ∧ short l (V := V) n q ∨ ∃ k, resp_parse_one_command q = Done (-1, k)
      end) E (created s0) t.
Proof.
  intros HK HE Hio Hnet Hl Hlen Hs Hr Hm. unfold server_reader_start, set_rbuf, set_point. wp_steps. rewrite HE.
  eapply wp_mono.
  { eapply (run_co_events_ok peer K E fd l (λ x, dict_of x s0) HK HE Hio Hnet Hl Hlen evs _ []); [|exact Hm].
    left. exists 0%nat, []. split_and!; [done| |apply short_nil with (K := K); lia].
    split; cbn; try done; [by exists []|lia]. }
  intros [] r _ [[(n & q & Hp & Hc & Hsh)|[(n & q & resp & sent & cl & Hp & Hc)|[Hp (n & q & Hin & Hw & Ho & Hd & Hn)]]] Hdr];
    exists n, q; rewrite Hp; cbn [unsent].
  - pose proof Hc as [_ _ Hin Ho _ _ Hd Hn]. split_and!; [done|done|done|done|done|].
    intros Hk%Hdr. specialize (Hk Hp). split; [done|]. intros ->.
    rewrite app_nil_l in Hin. rewrite app_nil_r, Hin, Hk, app_nil_r in Hm.
    rewrite <-(take_drop n l) in Hm at 1. rewrite messages_app in Hm. apply app_inv_head in Hm.
    unfold short in Hsh. destruct (l !! n) as [[y o]|] eqn:Hln; [|by apply lookup_ge_None in Hln; lia].
    rewrite (drop_S _ _ _ Hln), messages_cons in Hm. rewrite <-Hm, length_app in Hsh. lia.
  - destruct Hc. by split_and!.
  - split_and!; [done|done|done|by rewrite app_nil_r|exact Hw].
Qed.

(** Two requests, cut in the first. *)
Definition resumed_twice (b : bytes) : list co_event := [Arrive (take 9 b); Resume; Arrive (drop 9 b); Resume; Fin; Resume].

Lemma coroutine_serves_witness :
  let evs := resumed_twice (messages (V := unit) two_requests) in
  wp (server_reader_start;; run_co_events 5 None evs) (λ _ r _,
    ∃ n q, (n ≤ length two_requests)%nat ∧
      co_arrivals evs = messages (V := unit) (take n two_requests) ++ q ++ st_in (rd_sock r) ∧
      (∀ x, dict_of x (rd_server r) = replayed (take n two_requests) x (dict_of x fresh)) ∧
      st_out (rd_sock r) ++ unsent (rd_point r) = answers (take n two_requests) (λ x, dict_of x fresh) ∧
      match rd_point r with
      | AtRecv => short two_requests (V := unit) n q ∧
          (last evs = Some Resume → st_in (rd_sock r) = [] ∧ (([] : bytes) = [] → n = length two_requests))
      | AtSend _ _ _ => True
      | Ended => st_fin (rd_sock r) = true ∧ short two_requests (V := unit) n q ∨ ∃ k, resp_parse_one_command q = Done (-1, k)
      end) calm (created fresh) 0.
Proof.
  destruct fresh_sound as (Hs & He & Hj).
  apply (coroutine_serves (V := unit) None {[lit "k"]} calm 5 two_requests
    (resumed_twice (messages (V := unit) two_requests)) [] fresh 0); try done.
  - by intros t; eexists.
  - exact two_admissible.
  - right. eexists. exact Hj.
Defined.

(** Where the epoll network keeps the connection, the coroutine network drops
    it: when what has been received ends right before the '$' of a bulk length,
    the parser answers -1 instead of 0, server_reader leaves its loops and closes
    the descriptor, and the rest of the request is lost when it arrives. *)
Theorem coroutine_drops_client :
  wp (server_reader_start;; run_co_events 5 None [Arrive cut_before_bulk; Resume; Arrive (lit "$3"); Resume]) (λ _ r _,
    rd_point r = Ended ∧ rd_rbuf r = None ∧ rd_sock r = Stream (lit "$3") NIL false) calm
    (created (after (boot 16) machine)) 0.
Proof. vm_compute. split_and!; reflexivity. Qed.
