(* ===== verification/Proactor.v ===== *)
(** * The io_uring network (proactor.c)

    An alternative network loop: accepts, receives and sends are submitted to the
    kernel and their completions handled in batches. All connections share one
    receive buffer and one reply buffer. The handler is an argument; what it
    returns is what it writes to the reply buffer. *)

From S2P Require Import Prelude.

Definition BUFFER_LENGTH : nat := 1024.
Definition BATCH : nat := 128.

Inductive event_kind := EVENT_ACCEPT | EVENT_READ | EVENT_WRITE.

#[global] Instance event_kind_eq_dec : EqDecision event_kind.
Proof. solve_decision. Defined.

(** struct conn_info, with the length of the operation or its result *)
Record op := Op { op_event : event_kind; op_fd : Z; op_len : nat }.

(** A client's socket: unread and sent data, and whether the client has closed. *)
Record csock := CSock { cs_in : bytes; cs_out : bytes; cs_fin : bool }.

Record proactor := Proactor {
  po_buffer   : bytes;           (* buffer, as far as it has been written *)
  po_response : bytes;
  po_sq       : list op;         (* prepared *)
  po_pending  : list op;         (* submitted *)
  po_cq       : list op;         (* completed; op_len is res *)
  po_socks    : gmap Z csock;
  po_closed   : list Z
}.

(** memcpy to the start of a buffer *)
Definition overwrite (buf data : bytes) : bytes := data ++ drop (length data) buf.

Section proactor.
Context (handler : bytes → bytes).
Implicit Types (s : proactor).

Definition prepare (o : op) s : proactor :=
  Proactor (po_buffer s) (po_response s) (po_sq s ++ [o]) (po_pending s) (po_cq s) (po_socks s) (po_closed s).
Definition set_event_recv (fd : Z) s : proactor := prepare (Op EVENT_READ fd BUFFER_LENGTH) s.
Definition set_event_send (fd : Z) (len : nat) s : proactor := prepare (Op EVENT_WRITE fd len) s.
Definition set_event_accept (fd : Z) s : proactor := prepare (Op EVENT_ACCEPT fd 0) s.

(** One completion *)
Definition handle (sockfd : Z) (o : op) s : outcome proactor :=
  match op_event o with
  | EVENT_ACCEPT => Done (set_event_recv (Z.of_nat (op_len o)) (set_event_accept sockfd s))
  | EVENT_READ =>
      if decide (op_len o = 0)%nat then
        Done (Proactor (po_buffer s) (po_response s) (po_sq s) (po_pending s) (po_cq s) (po_socks s) (po_closed s ++ [op_fd o]))
      else
        let reply := handler (take (op_len o) (po_buffer s)) in
        if decide (BUFFER_LENGTH < length reply)%nat then Fault OutOfBounds else
        Done (set_event_send (op_fd o) (length reply)
          (Proactor (po_buffer s) (overwrite (po_response s) reply) (po_sq s) (po_pending s) (po_cq s) (po_socks s) (po_closed s)))
  | EVENT_WRITE => Done (set_event_recv (op_fd o) s)
  end.

Fixpoint handle_all (sockfd : Z) (l : list op) s : outcome proactor :=
  match l with
  | [] => Done s
  | o :: l' => match handle sockfd o s with Done s' => handle_all sockfd l' s' | Fault x => Fault x end
  end.

(** ** The kernel *)

Inductive kevent :=
| Arrive (fd : Z) (data : bytes)
| Hangup (fd : Z)
| Accept (i : nat) (fd : nat)       (* the submitted accept at place i *)
| Recv (i n : nat)                  (* the receive at place i takes at most n bytes *)
| Send (i n : nat).

Definition set_sock (fd : Z) (k : csock) s : proactor :=
  Proactor (po_buffer s) (po_response s) (po_sq s) (po_pending s) (po_cq s) (<[fd := k]> (po_socks s)) (po_closed s).

Definition complete (i : nat) (o : op) s : proactor :=
  Proactor (po_buffer s) (po_response s) (po_sq s) (delete i (po_pending s)) (po_cq s ++ [o]) (po_socks s) (po_closed s).

Definition kernel (e : kevent) s : proactor :=
  match e with
  | Arrive fd data =>
      match po_socks s !! fd with Some k => set_sock fd (CSock (cs_in k ++ data) (cs_out k) (cs_fin k)) s | None => s end
  | Hangup fd =>
      match po_socks s !! fd with Some k => set_sock fd (CSock (cs_in k) (cs_out k) true) s | None => s end
  | Accept i fd =>
      match po_pending s !! i, po_socks s !! Z.of_nat fd with
      | Some (Op EVENT_ACCEPT l _), None => complete i (Op EVENT_ACCEPT l fd) (set_sock (Z.of_nat fd) (CSock [] [] false) s)
      | _, _ => s
      end
  | Recv i n =>
      match po_pending s !! i with
      | Some (Op EVENT_READ fd len) =>
          match po_socks s !! fd with
          | Some k =>
              let data := take (max 1 n `min` len) (cs_in k) in
              if decide (data = []) then (if cs_fin k then complete i (Op EVENT_READ fd 0) s else s) else
              let s := complete i (Op EVENT_READ fd (length data)) (set_sock fd (CSock (drop (length data) (cs_in k)) (cs_out k) (cs_fin k)) s) in
              Proactor (overwrite (po_buffer s) data) (po_response s) (po_sq s) (po_pending s) (po_cq s) (po_socks s) (po_closed s)
          | None => s
          end
      | _ => s
      end
  | Send i n =>
      match po_pending s !! i with
      | Some (Op EVENT_WRITE fd len) =>
          match po_socks s !! fd with
          | Some k =>
              let data := take n (take len (po_response s)) in
              complete i (Op EVENT_WRITE fd (length data)) (set_sock fd (CSock (cs_in k) (cs_out k ++ data) (cs_fin k)) s)
          | None => s
          end
      | _ => s
      end
  end.

(** ** The loop *)

(** One round: io_uring_submit, the kernel works, io_uring_wait_cqe and
    io_uring_peek_batch_cqe; without a completion it waits on. *)
Definition round (sockfd : Z) (ks : list kevent) s : outcome proactor :=
  let s := Proactor (po_buffer s) (po_response s) [] (po_pending s ++ po_sq s) (po_cq s) (po_socks s) (po_closed s) in
  let s := foldl (λ s e, kernel e s) s ks in
  match handle_all sockfd (take BATCH (po_cq s)) s with
  | Done s' =>
      Done (Proactor (po_buffer s') (po_response s') (po_sq s') (po_pending s') (drop BATCH (po_cq s')) (po_socks s') (po_closed s'))
  | Fault x => Fault x
  end.

Fixpoint rounds (sockfd : Z) (kss : list (list kevent)) s : outcome proactor :=
  match kss with
  | [] => Done s
  | ks :: kss' => match round sockfd ks s with Done s' => rounds sockfd kss' s' | Fault x => Fault x end
  end.

(** proactor_start *)
Definition proactor_start (sockfd : Z) : proactor := set_event_accept sockfd (Proactor [] [] [] [] [] ∅ []).
End proactor.

(** What the clients send. *)
Fixpoint sent_by (fd : Z) (ks : list kevent) : bytes :=
  match ks with
  | [] => []
  | Arrive fd' data :: ks' => (if decide (fd' = fd) then data else []) ++ sent_by fd ks'
  | _ :: ks' => sent_by fd ks'
  end.

(** ** One client *)

Section single.
Context (handler : bytes → bytes) (sockfd fd : Z).
Hypothesis (Hfit : ∀ m, (length (handler m) ≤ BUFFER_LENGTH)%nat).
Implicit Types (s : proactor) (chunks : list bytes).

Definition replies chunks : bytes := concat (handler <$> chunks).

Lemma replies_snoc chunks c : replies (chunks ++ [c]) = replies chunks ++ handler c.
Proof. unfold replies. rewrite fmap_app, concat_app. simpl. by rewrite app_nil_r. Qed.

(** The client's operation: being received, received, being sent, sent. *)
Inductive stage s : list bytes → bytes → Prop :=
| Receiving chunks pops : po_pending s = Op EVENT_ACCEPT sockfd 0 :: pops → pops ++ po_sq s = [Op EVENT_READ fd BUFFER_LENGTH] → po_cq s = [] →
    stage s chunks (replies chunks)
| Received chunks c : po_pending s = [Op EVENT_ACCEPT sockfd 0] → po_sq s = [] → po_cq s = [Op EVENT_READ fd (length c)] → c ≠ [] →
    take (length c) (po_buffer s) = c → stage s (chunks ++ [c]) (replies chunks)
| Sending chunks c pops : po_pending s = Op EVENT_ACCEPT sockfd 0 :: pops → pops ++ po_sq s = [Op EVENT_WRITE fd (length (handler c))] → po_cq s = [] →
    take (length (handler c)) (po_response s) = handler c → stage s (chunks ++ [c]) (replies chunks)
| Sent chunks n : po_pending s = [Op EVENT_ACCEPT sockfd 0] → po_sq s = [] → po_cq s = [Op EVENT_WRITE fd n] →
    stage s chunks (replies chunks).

Definition serving1 (arrived : bytes) s : Prop :=
  ∃ chunks k, po_socks s !! fd = Some k ∧ cs_fin k = false ∧ arrived = concat chunks ++ cs_in k ∧ stage s chunks (cs_out k).

(** The kernel events of a single client whose replies are sent whole. *)
Definition alone (e : kevent) : Prop :=
  match e with Arrive fd' _ => fd' = fd | Recv _ _ => True | Send _ n => (BUFFER_LENGTH ≤ n)%nat | _ => False end.

Lemma overwrite_take buf data : take (length data) (overwrite buf data) = data.
Proof. unfold overwrite. by rewrite take_app_length. Qed.

Lemma pops_case (pops sq : list op) o : pops ++ sq = [o] → (pops = [o] ∧ sq = []) ∨ (pops = [] ∧ sq = [o]).
Proof. destruct pops as [|x [|y pops]]; simpl; intros Hx; [by right|injection Hx as -> ->; by left|done]. Qed.

(** The client has one operation. *)
Lemma pending_at s i o x pops :
  po_pending s = Op EVENT_ACCEPT sockfd 0 :: pops → pops ++ po_sq s = [o] → po_pending s !! i = Some x → op_event x ≠ EVENT_ACCEPT →
  i = 1%nat ∧ o = x ∧ pops = [o] ∧ po_sq s = [].
Proof.
  intros Hp Ho Hi Hx. rewrite Hp in Hi. destruct i as [|i]; [by injection Hi as <-|]. simpl in Hi.
  destruct (pops_case _ _ _ Ho) as [[-> Hs]|[-> _]]; [|done]. destruct i as [|i]; [|done]. by injection Hi as ->.
Qed.

Lemma kernel_ok e arrived s :
  alone e → serving1 arrived s → serving1 (arrived ++ sent_by fd [e]) (kernel e s).
Proof.
  intros Ha (chunks & [kin kout kfin] & Hk & Hfin & Harr & Hst). cbn [cs_in cs_out cs_fin] in *. destruct e as [fd' data|fd'|i fd'|i n|i n]; simpl in Ha; try done.
  - subst fd'. cbn [kernel sent_by]. rewrite decide_True, app_nil_r, Hk by done. exists chunks. eexists. split; [cbn; apply lookup_insert_eq|].
    cbn [cs_fin cs_in cs_out]. split_and!; [done|by rewrite Harr, <-app_assoc|]. by destruct Hst; econstructor.
  - cbn [kernel sent_by]. rewrite app_nil_r. destruct (po_pending s !! i) as [[[] ofd olen]|] eqn:Hi; [by exists chunks, (CSock kin kout kfin)| |by exists chunks, (CSock kin kout kfin)..].
    destruct Hst as [chunks pops Hp Ho Hcq|chunks c Hp Hsq Hcq Hc Hb|chunks c pops Hp Ho Hcq Hr|chunks m Hp Hsq Hcq].
    + destruct (pending_at _ _ _ _ _ Hp Ho Hi ltac:(done)) as (-> & [= <- <-] & -> & Hsq). rewrite Hk. cbn [cs_in cs_out cs_fin].
      case_decide as Hd; [rewrite Hfin; exists chunks; eexists; split_and!; [exact Hk|done|done|by eapply Receiving]|].
      set (data := take _ (kin)) in *.
      exists (chunks ++ [data]). eexists. split; [cbn; apply lookup_insert_eq|]. cbn [cs_fin cs_in cs_out]. split_and!; [done| |].
      * rewrite Harr, concat_app. simpl. rewrite app_nil_r, <-app_assoc. f_equal. unfold data. rewrite length_take.
        set (g := Nat.min _ _). destruct (decide (g ≤ length (kin))%nat); [by rewrite Nat.min_l, take_drop|].
        by rewrite Nat.min_r, drop_all, take_ge, app_nil_r by lia.
      * apply Received; cbn; [by rewrite Hp|done|by rewrite Hcq|done|apply overwrite_take].
    + rewrite Hp in Hi. by destruct i.
    + by destruct (pending_at _ _ _ _ _ Hp Ho Hi ltac:(done)) as (_ & [=] & _).
    + rewrite Hp in Hi. by destruct i.
  - cbn [kernel sent_by]. rewrite app_nil_r. destruct (po_pending s !! i) as [[[] ofd olen]|] eqn:Hi; [by exists chunks, (CSock kin kout kfin)|by exists chunks, (CSock kin kout kfin)| |by exists chunks, (CSock kin kout kfin)].
    destruct Hst as [chunks pops Hp Ho Hcq|chunks c Hp Hsq Hcq Hc Hb|chunks c pops Hp Ho Hcq Hr|chunks m Hp Hsq Hcq].
    + by destruct (pending_at _ _ _ _ _ Hp Ho Hi ltac:(done)) as (_ & [=] & _).
    + rewrite Hp in Hi. by destruct i.
    + destruct (pending_at _ _ _ _ _ Hp Ho Hi ltac:(done)) as (-> & [= <- <-] & -> & Hsq). rewrite Hk.
      exists (chunks ++ [c]). eexists. split; [cbn; apply lookup_insert_eq|]. cbn [cs_fin cs_in cs_out]. split_and!; [done|done|].
      rewrite Hr, take_ge by (pose proof (Hfit c); lia). rewrite <-replies_snoc.
      eapply Sent; cbn; [by rewrite Hp|done|by rewrite Hcq].
    + rewrite Hp in Hi. by destruct i.
Qed.

Lemma kernels_ok ks arrived s :
  Forall alone ks → serving1 arrived s → serving1 (arrived ++ sent_by fd ks) (foldl (λ s e, kernel e s) s ks).
Proof.
  intros Hks. revert arrived s. induction Hks as [|e ks He Hks IH]; intros arrived s Hs; cbn [foldl]; [by rewrite app_nil_r|].
  pose proof (kernel_ok e _ _ He Hs) as Hs1. specialize (IH _ _ Hs1).
  assert (sent_by fd (e :: ks) = sent_by fd [e] ++ sent_by fd ks) as ->; [|by rewrite app_assoc].
  destruct e; simpl; by rewrite ?app_nil_r.
Qed.

Lemma round_ok ks arrived s :
  Forall alone ks → serving1 arrived s →
  ∃ s', round handler sockfd ks s = Done s' ∧ serving1 (arrived ++ sent_by fd ks) s'.
Proof.
  intros Hks (chunks & [kin kout kfin] & Hk & Hfin & Harr & Hst). cbn [cs_in cs_out cs_fin] in *. unfold round.
  set (s1 := Proactor _ _ [] _ _ _ _).
  assert (serving1 arrived s1) as Hs1.
  { exists chunks, (CSock kin kout kfin). split_and!; [done|done|done|].
    destruct Hst as [chunks pops Hp Ho Hcq|chunks c Hp Hsq Hcq Hc Hb|chunks c pops Hp Ho Hcq Hr|chunks m Hp Hsq Hcq].
    - eapply (Receiving s1 chunks (pops ++ po_sq s)); cbn; [by rewrite Hp|by rewrite app_nil_r|done].
    - apply Received; cbn; [by rewrite Hp, Hsq|done|done|done|done].
    - eapply (Sending s1 chunks c (pops ++ po_sq s)); cbn; [by rewrite Hp|by rewrite app_nil_r|done|done].
    - eapply Sent; cbn; [by rewrite Hp, Hsq|done|done]. }
  apply (kernels_ok ks) in Hs1; [|done]. set (s2 := foldl _ s1 ks) in *. clearbody s2. clear s1 chunks kin kout kfin Hk Hfin Harr Hst.
  destruct Hs1 as (chunks & [kin kout kfin] & Hk & Hfin & Harr & Hst). cbn [cs_in cs_out cs_fin] in *.
  destruct Hst as [chunks pops Hp Ho Hcq|chunks c Hp Hsq Hcq Hc Hb|chunks c pops Hp Ho Hcq Hr|chunks m Hp Hsq Hcq]; rewrite Hcq.
  - eexists. split; [done|]. exists chunks; eexists (CSock kin _ kfin). split_and!; [done|done|done|]. by eapply Receiving; cbn; rewrite ?Hcq.
  - cbn [take handle_all BATCH]. unfold handle. cbn [op_event op_len op_fd].
    rewrite decide_False by (by destruct c). rewrite Hb, decide_False by (pose proof (Hfit c); lia).
    eexists. split; [done|]. exists (chunks ++ [c]); eexists (CSock kin _ kfin). split_and!; [done|done|done|].
    eapply (Sending _ chunks c []); cbn; [by rewrite Hp|by rewrite Hsq|by rewrite Hcq|apply overwrite_take].
  - eexists. split; [done|]. exists (chunks ++ [c]); eexists (CSock kin _ kfin). split_and!; [done|done|done|]. by eapply Sending; cbn; rewrite ?Hcq.
  - cbn [take handle_all BATCH]. unfold handle. cbn [op_event op_len op_fd].
    eexists. split; [done|]. exists chunks; eexists (CSock kin _ kfin). split_and!; [done|done|done|].
    eapply (Receiving _ chunks []); cbn; [by rewrite Hp|by rewrite Hsq|by rewrite Hcq].
Qed.

Lemma rounds_run kss arrived s :
  Forall (Forall alone) kss → serving1 arrived s →
  ∃ s', rounds handler sockfd kss s = Done s' ∧ serving1 (arrived ++ concat (sent_by fd <$> kss)) s'.
Proof.
  intros Hks. revert arrived s. induction Hks as [|ks kss Hk Hks IH]; intros arrived s Hs; cbn [rounds]; [by exists s; rewrite app_nil_r|].
  destruct (round_ok ks arrived s Hk Hs) as (s1 & -> & Hs1). destruct (IH _ _ Hs1) as (s2 & Hr & Hs2). exists s2. split; [done|].
  rewrite fmap_cons. cbn [concat]. by rewrite app_assoc.
Qed.
End single.

(** ** Theorems *)

(** A connection that has just been accepted. *)
Definition one_client (sockfd fd : Z) : proactor :=
  Proactor [] [] [Op EVENT_READ fd BUFFER_LENGTH] [Op EVENT_ACCEPT sockfd 0] [] {[fd := CSock [] [] false]} [].

(** A single client of the io_uring network is served: whatever the sizes of
    its receives and the batching of completions, and while sends are complete, the
    loop does not fault, what it sent is cut into pieces, and the replies sent are
    the handler's replies to the pieces in order, all of them or all but the last. *)
Theorem proactor_serves_one handler sockfd fd kss :
  (∀ m, (length (handler m) ≤ BUFFER_LENGTH)%nat) → Forall (Forall (alone fd)) kss →
  ∃ s chunks k, rounds handler sockfd kss (one_client sockfd fd) = Done s ∧ po_socks s !! fd = Some k ∧
    concat (sent_by fd <$> kss) = concat chunks ++ cs_in k ∧
    (cs_out k = concat (handler <$> chunks) ∨ ∃ c, last chunks = Some c ∧ cs_out k ++ handler c = concat (handler <$> chunks)).
Proof.
  intros Hfit Hks. destruct (rounds_run handler sockfd fd Hfit kss [] (one_client sockfd fd) Hks) as (s & Hr & chunks & [kin kout kfin] & Hk & Hfin & Harr & Hst).
  { exists [], (CSock [] [] false). split_and!; [apply lookup_insert_eq|done|done|]. by eapply (Receiving _ _ _ _ [] []). }
  exists s, chunks, (CSock kin kout kfin). cbn [cs_in cs_out cs_fin] in *. split_and!; [done|done|by rewrite <-Harr|].
  destruct Hst as [chunks pops|chunks c|chunks c pops|chunks m]; [by left| | |by left].
  all: right; exists c; split; [by rewrite last_snoc|]; symmetry; exact (replies_snoc handler chunks c).
Qed.

Definition in_two : list (list kevent) :=
  [[Arrive 5 (lit "ab")]; [Recv 1 1]; [Send 1 1024]; [Recv 1 9]; [Send 1 1024]].

Lemma proactor_serves_one_witness :
  ∃ s chunks k, rounds (λ m, take 4 m) 3 in_two (one_client 3 5) = Done s ∧ po_socks s !! 5 = Some k ∧
    concat (sent_by 5 <$> in_two) = concat chunks ++ cs_in k ∧
    (cs_out k = concat ((λ m, take 4 m) <$> chunks) ∨ ∃ c, last chunks = Some c ∧ cs_out k ++ take 4 c = concat ((λ m, take 4 m) <$> chunks)).
Proof.
  apply (proactor_serves_one (λ m, take 4 m) 3 5 in_two).
  - intros m. rewrite length_take. unfold BUFFER_LENGTH. lia.
  - repeat (apply Forall_cons_2 || apply Forall_nil_2); simpl; unfold BUFFER_LENGTH; done || lia.
Defined.

(** Connections share one buffer: when the data of two clients arrives before
    either has been handled, the server reads the second client's data twice, and
    the first client gets the reply to the other's request. *)
Theorem proactor_mixes_clients :
  match rounds (λ m, m) 3 [[Accept 0 5]; [Accept 0 6]; [Arrive 5 (lit "mine"); Arrive 6 (lit "your"); Recv 0 9; Recv 1 9]; [Send 1 9; Send 1 9]]
          (proactor_start 3) with
  | Done s => cs_out <$> po_socks s !! 5 = Some (lit "your") ∧ cs_out <$> po_socks s !! 6 = Some (lit "your")
  | Fault _ => False
  end.
Proof. vm_compute. split; reflexivity. Qed.
