(* ===== verification/XdpFilter.v ===== *)
(** * The packet filter (xdp/xdp.bpf.c, xdp/xdp.h)

    The eBPF program that runs on every received frame and copies the payload of
    the TCP segments for the server's port into a ring buffer, the state of the
    model. A frame is the bytes between data and data_end; a read outside it is a
    fault. *)

From S2P Require Import Prelude Rdb.

Definition ETH_P_IP : Z := 0x0800.
Definition IPPROTO_TCP : Z := 6.
Definition MAX_DATA : Z := 16384.
Definition XDP_PASS : Z := 2.

(** sizeof of struct ethhdr, iphdr and tcphdr *)
Definition ETH_SIZE : Z := 14.
Definition IP_SIZE : Z := 20.
Definition TCP_SIZE : Z := 20.

(** struct event; addresses and ports are the values the machine loads, the
    sequence number is in host order. *)
Record event := Event {
  ev_saddr       : Z;
  ev_daddr       : Z;
  ev_sport       : Z;
  ev_dport       : Z;
  ev_seq         : Z;
  ev_full_len    : Z;
  ev_payload_len : Z;
  ev_payload     : bytes
}.

(** ** Reading a frame *)

Abbreviation X := (M (list event)).

(** [n] bytes at offset [off] of the frame. *)
Definition load (data : bytes) (off : Z) (n : nat) : X bytes :=
  if (0 <=? off) && (off + Z.of_nat n <=? strlen data)
  then mret (take n (drop (Z.to_nat off) data)) else fail OutOfBounds.

(** The unsigned number in some bytes, as the machine loads it and in network
    order. *)
Definition host (b : bytes) : Z := le_decode b.
Definition net (b : bytes) : Z := le_decode (rev b).

(** bpf_htons: what the machine loads where the network order says [z]. *)
Definition htons (z : Z) : Z := (z mod 256) * 256 + z / 256 mod 256.

(** ptr + size <= end *)
Definition bounds_ok (data : bytes) (ptr size : Z) : bool := ptr + size <=? strlen data.

(** The bit fields ihl and doff. *)
Definition low_nibble (b : bytes) : Z := Z.land (host b) 15.
Definition high_nibble (b : bytes) : Z := Z.shiftr (host b) 4.

(** bpf_ringbuf_reserve and bpf_ringbuf_submit; reserving fails when the ring is
    full. *)
Definition ringbuf_submit (e : event) : X unit := modify (λ l, l ++ [e]).

(** ** xdp_filter *)

Definition xdp_filter (target_port : Z) (data : bytes) : X Z :=
  let eth := 0 in
  if negb (bounds_ok data eth ETH_SIZE) then mret XDP_PASS else
  h_proto ← load data (eth + 12) 2;
  if negb (host h_proto =? htons ETH_P_IP) then mret XDP_PASS else
  let ip := eth + ETH_SIZE in
  if negb (bounds_ok data ip IP_SIZE) then mret XDP_PASS else
  protocol ← load data (ip + 9) 1;
  if negb (host protocol =? IPPROTO_TCP) then mret XDP_PASS else
  ihl ← load data ip 1;
  let ip_len := low_nibble ihl * 4 in
  if ip_len <? IP_SIZE then mret XDP_PASS else
  let tcp := ip + ip_len in
  if negb (bounds_ok data tcp TCP_SIZE) then mret XDP_PASS else
  dest ← load data (tcp + 2) 2;
  if negb (target_port =? 0) && negb (host dest =? htons target_port) then mret XDP_PASS else
  doff ← load data (tcp + 12) 1;
  let tcp_len := high_nibble doff * 4 in
  if tcp_len <? TCP_SIZE then mret XDP_PASS else
  let payload := tcp + tcp_len in
  if strlen data <=? payload then mret XDP_PASS else
  let full_len := strlen data - payload in
  if full_len <=? 0 then mret XDP_PASS else
  let copy_len := if MAX_DATA <? full_len then MAX_DATA else full_len in
  ok ← ask_sys;
  if negb ok then mret XDP_PASS else
  saddr ← load data (ip + 12) 4;
  daddr ← load data (ip + 16) 4;
  source ← load data tcp 2;
  dest ← load data (tcp + 2) 2;
  seq ← load data (tcp + 4) 4;
  copied ← load data payload (Z.to_nat copy_len);
  ringbuf_submit (Event (host saddr) (host daddr) (host source) (host dest) (net seq) full_len copy_len copied);;
  mret XDP_PASS.

(** ** Frames *)

(** A TCP segment as the peer's stack frames it: TCP options perhaps (timestamps
    for one), and after the payload the padding that Ethernet adds to frames below its minimum. The
    fields the filter does not look at are arbitrary. *)
Record segment := Segment {
  sg_saddr   : bytes;
  sg_daddr   : bytes;
  sg_sport   : bytes;
  sg_dport   : bytes;
  sg_seq     : Z;
  sg_rest    : bytes;    (* the flags, window, checksum and urgent pointer *)
  sg_opts    : bytes;    (* TCP options *)
  sg_data    : bytes
}.

Definition be_encode (n : nat) (z : Z) : bytes := rev (le_encode n z).

(** The data offset, in words of four bytes, in the high half. *)
Definition doff_byte (s : segment) : bytes := [to_byte (16 * (5 + strlen (sg_opts s) / 4))].

Definition frame_bytes (macs ip_head ip_mid ack : bytes) (s : segment) (padding : bytes) : bytes :=
  macs ++ be_encode 2 ETH_P_IP ++
  [Byte.x45] ++ ip_head ++ le_encode 1 IPPROTO_TCP ++ ip_mid ++ sg_saddr s ++ sg_daddr s ++
  sg_sport s ++ sg_dport s ++ be_encode 4 (sg_seq s) ++ ack ++ doff_byte s ++ sg_rest s ++
  sg_opts s ++ sg_data s ++ padding.

(** The header fields a segment travels under. *)
Record framing := Framing {
  fr_macs    : bytes;    (* the Ethernet addresses *)
  fr_ip_head : bytes;    (* tos, length, id, fragment offset, ttl *)
  fr_ip_mid  : bytes;    (* header checksum *)
  fr_ack     : bytes     (* acknowledgement number *)
}.

Definition framing_ok (f : framing) : Prop :=
  length (fr_macs f) = 12%nat ∧ length (fr_ip_head f) = 8%nat ∧ length (fr_ip_mid f) = 2%nat ∧ length (fr_ack f) = 4%nat.

Definition segment_ok (s : segment) : Prop :=
  length (sg_saddr s) = 4%nat ∧ length (sg_daddr s) = 4%nat ∧ length (sg_sport s) = 2%nat ∧
  length (sg_dport s) = 2%nat ∧ length (sg_rest s) = 7%nat ∧ 0 ≤ sg_seq s < 2 ^ 32 ∧
  strlen (sg_opts s) ≤ 40 ∧ (4 | strlen (sg_opts s)).

Definition frame (f : framing) (s : segment) (padding : bytes) : bytes :=
  frame_bytes (fr_macs f) (fr_ip_head f) (fr_ip_mid f) (fr_ack f) s padding.

(** What the filter reports for a segment whose payload it takes to be [p]. *)
Definition event_of (s : segment) (p : bytes) : event :=
  Event (host (sg_saddr s)) (host (sg_daddr s)) (host (sg_sport s)) (host (sg_dport s)) (sg_seq s)
    (strlen p) (Z.min (strlen p) MAX_DATA) (take (Z.to_nat (Z.min (strlen p) MAX_DATA)) p).

(** ** Lemmas *)

Lemma wp_load data off n Q E l t :
  0 ≤ off → off + Z.of_nat n ≤ strlen data → Q (take n (drop (Z.to_nat off) data)) l t →
  wp (load data off n) Q E l t.
Proof. intros H1 H2 HQ. unfold load. replace (_ && _) with true by lia. done. Qed.

Lemma low_nibble_range b : 0 ≤ low_nibble b < 16.
Proof.
  unfold low_nibble. change 15 with (Z.ones 4). rewrite Z.land_ones by lia. apply Z.mod_pos_bound. lia.
Qed.

Lemma host_nonneg b : 0 ≤ host b.
Proof. unfold host. induction b as [|c b IH]; simpl; [done|]. pose proof (uchar_range c). lia. Qed.

Lemma high_nibble_nonneg b : 0 ≤ high_nibble b.
Proof. apply Z.shiftr_nonneg, host_nonneg. Qed.

(** Bytes at a place of a concatenation. *)
Lemma load_at (a b c data : bytes) off n :
  data = a ++ b ++ c → off = strlen a → n = length b →
  0 ≤ off ∧ off + Z.of_nat n ≤ strlen data ∧ take n (drop (Z.to_nat off) data) = b.
Proof.
  intros -> -> ->. unfold strlen. rewrite !length_app, Nat2Z.id, drop_app_length, take_app_length. split_and!; [lia|lia|done].
Qed.

Lemma doff_nibble s :
  strlen (sg_opts s) ≤ 40 → high_nibble (doff_byte s) = 5 + strlen (sg_opts s) / 4.
Proof.
  intros Ho. unfold high_nibble, host, doff_byte. cbn [le_decode]. rewrite uchar_to_byte, Z.shiftr_div_pow2 by done.
  assert (0 ≤ strlen (sg_opts s) / 4 ≤ 10).
  { unfold strlen in *. split; [apply Z.div_pos; lia|apply Z.div_le_upper_bound; lia]. }
  rewrite Z.mod_small by lia. change (2 ^ 4) with 16. rewrite Z.mul_0_r, Z.add_0_r, Z.mul_comm. by apply Z.div_mul.
Qed.

(** ** Theorems *)

(** C29: on any frame at all the filter reads only bytes inside it, lets the frame
    pass, and reports at most one event, whose payload is no longer than the
    frame and than MAX_DATA. *)
Theorem xdp_filter_safe target_port data E l t :
  wp (xdp_filter target_port data) (λ r l' _, r = XDP_PASS ∧ (l' = l ∨
    ∃ e, l' = l ++ [e] ∧ strlen (ev_payload e) = ev_payload_len e ∧
      0 < ev_payload_len e ≤ MAX_DATA ∧ ev_payload_len e ≤ ev_full_len e ≤ strlen data)) E l t.
Proof.
  unfold xdp_filter, bounds_ok, ETH_SIZE, IP_SIZE, TCP_SIZE, MAX_DATA. cbv zeta.
  assert (wp (mret XDP_PASS) (λ r l' _, r = XDP_PASS ∧ (l' = l ∨
    ∃ e, l' = l ++ [e] ∧ strlen (ev_payload e) = ev_payload_len e ∧
      0 < ev_payload_len e ≤ 16384 ∧ ev_payload_len e ≤ ev_full_len e ≤ strlen data)) E l t) as Hpass
    by (split; [done|by left]).
  destruct (0 + 14 <=? strlen data) eqn:H1; [cbn [negb]|exact Hpass]. to_prop.
  wp_step. apply wp_load; [lia|lia|]. destruct (_ =? _); [cbn [negb]|exact Hpass].
  destruct (_ <=? _) eqn:H2; [cbn [negb]|exact Hpass]. to_prop.
  wp_step. apply wp_load; [lia|lia|]. destruct (_ =? _); [cbn [negb]|exact Hpass].
  wp_step. apply wp_load; [lia|lia|]. pose proof (low_nibble_range (take 1 (drop (Z.to_nat (0 + 14)) data))) as Hn.
  set (n := low_nibble _) in *. destruct (_ <? _); [exact Hpass|].
  destruct (_ <=? _) eqn:H3; [cbn [negb]|exact Hpass]. to_prop.
  wp_step. apply wp_load; [lia|lia|]. destruct (_ && _); [exact Hpass|].
  wp_step. apply wp_load; [lia|lia|].
  pose proof (high_nibble_nonneg (take 1 (drop (Z.to_nat (0 + 14 + n * 4 + 12)) data))) as Hd.
  set (d := high_nibble _) in *. destruct (_ <? _); [exact Hpass|].
  destruct (_ <=? _) eqn:H4; [exact Hpass|]. to_prop. destruct (_ <=? 0) eqn:H5; [exact Hpass|]. to_prop.
  wp_steps. destruct (sys_ok E t); [cbn [negb]|exact Hpass].
  set (full := strlen data - _) in *. set (copy := if 16384 <? full then 16384 else full).
  assert (0 < copy ≤ 16384 ∧ copy ≤ full) as Hc by (unfold copy; destruct (_ <? _) eqn:?; to_prop; lia).
  repeat (wp_step; apply wp_load; [lia|lia|]). unfold ringbuf_submit. wp_steps.
  split; [done|]. right. eexists. split; [done|]. cbn. split_and!; try lia.
  unfold strlen in *. rewrite length_take, length_drop. lia.
Qed.

(** The places of the fields in a frame. *)
Lemma frame_field f s padding (a b c : bytes) off n :
  frame f s padding = a ++ b ++ c → off = strlen a → n = length b → ∀ Q E l t,
  Q b l t → wp (load (frame f s padding) off n) Q E l t.
Proof.
  intros Heq Hoff Hn Q E l t HQ. destruct (load_at a b c _ _ _ Heq Hoff Hn) as (H1 & H2 & H3).
  apply wp_load; [done|done|]. by rewrite H3.
Qed.

Lemma net_be_encode n z : 0 ≤ z < 2 ^ (8 * Z.of_nat n) → net (be_encode n z) = z.
Proof. intros Hz. unfold net, be_encode. rewrite rev_involutive, le_decode_encode. by apply Z.mod_small. Qed.

Ltac unfold_all := repeat match goal with x := _ ++ _ : bytes |- _ => unfold x; clear x end.

(** The next load of the filter reads [b], which [a] precedes. *)
Ltac field_at a b :=
  wp_step; eapply (frame_field _ _ _ a b);
    [ unfold_all; unfold frame, frame_bytes; rewrite <-?app_assoc; reflexivity
    | unfold_all; unfold strlen, be_encode; rewrite ?length_app, ?length_rev, ?le_encode_length; simpl length; lia
    | unfold be_encode; rewrite ?length_rev, ?le_encode_length; simpl length; lia
    | cbv beta; simpl negb; cbv iota ].

(** The filter reports a segment for the server's port exactly: its addresses,
    its sequence number and, as its payload, everything that follows the TCP
    header in the frame. For a frame without padding this is the segment's data. *)
Theorem xdp_filter_captures f s padding port E l t :
  framing_ok f → segment_ok s → port = 0 ∨ host (sg_dport s) = htons port →
  sg_data s ++ padding ≠ [] → sys_ok E t = true →
  wp (xdp_filter port (frame f s padding)) (λ r l' _, r = XDP_PASS ∧ l' = l ++ [event_of s (sg_data s ++ padding)]) E l t.
Proof.
  intros (F1 & F2 & F3 & F4) (S1 & S2 & S3 & S4 & S5 & S6 & S7 & S8) Hport Hne Hsys.
  pose proof (strlen_nonneg (sg_opts s)) as Hnn.
  assert (strlen (frame f s padding) = 54 + strlen (sg_opts s) + strlen (sg_data s ++ padding)) as Hlen.
  { unfold frame, frame_bytes, strlen, be_encode. rewrite !length_app, !length_rev, !le_encode_length. simpl. lia. }
  set (o := strlen (sg_opts s)) in *. set (d := sg_data s ++ padding) in *. assert (0 < strlen d) as Hd by (unfold strlen; destruct d; [done|simpl; lia]).
  unfold xdp_filter, bounds_ok, ETH_SIZE, IP_SIZE, TCP_SIZE. cbv zeta. rewrite Hlen.
  replace (0 + 14 <=? _) with true by lia. cbn [negb].
  pose (e := fr_macs f ++ be_encode 2 ETH_P_IP).
  pose (i := e ++ [Byte.x45] ++ fr_ip_head f ++ le_encode 1 IPPROTO_TCP ++ fr_ip_mid f ++ sg_saddr s ++ sg_daddr s).
  field_at (fr_macs f) (be_encode 2 ETH_P_IP). change (host _ =? htons ETH_P_IP) with true. cbn [negb].
  replace (0 + 14 + 20 <=? _) with true by lia. cbn [negb].
  field_at (e ++ [Byte.x45] ++ fr_ip_head f) (le_encode 1 IPPROTO_TCP).
  change (host _ =? IPPROTO_TCP) with true. cbn [negb].
  field_at e [Byte.x45]. change (low_nibble [Byte.x45]) with 5.
  replace (5 * 4 <? 20) with false by done. replace (0 + 14 + 5 * 4 + 20 <=? _) with true by lia. cbn [negb].
  field_at (i ++ sg_sport s) (sg_dport s).
  replace (negb (port =? 0) && negb (host (sg_dport s) =? htons port)) with false by (destruct Hport; lia).
  field_at (i ++ sg_sport s ++ sg_dport s ++ be_encode 4 (sg_seq s) ++ fr_ack f) (doff_byte s).
  rewrite doff_nibble by done. fold o. assert ((5 + o / 4) * 4 = 20 + o) as -> by (destruct S8 as [k ->]; rewrite Z.div_mul; lia).
  replace (20 + o <? 20) with false by lia.
  replace (_ + strlen d <=? _) with false by lia.
  replace (54 + o + strlen d - _) with (strlen d) by lia. replace (strlen d <=? 0) with false by lia.
  replace (if MAX_DATA <? strlen d then MAX_DATA else strlen d) with (Z.min (strlen d) MAX_DATA)
    by (destruct (_ <? _) eqn:?; to_prop; lia).
  wp_steps. rewrite Hsys. cbn [negb].
  field_at (e ++ [Byte.x45] ++ fr_ip_head f ++ le_encode 1 IPPROTO_TCP ++ fr_ip_mid f) (sg_saddr s).
  field_at (e ++ [Byte.x45] ++ fr_ip_head f ++ le_encode 1 IPPROTO_TCP ++ fr_ip_mid f ++ sg_saddr s) (sg_daddr s).
  field_at i (sg_sport s).
  field_at (i ++ sg_sport s) (sg_dport s).
  field_at (i ++ sg_sport s ++ sg_dport s) (be_encode 4 (sg_seq s)).
  set (n := Z.to_nat (Z.min (strlen d) MAX_DATA)).
  assert (take n d ++ drop n d = sg_data s ++ padding) as Htd by apply take_drop.
  wp_step. eapply (frame_field _ _ _ (i ++ sg_sport s ++ sg_dport s ++ be_encode 4 (sg_seq s) ++ fr_ack f ++ doff_byte s ++ sg_rest s ++ sg_opts s) (take n d) (drop n d)).
  { rewrite Htd. unfold i, e, frame, frame_bytes. by rewrite <-!app_assoc. }
  { unfold o, i, e, strlen, be_encode. rewrite !length_app, !length_rev, !le_encode_length. simpl length. lia. }
  { rewrite length_take. unfold n, strlen. lia. }
  unfold ringbuf_submit. wp_steps. split; [done|]. unfold event_of. fold n. by rewrite net_be_encode by done.
Qed.

(** Frames for port 8888 whose other fields are zero. *)
Definition plain_frame : framing := Framing (replicate 12 NUL) (replicate 8 NUL) [NUL; NUL] (replicate 4 NUL).

Definition segment_of (seq : Z) (data : bytes) : segment :=
  Segment (replicate 4 NUL) (replicate 4 NUL) (be_encode 2 40000) (be_encode 2 8888) seq (replicate 7 NUL) [] data.

Lemma xdp_filter_captures_witness :
  wp (xdp_filter 8888 (frame plain_frame (segment_of 7 (lit "*1")) []))
    (λ r l' _, r = XDP_PASS ∧ l' = [event_of (segment_of 7 (lit "*1")) (lit "*1")]) calm [] 0.
Proof.
  refine (xdp_filter_captures plain_frame (segment_of 7 (lit "*1")) [] 8888 calm [] 0 _ _ (or_intror eq_refl) _ eq_refl).
  - by split_and!.
  - split_and!; try done. by exists 0.
  - done.
Defined.
