(* ===== verification/Forwarder.v ===== *)
(** * The forwarder (xdp/xdp.c)

    The process beside the master that turns the captured segments back into the
    streams of commands clients send, keeps the writes in a queue and sends them
    to the slave one by one, each acknowledged before the next. Its globals are
    the record [fw]; the slave's end of the connection is an instance of [Peer]. *)

From S2P Require Import Prelude Resp Cstdlib Rdb XdpFilter.

Definition MAX_CMD_LEN : Z := 8 * 1024 * 1024.
Definition WAL_MAX_BYTES : Z := 512 * 1024 * 1024.
Definition WAL_RING_CAP : Z := 65536.
Definition FLOW_MAX : nat := 1024.
Definition FLOW_BUF_MAX : Z := 8 * 1024 * 1024.
Definition FLOW_IDLE_SEC : Z := 60.

(** ** State *)

Record forwarder_config := FwConfig {
  fc_slave_ip           : bytes;
  fc_slave_port         : Z;
  fc_capture_port       : Z;
  fc_ifaces             : bytes;
  fc_connect_timeout_ms : Z;
  fc_ack_timeout_ms     : Z
}.

Definition cfg0 : forwarder_config :=
  FwConfig (lit "192.168.32.132") 8000 8888 (lit "lo,ens33") 3000 3000.

(** wal_entry_t; NULL is None *)
Record wal_entry := WalEntry { we_seq : Z; we_len : Z; we_data : option bytes }.
Definition wal_entry0 : wal_entry := WalEntry 0 0 None.

(** wal_queue_t; the slots of the ring that are not in the map are zero *)
Record wal_queue := Wal {
  w_ring           : option (gmap Z wal_entry);
  w_head           : Z;
  w_tail           : Z;
  w_cap            : Z;
  w_next_seq       : Z;
  w_last_acked_seq : Z;
  w_bytes          : Z;
  w_count          : Z
}.

Record flow_key := FlowKey { fk_saddr : Z; fk_daddr : Z; fk_sport : Z; fk_dport : Z }.
Definition flow_key0 : flow_key := FlowKey 0 0 0 0.

(** struct flow_state; [fs_buf] is the first [len] bytes of the buffer *)
Record flow_state := Flow {
  fs_used      : bool;
  fs_key       : flow_key;
  fs_buf       : bytes;
  fs_have_seq  : bool;
  fs_next_seq  : Z;
  fs_last_seen : Z
}.
Definition flow0 : flow_state := Flow false flow_key0 [] false 0 0.

(** The other end of slave_fd: accepting a connection, taking bytes, answering a
    recv with room for some (None: a timeout, an error or the end), the close. *)
Class Peer (S : Type) := {
  p_connect : M S bool;
  p_send    : bytes → M S unit;
  p_recv    : nat → M S (option bytes);
  p_close   : M S unit
}.

(** The globals. [f_streams]: what has been sent on the connections made so far,
    the latest last. *)
Record fw (S : Type) := Fw {
  f_running  : bool;
  f_slave_fd : bool;               (* slave_fd >= 0 *)
  f_syncing  : bool;
  f_wal      : wal_queue;
  f_flows    : list flow_state;
  f_cfg      : forwarder_config;
  f_streams  : list bytes;
  f_peer     : S
}.
Arguments Fw {S}. Arguments f_running {S}. Arguments f_slave_fd {S}. Arguments f_syncing {S}. Arguments f_wal {S}.
Arguments f_flows {S}. Arguments f_cfg {S}. Arguments f_streams {S}. Arguments f_peer {S}.

Section setters.
Context {S : Type}.
Implicit Types f : fw S.
Definition set_running b f := Fw b (f_slave_fd f) (f_syncing f) (f_wal f) (f_flows f) (f_cfg f) (f_streams f) (f_peer f).
Definition set_slave_fd b f := Fw (f_running f) b (f_syncing f) (f_wal f) (f_flows f) (f_cfg f) (f_streams f) (f_peer f).
Definition set_syncing b f := Fw (f_running f) (f_slave_fd f) b (f_wal f) (f_flows f) (f_cfg f) (f_streams f) (f_peer f).
Definition set_wal w f := Fw (f_running f) (f_slave_fd f) (f_syncing f) w (f_flows f) (f_cfg f) (f_streams f) (f_peer f).
Definition set_flows l f := Fw (f_running f) (f_slave_fd f) (f_syncing f) (f_wal f) l (f_cfg f) (f_streams f) (f_peer f).
Definition set_streams l f := Fw (f_running f) (f_slave_fd f) (f_syncing f) (f_wal f) (f_flows f) (f_cfg f) l (f_peer f).
Definition set_peer (p : S) f := Fw (f_running f) (f_slave_fd f) (f_syncing f) (f_wal f) (f_flows f) (f_cfg f) (f_streams f) p.
End setters.

(** ** The command line *)

(** strtol: the number, whether it is in range, whether there were digits, and
    what follows it. *)
Definition strtol (s : bytes) : Z * bool * bool * bytes :=
  let '(neg, s1) := split_sign (skip_space s) in
  let '(d, r) := span_digits s1 in
  let v := if neg : bool then - numeral 0 d else numeral 0 d in
  (saturate v, (LLONG_MIN <=? v) && (v <=? LLONG_MAX), match d with [] => false | _ => true end, r).

Definition parse_int_arg (s : bytes) (min max : Z) : option Z :=
  let '(v, in_range, digits, rest) := strtol s in
  if negb in_range || negb digits || negb (bool_decide (rest = [])) || (v <? min) || (max <? v)
  then None else Some (s32 v).

(** The result of parse_args and the configuration it leaves. *)
Fixpoint parse_args (argv : list bytes) (c : forwarder_config) : Z * forwarder_config :=
  match argv with
  | [] => (0, c)
  | a :: rest =>
      if (strcmp a (lit "--help") =? 0) || (strcmp a (lit "-h") =? 0) then (1, c) else
      match rest with
      | [] => (-1, c)
      | v :: rest' =>
          if strcmp a (lit "--slave-ip") =? 0 then
            parse_args rest' (FwConfig (snprintf_s 63 v) (fc_slave_port c) (fc_capture_port c) (fc_ifaces c)
                                (fc_connect_timeout_ms c) (fc_ack_timeout_ms c))
          else if strcmp a (lit "--slave-port") =? 0 then
            match parse_int_arg v 1 65535 with
            | None => (-1, c)
            | Some n => parse_args rest' (FwConfig (fc_slave_ip c) n (fc_capture_port c) (fc_ifaces c)
                                            (fc_connect_timeout_ms c) (fc_ack_timeout_ms c))
            end
          else if strcmp a (lit "--capture-port") =? 0 then
            match parse_int_arg v 0 65535 with
            | None => (-1, c)
            | Some n => parse_args rest' (FwConfig (fc_slave_ip c) (fc_slave_port c) n (fc_ifaces c)
                                            (fc_connect_timeout_ms c) (fc_ack_timeout_ms c))
            end
          else if strcmp a (lit "--ifaces") =? 0 then
            parse_args rest' (FwConfig (fc_slave_ip c) (fc_slave_port c) (fc_capture_port c) (snprintf_s 255 v)
                                (fc_connect_timeout_ms c) (fc_ack_timeout_ms c))
          else if strcmp a (lit "--connect-timeout-ms") =? 0 then
            match parse_int_arg v 100 600000 with
            | None => (-1, c)
            | Some n => parse_args rest' (FwConfig (fc_slave_ip c) (fc_slave_port c) (fc_capture_port c) (fc_ifaces c)
                                            n (fc_ack_timeout_ms c))
            end
          else if strcmp a (lit "--ack-timeout-ms") =? 0 then
            match parse_int_arg v 100 600000 with
            | None => (-1, c)
            | Some n => parse_args rest' (FwConfig (fc_slave_ip c) (fc_slave_port c) (fc_capture_port c) (fc_ifaces c)
                                            (fc_connect_timeout_ms c) n)
            end
          else (-1, c)
      end
  end.

(** ** Framing *)

(** The digits of read_number_crlf; None when the number is too large. *)
Fixpoint read_digits (v : Z) (p : bytes) : option (Z * bytes) :=
  match p with
  | c :: p' =>
      if is_digit c then
        let v' := v * 10 + (uchar c - 48) in
        if FLOW_BUF_MAX <? v' then None else read_digits v' p'
      else Some (v, p)
  | [] => Some (v, [])
  end.

(** The return value, *out and the position after the line. *)
Definition read_number_crlf (p : bytes) : Z * Z * bytes :=
  match read_digits 0 p with
  | None => (-1, 0, p)
  | Some (v, r) =>
      if bool_decide (length r = length p) then (-1, 0, p) else
      match r with
      | c :: d :: r' => if decide (c = CR ∧ d = LF) then (1, v, r') else (-1, 0, p)
      | _ => (0, 0, p)
      end
  end.

(** The loop over the bulk strings: what resp_command_len returns, or None and
    the position after them. *)
Fixpoint command_bulks (argc : nat) (p : bytes) : Z + bytes :=
  match argc with
  | O => inr p
  | S argc' =>
      match p with
      | [] => inl 0
      | c :: p1 =>
          if decide (c = DOLLAR) then
            let '(ret, bulk_len, p2) := read_number_crlf p1 in
            if ret <=? 0 then inl ret else
            if (bulk_len <? 0) || (FLOW_BUF_MAX <? bulk_len) then inl (-1) else
            if strlen p2 <? bulk_len + 2 then inl 0 else
            match expect_crlf (drop (Z.to_nat bulk_len) p2) with
            | None => inl (-1)
            | Some p3 => command_bulks argc' p3
            end
          else inl (-1)
      end
  end.

Definition resp_command_len (buf : bytes) : Z :=
  match buf with
  | [] => 0
  | c :: p =>
      if decide (c = STAR) then
        let '(ret, argc, p1) := read_number_crlf p in
        if ret <=? 0 then ret else
        if (argc <=? 0) || (1024 <? argc) then -1 else
        match command_bulks (Z.to_nat argc) p1 with
        | inl ret => ret
        | inr rest => strlen buf - strlen rest
        end
      else -1
  end.

(** ** The name of a command *)

Fixpoint skip_digits (p : bytes) : bytes :=
  match p with
  | [] => []
  | c :: p' => if is_digit c then skip_digits p' else p
  end.

(** The name as the C string in cmd_name[out_len]; None is -1. *)
Definition get_command_name (payload : bytes) (out_len : nat) : outcome (option bytes) :=
  match payload with
  | c :: p =>
      if (strlen payload <? 4) || negb (bool_decide (c = STAR)) then Done None else
      match expect_crlf (skip_digits p) with
      | Some (d :: p1) =>
          if negb (bool_decide (d = DOLLAR)) then Done None else
          match parse_digits 0 p1 with
          | Fault f => Fault f
          | Done (bulk_len, p2) =>
              match expect_crlf p2 with
              | None => Done None
              | Some p3 =>
                  if (bulk_len <=? 0) || (strlen p3 <? bulk_len + 2) then Done None
                  else Done (Some (cstr (take (Nat.min (Z.to_nat bulk_len) (out_len - 1)) p3)))
              end
          end
      | _ => Done None
      end
  | [] => Done None
  end.

Definition tolower (c : byte) : byte :=
  if (65 <=? uchar c) && (uchar c <=? 90) then to_byte (uchar c + 32) else c.

(** strcasecmp (a, b) == 0 *)
Definition same_name (a b : bytes) : bool := bool_decide (tolower <$> a = tolower <$> b).

Definition write_cmds : list bytes :=
  [lit "SET"; lit "RSET"; lit "HSET"; lit "SKSET";
   lit "DEL"; lit "RDEL"; lit "HDEL"; lit "SKDEL";
   lit "MOD"; lit "RMOD"; lit "HMOD"; lit "SKMOD";
   lit "EXPIRE"; lit "REXPIRE"; lit "HEXPIRE"; lit "SKEXPIRE";
   lit "SETEX"; lit "RSETEX"; lit "HSETEX"; lit "SKSETEX";
   lit "VSET"].

Definition is_write_command (cmd : bytes) : bool := existsb (same_name cmd) write_cmds.

Section forwarder.
Context {S : Type} `{Peer S}.

Abbreviation F := (M (fw S)).

Definition on_peer {A} (m : M S A) : F A := zoom f_peer set_peer m.

(** time (NULL) *)
Definition time_now : F Z := ms ← kvs_current_time_ms; mret (ms / 1000).

(** ** Flows *)

Definition flow_key_of (e : event) : flow_key := FlowKey (ev_saddr e) (ev_daddr e) (ev_sport e) (ev_dport e).

Definition flow_key_equal (a b : flow_key) : bool :=
  (fk_saddr a =? fk_saddr b) && (fk_daddr a =? fk_daddr b) && (fk_sport a =? fk_sport b) && (fk_dport a =? fk_dport b).

(** (int32_t)(a - b) < 0 *)
Definition tcp_seq_before (a b : Z) : bool := s32 (u32 (a - b)) <? 0.

Definition put_flow (i : nat) (st : flow_state) : F unit := modify (λ f, set_flows (<[i := st]> (f_flows f)) f).

Definition reset_flow_state (i : nat) (st : flow_state) : F unit :=
  now ← time_now;
  put_flow i (Flow (fs_used st) (fs_key st) [] false 0 now).

(** A slot after free_flow_state; one that is not in use is left as it is. *)
Definition free_flow_state (st : flow_state) : flow_state := if fs_used st then flow0 else st.

Definition cleanup_idle_flows : F unit :=
  now ← time_now;
  modify (λ f, set_flows ((λ st, if fs_used st && (now - fs_last_seen st >? FLOW_IDLE_SEC)
                                 then free_flow_state st else st) <$> f_flows f) f).

Definition free_all_flows : F unit := modify (λ f, set_flows (free_flow_state <$> f_flows f) f).

(** The first slot that satisfies [P]. *)
Fixpoint find_slot (P : flow_state → bool) (l : list flow_state) : option nat :=
  match l with
  | [] => None
  | st :: l' => if P st then Some 0%nat else Datatypes.S <$> find_slot P l'
  end.

(** The index and the state of the flow; None is NULL. *)
Definition get_flow_state (e : event) : F (option (nat * flow_state)) :=
  let key := flow_key_of e in
  flows ← gets f_flows;
  match find_slot (λ st, fs_used st && flow_key_equal (fs_key st) key) flows with
  | Some i =>
      now ← time_now;
      let st := default flow0 (flows !! i) in
      let st := Flow (fs_used st) (fs_key st) (fs_buf st) (fs_have_seq st) (fs_next_seq st) now in
      put_flow i st;; mret (Some (i, st))
  | None =>
      match find_slot (λ st, negb (fs_used st)) flows with
      | Some i =>
          ok ← kvs_malloc;
          if negb ok then mret None else
          now ← time_now;
          let st := default flow0 (flows !! i) in
          let st := Flow true key [] (fs_have_seq st) (fs_next_seq st) now in
          put_flow i st;; mret (Some (i, st))
      | None => mret None
      end
  end.

(** The return value, and the payload when it is 0: what to skip and how long
    the rest is; the flow's next sequence number. *)
Definition normalize_payload_by_seq (i : nat) (st : flow_state) (e : event) : F (Z * Z * Z * flow_state) :=
  let seen next := Flow (fs_used st) (fs_key st) (fs_buf st) true next (fs_last_seen st) in
  if negb (fs_have_seq st) then
    let st' := seen (u32 (ev_seq e + ev_full_len e)) in
    put_flow i st';; mret (0, 0, ev_payload_len e, st')
  else if ev_seq e =? fs_next_seq st then
    let st' := seen (u32 (fs_next_seq st + ev_full_len e)) in
    put_flow i st';; mret (0, 0, ev_payload_len e, st')
  else if tcp_seq_before (ev_seq e) (fs_next_seq st) then
    let overlap := u32 (fs_next_seq st - ev_seq e) in
    if ev_full_len e <=? overlap then mret (1, 0, ev_payload_len e, st) else
    let payload_len := u32 (ev_payload_len e - overlap) in
    let st' := seen (u32 (fs_next_seq st + payload_len)) in
    put_flow i st';; mret (0, overlap, payload_len, st')
  else reset_flow_state i st;; mret (-1, 0, 0, st).

(** ** The queue of writes *)

Definition wal_slot (w : wal_queue) (i : Z) : wal_entry :=
  match w_ring w with Some r => default wal_entry0 (r !! i) | None => wal_entry0 end.

Definition wal_clear : F unit :=
  modify (λ f, let w := f_wal f in
    set_wal (Wal ((λ _, ∅) <$> w_ring w) 0 0 (w_cap w) 1 0 0 0) f).

Definition wal_init : F Z :=
  ok ← kvs_malloc;
  if negb ok then modify (set_wal (Wal None 0 0 WAL_RING_CAP 0 0 0 0));; mret (-1) else
  modify (set_wal (Wal (Some ∅) 0 0 WAL_RING_CAP 1 0 0 0));; mret 0.

Definition wal_destroy : F unit :=
  wal_clear;; modify (set_wal (Wal None 0 0 0 0 0 0 0)).

Definition wal_push (data : bytes) (len : Z) : F Z :=
  if len <=? 0 then mret 0 else
  if MAX_CMD_LEN <? len then mret (-1) else
  w ← gets f_wal;
  if WAL_MAX_BYTES <? w_bytes w + len then mret (-1) else
  match w_ring w with
  | None => mret (-1)
  | Some ring =>
      if w_cap w <=? w_count w then mret (-1) else
      ok ← kvs_malloc;
      if negb ok then mret (-1) else
      let e := WalEntry (w_next_seq w) len (Some (take (Z.to_nat len) data)) in
      modify (set_wal (Wal (Some (<[w_tail w := e]> ring)) (w_head w) ((w_tail w + 1) mod w_cap w) (w_cap w)
                         (u64 (w_next_seq w + 1)) (w_last_acked_seq w) (w_bytes w + len) (w_count w + 1)));;
      mret 0
  end.

Definition wal_pop_head : F unit :=
  w ← gets f_wal;
  match w_ring w with
  | None => mret tt
  | Some ring =>
      if w_count w <=? 0 then mret tt else
      let e := wal_slot w (w_head w) in
      modify (set_wal (Wal (Some (<[w_head w := wal_entry0]> ring)) ((w_head w + 1) mod w_cap w) (w_tail w) (w_cap w)
                         (w_next_seq w) (we_seq e) (u64 (w_bytes w - we_len e)) (w_count w - 1)))
  end.

(** ** The slave's connection *)

(** Bytes that went out on the connection. *)
Definition sent (data : bytes) : F unit :=
  modify (λ f, set_streams (match rev (f_streams f) with
                            | [] => [data]
                            | d :: l => rev l ++ [d ++ data]
                            end) f);;
  on_peer (p_send data).

(** Each round sends something or ends, so the length bounds them. A send that
    is interrupted or would block is tried again. *)
Fixpoint send_raw (fuel : nat) (data : bytes) : F Z :=
  match data with
  | [] => mret 0
  | _ =>
      match fuel with
      | O => fail OutOfFuel
      | Datatypes.S fuel' =>
          granted ← ask_send;
          match granted with
          | None | Some O => mret (-1)
          | Some n => sent (take n data);; send_raw fuel' (drop n data)
          end
      end
  end.

(** strstr (hay, needle) != NULL *)
Fixpoint strstr (needle hay : bytes) : bool :=
  bool_decide (take (length needle) hay = needle) ||
  match hay with [] => false | _ :: hay' => strstr needle hay' end.

Definition ACK : bytes := lit "+ACK" ++ crlf.

(** char buf[64]; each round reads something or ends. *)
Fixpoint wait_ack_loop (fuel : nat) (buf : bytes) : F Z :=
  if (length buf <? 63)%nat then
    match fuel with
    | O => fail OutOfFuel
    | Datatypes.S fuel' =>
        data ← on_peer (p_recv (63 - length buf));
        match data with
        | None | Some [] => mret (-1)
        | Some d =>
            let buf' := buf ++ take (63 - length buf) d in
            if strstr ACK (cstr buf') then mret 0 else wait_ack_loop fuel' buf'
        end
    end
  else mret (-1).

Definition wait_slave_ack : F Z := wait_ack_loop 63 [].

Definition close_slave_conn : F unit :=
  open ← gets f_slave_fd;
  if open : bool then on_peer p_close;; modify (set_slave_fd false) else mret tt.

(** usleep sleeps at least the time it is given, so after one attempt for every
    100 ms of the timeout the deadline has passed. *)
Fixpoint connect_loop (fuel : nat) (start : Z) : F Z :=
  running ← gets f_running;
  if negb running then mret (-1) else
  fd ← ask_sys;                                      (* socket *)
  if negb fd then mret (-1) else
  ip ← ask_sys;                                      (* inet_pton *)
  if negb ip then mret (-1) else
  ok ← on_peer p_connect;
  if ok : bool then
    modify (λ f, set_slave_fd true (set_streams (f_streams f ++ [[]]) f));; mret 0
  else
    now ← kvs_current_time_ms;
    c ← gets f_cfg;
    if now - start >=? fc_connect_timeout_ms c then mret (-1) else
    match fuel with
    | O => mret (-1)
    | Datatypes.S fuel' => connect_loop fuel' start
    end.

Definition connect_slave : F Z :=
  open ← gets f_slave_fd;
  if open : bool then mret 0 else
  start ← kvs_current_time_ms;
  c ← gets f_cfg;
  connect_loop (Z.to_nat (fc_connect_timeout_ms c / 100 + 1)) start.

(** The entry at the head: connected, sent and acknowledged, or the connection is
    closed and -1. *)
Definition flush_head (head : wal_entry) : F Z :=
  r ← connect_slave;
  if negb (r =? 0) then mret (-1) else
  match we_data head with
  | None => fail NullDeref
  | Some data =>
      r ← send_raw (length data) (take (Z.to_nat (we_len head)) data);
      r ← (if negb (r =? 0) then mret r else wait_slave_ack);
      if negb (r =? 0) then close_slave_conn;; mret (-1) else mret 0
  end.

(** while (running && !syncing && wal.count > 0); every round takes an entry off
    the queue or ends. *)
Fixpoint flush_loop (fuel : nat) : F Z :=
  f ← gets id;
  let w := f_wal f in
  if f_running f && negb (f_syncing f) && (0 <? w_count w) then
    match fuel with
    | O => fail OutOfFuel
    | Datatypes.S fuel' =>
        r ← flush_head (wal_slot w (w_head w));
        if negb (r =? 0) then mret (-1) else
        wal_pop_head;; flush_loop fuel'
    end
  else mret 0.

Definition flush_wal : F Z :=
  fuel ← gets (λ f, Z.to_nat (w_count (f_wal f)));
  flush_loop fuel.

(** ** Commands and events *)

Definition process_full_command (payload : bytes) (payload_len : Z) : F Z :=
  match get_command_name payload 64 with
  | Fault x => fail x
  | Done None => mret 0
  | Done (Some cmd_name) =>
      if same_name cmd_name (lit "SYNC") then
        wal_clear;; modify (set_syncing true);; _r ← connect_slave; mret 0
      else if same_name cmd_name (lit "FINSYNC") then
        modify (set_syncing false);; _r ← flush_wal; mret 0
      else if negb (is_write_command cmd_name) then mret 0 else
      r ← wal_push payload payload_len;
      if negb (r =? 0) then modify (set_running false);; mret (-1) else
      syncing ← gets f_syncing;
      (if negb syncing then _r ← flush_wal; mret tt else mret tt);;
      mret 0
  end.

(** while (st->len > 0); every command shortens the buffer. *)
Fixpoint event_loop (fuel : nat) (i : nat) : F unit :=
  flows ← gets f_flows;
  let st := default flow0 (flows !! i) in
  match fs_buf st with
  | [] => mret tt
  | buf =>
      let cmd_len := resp_command_len buf in
      if cmd_len =? 0 then mret tt else
      if cmd_len <? 0 then reset_flow_state i st else
      match fuel with
      | O => fail OutOfFuel
      | Datatypes.S fuel' =>
          _r ← process_full_command (take (Z.to_nat cmd_len) buf) cmd_len;
          put_flow i (Flow (fs_used st) (fs_key st) (drop (Z.to_nat cmd_len) buf) (fs_have_seq st) (fs_next_seq st)
                        (fs_last_seen st));;
          event_loop fuel' i
      end
  end.

Definition handle_event (e : event) : F Z :=
  if ev_payload_len e =? 0 then mret 0 else
  if MAX_DATA <? ev_payload_len e then mret 0 else
  if ev_payload_len e <? ev_full_len e then
    st ← get_flow_state e;
    match st with
    | Some (i, st) => reset_flow_state i st;; mret 0
    | None => mret 0
    end
  else
  st ← get_flow_state e;
  match st with
  | None => mret 0
  | Some (i, st) =>
      '(ret, skip, payload_len, st) ← normalize_payload_by_seq i st e;
      if negb (ret =? 0) then mret 0 else
      if payload_len =? 0 then mret 0 else
      if FLOW_BUF_MAX <? strlen (fs_buf st) + payload_len then reset_flow_state i st;; mret 0 else
      if strlen (ev_payload e) <? skip + payload_len then fail OutOfBounds else
      let data := take (Z.to_nat payload_len) (drop (Z.to_nat skip) (ev_payload e)) in
      now ← time_now;
      put_flow i (Flow (fs_used st) (fs_key st) (fs_buf st ++ data) (fs_have_seq st) (fs_next_seq st) now);;
      event_loop (length (fs_buf st ++ data)) i;;
      mret 0
  end.

(** ** main *)

(** The work of every fiftieth round of the main loop. *)
Definition housekeeping : F unit :=
  cleanup_idle_flows;;
  f ← gets id;
  if negb (f_syncing f) && (0 <? w_count (f_wal f)) then _r ← flush_wal; mret tt else mret tt.

(** A round of the main loop that finds [events] in the ring buffer. *)
Fixpoint handle_events (events : list event) : F unit :=
  match events with
  | [] => mret tt
  | e :: events' => _r ← handle_event e; handle_events events'
  end.

(** while (running): what the ring buffer holds in each round. *)
Fixpoint main_loop (rounds : list (list event)) (loop_count : Z) : F unit :=
  match rounds with
  | [] => mret tt
  | events :: rounds' =>
      running ← gets f_running;
      if negb running then mret tt else
      handle_events events;;
      poll ← ask_sys;
      if negb poll then mret tt else
      if 50 <=? loop_count + 1 then housekeeping;; main_loop rounds' 0
      else main_loop rounds' (loop_count + 1)
  end.

(** From wal_init to the cleanup, the program loaded and attached. *)
Definition forwarder_main (rounds : list (list event)) : F Z :=
  modify (set_flows (replicate FLOW_MAX flow0));;
  r ← wal_init;
  if negb (r =? 0) then mret 1 else
  main_loop rounds 0;;
  close_slave_conn;;
  wal_destroy;;
  free_all_flows;;
  mret 0.
End forwarder.
