(* ===== verification/ForwarderSpec.v ===== *)
(** * What the forwarder captures and delivers

    Framing of the captured streams, the queue as a list, the reassembly of a
    client's stream from its segments, and the streams sent to the slave. *)

From S2P Require Import Prelude Resp Cstdlib Rdb XdpFilter Forwarder.

(** ** Framing *)

(** A command the forwarder frames. *)
Definition frameable (argv : list bytes) : Prop :=
  (1 ≤ length argv ≤ 1024)%nat ∧ Forall (λ a, strlen a ≤ FLOW_BUF_MAX) argv.

(** The prefixes of a command that end in the mark of a number. *)
Definition header (argv : list bytes) : bytes := STAR :: dec (Z.of_nat (length argv)) ++ crlf.
Definition marks (argv : list bytes) : list bytes :=
  [STAR] :: ((λ i, header argv ++ concat (encode_bulk <$> take i argv) ++ [DOLLAR]) <$> seq 0 (length argv)).

Lemma resp_encode_header argv : resp_encode argv = header argv ++ concat (encode_bulk <$> argv).
Proof. unfold resp_encode, header. simpl. by rewrite <-app_assoc. Qed.

Lemma read_digits_app acc l rest :
  Forall (λ c, is_digit c = true) l → 0 ≤ acc → numeral acc l ≤ FLOW_BUF_MAX →
  match rest with [] => True | c :: _ => is_digit c = false end →
  read_digits acc (l ++ rest) = Some (numeral acc l, rest).
Proof.
  intros Hl. revert acc. induction Hl as [|c l Hc Hl IH]; intros acc Hacc Hmax Hrest; simpl.
  - destruct rest as [|c rest]; simpl; [done|]. by rewrite Hrest.
  - rewrite Hc. simpl in Hmax. unfold is_digit in Hc. to_prop.
    pose proof (numeral_mono (acc * 10 + (uchar c - 48)) l Hl ltac:(lia)).
    rewrite (proj2 (Z.ltb_ge _ _)) by lia. apply IH; [lia|done|done].
Qed.

Lemma dec_pos n : (0 < length (dec n))%nat.
Proof. pose proof (dec_nonempty n). destruct (dec n); [done|]. simpl. lia. Qed.

Lemma read_number_dec n rest :
  0 ≤ n ≤ FLOW_BUF_MAX → read_number_crlf (dec n ++ crlf ++ rest) = (1, n, rest).
Proof.
  intros Hn. unfold read_number_crlf.
  rewrite read_digits_app; [|apply dec_digits; lia|done|rewrite numeral_dec by lia; lia|done].
  rewrite numeral_dec by lia. rewrite bool_decide_false; [done|]. rewrite !length_app.
  pose proof (dec_pos n). lia.
Qed.

(** A number that is cut short: only its very start is an error. *)
Lemma read_number_prefix n q m :
  0 ≤ n ≤ FLOW_BUF_MAX → dec n ++ crlf = q ++ m → m ≠ [] →
  (read_number_crlf q).1.1 = if decide (q = []) then -1 else 0.
Proof.
  intros Hn Heq Hm. assert (∀ l, (∃ k, dec n = l ++ k) →
    Forall (λ c, is_digit c = true) l ∧ numeral 0 l ≤ FLOW_BUF_MAX) as Hpre.
  { intros l [k Hk]. pose proof (dec_digits n ltac:(lia)) as Hd. rewrite Hk in Hd. apply Forall_app in Hd as [Hl Hk'].
    split; [done|]. pose proof (numeral_dec n ltac:(lia)) as Hv. rewrite Hk, numeral_app in Hv.
    assert (0 ≤ numeral 0 l) by (by apply numeral_mono).
    pose proof (numeral_mono (numeral 0 l) k Hk' ltac:(lia)). lia. }
  unfold read_number_crlf. apply app_eq_app in Heq as (k & [[Hq Hk]|[Hq Hk]]).
  - destruct (Hpre q ltac:(by exists k)) as [Hd Hv].
    pose proof (read_digits_app 0 q [] Hd ltac:(lia) Hv I) as Hr. rewrite app_nil_r in Hr. rewrite Hr.
    destruct q as [|c q]; [done|]. rewrite bool_decide_false by done. done.
  - destruct (Hpre (dec n) ltac:(exists []; by rewrite app_nil_r)) as [Hd Hv]. subst q.
    rewrite read_digits_app; [|done|done|done|].
    2:{ destruct k as [|c k]; [done|]. by injection Hk as <- _. }
    pose proof (dec_pos n). rewrite decide_False; [|intros [H0 _]%app_eq_nil; rewrite H0 in *; simpl in *; lia].
    rewrite bool_decide_false by (rewrite length_app; lia).
    destruct k as [|c [|d k]]; [done|done|]. injection Hk as <- <- Hk. by destruct k, m.
Qed.

#[local] Opaque crlf.

Lemma command_bulks_encode argv k rest :
  Forall (λ a, strlen a ≤ FLOW_BUF_MAX) argv →
  command_bulks (length argv + k) (concat (encode_bulk <$> argv) ++ rest) = command_bulks k rest.
Proof.
  intros Hargv. induction Hargv as [|a argv Ha Hargv IH]; [done|].
  rewrite fmap_cons. cbn [concat length command_bulks plus]. unfold encode_bulk at 1. rewrite <-app_assoc.
  cbn [app]. rewrite decide_True by done. rewrite <-!app_assoc.
  pose proof (strlen_nonneg a). rewrite read_number_dec by lia. cbn [Z.leb Z.compare].
  replace (_ || _) with false by lia.
  rewrite (proj2 (Z.ltb_ge _ _)); [|unfold strlen; rewrite !length_app, crlf_length; lia].
  by rewrite drop_bulk, expect_crlf_app, IH.
Qed.

(** Bulk strings that are cut short. *)
Lemma command_bulks_prefix argv q m :
  Forall (λ a, strlen a ≤ FLOW_BUF_MAX) argv → concat (encode_bulk <$> argv) = q ++ m → m ≠ [] →
  command_bulks (length argv) q = inl 0 ∨
  command_bulks (length argv) q = inl (-1) ∧ ∃ i, (i < length argv)%nat ∧ q = concat (encode_bulk <$> take i argv) ++ [DOLLAR].
Proof.
  intros Hargv. revert q. induction Hargv as [|a argv Ha Hargv IH]; intros q Heq Hm.
  { symmetry in Heq. by apply app_eq_nil in Heq as [_ ->]. }
  cbn [length command_bulks]. destruct q as [|c q]; [by left|].
  rewrite fmap_cons in Heq. cbn [concat] in Heq. unfold encode_bulk at 1 in Heq.
  cbn [app] in Heq. injection Heq as <- Heq. rewrite decide_True by done. pose proof (strlen_nonneg a) as Hnn.
  rewrite <-!app_assoc in Heq. rewrite app_assoc in Heq. apply app_eq_app in Heq as (k & [[Hq Hk]|[Hq Hk]]).
  - destruct (decide (k = [])) as [->|Hkn].
    + rewrite app_nil_r in Hq. subst q. pose proof (read_number_dec (strlen a) [] ltac:(lia)) as Hr.
      rewrite app_nil_r in Hr. rewrite Hr. cbn [Z.leb Z.compare]. replace (_ || _) with false by lia.
      left. by rewrite (proj2 (Z.ltb_lt _ _)) by (unfold strlen at 1; simpl; lia).
    + pose proof (read_number_prefix (strlen a) q k ltac:(lia) Hq Hkn) as Hr.
      destruct (read_number_crlf q) as [[ret v] r]. cbn [fst] in Hr. subst ret.
      destruct (decide (q = [])) as [->|]; cbn [Z.leb Z.compare]; [right|by left].
      split; [done|]. exists 0%nat. split; [lia|done].
  - subst q. rewrite <-app_assoc, read_number_dec by lia. cbn [Z.leb Z.compare].
    replace (_ || _) with false by lia. destruct (_ <? _) eqn:Hlt; [by left|]. to_prop.
    assert (∃ j, k = (a ++ crlf) ++ j ∧ concat (encode_bulk <$> argv) = j ++ m) as (j & -> & Hj).
    { rewrite app_assoc in Hk. apply app_eq_app in Hk as (j & [[Hj ->]|[-> Hk]]); [|by exists j].
      exists []. assert (j = []) as ->; [|by rewrite !app_nil_r in *].
      destruct j; [done|]. apply (f_equal length) in Hj. rewrite !length_app, crlf_length in Hj.
      unfold strlen in *. simpl in Hj. lia. }
    rewrite <-app_assoc, drop_bulk, expect_crlf_app.
    destruct (IH j Hj Hm) as [->|(-> & i & Hi & ->)]; [by left|right]. split; [done|].
    exists (S i). split; [lia|]. cbn [take]. rewrite fmap_cons. cbn [concat]. unfold encode_bulk at 2.
    cbn [app]. by rewrite <-!app_assoc.
Qed.

Lemma argc_in_range argv : frameable argv → 0 ≤ Z.of_nat (length argv) ≤ FLOW_BUF_MAX ∧
  ((Z.of_nat (length argv) <=? 0) || (1024 <? Z.of_nat (length argv))) = false.
Proof. intros [Hn _]. unfold FLOW_BUF_MAX. lia. Qed.

(** A complete command is framed at its length. *)
Lemma command_len_encode argv rest :
  frameable argv → resp_command_len (resp_encode argv ++ rest) = strlen (resp_encode argv).
Proof.
  intros Hf. destruct (argc_in_range argv Hf) as [Hn Hb]. destruct Hf as [_ Hargv].
  unfold resp_command_len, resp_encode at 1. cbn [app]. rewrite decide_True by done.
  rewrite <-!app_assoc, read_number_dec by done. cbn [Z.leb Z.compare]. rewrite Hb, Nat2Z.id.
  rewrite <-(Nat.add_0_r (length argv)), command_bulks_encode by done. cbn [command_bulks].
  unfold resp_encode, strlen. cbn [length app].
  rewrite !length_app. lia.
Qed.

(** One that is cut short is incomplete, unless the cut follows a mark. *)
Lemma command_len_prefix argv q m :
  frameable argv → resp_encode argv = q ++ m → m ≠ [] →
  resp_command_len q = 0 ∨ resp_command_len q = -1 ∧ q ∈ marks argv.
Proof.
  intros Hf Heq Hm. destruct (argc_in_range argv Hf) as [Hn Hb]. destruct Hf as [_ Hargv].
  destruct q as [|c q]; [by left|]. unfold resp_command_len. unfold resp_encode in Heq. cbn [app] in Heq.
  injection Heq as <- Heq. rewrite decide_True by done. rewrite app_assoc in Heq.
  apply app_eq_app in Heq as (k & [[Hq Hk]|[Hq Hk]]).
  - destruct (decide (k = [])) as [->|Hkn].
    + rewrite app_nil_r in Hq. subst q. pose proof (read_number_dec (Z.of_nat (length argv)) [] Hn) as Hr.
      rewrite app_nil_r in Hr. rewrite Hr. cbn [Z.leb Z.compare]. rewrite Hb, Nat2Z.id. left.
      destruct argv as [|a argv]; [simpl in Hb; lia|]. done.
    + pose proof (read_number_prefix _ q k Hn Hq Hkn) as Hr.
      destruct (read_number_crlf q) as [[ret v] r]. cbn [fst] in Hr. subst ret.
      destruct (decide (q = [])) as [->|]; cbn [Z.leb Z.compare]; [right|by left]. split; [done|by left].
  - subst q. rewrite <-app_assoc, read_number_dec by done. cbn [Z.leb Z.compare]. rewrite Hb, Nat2Z.id.
    destruct (command_bulks_prefix argv k m Hargv Hk Hm) as [->|(-> & i & Hi & ->)]; [by left|right].
    split; [done|]. unfold marks, header. right. apply list_elem_of_fmap. exists i.
    split; [|apply elem_of_seq; lia]. cbn [app]. by rewrite <-!app_assoc.
Qed.

(** After a mark the forwarder sees an error. *)
Lemma command_len_mark argv q : frameable argv → q ∈ marks argv → resp_command_len q = -1.
Proof.
  intros Hf. destruct (argc_in_range argv Hf) as [Hn Hb]. destruct Hf as [_ Hargv].
  intros [->|(i & -> & Hi%elem_of_seq)%list_elem_of_fmap]%elem_of_cons; [done|].
  unfold resp_command_len, header. cbn [app]. rewrite decide_True by done. rewrite <-!app_assoc, read_number_dec by done.
  cbn [Z.leb Z.compare]. rewrite Hb, Nat2Z.id.
  replace (length argv) with (length (take i argv) + S (length argv - i - 1))%nat by (rewrite length_take; lia).
  rewrite command_bulks_encode by (by apply Forall_take). done.
Qed.

Lemma skip_digits_dec n p : 0 ≤ n → skip_digits (dec n ++ crlf ++ p) = crlf ++ p.
Proof.
  intros Hn. pose proof (dec_digits n Hn) as Hd. induction Hd as [|c l Hc Hl IH]; [done|].
  cbn [app skip_digits]. by rewrite Hc.
Qed.

(** The name of a command is its first argument, cut to what the buffer holds. *)
Lemma command_name_encode name args :
  frameable (name :: args) → name ≠ [] →
  get_command_name (resp_encode (name :: args)) 64 = Done (Some (cstr (take 63 name))).
Proof.
  intros Hf Hne. destruct (argc_in_range _ Hf) as [Hn _]. destruct Hf as [_ Hargv].
  apply Forall_cons in Hargv as [Hname _]. pose proof (strlen_nonneg name) as Hnn.
  assert (0 < strlen name) as Hpos by (unfold strlen; destruct name; [done|simpl; lia]).
  unfold get_command_name, resp_encode. rewrite fmap_cons. cbn [concat].
  replace (_ || _) with false; last first.
  { symmetry. apply orb_false_iff. split; [|done]. apply Z.ltb_ge. unfold strlen. cbn [length].
    rewrite !length_app, crlf_length. pose proof (encode_bulk_length name). lia. }
  rewrite skip_digits_dec, expect_crlf_app by lia. unfold encode_bulk at 1. cbn [app]. change (negb (bool_decide (DOLLAR = DOLLAR))) with false. cbv iota.
  rewrite <-!app_assoc, parse_digits_dec by (unfold FLOW_BUF_MAX, INT_MAX in *; lia). rewrite expect_crlf_app.
  replace (_ || _) with false.
  - do 3 f_equal. rewrite take_app_le; [|unfold strlen; lia].
    destruct (decide (length name ≤ 63)%nat).
    + by rewrite !take_ge by (unfold strlen; lia).
    + f_equal. unfold strlen. lia.
  - symmetry. apply orb_false_iff. split; [lia|]. apply Z.ltb_ge. unfold strlen. rewrite !length_app, crlf_length. lia.
Qed.

(** What a client sends for some commands. *)
Abbreviation stream cmds := (concat (resp_encode <$> cmds)).

(** ** The queue *)

(** The ring holds the commands [L], oldest first, under consecutive numbers. *)
Record wal_rep (w : wal_queue) (L : list bytes) : Prop := {
  wr_ring  : is_Some (w_ring w);
  wr_cap   : 0 < w_cap w;
  wr_head  : 0 ≤ w_head w < w_cap w;
  wr_tail  : w_tail w = (w_head w + w_count w) mod w_cap w;
  wr_count : w_count w = Z.of_nat (length L);
  wr_fits  : w_count w ≤ w_cap w;
  wr_bytes : w_bytes w = strlen (concat L);
  wr_limit : w_bytes w ≤ WAL_MAX_BYTES;
  wr_next  : w_next_seq w = u64 (w_last_acked_seq w + 1 + w_count w);
  wr_slots : ∀ i c, L !! i = Some c → c ≠ [] ∧ strlen c ≤ MAX_CMD_LEN ∧
    wal_slot w ((w_head w + Z.of_nat i) mod w_cap w) =
      WalEntry (u64 (w_last_acked_seq w + 1 + Z.of_nat i)) (strlen c) (Some c)
}.

Lemma mod_ring_inj c h i j :
  0 < c → 0 ≤ i < c → 0 ≤ j < c → (h + i) mod c = (h + j) mod c → i = j.
Proof.
  intros Hc Hi Hj Heq. assert ((i - j) mod c = 0) as Hm.
  { replace (i - j) with ((h + i) - (h + j)) by lia. rewrite Zminus_mod, Heq, Z.sub_diag. apply Z.mod_0_l. lia. }
  apply Z.mod_divide in Hm as [k Hk]; [|lia]. destruct (decide (k = 0)); nia.
Qed.

Lemma u64_add a b : u64 (u64 a + b) = u64 (a + b).
Proof. unfold u64. apply Zplus_mod_idemp_l. Qed.

Lemma strlen_app (a b : bytes) : strlen (a ++ b) = strlen a + strlen b.
Proof. unfold strlen. rewrite length_app. lia. Qed.

Lemma strlen_concat_snoc L (c : bytes) : strlen (concat (L ++ [c])) = strlen (concat L) + strlen c.
Proof. rewrite concat_app, strlen_app. cbn [concat]. by rewrite app_nil_r. Qed.

Section queue.
Context {S : Type} `{Peer S}.
Implicit Types (f : fw S) (w : wal_queue) (L : list bytes).

Lemma wal_init_spec E f t :
  no_oom E → wp wal_init (λ r f' _, r = 0 ∧ ∃ w, f' = set_wal w f ∧ wal_rep w [] ∧ w_cap w = WAL_RING_CAP) E f t.
Proof.
  intros HE. unfold wal_init. wp_steps. rewrite HE. cbn [negb]. wp_steps. split; [done|]. eexists. split; [done|].
  split; [|done]. split; done.
Qed.

Lemma wal_clear_spec E f t L :
  wal_rep (f_wal f) L →
  wp wal_clear (λ _ f' _, ∃ w, f' = set_wal w f ∧ wal_rep w [] ∧ w_cap w = w_cap (f_wal f)) E f t.
Proof.
  intros [[r Hr] Hcap _ _ _ _ _ _ _ _]. unfold wal_clear. wp_steps. eexists. split; [done|]. split; [|done].
  split; cbn; try done; try lia. rewrite Hr. by eexists.
Qed.

(** The command is appended, or nothing changes and a limit is to blame. *)
Lemma wal_push_spec E f t L data :
  wal_rep (f_wal f) L → data ≠ [] →
  wp (wal_push data (strlen data)) (λ r f' _,
    r = 0 ∧ (∃ w, f' = set_wal w f ∧ wal_rep w (L ++ [data]) ∧ w_cap w = w_cap (f_wal f)) ∨
    r = -1 ∧ f' = f ∧ (MAX_CMD_LEN < strlen data ∨ WAL_MAX_BYTES < strlen (concat L) + strlen data ∨
      w_cap (f_wal f) ≤ Z.of_nat (length L) ∨ ∃ t', malloc_ok E t' = false)) E f t.
Proof.
  intros Hrep Hne. pose proof Hrep as [[ring Hr] Hcap Hhead Htail Hcount Hfits Hbytes Hlim Hnext Hslots].
  assert (0 < strlen data) as Hpos by (unfold strlen; destruct data; [done|simpl; lia]).
  unfold wal_push. rewrite (proj2 (Z.leb_gt _ _)) by lia. destruct (MAX_CMD_LEN <? _) eqn:H1; to_prop; wp_steps.
  { right. split_and!; [done|done|by left]. }
  set (w := f_wal f) in *. destruct (WAL_MAX_BYTES <? _) eqn:H2; to_prop; wp_steps.
  { right. split_and!; [done|done|]. right. left. lia. }
  rewrite Hr. destruct (w_cap w <=? w_count w) eqn:H3; to_prop; wp_steps.
  { right. split_and!; [done|done|]. right. right. left. lia. }
  destruct (malloc_ok E t) eqn:Hm; cbn [negb]; wp_steps; [|right; split_and!; [done|done|]; right; right; right; by exists t].
  left. split; [done|]. eexists. split; [done|]. split; [|done]. split; cbn.
  - by eexists.
  - done.
  - done.
  - rewrite Htail, Zplus_mod_idemp_l. f_equal. lia.
  - rewrite length_app. simpl. lia.
  - lia.
  - rewrite strlen_concat_snoc. lia.
  - lia.
  - rewrite Hnext, u64_add. f_equal. lia.
  - intros i c Hi. assert (take (Z.to_nat (strlen data)) data = data) as Htk by (apply take_ge; unfold strlen; lia).
    rewrite Htk. apply lookup_app_Some in Hi as [Hi|[Hge Hi]].
    + destruct (Hslots i c Hi) as (? & ? & Hs). pose proof (lookup_lt_Some _ _ _ Hi) as Hlt. split_and!; [done|done|].
      unfold wal_slot in *. cbn. rewrite Hr in Hs. rewrite lookup_insert_ne; [done|].
      rewrite Htail. intros Heq%mod_ring_inj; lia.
    + apply list_lookup_singleton_Some in Hi as [Hi <-]. split_and!; [done|lia|]. unfold wal_slot. cbn.
      replace (w_head w + Z.of_nat i) with (w_head w + w_count w) by lia.
      rewrite <-Htail, lookup_insert_eq. cbn. f_equal. rewrite Hnext. f_equal. lia.
Qed.

Lemma wal_pop_spec E f t c L :
  wal_rep (f_wal f) (c :: L) →
  wp wal_pop_head (λ _ f' _, ∃ w, f' = set_wal w f ∧ wal_rep w L ∧ w_cap w = w_cap (f_wal f)) E f t.
Proof.
  intros Hrep. pose proof Hrep as [[ring Hr] Hcap Hhead Htail Hcount Hfits Hbytes Hlim Hnext Hslots].
  set (w := f_wal f) in *. cbn [length] in Hcount.
  destruct (Hslots 0%nat c eq_refl) as (Hne & Hlen & Hs0). rewrite Z.add_0_r, Z.mod_small in Hs0 by lia.
  cbn [concat] in Hbytes. rewrite strlen_app in Hbytes. pose proof (strlen_nonneg c). pose proof (strlen_nonneg (concat L)).
  unfold wal_pop_head. wp_steps. fold w. rewrite Hr, (proj2 (Z.leb_gt _ _)) by lia. wp_steps.
  eexists. split; [done|]. split; [|done]. rewrite Hs0. split; cbn.
  - by eexists.
  - done.
  - apply Z.mod_pos_bound. lia.
  - rewrite Htail, Zplus_mod_idemp_l. f_equal. lia.
  - lia.
  - lia.
  - unfold u64. rewrite Z.mod_small; [lia|]. unfold WAL_MAX_BYTES in *. lia.
  - unfold u64. rewrite Z.mod_small; [lia|]. unfold WAL_MAX_BYTES in *. lia.
  - rewrite Hnext, <-(Z.add_assoc (u64 _)), u64_add. f_equal. lia.
  - intros i d Hi. destruct (Hslots (Datatypes.S i) d Hi) as (? & ? & Hs). split_and!; [done|done|].
    pose proof (lookup_lt_Some _ _ _ Hi) as Hlt. unfold wal_slot in *. cbn. rewrite Hr in Hs.
    rewrite Zplus_mod_idemp_l. replace (w_head w + 1 + Z.of_nat i) with (w_head w + Z.of_nat (Datatypes.S i)) by lia.
    rewrite lookup_insert_ne; [rewrite Hs; f_equal; rewrite <-(Z.add_assoc (u64 _)), u64_add; f_equal; lia|].
    intros Heq. assert (w_head w mod w_cap w = (w_head w + Z.of_nat (Datatypes.S i)) mod w_cap w) as Hbad
      by (rewrite Z.mod_small by lia; exact Heq).
    rewrite <-(Z.add_0_r (w_head w)) in Hbad at 1. apply mod_ring_inj in Hbad; lia.
Qed.
End queue.

(** ** The streams sent to the slave *)

(** The commands [i] to [j] of [P], end to end. *)
Definition run (P : list bytes) (i j : nat) : bytes := concat (take (j - i) (drop i P)).

(** The streams of the connections made while the first [j] commands of [P] were
    acknowledged: each connection carries consecutive commands, starting at the
    first one without acknowledgement, and perhaps a part of the next. *)
Inductive sent_log (P : list bytes) : nat → list bytes → Prop :=
| sent_nothing : sent_log P 0 []
| sent_stream i j l q :
    sent_log P i l → (i ≤ j ≤ length P)%nat → q `prefix_of` default [] (P !! j) →
    sent_log P j (l ++ [run P i j ++ q]).

Lemma run_nil P i : run P i i = [].
Proof. unfold run. by rewrite Nat.sub_diag, take_0. Qed.

Lemma run_snoc P i j c : (i ≤ j)%nat → P !! j = Some c → run P i (S j) = run P i j ++ c.
Proof.
  intros Hij Hj. unfold run. replace (S j - i)%nat with (S (j - i)) by lia.
  rewrite (take_S_r _ _ c) by (rewrite lookup_drop; by replace (i + (j - i))%nat with j by lia).
  rewrite concat_app. cbn [concat]. by rewrite app_nil_r.
Qed.

Lemma run_app P Q i j : (i ≤ j ≤ length P)%nat → run (P ++ Q) i j = run P i j.
Proof.
  intros Hij. unfold run. rewrite drop_app_le by lia. rewrite take_app_le; [done|]. rewrite length_drop. lia.
Qed.

Lemma sent_log_le P j l : sent_log P j l → (j ≤ length P)%nat.
Proof. destruct 1; lia. Qed.

Lemma sent_log_app P Q j l : sent_log P j l → sent_log (P ++ Q) j l.
Proof.
  induction 1 as [|i j l q Hl IH Hij Hq]; [constructor|]. rewrite <-(run_app P Q) by lia.
  constructor; [done|rewrite length_app; lia|].
  destruct (P !! j) as [c|] eqn:Hc; [by rewrite (lookup_app_l_Some _ _ _ _ Hc)|].
  apply prefix_nil_inv in Hq as ->. apply prefix_nil.
Qed.

Section streams.
Context {S : Type} `{Peer S}.
Implicit Types (f : fw S) (A L : list bytes).

(** [A] has been acknowledged, [L] waits; an open connection has nothing unacknowledged on it. *)
Record finv (A L : list bytes) (f : fw S) : Prop := {
  fi_wal  : wal_rep (f_wal f) L;
  fi_log  : sent_log (A ++ L) (length A) (f_streams f);
  fi_open : f_slave_fd f = true → ∃ i l, (i ≤ length A)%nat ∧ sent_log (A ++ L) i l ∧
              f_streams f = l ++ [run (A ++ L) i (length A)]
}.

(** What the functions of the connection leave alone. *)
Record same f f' : Prop := {
  sm_running : f_running f' = f_running f;
  sm_syncing : f_syncing f' = f_syncing f;
  sm_wal     : f_wal f' = f_wal f;
  sm_flows   : f_flows f' = f_flows f;
  sm_cfg     : f_cfg f' = f_cfg f
}.

#[local] Instance same_po : PreOrder same.
Proof. split; [by intros f|]. intros a b c [] []. split; congruence. Qed.

(** No operation of the peer is undefined. *)
Class PeerSafe (E : env) : Prop := {
  ps_connect s t : wp p_connect (λ _ _ _, True) E s t;
  ps_send d s t : wp (p_send d) (λ _ _ _, True) E s t;
  ps_recv n s t : wp (p_recv n) (λ _ _ _, True) E s t;
  ps_close s t : wp p_close (λ _ _ _, True) E s t
}.

Section safe.
Context (E : env) {Hsafe : PeerSafe E}.

Lemma sent_spec f t l s d :
  f_streams f = l ++ [s] →
  wp (sent d) (λ _ f' _, same f f' ∧ f_slave_fd f' = f_slave_fd f ∧ f_streams f' = l ++ [s ++ d]) E f t.
Proof.
  intros Hs. unfold sent, on_peer. wp_steps. eapply wp_mono; [apply ps_send|]. intros _ p t' _.
  cbn. rewrite Hs, rev_unit, rev_involutive. done.
Qed.

Lemma send_raw_spec f t fuel l s data :
  f_streams f = l ++ [s] → (length data ≤ fuel)%nat →
  wp (send_raw fuel data) (λ r f' _, same f f' ∧ f_slave_fd f' = f_slave_fd f ∧
    ∃ q, q `prefix_of` data ∧ f_streams f' = l ++ [s ++ q] ∧ (r = 0 → q = data)) E f t.
Proof.
  revert f t s data. induction fuel as [|fuel IH]; intros f t s data Hs Hf.
  { destruct data; [|simpl in Hf; lia]. cbn [send_raw]. wp_steps. split; [done|]. split; [done|].
    exists []. by rewrite app_nil_r. }
  destruct data as [|c data]; cbn [send_raw]; wp_steps.
  { split; [done|]. split; [done|]. exists []. by rewrite app_nil_r. }
  assert (same f f ∧ f_slave_fd f = f_slave_fd f ∧ ∃ q, q `prefix_of` c :: data ∧ f_streams f = l ++ [s ++ q] ∧
    (-1 = 0 → q = c :: data)) as Hnone.
  { split; [done|]. split; [done|]. exists []. rewrite app_nil_r. split; [apply prefix_nil|done]. }
  destruct (send_n E t) as [[|n]|]; wp_steps; [exact Hnone| |exact Hnone].
  eapply wp_mono; [by apply sent_spec|]. intros _ f1 t1 (Hsm & Hfd & Hs1).
  eapply wp_mono; [apply (IH f1 t1 _ _ Hs1); rewrite length_drop; simpl in *; lia|].
  intros r f2 t2 (Hsm2 & Hfd2 & q & [k Hq] & Hs2 & Hr). split; [by transitivity f1|]. split; [congruence|].
  exists (take (Datatypes.S n) (c :: data) ++ q). split_and!.
  - exists k. rewrite <-app_assoc, <-Hq. by rewrite take_drop.
  - by rewrite Hs2, app_assoc.
  - intros ->%Hr. apply take_drop.
Qed.

Lemma wait_ack_spec f t fuel buf :
  (63 ≤ fuel + length buf)%nat →
  wp (wait_ack_loop fuel buf) (λ _ f' _, same f f' ∧ f_slave_fd f' = f_slave_fd f ∧ f_streams f' = f_streams f) E f t.
Proof.
  revert f t buf. induction fuel as [|fuel IH]; intros f t buf Hf; cbn [wait_ack_loop];
    (destruct (length buf <? 63)%nat eqn:Hlt; [apply Nat.ltb_lt in Hlt|wp_steps; done]); [lia|].
  unfold on_peer. wp_steps. eapply wp_mono; [apply ps_recv|]. intros d p t1 _.
  destruct d as [[|c d]|]; wp_steps; [done| |done]. cbv zeta. destruct (strstr _ _); [wp_steps; done|].
  eapply wp_mono; [apply IH; rewrite length_app, length_take; cbn [length]; lia|].
  intros r f2 t2 (Hsm & Hfd & Hst). split; [by etransitivity; [|exact Hsm]|done].
Qed.

Lemma connect_loop_spec f t fuel start :
  wp (connect_loop fuel start) (λ r f' _, same f f' ∧
    (r = 0 ∧ f_slave_fd f' = true ∧ f_streams f' = f_streams f ++ [[]] ∨
     r = -1 ∧ f_slave_fd f' = f_slave_fd f ∧ f_streams f' = f_streams f)) E f t.
Proof.
  revert f t. induction fuel as [|fuel IH]; intros f t; cbn [connect_loop]; wp_steps;
    (destruct (f_running f) eqn:Hrun; cbn [negb]; wp_steps; [|by split; [|right]]);
    (destruct (sys_ok E t); cbn [negb]; wp_steps; [|by split; [|right]]);
    (destruct (sys_ok E _); cbn [negb]; unfold on_peer; wp_steps; [|by split; [|right]]);
    (eapply wp_mono; [apply ps_connect|]; intros [] p t1 _; wp_steps; [by split; [|left]|]);
    cbn; (destruct (_ >=? _); wp_steps; [by split; [|right]|]).
  - by split; [|right].
  - eapply wp_mono; [apply IH|]. intros r f2 t2 (Hsm & Hr). split; [by etransitivity; [|exact Hsm]|done].
Qed.

Lemma connect_spec A L f t :
  finv A L f →
  wp connect_slave (λ r f' _, same f f' ∧ finv A L f' ∧ (r = 0 → f_slave_fd f' = true)) E f t.
Proof.
  intros Hinv. unfold connect_slave. wp_steps. destruct (f_slave_fd f) eqn:Hfd; wp_steps; [done|].
  eapply wp_mono; [apply connect_loop_spec|].
  intros r f' t' (Hsm & Hr). split; [done|]. destruct Hinv as [Hw Hlog Hop]. pose proof (sent_log_le _ _ _ Hlog) as Hle.
  assert (wal_rep (f_wal f') L) as Hw' by (by rewrite (sm_wal _ _ Hsm)).
  destruct Hr as [(-> & Hfd' & Hst)|(-> & Hfd' & Hst)].
  - split; [|done]. split; [done| |].
    + rewrite Hst. pose proof (sent_stream _ _ (length A) _ [] Hlog ltac:(lia) ltac:(apply prefix_nil)) as Hs.
      by rewrite run_nil in Hs.
    + intros _. exists (length A), (f_streams f). rewrite Hst, run_nil. done.
  - split; [|done]. split; [done|by rewrite Hst|]. rewrite Hfd', Hfd. done.
Qed.

Lemma close_spec A L f t :
  wal_rep (f_wal f) L → sent_log (A ++ L) (length A) (f_streams f) →
  wp close_slave_conn (λ _ f' _, same f f' ∧ finv A L f') E f t.
Proof.
  intros Hw Hlog. unfold close_slave_conn, on_peer. wp_steps. destruct (f_slave_fd f) eqn:Hfd; wp_steps.
  - eapply wp_mono; [apply ps_close|]. intros _ p t' _. wp_steps. split; [done|]. by split.
  - split; [done|]. split; [done|done|]. by rewrite Hfd.
Qed.
(** What a flush leaves alone. *)
Record kept f f' : Prop := {
  kp_running : f_running f' = f_running f;
  kp_syncing : f_syncing f' = f_syncing f;
  kp_flows   : f_flows f' = f_flows f;
  kp_cfg     : f_cfg f' = f_cfg f;
  kp_cap     : w_cap (f_wal f') = w_cap (f_wal f)
}.

#[local] Instance kept_po : PreOrder kept.
Proof. split; [by intros f|]. intros a b c [] []. split; congruence. Qed.

Lemma same_kept f f' : same f f' → kept f f'.
Proof. intros []. split; congruence. Qed.

(** The head of the queue goes out and is acknowledged, or a part of it goes out
    on a connection that is then closed. *)
Lemma flush_head_spec A L f t c :
  finv A (c :: L) f →
  wp (flush_head (wal_slot (f_wal f) (w_head (f_wal f)))) (λ r f' _, same f f' ∧
    (r = -1 ∧ finv A (c :: L) f' ∨
     r = 0 ∧ ∃ i l, (i ≤ length A)%nat ∧ sent_log (A ++ c :: L) i l ∧
       f_streams f' = l ++ [run (A ++ c :: L) i (length A) ++ c])) E f t.
Proof.
  intros Hinv. unfold flush_head. wp_step. eapply wp_mono; [by apply connect_spec|]. intros r f1 t1 (Hsm1 & Hinv1 & Hop).
  destruct (r =? 0) eqn:Hr; to_prop; cbn [negb]; wp_steps; [|by split; [|left]].
  pose proof (fi_wal _ _ _ Hinv) as Hw. destruct (wr_slots _ _ Hw 0%nat c eq_refl) as (Hne & _ & Hslot).
  rewrite Z.add_0_r, Z.mod_small in Hslot by apply (wr_head _ _ Hw). rewrite Hslot. cbn [we_data we_len].
  rewrite (take_ge c (Z.to_nat (strlen c))) by (unfold strlen; lia).
  destruct (fi_open _ _ _ Hinv1 (Hop Hr)) as (i & l & Hi & Hl & Hst).
  wp_step. eapply wp_mono; [by apply (send_raw_spec f1 t1 (length c) l _ c Hst)|].
  intros r2 f2 t2 (Hsm2 & Hfd2 & q & Hq & Hst2 & Hr2). set (P := A ++ c :: L) in *.
  assert (P !! length A = Some c) as HA by (unfold P; by rewrite list_lookup_middle).
  assert (length A < length P)%nat as HP by (by eapply lookup_lt_Some).
  assert (∀ f3 t3, same f2 f3 → f_streams f3 = f_streams f2 →
    wp (close_slave_conn;; mret (-1)) (λ r f' _, same f f' ∧ (r = -1 ∧ finv A (c :: L) f' ∨
      r = 0 ∧ ∃ i l, (i ≤ length A)%nat ∧ sent_log P i l ∧ f_streams f' = l ++ [run P i (length A) ++ c])) E f3 t3) as Hfail.
  { intros f3 t3 Hsm3 Hst3. wp_step. eapply wp_mono; [apply (close_spec A (c :: L))|].
    - rewrite (sm_wal _ _ Hsm3), (sm_wal _ _ Hsm2). apply Hinv1.
    - rewrite Hst3, Hst2. apply sent_stream; [done|fold P; lia|]. fold P. by rewrite HA.
    - intros _ f4 t4 [Hsm4 Hinv4]. wp_steps. split; [|by left]. by transitivity f1; [|transitivity f2; [|transitivity f3]]. }
  wp_step. destruct (r2 =? 0) eqn:Hr2z; to_prop; cbn [negb]; wp_steps.
  - specialize (Hr2 Hr2z) as ->. eapply wp_mono; [apply wait_ack_spec; simpl; lia|]. intros r3 f3 t3 (Hsm3 & Hfd3 & Hst3).
    destruct (r3 =? 0) eqn:Hr3; to_prop; cbn [negb]; [|by apply Hfail]. wp_steps.
    split; [by transitivity f1; [|transitivity f2]|]. right. split; [done|]. exists i, l. by rewrite Hst3, Hst2.
  - replace (r2 =? 0) with false by lia. cbn [negb]. by apply Hfail.
Qed.

(** Taking the acknowledged head off the queue. *)
Lemma pop_acked A L f t c i l :
  wal_rep (f_wal f) (c :: L) → (i ≤ length A)%nat → sent_log (A ++ c :: L) i l →
  f_streams f = l ++ [run (A ++ c :: L) i (length A) ++ c] →
  wp wal_pop_head (λ _ f' _, kept f f' ∧ finv (A ++ [c]) L f') E f t.
Proof.
  intros Hw Hi Hl Hst. eapply wp_mono; [by apply (wal_pop_spec E f t c L)|]. intros _ f4 t4 (w & -> & Hw4 & Hcap4).
  assert (A ++ c :: L = (A ++ [c]) ++ L) as HP by (by rewrite <-app_assoc). rewrite HP in *. set (P := (A ++ [c]) ++ L) in *.
  assert (f_streams f = l ++ [run P i (length (A ++ [c]))]) as Hst4.
  { rewrite Hst, length_app, Nat.add_1_r, (run_snoc _ _ _ c); [done|done|]. unfold P. rewrite <-app_assoc.
    by apply list_lookup_middle. }
  split; [by split|]. split; [done| |]; cbn; fold P; rewrite Hst4.
  - rewrite <-(app_nil_r (run _ _ _)). apply sent_stream; [done| |apply prefix_nil].
    unfold P. rewrite !length_app. simpl. lia.
  - intros _. exists i, l. split_and!; [rewrite length_app; lia|done|done].
Qed.

(** A flush moves commands from the queue to the acknowledged ones, in order; it
    returns 0 only when none is left. *)
Definition flushed A L f (r : Z) f' : Prop :=
  kept f f' ∧ ∃ D L', L = D ++ L' ∧ finv (A ++ D) L' f' ∧
    (r = 0 → f_running f = true → f_syncing f = false → L' = []).

Lemma flushed_none A L f f' r :
  kept f f' → finv A L f' → (r = 0 → f_running f = true → f_syncing f = false → L = []) → flushed A L f r f'.
Proof. intros Hk Hinv Hr. split; [done|]. exists [], L. by rewrite app_nil_r. Qed.

Lemma flush_loop_spec A L f t fuel :
  finv A L f → (length L ≤ fuel)%nat → wp (flush_loop fuel) (λ r f' _, flushed A L f r f') E f t.
Proof.
  revert A L f t. induction fuel as [|fuel IH]; intros A L f t Hinv Hf;
    cbn [flush_loop]; wp_steps; cbn [id]; rewrite (wr_count _ _ (fi_wal _ _ _ Hinv));
    (destruct L as [|c L]; [rewrite andb_false_r; wp_steps; by apply flushed_none|]); [simpl in Hf; lia|].
  rewrite (proj2 (Z.ltb_lt 0 (Z.of_nat (length (c :: L))))) by (cbn [length]; lia). rewrite andb_true_r.
  destruct (f_running f && negb (f_syncing f)) eqn:Hgo; last first.
  { wp_steps. apply flushed_none; [done|done|]. intros _ Hr Hs. by rewrite Hr, Hs in Hgo. }
  wp_step. eapply wp_mono; [by apply flush_head_spec|].
  intros r f1 t1 (Hsm & [[-> Hinv1]|(-> & i & l & Hi & Hl & Hst)]); cbn [Z.eqb negb]; wp_steps.
  { by apply flushed_none; [apply same_kept|..]. }
  eapply wp_mono; [eapply pop_acked; [rewrite (sm_wal _ _ Hsm); apply Hinv|done|done|done]|]. intros _ f2 t2 [Hk Hinv2].
  eapply wp_mono; [apply (IH (A ++ [c]) L); [done|simpl in Hf; lia]|].
  intros r4 f5 t5 (Hk5 & D & L' & -> & Hinv5 & Hend).
  assert (kept f f2) as Hkk by (etransitivity; [by apply same_kept|done]).
  split; [by transitivity f2|]. exists (c :: D), L'. rewrite <-app_assoc in Hinv5. split_and!; [done|done|].
  intros H0 Hrun Hsy. apply Hend; [done|..]; [by rewrite (kp_running _ _ Hkk)|by rewrite (kp_syncing _ _ Hkk)].
Qed.

Lemma flush_spec A L f t : finv A L f → wp flush_wal (λ r f' _, flushed A L f r f') E f t.
Proof.
  intros Hinv. unfold flush_wal. wp_steps. apply flush_loop_spec; [done|].
  rewrite (wr_count _ _ (fi_wal _ _ _ Hinv)). lia.
Qed.

(** ** Commands *)

(** The name a command is known by. *)
Definition short_name (argv : list bytes) : bytes := match argv with [] => [] | name :: _ => cstr (take 63 name) end.

Definition is_write (argv : list bytes) : bool := is_write_command (short_name argv).

(** The commands of clients the theorem is about. *)
Record forwardable (argv : list bytes) : Prop := {
  fa_frame  : frameable argv;
  fa_name   : ∃ name args, argv = name :: args ∧ name ≠ [];
  fa_plain  : same_name (short_name argv) (lit "SYNC") = false ∧ same_name (short_name argv) (lit "FINSYNC") = false;
  fa_length : strlen (resp_encode argv) + MAX_DATA ≤ FLOW_BUF_MAX
}.

Definition writes (cmds : list (list bytes)) : list bytes := resp_encode <$> filter (λ argv, is_write argv = true) cmds.

(** Room in the queue for the commands [W]. *)
Definition room (L W : list bytes) f : Prop :=
  Z.of_nat (length L + length W) ≤ w_cap (f_wal f) ∧ strlen (concat L) + strlen (concat W) ≤ WAL_MAX_BYTES.

Lemma finv_push A L c f w :
  finv A L f → wal_rep w (L ++ [c]) → finv A (L ++ [c]) (set_wal w f).
Proof.
  intros [Hw Hlog Hop] Hw'. pose proof (sent_log_le _ _ _ Hlog) as Hle. split; cbn; [done| |].
  - rewrite app_assoc. by apply sent_log_app.
  - intros Hfd. destruct (Hop Hfd) as (i & l & Hi & Hl & Hst). exists i, l. rewrite app_assoc.
    split_and!; [done|by apply sent_log_app|]. rewrite run_app; [done|]. rewrite length_app in *. lia.
Qed.

Lemma room_suffix L W D L' f f' :
  room L W f → L = D ++ L' → w_cap (f_wal f') = w_cap (f_wal f) → room L' W f'.
Proof.
  intros [H1 H2] -> Hc. unfold room. rewrite Hc. rewrite length_app in H1. rewrite concat_app, strlen_app in H2.
  pose proof (strlen_nonneg (concat D)). lia.
Qed.

Lemma room_push L c W f f' :
  room L (c :: W) f → w_cap (f_wal f') = w_cap (f_wal f) → room (L ++ [c]) W f'.
Proof.
  intros [H1 H2] Hc. unfold room. rewrite Hc, length_app, strlen_concat_snoc. cbn [length concat] in *.
  rewrite strlen_app in H2. lia.
Qed.

(** A command of a client is queued if it is a write, and some of the queue goes out. *)
Lemma process_spec A L W f t argv :
  no_oom E → finv A L f → forwardable argv → room L (writes [argv] ++ W) f →
  wp (process_full_command (resp_encode argv) (strlen (resp_encode argv))) (λ _ f' _, kept f f' ∧
    ∃ D L', L ++ writes [argv] = D ++ L' ∧ finv (A ++ D) L' f' ∧ room L' W f') E f t.
Proof.
  intros HE Hinv [Hfr (name & args & -> & Hne) [Hns Hnf] Hlen] Hroom.
  unfold process_full_command. rewrite command_name_encode by done. unfold short_name in Hns, Hnf. rewrite Hns, Hnf.
  assert (is_write_command (cstr (take 63 name)) = is_write (name :: args)) as -> by done.
  unfold writes in *. rewrite filter_cons, filter_nil in *. destruct (is_write (name :: args)) eqn:Hw; cbn [negb].
  2:{ wp_steps. split; [done|]. exists [], L. by rewrite !app_nil_r. }
  rewrite decide_True in * by done. cbn [fmap list_fmap app] in *. set (c := resp_encode (name :: args)) in *.
  pose proof Hroom as [Hr1 Hr2]. cbn [length concat] in Hr1, Hr2. rewrite strlen_app in Hr2.
  pose proof (strlen_nonneg (concat W)). wp_step.
  eapply wp_mono; [apply (wal_push_spec E f t L c (fi_wal _ _ _ Hinv)); done|].
  intros r f1 t1 [(-> & w & -> & Hw1 & Hcap)|(-> & -> & [H1|[H1|[H1|[t' H1]]]])].
  - cbn [Z.eqb negb]. pose proof (finv_push A L c f w Hinv Hw1) as Hinv1.
    assert (kept f (set_wal w f)) as Hk1 by (by split). pose proof (room_push L c W f (set_wal w f) Hroom Hcap) as Hroom1.
    wp_steps. cbn [f_syncing set_wal]. destruct (f_syncing f); cbn [negb]; wp_steps.
    + split; [done|]. exists [], (L ++ [c]). by rewrite app_nil_r.
    + eapply wp_mono; [by apply flush_spec|]. intros r f2 t2 (Hk & D & L' & HL & Hinv2 & _). wp_steps.
      split; [by transitivity (set_wal w f)|]. exists D, L'. split_and!; [done|done|].
      eapply room_suffix; [exact Hroom1|done|apply Hk].
  - unfold MAX_CMD_LEN, FLOW_BUF_MAX, MAX_DATA in *. lia.
  - lia.
  - lia.
  - by rewrite HE in H1.
Qed.
(** ** The stream of a client *)

Lemma writes_of_app c1 c2 : writes (c1 ++ c2) = writes c1 ++ writes c2.
Proof. unfold writes. by rewrite filter_app, fmap_app. Qed.

(** [q] is the start of the next command, if there is one. *)
Definition partial (cmds : list (list bytes)) (n : nat) (q : bytes) : Prop :=
  q = [] ∨ ∃ argv m, cmds !! n = Some argv ∧ resp_encode argv = q ++ m ∧ m ≠ [].

(** [b] bytes of the stream do not end in the mark of a number. *)
Definition clean_cut (cmds : list (list bytes)) (b : bytes) : Prop :=
  ∀ n argv q, cmds !! n = Some argv → b = stream (take n cmds) ++ q → q ∉ marks argv.

Definition with_buf (st : flow_state) (q : bytes) : flow_state :=
  Flow (fs_used st) (fs_key st) q (fs_have_seq st) (fs_next_seq st) (fs_last_seen st).

Lemma with_buf_id st : with_buf st (fs_buf st) = st.
Proof. by destruct st. Qed.

Lemma event_loop_stop f t fuel i st (Q : unit → fw S → nat → Prop) :
  f_flows f !! i = Some st → resp_command_len (fs_buf st) = 0 → Q tt f t → wp (event_loop fuel i) Q E f t.
Proof.
  intros Hi Hlen HQ. destruct fuel; cbn [event_loop]; wp_steps; rewrite Hi; cbn [from_option id];
    (destruct (fs_buf st); [by wp_steps|]); rewrite Hlen; by wp_steps.
Qed.

(** The front of the buffer: a complete command, or the start of one. *)
Lemma front_of_stream cmds buf rest :
  Forall forwardable cmds → buf ++ rest = stream cmds → clean_cut cmds buf →
  resp_command_len buf = 0 ∧ partial cmds 0 buf ∨
  ∃ argv cmds' buf', cmds = argv :: cmds' ∧ forwardable argv ∧ buf = resp_encode argv ++ buf' ∧
    buf' ++ rest = stream cmds' ∧ clean_cut cmds' buf' ∧ resp_command_len buf = strlen (resp_encode argv).
Proof.
  intros Hcmds Hbuf Hcut. destruct buf as [|c0 buf0]; [left; split; [done|by left]|]. set (buf := c0 :: buf0) in *.
  destruct Hcmds as [|argv cmds' Hargv Hcmds]; [done|]. rewrite fmap_cons in Hbuf. cbn [concat] in Hbuf.
  apply app_eq_app in Hbuf as (k & [[Hb Hk]|[Hk Hr]]).
  - right. exists argv, cmds', k. split_and!; try done.
    + intros n a q Hn Hq. apply (Hcut (Datatypes.S n) a q Hn). rewrite Hb, Hq. cbn [take]. rewrite fmap_cons.
      cbn [concat]. by rewrite app_assoc.
    + rewrite Hb. apply command_len_encode, Hargv.
  - destruct k as [|d k].
    + right. exists argv, cmds', []. rewrite app_nil_r in Hk. cbn [app] in Hr. subst rest. split_and!; try done.
      * by rewrite app_nil_r.
      * intros n a q Hn Hq. symmetry in Hq. apply app_eq_nil in Hq as [Hq ->]. intros Hm.
        unfold marks in Hm. apply elem_of_cons in Hm as [?|Hm]; [done|].
        apply list_elem_of_fmap in Hm as (j & Hj & _). discriminate Hj.
      * rewrite <-Hk. pose proof (command_len_encode argv [] (fa_frame _ Hargv)) as Hc. by rewrite app_nil_r in Hc.
    + left. split; [|right; exists argv, (d :: k); done].
      destruct (command_len_prefix argv buf (d :: k)) as [?|[_ Hm]]; [apply Hargv|done|done|done|].
      destruct (Hcut 0%nat argv buf eq_refl eq_refl Hm).
Qed.

(** An invariant of the queue and the connection, indexed by the acknowledged
    commands, the queue and the commands still to come, that handling a command
    keeps. *)
Class Handles (Inv : list bytes → list bytes → list (list bytes) → fw S → Prop) : Prop := {
  hd_flows A L rest f fl : Inv A L rest f → Inv A L rest (set_flows fl f);
  hd_process A L argv rest f t : forwardable argv → Inv A L (argv :: rest) f →
    wp (process_full_command (resp_encode argv) (strlen (resp_encode argv))) (λ _ f' _, f_flows f' = f_flows f ∧
      ∃ D L', L ++ writes [argv] = D ++ L' ∧ Inv (A ++ D) L' rest f') E f t
}.

Section reassembly.
Context (Inv : list bytes → list bytes → list (list bytes) → fw S → Prop) {HInv : Handles Inv}.

(** The loop of handle_event takes every complete command out of the buffer. *)
Lemma event_loop_spec cmds A L f t fuel i st rest :
  Inv A L cmds f → Forall forwardable cmds →
  f_flows f !! i = Some st → fs_buf st ++ rest = stream cmds → clean_cut cmds (fs_buf st) →
  (length (fs_buf st) ≤ fuel)%nat →
  wp (event_loop fuel i) (λ _ f' _,
    ∃ n q D L', fs_buf st = stream (take n cmds) ++ q ∧ partial cmds n q ∧
      f_flows f' = <[i := with_buf st q]> (f_flows f) ∧
      L ++ writes (take n cmds) = D ++ L' ∧ Inv (A ++ D) L' (drop n cmds) f') E f t.
Proof.
  revert cmds A L f t st. induction fuel as [|fuel IH]; intros cmds A L f t st Hinv Hcmds Hi Hbuf Hcut Hf;
    (destruct (front_of_stream cmds (fs_buf st) rest Hcmds Hbuf Hcut)
      as [[Hlen Hp]|(argv & cmds' & buf' & -> & Hargv & Hb & Hrest & Hcut' & Hlen)];
     [eapply event_loop_stop; [done|done|]; exists 0%nat, (fs_buf st), [], L;
      rewrite !app_nil_r, with_buf_id, list_insert_id by done; done|]);
    (assert (0 < strlen (resp_encode argv)) as Hpos by (unfold strlen; simpl; lia)).
  { rewrite Hb, length_app in Hf. unfold strlen in Hpos. lia. }
  cbn [event_loop]. wp_steps. rewrite Hi. cbn [from_option id].
  destruct (fs_buf st) as [|c0 b0] eqn:Hbs; [discriminate Hb|]. rewrite Hlen.
  rewrite (proj2 (Z.eqb_neq _ _)), (proj2 (Z.ltb_ge _ _)) by lia.
  rewrite Hb, take_bulk, drop_bulk. apply Forall_cons in Hcmds as [_ Hcmds].
  wp_step. eapply wp_mono; [by apply hd_process|]. intros _ f1 t1 (Hk & D & L' & HL & Hinv1).
  unfold put_flow. wp_steps. set (st' := Flow _ _ buf' _ _ _). set (f2 := set_flows _ f1).
  assert (Inv (A ++ D) L' cmds' f2) as Hinv2 by by apply hd_flows.
  assert (f_flows f2 = <[i := st']> (f_flows f)) as Hfl by (cbn; by rewrite Hk).
  eapply wp_mono.
  { apply (IH cmds' (A ++ D) L' f2 t1 st'); try done.
    - rewrite Hfl. apply list_lookup_insert_eq. by eapply lookup_lt_Some.
    - rewrite Hb, length_app in Hf. unfold strlen in Hpos. cbn. lia. }
  intros _ f3 t3 (n & q & D2 & L2 & Hbuf2 & Hp & Hfl2 & HL2 & Hinv3). exists (Datatypes.S n), q, (D ++ D2), L2.
  split_and!.
  - cbn in Hbuf2. cbn [take]. rewrite fmap_cons. cbn [concat]. rewrite Hbuf2. by rewrite app_assoc.
  - destruct Hp as [->|(a & m & Ha & He & Hm)]; [by left|right]. by exists a, m.
  - rewrite Hfl2, Hfl. rewrite list_insert_insert_eq. done.
  - cbn [take]. change (argv :: take n cmds') with ([argv] ++ take n cmds'). rewrite writes_of_app, app_assoc, HL.
    by rewrite <-!app_assoc, HL2.
  - by rewrite app_assoc.
Qed.
(** *** The table of flows *)

Lemma flow_key_eta k : FlowKey (fk_saddr k) (fk_daddr k) (fk_sport k) (fk_dport k) = k.
Proof. by destruct k. Qed.

Lemma flow_key_equal_true a b : flow_key_equal a b = true ↔ a = b.
Proof.
  unfold flow_key_equal. split; [|intros ->; by rewrite !Z.eqb_refl].
  intros H1. to_prop. destruct a, b; simpl in *. congruence.
Qed.

Lemma find_slot_Some P l i : find_slot P l = Some i → ∃ st, l !! i = Some st ∧ P st = true.
Proof.
  revert i. induction l as [|st l IH]; intros i; cbn [find_slot]; [done|].
  destruct (P st) eqn:HP; [intros [= <-]; by exists st|].
  destruct (find_slot P l) as [j|]; [|done]. intros [= <-]. by apply IH.
Qed.

Lemma find_slot_insert P l i st :
  (find_slot P l = Some i ∨ find_slot P l = None) → P st = true → (i < length l)%nat →
  find_slot P (<[i := st]> l) = Some i.
Proof.
  revert i. induction l as [|st0 l IH]; intros i Hf HP Hi; [simpl in Hi; lia|].
  destruct i as [|i]; cbn [list_insert insert find_slot].
  { change (<[0%nat := st]> (st0 :: l)) with (st :: l). cbn [find_slot]. by rewrite HP. }
  change (<[Datatypes.S i := st]> (st0 :: l)) with (st0 :: <[i := st]> l). cbn [find_slot] in *.
  destruct (P st0) eqn:HP0; [by destruct Hf|]. rewrite IH; [done| |done|simpl in Hi; lia].
  destruct (find_slot P l); [left|by right]. destruct Hf; naive_solver.
Qed.

Lemma find_slot_insert_ne P l i j st :
  find_slot P l = Some j → i ≠ j → P st = false → find_slot P (<[i := st]> l) = Some j.
Proof.
  revert i j. induction l as [|st0 l IH]; intros i j Hj Hij HP; [done|]. cbn [find_slot] in Hj.
  destruct i as [|i]; [change (<[0%nat := st]> (st0 :: l)) with (st :: l)|
    change (<[Datatypes.S i := st]> (st0 :: l)) with (st0 :: <[i := st]> l)]; cbn [find_slot].
  - rewrite HP. destruct (P st0); [congruence|done].
  - destruct (P st0); [done|]. destruct (find_slot P l) as [j'|] eqn:Hl; [|done]. injection Hj as <-.
    rewrite (IH i j'); [done|done|congruence|done].
Qed.

(** *** One client's flow *)

Section flow.
Context (cmds : list (list bytes)) (key : flow_key) (isn : Z).
Implicit Types (p n a b i : nat) (st : flow_state).

Abbreviation whole := (stream cmds).
Abbreviation ours := (λ st, fs_used st && flow_key_equal (fs_key st) key).

(** The segment that carries the bytes [a] to [b] of the stream. *)
Definition segment_event a b : event :=
  Event (fk_saddr key) (fk_daddr key) (fk_sport key) (fk_dport key) (u32 (isn + Z.of_nat a))
    (Z.of_nat (b - a)) (Z.of_nat (b - a)) (take (b - a) (drop a whole)).

Lemma segment_key a b : flow_key_of (segment_event a b) = key.
Proof. exact (flow_key_eta key). Qed.

(** The flow has consumed [p] bytes, [n] commands and the start of the next. *)
Record consumed p n st : Prop := {
  cs_used    : fs_used st = true;
  cs_key     : fs_key st = key;
  cs_seq     : fs_have_seq st = false ∧ p = 0%nat ∨ fs_have_seq st = true ∧ fs_next_seq st = u32 (isn + Z.of_nat p);
  cs_bytes   : take p whole = stream (take n cmds) ++ fs_buf st;
  cs_partial : partial cmds n (fs_buf st)
}.

(** The flow is in the table, or it is new and there is room for it. *)
Definition tracked p n (flows : list flow_state) : Prop :=
  (p = 0%nat ∧ n = 0%nat ∧ find_slot ours flows = None ∧
     ∃ i, find_slot (λ st, negb (fs_used st)) flows = Some i ∧ flows !! i = Some flow0) ∨
  (∃ i st, find_slot ours flows = Some i ∧ flows !! i = Some st ∧ consumed p n st).

Lemma ours_spec st : fs_used st = true → fs_key st = key → ours st = true.
Proof. intros Hu Hk. cbv beta. rewrite Hu, Hk. cbn. by apply flow_key_equal_true. Qed.

(** The other flows of the table stay as they are. *)
Definition others (flows flows' : list flow_state) : Prop :=
  ∀ k i, k ≠ key → find_slot (λ st, fs_used st && flow_key_equal (fs_key st) k) flows = Some i →
    find_slot (λ st, fs_used st && flow_key_equal (fs_key st) k) flows' = Some i ∧ flows' !! i = flows !! i.

Lemma others_trans flows1 flows2 flows3 : others flows1 flows2 → others flows2 flows3 → others flows1 flows3.
Proof. intros H12 H23 k i Hk Hi. destruct (H12 k i Hk Hi) as [H1 <-]. by apply H23. Qed.

Lemma others_refl flows : others flows flows.
Proof. done. Qed.

(** A slot that is free or ours may change. *)
Lemma others_insert flows i st st0 :
  flows !! i = Some st0 → fs_used st0 = false ∨ fs_key st0 = key → fs_key st = key → others flows (<[i := st]> flows).
Proof.
  intros Hi H0 Hst k j Hk Hj. assert (i ≠ j) as Hij.
  { intros ->. destruct (find_slot_Some _ _ _ Hj) as (st1 & Hj1 & HP). rewrite Hi in Hj1. injection Hj1 as <-.
    apply andb_prop in HP as [Hu He]. apply flow_key_equal_true in He. destruct H0; congruence. }
  split; [|by apply list_lookup_insert_ne]. apply find_slot_insert_ne; [done|done|].
  rewrite Hst. destruct (flow_key_equal key k) eqn:He; [|apply andb_false_r]. apply flow_key_equal_true in He. congruence.
Qed.

Lemma get_flow_spec e p n f t :
  no_oom E → flow_key_of e = key → tracked p n (f_flows f) →
  wp (get_flow_state e) (λ r f' _, ∃ i st, r = Some (i, st) ∧ f' = set_flows (<[i := st]> (f_flows f)) f ∧
    (i < length (f_flows f))%nat ∧ find_slot ours (<[i := st]> (f_flows f)) = Some i ∧ consumed p n st ∧
    ∀ st', fs_key st' = key → others (f_flows f) (<[i := st']> (f_flows f))) E f t.
Proof.
  intros HE Hkey Ht. unfold get_flow_state, time_now, put_flow. rewrite Hkey. wp_steps.
  destruct Ht as [(-> & -> & Hnone & i & Hi & Hl)|(i & st & Hi & Hl & [Hu Hk Hs Hb Hp])].
  - rewrite Hnone, Hi. wp_steps. rewrite HE. cbn [negb]. wp_steps. rewrite Hl. cbn [from_option].
    pose proof (lookup_lt_Some _ _ _ Hl) as Hlt. eexists _, _. split_and!; [done|done|done| | |].
    + apply find_slot_insert; [by right|by apply ours_spec|done].
    + split; cbn; try done; [by left|by left].
    + intros st' Hst'. eapply others_insert; [exact Hl|by left|done].
  - rewrite Hi. wp_steps. rewrite Hl. cbn [from_option id]. pose proof (lookup_lt_Some _ _ _ Hl) as Hlt.
    eexists _, _. split_and!; [done|done|done| | |].
    + apply find_slot_insert; [by left|by apply ours_spec|done].
    + by split.
    + intros st' Hst'. eapply others_insert; [exact Hl|by right|done].
Qed.

(** *** Sequence numbers *)

Lemma u32_add x y : u32 (u32 x + y) = u32 (x + y).
Proof. unfold u32. apply Zplus_mod_idemp_l. Qed.

Lemma u32_sub x y : u32 (u32 x - u32 y) = u32 (x - y).
Proof. unfold u32. by rewrite <-Zminus_mod. Qed.

Lemma u32_small x : 0 ≤ x < 2 ^ 32 → u32 x = x.
Proof. apply Z.mod_small. Qed.

(** The window in which sequence numbers order the bytes of the stream. *)
Lemma seq_order a p :
  (a ≤ p)%nat → Z.of_nat (p - a) < 2 ^ 31 →
  (u32 (isn + Z.of_nat a) =? u32 (isn + Z.of_nat p)) = bool_decide (a = p) ∧
  (a < p → tcp_seq_before (u32 (isn + Z.of_nat a)) (u32 (isn + Z.of_nat p)) = true)%nat ∧
  u32 (u32 (isn + Z.of_nat p) - u32 (isn + Z.of_nat a)) = Z.of_nat (p - a).
Proof.
  intros Hle Hw. assert (u32 (u32 (isn + Z.of_nat p) - u32 (isn + Z.of_nat a)) = Z.of_nat (p - a)) as Hd.
  { rewrite u32_sub, u32_small; lia. }
  split_and!; [| |done].
  - destruct (decide (a = p)) as [->|Hne]; [by rewrite Z.eqb_refl, bool_decide_true|].
    rewrite bool_decide_false by done. apply Z.eqb_neq. intros Heq. rewrite Heq, Z.sub_diag in Hd.
    rewrite u32_small in Hd by lia. lia.
  - intros Hlt. unfold tcp_seq_before. rewrite u32_sub.
    replace (isn + Z.of_nat a - (isn + Z.of_nat p)) with (- Z.of_nat (p - a)) by lia.
    assert (u32 (- Z.of_nat (p - a)) = 2 ^ 32 - Z.of_nat (p - a)) as ->.
    { unfold u32. rewrite <-(Z_mod_plus_full _ 1), Z.mod_small by lia. lia. }
    unfold s32. replace (2 ^ 32 - _ + 2 ^ 31) with ((2 ^ 31 - Z.of_nat (p - a)) + 1 * 2 ^ 32) by lia.
    rewrite Z_mod_plus_full, Z.mod_small by lia. apply Z.ltb_lt. lia.
Qed.
(** A segment that brings something new is cut to it; an old one is dropped. *)
Lemma normalize_spec a b p n i st f t :
  consumed p n st → (a ≤ p)%nat → (a < b)%nat → Z.of_nat (p - a) < 2 ^ 31 → Z.of_nat (b - a) ≤ MAX_DATA →
  wp (normalize_payload_by_seq i st (segment_event a b)) (λ r f' _,
    (b ≤ p)%nat ∧ r.1.1.1 = 1 ∧ f' = f ∨
    (p < b)%nat ∧ ∃ st', r = (0, Z.of_nat (p - a), Z.of_nat (b - p), st') ∧
      f' = set_flows (<[i := st']> (f_flows f)) f ∧ fs_used st' = true ∧ fs_key st' = key ∧ fs_buf st' = fs_buf st ∧
      fs_have_seq st' = true ∧ fs_next_seq st' = u32 (isn + Z.of_nat b)) E f t.
Proof.
  intros [Hu Hk Hs _ _] Hap Hab Hw Hmax. unfold MAX_DATA in Hmax. destruct (seq_order a p Hap Hw) as (Heq & Hbef & Hov).
  unfold normalize_payload_by_seq, put_flow. cbn [ev_seq ev_full_len ev_payload_len segment_event].
  destruct Hs as [[Hh ->]|[Hh Hn]]; rewrite Hh; cbn [negb].
  { assert (a = 0%nat) as -> by lia. wp_steps. right. split; [done|]. eexists. rewrite !Nat.sub_0_r.
    split_and!; try done; cbn. rewrite u32_add. f_equal. lia. }
  rewrite Hn, Heq. destruct (decide (a = p)) as [->|Hne]; [rewrite bool_decide_true by done|rewrite bool_decide_false by done].
  { wp_steps. right. split; [done|]. eexists. rewrite Nat.sub_diag. split_and!; try done; cbn. rewrite u32_add. f_equal. lia. }
  rewrite Hbef, Hov by lia. destruct (_ <=? _) eqn:Hle; to_prop; wp_steps; [left; split_and!; [lia|done|done]|].
  assert (u32 (Z.of_nat (b - a) - Z.of_nat (p - a)) = Z.of_nat (b - p)) as -> by (rewrite u32_small; lia).
  right. split; [lia|]. eexists. split_and!; try done; cbn. rewrite u32_add. f_equal. lia.
Qed.

Lemma stream_split n : whole = stream (take n cmds) ++ stream (drop n cmds).
Proof. by rewrite <-concat_app, <-fmap_app, take_drop. Qed.

(** What is left of the stream when [p] bytes of it have been consumed. *)
Lemma consumed_rest p n q : take p whole = stream (take n cmds) ++ q → q ++ drop p whole = stream (drop n cmds).
Proof.
  intros Hb. apply (app_inv_head (stream (take n cmds))). rewrite app_assoc, <-Hb, take_drop. apply stream_split.
Qed.

Lemma new_bytes a b p : (a ≤ p < b)%nat → take (b - p) (drop (p - a) (take (b - a) (drop a whole))) = take (b - p) (drop p whole).
Proof.
  intros Hp. rewrite List.skipn_firstn_comm, drop_drop. replace (a + (p - a))%nat with p by lia.
  rewrite take_take. f_equal. lia.
Qed.

Lemma partial_fits n q : Forall forwardable cmds → partial cmds n q → strlen q + MAX_DATA ≤ FLOW_BUF_MAX.
Proof.
  intros Hall [->|(argv & m & Hn & He & Hm)]; [by vm_compute|].
  pose proof (Forall_lookup_1 _ _ _ _ Hall Hn) as [_ _ _ Hl]. rewrite He, strlen_app in Hl.
  pose proof (strlen_nonneg m). lia.
Qed.

Lemma clean_cut_drop n q d : take n cmds ++ drop n cmds = cmds →
  clean_cut cmds (stream (take n cmds) ++ q ++ d) → clean_cut (drop n cmds) (q ++ d).
Proof.
  intros _ Hc k argv r Hk Hr. rewrite lookup_drop in Hk. apply (Hc (n + k)%nat argv r Hk).
  rewrite Hr, app_assoc. f_equal. rewrite <-concat_app, <-fmap_app. do 2 f_equal.
  apply take_take_drop.
Qed.

Lemma partial_drop n k q : partial (drop n cmds) k q → partial cmds (n + k) q.
Proof. intros [->|(argv & m & Hk & He)]; [by left|right]. rewrite lookup_drop in Hk. by exists argv, m. Qed.

(** One segment. *)
Lemma segment_spec a b p n A L f t :
  no_oom E → Forall forwardable cmds → Inv A L (drop n cmds) f → tracked p n (f_flows f) →
  (a ≤ p)%nat → (a < b ≤ length whole)%nat → Z.of_nat (p - a) < 2 ^ 31 → Z.of_nat (b - a) ≤ MAX_DATA →
  clean_cut cmds (take (p `max` b) whole) →
  wp (handle_event (segment_event a b)) (λ _ f' _,
    ∃ k D L', L ++ writes (take k (drop n cmds)) = D ++ L' ∧ Inv (A ++ D) L' (drop (n + k) cmds) f' ∧
      tracked (p `max` b) (n + k) (f_flows f') ∧ others (f_flows f) (f_flows f')) E f t.
Proof.
  intros HE Hall Hinv Ht Hap Hab Hw Hmax Hcut. unfold handle_event. cbn [ev_payload_len ev_full_len segment_event].
  rewrite (proj2 (Z.eqb_neq _ _)), (proj2 (Z.ltb_ge MAX_DATA _)), (proj2 (Z.ltb_ge _ _)) by lia.
  wp_step. eapply wp_mono; [by apply (get_flow_spec (segment_event a b) p n); [|apply segment_key|]|].
  intros r f1 t1 (i & st & -> & -> & Hi & Hfind & Hcons & Hoth). set (flows1 := <[i := st]> (f_flows f)) in *.
  wp_step. eapply wp_mono; [apply (normalize_spec a b p n i st); [done|done|lia|done|done]|].
  intros [[[ret skip] plen] st2] f2 t2 [(Hbp & Hret & ->)|(Hpb & st' & Heq & -> & Hu & Hk & Hbuf & Hh & Hn)].
  { cbn [fst] in Hret. subst ret. cbn [Z.eqb negb]. wp_steps.
    exists 0%nat, [], L. rewrite Nat.max_l, Nat.add_0_r, !app_nil_r by done. split_and!; [done|by apply hd_flows| |by apply Hoth, Hcons].
    right. exists i, st. split_and!; [done| |done]. by apply list_lookup_insert_eq. }
  injection Heq as -> -> -> ->. cbn [Z.eqb negb]. rewrite (proj2 (Z.eqb_neq _ _)) by lia.
  destruct Hcons as [Hu0 Hk0 Hs0 Hby Hpart]. pose proof (partial_fits n _ Hall Hpart) as Hfit.
  rewrite Hbuf. rewrite (proj2 (Z.ltb_ge _ _)) by (unfold MAX_DATA in *; lia).
  cbn [ev_payload segment_event]. rewrite (proj2 (Z.ltb_ge _ _)); last first.
  { unfold strlen. rewrite length_take, length_drop. lia. }
  rewrite !Nat2Z.id, new_bytes by lia. set (data := take (b - p) (drop p whole)).
  assert (take b whole = take p whole ++ data) as Htb.
  { unfold data. rewrite <-(take_drop p (take b whole)), take_take, List.skipn_firstn_comm. f_equal; f_equal; lia. }
  rewrite Nat.max_r in * by lia. unfold time_now, put_flow. wp_steps.
  set (st3 := Flow _ _ (fs_buf st ++ data) _ _ _). set (f3 := set_flows _ _).
  assert (f_flows f3 = <[i := st3]> (f_flows f)) as Hfl by (cbn; unfold flows1; by rewrite !list_insert_insert_eq).
  assert (Inv A L (drop n cmds) f3) as Hinv3 by (unfold f3; by repeat apply hd_flows).
  assert ((fs_buf st ++ data) ++ drop b whole = stream (drop n cmds)) as Hrest.
  { apply consumed_rest. by rewrite Htb, Hby, app_assoc. }
  eapply wp_mono.
  { apply (event_loop_spec (drop n cmds) A L f3 _ _ i st3 (drop b whole)); try done.
    - by apply Forall_drop.
    - rewrite Hfl. by apply list_lookup_insert_eq.
    - apply clean_cut_drop; [apply take_drop|]. by rewrite app_assoc, <-Hby, <-Htb. }
  intros _ f4 t4 (k & q & D & L' & Hq & Hp & Hfl4 & HL & Hinv4). wp_steps.
  exists k, D, L'. rewrite drop_drop in Hinv4. split_and!; [done|done| |].
  2:{ rewrite Hfl4, Hfl, list_insert_insert_eq. by apply Hoth. }
  right. exists i, (with_buf st3 q). rewrite Hfl4, Hfl, list_insert_insert_eq. split_and!.
  - replace (<[i := with_buf st3 q]> (f_flows f)) with (<[i := with_buf st3 q]> flows1) by apply list_insert_insert_eq.
    apply find_slot_insert; [by left|by apply ours_spec|].
    unfold flows1. by rewrite length_insert.
  - by apply list_lookup_insert_eq.
  - split; cbn; [done|done|by right| |by apply partial_drop].
    cbn in Hq. rewrite Htb, Hby, <-app_assoc, Hq, app_assoc. f_equal. rewrite <-concat_app, <-fmap_app. do 2 f_equal.
    apply take_take_drop.
Qed.
(** The segments of the stream in any cuts, each repeated or overlapping what has
    arrived, none after a gap; the cuts avoid the marks of numbers. *)
Inductive delivery : nat → list event → nat → Prop :=
| delivery_done p : delivery p [] p
| delivery_segment a b p l p' :
    (a ≤ p)%nat → (a < b ≤ length whole)%nat → Z.of_nat (p - a) < 2 ^ 31 → Z.of_nat (b - a) ≤ MAX_DATA →
    clean_cut cmds (take (p `max` b) whole) →
    delivery (p `max` b) l p' → delivery p (segment_event a b :: l) p'.

Lemma delivery_spec l p p' n A L f t :
  no_oom E → Forall forwardable cmds → Inv A L (drop n cmds) f → tracked p n (f_flows f) →
  delivery p l p' →
  wp (handle_events l) (λ _ f' _,
    ∃ k D L', L ++ writes (take k (drop n cmds)) = D ++ L' ∧ Inv (A ++ D) L' (drop (n + k) cmds) f' ∧
      tracked p' (n + k) (f_flows f') ∧ others (f_flows f) (f_flows f')) E f t.
Proof.
  intros HE Hall Hinv Ht Hd. revert n A L f t Hinv Ht.
  induction Hd as [p|a b p l p' H1 H2 H3 H4 H5 Hd IH]; intros n A L f t Hinv Ht; cbn [handle_events]; wp_steps.
  { exists 0%nat, [], L. rewrite Nat.add_0_r, !app_nil_r. split_and!; [done..|apply others_refl]. }
  eapply wp_mono; [by apply (segment_spec a b p n A L)|].
  intros _ f1 t1 (k & D & L1 & HL & Hinv1 & Ht1 & Ho1).
  eapply wp_mono; [by apply (IH (n + k)%nat (A ++ D) L1)|].
  intros _ f2 t2 (k2 & D2 & L2 & HL2 & Hinv2 & Ht2 & Ho2).
  exists (k + k2)%nat, (D ++ D2), L2. rewrite !app_assoc, Nat.add_assoc. split_and!; [|done|done|by eapply others_trans].
  rewrite <-take_take_drop, writes_of_app, app_assoc, HL, drop_drop, <-!app_assoc. f_equal. done.
Qed.

(** When the whole stream has been consumed, so have all commands. *)
Lemma tracked_all n flows : tracked (length whole) n flows → writes (take n cmds) = writes cmds.
Proof.
  assert (drop n cmds = [] → writes (take n cmds) = writes cmds) as Hall.
  { intros Hd. by rewrite <-(take_drop n cmds) at 2; rewrite Hd, app_nil_r. }
  intros [(Hp & -> & _)|(i & st & _ & _ & [_ _ _ Hb Hpart])]; apply Hall.
  - destruct cmds as [|argv l]; [done|]. simpl in Hp. rewrite length_app in Hp. simpl in Hp. lia.
  - apply consumed_rest in Hb. rewrite drop_all, app_nil_r in Hb.
    destruct (drop n cmds) as [|argv r] eqn:Hd; [done|exfalso]. rewrite fmap_cons in Hb. cbn [concat] in Hb.
    apply (f_equal length) in Hb. rewrite length_app in Hb.
    destruct Hpart as [Hq|(argv' & m & Hn & He & Hm)]; [rewrite Hq in Hb; simpl in Hb; lia|].
    assert (argv' = argv) as ->.
    { rewrite <-(Nat.add_0_r n), <-lookup_drop, Hd in Hn. by injection Hn. }
    rewrite He, length_app in Hb. destruct m; [done|simpl in Hb; lia].
Qed.
End flow.
End reassembly.

(** The queue and the connection, whatever the slave does. *)
Definition any_slave (run : bool) A L (rest : list (list bytes)) f : Prop :=
  finv A L f ∧ room L (writes rest) f ∧ f_running f = run.

#[global] Instance any_slave_handles run : no_oom E → Handles (any_slave run).
Proof.
  intros HE. split.
  - intros A L rest f fl (Hinv & Hroom & Hr). split; [by destruct Hinv|done].
  - intros A L argv rest f t Hargv (Hinv & Hroom & Hr). change (argv :: rest) with ([argv] ++ rest) in Hroom.
    rewrite writes_of_app in Hroom. eapply wp_mono; [by apply (process_spec A L)|].
    intros _ f1 t1 (Hk & D & L' & HL & Hinv1 & Hroom1). split; [apply Hk|]. exists D, L'. split; [done|]. split; [done|].
    split; [done|]. rewrite <-Hr. apply Hk.
Qed.
End safe.
End streams.

(** ** A slave that follows

    What a slave promises to the forwarder: connections succeed, and a command
    that arrives whole is executed and acknowledged. [D] is what the slave holds;
    [Off D]: not connected; [On D q]: connected, [q] arrived since the last
    command; [good D c D']: the slave can execute [c] and then holds [D']. *)

Class Follows {S X} `{Peer S} (E : env) (Off : X → S → Prop) (On : X → bytes → S → Prop)
    (good : X → bytes → X → Prop) : Prop := {
  fo_connect D s t : Off D s → wp p_connect (λ r s' _, r = true ∧ On D [] s') E s t;
  fo_send D q d s t : On D q s → wp (p_send d) (λ _ s' _, On D (q ++ d) s') E s t;
  fo_recv D c D' s t n : On D c s → good D c D' → (6 ≤ n)%nat →
    wp (p_recv n) (λ r s' _, r = Some ACK ∧ On D' [] s') E s t
}.

(** System calls succeed, and sends transfer something. *)
Definition net_works (E : env) : Prop := (∀ t, sys_ok E t = true) ∧ ∀ t, ∃ n, send_n E t = Some (S n).

Section live.
Context {S X : Type} `{Peer S} (E : env) (Off : X → S → Prop) (On : X → bytes → S → Prop)
  (good : X → bytes → X → Prop) {HF : Follows E Off On good} (HE : no_oom E) (Hnet : net_works E).
Implicit Types (f : fw S) (A L : list bytes) (D : X).

Definition live D f : Prop :=
  f_slave_fd f = true ∧ On D [] (f_peer f) ∨ f_slave_fd f = false ∧ Off D (f_peer f).

Lemma connect_live D f t :
  f_running f = true → live D f →
  wp connect_slave (λ r f' _, r = 0 ∧ same f f' ∧ f_slave_fd f' = true ∧ On D [] (f_peer f')) E f t.
Proof.
  intros Hrun Hl. destruct Hnet as [Hsys _]. unfold connect_slave. wp_steps.
  destruct Hl as [[Hfd Hon]|[Hfd Hoff]]; rewrite Hfd; wp_steps; [done|].
  destruct (Z.to_nat _); cbn [connect_loop]; wp_steps; rewrite Hrun; cbn [negb]; wp_steps; rewrite Hsys; cbn [negb];
    wp_steps; rewrite Hsys; cbn [negb]; unfold on_peer; wp_steps;
    (eapply wp_mono; [by apply fo_connect|]); intros r p t' [-> Hon]; wp_steps; done.
Qed.

Lemma send_live D q f t fuel data :
  On D q (f_peer f) → (length data ≤ fuel)%nat →
  wp (send_raw fuel data) (λ r f' _, r = 0 ∧ same f f' ∧ f_slave_fd f' = f_slave_fd f ∧ On D (q ++ data) (f_peer f')) E f t.
Proof.
  revert f t q data. induction fuel as [|fuel IH]; intros f t q data Hon Hf;
    (destruct data as [|c data]; cbn [send_raw]; wp_steps; [by rewrite app_nil_r|]); [simpl in Hf; lia|].
  destruct (proj2 Hnet t) as [n ->]. wp_step. unfold sent, on_peer. wp_steps.
  eapply wp_mono; [by apply (fo_send D q)|]. intros [] p t' Hon'.
  eapply wp_mono; [apply (IH _ _ (q ++ take (Datatypes.S n) (c :: data))); [done|rewrite length_drop; simpl in *; lia]|].
  intros r f' t'' (-> & Hsm & Hfd & Hon2). rewrite <-app_assoc, take_drop in Hon2.
  split_and!; [done| |done|done]. destruct Hsm. by split.
Qed.

Lemma wait_live D c D' f t :
  On D c (f_peer f) → good D c D' →
  wp wait_slave_ack (λ r f' _, r = 0 ∧ same f f' ∧ f_slave_fd f' = f_slave_fd f ∧ On D' [] (f_peer f')) E f t.
Proof.
  intros Hon Hg. unfold wait_slave_ack. generalize 62%nat as fuel. intros fuel. cbn [wait_ack_loop length]. unfold on_peer.
  replace (0 <? 63)%nat with true by done. wp_steps. eapply wp_mono; [apply (fo_recv D c D'); [done|done|lia]|].
  intros r p t' [-> Hon']. cbn [app]. replace (strstr ACK _) with true by (by vm_compute). by wp_steps.
Qed.

(** The commands of a queue, each executed when its turn comes. *)
Inductive goods : X → list bytes → X → Prop :=
| goods_nil D : goods D [] D
| goods_cons D c D1 L D2 : good D c D1 → goods D1 L D2 → goods D (c :: L) D2.

Lemma flush_loop_live D L D' f t :
  wal_rep (f_wal f) L → f_running f = true → f_syncing f = false → live D f → goods D L D' →
  wp (flush_loop (length L)) (λ r f' _, r = 0 ∧ kept f f' ∧ wal_rep (f_wal f') [] ∧ live D' f') E f t.
Proof.
  intros Hw Hrun Hsy Hl Hg. revert f t Hw Hrun Hsy Hl.
  induction Hg as [D|D c D1 L D2 Hg Hgs IH]; intros f t Hw Hrun Hsy Hl; cbn [flush_loop length]; wp_steps; cbn [id];
    rewrite (wr_count _ _ Hw), Hrun, Hsy; cbn [negb andb length].
  { cbn [Z.of_nat Z.ltb Z.compare]. wp_steps. split_and!; done. }
  rewrite (proj2 (Z.ltb_lt _ _)) by lia.
  unfold flush_head. wp_steps. eapply wp_mono; [by apply connect_live|]. intros r f1 t1 (-> & Hsm1 & Hfd1 & Hon1).
  cbn [Z.eqb negb]. destruct (wr_slots _ _ Hw 0%nat c eq_refl) as (Hne & _ & Hslot).
  rewrite Z.add_0_r, Z.mod_small in Hslot by apply (wr_head _ _ Hw). rewrite Hslot. cbn [we_data we_len].
  rewrite (take_ge c (Z.to_nat (strlen c))) by (unfold strlen; lia).
  wp_step. eapply wp_mono; [by apply (send_live D [])|]. intros r f2 t2 (-> & Hsm2 & Hfd2 & Hon2). cbn [Z.eqb negb app] in *.
  wp_step. eapply wp_mono; [by apply (wait_live D c D1)|]. intros r f3 t3 (-> & Hsm3 & Hfd3 & Hon3). cbn [Z.eqb negb].
  wp_steps. cbn [Z.eqb negb]. wp_step.
  eapply wp_mono; [apply (wal_pop_spec E f3 t3 c L); by rewrite (sm_wal _ _ Hsm3), (sm_wal _ _ Hsm2), (sm_wal _ _ Hsm1)|].
  intros _ f4 t4 (w & -> & Hw4 & Hcap). destruct Hsm1, Hsm2, Hsm3.
  eapply wp_mono; [apply IH; cbn; [done|congruence|congruence|left; split; [cbn; congruence|done]]|].
  intros r f5 t5 (-> & [] & Hw5 & Hl5). split_and!; [done| |done|done].
  cbn in *. split; congruence.
Qed.

Lemma flush_live D L D' f t :
  wal_rep (f_wal f) L → f_running f = true → f_syncing f = false → live D f → goods D L D' →
  wp flush_wal (λ r f' _, r = 0 ∧ kept f f' ∧ wal_rep (f_wal f') [] ∧ live D' f') E f t.
Proof.
  intros Hw Hrun Hsy Hl Hg. unfold flush_wal. wp_steps. rewrite (wr_count _ _ Hw), Nat2Z.id. by apply (flush_loop_live D).
Qed.

(** A slave that follows has executed everything as soon as it is captured. *)
Definition following (Dend : X) A L (rest : list (list bytes)) f : Prop :=
  L = [] ∧ wal_rep (f_wal f) [] ∧ f_running f = true ∧ f_syncing f = false ∧ ∃ D, live D f ∧ goods D (writes rest) Dend.

#[export] Instance following_handles Dend : Handles E (following Dend).
Proof.
  split.
  - intros A L rest f fl (-> & Hw & Hr & Hs & D & Hl & Hg). split_and!; try done. by exists D.
  - intros A L argv rest f t [Hfr (name & args & -> & Hne) [Hns Hnf] Hlen] (-> & Hw & Hr & Hs & D & Hl & Hg).
    unfold process_full_command. rewrite command_name_encode by done. unfold short_name in Hns, Hnf. rewrite Hns, Hnf.
    assert (is_write_command (cstr (take 63 name)) = is_write (name :: args)) as -> by done.
    unfold writes in *. rewrite filter_cons, ?filter_nil in *. destruct (is_write (name :: args)) eqn:Hwr; cbn [negb].
    2:{ wp_steps. split; [done|]. exists [], []. rewrite !app_nil_r. split; [done|]. split_and!; try done. by exists D. }
    rewrite !decide_True in * by done. cbn [fmap list_fmap app] in *. set (c := resp_encode (name :: args)) in *.
    inversion Hg as [|? ? D1 ? ? Hg1 Hgs]; subst. wp_step.
    eapply wp_mono; [apply (wal_push_spec E f t [] c Hw); done|].
    intros r f1 t1 [(-> & w & -> & Hw1 & Hcap)|(-> & -> & [H1|[H1|[H1|[t' H1]]]])].
    + cbn [Z.eqb negb]. wp_steps. cbn [f_syncing set_wal]. rewrite Hs. cbn [negb]. wp_steps.
      eapply wp_mono; [apply (flush_live D [c] D1); try done; by eapply goods_cons, goods_nil|].
      intros r f2 t2 (-> & [K1 K2 K3 K4 K5] & Hw2 & Hl2). wp_steps. cbn in *. split; [done|]. exists [c], [].
      split; [done|]. split_and!; try done; try congruence. by exists D1.
    + unfold MAX_CMD_LEN, FLOW_BUF_MAX, MAX_DATA in *. lia.
    + change (strlen (concat [])) with 0 in H1. unfold MAX_CMD_LEN, FLOW_BUF_MAX, MAX_DATA, WAL_MAX_BYTES in *. lia.
    + pose proof (wr_cap _ _ Hw). simpl in H1. lia.
    + by rewrite HE in H1.
Qed.
End live.

Arguments PeerSafe S {_} E.
Arguments finv {S}.
