(* ===== verification/ForwarderProps.v ===== *)
(** * The forwarder's guarantees, and where it falls short

    What the queue and the connections hold after a client's commands have been
    captured, and three ways in which a command is lost or altered. *)

From S2P Require Import Prelude Resp Cstdlib Rdb KvsCommand XdpFilter Forwarder ForwarderSpec.

(** ** Theorems *)

(** C7: the forwarder loses nothing, adds nothing and keeps the order, as long as no
    segment ends right after the '*' or a '$' of a command (where it does lose the
    command, as shown below), no malloc fails and the writes fit its queue. A
    client's commands (each within the buffer of a flow) reach it as TCP segments of
    at most MAX_DATA bytes with all other cuts, repeated and overlapping as
    retransmission makes them but none after a gap, sequence numbers wrapping
    around; then, whatever the slave answers and however often its connection breaks, the queue holds
    exactly the writes among the commands that are not yet acknowledged, in
    order, and the streams sent to the slave are the writes in order: each new
    connection resumes at the first write without acknowledgement. *)
Theorem forwarder_captures {S} `{Peer S} E cmds key isn l (f : fw S) t :
  no_oom E → PeerSafe S E → Forall forwardable cmds →
  Z.of_nat (length (writes cmds)) ≤ WAL_RING_CAP → strlen (concat (writes cmds)) ≤ WAL_MAX_BYTES →
  delivery cmds key isn 0 l (length (stream cmds)) →
  f_flows f = replicate FLOW_MAX flow0 → f_streams f = [] → f_slave_fd f = false →
  wp (wal_init;; handle_events l) (λ _ f' _, f_running f' = f_running f ∧ ∃ j,
    wal_rep (f_wal f') (drop j (writes cmds)) ∧ sent_log (writes cmds) j (f_streams f')) E f t.
Proof.
  intros HE Hsafe Hall Hcap Hbytes Hd Hfl Hst Hfd. wp_step. eapply wp_mono; [by apply wal_init_spec|].
  intros _ f1 t1 (_ & w & -> & Hw & Hwc).
  assert (finv [] [] (set_wal w f)) as Hinv.
  { split; cbn; [done|rewrite Hst; constructor|congruence]. }
  pose proof (any_slave_handles E (f_running f) HE) as Hh.
  eapply wp_mono.
  { apply (delivery_spec E (any_slave (f_running f)) cmds key isn l 0 (length (stream cmds)) 0 [] []); [done|done| | |done].
    - split_and!; [done|split; cbn; [by rewrite Hwc|done]|done].
    - left. cbn. rewrite Hfl. split_and!; [done|done|done|]. by exists 0%nat. }
  intros _ f2 t2 (k & D & L & HL & ([Hw2 Hlog _] & _ & Hr) & Ht & _). split; [done|].
  rewrite drop_0, app_nil_l, (tracked_all cmds key isn k _ Ht) in HL. rewrite app_nil_l in Hlog. exists (length D).
  rewrite HL. by rewrite drop_app_length.
Qed.

(** A slave that cannot be reached. *)
#[global] Instance nobody : Peer unit := {|
  p_connect := mret false;
  p_send _ := mret tt;
  p_recv _ := mret None;
  p_close := mret tt
|}.

#[global] Instance nobody_safe E : PeerSafe unit E.
Proof. by split. Qed.

Definition fw0 {S} (p : S) : fw S := Fw true false false (Wal None 0 0 0 0 0 0 0) (replicate FLOW_MAX flow0) cfg0 [] p.

Definition client : flow_key := FlowKey 16777343 16777343 40000 47138.

Lemma set_k_v_forwardable : forwardable set_k_v.
Proof.
  split.
  - split; [simpl; lia|]. repeat constructor; by vm_compute.
  - by eexists _, _.
  - done.
  - by vm_compute.
Qed.

(** The cut after [p] bytes of a single command. *)
Lemma clean_cut_single argv b : b ∉ marks argv → clean_cut [argv] b.
Proof.
  intros Hb [|n] a q Hn Hq; [|done]. injection Hn as <-. rewrite Hq in Hb. exact Hb.
Qed.

(** "SET k v" in two segments that overlap by five bytes, across the wrap of the
    sequence numbers. *)
Lemma forwarder_captures_witness :
  wp (wal_init;; handle_events [segment_event [set_k_v] client (2 ^ 32 - 10) 0 20;
                                segment_event [set_k_v] client (2 ^ 32 - 10) 15 27])
    (λ _ f' _, f_running f' = true ∧ ∃ j,
      wal_rep (f_wal f') (drop j [resp_encode set_k_v]) ∧ sent_log [resp_encode set_k_v] j (f_streams f')) calm (fw0 tt) 0.
Proof.
  refine (forwarder_captures calm [set_k_v] client (2 ^ 32 - 10) _ (fw0 tt) 0 calm_no_oom (nobody_safe calm) _ _ _ _
            eq_refl eq_refl eq_refl).
  - constructor; [apply set_k_v_forwardable|constructor].
  - by vm_compute.
  - by vm_compute.
  - apply delivery_segment; [lia|vm_compute; lia|by vm_compute|by vm_compute| |].
    + apply clean_cut_single. by apply (bool_decide_unpack _).
    + apply delivery_segment; [vm_compute; lia|vm_compute; lia|by vm_compute|by vm_compute| |].
      * apply clean_cut_single. by apply (bool_decide_unpack _).
      * apply delivery_done.
Defined.

(** ** Cuts after a mark *)

Section lost.
Context {S : Type} `{Peer S} (E : env) (HE : no_oom E) (key : flow_key).
Implicit Types (f : fw S) (e : event).

Abbreviation ours := (λ st, fs_used st && flow_key_equal (fs_key st) key).

(** The flow is new, or it waits for the start of a command. *)
Definition at_start (flows : list flow_state) : Prop :=
  (find_slot ours flows = None ∧ ∃ i, find_slot (λ st, negb (fs_used st)) flows = Some i ∧ flows !! i = Some flow0) ∨
  (∃ i now, find_slot ours flows = Some i ∧ flows !! i = Some (Flow true key [] false 0 now)).

Lemma get_at_start e f t :
  flow_key_of e = key → at_start (f_flows f) →
  wp (get_flow_state e) (λ r f' _, ∃ i now, r = Some (i, Flow true key [] false 0 now) ∧
    f' = set_flows (<[i := Flow true key [] false 0 now]> (f_flows f)) f ∧ (i < length (f_flows f))%nat ∧
    (find_slot ours (f_flows f) = Some i ∨ find_slot ours (f_flows f) = None)) E f t.
Proof.
  intros Hk Hst. unfold get_flow_state, time_now, put_flow. rewrite Hk. wp_steps.
  destruct Hst as [(Hn & i & Hi & Hl)|(i & now & Hi & Hl)].
  - rewrite Hn, Hi. wp_steps. rewrite HE. cbn [negb]. wp_steps. rewrite Hl. cbn [from_option id].
    eexists i, _. split_and!; [done|done|by eapply lookup_lt_Some|by right].
  - rewrite Hi. wp_steps. rewrite Hl. cbn [from_option id].
    eexists i, _. split_and!; [done|done|by eapply lookup_lt_Some|by left].
Qed.

(** A segment at the start of a flow that is no command: nothing is queued, and
    the flow starts again. *)
Lemma bad_segment e f t :
  flow_key_of e = key → ev_payload_len e = strlen (ev_payload e) → ev_full_len e = strlen (ev_payload e) →
  0 < strlen (ev_payload e) ≤ MAX_DATA → resp_command_len (ev_payload e) = -1 → at_start (f_flows f) →
  wp (handle_event e) (λ _ f' _, ∃ flows, f' = set_flows flows f ∧ at_start flows) E f t.
Proof.
  intros Hk Hpl Hfl Hlen Hbad Hst. unfold handle_event. rewrite Hpl, Hfl.
  rewrite (proj2 (Z.eqb_neq _ _)), (proj2 (Z.ltb_ge MAX_DATA _)), Z.ltb_irrefl by lia.
  wp_step. eapply wp_mono; [by apply get_at_start|]. intros r f1 t1 (i & now & -> & -> & Hi & Hfind).
  unfold normalize_payload_by_seq, put_flow, time_now. cbn [fs_have_seq negb]. wp_steps. rewrite Hpl. cbn [Z.eqb negb].
  rewrite (proj2 (Z.eqb_neq _ _)) by lia. cbn [fs_buf fs_used fs_key fs_have_seq fs_next_seq fs_last_seen].
  rewrite (proj2 (Z.ltb_ge _ _)) by (change (strlen []) with 0; unfold FLOW_BUF_MAX, MAX_DATA in *; lia).
  rewrite Z.add_0_l, Z.ltb_irrefl. cbn [Z.to_nat drop app]. rewrite (take_ge (ev_payload e)) by (unfold strlen; lia).
  wp_steps. set (st := Flow true key (ev_payload e) _ _ _). set (f2 := set_flows _ _).
  assert (f_flows f2 = <[i := st]> (f_flows f)) as Hfl2 by (cbn; by rewrite !list_insert_insert_eq).
  assert (f_flows f2 !! i = Some st) as Hl2 by (rewrite Hfl2; by apply list_lookup_insert_eq).
  destruct (length (ev_payload e)) as [|n] eqn:Hn; [unfold strlen in Hlen; lia|].
  cbn [event_loop]. wp_steps. rewrite Hl2. cbn [from_option id fs_buf st].
  destruct (ev_payload e) as [|c0 b0] eqn:Hp; [done|]. rewrite Hbad. cbn [Z.eqb Z.ltb Z.compare].
  unfold reset_flow_state, time_now, put_flow. wp_steps. rewrite Hfl2. cbn [fs_used fs_key st].
  eexists. split; [reflexivity|]. right. eexists i, _. rewrite list_insert_insert_eq. split.
  - apply find_slot_insert; [done| |done]. cbn. by apply flow_key_equal_true.
  - by apply list_lookup_insert_eq.
Qed.
End lost.

(** What follows a mark is a number. *)
Lemma mark_rest argv q m :
  resp_encode argv = q ++ m → q ∈ marks argv → q ≠ [] ∧ ∃ c m', m = c :: m' ∧ is_digit c = true.
Proof.
  assert (∀ n p, 0 ≤ n → ∃ c p', dec n ++ p = c :: p' ∧ is_digit c = true) as Hdig.
  { intros n p Hn. pose proof (dec_nonempty n). pose proof (dec_digits n Hn) as Hd.
    destruct (dec n) as [|c l]; [done|]. apply Forall_cons in Hd as [Hc _]. by exists c, (l ++ p). }
  intros Heq [->|(i & -> & Hi%elem_of_seq)%list_elem_of_fmap]%elem_of_cons; (split; [done|]).
  - unfold resp_encode in Heq. cbn [app] in Heq. injection Heq as <-. apply Hdig. lia.
  - rewrite resp_encode_header, <-(take_drop i argv), fmap_app, concat_app, (take_drop i argv), <-!app_assoc in Heq.
    apply app_inv_head, app_inv_head in Heq. destruct (drop i argv) as [|a r] eqn:Hd.
    { apply (f_equal length) in Hd. rewrite length_drop in Hd. simpl in Hd. lia. }
    rewrite fmap_cons in Heq. cbn [concat app] in Heq. unfold encode_bulk at 1 in Heq. cbn [app] in Heq.
    injection Heq as <-. rewrite <-app_assoc. apply Hdig, strlen_nonneg.
Qed.

(** C39: a segment that ends right after the '*' or a '$' of a command makes the
    forwarder lose the command. The cut is taken for a protocol error although the
    command is only incomplete; the flow is reset, and the rest of the command,
    which arrives with the next segment, is an error too: nothing is queued. *)
Theorem forwarder_mark_cut_loses {S} `{Peer S} E key isn argv q m (f : fw S) t :
  no_oom E → frameable argv → strlen (resp_encode argv) ≤ MAX_DATA →
  resp_encode argv = q ++ m → q ∈ marks argv → at_start key (f_flows f) →
  wp (handle_events [segment_event [argv] key isn 0 (length q);
                     segment_event [argv] key isn (length q) (length (resp_encode argv))])
    (λ _ f' _, f_wal f' = f_wal f ∧ f_streams f' = f_streams f) E f t.
Proof.
  intros HE Hf Hmax Heq Hm Hst. destruct (mark_rest argv q m Heq Hm) as (Hne & c & m' & -> & Hc).
  assert (resp_command_len (c :: m') = -1) as Hbad2.
  { unfold resp_command_len. rewrite decide_False; [done|]. by intros ->. }
  assert (0 < strlen q) as Hq by (unfold strlen; destruct q; [done|simpl; lia]).
  pose proof (strlen_nonneg (c :: m')) as Hmn. rewrite Heq, strlen_app in Hmax.
  assert (stream [argv] = q ++ c :: m') as Hs by (cbn; by rewrite app_nil_r).
  assert (ev_payload (segment_event [argv] key isn 0 (length q)) = q) as Hp1.
  { cbn [ev_payload segment_event]. by rewrite Hs, Nat.sub_0_r, drop_0, take_app_length. }
  assert (ev_payload (segment_event [argv] key isn (length q) (length (resp_encode argv))) = c :: m') as Hp2.
  { cbn [ev_payload segment_event]. rewrite Hs, drop_app_length, take_ge; [done|]. rewrite Heq, length_app. lia. }
  assert (Z.of_nat (length (resp_encode argv) - length q) = strlen (c :: m')) as Hl2.
  { unfold strlen. rewrite Heq, length_app. lia. }
  cbn [handle_events]. wp_step. eapply wp_mono.
  { apply (bad_segment E HE key); rewrite ?Hp1; cbn [ev_payload_len ev_full_len segment_event]; rewrite ?Nat.sub_0_r; try done.
    - apply segment_key.
    - lia.
    - by apply (command_len_mark argv). }
  intros _ f1 t1 (flows & -> & Hst1). wp_step. eapply wp_mono.
  { apply (bad_segment E HE key); rewrite ?Hp2; cbn [ev_payload_len ev_full_len segment_event]; try done.
    - apply segment_key.
    - split; [unfold strlen; simpl; lia|lia]. }
  intros _ f2 t2 (flows2 & -> & _). by wp_steps.
Qed.

Lemma forwarder_mark_cut_loses_witness :
  wp (handle_events [segment_event [set_k_v] client 1 0 14; segment_event [set_k_v] client 1 14 27])
    (λ _ f' _, f_wal f' = f_wal (fw0 tt) ∧ f_streams f' = []) calm (fw0 tt) 0.
Proof.
  refine (forwarder_mark_cut_loses calm client 1 set_k_v (take 14 (resp_encode set_k_v)) (drop 14 (resp_encode set_k_v))
            (fw0 tt) 0 calm_no_oom (fa_frame _ set_k_v_forwardable) _ eq_refl _ _).
  - by vm_compute.
  - by apply (bool_decide_unpack _).
  - left. split; [by vm_compute|]. exists 0%nat. split; by vm_compute.
Defined.

(** ** Padding *)

(** Ethernet pads a frame to sixty bytes; a segment without data, an
    acknowledgement, has six bytes of padding. *)
Definition padded (s : segment) : bytes := frame plain_frame s (replicate (60 - (54 + length (sg_data s))) NUL).

(** A client sets a key to sixteen letters; its command goes out in two segments,
    and between them the client acknowledges something it has received. *)
Definition long_set : list bytes := [lit "SET"; lit "k"; lit "abcdefghijklmnop"].
Definition frames : list bytes :=
  [padded (segment_of 1 (take 30 (resp_encode long_set)));
   padded (segment_of 31 []);
   padded (segment_of 31 (drop 30 (resp_encode long_set)))].

(** The filter on each frame. *)
Fixpoint capture (l : list bytes) : M (list event) unit :=
  match l with [] => mret tt | d :: l' => _r ← xdp_filter 8888 d; capture l' end.

(** The commands queued after the frames have been captured and handled. *)
Definition queued_after (l : list bytes) : option (list (option bytes)) :=
  match capture l calm [] 0%nat with
  | Done (_, evs, _) =>
      match (_r ← wal_init; handle_events evs) calm (fw0 tt) 0%nat with
      | Done (_, f, _) => Some ((λ i, we_data (wal_slot (f_wal f) (Z.of_nat i))) <$> seq 0 (Z.to_nat (w_count (f_wal f))))
      | Fault _ => None
      end
  | Fault _ => None
  end.

Example queued_without_ack : queued_after [padded (segment_of 1 (take 30 (resp_encode long_set)));
  padded (segment_of 31 (drop 30 (resp_encode long_set)))] = Some [Some (resp_encode long_set)].
Proof. vm_compute. reflexivity. Qed.

(** The padding of a frame is taken for data. The acknowledgement between the
    two segments of a command carries no data, but the filter reports its six
    bytes of padding as a payload; the forwarder puts them in the stream and cuts
    six bytes of the next segment as already seen. What is queued for the slave is
    a well-formed command that sets another value. *)
Theorem padding_alters_value :
  queued_after frames = Some [Some (resp_encode [lit "SET"; lit "k"; lit "abcde" ++ replicate 6 NUL ++ lit "lmnop"])].
Proof. vm_compute. reflexivity. Qed.

(** ** Which commands are writes *)

Lemma find_command_in name table cmd : find_command name table = Some cmd → (name, cmd) ∈ table.
Proof.
  induction table as [|[n c] table IH]; cbn [find_command]; [done|]. destruct (_ =? 0) eqn:Hs; to_prop.
  - intros [= ->]. subst. by left.
  - intros ?%IH. by right.
Qed.

Lemma is_write_same a b : same_name a b = true → Forwarder.is_write_command a = Forwarder.is_write_command b.
Proof.
  unfold same_name. intros Heq%bool_decide_eq_true. unfold Forwarder.is_write_command, same_name. by rewrite Heq.
Qed.

(** C30: the forwarder and the server agree on what a write is. Of the names the
    server knows, the forwarder sends on exactly those whose command the table
    marks as a write, in whatever case their letters are. *)
Theorem forwarder_writes_agree name cmd :
  find_command name command = Some cmd →
  ∀ name', same_name name' name = true → Forwarder.is_write_command name' = KvsCommand.is_write_command cmd.
Proof.
  intros Hf%find_command_in name' ->%is_write_same.
  assert (Forall (λ x, Forwarder.is_write_command x.1 = KvsCommand.is_write_command x.2) command) as Hall.
  { apply (bool_decide_unpack _). by vm_compute. }
  rewrite Forall_forall in Hall. exact (Hall _ Hf).
Qed.

Lemma forwarder_writes_agree_witness :
  Forwarder.is_write_command (lit "hSet") = KvsCommand.is_write_command KVS_CMD_HSET.
Proof. apply (forwarder_writes_agree (lit "HSET") KVS_CMD_HSET eq_refl (lit "hSet")). by vm_compute. Defined.
