(* ===== verification/SlaveStream.v ===== *)
(** * The slave's command stream (kvs_repli_slave.c)

    The thread that receives forwarded commands, executes each one as replicated
    and acknowledges it, and the helpers of the TCP connections. The state is the
    server with one connection of the forwarder: what has arrived and is unread,
    what has been sent back, the receive buffer. *)

From S2P Require Import Prelude Resp KvsConfig KvSpec Aof Server Rdb KvsCommand Recovery Forwarder.

Record rthread (V : Type) := RThread {
  rt_server    : server V;
  rt_running   : bool;       (* slave_running *)
  rt_open      : bool;       (* the thread is in its loop and fd is open *)
  rt_rbuf      : bytes;      (* the first rlen bytes of rbuf *)
  rt_rbuf_size : Z;
  rt_in        : bytes;
  rt_out       : bytes
}.
Arguments RThread {V}. Arguments rt_server {V}. Arguments rt_running {V}. Arguments rt_open {V}. Arguments rt_rbuf {V}.
Arguments rt_rbuf_size {V}. Arguments rt_in {V}. Arguments rt_out {V}.

Section thread.
Context {V : Type} `{VectorOps V} (fd : Z) (peer : option Z).

Abbreviation T := (M (rthread V)).

Definition at_server (x : server V) (r : rthread V) :=
  RThread x (rt_running r) (rt_open r) (rt_rbuf r) (rt_rbuf_size r) (rt_in r) (rt_out r).
Definition stop_slave (r : rthread V) :=
  RThread (rt_server r) false (rt_open r) (rt_rbuf r) (rt_rbuf_size r) (rt_in r) (rt_out r).
Definition close_thread (r : rthread V) :=
  RThread (rt_server r) (rt_running r) false [] 0 (rt_in r) (rt_out r).
Definition with_rbuf (b : bytes) (r : rthread V) :=
  RThread (rt_server r) (rt_running r) (rt_open r) b (rt_rbuf_size r) (rt_in r) (rt_out r).
Definition with_size (n : Z) (r : rthread V) :=
  RThread (rt_server r) (rt_running r) (rt_open r) (rt_rbuf r) n (rt_in r) (rt_out r).
Definition with_in (b : bytes) (r : rthread V) :=
  RThread (rt_server r) (rt_running r) (rt_open r) (rt_rbuf r) (rt_rbuf_size r) b (rt_out r).
Definition with_out (b : bytes) (r : rthread V) :=
  RThread (rt_server r) (rt_running r) (rt_open r) (rt_rbuf r) (rt_rbuf_size r) (rt_in r) b.

Definition put_replicating (b : bool) (s : server V) : server V :=
  Server (sv_array s) (sv_rbtree s) (sv_hash s) (sv_skiplist s) (sv_vector s) (sv_aof s) (sv_rdb s)
    (sv_replicas s) (sv_closed s) (sv_sent s) b (sv_config s).

Definition on_rserver {A} (m : M (server V) A) : T A := zoom rt_server at_server m.

(** send_all: each round sends something or ends. *)
Fixpoint send_all (fuel : nat) (data : bytes) : T Z :=
  match data with
  | [] => mret 0
  | _ =>
      match fuel with
      | O => fail OutOfFuel
      | S fuel' =>
          granted ← ask_send;
          match granted with
          | None | Some O => mret (-1)
          | Some n => modify (λ r, with_out (rt_out r ++ take n data) r);; send_all fuel' (drop n data)
          end
      end
  end.

Definition REPL_ACK : bytes := lit "+ACK" ++ crlf.

Definition send_repl_ack : T Z := send_all (length REPL_ACK) REPL_ACK.

(** A reply that says the command failed. *)
Definition apply_failed (ans : Z * option bytes) : bool :=
  (ans.1 <? 0) || ((0 <? ans.1) && match ans.2 with Some (c :: _) => bool_decide (c = Byte.x2d) | _ => false end).

(** while (parse_offset < rlen), on what is left of the buffer; the result is the
    rest after the loop. Every command consumes input. *)
Fixpoint apply_loop (fuel : nat) (buf : bytes) : T bytes :=
  match buf with
  | [] => mret []
  | _ =>
      match fuel with
      | O => fail OutOfFuel
      | S fuel' =>
          '(ret, cmd_len) ← lift (resp_parse_one_command buf);
          if ret =? 1 then
            if decide (cmd_len = 0 ∨ length buf < cmd_len)%nat then mret [] else
            on_rserver (modify (put_replicating true));;
            ans ← on_rserver (kvs_protocol fd peer (take cmd_len buf));
            on_rserver (modify (put_replicating false));;
            bad ← (if apply_failed ans then mret true else r ← send_repl_ack; mret (negb (r =? 0)));
            if bad : bool then modify stop_slave;; mret []
            else apply_loop fuel' (drop cmd_len buf)
          else if ret =? 0 then mret buf
          else mret []
      end
  end.

(** One round of while (slave_running): false when the loop ends. A recv that
    finds nothing waits, so a round is run when there is data. *)
Definition receive_round : T bool :=
  r ← gets id;
  if negb (rt_running r) then modify close_thread;; mret false else
  grown ← (if strlen (rt_rbuf r) >=? s32 (rt_rbuf_size r) - 1 then
             modify (with_size (u64 (rt_rbuf_size r * 2)));;
             kvs_malloc
           else mret true);
  if negb grown then modify close_thread;; mret false else
  size ← gets rt_rbuf_size;
  n ← ask_recv;
  let n := (max 1 n `min` Z.to_nat (u64 (size - strlen (rt_rbuf r) - 1)))%nat in
  match take n (rt_in r) with
  | [] => modify close_thread;; mret false
  | data =>
      modify (with_in (drop n (rt_in r)));;
      let buf := rt_rbuf r ++ data in
      _rlen ← checked32 (strlen buf);
      rest ← apply_loop (length buf) buf;
      modify (with_rbuf rest);;
      mret true
  end.

(** The thread of a new connection, up to its loop. *)
Definition thread_start : T bool :=
  if fd <=? 0 then mret false else
  ok ← kvs_malloc;
  if negb ok then modify (λ r, close_thread (with_out [] (with_in [] r)));; mret false else
  modify (λ r, RThread (rt_server r) (rt_running r) true [] 4096 [] []);; mret true.

(** The thread runs until it waits for data or ends; every round reads some. *)
Fixpoint serve (fuel : nat) : T unit :=
  r ← gets id;
  match rt_open r, rt_in r with
  | true, _ :: _ =>
      match fuel with
      | O => fail OutOfFuel
      | S fuel' => _b ← receive_round; serve fuel'
      end
  | _, _ => mret tt
  end.

Definition serve_all : T unit := fuel ← gets (λ r, length (rt_in r)); serve fuel.

(** The slave as the forwarder's peer: a connection starts a thread; while the
    forwarder waits for an answer the thread handles what has arrived; closing
    the connection leaves it that much time too. *)
#[global] Instance replica_peer : Peer (rthread V) := {|
  p_connect := ok ← ask_sys; if negb ok then mret false else _b ← thread_start; mret true;
  p_send d := modify (λ r, with_in (rt_in r ++ d) r);
  p_recv n :=
    serve_all;;
    out ← gets rt_out;
    match out with
    | [] => mret None
    | _ => modify (with_out (drop n out));; mret (Some (take n out))
    end;
  p_close := serve_all;; modify close_thread
|}.
End thread.
