(* ===== verification/SlaveSpec.v ===== *)
(** * What the slave does with forwarded commands

    The slave keeps the forwarder's interface [Follows]: every command that the
    master could execute is executed and acknowledged. Together with the forwarder:
    the slave holds what the master holds. *)

From S2P Require Import Prelude Resp Cstdlib KvsConfig KvSpec KvsArray KvsHash KvsSkiplist KvsRbtree Aof Server Boot Rdb KvsCommand CommandSpec Recovery XdpFilter Forwarder ForwarderSpec SlaveStream.

Section slave.
Context {V : Type} `{VectorOps V} (fd : Z) (peer : option Z) (K : gset bytes) (E : env).
Context (Hfd : 0 < fd) (HK : Z.of_nat (size K) < KVS_ARRAY_SIZE) (HE : no_oom E) (Hio : io_good E) (Hnet : net_works E).
Implicit Types (r : rthread V) (d : target → dict).

(** The server behind the thread, when it applies commands. *)
Record holds d r : Prop := {
  ho_sound   : sound K (put_replicating true (rt_server r));
  ho_log     : recording (sv_aof (rt_server r));
  ho_running : rt_running r = true;
  ho_dicts x : dict_of x (rt_server r) = d x
}.

Definition step d (x : target) (o : request) : target → dict := λ y, if decide (x = y) then plain_apply o (d y) else d y.

(** The request succeeds on [d] and fits the receive buffer. *)
Definition applicable d (c : bytes) d' : Prop := ∃ x o, c = message (V := V) x o ∧ admissible (V := V) K x o ∧
  strlen c < 4096 ∧ apply_failed (strlen (plain_answer o (d x)), Some (plain_answer o (d x))) = false ∧ d' = step d x o.

Definition connected d (q : bytes) r : Prop :=
  holds d r ∧ rt_open r = true ∧ rt_rbuf r = [] ∧ rt_rbuf_size r = 4096 ∧ rt_in r = q ∧ rt_out r = [].

Lemma sound_replicating (s : server V) : sound K s → sound K (put_replicating true s).
Proof. intros [? ? ? ? Ht ? _]. split; try done. by right. Qed.

Lemma dict_replicating b x (s : server V) : dict_of x (put_replicating b s) = dict_of x s.
Proof. by destruct x. Qed.

Lemma send_ack_spec r t fuel data :
  (length data ≤ fuel)%nat →
  wp (send_all fuel data) (λ z r' _, z = 0 ∧ r' = with_out (rt_out r ++ data) r) E r t.
Proof.
  revert r t data. induction fuel as [|fuel IH]; intros r t data Hf;
    (destruct data as [|c data]; cbn [send_all]; wp_steps; [rewrite app_nil_r; by destruct r|]); [simpl in Hf; lia|].
  destruct (proj2 Hnet t) as [n ->]. wp_steps.
  eapply wp_mono; [apply IH; rewrite length_drop; simpl in *; lia|].
  intros z r' t' [-> ->]. split; [done|].
  change (with_out ((rt_out r ++ take (S n) (c :: data)) ++ drop (S n) (c :: data)) r = with_out (rt_out r ++ c :: data) r).
  by rewrite <-app_assoc, take_drop.
Qed.

Abbreviation answer o d x := (strlen (plain_answer o (d x)), Some (plain_answer o (d x))).

(** A command alone in the buffer is executed; what happens next depends on the
    answer. *)
Lemma apply_message d x o r t fuel Q :
  holds d r → admissible (V := V) K x o → (length (message (V := V) x o) ≤ fuel)%nat →
  (∀ s t' fuel', sound K s → recording (sv_aof s) → (∀ y, dict_of y s = step d x o y) →
    wp (if apply_failed (answer o d x) then mret true else z ← send_repl_ack; mret (negb (z =? 0)))
      (λ bad, wp (if bad : bool then modify stop_slave;; mret [] else apply_loop fd peer fuel' []) Q E)
      E (at_server (put_replicating false s) r) t') →
  wp (apply_loop fd peer fuel (message (V := V) x o)) Q E r t.
Proof.
  intros [Hs Hlog Hrun Hd] Hadm Hf HQ.
  destruct (message_encode (V := V) K x o Hadm) as (argv & Henc & Hsm).
  pose proof (parse_one_encode argv [] Hsm) as Hp. rewrite app_nil_r, <-Henc in Hp.
  pose proof (message_nonempty (V := V) x o) as Hne.
  destruct (message (V := V) x o) as [|c0 c'] eqn:Hmsg; [done|]. destruct fuel as [|fuel]; [simpl in Hf; lia|].
  cbn [apply_loop]. wp_steps. eapply wp_lift; [exact Hp|]. cbn [Z.eqb Pos.eqb]. cbv beta iota.
  rewrite decide_False by (cbn [length]; lia). unfold on_rserver. wp_steps.
  rewrite take_ge by done. rewrite <-Hmsg.
  eapply wp_mono.
  { apply (wp_message K E fd peer _ o HK HE Hio); [exact Hs|exact Hlog|exact Hadm]. }
  intros ans s1 t1 [Hs1 Hpost]. wp_steps. pose proof Hpost as (Hans & _ & _ & lg & Hlogs & _).
  assert (∀ y, dict_of y (put_replicating true (rt_server r)) = d y) as Hdr by (intros y; by rewrite dict_replicating).
  cbn [rt_server at_server] in Hans, Hpost, Hlogs. rewrite Hdr in Hans. rewrite Hans, Hmsg, drop_all.
  apply HQ; [done|by eapply logs_recording|].
  intros y. unfold step. rewrite <-Hdr. apply (message_post_dict _ _ _ _ _ y Hpost).
Qed.

Lemma apply_one d c d' r t fuel :
  holds d r → applicable d c d' → (length c ≤ fuel)%nat →
  wp (apply_loop fd peer fuel c) (λ rest r' _, rest = [] ∧ holds d' r' ∧ rt_open r' = rt_open r ∧
    rt_rbuf_size r' = rt_rbuf_size r ∧ rt_in r' = rt_in r ∧ rt_out r' = rt_out r ++ REPL_ACK) E r t.
Proof.
  intros Hh (x & o & -> & Hadm & Hlen & Hok & ->) Hf. eapply apply_message; [done..|].
  intros s t' fuel' Hs Hlog Hd. rewrite Hok. unfold send_repl_ack. wp_step.
  eapply wp_mono; [by apply send_ack_spec|]. intros z r2 t2 [-> ->]. wp_steps. cbn [Z.eqb negb].
  destruct fuel'; cbn [apply_loop]; wp_steps; (split; [done|]); (split; [|done]); split; try done.
  1,3: by apply (sound_replicating s).
  1,2: apply Hh.
Qed.

(** A receive takes all that is there. *)
Context (Hrecv : ∀ t, (4095 ≤ recv_n E t)%nat).

Lemma receive_whole d c r t Q :
  connected d c r → c ≠ [] → strlen c < 4096 →
  wp (apply_loop fd peer (length c) c) (λ rest r' t', Q true (with_rbuf rest r') t') E (with_in [] r) (S t) →
  wp (receive_round fd peer) Q E r t.
Proof.
  intros (Hh & Hop & Hbuf & Hsz & Hin & Hout) Hne Hlen HQ.
  unfold receive_round. wp_steps. cbn [id]. rewrite (ho_running _ _ Hh), Hbuf, Hsz. cbn [negb].
  change (strlen [] >=? s32 4096 - 1) with false. wp_steps. cbn [negb]. wp_steps. rewrite Hsz, Hin.
  change (Z.to_nat (u64 (4096 - strlen [] - 1))) with (Z.to_nat 4095).
  specialize (Hrecv t). rewrite (take_ge c) by (unfold strlen in Hlen; lia). rewrite (drop_ge c) by (unfold strlen in Hlen; lia).
  destruct c as [|c0 c']; [done|]. wp_steps. cbn [app].
  apply wp_checked32; [unfold strlen, INT_MIN, INT_MAX in *; lia|]. wp_steps.
  eapply wp_mono; [exact HQ|]. intros rest r' t' Hr. by wp_steps.
Qed.

Lemma receive_one d c d' r t :
  connected d c r → applicable d c d' →
  wp (receive_round fd peer) (λ b r' _, b = true ∧ holds d' r' ∧ rt_open r' = true ∧ rt_rbuf r' = [] ∧
    rt_rbuf_size r' = 4096 ∧ rt_in r' = [] ∧ rt_out r' = REPL_ACK) E r t.
Proof.
  intros Hc Ha. pose proof Ha as (x & o & Hm & _ & Hlen & _). pose proof Hc as (Hh & Hop & Hbuf & Hsz & Hin & Hout).
  eapply receive_whole; [done|rewrite Hm; apply message_nonempty|done|].
  eapply wp_mono; [apply (apply_one d _ d'); [by destruct Hh|done|done]|].
  intros rest r' t' (-> & Hh' & Hop' & Hsz' & Hin' & Hout').
  split_and!; [done|by destruct Hh'|cbn in *; congruence|done|cbn in *; congruence|done|].
  cbn in *. by rewrite Hout', Hout.
Qed.

Lemma serve_one d c d' r t :
  connected d c r → applicable d c d' →
  wp (serve_all fd peer) (λ _ r' _, holds d' r' ∧ rt_open r' = true ∧ rt_rbuf r' = [] ∧ rt_rbuf_size r' = 4096 ∧
    rt_in r' = [] ∧ rt_out r' = REPL_ACK) E r t.
Proof.
  intros Hc Ha. pose proof Ha as (x & o & Hm & _). pose proof Hc as (_ & Hop & _ & _ & Hin & _).
  assert (c ≠ []) as Hne by (rewrite Hm; apply message_nonempty).
  unfold serve_all. wp_steps. rewrite Hin. destruct c as [|c0 c']; [done|]. cbn [length serve]. wp_steps. cbn [id].
  rewrite Hop, Hin. wp_steps. eapply wp_mono; [by apply (receive_one d (c0 :: c') d')|].
  intros b r' t' (-> & Hh' & Hop' & Hb' & Hsz' & Hin' & Hout').
  destruct (length c'); cbn [serve]; wp_steps; cbn [id]; rewrite Hop', Hin'; wp_steps; done.
Qed.

(** The slave follows. *)
#[export] Instance replica_follows_peer :
  Follows (H := replica_peer fd peer) E holds connected applicable.
Proof.
  split.
  - intros d r t Hh. unfold p_connect, replica_peer, thread_start. wp_steps. rewrite (proj1 Hnet). cbn [negb].
    rewrite (proj2 (Z.leb_gt _ _)) by done. wp_steps. rewrite HE. cbn [negb]. wp_steps. split; [done|].
    split; [by destruct Hh|done].
  - intros d q data r t (Hh & Hop & Hb & Hsz & Hin & Hout). unfold p_send, replica_peer. wp_steps.
    split_and!; try done; [by destruct Hh|]. cbn. by rewrite Hin.
  - intros d c d' r t n Hc Ha Hn. unfold p_recv, replica_peer. wp_step. eapply wp_mono; [by apply (serve_one d c d')|].
    intros _ r' t' (Hh & Hop & Hb & Hsz & Hin & Hout). wp_steps. rewrite Hout.
    change (wp (modify (with_out (drop n REPL_ACK));; mret (Some (take n REPL_ACK)))
      (λ res (s' : rthread V) _, res = Some ACK ∧ connected d' [] s') E r' t'). wp_steps.
    rewrite (take_ge REPL_ACK), (drop_ge REPL_ACK) by (cbn; lia). split; [done|]. by split; [destruct Hh|].
Qed.

(** ** A command that fails *)

(** The thread is told to stop; [d] is what the server holds. *)
Record stopped d r : Prop := {
  sp_running : rt_running r = false;
  sp_out     : rt_out r = [];
  sp_dicts x : dict_of x (rt_server r) = d x
}.

Lemma serve_stopped d r t : stopped d r → wp (serve_all fd peer) (λ _ r' _, stopped d r') E r t.
Proof.
  intros Hst. unfold serve_all. wp_steps. destruct (rt_in r) as [|c q] eqn:Hin; cbn [length serve]; wp_steps; cbn [id];
    rewrite Hin; [by destruct (rt_open r); wp_steps|]. destruct (rt_open r); wp_steps; [|done].
  unfold receive_round. wp_steps. cbn [id]. rewrite (sp_running _ _ Hst). cbn [negb]. wp_steps.
  destruct (length q); cbn [serve]; wp_steps; cbn [id close_thread rt_open]; wp_steps; by destruct Hst.
Qed.

(** The server executed a command that failed: nothing changes, the thread stops. *)
Lemma serve_failing d x o r t :
  connected d (message (V := V) x o) r → admissible (V := V) K x o → strlen (message (V := V) x o) < 4096 →
  apply_failed (answer o d x) = true → (∀ y, step d x o y = d y) →
  wp (serve_all fd peer) (λ _ r' _, stopped d r') E r t.
Proof.
  intros Hc Hadm Hlen Hbad Hsame. pose proof (message_nonempty (V := V) x o) as Hne.
  pose proof Hc as (Hh & Hop & Hbuf & Hsz & Hin & Hout).
  unfold serve_all. wp_steps. rewrite Hin. destruct (length (message x o)) as [|fuel] eqn:Hl.
  { by apply nil_length_inv in Hl. }
  cbn [serve]. wp_steps. cbn [id]. rewrite Hop, Hin. destruct (message x o) as [|c0 c'] eqn:Hm; [done|]. wp_steps.
  rewrite <-Hm in *. eapply (receive_whole d); [done|done|done|].
  apply (apply_message d x o); [by destruct Hh|done|done|]. intros s t' fuel' Hs Hlog Hd. rewrite Hbad. wp_steps.
  destruct fuel; cbn [serve]; wp_steps; cbn; rewrite Hop; wp_steps; (split; [done|done|]); intros y;
    cbn; by rewrite dict_replicating, Hd.
Qed.

(** ** Requests as commands *)

Definition argv (x : target) (o : request) : list bytes :=
  match x with
  | OnArray => request_argv (V := V) (T := kvs_array) o
  | OnHash => request_argv (V := V) (T := kvs_hash) o
  | OnSkiplist => request_argv (V := V) (T := kvs_skiplist) o
  | OnRbtree => request_argv (V := V) (T := kvs_rbtree) o
  end.

Lemma argv_message x o : resp_encode (argv x o) = message (V := V) x o.
Proof. by destruct x. Qed.

Lemma argv_args x o : ∃ name, argv x o = name :: request_args o.
Proof. destruct x; by eexists. Qed.

Lemma argument_short (a : bytes) l : a ∈ l → strlen a ≤ strlen (resp_encode l).
Proof.
  intros Ha. unfold resp_encode. apply list_elem_of_split in Ha as (l1 & l2 & ->).
  rewrite fmap_app, fmap_cons, concat_app. cbn [concat]. unfold encode_bulk at 2, strlen.
  repeat (rewrite length_app || cbn [length app]). clear. lia.
Qed.

(** A short request is one the forwarder handles. *)
Lemma argv_forwardable x o : plain o → strlen (message (V := V) x o) < 4096 → forwardable (argv x o).
Proof.
  clear -H. intros Ho Hlen. rewrite <-argv_message in Hlen. split.
  - split; [destruct x, Ho; simpl; lia|]. apply Forall_forall. intros a Ha%argument_short. unfold FLOW_BUF_MAX. lia.
  - destruct x, Ho; by eexists _, _.
  - destruct x, Ho; by vm_compute.
  - unfold MAX_DATA, FLOW_BUF_MAX. lia.
Qed.

(** The requests that change something are the writes. *)
Definition changes (o : request) : bool := match o with RGet _ | RExist _ => false | _ => true end.

Lemma argv_write x o : plain o → is_write (argv x o) = changes o.
Proof. intros []; destruct x; by vm_compute. Qed.

(** Every MOD finds its key. *)
Fixpoint mods_find (l : list (target * request)) d : Prop :=
  match l with
  | [] => True
  | (x, o) :: l' => match o with RMod k _ => is_Some (d x !! k) | _ => True end ∧ mods_find l' (step d x o)
  end.

Lemma answer_succeeds o m :
  plain o → changes o = true → match o with RMod k _ => is_Some (m !! k) | _ => True end →
  apply_failed (strlen (plain_answer o m), Some (plain_answer o m)) = false.
Proof.
  intros [] Hc Hm; try done; cbn [plain_answer].
  - by destruct (m !! k).
  - by destruct Hm as [? ->].
Qed.

Definition admitted (xo : target * request) : Prop :=
  admissible (V := V) K xo.1 xo.2 ∧ strlen (message (V := V) xo.1 xo.2) < 4096.

Lemma plain_reads o m : plain o → changes o = false → plain_apply o m = m.
Proof. by intros []. Qed.

Lemma mods_find_ext l d1 d2 : (∀ x, d1 x = d2 x) → mods_find l d1 → mods_find l d2.
Proof.
  revert d1 d2. induction l as [|[x o] l IH]; intros d1 d2 Hd; [done|]. intros [Hf Hm]. split.
  - destruct o; [..|]; try done; by rewrite <-Hd.
  - eapply IH; [|exact Hm]. intros y. unfold step. by rewrite Hd.
Qed.

(** What the writes of the requests do, one by one. *)
Lemma requests_goods l d :
  Forall admitted l → mods_find l d →
  ∃ d', goods applicable d (writes ((λ '(x, o), argv x o) <$> l)) d' ∧ ∀ x, d' x = replayed l x (d x).
Proof.
  intros Hl. revert d. induction Hl as [|[x o] l [Hadm Hlen] Hl IH]; intros d Hm; [exists d; split; [constructor|done]|].
  destruct Hm as [Hf Hm]. pose proof (proj1 Hadm) as Ho. cbn [fst snd] in *.
  unfold writes in *. rewrite fmap_cons, filter_cons, argv_write by done. destruct (changes o) eqn:Hc.
  - destruct (IH _ Hm) as (d' & Hg & Hd). exists d'. split; [|done].
    rewrite decide_True by done. rewrite fmap_cons, argv_message. econstructor; [|exact Hg].
    exists x, o. split_and!; try done. by apply answer_succeeds.
  - assert (∀ y, step d x o y = d y) as Hsame.
    { intros y. unfold step. rewrite plain_reads by done. by case_decide. }
    destruct (IH d) as (d' & Hg & Hd); [by eapply mods_find_ext|]. exists d'. rewrite decide_False by done. split; [done|].
    intros y. rewrite Hd. cbn [replayed]. rewrite plain_reads by done. by case_decide.
Qed.

(** The master's side. *)
Lemma run_all_dicts fd' peer' l s t :
  sound K s → recording (sv_aof s) → Forall admitted l →
  wp (run_all (V := V) fd' peer' l) (λ _ s' _, ∀ x, dict_of x s' = replayed l x (dict_of x s)) E s t.
Proof.
  intros Hs Hlog Hl. revert s t Hs Hlog. induction Hl as [|[x o] l [Hadm _] Hl IH]; intros s t Hs Hlog; cbn [run_all]; wp_steps; [done|].
  eapply wp_mono; [by apply wp_message with (K := K)|]. intros ans s1 t1 [Hs1 Hpost].
  pose proof Hpost as (_ & _ & _ & lg & Hlogs & _). cbn [fst snd] in *.
  eapply wp_mono; [apply IH; [done|by eapply logs_recording]|]. intros [] s2 t2 Hd y. cbn [replayed].
  by rewrite Hd, (message_post_dict _ _ _ _ _ _ Hpost).
Qed.
End slave.
