(* ===== verification/SlaveProps.v ===== *)
(** * Following the master

    The forwarder and the slave together: when it follows, and when it stops. *)

From S2P Require Import Prelude Resp Cstdlib KvsConfig KvSpec KvsArray KvsHash KvsSkiplist KvsRbtree Aof Server Boot Rdb KvsCommand CommandSpec Recovery XdpFilter Forwarder ForwarderSpec ForwarderProps SlaveStream SlaveSpec.

(** ** Theorems *)

(** C8: the replica follows the master. The slave holds what the master holds and
    is not connected. Clients send plain requests to the master (SET, GET, DEL, MOD
    and EXIST, without expiry, messages below 4096 bytes); the forwarder sees them as
    TCP segments, repeated and overlapping, without gaps, cut anywhere except right
    after a '*' or a '$'. When no malloc and no system call fails, every recv of the slave takes
    all that has arrived (up to its 4095 bytes of room) and every MOD finds its key,
    then once the segments have been handled
    the forwarder's queue is empty, every write having been sent to the slave,
    executed there and acknowledged, and the slave's array, hash table, skip list
    and red-black tree hold what the master's hold. *)
Theorem replica_follows {V} `{VectorOps V} fd peer mfd mpeer K E l key isn evs (sm : server V) (f : fw (rthread V)) t :
  0 < fd → Z.of_nat (size K) < KVS_ARRAY_SIZE → no_oom E → io_good E → net_works E → (∀ t, (4095 ≤ recv_n E t)%nat) →
  sound K sm → recording (sv_aof sm) → holds K (λ x, dict_of x sm) (f_peer f) →
  Forall (admitted (V := V) K) l → mods_find l (λ x, dict_of x sm) →
  f_running f = true → f_syncing f = false → f_slave_fd f = false → f_flows f = replicate FLOW_MAX flow0 →
  let cmds := (λ '(x, o), argv (V := V) x o) <$> l in
  delivery cmds key isn 0 evs (length (stream cmds)) →
  wp (run_all mfd mpeer l) (λ _ sm' t',
    wp (wal_init;; handle_events (H := replica_peer fd peer) evs) (λ _ f' _,
      wal_rep (f_wal f') [] ∧ ∀ x, dict_of x (rt_server (f_peer f')) = dict_of x sm') E f t') E sm t.
Proof.
  intros Hfd HK HE Hio Hnet Hrecv Hsm Hlog Hh Hl Hm Hrun Hsy Hcl Hfl cmds Hd.
  eapply wp_mono; [by apply (run_all_dicts K E HK HE Hio)|]. intros [] sm' t' Hmaster.
  destruct (requests_goods K l _ Hl Hm) as (d' & Hg & Hd').
  wp_step. eapply wp_mono; [by apply wal_init_spec|]. intros _ f1 t1 (_ & w & -> & Hw & Hwc).
  pose proof (replica_follows_peer fd peer K E Hfd HK HE Hio Hnet Hrecv) as HF.
  pose proof (following_handles E _ _ _ (HF := HF) HE Hnet d') as Hh'.
  eapply wp_mono.
  { eapply (delivery_spec E (following (holds K) (connected K) (applicable (V := V) K) d') cmds key isn evs 0 _ 0 [] []); [done| | | |exact Hd].
    - apply Forall_fmap, (Forall_impl _ _ _ Hl). intros [x o] [Hadm Hlen]. by apply (argv_forwardable x o (proj1 Hadm)).
    - split_and!; try done. exists (λ x, dict_of x sm). split; [by right|by rewrite drop_0].
    - left. cbn. rewrite Hfl. split_and!; [done|done|done|]. by exists 0%nat. }
  intros _ f2 t2 (k & D & L & _ & (-> & Hw2 & _ & _ & D' & Hlive & Hrest) & Ht & _). split; [done|]. intros x.
  apply tracked_all in Ht. rewrite Nat.add_0_l in Ht, Hrest.
  assert (writes (drop k cmds) = []) as Hnone.
  { apply (app_inv_head (writes (take k cmds))). by rewrite app_nil_r, <-writes_of_app, take_drop. }
  rewrite Hnone in Hrest. inversion Hrest; subst. rewrite Hmaster, <-Hd'.
  destruct Hlive as [[_ [Hh2 _]]|[_ Hh2]]; apply Hh2.
Qed.

(** A slave that starts with an empty server, and a master like it. *)
Definition thread0 : rthread unit := RThread fresh true false [] 0 [] [].

Lemma three_admitted : Forall (admitted (V := unit) {[lit "k"]}) three_requests.
Proof.
  pose proof three_admissible as Ha. repeat (apply Forall_cons in Ha as [? Ha]).
  repeat (constructor; [split; [done|by vm_compute]|]). constructor.
Qed.

Lemma thread0_holds : holds {[lit "k"]} (λ x, dict_of x fresh) thread0.
Proof.
  destruct fresh_sound as (Hs & _ & Hj). exact (Build_holds {[lit "k"]} _ thread0 (sound_replicating _ fresh Hs) (or_intror (ex_intro _ [] Hj)) eq_refl (λ x, eq_refl)).
Qed.

Lemma calm_net : net_works calm.
Proof. split; [done|]. intros t. by exists 4095%nat. Qed.

(** The three requests in two segments, the second repeating eighteen bytes. *)
Definition three_cmds : list (list bytes) := (λ '(x, o), argv (V := unit) x o) <$> three_requests.
Definition three_segments : list event :=
  [segment_event three_cmds client 1 0 40; segment_event three_cmds client 1 22 (length (stream three_cmds))].

Lemma clean_cut_at cmds b :
  forallb (λ i, match cmds !! i with
                | Some a => negb (bool_decide (drop (length (stream (take i cmds))) b ∈ marks a))
                | None => true end) (seq 0 (length cmds)) = true → clean_cut cmds b.
Proof.
  intros Hall n a q Hn Hq Hin. rewrite forallb_forall in Hall.
  assert (In n (seq 0 (length cmds))) as Hs by (apply in_seq; apply lookup_lt_Some in Hn; lia).
  specialize (Hall n Hs). cbn in Hall. rewrite Hn in Hall. apply negb_true_iff, bool_decide_eq_false in Hall. apply Hall.
  by rewrite Hq, drop_app_length.
Qed.

Lemma three_delivery : delivery three_cmds client 1 0 three_segments (length (stream three_cmds)).
Proof.
  apply delivery_segment; [lia|vm_compute; lia|by vm_compute|by vm_compute| |].
  - apply clean_cut_at. by vm_compute.
  - apply delivery_segment; [vm_compute; lia|vm_compute; lia|by vm_compute|by vm_compute| |].
    + apply clean_cut_at. by vm_compute.
    + apply delivery_done.
Qed.

Lemma replica_follows_witness :
  wp (run_all 5 None three_requests) (λ _ sm' t',
    wp (wal_init;; handle_events (H := replica_peer 7 None) three_segments) (λ _ f' _,
      wal_rep (f_wal f') [] ∧ ∀ x, dict_of x (rt_server (f_peer f')) = dict_of x sm') calm (fw0 thread0) t') calm fresh 0.
Proof.
  destruct fresh_sound as (Hs & He & Hj).
  refine (replica_follows 7 None 5 None {[lit "k"]} calm three_requests client 1 three_segments fresh (fw0 thread0) 0
    eq_refl eq_refl calm_no_oom calm_io calm_net _ Hs _ thread0_holds three_admitted _ eq_refl eq_refl eq_refl eq_refl three_delivery).
  - intros t. cbn [recv_n calm]. lia.
  - right. by exists [].
  - by cbn.
Defined.

(** ** A failing command *)

(** The forwarder tries again: it closes the connection, connects, sends commands
    and waits for an answer. *)
Fixpoint attempts {S} `{Peer S} (l : list bytes) : M S unit :=
  match l with
  | [] => mret tt
  | c :: l' => p_close;; _b ← p_connect; p_send c;; _ack ← p_recv 63; attempts l'
  end.

Lemma attempts_stopped {V} `{VectorOps V} fd peer E d l (r : rthread V) t :
  stopped d r → wp (attempts (H := replica_peer fd peer) l) (λ _ r' _, stopped d r') E r t.
Proof.
  revert r t. induction l as [|c l IH]; intros r t Hr; cbn [attempts]; wp_steps; [done|].
  set (rest := attempts l) in *. unfold p_close, p_connect, p_send, p_recv, replica_peer, thread_start. wp_step.
  eapply wp_mono; [by apply serve_stopped|]. intros [] r1 t1 Hr1. wp_steps.
  destruct (sys_ok E t1), (fd <=? 0); cbn [negb]; wp_steps; [|destruct (malloc_ok E _); cbn [negb]; wp_steps|..];
    (eapply wp_mono; [apply (serve_stopped fd peer E d); by destruct Hr1|]);
    intros [] r3 t3 Hr3; wp_steps; rewrite (sp_out _ _ Hr3); wp_steps; exact (IH r3 t3 Hr3).
Qed.

(** C38: one failing command stops a replica for good. A MOD of a key that does
    not exist is refused by the master and changes nothing there; but it is a
    write, so the slave gets it, and takes the refusal for a failure to apply. It
    sends no acknowledgement, clears slave_running, and from then on no command on
    this or any later connection is executed or acknowledged. *)
Theorem failed_write_stops_replica {V} `{VectorOps V} fd peer K E d x k v l (r : rthread V) t :
  Z.of_nat (size K) < KVS_ARRAY_SIZE → no_oom E → io_good E → (∀ t, (4095 ≤ recv_n E t)%nat) →
  admissible (V := V) K x (RMod k v) → strlen (message (V := V) x (RMod k v)) < 4096 → d x !! k = None →
  connected K d (message (V := V) x (RMod k v)) r →
  wp (serve_all fd peer;; attempts (H := replica_peer fd peer) l)
    (λ _ r' _, rt_running r' = false ∧ rt_out r' = [] ∧ ∀ y, dict_of y (rt_server r') = d y) E r t.
Proof.
  intros HK HE Hio Hrecv Hadm Hlen Hk Hc. wp_step. eapply wp_mono.
  { eapply (serve_failing fd peer K E HK HE Hio Hrecv d x (RMod k v)); [done|done|done| |].
    - cbn [plain_answer]. by rewrite Hk.
    - intros y. unfold step. cbn [plain_apply]. case_decide as Hxy; [|done]. subst. by rewrite Hk. }
  intros [] r1 t1 Hr1. eapply wp_mono; [by apply attempts_stopped|]. intros [] r2 t2 []. done.
Qed.

(** The connection on which a MOD of the missing key "k" has arrived. *)
Definition mod_message : bytes := message (V := unit) OnArray (RMod (lit "k") (lit "v")).
Definition waiting : rthread unit := RThread fresh true true [] 4096 mod_message [].

Lemma failed_write_stops_replica_witness :
  wp (serve_all 7 None;; attempts (H := replica_peer 7 None) [mod_message; resp_encode set_k_v])
    (λ _ r' _, rt_running r' = false ∧ rt_out r' = [] ∧ ∀ y, dict_of y (rt_server r') = ∅) calm waiting 0.
Proof.
  destruct fresh_sound as (Hs & He & Hj).
  refine (failed_write_stops_replica 7 None {[lit "k"]} calm (λ _, ∅) OnArray (lit "k") (lit "v") _ waiting 0
    eq_refl calm_no_oom calm_io _ _ eq_refl eq_refl _).
  - intros t. cbn [recv_n calm]. lia.
  - pose proof (Forall_inv three_admissible) as Hadm. destruct Hadm as (_ & Hnul & Hsh & _ & Hk).
    split_and!; [constructor|exact Hnul|exact Hsh|by vm_compute|exact Hk].
  - refine (conj (Build_holds {[lit "k"]} _ waiting (sound_replicating _ fresh Hs) (or_intror (ex_intro _ [] Hj)) eq_refl He)
      (conj eq_refl (conj eq_refl (conj eq_refl (conj eq_refl eq_refl))))).
Defined.
