(* ===== verification/Handoff.v ===== *)
(** * Handing over from the snapshot to the stream of commands

    The slave sends SYNC before it fetches the snapshot and FINSYNC after it has
    loaded it; both pass the forwarder, which queues the writes it captures in
    between and sends them at the end. The snapshot is taken somewhere in between,
    so the slave executes again some writes that it already has. *)

From S2P Require Import Prelude Resp Cstdlib KvsConfig KvSpec KvsArray KvsHash KvsSkiplist KvsRbtree Aof Server Boot Rdb KvsCommand CommandSpec RbtreeEngine Rdma FullSync FullSyncSpec Replication Recovery Lifecycle XdpFilter Forwarder ForwarderSpec ForwarderProps SlaveStream SlaveSpec SlaveProps.

(** ** Executing writes again *)







(** ** Queueing *)

Section queueing.
Context {S : Type} `{Peer S} (E : env) (HE : no_oom E).



(** ** Control commands *)

End queueing.

(** What the slave sends to the master on its own connection. *)
Definition control : list (list bytes) := [[lit "SYNC"]; [lit "FINSYNC"]].
Definition sync_event (key : flow_key) (isn : Z) : event := segment_event control key isn 0 14.
Definition finsync_event (key : flow_key) (isn : Z) : event := segment_event control key isn 14 31.

Example control_bytes :
  ev_payload (sync_event client 0) = lit "*1" ++ crlf ++ lit "$4" ++ crlf ++ lit "SYNC" ++ crlf ∧
  ev_payload (finsync_event client 0) = lit "*1" ++ crlf ++ lit "$7" ++ crlf ++ lit "FINSYNC" ++ crlf.
Proof. split; vm_compute; reflexivity. Qed.




(** ** From SYNC to FINSYNC *)


(** ** The snapshot in between *)





(** ** Theorems *)





