(* ===== verification/MemCheck.v ===== *)
(** * The memory leak detector (mem_leak/mem_check.c, mem_leak/mem_report.c)

    Every allocation leaves a file named after its address, every release removes
    it; the report lists the files. An allocation is two steps of its thread, malloc
    and, under the lock, writing the file; a release is two steps, removing the
    file under the lock, and free. The steps of threads interleave, malloc may
    return any address that is not in use, files can fail to open, and files of an
    earlier run, which nothing removes, may be there at the start. What the heap
    holds is the allocator's own state, from malloc to free. *)

From S2P Require Import Prelude.

(** __FILE__, __func__, __LINE__ *)
Record site := Site { st_file : bytes; st_func : bytes; st_line : Z }.

(** What a file says: "[+] file:func:line ptr size". *)
Record mem_record := MemRecord { mrec_site : site; mrec_size : Z }.

(** Between the two steps of mem_malloc_record or mem_free_record. *)
Inductive progress := Idle | Allocated (ptr : Z) (r : mem_record) | Unlinked (ptr : Z).

Record tracker := Tracker {
  tk_heap    : gmap Z mem_record;   (* blocks of malloc, with what was asked for and where *)
  tk_files   : gmap Z mem_record;   (* ./mem_block/%p.mem *)
  tk_threads : gmap nat progress;   (* absent: Idle *)
  tk_failed  : gset Z;              (* blocks whose file could not be opened *)
  tk_stderr  : list Z               (* "Double free or invalid free" *)
}.

Definition progress_of (th : nat) (s : tracker) : progress := default Idle (tk_threads s !! th).

Inductive action :=
| Malloc (th : nat) (ptr size : Z) (x : site)   (* malloc returns ptr *)
| WriteRecord (th : nat) (opened : bool)        (* fopen, fprintf; the caller gets ptr *)
| Unlink (th : nat) (ptr : Z)                   (* mem_free_record (ptr) *)
| Free (th : nat).

(** ** Steps *)

Definition at_thread (th : nat) (p : progress) (m : gmap nat progress) : gmap nat progress := <[th := p]> m.

(** mem_malloc_record: malloc; NULL is not recorded *)
Definition malloc_step (th : nat) (ptr size : Z) (x : site) (s : tracker) : tracker :=
  let r := MemRecord x size in
  Tracker (<[ptr := r]> (tk_heap s)) (tk_files s) (at_thread th (Allocated ptr r) (tk_threads s)) (tk_failed s) (tk_stderr s).

(** ... the part under the lock *)
Definition record_step (th : nat) (ptr : Z) (r : mem_record) (opened : bool) (s : tracker) : tracker :=
  if opened
  then Tracker (tk_heap s) (<[ptr := r]> (tk_files s)) (at_thread th Idle (tk_threads s)) (tk_failed s) (tk_stderr s)
  else Tracker (tk_heap s) (tk_files s) (at_thread th Idle (tk_threads s)) ({[ptr]} ∪ tk_failed s) (tk_stderr s).

(** mem_free_record: the part under the lock *)
Definition unlink_step (th : nat) (ptr : Z) (s : tracker) : tracker :=
  Tracker (tk_heap s) (delete ptr (tk_files s)) (at_thread th (Unlinked ptr) (tk_threads s)) (tk_failed s)
    (match tk_files s !! ptr with Some _ => tk_stderr s | None => tk_stderr s ++ [ptr] end).

(** ... and free, which is undefined for a block that is not allocated *)
Definition free_step (th : nat) (ptr : Z) (s : tracker) : outcome tracker :=
  match tk_heap s !! ptr with
  | Some _ => Done (Tracker (delete ptr (tk_heap s)) (tk_files s) (at_thread th Idle (tk_threads s)) (tk_failed s ∖ {[ptr]}) (tk_stderr s))
  | None => Fault UseAfterFree
  end.

(** A thread does what its code does next; malloc returns a block that is not in use. *)
Definition step (s : tracker) (x : action) : outcome tracker :=
  match x with
  | Malloc th ptr size y =>
      match progress_of th s with
      | Idle => if decide (ptr ≠ 0 ∧ tk_heap s !! ptr = None) then Done (malloc_step th ptr size y s) else Done s
      | _ => Done s
      end
  | WriteRecord th opened =>
      match progress_of th s with Allocated ptr r => Done (record_step th ptr r opened s) | _ => Done s end
  | Unlink th ptr =>
      match progress_of th s with Idle => if ptr =? 0 then Done s else Done (unlink_step th ptr s) | _ => Done s end
  | Free th =>
      match progress_of th s with Unlinked ptr => free_step th ptr s | _ => Done s end
  end.

Fixpoint run (acts : list action) (s : tracker) : outcome tracker :=
  match acts with
  | [] => Done s
  | x :: acts' => match step s x with Done s' => run acts' s' | Fault f => Fault f end
  end.

(** generate_memory_report: one line per file that can be read, and their number *)
Definition generate_memory_report (s : tracker) : list (Z * mem_record) * nat :=
  (map_to_list (tk_files s), length (map_to_list (tk_files s))).

(** cleanup_mem_files *)
Definition cleanup_mem_files (s : tracker) : tracker :=
  Tracker (tk_heap s) ∅ (tk_threads s) (tk_failed s) (tk_stderr s).

(** ** Callers that free what they hold *)

(** A block between the two steps of a thread: malloc has not returned it to the
    caller yet, or the caller has passed it to free. *)
Definition in_flight (p : progress) : option Z :=
  match p with Idle => None | Allocated ptr _ | Unlinked ptr => Some ptr end.

(** A caller holds the block. *)
Definition holds (s : tracker) (ptr : Z) : Prop :=
  is_Some (tk_heap s !! ptr) ∧ map_Forall (λ _ p, in_flight p ≠ Some ptr) (tk_threads s).

Definition disciplined (s : tracker) (x : action) : bool :=
  match x with
  | Unlink th ptr => match progress_of th s with Idle => (ptr =? 0) || bool_decide (holds s ptr) | _ => true end
  | _ => true
  end.

Fixpoint obeys (acts : list action) (s : tracker) : bool :=
  match acts with
  | [] => true
  | x :: acts' => disciplined s x && match step s x with Done s' => obeys acts' s' | Fault _ => true end
  end.

(** At the start, with the files of an earlier run. *)
Definition tracker0 (stale : gmap Z mem_record) : tracker := Tracker ∅ stale ∅ ∅ [].

(** ** The invariant *)

Section tracking.
Context (stale : gmap Z mem_record).
Implicit Types (s : tracker).

Record tracked s : Prop := {
  tr_file ptr r : tk_files s !! ptr = Some r → tk_heap s !! ptr = Some r ∨ stale !! ptr = Some r;
  tr_block ptr r : tk_heap s !! ptr = Some r → (∀ th, in_flight (progress_of th s) ≠ Some ptr) → ptr ∉ tk_failed s →
    tk_files s !! ptr = Some r;
  tr_alloc th ptr r : progress_of th s = Allocated ptr r → tk_heap s !! ptr = Some r ∧ ptr ∉ tk_failed s;
  tr_unlink th ptr : progress_of th s = Unlinked ptr → is_Some (tk_heap s !! ptr) ∧ tk_files s !! ptr = None;
  tr_one th th' ptr : in_flight (progress_of th s) = Some ptr → in_flight (progress_of th' s) = Some ptr → th = th';
  tr_failed ptr : ptr ∈ tk_failed s → is_Some (tk_heap s !! ptr)
}.

Lemma progress_at th p th' h f m k e :
  progress_of th' (Tracker h f (at_thread th p m) k e) = if decide (th = th') then p else default Idle (m !! th').
Proof.
  unfold progress_of, at_thread. cbn [tk_threads]. case_decide; subst; [by rewrite lookup_insert_eq|by rewrite lookup_insert_ne].
Qed.

Lemma holds_spec s ptr : holds s ptr → is_Some (tk_heap s !! ptr) ∧ ∀ th, in_flight (progress_of th s) ≠ Some ptr.
Proof.
  intros [Hh Hf]. split; [done|]. intros th. unfold progress_of. destruct (tk_threads s !! th) as [p|] eqn:Hp; [|done].
  by apply (Hf th p Hp).
Qed.

(** A block in flight is allocated. *)
Lemma flight_alloc s th ptr : tracked s → in_flight (progress_of th s) = Some ptr → is_Some (tk_heap s !! ptr).
Proof.
  intros Hs. destruct (progress_of th s) as [|q r|q] eqn:Hp; [done|intros [= ->]..].
  - destruct (tr_alloc _ Hs _ _ _ Hp). by eexists.
  - by destruct (tr_unlink _ Hs _ _ Hp).
Qed.

Lemma tracked_malloc s th ptr size x :
  tracked s → progress_of th s = Idle → tk_heap s !! ptr = None → tracked (malloc_step th ptr size x s).
Proof.
  intros Hs Hi Hn. pose proof Hs as [H1 H2 H3 H4 H5 H6]. unfold malloc_step.
  assert (∀ th', in_flight (progress_of th' s) ≠ Some ptr) as Hfl.
  { intros th' Hq%flight_alloc; [|done]. rewrite Hn in Hq. by destruct Hq. }
  split; cbn [tk_heap tk_files tk_failed].
  - intros q r Hq. destruct (H1 q r Hq) as [Hr|Hr]; [|by right]. left. rewrite lookup_insert_ne; [done|congruence].
  - intros q r Hq Hno Hf. destruct (decide (q = ptr)) as [->|Hne].
    { destruct (Hno th). by rewrite progress_at, decide_True. }
    rewrite lookup_insert_ne in Hq by done. apply H2; [done| |done]. intros th' Hx. destruct (decide (th = th')) as [->|Hth].
    + by rewrite Hi in Hx.
    + apply (Hno th'). by rewrite progress_at, decide_False.
  - intros th' q r. rewrite progress_at. case_decide as Hth.
    + intros [= -> ->]. split; [apply lookup_insert_eq|]. intros Hx%H6. rewrite Hn in Hx. by destruct Hx.
    + intros Hp. destruct (H3 th' q r Hp) as [Hq Hf]. split; [|done]. rewrite lookup_insert_ne; [done|congruence].
  - intros th' q. rewrite progress_at. case_decide; [done|]. intros Hp. destruct (H4 th' q Hp) as [Hq Hf]. split; [|done].
    rewrite lookup_insert_is_Some. destruct (decide (ptr = q)); auto.
  - intros th1 th2 q. rewrite !progress_at. repeat case_decide; subst; try done.
    + intros [= <-] Hq. by destruct (Hfl th2).
    + intros Hq [= <-]. by destruct (Hfl th1).
    + apply H5.
  - intros q Hq%H6. rewrite lookup_insert_is_Some. destruct (decide (ptr = q)); auto.
Qed.

Lemma tracked_record s th ptr r opened :
  tracked s → progress_of th s = Allocated ptr r → tracked (record_step th ptr r opened s).
Proof.
  intros [H1 H2 H3 H4 H5 H6] Hi. destruct (H3 _ _ _ Hi) as [Hheap Hnf].
  assert (in_flight (progress_of th s) = Some ptr) as Hfl by by rewrite Hi.
  assert (∀ th' q, th ≠ th' → in_flight (progress_of th' s) = Some q → q ≠ ptr) as Hother.
  { intros th' q Hth Hq ->. apply Hth. by eapply H5. }
  unfold record_step. destruct opened; split; cbn [tk_heap tk_files tk_failed].
  - intros q x. rewrite lookup_insert_Some. intros [[<- <-]|[_ Hq]]; [by left|by apply H1].
  - intros q x Hq Hno Hf. destruct (decide (ptr = q)) as [<-|Hne]; [rewrite lookup_insert_eq; congruence|].
    rewrite lookup_insert_ne by done. apply H2; [done| |done]. intros th' Hx. destruct (decide (th = th')) as [<-|Hth].
    + rewrite Hfl in Hx. congruence.
    + apply (Hno th'). by rewrite progress_at, decide_False.
  - intros th' q x. rewrite progress_at. case_decide; [done|]. apply H3.
  - intros th' q. rewrite progress_at. case_decide as Hth; [done|]. intros Hp. destruct (H4 th' q Hp) as [Hq Hf].
    split; [done|]. rewrite lookup_insert_ne; [done|]. intros ->. by eapply Hother; [exact Hth|unfold progress_of; rewrite Hp|].
  - intros th1 th2 q. rewrite !progress_at. repeat case_decide; try done. apply H5.
  - apply H6.
  - apply H1.
  - intros q x Hq Hno [Hne Hf]%not_elem_of_union. apply H2; [done| |done]. intros th' Hx. destruct (decide (th = th')) as [<-|Hth].
    + rewrite Hfl in Hx. set_solver.
    + apply (Hno th'). by rewrite progress_at, decide_False.
  - intros th' q x. rewrite progress_at. case_decide as Hth; [done|]. intros Hp. destruct (H3 th' q x Hp) as [Hq Hf].
    split; [done|]. rewrite not_elem_of_union, not_elem_of_singleton. split; [|done].
    by eapply Hother; [exact Hth|unfold progress_of; rewrite Hp].
  - intros th' q. rewrite progress_at. case_decide; [done|]. apply H4.
  - intros th1 th2 q. rewrite !progress_at. repeat case_decide; try done. apply H5.
  - intros q [->%elem_of_singleton|Hq]%elem_of_union; [by eexists|by apply H6].
Qed.

Lemma tracked_unlink s th ptr :
  tracked s → progress_of th s = Idle → holds s ptr → tracked (unlink_step th ptr s).
Proof.
  intros [H1 H2 H3 H4 H5 H6] Hi [Hh Hno]%holds_spec. unfold unlink_step. split; cbn [tk_heap tk_files tk_failed].
  - intros q r. rewrite lookup_delete_Some. intros [_ Hq]. by apply H1.
  - intros q r Hq Hfl Hf. destruct (decide (ptr = q)) as [<-|Hne]; [destruct (Hfl th); by rewrite progress_at, decide_True|].
    rewrite lookup_delete_ne by done. apply H2; [done| |done]. intros th' Hx. destruct (decide (th = th')) as [<-|Hth]; [by rewrite Hi in Hx|].
    apply (Hfl th'). by rewrite progress_at, decide_False.
  - intros th' q r. rewrite progress_at. case_decide; [done|]. apply H3.
  - intros th' q. rewrite progress_at. case_decide as Hth.
    + intros [= <-]. split; [done|apply lookup_delete_eq].
    + intros Hp. destruct (H4 th' q Hp) as [Hq Hf]. split; [done|]. rewrite lookup_delete_None. by right.
  - intros th1 th2 q. rewrite !progress_at. repeat case_decide; subst; try done.
    + intros [= <-] Hq. by destruct (Hno th2).
    + intros Hq [= <-]. by destruct (Hno th1).
    + apply H5.
  - apply H6.
Qed.

Lemma tracked_free s th ptr :
  tracked s → progress_of th s = Unlinked ptr → ∃ s', free_step th ptr s = Done s' ∧ tracked s'.
Proof.
  intros [H1 H2 H3 H4 H5 H6] Hi. destruct (H4 _ _ Hi) as [[r0 Hheap] Hfile]. unfold free_step. rewrite Hheap.
  assert (in_flight (progress_of th s) = Some ptr) as Hfl by by rewrite Hi.
  assert (∀ th' q, th ≠ th' → in_flight (progress_of th' s) = Some q → q ≠ ptr) as Hother.
  { intros th' q Hth Hq ->. apply Hth. by eapply H5. }
  eexists. split; [done|]. split; cbn [tk_heap tk_files tk_failed].
  - intros q r Hq. rewrite lookup_delete_ne by congruence. by apply H1.
  - intros q r. rewrite lookup_delete_Some. intros [Hne Hq] Hno Hf. apply H2; [done| |set_solver].
    intros th' Hx. destruct (decide (th = th')) as [<-|Hth]; [congruence|]. apply (Hno th'). by rewrite progress_at, decide_False.
  - intros th' q r. rewrite progress_at. case_decide as Hth; [done|]. intros Hp. destruct (H3 th' q r Hp) as [Hq Hf].
    split; [|set_solver]. rewrite lookup_delete_ne; [done|]. intros <-. by eapply Hother; [exact Hth|unfold progress_of; rewrite Hp|].
  - intros th' q. rewrite progress_at. case_decide as Hth; [done|]. intros Hp. destruct (H4 th' q Hp) as [Hq Hf].
    split; [|done]. rewrite lookup_delete_is_Some. split; [|done]. intros <-. by eapply Hother; [exact Hth|unfold progress_of; rewrite Hp|].
  - intros th1 th2 q. rewrite !progress_at. repeat case_decide; try done. apply H5.
  - intros q [Hq Hne]%elem_of_difference. rewrite lookup_delete_is_Some. split; [set_solver|by apply H6].
Qed.

Lemma tracked_step s x : tracked s → disciplined s x = true → ∃ s', step s x = Done s' ∧ tracked s'.
Proof.
  intros Hs Hd. destruct x as [th ptr size y|th opened|th ptr|th]; cbn [step disciplined] in *.
  - destruct (progress_of th s) eqn:Hp; [|by eauto..]. case_decide as Hc; [|by eauto]. destruct Hc. eexists. split; [done|]. by apply tracked_malloc.
  - destruct (progress_of th s) eqn:Hp; [by eauto| |by eauto]. eexists. split; [done|]. by apply tracked_record.
  - destruct (progress_of th s) eqn:Hp; [|by eauto..]. destruct (ptr =? 0); [by eauto|]. apply bool_decide_eq_true in Hd.
    eexists. split; [done|]. by apply tracked_unlink.
  - destruct (progress_of th s) eqn:Hp; [by eauto..|]. by apply tracked_free.
Qed.

Lemma tracked_run acts s : tracked s → obeys acts s = true → ∃ s', run acts s = Done s' ∧ tracked s'.
Proof.
  revert s. induction acts as [|x acts IH]; intros s Hs Ho; cbn [run obeys] in *; [by eauto|].
  apply andb_prop in Ho as [Hd Ho]. destruct (tracked_step s x Hs Hd) as (s' & Hst & Hs'). rewrite Hst in *. by apply IH.
Qed.

Lemma tracked0 : tracked (tracker0 stale).
Proof. split; cbn; try done. by right. Qed.

(** While files can be opened nothing is reported as invalid. *)
Definition opens (x : action) : Prop := match x with WriteRecord _ opened => opened = true | _ => True end.

Lemma quiet_run acts s s' :
  tracked s → tk_failed s = ∅ → tk_stderr s = [] → obeys acts s = true → Forall opens acts → run acts s = Done s' →
  tk_failed s' = ∅ ∧ tk_stderr s' = [].
Proof.
  revert s. induction acts as [|x acts IH]; intros s Hs Hf He Ho Hop Hr; cbn [run obeys] in *; [by injection Hr as <-|].
  apply andb_prop in Ho as [Hd Ho]. apply Forall_cons in Hop as [Hx Hop]. destruct (tracked_step s x Hs Hd) as (s1 & Hst & Hs1).
  rewrite Hst in *. assert (tk_failed s1 = ∅ ∧ tk_stderr s1 = []) as [Hf1 He1]; [|by eapply IH]. clear IH Ho Hr Hs1.
  destruct x as [th ptr size y|th opened|th ptr|th]; cbn [step disciplined opens] in *; destruct (progress_of th s) eqn:Hp;
    try by injection Hst as <-.
  - case_decide; by injection Hst as <-.
  - subst opened. by injection Hst as <-.
  - destruct (ptr =? 0); [by injection Hst as <-|]. apply bool_decide_eq_true, holds_spec in Hd as [[r Hr] Hno].
    injection Hst as <-. cbn [unlink_step tk_failed tk_stderr]. split; [done|].
    by rewrite (tr_block _ Hs ptr r Hr Hno) by (rewrite Hf; apply not_elem_of_empty).
  - unfold free_step in Hst. destruct (tk_heap s !! ptr); [|done]. injection Hst as <-. cbn [tk_failed tk_stderr]. split; [set_solver|done].
Qed.
End tracking.

(** ** Theorems *)

(** C24: the leak report. Under every interleaving of the steps of any threads whose
    callers free only blocks they hold, whatever addresses malloc reuses, whichever
    files cannot be opened, and whatever files an earlier run left: nothing faults;
    every line of the report is a block that is allocated, with the size and the
    place in the source of that allocation, or a file of the earlier run; every
    block that a caller holds is in the report, unless its file could not be opened.
    When all files could be opened no release is reported as invalid, and with no
    files at the start and no thread inside the two functions the report lists
    exactly the allocated blocks. *)
Theorem leak_report_exact stale acts :
  obeys acts (tracker0 stale) = true →
  ∃ s, run acts (tracker0 stale) = Done s ∧
    (∀ ptr r, (ptr, r) ∈ (generate_memory_report s).1 → tk_heap s !! ptr = Some r ∨ stale !! ptr = Some r) ∧
    (∀ ptr r, tk_heap s !! ptr = Some r → (∀ th, in_flight (progress_of th s) ≠ Some ptr) → ptr ∉ tk_failed s →
       (ptr, r) ∈ (generate_memory_report s).1) ∧
    (Forall opens acts → tk_stderr s = [] ∧
       (stale = ∅ → (∀ th, progress_of th s = Idle) → generate_memory_report s = (map_to_list (tk_heap s), size (tk_heap s)))).
Proof.
  intros Ho. destruct (tracked_run stale acts _ (tracked0 stale) Ho) as (s & Hr & Hs). exists s.
  assert (∀ ptr r, (ptr, r) ∈ (generate_memory_report s).1 ↔ tk_files s !! ptr = Some r) as Hrep.
  { intros ptr r. unfold generate_memory_report. cbn [fst]. apply elem_of_map_to_list. }
  split_and!; [done| | |].
  - intros ptr r Hin%Hrep. by apply (tr_file _ _ Hs).
  - intros ptr r Hh Hno Hf. apply Hrep. by apply (tr_block _ _ Hs).
  - intros Hop. destruct (quiet_run stale acts _ s (tracked0 stale) eq_refl eq_refl Ho Hop Hr) as [Hf He]. split; [done|].
    intros -> Hidle. assert (tk_files s = tk_heap s) as Heq; [|unfold generate_memory_report; by rewrite Heq, length_map_to_list].
    apply map_eq. intros ptr. apply option_eq. intros r. split; intros Hx.
    + destruct (tr_file _ _ Hs ptr r Hx) as [|[]%lookup_empty_Some]. done.
    + apply (tr_block _ _ Hs); [done|by intros th; rewrite Hidle|rewrite Hf; apply not_elem_of_empty].
Qed.

(** Two threads; the second gets the address that the first one gives back, and one
    file of an earlier run is there. *)
Definition reuse : list action :=
  let x := Site (lit "kvs_array.c") (lit "kvs_array_set") 80 in
  [Malloc 1 4096 10 x; WriteRecord 1 true; Unlink 1 4096; Malloc 2 8192 20 x; Free 1; WriteRecord 2 true;
   Malloc 1 4096 30 x; WriteRecord 1 true].

Definition left_over : gmap Z mem_record := {[ 12288 := MemRecord (Site [] [] 1) 5 ]}.

Lemma leak_report_exact_witness :
  obeys reuse (tracker0 left_over) = true ∧
  ∃ s, run reuse (tracker0 left_over) = Done s ∧
    (∀ ptr r, (ptr, r) ∈ (generate_memory_report s).1 → tk_heap s !! ptr = Some r ∨ left_over !! ptr = Some r) ∧
    (∀ ptr r, tk_heap s !! ptr = Some r → (∀ th, in_flight (progress_of th s) ≠ Some ptr) → ptr ∉ tk_failed s →
       (ptr, r) ∈ (generate_memory_report s).1) ∧
    (Forall opens reuse → tk_stderr s = [] ∧
       (left_over = ∅ → (∀ th, progress_of th s = Idle) → generate_memory_report s = (map_to_list (tk_heap s), size (tk_heap s)))).
Proof.
  assert (obeys reuse (tracker0 left_over) = true) as Ho by (vm_compute; reflexivity).
  split; [exact Ho|]. exact (leak_report_exact left_over reuse Ho).
Defined.

(** A second release of a block is reported, and then performed. *)
Theorem double_free_performed :
  run [Malloc 1 4096 10 (Site [] [] 1); WriteRecord 1 true; Unlink 1 4096; Free 1; Unlink 1 4096; Free 1] (tracker0 ∅) = Fault UseAfterFree.
Proof. vm_compute. reflexivity. Qed.

(** When the file cannot be created the block is missing from the report and its
    release is reported as invalid. *)
Theorem unrecorded_block_misreported :
  match run [Malloc 1 4096 10 (Site [] [] 1); WriteRecord 1 false; Unlink 1 4096; Free 1] (tracker0 ∅) with
  | Done s => tk_stderr s = [4096]
  | Fault _ => False
  end.
Proof. vm_compute. reflexivity. Qed.

(** A file of an earlier run is reported as a leak for ever. *)
Theorem stale_file_reported :
  (generate_memory_report (tracker0 left_over)).1 = [(12288, MemRecord (Site [] [] 1) 5)].
Proof. vm_compute. reflexivity. Qed.
